(* ===== verification/_CoqProject ===== *)
-Q . S2P
Prelude.v
Sort.v
Timer.v
Text.v
Decimal.v
Bytes.v
Lib.v
Utf8.v
F32.v
Display.v
F32Parse.v
Words.v
Cursor.v
NodeDef.v
NodeData.v
Description.v
Channel.v
Meter.v
NativeRequest.v
NativeResponse.v
ClientMessages.v
MeterReader.v
ResponseReader.v
ClientReader.v
Attended.v
Reconnect.v
BinaryValues.v
Writes.v
PropIndex.v
PropMap.v
EmbeddedMap.v
Dump.v
Osc.v
OscClient.v
Discovery.v
Safety.v
Redact.v
Icons.v
Schema.v
SweepRows.v
Crawl.v
SchemaLookup.v
AtomicWrite.v
Capture.v
CaptureTools.v
CaptureSessions.v
Quarantine.v
Compare.v
DrivePlan.v
Drive.v
DriveRun.v
Tools.v
