(* ===== verification/Prelude.v ===== *)
(** * A verification development for libwing

    libwing is a client for Behringer WING consoles: a Native TCP protocol (channels framed
    by an escape byte, tokens inside them, node definitions in a binary form), meters over
    UDP, an OSC client, an embedded map of every node's definition, and the operations an
    application uses on top of them (attended reads, batched writes, snapshots and their
    restoration, model-aware resolution).  This library models that code, file by file, and
    proves what makes it correct.

    ** How to read it

    A Rust function becomes a Rocq function of the same name; a struct a [Record], an enum
    an [Inductive] in a module of its own (so that constructors keep the source's names); a
    [String], [&str] or [&[u8]] is a [list byte]; a fixed-width integer is a [Z] with its
    wrap-around or bounds check written out; an [f32] is its 32 bits.  A function that
    returns [Result] returns [result E A] (below); [&mut self] is explicit state, threaded
    by the monad [M S E] (below) with [let!] where many calls share it.  A panic ([unwrap],
    an index out of range, an [expect]) is [None] where the code could reach one.  All
    definitions are executable; the witnesses at the end of a file run them.

    What a program cannot compute is an input: what a socket delivers and when, the
    outcome of each write, when a deadline passes, whether another clone of the session
    asks to reconnect.  Each is a list or a number in the component's state, universally
    quantified in its theorems.  Nothing is assumed about it unless a theorem says so.

    ** The parts

    Foundations: this file ([result], the state monad, bytes, ranges, tactics);
    [Sort] (the stable [sort_by]); [Timer] (timers and deadlines); [Text] (string
    operations) and [Decimal] ([str::parse] of integers); [Bytes] (big-endian integers);
    [Utf8]; [F32] with [Display] (what numbers are printed as) and [F32Parse]
    ([str::parse] of them); [Words] (white space, words and lines of a [str]); [Lib] (the
    crate's [Error]).

    Node data, [node.rs] and [helpers.rs]: [Cursor] is the class of bounds-checked readers
    and the parser combinators' laws; [NodeDef] the definition parser and serializer;
    [NodeData] the value facets and the enum helpers; [Description] the description of a
    definition for people.

    The wire, [native.rs] and [meters.rs]: [Channel] is the framing; [Meter] the meter
    families, subscriptions and frames; [NativeRequest] the server-side request decoder;
    [NativeResponse] the server-side response encoder.

    The session, [console.rs]: [ClientMessages] is what the client writes;
    [ResponseReader] the response parser, against the class [ByteSource]; [ClientReader]
    the session state that implements it (de-framing, refilling, keep-alives, deadlines,
    roll-back); [Attended] requests that wait for their answer; [BinaryValues] raw node
    buffers; [Writes] batched writes and restore; [Dump] snapshots of a subtree;
    [MeterReader] the wait for meter frames; [Reconnect] the replacement of the session
    under all its clones, with a step relation for their interleavings; [Discovery] the
    broadcast scan, the handshake, the firmware probe and what [connect] makes of them.

    The embedded map: [PropIndex] is [propindex.rs], a view over a blob; [PropMap] the
    generator of that blob in [src/tools/wingschema.rs]; [EmbeddedMap] the class of lookups
    the rest of the crate uses, with the index as its instance; [Schema] is [schema.rs].

    OSC, [osc.rs]: [Osc] is the codec, the request builders and the reply parsers;
    [OscClient] the client with its retries, duplicates and subscriptions.

    [Safety] is [safety.rs] and the transport table of [schema.rs]; [Icons] is [icons.rs],
    the icon tables and their lookups.

    The schema tool, [src/tools/wingschema.rs]: [Crawl] is the live sweep over the attended
    reads, with the model selectors it flips and puts back; [SweepRows] the rows it writes
    ([to_json] of a definition) and the regeneration of the map's blob from them;
    [SchemaLookup] what a query finds in the map.

    The capture tool, [src/tools/wingcapture.rs]: [Redact] is [redact.rs], which removes
    identifiers; [Capture] the text format, its parser, the demands of a promotion and the
    recorder; [CaptureTools] merging, comparing, sanitizing and the provenance check, each
    from texts to a text; [CaptureSessions] the live sessions, and the proxy as the
    interleaved steps of its two threads; [Quarantine] the directory raw captures are kept
    in, over a file system with links and permissions; [AtomicWrite] is [atomic_write.rs],
    the publication of several files at once.

    The fidelity tool, [src/tools/compare.rs]: [Compare] decodes both directions of a capture
    through the session and through the request decoder, and compares what was read with the
    dump another tool made of the same capture.  Whether a keep-alive is due and the
    deadline of every read are inputs; the wording of its report is not modelled.

    The conformance driver, [src/tools/wingdrive.rs]: [DrivePlan] is what it derives from the
    embedded map (the battery, the probe's targets and inputs, the model slots, the texts of
    its files); [Drive] its work on a console, with the recovery file of a model capture;
    [DriveRun] its modes and scripts.  [Tools] is [wingprop.rs], [wingmon.rs] and the numbers
    of [wingmeters.rs].

    The interfaces: [Cursor] between readers and parsers, [ByteSource] between the session
    and the response parser, [EmbeddedMap] between the map and its clients, [TotalOrder]
    between orders and [sort_by].  The client's theorems are proved against the class and
    the instances discharge it ([generated_map] proves the laws for every generated blob).

    ** What the theorems show

    End to end: what the server encodes the client reads, in any fragmentation and with any
    idle wake-ups ([ClientReader.client_reads_server_batch]); what the client writes the
    server reads ([ClientMessages.set_value_delivered],
    [ClientMessages.meter_subscription_delivered]).

    Nothing is lost: a timed-out read puts every byte back
    ([ClientReader.read_timeout_lossless]); an attended request hands back what is not its
    answer ([Attended.attended_get_lossless], [Attended.get_node_definitions_sorts],
    [Attended.get_binary_node_exact]); a wait for meters catches every keep-alive up, and
    says which socket failed when one did ([MeterReader.read_meters_exact]); an OSC request
    keeps unsolicited messages ([OscClient.request_lossless], where messages are compared as
    the code does, a NaN differing from itself) and asks again only after a timeout
    ([OscClient.request_with_policy_exact]).

    Refinement: the byte-level request decoder implements a token semantics and stays within
    its limits on every input ([NativeRequest.decoder_push_tokens],
    [NativeRequest.decoder_push_safe]); the map index implements a list of entries
    ([PropMap.propmap_lookup], [PropMap.propmap_by_id]); the raw parser agrees with the
    typed reader ([BinaryValues.raw_parser_matches_reader]).

    Round trips of every format: definitions, raw buffers, frames, OSC messages.  The
    definition parser accepts exactly the bytes that spell a well-formed definition, field
    by field ([NodeDef.def_parse_sound]).

    Writes: an outcome is reported as success exactly when its bytes were written
    ([Writes.write_node_values_exact]); a restore never writes a read-only node nor anything
    after a failed model selector ([Writes.restore_applies]); a snapshot consists of values
    the console sent, and models that were read again, unchanged, after the last entry
    ([Dump.dump_subtree_exact]), and restoring it refuses none of its entries as read-only.

    Lookups: [wingprop] prints what the console says of the one property, up to the end
    marker, and sets exactly that one ([Tools.wingprop_exact]).

    Captures: redaction is total, keeps every length and leaves no identifier a scan of the
    streams, reassembled across chunks per connection and direction, would find
    ([Redact.redact_bytes_exact], [Redact.redact_events_clean]).  What the recorder writes
    its parser reads back ([Capture.events_to_v2_roundtrip], [Capture.recorder_reads_back]); the two readers of
    the format agree ([Capture.structure_rereads]); what is promoted is clean and complete
    ([Capture.promotion_guards]); merging keeps every byte and the order of the parts
    ([CaptureTools.merge_v2_exact]); a sanitized text holds the same events, redacted
    ([CaptureTools.sanitize_text_clean]).

    Connecting: a scan ends and lists each console once, under the address its reply came
    from ([Discovery.scan_exact]); connecting without an address reaches the console that
    replied first ([Discovery.connect_discovered]); only the console itself answers the
    firmware probe ([Discovery.probe_exact]).  A reconnect replaces the session once for all
    its clones, and reports a meter gap when a meter socket exists, subscribed or not
    ([Reconnect.reconnect_exact], [Reconnect.reconnects_coalesce]).

    Sessions: the proxy forwards exactly what its transcript says
    ([CaptureSessions.proxy_transparent]); the meter session's transcript is what happened,
    and a server reads what it wrote ([CaptureSessions.meter_session_exact]).

    Files: a raw capture is only ever written inside the quarantine, owner-only and new
    ([Quarantine.write_private_exact]), and only expired captures are deleted from it
    ([Quarantine.purge_expired_exact]); a failed publication leaves every output
    as it was, or says that its rollback failed too ([AtomicWrite.publish_outputs_atomic]).

    Fidelity: the batches of a server, recorded, are decoded to their responses, grouped by
    node ([Compare.decode_control_batches]); the comparison reports full fidelity exactly when
    the two dumps agree ([Compare.compare_fidelity_exact]).

    The driver: a capture of models restores every slot it passed, verified after the last
    write, and otherwise publishes nothing and leaves the saved values on file
    ([Drive.capture_models_restores], for a disk whose metadata queries succeed), in
    a form that reads back ([DrivePlan.path_values_read_back]); the leaves of a slot are not written before its
    selector is confirmed ([Drive.capture_selector_first]); a probe restores its targets or
    stops at the first it could not ([Drive.probe_echo_restores]); and a run without
    permission to change the console only asks ([DriveRun.run_read_only]).

    The sweep: it ends ([Crawl.add_terminates]), records every selector before it writes it
    ([Crawl.crawl_covered]) and puts back the value it found first, reporting what it could
    not, and does so before the publication of its files, which may fail
    ([Crawl.crawl_restores]); the blob regenerated from its rows is the blob of the
    sweep ([SweepRows.embed_regenerates]).

    Resolution: what the overlay of live definitions confirms was ingested or is the map's
    own ([Schema.live_resolution_sound]).

    Termination: loops on fuel are shown to have enough, and the theorems of an operation
    are about the function with the fuel the operation picks.

    ** Fuel and bounds

    A loop whose end depends on its input runs on fuel computed from that input: the length
    of the buffer ([NativeRequest.parse_audio_fuel], [BinaryValues]), the undecoded bytes
    and remaining script of a session ([ClientReader.backlog], [Attended.work]), the
    arrivals and the time left of an OSC wait, the slots of a hash table.  The lemma next to
    each says that more fuel changes nothing ([ClientReader.decode_next_terminates],
    [NativeRequest.parse_audio_terminates], [Attended.attended_loop_ok],
    [OscClient.request_loop_spec]).  The sweep runs on the work left (the depth of the tree
    the script can still describe, [Crawl.add_terminates]); the scan on its limits on
    datagrams and timeouts ([Discovery.scan_exact]); a purge on the length of the longest
    path ([Quarantine.purge_expired_exact]).  A session whose script is used up is [Blocked]: still
    waiting, which is neither a result nor an error of the code.

    ** Not modelled

    Threads and locks: a read, a write and a sweep each run alone, as the gates of the
    source make them; another clone shows up as the flags above.  What sockets, clocks and
    the name service answer is an input everywhere; creating and configuring them is not
    more than an outcome.  The embedded blob is data.  JSON is the jzon crate: a class of
    operations with their laws ([SweepRows]).  The file system of [AtomicWrite] is a map from
    paths to entries, that of [Quarantine] one from real paths, with links and modes; any call
    may fail, as an input decides; an error that quotes a line keeps the line, not the
    quoting.  Of the command-line tools, argument handling, the driver's meter phase, the
    drawing of meters and the wording of what is printed are left out. *)

From Stdlib Require Export ZArith Lia.
From Stdlib Require Import Strings.Byte.
From Stdlib Require Strings.String.
Export Strings.String.StringSyntax.
From stdpp Require Export base tactics option list numbers.
From stdpp Require Import countable.
Delimit Scope string_scope with string.

(** ** Rust's [Result], the error monad and its notations *)

(** [Result<T, E>]. *)
Inductive result (E A : Type) : Type :=
| Ok (a : A)
| Err (e : E).
Arguments Ok {E A} a.
Arguments Err {E A} e.

Definition is_ok {E A} (r : result E A) : bool :=
  match r with Ok _ => true | Err _ => false end.

Definition map_ok {E A B} (f : A → B) (r : result E A) : result E B :=
  match r with Ok a => Ok (f a) | Err e => Err e end.

(** [Option::ok_or]. *)
Definition ok_or {E A} (o : option A) (e : E) : result E A :=
  match o with Some a => Ok a | None => Err e end.

Declare Scope rust_scope.
Delimit Scope rust_scope with rust.

(** The [?] operator: [let? x := e in k] is [let x = e?; k]. *)
Notation "'let?' x ':=' r 'in' k" :=
  (match r with Ok x => k | Err e => Err e end)
  (at level 10, x pattern, r at level 100, k at level 200, only parsing) : rust_scope.

(** A method on [&mut self] that returns a [Result]: the state after the call is
    kept whether or not the call failed. *)
Definition M (S E A : Type) : Type := S → result E A * S.

Definition ret {S E A} (a : A) : M S E A := λ s, (Ok a, s).
Definition throw {S E A} (e : E) : M S E A := λ s, (Err e, s).
Definition bind {S E A B} (m : M S E A) (k : A → M S E B) : M S E B :=
  λ s, match m s with
       | (Ok a, s') => k a s'
       | (Err e, s') => (Err e, s')
       end.
Definition modify {S E} (f : S → S) : M S E unit := λ s, (Ok tt, f s).
Definition gets {S E A} (f : S → A) : M S E A := λ s, (Ok (f s), s).
Definition lift {S E A} (r : result E A) : M S E A := λ s, (r, s).

Notation "'let!' x ':=' m 'in' k" := (bind m (λ x, k))
  (at level 10, x binder, m at level 100, k at level 200, only parsing) : rust_scope.
Notation "m ';;!' k" := (bind m (λ _, k))
  (at level 199, right associativity, only parsing) : rust_scope.

(** ** Bytes *)

Abbreviation byte := Byte.byte.

#[export] Instance byte_eq_dec : EqDecision byte := Byte.byte_eq_dec.

#[export] Program Instance byte_countable : Countable byte :=
  inj_countable Byte.to_N Byte.of_N _.
Next Obligation. intros b. apply Byte.of_to_N. Qed.

(** The value of a [u8]. *)
Definition u8 (b : byte) : Z := Z.of_N (Byte.to_N b).

(** [z as u8]: truncation to the low eight bits. *)
Definition b8 (z : Z) : byte :=
  match Byte.of_N (Z.to_N (z mod 256)) with
  | Some b => b
  | None => Byte.x00
  end.

(** [b as i8]. *)
Definition i8 (b : byte) : Z := if (u8 b <? 128)%Z then u8 b else (u8 b - 256)%Z.

(** A Rust string literal as its bytes. *)
Definition str (s : String.string) : list byte := String.list_byte_of_string s.
Arguments str s%_string.

Definition bytes_eqb (a b : list byte) : bool := bool_decide (a = b).

(** ** Integer widths *)

Local Open Scope Z_scope.

Definition in_u8 (z : Z) : Prop := 0 ≤ z < 2 ^ 8.
Definition in_u16 (z : Z) : Prop := 0 ≤ z < 2 ^ 16.
Definition in_u32 (z : Z) : Prop := 0 ≤ z < 2 ^ 32.
Definition in_i8 (z : Z) : Prop := - 2 ^ 7 ≤ z < 2 ^ 7.
Definition in_i16 (z : Z) : Prop := - 2 ^ 15 ≤ z < 2 ^ 15.
Definition in_i32 (z : Z) : Prop := - 2 ^ 31 ≤ z < 2 ^ 31.

#[export] Instance in_i16_dec z : Decision (in_i16 z).
Proof. unfold in_i16; apply _. Defined.
#[export] Instance in_i32_dec z : Decision (in_i32 z).
Proof. unfold in_i32; apply _. Defined.

(** [z as i{w}]: the signed reading of the low [w] bits. *)
Definition wrap_signed (w z : Z) : Z := (z + 2 ^ (w - 1)) mod 2 ^ w - 2 ^ (w - 1).

(** ** Tactics *)

(** Linear arithmetic after unfolding the width predicates. *)
Ltac width := unfold in_u8, in_u16, in_u32, in_i8, in_i16, in_i32 in *; lia.

(** Splits the first match or conditional of the goal, clearing the impossible
    branches. *)
Ltac split_match :=
  match goal with
  | |- context [match ?x with _ => _ end] =>
      lazymatch x with
      | context [match _ with _ => _ end] => fail
      | _ => destruct x eqn:?; simplify_eq/=
      end
  end.

(** The same in a hypothesis. *)
Ltac split_match_in H :=
  match type of H with
  | context [match ?x with _ => _ end] =>
      lazymatch x with
      | context [match _ with _ => _ end] => fail
      | _ => destruct x eqn:?; simplify_eq/=
      end
  end.

(** [Forall] over an explicit list: one goal per element. *)
Ltac each_elem := repeat first [apply ListDef.Forall_nil | apply ListDef.Forall_cons].

(** Turns the boolean comparisons of the hypotheses into propositions. *)
Ltac bool_hyps :=
  repeat match goal with
  | H : (_ && _) = true |- _ => apply andb_true_iff in H as [? ?]
  | H : (_ || _) = false |- _ => apply orb_false_iff in H as [? ?]
  | H : negb _ = true |- _ => apply negb_true_iff in H
  | H : negb _ = false |- _ => apply negb_false_iff in H
  | H : (_ =? _) = true |- _ => apply Z.eqb_eq in H
  | H : (_ =? _) = false |- _ => apply Z.eqb_neq in H
  | H : (_ <=? _) = true |- _ => apply Z.leb_le in H
  | H : (_ <=? _) = false |- _ => apply Z.leb_gt in H
  | H : (_ <? _) = true |- _ => apply Z.ltb_lt in H
  | H : (_ <? _) = false |- _ => apply Z.ltb_ge in H
  | H : (_ <=? _)%nat = true |- _ => apply Nat.leb_le in H
  | H : (_ <=? _)%nat = false |- _ => apply Nat.leb_gt in H
  | H : (_ <? _)%nat = true |- _ => apply Nat.ltb_lt in H
  | H : (_ <? _)%nat = false |- _ => apply Nat.ltb_ge in H
  | H : (_ =? _)%nat = true |- _ => apply Nat.eqb_eq in H
  | H : (_ =? _)%nat = false |- _ => apply Nat.eqb_neq in H
  end.

(** ** The monad *)

Lemma bind_ok {S E A B} (m : M S E A) (k : A → M S E B) s b s' :
  bind m k s = (Ok b, s') → ∃ a s1, m s = (Ok a, s1) ∧ k a s1 = (Ok b, s').
Proof. unfold bind. intros H. destruct (m s) as [[a|e] s1]; [|done]. eauto. Qed.

(** ** Lemmas on bytes *)

Lemma u8_bound b : 0 ≤ u8 b < 256.
Proof. unfold u8. pose proof (Byte.to_N_bounded b). lia. Qed.

Lemma u8_inj a b : u8 a = u8 b → a = b.
Proof.
  unfold u8. intros H%N2Z.inj.
  pose proof (Byte.of_to_N a) as Ha. rewrite H, Byte.of_to_N in Ha. congruence.
Qed.

Lemma u8_b8 z : u8 (b8 z) = z mod 256.
Proof.
  unfold b8, u8. pose proof (Z.mod_pos_bound z 256 eq_refl).
  destruct (Byte.of_N (Z.to_N (z mod 256))) eqn:E.
  - apply Byte.to_of_N in E. rewrite E. lia.
  - apply Byte.of_N_None_iff in E. lia.
Qed.

Lemma u8_b8_small z : 0 ≤ z < 256 → u8 (b8 z) = z.
Proof. intros. rewrite u8_b8, Z.mod_small; lia. Qed.

Lemma b8_u8 b : b8 (u8 b) = b.
Proof. apply u8_inj. rewrite u8_b8_small; [done | apply u8_bound]. Qed.

Lemma b8_mod z : b8 (z mod 256) = b8 z.
Proof. unfold b8. by rewrite Z.mod_mod by lia. Qed.

Lemma i8_bound b : in_i8 (i8 b).
Proof. unfold i8. pose proof (u8_bound b). case_match; bool_hyps; width. Qed.

Lemma bytes_eqb_eq a b : bytes_eqb a b = true ↔ a = b.
Proof. apply bool_decide_eq_true. Qed.

Create HintDb bytes.
#[export] Hint Resolve u8_bound i8_bound : bytes.
Create Rewrite HintDb bytes_rw.
#[export] Hint Rewrite u8_b8 b8_u8 b8_mod : bytes_rw.

(** ** Integers as truncated words *)

Lemma wrap_signed_id w z : 0 < w → - 2 ^ (w - 1) ≤ z < 2 ^ (w - 1) → wrap_signed w z = z.
Proof.
  intros Hw Hz. unfold wrap_signed.
  assert (2 ^ w = 2 * 2 ^ (w - 1)) by (rewrite <- Z.pow_succ_r by lia; f_equal; lia).
  rewrite Z.mod_small; lia.
Qed.

Lemma wrap_signed_mod w z : 0 < w → wrap_signed w (z mod 2 ^ w) = wrap_signed w z.
Proof.
  intros. unfold wrap_signed. by rewrite Z.add_mod_idemp_l by lia.
Qed.

Lemma wrap_signed_unsigned w z : 0 < w → wrap_signed w z mod 2 ^ w = z mod 2 ^ w.
Proof.
  intros. unfold wrap_signed. rewrite Zminus_mod_idemp_l. f_equal. lia.
Qed.

Lemma wrap_signed_bound w z : 0 < w → - 2 ^ (w - 1) ≤ wrap_signed w z < 2 ^ (w - 1).
Proof.
  intros Hw. unfold wrap_signed.
  assert (2 ^ w = 2 * 2 ^ (w - 1)) by (rewrite <- Z.pow_succ_r by lia; f_equal; lia).
  assert (0 < 2 ^ (w - 1)) by (apply Z.pow_pos_nonneg; lia).
  pose proof (Z.mod_pos_bound (z + 2 ^ (w - 1)) (2 ^ w)). lia.
Qed.

(** ** Slices *)

(** [l.get(i..j)]. *)
Definition get_range {A} (l : list A) (i j : nat) : option (list A) :=
  if (i <=? j)%nat && (j <=? length l)%nat then Some (take (j - i) (drop i l)) else None.

Lemma get_range_Some {A} (l : list A) i j s :
  get_range l i j = Some s ↔ (i ≤ j ≤ length l)%nat ∧ s = take (j - i) (drop i l).
Proof.
  unfold get_range. split.
  - intros H. case_match; simplify_eq. bool_hyps. done.
  - intros [[] ->]. by rewrite !(proj2 (Nat.leb_le _ _)).
Qed.

Lemma get_range_app {A} (a b c : list A) :
  get_range (a ++ b ++ c) (length a) (length a + length b) = Some b.
Proof.
  apply get_range_Some. rewrite !length_app. split; [lia|].
  rewrite drop_app_length, Nat.add_comm, Nat.add_sub. by rewrite take_app_length.
Qed.

Lemma get_range_length {A} (l : list A) i j s : get_range l i j = Some s → length s = (j - i)%nat.
Proof. intros [? ->]%get_range_Some. rewrite length_take, length_drop. lia. Qed.

#[global] Arguments Z.ltb : simpl never.
#[global] Arguments Z.leb : simpl never.
#[global] Arguments Z.eqb : simpl never.
#[global] Arguments Z.land : simpl never.
#[global] Arguments Z.lor : simpl never.
#[global] Arguments Z.shiftl : simpl never.
#[global] Arguments Z.shiftr : simpl never.
#[global] Arguments Z.modulo : simpl never.
#[global] Arguments Z.pow : simpl never.
#[global] Arguments u8 : simpl never.
#[global] Arguments b8 : simpl never.
