(* ===== verification/Sort.v ===== *)
(** Rust's stable [sort_by] on a total preorder, with the facts a client of it needs: it
    rearranges, it sorts, it keeps the order of equal elements, and strictly ordered keys
    make its result unique; and the byte order of [&str] and [&[u8]]. *)

From stdpp Require Import sets sorting.
From S2P Require Import Prelude.

Section Sort.
Context {A : Type} (le : A → A → bool).

(** An element goes before the first one that is not smaller. *)
Fixpoint insert_by (e : A) (l : list A) : list A :=
  match l with
  | [] => [e]
  | x :: rest => if le e x then e :: l else x :: insert_by e rest
  end.

Definition sort_by (l : list A) : list A := foldr insert_by [] l.

Lemma insert_by_perm e l : insert_by e l ≡ₚ e :: l.
Proof.
  induction l as [|x l IH]; [done|]. cbn [insert_by]. case_match; [done|].
  rewrite IH. apply Permutation_swap.
Qed.

Lemma sort_by_perm l : sort_by l ≡ₚ l.
Proof. induction l as [|e l IH]; [done|]. cbn [sort_by foldr]. rewrite insert_by_perm. by constructor. Qed.

Lemma sort_by_length l : length (sort_by l) = length l.
Proof. by rewrite sort_by_perm. Qed.

Lemma elem_of_sort_by x l : x ∈ sort_by l ↔ x ∈ l.
Proof. by rewrite sort_by_perm. Qed.

(** A preorder: what [sort_by] asks of its comparison. *)
Class TotalOrder : Prop := {
  le_total a b : le a b = false → le b a = true;
  le_trans a b c : le a b = true → le b c = true → le a c = true;
}.

Context `{TotalOrder}.

Lemma insert_by_sorted e l :
  StronglySorted (λ a b, le a b = true) l → StronglySorted (λ a b, le a b = true) (insert_by e l).
Proof.
  induction 1 as [|x l Hl IH Hx]; [by repeat constructor|]. cbn [insert_by].
  destruct (le _ _) eqn:E.
  - constructor; [by constructor|]. constructor; [done|]. eapply list.Forall_impl; [exact Hx|].
    intros y Hy. exact (le_trans _ _ _ E Hy).
  - constructor; [done|]. rewrite insert_by_perm. constructor; [by apply le_total | done].
Qed.

Lemma sort_by_sorted l : StronglySorted (λ a b, le a b = true) (sort_by l).
Proof. induction l; [constructor|]. by apply insert_by_sorted. Qed.

(** Elements that compare equal keep their order: a class closed under [le] both ways. *)
Lemma sort_by_stable (P : A → Prop) `{∀ x, Decision (P x)} l :
  (∀ a b, P a → P b → le a b = true) → filter P (sort_by l) = filter P l.
Proof.
  intros HP. induction l as [|e l IH]; [done|]. cbn [sort_by foldr].
  rewrite list.filter_cons, <- IH. change (foldr insert_by [] l) with (sort_by l).
  generalize (sort_by l) as s. intros s. induction s as [|x s IHs].
  - cbn [insert_by]. by rewrite list.filter_cons.
  - cbn [insert_by]. destruct (le e x) eqn:E; [by rewrite list.filter_cons|].
    rewrite list.filter_cons, IHs. rewrite list.filter_cons.
    destruct (decide (P e)) as [He|]; [|done]. destruct (decide (P x)) as [Hx|]; [|done].
    by rewrite HP in E.
Qed.
End Sort.

(** Sorting commutes with a map that respects the comparison. *)
Lemma sort_by_map {A B} (le : A → A → bool) (le' : B → B → bool) (f : A → B) l :
  (∀ a b, le' (f a) (f b) = le a b) → map f (sort_by le l) = sort_by le' (map f l).
Proof.
  intros Hf. induction l as [|e l IH]; [done|]. cbn [map]. unfold sort_by in *. cbn [foldr]. rewrite <- IH.
  generalize (foldr (insert_by le) [] l) as s.
  induction s as [|x s IHs]; [done|]. cbn [map insert_by]. rewrite Hf. case_match; [done|].
  cbn [map]. by rewrite IHs.
Qed.

(** *** The order of byte strings *)

(** [<[u8] as Ord>::cmp], as the test [a <= b]. *)
Fixpoint bytes_le (a b : list byte) : bool :=
  match a, b with
  | [], _ => true
  | _ :: _, [] => false
  | x :: a', y :: b' => (u8 x <? u8 y)%Z || ((u8 x =? u8 y)%Z && bytes_le a' b')
  end.

#[export] Instance bytes_total : TotalOrder bytes_le.
Proof.
  split.
  - induction a as [|x a IH]; intros [|y b]; simpl; try done. intros E. bool_hyps.
    destruct (Z.eqb_spec (u8 x) (u8 y)) as [e|n]; simpl in *.
    + rewrite e, Z.eqb_refl. simpl. rewrite IH by done. apply orb_true_r.
    + apply orb_true_iff. left. apply Z.ltb_lt. lia.
  - induction a as [|x a IH]; intros [|y b] [|z c]; simpl; try done.
    intros [?%Z.ltb_lt|[?%Z.eqb_eq ?]%andb_true_iff]%orb_true_iff
           [?%Z.ltb_lt|[?%Z.eqb_eq ?]%andb_true_iff]%orb_true_iff;
      apply orb_true_iff; rewrite Z.ltb_lt; try (left; lia).
    right. apply andb_true_iff. split; [apply Z.eqb_eq; lia|]. by eapply IH.
Qed.

Lemma bytes_le_antisymm a b : bytes_le a b = true → bytes_le b a = true → a = b.
Proof.
  revert b. induction a as [|x a IH]; intros [|y b]; simpl; try done.
  intros [?%Z.ltb_lt|[?%Z.eqb_eq ?]%andb_true_iff]%orb_true_iff
         [?%Z.ltb_lt|[?%Z.eqb_eq ?]%andb_true_iff]%orb_true_iff; try lia.
  f_equal; [by apply u8_inj | by apply IH].
Qed.

Lemma bytes_le_refl a : bytes_le a a = true.
Proof. induction a; simpl; [done|]. by rewrite Z.eqb_refl, IHa, orb_true_r. Qed.

(** The order of a sorted list is its position. *)
Lemma sorted_lookup {A} (R : A → A → Prop) l i j x y :
  StronglySorted R l → (i < j)%nat → l !! i = Some x → l !! j = Some y → R x y.
Proof.
  intros Hs. revert i j. induction Hs as [|a l Hl IH Ha]; intros i j Hij Hi Hj; [done|].
  destruct j; [lia|]. destruct i; simpl in *.
  - simplify_eq. rewrite list.Forall_forall in Ha. by eapply Ha, list_elem_of_lookup_2.
  - eapply IH; [|done|done]. lia.
Qed.
