(* ===== verification/Timer.v ===== *)
(** Time in microseconds: sends that a timer makes due, and waits that end at a deadline. The
    OSC client's subscription and the meter keep-alive share it. *)

From S2P Require Import Prelude.
Local Open Scope Z_scope.

Definition MILLISECOND : Z := 1000.

(** The datagrams of one message, sent at these times. *)
Definition sends_of (b : list byte) (times : list Z) : list (Z * list byte) := map (λ t, (t, b)) times.

(** Each send is on time: not before it is due and at most a millisecond after, and the next
    one is due an interval later. *)
Fixpoint on_time (due interval : Z) (times : list Z) : Prop :=
  match times with
  | [] => True
  | t :: ts => due ≤ t ≤ due + MILLISECOND ∧ on_time (t + interval) interval ts
  end.

Definition due_after (due interval : Z) (times : list Z) : Z := foldl (λ _ t, t + interval) due times.

Lemma on_time_app due interval l1 l2 :
  on_time due interval l1 → on_time (due_after due interval l1) interval l2 → on_time due interval (l1 ++ l2).
Proof. revert due. induction l1 as [|t l1 IH]; intros due H1 H2; [done|]. destruct H1. split; [done|]. by apply IH. Qed.

Lemma due_after_app due interval l1 l2 : due_after due interval (l1 ++ l2) = due_after (due_after due interval l1) interval l2.
Proof. unfold due_after. apply foldl_app. Qed.

(** The rounds of at least a millisecond a wait has left. *)
Definition rounds_left (deadline now : Z) : nat := Z.to_nat ((deadline - now) / MILLISECOND + 1).

Lemma rounds_left_step deadline now now' :
  0 < deadline - now → now + MILLISECOND ≤ now' → (rounds_left deadline now' < rounds_left deadline now)%nat.
Proof.
  intros Hd Hn. unfold rounds_left, MILLISECOND in *.
  assert (0 ≤ (deadline - now) / 1000) by (apply Z.div_pos; lia).
  assert ((deadline - now') / 1000 + 1 ≤ (deadline - now) / 1000).
  { replace ((deadline - now') / 1000 + 1) with ((deadline - now' + 1 * 1000) / 1000) by (apply Z.div_add; lia).
    apply Z.div_le_mono; lia. }
  lia.
Qed.

Lemma rounds_left_le deadline now now' :
  now ≤ now' → (rounds_left deadline now' ≤ rounds_left deadline now)%nat.
Proof.
  intros Hn. unfold rounds_left, MILLISECOND.
  assert ((deadline - now') / 1000 ≤ (deadline - now) / 1000) by (apply Z.div_le_mono; lia). lia.
Qed.
