(* ===== verification/Text.v ===== *)
(** Rust's string operations on the bytes of a [&str]: prefixes, suffixes, substrings,
    [split], [split_once] and [join] on an ASCII separator, with their laws. *)

From S2P Require Import Prelude.
Local Open Scope Z_scope.

(** ** Operations *)

Definition slash : byte := Byte.x2f.

(** [s.contains(set)] for a set of ASCII characters, and [bytes.contains(&0)]. *)
Definition contains_any (set s : list byte) : bool := existsb (λ b, bool_decide (b ∈ set)) s.

(** [s.starts_with(p)] and [s.ends_with(p)]. *)
Fixpoint starts_with (s p : list byte) : bool :=
  match p, s with
  | [], _ => true
  | _ :: _, [] => false
  | b :: p, c :: s => bool_decide (b = c) && starts_with s p
  end.

Definition ends_with (s p : list byte) : bool := starts_with (rev s) (rev p).

Definition strip_prefix (s p : list byte) : option (list byte) :=
  if starts_with s p then Some (drop (length p) s) else None.

Definition strip_suffix (s p : list byte) : option (list byte) :=
  if ends_with s p then Some (take (length s - length p) s) else None.

(** [l.join(sep)]. *)
Fixpoint join (sep : byte) (l : list (list byte)) : list byte :=
  match l with
  | [] => []
  | [s] => s
  | s :: l => s ++ [sep] ++ join sep l
  end.

(** [s.split(sep)]. *)
Fixpoint split_on (sep : byte) (s : list byte) : list (list byte) :=
  match s with
  | [] => [[]]
  | b :: s =>
    if bool_decide (b = sep) then [] :: split_on sep s
    else match split_on sep s with p :: ps => (b :: p) :: ps | [] => [[b]] end
  end.

(** [s.split_once(sep)]. *)
Fixpoint split_once (sep : byte) (s : list byte) : option (list byte * list byte) :=
  match s with
  | [] => None
  | b :: s =>
    if bool_decide (b = sep) then Some ([], s)
    else match split_once sep s with Some (k, v) => Some (b :: k, v) | None => None end
  end.

(** [s.contains(p)] for a string. *)
Fixpoint contains (s p : list byte) : bool :=
  starts_with s p || match s with [] => false | _ :: s => contains s p end.

(** [{n}] of an unsigned number of at most [fuel] digits: decimal, without leading zeros. *)
Fixpoint decimal_fuel (fuel : nat) (z : Z) : list byte :=
  match fuel with
  | O => []
  | S fuel => (if z <? 10 then [] else decimal_fuel fuel (z / 10)) ++ [b8 (48 + z mod 10)]
  end.

Definition lowercase_byte (b : byte) : byte := if (65 <=? u8 b) && (u8 b <=? 90) then b8 (u8 b + 32) else b.

Definition to_ascii_lowercase (s : list byte) : list byte := map lowercase_byte s.

(** ** Laws *)

Lemma starts_with_app p s : starts_with (p ++ s) p = true.
Proof. induction p as [|b p IH]; [by destruct s|]. simpl. by rewrite bool_decide_eq_true_2, IH by done. Qed.

Lemma strip_prefix_app p s : strip_prefix (p ++ s) p = Some s.
Proof. unfold strip_prefix. by rewrite starts_with_app, drop_app_length. Qed.

Lemma strip_suffix_app s p : strip_suffix (s ++ p) p = Some s.
Proof.
  unfold strip_suffix, ends_with. rewrite rev_app_distr, starts_with_app, length_app, Nat.add_sub.
  by rewrite take_app_length.
Qed.

Lemma split_on_none sep s : contains_any [sep] s = false → split_on sep s = [s].
Proof.
  induction s as [|b s IH]; intros Hs; [done|]. cbn [contains_any existsb] in Hs.
  apply orb_false_iff in Hs as [Hb%bool_decide_eq_false Hs]. rewrite list_elem_of_singleton in Hb.
  cbn [split_on]. rewrite bool_decide_eq_false_2 by done. by rewrite IH.
Qed.

Lemma split_on_app sep s t : contains_any [sep] s = false → split_on sep (s ++ sep :: t) = s :: split_on sep t.
Proof.
  induction s as [|b s IH]; intros Hs; cbn [app split_on]; [by rewrite bool_decide_eq_true_2|].
  cbn [contains_any existsb] in Hs.
  apply orb_false_iff in Hs as [Hb%bool_decide_eq_false Hs]. rewrite list_elem_of_singleton in Hb.
  rewrite bool_decide_eq_false_2 by done. by rewrite IH.
Qed.

Lemma split_join sep l :
  l ≠ [] → Forall (λ s, contains_any [sep] s = false) l → split_on sep (join sep l) = l.
Proof.
  intros Hne Hl. induction Hl as [|s l Hs Hl IH]; [done|]. destruct l as [|t l].
  - by apply split_on_none.
  - change (join sep (s :: t :: l)) with (s ++ sep :: join sep (t :: l)).
    rewrite split_on_app by done. by rewrite IH.
Qed.

Lemma split_once_app sep k v : contains_any [sep] k = false → split_once sep (k ++ sep :: v) = Some (k, v).
Proof.
  induction k as [|b k IH]; intros Hk; cbn [app split_once]; [by rewrite bool_decide_eq_true_2|].
  cbn [contains_any existsb] in Hk.
  apply orb_false_iff in Hk as [Hb%bool_decide_eq_false Hk]. rewrite list_elem_of_singleton in Hb.
  rewrite bool_decide_eq_false_2 by done. by rewrite IH.
Qed.

Lemma contains_any_app set s t : contains_any set (s ++ t) = contains_any set s || contains_any set t.
Proof. apply existsb_app. Qed.

(** A character of the set. *)
Lemma contains_sub set sep s : sep ∈ set → contains_any set s = false → contains_any [sep] s = false.
Proof.
  intros Hsep. induction s as [|b s IH]; [done|]. cbn [contains_any existsb]. rewrite !orb_false_iff.
  intros [Hb%bool_decide_eq_false Hs]. split; [|by apply IH]. apply bool_decide_eq_false.
  rewrite list_elem_of_singleton. by intros ->.
Qed.

Lemma split_join_trailing sep l :
  l ≠ [] → Forall (λ s, contains_any [sep] s = false) l → split_on sep (join sep l ++ [sep]) = l ++ [[]].
Proof.
  intros Hne Hl. induction Hl as [|s l Hs Hl IH]; [done|]. destruct l as [|t l].
  - cbn [join]. by rewrite split_on_app.
  - change (join sep (s :: t :: l)) with (s ++ sep :: join sep (t :: l)).
    rewrite <- (assoc_L (++)). cbn [app]. rewrite split_on_app by done. by rewrite IH.
Qed.

Lemma strip_prefix_none s p : starts_with s p = false → strip_prefix s p = None.
Proof. unfold strip_prefix. by intros ->. Qed.


Lemma split_on_nonempty sep s : split_on sep s ≠ [].
Proof. destruct s as [|b s]; [done|]. cbn [split_on]. case_bool_decide; [done|]. by destruct (split_on sep s). Qed.

(** A separator splits whatever stands around it. *)
Lemma split_on_cat sep s t : split_on sep (s ++ sep :: t) = split_on sep s ++ split_on sep t.
Proof.
  induction s as [|b s IH]; cbn [app split_on]; [by rewrite bool_decide_eq_true_2|].
  case_bool_decide; [by rewrite IH|]. rewrite IH.
  pose proof (split_on_nonempty sep s). by destruct (split_on sep s).
Qed.

Lemma join_split sep s : join sep (split_on sep s) = s.
Proof.
  induction s as [|b s IH]; [done|]. cbn [split_on]. pose proof (split_on_nonempty sep s) as Hne.
  case_bool_decide as Hb.
  - subst b. destruct (split_on sep s) as [|p ps] eqn:E; [done|].
    change (join sep ([] :: p :: ps)) with ([] ++ [sep] ++ join sep (p :: ps)). by rewrite IH.
  - destruct (split_on sep s) as [|p ps]; [done|]. destruct ps as [|q ps]; cbn [join app] in *; by rewrite IH.
Qed.

Lemma join_app sep l1 l2 : l1 ≠ [] → l2 ≠ [] → join sep (l1 ++ l2) = join sep l1 ++ sep :: join sep l2.
Proof.
  intros H1 H2. induction l1 as [|s l1 IH]; [done|]. destruct l1 as [|t l1].
  - by destruct l2.
  - change (join sep ((s :: t :: l1) ++ l2)) with (s ++ [sep] ++ join sep ((t :: l1) ++ l2)).
    rewrite IH by done. change (join sep (s :: t :: l1)) with (s ++ [sep] ++ join sep (t :: l1)).
    by rewrite <- !(assoc_L (++)).
Qed.

Lemma starts_with_iff s p : starts_with s p = true ↔ ∃ t, s = p ++ t.
Proof.
  split; [|intros [t ->]; apply starts_with_app]. revert s. induction p as [|b p IH]; intros s H; [by exists s|].
  destruct s as [|c s]; [done|]. cbn in H. apply andb_true_iff in H as [->%bool_decide_eq_true H].
  destruct (IH s H) as [t ->]. by exists t.
Qed.

Lemma contains_iff s p : contains s p = true ↔ ∃ a b, s = a ++ p ++ b.
Proof.
  split.
  - induction s as [|c s IH]; cbn [contains].
    + rewrite orb_false_r. intros [t H]%starts_with_iff. by exists [], t.
    + intros [[t H]%starts_with_iff|H]%orb_true_iff; [by exists [], t|].
      destruct (IH H) as (a & b & ->). by exists (c :: a), b.
  - intros (a & b & ->). induction a as [|c a IH]; cbn [app].
    + destruct (p ++ b) eqn:E; cbn [contains]; rewrite <- E, starts_with_app; done.
    + cbn [contains]. by rewrite IH, orb_true_r.
Qed.

(** A text between two separators is a run of whole segments, neither the first nor the
    last. *)
Lemma contains_segments sep s p :
  contains s ([sep] ++ p ++ [sep]) = true
  ↔ ∃ pre post, pre ≠ [] ∧ post ≠ [] ∧ split_on sep s = pre ++ split_on sep p ++ post.
Proof.
  rewrite contains_iff. split.
  - intros (a & b & ->). exists (split_on sep a), (split_on sep b).
    split_and!; [apply split_on_nonempty..|]. rewrite <- !(assoc_L (++)). cbn [app].
    by rewrite split_on_cat, split_on_cat.
  - intros (pre & post & H1 & H2 & E). exists (join sep pre), (join sep post).
    rewrite <- (join_split sep s), E. pose proof (split_on_nonempty sep p) as Hp.
    rewrite join_app by (done || by destruct (split_on sep p)).
    rewrite join_app, join_split by done. by rewrite <- !(assoc_L (++)).
Qed.
