(* ===== verification/Decimal.v ===== *)
(** Rust's [str::parse] and [u32::from_str_radix] for the integers the crate reads from text. *)

From S2P Require Import Prelude Text.
Local Open Scope Z_scope.

Definition decimal_value (b : byte) : option Z :=
  let c := u8 b in if (48 <=? c) && (c <=? 57) then Some (c - 48) else None.

(** The digits of an [i32], accumulated with the sign of the literal; [None] on a bad digit
    or as soon as the value leaves the width. *)
Fixpoint i32_digits (sign : Z) (s : list byte) (acc : Z) : option Z :=
  match s with
  | [] => Some acc
  | b :: s =>
    d ← decimal_value b;
    let acc := acc * 10 + sign * d in
    if bool_decide (in_i32 acc) then i32_digits sign s acc else None
  end.

(** [s.parse::<i32>().ok()]. *)
Definition parse_i32 (s : list byte) : option Z :=
  match s with
  | [] => None
  | b :: rest =>
    if bool_decide (b = Byte.x2b) then match rest with [] => None | _ => i32_digits 1 rest 0 end
    else if bool_decide (b = Byte.x2d) then match rest with [] => None | _ => i32_digits (-1) rest 0 end
    else i32_digits 1 s 0
  end.

(** [digits.parse::<u32>().ok()] of a run of digits. *)
Fixpoint u32_digits (s : list byte) (acc : Z) : option Z :=
  match s with
  | [] => Some acc
  | b :: s =>
    d ← decimal_value b;
    let acc := acc * 10 + d in
    if acc <? 2 ^ 32 then u32_digits s acc else None
  end.

(** [s.parse::<u32>().ok()]: an optional plus sign and digits. *)
Definition parse_u32 (s : list byte) : option Z :=
  match s with
  | [] => None
  | b :: rest =>
    if bool_decide (b = Byte.x2b) then match rest with [] => None | _ => u32_digits rest 0 end
    else u32_digits s 0
  end.

(** The value of a hexadecimal digit, upper or lower case. *)
Definition hex_value (b : byte) : option Z :=
  let c := u8 b in
  if (48 <=? c) && (c <=? 57) then Some (c - 48)
  else if (97 <=? c) && (c <=? 102) then Some (c - 87)
  else if (65 <=? c) && (c <=? 70) then Some (c - 55)
  else None.

(** The digits of a [u32], [None] on a bad digit or an overflow. *)
Fixpoint hex_digits (s : list byte) (acc : Z) : option Z :=
  match s with
  | [] => Some acc
  | b :: s =>
    d ← hex_value b;
    let acc := acc * 16 + d in
    if acc <? 2 ^ 32 then hex_digits s acc else None
  end.

(** [u32::from_str_radix(s, 16)]: a leading plus sign is allowed before a digit. *)
Definition from_str_radix_16 (s : list byte) : option Z :=
  match s with
  | [] => None
  | b :: rest => if bool_decide (b = Byte.x2b) then
                   match rest with [] => None | _ => hex_digits rest 0 end
                 else hex_digits s 0
  end.

(** The digits of an unsigned integer below [bound], [None] on a bad digit or an overflow. *)
Fixpoint unsigned_digits (bound : Z) (s : list byte) (acc : Z) : option Z :=
  match s with
  | [] => Some acc
  | b :: s =>
    d ← decimal_value b;
    let acc := acc * 10 + d in
    if acc <? bound then unsigned_digits bound s acc else None
  end.

(** [s.parse::<u8>().ok()] and [s.parse::<u64>().ok()], by the bound of the type. *)
Definition parse_unsigned (bound : Z) (s : list byte) : option Z :=
  match s with
  | [] => None
  | b :: rest =>
    if bool_decide (b = Byte.x2b) then match rest with [] => None | _ => unsigned_digits bound rest 0 end
    else unsigned_digits bound s 0
  end.

Definition parse_u64 : list byte → option Z := parse_unsigned (2 ^ 64).
Definition parse_u8 : list byte → option Z := parse_unsigned (2 ^ 8).

(** ** What is printed is parsed *)

Definition digit (b : byte) : bool := (48 <=? u8 b) && (u8 b <=? 57).

Lemma digit_value b : digit b = true → decimal_value b = Some (u8 b - 48).
Proof. unfold digit, decimal_value. by intros ->. Qed.

Lemma digit_b8 z : 0 ≤ z < 10 → digit (b8 (48 + z)) = true.
Proof. intros. unfold digit. rewrite u8_b8_small by lia. apply andb_true_iff. rewrite !Z.leb_le. lia. Qed.

Lemma unsigned_digits_app bound s t acc v :
  unsigned_digits bound s acc = Some v → unsigned_digits bound (s ++ t) acc = unsigned_digits bound t v.
Proof.
  revert acc. induction s as [|b s IH]; intros acc; simpl; [by intros [= <-]|].
  destruct (decimal_value b) as [d|]; [simpl|done]. case_match; [apply IH | done].
Qed.

Lemma decimal_spec fuel bound z :
  0 ≤ z < 10 ^ Z.of_nat fuel → z < bound →
  unsigned_digits bound (decimal_fuel fuel z) 0 = Some z ∧ Forall (λ b, digit b = true) (decimal_fuel fuel z)
  ∧ (fuel ≠ 0%nat → decimal_fuel fuel z ≠ []).
Proof.
  revert z. induction fuel as [|fuel IH]; intros z Hz Hb.
  { simpl in Hz. assert (z = 0) as -> by lia. done. }
  rewrite Nat2Z.inj_succ, Z.pow_succ_r in Hz by lia. cbn [decimal_fuel].
  pose proof (Z.mod_pos_bound z 10 eq_refl) as Hm. pose proof (Z.div_mod z 10 ltac:(lia)) as Hd.
  assert (Hlast : ∀ acc, acc * 10 + z mod 10 = z → unsigned_digits bound [b8 (48 + z mod 10)] acc = Some z).
  { intros acc Hacc. cbn [unsigned_digits]. rewrite (digit_value _ (digit_b8 _ Hm)), u8_b8_small by lia. simpl.
    replace (acc * 10 + (48 + z mod 10 - 48)) with z by lia. by rewrite (proj2 (Z.ltb_lt _ _) Hb). }
  split_and!.
  - destruct (z <? 10) eqn:E; bool_hyps; [apply Hlast; rewrite Z.mod_small; lia|].
    rewrite (unsigned_digits_app _ _ _ _ (z / 10)) by (apply IH; [split; [apply Z.div_pos; lia | apply Z.div_lt_upper_bound; lia] | nia]).
    apply Hlast. lia.
  - apply list.Forall_app. split; [|constructor; [by apply digit_b8 | constructor]].
    destruct (z <? 10) eqn:E; bool_hyps; [constructor|].
    apply IH; [split; [apply Z.div_pos; lia | apply Z.div_lt_upper_bound; lia] | nia].
  - intros _ H. by apply app_eq_nil in H as [_ ?].
Qed.

Lemma parse_unsigned_decimal fuel bound z :
  fuel ≠ 0%nat → 0 ≤ z < 10 ^ Z.of_nat fuel → z < bound → parse_unsigned bound (decimal_fuel fuel z) = Some z.
Proof.
  intros Hf Hz Hb. destruct (decimal_spec fuel bound z Hz Hb) as (Hv & Hd & Hne). specialize (Hne Hf).
  unfold parse_unsigned. destruct (decimal_fuel fuel z) as [|b rest]; [done|].
  case_bool_decide as Hp; [|done]. subst b. by apply list.Forall_cons in Hd as [? _].
Qed.

Lemma parse_u64_decimal z : 0 ≤ z < 2 ^ 64 → parse_u64 (decimal_fuel 20 z) = Some z.
Proof. intros Hz. apply parse_unsigned_decimal; lia. Qed.
