(* ===== verification/Bytes.v ===== *)
(** Big-endian integers as bytes ([to_be_bytes], [from_be_bytes]) for the widths the
    two wire protocols use, with the round trips between the two directions. *)

From S2P Require Import Prelude.
Local Open Scope Z_scope.

(** ** Encoding and decoding *)

(** The [n] low-order bytes of [z], most significant first: [z.to_be_bytes()] of an
    [8 n]-bit integer, signed or not. *)
Fixpoint to_be (n : nat) (z : Z) : list byte :=
  match n with
  | O => []
  | S m => b8 (Z.shiftr z (8 * Z.of_nat m)) :: to_be m z
  end.

(** The unsigned big-endian value of [l]: [u16::from_be_bytes], [u32::from_be_bytes]. *)
Definition from_be (l : list byte) : Z := foldl (λ acc b, acc * 256 + u8 b) 0 l.

(** [i16::from_be_bytes] and [i32::from_be_bytes]. *)
Definition i16_from_be (l : list byte) : Z := wrap_signed 16 (from_be l).
Definition i32_from_be (l : list byte) : Z := wrap_signed 32 (from_be l).

(** ** Lemmas *)

Lemma to_be_length n z : length (to_be n z) = n.
Proof. induction n; simpl; congruence. Qed.

Lemma from_be_snoc l b : from_be (l ++ [b]) = from_be l * 256 + u8 b.
Proof. unfold from_be. by rewrite foldl_app. Qed.

Lemma from_be_app l1 l2 :
  from_be (l1 ++ l2) = from_be l1 * 256 ^ Z.of_nat (length l2) + from_be l2.
Proof.
  induction l2 as [|b l2 IH] using rev_ind.
  - rewrite app_nil_r. change (from_be []) with 0. simpl. lia.
  - rewrite (assoc_L (++)), !from_be_snoc, IH, length_app, Nat2Z.inj_add, Z.pow_add_r by lia.
    change (256 ^ Z.of_nat (length [b])) with 256. ring.
Qed.

Lemma from_be_cons b l : from_be (b :: l) = u8 b * 256 ^ Z.of_nat (length l) + from_be l.
Proof. apply (from_be_app [b] l). Qed.

Lemma from_be_bound l : 0 ≤ from_be l < 256 ^ Z.of_nat (length l).
Proof.
  induction l as [|b l IH]; [done|].
  rewrite from_be_cons. simpl length. rewrite Nat2Z.inj_succ, Z.pow_succ_r by lia.
  pose proof (u8_bound b). nia.
Qed.

Lemma pow_256 n : 256 ^ Z.of_nat n = 2 ^ (8 * Z.of_nat n).
Proof. rewrite Z.pow_mul_r by lia. done. Qed.

Lemma shiftr_mod_byte n k z :
  0 ≤ n < k → Z.shiftr (z mod 2 ^ (8 * k)) (8 * n) mod 256 = Z.shiftr z (8 * n) mod 256.
Proof.
  intros ?. change 256 with (2 ^ 8). apply Z.bits_inj'. intros i ?.
  rewrite !Z.testbit_mod_pow2, !Z.shiftr_spec, Z.testbit_mod_pow2 by lia.
  destruct (Z.ltb_spec i 8); [|done]. by rewrite (proj2 (Z.ltb_lt (i + 8 * n) (8 * k))) by lia.
Qed.

Lemma from_to_be n z : from_be (to_be n z) = z mod 256 ^ Z.of_nat n.
Proof.
  induction n as [|n IH]; [by rewrite Z.mod_1_r|].
  cbn [to_be]. rewrite from_be_cons, IH, to_be_length, u8_b8.
  rewrite Z.shiftr_div_pow2, <- pow_256 by lia.
  rewrite Nat2Z.inj_succ, Z.pow_succ_r by lia. rewrite (Z.mul_comm 256).
  rewrite Z.rem_mul_r by lia. ring.
Qed.

Lemma to_be_mod n k z : (n ≤ k)%nat → to_be n (z mod 256 ^ Z.of_nat k) = to_be n z.
Proof.
  induction n as [|n IH]; intros Hn; [done|]. cbn [to_be]. rewrite IH by lia. f_equal.
  rewrite <- b8_mod, pow_256, shiftr_mod_byte by lia. apply b8_mod.
Qed.

Lemma to_from_be l : to_be (length l) (from_be l) = l.
Proof.
  induction l as [|b l IH]; [done|]. cbn [length to_be]. f_equal.
  - rewrite from_be_cons, Z.shiftr_div_pow2 by lia.
    replace (2 ^ (8 * Z.of_nat (length l))) with (256 ^ Z.of_nat (length l))
      by (rewrite Z.pow_mul_r by lia; done).
    pose proof (from_be_bound l). rewrite Z.div_add_l, Z.div_small by lia.
    rewrite Z.add_0_r. apply b8_u8.
  - rewrite <- (to_be_mod _ (length l)), from_be_cons by lia.
    by rewrite (Z.add_comm (_ * _)), Z.mod_add, to_be_mod by lia.
Qed.

Lemma to_be_inj n y z :
  0 ≤ y < 256 ^ Z.of_nat n → 0 ≤ z < 256 ^ Z.of_nat n → to_be n y = to_be n z → y = z.
Proof.
  intros Hy Hz H%(f_equal from_be). rewrite !from_to_be, !Z.mod_small in H by lia. done.
Qed.

Lemma u16_round z : in_u16 z → from_be (to_be 2 z) = z.
Proof. intros. rewrite from_to_be. apply Z.mod_small. width. Qed.

Lemma u32_round z : in_u32 z → from_be (to_be 4 z) = z.
Proof. intros. rewrite from_to_be. apply Z.mod_small. width. Qed.

Lemma i16_round z : in_i16 z → i16_from_be (to_be 2 z) = z.
Proof.
  intros. unfold i16_from_be. rewrite from_to_be. change (256 ^ Z.of_nat 2) with (2 ^ 16).
  rewrite wrap_signed_mod, wrap_signed_id; width.
Qed.

Lemma i32_round z : in_i32 z → i32_from_be (to_be 4 z) = z.
Proof.
  intros. unfold i32_from_be. rewrite from_to_be. change (256 ^ Z.of_nat 4) with (2 ^ 32).
  rewrite wrap_signed_mod, wrap_signed_id; width.
Qed.

Lemma to_i32_from_be l : length l = 4%nat → to_be 4 (i32_from_be l) = l.
Proof.
  intros Hl. rewrite <- (to_be_mod 4 4) by lia. unfold i32_from_be.
  change (256 ^ Z.of_nat 4) with (2 ^ 32).
  rewrite wrap_signed_unsigned by lia. change (2 ^ 32) with (256 ^ Z.of_nat 4). rewrite to_be_mod by lia.
  by rewrite <- Hl, to_from_be.
Qed.

Lemma i32_from_be_bound l : in_i32 (i32_from_be l).
Proof. apply (wrap_signed_bound 32). lia. Qed.

Lemma i16_from_be_bound l : in_i16 (i16_from_be l).
Proof. apply (wrap_signed_bound 16). lia. Qed.

Lemma from_be_u16_bound l : length l = 2%nat → in_u16 (from_be l).
Proof. intros H. pose proof (from_be_bound l). rewrite H in *. width. Qed.

Lemma from_be_u32_bound l : length l = 4%nat → in_u32 (from_be l).
Proof. intros H. pose proof (from_be_bound l). rewrite H in *. width. Qed.

(** Explicit forms of the encodings, for computing with cursors. *)
Lemma to_be_2 z : to_be 2 z = [b8 (Z.shiftr z 8); b8 z].
Proof. cbn [to_be]. by rewrite Z.shiftr_0_r. Qed.

Lemma to_be_4 z :
  to_be 4 z = [b8 (Z.shiftr z 24); b8 (Z.shiftr z 16); b8 (Z.shiftr z 8); b8 z].
Proof. cbn [to_be]. by rewrite Z.shiftr_0_r. Qed.

#[export] Hint Resolve i32_from_be_bound i16_from_be_bound : bytes.
#[export] Hint Rewrite to_be_length : bytes_rw.

#[global] Arguments to_be : simpl never.
