(* ===== verification/Lib.v ===== *)
(** The crate's error type ([src/src/lib.rs]), shared by every component. *)

From S2P Require Import Prelude.

(** [std::io::ErrorKind], as far as the crate distinguishes the kinds. *)
Inductive ErrorKind := WouldBlock | TimedOut | Interrupted | OtherKind.

(** [libwing::Error]. *)
Inductive Error :=
| Io (kind : ErrorKind)
| InvalidData
| InvalidInput
| ConnectionError
| DiscoveryError
| MeterNotInitialized
| Timeout
| Reconnecting
| MeterFrameLength (expected actual : nat).

#[export] Instance ErrorKind_eq_dec : EqDecision ErrorKind.
Proof. solve_decision. Defined.
#[export] Instance Error_eq_dec : EqDecision Error.
Proof. solve_decision. Defined.

(** The crate's [Result<T>]. *)
Abbreviation Result A := (result Error A).
