(* ===== verification/Utf8.v ===== *)
(** UTF-8 as Rust's standard library treats it: [String::from_utf8] (validation) and
    [String::from_utf8_lossy] (replacement of the maximal ill-formed prefixes).  A Rust
    [String] is modelled by its bytes; a well-formed one satisfies [utf8_valid]. *)

From S2P Require Import Prelude Lib.
Local Open Scope Z_scope.

(** ** Classes of bytes *)

Definition is_ascii (b : byte) : bool := u8 b <? 0x80.
Definition is_cont (b : byte) : bool := (0x80 <=? u8 b) && (u8 b <=? 0xbf).

(** Lead bytes of the two-, three- and four-byte sequences. *)
Definition lead2 (b : byte) : bool := (0xc2 <=? u8 b) && (u8 b <=? 0xdf).
Definition lead3 (b : byte) : bool := (0xe0 <=? u8 b) && (u8 b <=? 0xef).
Definition lead4 (b : byte) : bool := (0xf0 <=? u8 b) && (u8 b <=? 0xf4).

(** The second byte a three- or four-byte lead admits: no overlong form, no surrogate,
    nothing above U+10FFFF. *)
Definition second3 (b0 b1 : byte) : bool :=
  if u8 b0 =? 0xe0 then (0xa0 <=? u8 b1) && (u8 b1 <=? 0xbf)
  else if u8 b0 =? 0xed then (0x80 <=? u8 b1) && (u8 b1 <=? 0x9f)
  else is_cont b1.
Definition second4 (b0 b1 : byte) : bool :=
  if u8 b0 =? 0xf0 then (0x90 <=? u8 b1) && (u8 b1 <=? 0xbf)
  else if u8 b0 =? 0xf4 then (0x80 <=? u8 b1) && (u8 b1 <=? 0x8f)
  else is_cont b1.

(** ** Scanning one scalar *)

(** The outcome of reading one scalar from the front of a byte string: a well-formed
    sequence and the rest, or a maximal ill-formed prefix skipped. *)
Inductive scan :=
| ScanEnd
| ScanChar (c rest : list byte)
| ScanBad (rest : list byte).

Definition scan_char (s : list byte) : scan :=
  match s with
  | [] => ScanEnd
  | b0 :: s1 =>
    if is_ascii b0 then ScanChar [b0] s1
    else if lead2 b0 then
      match s1 with
      | b1 :: s2 => if is_cont b1 then ScanChar [b0; b1] s2 else ScanBad s1
      | [] => ScanBad s1
      end
    else if lead3 b0 then
      match s1 with
      | b1 :: s2 =>
        if second3 b0 b1 then
          match s2 with
          | b2 :: s3 => if is_cont b2 then ScanChar [b0; b1; b2] s3 else ScanBad s2
          | [] => ScanBad s2
          end
        else ScanBad s1
      | [] => ScanBad s1
      end
    else if lead4 b0 then
      match s1 with
      | b1 :: s2 =>
        if second4 b0 b1 then
          match s2 with
          | b2 :: s3 =>
            if is_cont b2 then
              match s3 with
              | b3 :: s4 => if is_cont b3 then ScanChar [b0; b1; b2; b3] s4 else ScanBad s3
              | [] => ScanBad s3
              end
            else ScanBad s2
          | [] => ScanBad s2
          end
        else ScanBad s1
      | [] => ScanBad s1
      end
    else ScanBad s1
  end.

(** ** Validation and lossy decoding *)

(** Each scan consumes a byte, so the length of the string is enough fuel
    ([utf8_valid_eq], [from_utf8_lossy_eq] below). *)
Fixpoint utf8_valid_fuel (n : nat) (s : list byte) : bool :=
  match scan_char s with
  | ScanEnd => true
  | ScanBad _ => false
  | ScanChar _ rest => match n with O => false | S n => utf8_valid_fuel n rest end
  end.

Definition utf8_valid (s : list byte) : bool := utf8_valid_fuel (length s) s.

(** U+FFFD, the replacement character. *)
Definition replacement : list byte := [Byte.xef; Byte.xbf; Byte.xbd].

Fixpoint lossy_fuel (n : nat) (s : list byte) : list byte :=
  match scan_char s, n with
  | ScanEnd, _ | _, O => []
  | ScanChar c rest, S n => c ++ lossy_fuel n rest
  | ScanBad rest, S n => replacement ++ lossy_fuel n rest
  end.

(** [String::from_utf8]. *)
Definition from_utf8 {E} (e : E) (s : list byte) : result E (list byte) :=
  if utf8_valid s then Ok s else Err e.

(** [String::from_utf8_lossy]. *)
Definition from_utf8_lossy (s : list byte) : list byte := lossy_fuel (length s) s.

(** ** Lemmas *)

Lemma scan_char_ok s c rest :
  scan_char s = ScanChar c rest → s = c ++ rest ∧ c ≠ [].
Proof. unfold scan_char. intros H. repeat split_match_in H; done. Qed.

Lemma scan_bad_length s rest : scan_char s = ScanBad rest → (length rest < length s)%nat.
Proof. unfold scan_char. intros H. repeat split_match_in H; simpl; lia. Qed.

Lemma scan_char_length s c rest :
  scan_char s = ScanChar c rest → (length rest < length s)%nat.
Proof.
  intros [-> Hc]%scan_char_ok. destruct c; [done|]. rewrite length_app. simpl. lia.
Qed.

(** A scan that finds a scalar does not look past it. *)
Lemma scan_char_app s c rest t :
  scan_char s = ScanChar c rest → scan_char (s ++ t) = ScanChar c (rest ++ t).
Proof.
  unfold scan_char. intros H.
  repeat (split_match_in H; repeat match goal with E : ?c = _ |- context [?c] => rewrite E end);
    done.
Qed.

(** A character that was found is found alone. *)
Lemma scan_char_self s c rest : scan_char s = ScanChar c rest → scan_char c = ScanChar c [].
Proof.
  unfold scan_char. intros H.
  repeat (split_match_in H;
    repeat match goal with E : ?c = _ |- context [?c] => rewrite E end); done.
Qed.

Lemma scan_char_end s : scan_char s = ScanEnd → s = [].
Proof. unfold scan_char. intros H. repeat split_match_in H; done. Qed.

Lemma utf8_valid_fuel_irrel n m s :
  (length s ≤ n)%nat → (length s ≤ m)%nat → utf8_valid_fuel n s = utf8_valid_fuel m s.
Proof.
  revert m s. induction n as [|n IH]; intros m s Hn Hm.
  - assert (s = []) as -> by (apply nil_length_inv; lia). by destruct m.
  - destruct s as [|b s]; [by destruct m|]. destruct m as [|m]; [simpl in Hm; lia|].
    cbn [utf8_valid_fuel]. destruct (scan_char (b :: s)) eqn:E; try done.
    apply scan_char_length in E. apply IH; lia.
Qed.

Lemma utf8_valid_eq s :
  utf8_valid s = match scan_char s with
                 | ScanEnd => true
                 | ScanBad _ => false
                 | ScanChar _ rest => utf8_valid rest
                 end.
Proof.
  unfold utf8_valid. destruct s as [|b s]; [done|]. cbn [length utf8_valid_fuel].
  destruct (scan_char (b :: s)) eqn:E; try done.
  apply scan_char_length in E. simpl in E. apply utf8_valid_fuel_irrel; lia.
Qed.

Lemma lossy_fuel_irrel n m s :
  (length s ≤ n)%nat → (length s ≤ m)%nat → lossy_fuel n s = lossy_fuel m s.
Proof.
  revert m s. induction n as [|n IH]; intros m s Hn Hm.
  - assert (s = []) as -> by (apply nil_length_inv; lia). by destruct m.
  - destruct s as [|b s]; [by destruct m|]. destruct m as [|m]; [simpl in Hm; lia|].
    cbn [lossy_fuel]. destruct (scan_char (b :: s)) eqn:E; try done; f_equal.
    + apply scan_char_length in E. apply IH; lia.
    + apply scan_bad_length in E. apply IH; lia.
Qed.

Lemma from_utf8_lossy_eq s :
  from_utf8_lossy s = match scan_char s with
                      | ScanEnd => []
                      | ScanChar c rest => c ++ from_utf8_lossy rest
                      | ScanBad rest => replacement ++ from_utf8_lossy rest
                      end.
Proof.
  unfold from_utf8_lossy. destruct s as [|b s]; [done|]. cbn [length lossy_fuel].
  destruct (scan_char (b :: s)) eqn:E; try done; f_equal.
  - apply scan_char_length in E. simpl in E. apply lossy_fuel_irrel; lia.
  - apply scan_bad_length in E. simpl in E. apply lossy_fuel_irrel; lia.
Qed.

(** Induction along the scalars of a string. *)
Lemma scalar_ind (P : list byte → Prop) :
  (∀ s, scan_char s = ScanEnd → P s) →
  (∀ s c rest, scan_char s = ScanChar c rest → P rest → P s) →
  (∀ s rest, scan_char s = ScanBad rest → P rest → P s) →
  ∀ s, P s.
Proof.
  intros Hend Hchar Hbad s. remember (length s) as n eqn:Hn. revert s Hn.
  induction (lt_wf n) as [n _ IH]. intros s ->.
  destruct (scan_char s) eqn:E; [eauto| |].
  - eapply Hchar; [done|]. eapply IH; [by eapply scan_char_length|done].
  - eapply Hbad; [done|]. eapply IH; [by eapply scan_bad_length|done].
Qed.

Lemma utf8_valid_app s t : utf8_valid s = true → utf8_valid (s ++ t) = utf8_valid t.
Proof.
  induction s as [s E|s c rest E IH|s rest E IH] using scalar_ind; rewrite (utf8_valid_eq s), E;
    intros H; try done.
  - by apply scan_char_end in E as ->.
  - rewrite utf8_valid_eq. erewrite scan_char_app by done. by apply IH.
Qed.

Lemma utf8_valid_ascii s : Forall (λ b, is_ascii b = true) s → utf8_valid s = true.
Proof.
  induction 1 as [|b s Hb _ IH]; [done|]. rewrite utf8_valid_eq. cbn [scan_char].
  by rewrite Hb.
Qed.

Lemma utf8_valid_cons_ascii b s : is_ascii b = true → utf8_valid (b :: s) = utf8_valid s.
Proof. intros Hb. rewrite utf8_valid_eq. cbn [scan_char]. by rewrite Hb. Qed.

(** A lossy decode is the identity exactly on well-formed strings, and is always
    well formed. *)
Lemma from_utf8_lossy_valid s : utf8_valid s = true → from_utf8_lossy s = s.
Proof.
  induction s as [s E|s c rest E IH|s rest E IH] using scalar_ind;
    rewrite (utf8_valid_eq s), from_utf8_lossy_eq, E; intros H; try done.
  - by apply scan_char_end in E as ->.
  - rewrite IH by done. by apply scan_char_ok in E as [-> _].
Qed.

Lemma utf8_valid_lossy s : utf8_valid (from_utf8_lossy s) = true.
Proof.
  induction s as [s E|s c rest E IH|s rest E IH] using scalar_ind;
    rewrite from_utf8_lossy_eq, E; [done| |].
  - rewrite utf8_valid_eq. pose proof (scan_char_self _ _ _ E) as Hs. pose proof E as [-> Hc]%scan_char_ok.
    by erewrite scan_char_app by done.
  - by rewrite utf8_valid_app.
Qed.

Create HintDb utf8.
#[export] Hint Resolve utf8_valid_lossy utf8_valid_ascii : utf8.
