(* ===== verification/F32.v ===== *)
(** IEEE binary32 as Rust's [f32]: the value is its 32 bits, which is what both wire
    protocols carry; arithmetic and comparison go through the executable IEEE operations
    of the Standard Library's [SpecFloat] at precision 24; [Display] prints the shortest
    decimal that reads back to the same number. *)

From S2P Require Import Prelude Bytes.
From Stdlib Require Import Floats.SpecFloat.
From Stdlib Require Numbers.DecimalString.
Local Open Scope Z_scope.

(** ** Values *)

Record f32 := F32 { f32_bits : Z }.

#[export] Instance f32_eq_dec : EqDecision f32.
Proof. solve_decision. Defined.

Definition f32_ok (f : f32) : Prop := in_u32 (f32_bits f).

(** [f32::to_be_bytes], [f32::from_be_bytes]: the bits, unchanged. *)
Definition f32_to_be (f : f32) : list byte := to_be 4 (f32_bits f).
Definition f32_from_be (l : list byte) : f32 := F32 (from_be l).

Definition f32_zero : f32 := F32 0.

(** ** Arithmetic and comparison *)

Definition f32_sign (f : f32) : bool := 2 ^ 31 <=? f32_bits f.
Definition f32_exp (f : f32) : Z := Z.land (Z.shiftr (f32_bits f) 23) 0xff.
Definition f32_mant (f : f32) : Z := Z.land (f32_bits f) 0x7fffff.

Definition f32_to_sf (f : f32) : spec_float :=
  let s := f32_sign f in
  if f32_exp f =? 0xff then
    if f32_mant f =? 0 then S754_infinity s else S754_nan
  else if f32_exp f =? 0 then
    match f32_mant f with
    | Zpos m => S754_finite s m (-149)
    | _ => S754_zero s
    end
  else
    match f32_mant f + 2 ^ 23 with
    | Zpos m => S754_finite s m (f32_exp f - 150)
    | _ => S754_zero s
    end.

Definition sf_to_f32 (x : spec_float) : f32 :=
  let bits s z := F32 ((if s : bool then 2 ^ 31 else 0) + z) in
  match x with
  | S754_zero s => bits s 0
  | S754_infinity s => bits s 0x7f800000
  | S754_nan => F32 0x7fc00000
  | S754_finite s m e =>
      if Zpos m <? 2 ^ 23 then bits s (Zpos m)
      else bits s ((e + 150) * 2 ^ 23 + (Zpos m - 2 ^ 23))
  end.

Definition f32_sub (x y : f32) : f32 := sf_to_f32 (SFsub 24 128 (f32_to_sf x) (f32_to_sf y)).
Definition f32_mul (x y : f32) : f32 := sf_to_f32 (SFmul 24 128 (f32_to_sf x) (f32_to_sf y)).
Definition f32_div (x y : f32) : f32 := sf_to_f32 (SFdiv 24 128 (f32_to_sf x) (f32_to_sf y)).

(** [f32::abs] clears the sign bit. *)
Definition f32_abs (f : f32) : f32 := F32 (f32_bits f mod 2 ^ 31).

(** [==] and [<=] on [f32]: false on NaN, and -0.0 equals 0.0. *)
Definition f32_eqb (x y : f32) : bool := SFeqb (f32_to_sf x) (f32_to_sf y).
Definition f32_leb (x y : f32) : bool := SFleb (f32_to_sf x) (f32_to_sf y).

Definition f32_is_nan (f : f32) : bool :=
  (f32_exp f =? 0xff) && negb (f32_mant f =? 0).

(** [f32::max]: the other operand when one is NaN. *)
Definition f32_max (x y : f32) : f32 :=
  if f32_is_nan x then y
  else if f32_is_nan y then x
  else if f32_leb x y then y else x.

(** [n as f32] for an integer [n] that binary32 represents exactly (every [i16]). *)
Definition f32_of_int (n : Z) : f32 := sf_to_f32 (binary_normalize 24 128 n 0 false).

(** ** [Display] *)

(** [i32::to_string] and the other integer formats. *)
Definition dec (z : Z) : list byte :=
  str (DecimalString.NilZero.string_of_int (Z.to_int z)).

Definition digit (d : Z) : byte := b8 (48 + d).

(** The decoded magnitude: the value is [mant * 2^exp], and a decimal within [minus] and
    [plus] units reads back to it. *)
Record decoded := mk_decoded { mant : Z; minus : Z; plus : Z; exp : Z; inclusive : bool }.

Definition decode_f32 (f : f32) : decoded :=
  if f32_exp f =? 0 then mk_decoded (2 * f32_mant f) 1 1 (-150) true
  else
    let m := f32_mant f + 2 ^ 23 in
    let e := f32_exp f - 150 in
    if m =? 2 ^ 23 then mk_decoded (4 * m) 1 2 (e - 2) (Z.even m)
    else mk_decoded (2 * m) 1 1 (e - 1) (Z.even m).

(** Shortest digits of [m / s] given the margins: one decimal digit per step. *)
Fixpoint shortest_digits (fuel : nat) (incl : bool) (m mi pl s : Z) (acc : list Z)
    : list Z * bool :=
  match fuel with
  | O => (acc, false)
  | S fuel =>
    let d := m / s in
    let r := m mod s in
    let down := if incl then r <=? mi else r <? mi in
    let up := if incl then s <=? r + pl else s <? r + pl in
    if down || up then (acc ++ [d], up && (negb down || (s <=? 2 * r)))
    else shortest_digits fuel incl (10 * r) (10 * mi) (10 * pl) s (acc ++ [d])
  end.

(** [round_up]: increments the last digit, with carries; a carry out of the first digit
    adds one to the exponent. *)
Fixpoint round_up_rev (ds : list Z) : list Z * bool :=
  match ds with
  | [] => ([], true)
  | d :: rest =>
    if d <? 9 then (d + 1 :: rest, false)
    else let '(rest', carry) := round_up_rev rest in (0 :: rest', carry)
  end.

Definition round_up (ds : list Z) : list Z * bool :=
  let '(rds, carry) := round_up_rev (rev ds) in
  if carry then (1 :: rev rds, true) else (rev rds, false).

(** The least [k] with the upper margin below [10^k]. *)
Fixpoint scale_exp (fuel : nat) (incl : bool) (hi s : Z) (k : Z) : Z :=
  match fuel with
  | O => k
  | S fuel =>
    let '(h, t) := if 0 <=? k then (hi, s * 10 ^ k) else (hi * 10 ^ (- k), s) in
    if (if incl then t <=? h else t <? h) then scale_exp fuel incl hi s (k + 1) else k
  end.

(** [flt2dec::strategy::format_shortest]: digits and decimal exponent. *)
Definition format_shortest (d : decoded) : list Z * Z :=
  let p := 2 ^ Z.abs (exp d) in
  let '(m, mi, pl, s) :=
    if 0 <=? exp d then (mant d * p, minus d * p, plus d * p, 1)
    else (mant d, minus d, plus d, p) in
  let k := scale_exp 100 (inclusive d) (m + pl) s (-50) in
  let '(m, mi, pl, s) :=
    if 0 <=? k then (m, mi, pl, s * 10 ^ k)
    else (m * 10 ^ (- k), mi * 10 ^ (- k), pl * 10 ^ (- k), s) in
  let '(ds, up) := shortest_digits 20 (inclusive d) (10 * m) (10 * mi) (10 * pl) s [] in
  if up then let '(ds', carry) := round_up ds in (ds', if carry then k + 1 else k) else (ds, k).

(** [digits_to_dec_str] with no minimum of fractional digits. *)
Definition digits_to_dec_str (ds : list Z) (k : Z) : list byte :=
  let txt := map digit ds in
  if k <=? 0 then str "0." ++ replicate (Z.to_nat (- k)) (digit 0) ++ txt
  else if k <? Z.of_nat (length ds) then
    take (Z.to_nat k) txt ++ str "." ++ drop (Z.to_nat k) txt
  else txt ++ replicate (Z.to_nat k - length ds) (digit 0).

Definition f32_display (f : f32) : list byte :=
  let sign := if f32_sign f then str "-" else [] in
  if f32_exp f =? 0xff then
    if f32_mant f =? 0 then sign ++ str "inf" else str "NaN"
  else if (f32_exp f =? 0) && (f32_mant f =? 0) then sign ++ str "0"
  else let '(ds, k) := format_shortest (decode_f32 f) in sign ++ digits_to_dec_str ds k.

(** ** Tests and lemmas *)

Example f32_display_tests :
  f32_display (F32 0x3dcccccd) = str "0.1"
  ∧ f32_display (F32 0x3f800000) = str "1"
  ∧ f32_display (F32 0xc2b40000) = str "-90"
  ∧ f32_display (F32 0x3a83126f) = str "0.001"
  ∧ f32_display (F32 0x4b7fffff) = str "16777215"
  ∧ f32_display (F32 0x40490fdb) = str "3.1415927"
  ∧ f32_display (F32 0x7f7fffff) = str "340282350000000000000000000000000000000"
  ∧ f32_display (F32 1) = str "0.000000000000000000000000000000000000000000001"
  ∧ f32_display (F32 0x80000000) = str "-0"
  ∧ f32_display (F32 0x461c4000) = str "10000"
  ∧ f32_display (F32 0x3f7fffff) = str "0.99999994"
  ∧ f32_display (F32 0x00800000) = str "0.000000000000000000000000000000000000011754944"
  ∧ dec (-42) = str "-42" ∧ dec 0 = str "0" ∧ dec 2147483647 = str "2147483647".
Proof. vm_compute. repeat split. Qed.

Lemma f32_to_be_length f : length (f32_to_be f) = 4%nat.
Proof. done. Qed.

Lemma f32_round f : f32_ok f → f32_from_be (f32_to_be f) = f.
Proof.
  intros. destruct f as [z]. unfold f32_from_be, f32_to_be. simpl f32_bits.
  by rewrite u32_round.
Qed.

Lemma f32_from_be_ok l : length l = 4%nat → f32_ok (f32_from_be l).
Proof. apply from_be_u32_bound. Qed.

#[export] Hint Resolve f32_from_be_ok : bytes.
