(* ===== verification/Display.v ===== *)
(** What [Display] writes for numbers ([f32_display], [dec] of [F32]): digits, a minus sign
    and a decimal point and nothing else, so that a number can stand in a text without
    escaping; and the operations of [f32] its callers use. *)

From S2P Require Import Prelude Bytes F32.
From Stdlib Require Import Floats.SpecFloat.
From Stdlib Require Numbers.DecimalString.
Local Open Scope Z_scope.

(** ** Operations *)

Definition f32_add (x y : f32) : f32 := sf_to_f32 (SFadd 24 128 (f32_to_sf x) (f32_to_sf y)).

(** [x < y]: false on NaN. *)
Definition f32_ltb (x y : f32) : bool := SFltb (f32_to_sf x) (f32_to_sf y).

Definition is_finite (f : f32) : bool := negb (f32_exp f =? 0xff).

(** A digit of [{:x}], and [{:x}] of an unsigned integer of at most [fuel] digits. *)
Definition hex_digit (d : Z) : byte := b8 (if d <? 10 then 48 + d else 87 + d).

Fixpoint lower_hex (fuel : nat) (z : Z) : list byte :=
  match fuel with
  | O => []
  | S fuel => (if z <? 16 then [] else lower_hex fuel (z / 16)) ++ [hex_digit (z mod 16)]
  end.

(** ** The text of a number *)

Definition number_byte (b : byte) : Prop := 48 ≤ u8 b ≤ 57 ∨ b = Byte.x2d ∨ b = Byte.x2e.

#[export] Instance number_byte_dec b : Decision (number_byte b).
Proof. unfold number_byte. apply _. Defined.

Definition number_text (s : list byte) : Prop := Forall number_byte s ∧ s ≠ [].

Lemma number_text_app s t : number_text s → number_text t → number_text (s ++ t).
Proof. intros [H1 H2] [H3 _]. split; [by apply Forall_app|]. by destruct s. Qed.

Definition one_digit (d : Z) : Prop := 0 ≤ d ≤ 9.

Lemma one_digit_byte d : one_digit d → number_byte (digit d).
Proof. intros H. left. unfold digit. unfold one_digit in H. rewrite u8_b8_small by lia. lia. Qed.

Lemma uint_digits u : Forall number_byte (str (DecimalString.NilEmpty.string_of_uint u)).
Proof.
  induction u as [|u IH|u IH|u IH|u IH|u IH|u IH|u IH|u IH|u IH|u IH]; [apply ListDef.Forall_nil|..];
    (apply ListDef.Forall_cons; [left; split; vm_compute; congruence|exact IH]).
Qed.

Lemma dec_number z : number_text (dec z).
Proof.
  unfold dec, number_text, DecimalString.NilZero.string_of_int, DecimalString.NilZero.string_of_uint.
  assert (Hz : number_text (str (String.String (Ascii.ascii_of_nat 48) String.EmptyString)))
    by (split; [apply ListDef.Forall_cons; [left; split; vm_compute; congruence|apply ListDef.Forall_nil]|done]).
  assert (∀ u, number_text (str (match u with Decimal.Nil => String.String (Ascii.ascii_of_nat 48) String.EmptyString
                                 | _ => DecimalString.NilEmpty.string_of_uint u end))) as Hu.
  { intros u. pose proof (uint_digits u) as H. destruct u; [done|split; [done|discriminate]..]. }
  destruct (Z.to_int z) as [u|u]; [apply Hu|].
  destruct (Hu u) as [Hf _]. split; [|discriminate]. apply ListDef.Forall_cons; [right; by left|exact Hf].
Qed.

(** ** Shortest digits *)

Lemma shortest_digits_ok fuel incl m mi pl s acc :
  0 ≤ m < 10 * s → Forall one_digit acc → Forall one_digit (shortest_digits fuel incl m mi pl s acc).1.
Proof.
  revert m mi pl acc. induction fuel as [|fuel IH]; intros m mi pl acc Hm Hacc; [done|]. cbn [shortest_digits].
  assert (one_digit (m / s)) as Hd.
  { unfold one_digit. split; [apply Z.div_pos; lia|]. assert (m / s < 10); [|lia]. apply Z.div_lt_upper_bound; lia. }
  assert (Forall one_digit (acc ++ [m / s])) as Hacc' by (apply Forall_app; split; [done|by apply Forall_singleton]).
  destruct ((if incl then _ else _) || _); [done|]. apply IH; [|done].
  pose proof (Z.mod_pos_bound m s). lia.
Qed.

Lemma round_up_rev_ok ds : Forall one_digit ds → Forall one_digit (round_up_rev ds).1.
Proof.
  induction 1 as [|d rest Hd Hrest IH]; [constructor|]. cbn [round_up_rev]. destruct (Z.ltb_spec d 9).
  - constructor; [unfold one_digit in *; lia|done].
  - destruct (round_up_rev rest) as [rest' c]. cbn in *. constructor; [unfold one_digit; lia|done].
Qed.

Lemma round_up_ok ds : Forall one_digit ds → Forall one_digit (round_up ds).1.
Proof.
  intros H. unfold round_up. pose proof (round_up_rev_ok (rev ds)) as Hr.
  destruct (round_up_rev (rev ds)) as [rds c]. cbn in Hr.
  assert (Forall one_digit (rev rds)) by (apply Forall_rev, Hr, Forall_rev, H).
  destruct c; cbn; [constructor; [unfold one_digit; lia|done]|done].
Qed.

(** The scale is enough: below [10^50] the search for the exponent ends. *)
Lemma scale_exp_ok fuel incl hi s k :
  0 < s → 0 ≤ hi → hi < s * 10 ^ (k + Z.of_nat fuel) → 0 ≤ k + Z.of_nat fuel →
  let k' := scale_exp fuel incl hi s k in
  let '(h, t) := if 0 <=? k' then (hi, s * 10 ^ k') else (hi * 10 ^ (- k'), s) in
  h ≤ t.
Proof.
  revert k. induction fuel as [|fuel IH]; intros k Hs Hhi Hlt Hk; cbn [scale_exp].
  { replace (k + Z.of_nat 0) with k in * by lia. destruct (Z.leb_spec 0 k); lia. }
  destruct (0 <=? k) eqn:Ek.
  - destruct (if incl then _ else _) eqn:Ec.
    + apply IH; [done..|replace (k + 1 + Z.of_nat fuel) with (k + Z.of_nat (S fuel)) by lia; done|lia].
    + cbv zeta. rewrite Ek. destruct incl; lia.
  - destruct (if incl then _ else _) eqn:Ec.
    + apply IH; [done..|replace (k + 1 + Z.of_nat fuel) with (k + Z.of_nat (S fuel)) by lia; done|lia].
    + cbv zeta. rewrite Ek. destruct incl; lia.
Qed.

(** The bounds of a decoded finite number. *)
Lemma decode_bounds f :
  let d := decode_f32 f in
  0 ≤ mant d ∧ 0 < plus d ∧ mant d + plus d < 2 ^ 27 ∧ -200 ≤ exp d ≤ 105.
Proof.
  assert (0 ≤ f32_mant f < 2 ^ 23).
  { unfold f32_mant. change 0x7fffff with (Z.ones 23). rewrite Z.land_ones by lia. apply Z.mod_pos_bound. lia. }
  assert (0 ≤ f32_exp f < 2 ^ 8).
  { unfold f32_exp. change 0xff with (Z.ones 8). rewrite Z.land_ones by lia. apply Z.mod_pos_bound. lia. }
  unfold decode_f32. destruct (f32_exp f =? 0); [cbn; lia|]. destruct (_ =? 2 ^ 23); cbn; lia.
Qed.

(** Before the digits are taken the number is below the next power of ten. *)
Lemma format_shortest_ok d :
  0 ≤ mant d → 0 < plus d → mant d + plus d < 2 ^ 27 → -200 ≤ exp d ≤ 105 →
  Forall one_digit (format_shortest d).1.
Proof.
  intros Hm Hp Hb He. unfold format_shortest.
  assert (0 < 2 ^ Z.abs (exp d)) as Hpow by (apply Z.pow_pos_nonneg; lia).
  set (p := 2 ^ Z.abs (exp d)) in *.
  destruct (if 0 <=? exp d then _ else _) as [[[m mi] pl] s] eqn:E.
  assert (0 ≤ m ∧ 0 < pl ∧ 0 < s ∧ m + pl < s * 10 ^ 50) as (H1 & H2 & H3 & H4).
  { destruct (Z.leb_spec 0 (exp d)); injection E as <- <- <- <-; split_and!; try nia.
    assert (p ≤ 2 ^ 105) by (apply Z.pow_le_mono_r; lia). nia. }
  pose proof (scale_exp_ok 100 (inclusive d) (m + pl) s (-50) H3 ltac:(lia) H4 ltac:(lia)) as Hk. cbv zeta in Hk.
  set (k := scale_exp 100 (inclusive d) (m + pl) s (-50)) in *.
  destruct (if 0 <=? k then (m, mi, pl, s * 10 ^ k) else _) as [[[m' mi'] pl'] s'] eqn:E'.
  assert (0 ≤ m' ∧ m' < s') as [H5 H6].
  { destruct (Z.leb_spec 0 k); injection E' as <- <- <- <-; [lia|].
    assert (0 < 10 ^ (- k)) by (apply Z.pow_pos_nonneg; lia). nia. }
  pose proof (shortest_digits_ok 20 (inclusive d) (10 * m') (10 * mi') (10 * pl') s' [] ltac:(lia) ltac:(apply ListDef.Forall_nil)) as Hd.
  destruct (shortest_digits _ _ _ _ _ _ _) as [ds up]. cbn in Hd. destruct up; [|done].
  pose proof (round_up_ok ds Hd) as Hr. by destruct (round_up ds).
Qed.

Lemma digits_to_dec_str_ok ds k : Forall one_digit ds → Forall number_byte (digits_to_dec_str ds k).
Proof.
  intros Hds. unfold digits_to_dec_str.
  assert (Forall number_byte (map digit ds)) as Hm
    by (apply list.Forall_fmap; eapply list.Forall_impl; [exact Hds|apply one_digit_byte]).
  assert (∀ n, Forall number_byte (replicate n (digit 0))) as Hz
    by (intros n; apply Forall_replicate, one_digit_byte; unfold one_digit; lia).
  assert (Forall number_byte (str ".")) as Hdot by (each_elem; by right; right).
  assert (Forall number_byte (str "0.")) as Hzero
    by (each_elem; [left; split; vm_compute; congruence|by right; right]).
  destruct (k <=? 0); [|destruct (k <? _)].
  - apply Forall_app. split; [done|]. by apply Forall_app.
  - apply Forall_app. split; [by apply Forall_take|]. apply Forall_app. split; [done|by apply Forall_drop].
  - by apply Forall_app.
Qed.

Lemma digits_to_dec_str_nonempty ds k : digits_to_dec_str ds k ≠ [].
Proof.
  unfold digits_to_dec_str. destruct (Z.leb_spec k 0); [done|]. destruct (k <? _).
  - intros [_ [? _]%app_nil]%app_nil. done.
  - intros [Hd%(f_equal length) Hz%(f_equal length)]%app_nil.
    rewrite length_map in Hd. rewrite length_replicate in Hz. simpl in *. lia.
Qed.

(** A finite number is written with digits, a sign and a point. *)
Lemma f32_display_number f : is_finite f = true → number_text (f32_display f).
Proof.
  unfold is_finite, f32_display. intros ->%negb_true_iff.
  assert (Forall number_byte (if f32_sign f then str "-" else [])) as Hs
    by (destruct (f32_sign f); each_elem; by right; left).
  assert (∀ t, Forall number_byte t → t ≠ [] → number_text ((if f32_sign f then str "-" else []) ++ t)) as Happ.
  { intros t Ht Hne. split; [by apply Forall_app|]. by intros [_ ?]%app_nil. }
  destruct (_ && _); [apply Happ; [|done]; each_elem; left; split; vm_compute; congruence|].
  destruct (decode_bounds f) as (H1 & H2 & H3 & H4). pose proof (format_shortest_ok _ H1 H2 H3 H4) as H.
  destruct (format_shortest _) as [ds k]. apply Happ; [by apply digits_to_dec_str_ok|apply digits_to_dec_str_nonempty].
Qed.
