(* ===== verification/F32Parse.v ===== *)
(** [str::parse::<f32>]: the grammar of a decimal floating-point text and its value, the
    [f32] nearest to the decimal, ties to the even one. *)

From stdpp Require Import list.
From S2P Require Import Prelude Text Decimal Bytes F32 Display.
From Stdlib Require Import Floats.SpecFloat.
Local Open Scope Z_scope.

(** The digits at the front, as numbers, and the rest. *)
Fixpoint take_digits (s : list byte) : list Z * list byte :=
  match s with
  | b :: s' => match decimal_value b with
               | Some d => let '(ds, rest) := take_digits s' in (d :: ds, rest)
               | None => ([], s)
               end
  | [] => ([], [])
  end.

Definition digits_value (ds : list Z) : Z := foldl (λ acc d, acc * 10 + d) 0 ds.

(** The sign, true for minus, and the rest. *)
Definition take_sign (s : list byte) : bool * list byte :=
  match s with
  | Byte.x2d :: s => (true, s)
  | Byte.x2b :: s => (false, s)
  | _ => (false, s)
  end.

(** [n * 10^e] for positive [n], rounded to the nearest.  A decimal of [digits] digits
    beyond the range of [f32] is decided by its exponent; a fraction is taken to far more
    binary places than [f32] has, with the rest in the last one. *)
Definition decimal_f32 (sign : bool) (digits : nat) (n e : Z) : f32 :=
  let magnitude := e + Z.of_nat digits in
  if n =? 0 then F32 (if sign then 2 ^ 31 else 0)
  else if 60 <? magnitude then F32 ((if sign then 2 ^ 31 else 0) + 0x7f800000)
  else if magnitude <? -80 then F32 (if sign then 2 ^ 31 else 0)
  else
    let signed m := if sign then - m else m in
    if 0 <=? e then sf_to_f32 (binary_normalize 24 128 (signed (n * 10 ^ e)) 0 sign)
    else
      let d := 10 ^ (- e) in
      let q := (n * 2 ^ 200) / d in
      let r := (n * 2 ^ 200) mod d in
      sf_to_f32 (binary_normalize 24 128 (signed (2 * q + (if r =? 0 then 0 else 1))) (-201) sign).

(** What may follow the digits: nothing, or an exponent. *)
Definition parse_exponent (s : list byte) : option Z :=
  match s with
  | [] => Some 0
  | b :: s =>
    if bool_decide (b ∈ [Byte.x65; Byte.x45]) then
      let '(minus, s) := take_sign s in
      match take_digits s with
      | ((_ :: _) as ds, []) => Some (if minus then - digits_value ds else digits_value ds)
      | _ => None
      end
    else None
  end.

Definition parse_f32 (s : list byte) : option f32 :=
  let '(sign, s) := take_sign s in
  let lower := to_ascii_lowercase s in
  if bytes_eqb lower (str "inf") || bytes_eqb lower (str "infinity")
  then Some (F32 ((if sign then 2 ^ 31 else 0) + 0x7f800000))
  else if bytes_eqb lower (str "nan") then Some (F32 ((if sign then 2 ^ 31 else 0) + 0x7fc00000))
  else
    let '(whole, s) := take_digits s in
    let '(fraction, s) := match s with Byte.x2e :: s => take_digits s | _ => ([], s) end in
    match whole ++ fraction with
    | [] => None
    | ds => (λ e, decimal_f32 sign (length ds) (digits_value ds) (e - Z.of_nat (length fraction))) <$> parse_exponent s
    end.

Example parse_f32_tests :
  map (λ s, f32_bits <$> parse_f32 s)
    [str "0.1"; str "-90"; str "1e3"; str "3.1415927"; str "16777217"; str "16777219"; str "1e-45"; str "7e-46"; str "1e39"; str ".5"; str "5."]
  = map Some [0x3dcccccd; 0xc2b40000; 0x447a0000; 0x40490fdb; 0x4b800000; 0x4b800002; 1; 0; 0x7f800000; 0x3f000000; 0x40a00000]
  ∧ map parse_f32 [str "."; str ""; str "1e"; str "-"; str "1.5x"; str "e5"; str " 1"] = repeat None 7
  ∧ parse_f32 (str "340282350000000000000000000000000000000") = Some (F32 0x7f7fffff)
  ∧ parse_f32 (str "0.000000000000000000000000000000000000011754944") = Some (F32 0x00800000).
Proof. vm_compute. repeat split. Qed.
