(* ===== verification/Words.v ===== *)
(** Rust's operations on the characters of a [&str]: [chars], [trim], [trim_end],
    [split_whitespace], [splitn] on white space, and [lines]. *)

From S2P Require Import Prelude Text Utf8.
Local Open Scope Z_scope.

(** ** Characters and white space *)

(** The characters of a string. *)
Fixpoint chars_fuel (fuel : nat) (s : list byte) : list (list byte) :=
  match fuel with
  | O => []
  | S fuel => match scan_char s with ScanChar c rest => c :: chars_fuel fuel rest | _ => [] end
  end.
Definition chars (s : list byte) : list (list byte) := chars_fuel (length s) s.

(** The characters with the Unicode property White_Space, in UTF-8. *)
Definition white_space : list (list byte) :=
  map (map b8) ([[0x09]; [0x0a]; [0x0b]; [0x0c]; [0x0d]; [0x20]; [0xc2; 0x85]; [0xc2; 0xa0]; [0xe1; 0x9a; 0x80]]
    ++ map (λ n, [0xe2; 0x80; 0x80 + Z.of_nat n]) (seq 0 11)
    ++ [[0xe2; 0x80; 0xa8]; [0xe2; 0x80; 0xa9]; [0xe2; 0x80; 0xaf]; [0xe2; 0x81; 0x9f]; [0xe3; 0x80; 0x80]]).

Definition is_whitespace (c : list byte) : bool := existsb (bytes_eqb c) white_space.

Fixpoint skip_white (cs : list (list byte)) : list (list byte) :=
  match cs with
  | c :: cs => if is_whitespace c then skip_white cs else c :: cs
  | [] => []
  end.

(** [str::trim]. *)
Definition trim (s : list byte) : list byte := concat (rev (skip_white (rev (skip_white (chars s))))).

(** [str::trim_end]. *)
Definition trim_end (s : list byte) : list byte := concat (rev (skip_white (rev (chars s)))).

(** [str::trim_start]. *)
Definition trim_start (s : list byte) : list byte := concat (skip_white (chars s)).

(** The words of [cs]; [word] is the one being read. *)
Fixpoint words (cs : list (list byte)) (word : list byte) : list (list byte) :=
  let emit := match word with [] => [] | _ => [word] end in
  match cs with
  | [] => emit
  | c :: cs => if is_whitespace c then emit ++ words cs [] else words cs (word ++ c)
  end.

(** [str::split_whitespace]. *)
Definition split_whitespace (s : list byte) : list (list byte) := words (chars s) [].

(** [splitn(n, char::is_whitespace)]: fields, empty ones included; the last takes the rest. *)
Fixpoint fields (n : nat) (cs : list (list byte)) (field : list byte) : list (list byte) :=
  match n, cs with
  | O, _ => []
  | S O, _ => [field ++ concat cs]
  | S _, [] => [field]
  | S n', c :: cs => if is_whitespace c then field :: fields n' cs [] else fields n cs (field ++ c)
  end.

Definition splitn_whitespace (n : nat) (s : list byte) : list (list byte) := fields n (chars s) [].

Definition newline : byte := Byte.x0a.

(** A line without the carriage return before its end. *)
Definition strip_cr (l : list byte) : list byte := default l (strip_suffix l [Byte.x0d]).

(** [str::lines]: what follows the last line feed is a line only if it is not empty, and a
    carriage return is part of the line end only before a line feed. *)
Fixpoint lines_of (ls : list (list byte)) : list (list byte) :=
  match ls with
  | [] | [[]] => []
  | [l] => [l]
  | l :: ls => strip_cr l :: lines_of ls
  end.

Definition lines (s : list byte) : list (list byte) := lines_of (split_on newline s).

Example word_tests :
  split_whitespace (str "  @1 +0us   N<") = [str "@1"; str "+0us"; str "N<"]
  ∧ splitn_whitespace 4 (str "@1 +0us N< 00 11") = [str "@1"; str "+0us"; str "N<"; str "00 11"]
  ∧ splitn_whitespace 4 (str "@1  N<") = [str "@1"; []; str "N<"]
  ∧ lines (str "a" ++ [newline] ++ [newline] ++ str "b" ++ [Byte.x0d; newline]) = [str "a"; []; str "b"]
  ∧ lines (str "a" ++ [newline] ++ str "b" ++ [Byte.x0d]) = [str "a"; str "b" ++ [Byte.x0d]]
  ∧ lines [] = [].
Proof. by vm_compute. Qed.

(** ** Lemmas *)

Lemma chars_fuel_more n m s : (length s ≤ n)%nat → (length s ≤ m)%nat → chars_fuel n s = chars_fuel m s.
Proof.
  revert m s. induction n as [|n IH]; intros [|m] s Hn Hm.
  1-3: destruct s; [done|cbn [length] in *; lia].
  cbn [chars_fuel]. destruct (scan_char s) as [|c rest|] eqn:E; try done.
  pose proof (scan_char_ok _ _ _ E) as [-> Hc]. rewrite length_app in *. f_equal.
  apply IH; destruct c; try done; cbn [length] in *; lia.
Qed.

(** A single character in front. *)
Lemma chars_cons c t : scan_char c = ScanChar c [] → chars (c ++ t) = c :: chars t.
Proof.
  intros Hc. pose proof (scan_char_app _ _ _ t Hc) as E. pose proof (scan_char_ok _ _ _ Hc) as [_ Hne].
  unfold chars. destruct c as [|b c]; [done|]. cbn [app length chars_fuel] in *. rewrite E. cbn [app]. f_equal.
  apply chars_fuel_more; rewrite ?length_app; lia.
Qed.

Lemma chars_concat cs t : Forall (λ c, scan_char c = ScanChar c []) cs → chars (concat cs ++ t) = cs ++ chars t.
Proof.
  induction 1 as [|c cs Hc _ IH]; [done|]. cbn [concat]. by rewrite <- (assoc_L (++)), chars_cons, IH.
Qed.

Lemma whitespace_char c : is_whitespace c = true → scan_char c = ScanChar c [].
Proof.
  unfold is_whitespace. intros (w & Hin & ->%bytes_eqb_eq)%existsb_exists.
  assert (H : forallb (λ w, match scan_char w with ScanChar c [] => bytes_eqb c w | _ => false end) white_space = true)
    by (vm_compute; reflexivity).
  rewrite forallb_forall in H. specialize (H w Hin). destruct (scan_char w) as [|c [|]|]; try done.
  apply bytes_eqb_eq in H. by subst.
Qed.

Lemma skip_white_app ws cs :
  Forall (λ c, is_whitespace c = true) ws → skip_white (ws ++ cs) = skip_white cs.
Proof. induction 1 as [|c ws Hc _ IH]; [done|]. cbn [app skip_white]. by rewrite Hc. Qed.

Lemma skip_white_solid cs d ds : cs = d :: ds → is_whitespace d = false → skip_white cs = cs.
Proof. intros -> Hd. cbn [skip_white]. by rewrite Hd. Qed.

(** White space around a text without any at its ends is all that [trim] removes. *)
Lemma trim_around pre post cs :
  Forall (λ c, is_whitespace c = true) pre → Forall (λ c, is_whitespace c = true) post →
  Forall (λ c, scan_char c = ScanChar c [] ∧ is_whitespace c = false) cs → cs ≠ [] →
  trim (concat pre ++ concat cs ++ concat post) = concat cs.
Proof.
  intros Hpre Hpost Hcs Hne. unfold trim.
  assert (Hall : ∀ ws, Forall (λ c, is_whitespace c = true) ws → Forall (λ c, scan_char c = ScanChar c []) ws).
  { intros ws Hws. eapply list.Forall_impl; [exact Hws|]. apply whitespace_char. }
  rewrite chars_concat by auto. rewrite chars_concat by (eapply list.Forall_impl; [exact Hcs|]; by intros ? [? _]).
  rewrite <- (app_nil_r (concat post)), chars_concat by auto. change (chars []) with (@nil (list byte)). rewrite app_nil_r.
  rewrite skip_white_app by done. destruct cs as [|c0 cs0]; [done|].
  rewrite (skip_white_solid (_ ++ post) c0 (cs0 ++ post)) by (done || by apply list.Forall_cons in Hcs as [[_ ?] _]).
  rewrite rev_app_distr, skip_white_app by (by apply Forall_rev).
  apply Forall_rev in Hcs. destruct (rev (c0 :: cs0)) as [|d ds] eqn:E.
  { apply (f_equal (length (A := list byte))) in E. rewrite length_rev in E. done. }
  rewrite (skip_white_solid _ d ds) by (done || by apply list.Forall_cons in Hcs as [[_ ?] _]).
  by rewrite <- E, rev_involutive.
Qed.

(** ** ASCII text *)

(** A printable ASCII character other than the space. *)
Definition graphic (b : byte) : bool := (0x21 <=? u8 b) && (u8 b <=? 0x7e).

(** Printable ASCII, spaces inside included, none at the ends. *)
Definition printable (b : byte) : bool := (0x20 <=? u8 b) && (u8 b <=? 0x7e).
Definition plain_text (s : list byte) : bool :=
  forallb printable s && match s with [] => false | b :: _ => graphic b end
  && match rev s with [] => false | b :: _ => graphic b end.

Lemma graphic_printable b : graphic b = true → printable b = true.
Proof. destruct b; done. Qed.

Lemma printable_ascii b : printable b = true → is_ascii b = true.
Proof. destruct b; vm_compute; done. Qed.

Lemma graphic_solid b : graphic b = true → is_whitespace [b] = false.
Proof. destruct b; vm_compute; done. Qed.

Lemma chars_ascii s t : Forall (λ b, is_ascii b = true) s → chars (s ++ t) = map (λ b, [b]) s ++ chars t.
Proof.
  induction 1 as [|b s Hb _ IH]; [done|]. cbn [app map]. change (b :: s ++ t) with ([b] ++ s ++ t).
  rewrite chars_cons; [by rewrite IH|]. unfold scan_char. by rewrite Hb.
Qed.

Lemma chars_ascii_nil s : Forall (λ b, is_ascii b = true) s → chars s = map (λ b, [b]) s.
Proof. intros Hs. rewrite <- (app_nil_r s) at 1. rewrite chars_ascii by done. apply app_nil_r. Qed.

Lemma concat_singletons (s : list byte) : concat (map (λ b, [b]) s) = s.
Proof. induction s as [|b s IH]; [done|]. cbn. by rewrite IH. Qed.

Lemma skip_white_graphic b cs : graphic b = true → skip_white ([b] :: cs) = [b] :: cs.
Proof. intros Hb. cbn [skip_white]. by rewrite graphic_solid. Qed.

(** Trimming an ASCII text that starts and ends in graphic characters, maybe with spaces
    around it. *)
Lemma trim_end_ascii s b spaces :
  Forall (λ b, is_ascii b = true) s → graphic b = true → Forall (λ b, b = Byte.x20) spaces →
  trim_end ((s ++ [b]) ++ spaces) = s ++ [b].
Proof.
  intros Hs Hb Hsp. unfold trim_end. rewrite chars_ascii_nil, map_app, rev_app_distr.
  2: { apply list.Forall_app. split; [apply list.Forall_app; split; [done|constructor; [by apply printable_ascii, graphic_printable|constructor]]|].
       eapply list.Forall_impl; [exact Hsp|]. by intros ? ->. }
  rewrite skip_white_app; [|apply Forall_rev, List.Forall_map; eapply list.Forall_impl; [exact Hsp|]; by intros ? ->].
  rewrite map_app, rev_app_distr. cbn [map rev app]. rewrite skip_white_graphic by done.
  cbn [rev]. by rewrite rev_involutive, concat_app, concat_singletons.
Qed.

Lemma trim_start_ascii spaces b s :
  Forall (λ b, is_ascii b = true) s → graphic b = true → Forall (λ b, b = Byte.x20) spaces →
  trim_start (spaces ++ b :: s) = b :: s.
Proof.
  intros Hs Hb Hsp. unfold trim_start. rewrite chars_ascii_nil, map_app.
  2: { apply list.Forall_app. split; [eapply list.Forall_impl; [exact Hsp|]; by intros ? ->|].
       constructor; [by apply printable_ascii, graphic_printable | done]. }
  rewrite skip_white_app; [|apply List.Forall_map; eapply list.Forall_impl; [exact Hsp|]; by intros ? ->].
  cbn [map]. rewrite skip_white_graphic by done. apply (concat_singletons (b :: s)).
Qed.

Lemma plain_text_inv s :
  plain_text s = true → Forall (λ b, printable b = true) s ∧ (∃ b t, s = b :: t ∧ graphic b = true)
  ∧ ∃ t b, s = t ++ [b] ∧ graphic b = true.
Proof.
  unfold plain_text. intros [[H1 H2]%andb_true_iff H3]%andb_true_iff. split_and!.
  - apply list.Forall_forall. intros b Hb. rewrite forallb_forall in H1. apply H1. by apply list_elem_of_In.
  - destruct s as [|b t]; [done|]. by eexists _, _.
  - destruct (rev s) as [|b t] eqn:E; [done|]. exists (rev t), b. split; [|done].
    apply (f_equal (@rev byte)) in E. rewrite rev_involutive in E. exact E.
Qed.

Lemma ascii_printable s : Forall (λ b, printable b = true) s → Forall (λ b, is_ascii b = true) s.
Proof. intros H. eapply list.Forall_impl; [exact H|]. apply printable_ascii. Qed.

(** [trim] of a plain text between spaces. *)
Lemma trim_plain l s r :
  plain_text s = true → Forall (λ b, b = Byte.x20) l → Forall (λ b, b = Byte.x20) r → trim (l ++ s ++ r) = s.
Proof.
  intros (Hp & (b & t & Hb & Hgb) & (u & c & Hc & Hgc))%plain_text_inv Hl Hr.
  assert (Forall (λ b, is_ascii b = true) l) as Hal by (eapply list.Forall_impl; [exact Hl|]; by intros ? ->).
  assert (Forall (λ b, is_ascii b = true) r) as Har by (eapply list.Forall_impl; [exact Hr|]; by intros ? ->).
  pose proof (ascii_printable _ Hp) as Ha.
  pose proof (trim_start_ascii l b (t ++ r)) as Hs. rewrite app_comm_cons, <- Hb in Hs.
  pose proof (trim_end_ascii u c r) as He. rewrite <- Hc in He.
  unfold trim_start in Hs. unfold trim_end in He. unfold trim.
  assert (skip_white (chars (l ++ s ++ r)) = chars (s ++ r)) as ->.
  { rewrite (chars_ascii l) by done. rewrite skip_white_app.
    - rewrite Hb. cbn [app]. rewrite (chars_ascii_nil (b :: t ++ r)); [by apply skip_white_graphic|].
      change (b :: t ++ r) with ((b :: t) ++ r). rewrite <- Hb. apply list.Forall_app. done.
    - apply List.Forall_map. eapply list.Forall_impl; [exact Hl|]. by intros ? ->. }
  apply He; [|done..]. rewrite Hc in Ha. by apply list.Forall_app in Ha as [? _].
Qed.

(** ** Words and lines of an ASCII text *)

Definition solid (w : list byte) : Prop := Forall (λ b, graphic b = true) w.

Lemma solid_ascii w : solid w → Forall (λ b, is_ascii b = true) w.
Proof. intros H. eapply list.Forall_impl; [exact H|]. intros b Hb. by apply printable_ascii, graphic_printable. Qed.

(** A word of graphic characters is read up to what ends it. *)
Lemma words_solid w cs acc : solid w → words (map (λ b, [b]) w ++ cs) acc = words cs (acc ++ w).
Proof.
  intros Hw. revert acc. induction Hw as [|b w Hb _ IH]; intros acc; [by rewrite app_nil_r|].
  cbn [map app words]. rewrite graphic_solid, IH by done. by rewrite <- app_assoc.
Qed.

Lemma split_whitespace_one w : solid w → w ≠ [] → split_whitespace w = [w].
Proof.
  intros Hw Hne. unfold split_whitespace. rewrite chars_ascii_nil, <- (app_nil_r (map _ w)), words_solid by auto using solid_ascii.
  by destruct w.
Qed.

Lemma split_whitespace_cons w s :
  solid w → w ≠ [] → Forall (λ b, is_ascii b = true) s → split_whitespace (w ++ Byte.x20 :: s) = w :: split_whitespace s.
Proof.
  intros Hw Hne Hs. unfold split_whitespace. rewrite (chars_ascii w), words_solid by auto using solid_ascii.
  rewrite !chars_ascii_nil by (done || by constructor). cbn [map words app].
  change (is_whitespace [Byte.x20]) with true. by destruct w.
Qed.

Lemma fields_solid n w cs acc :
  solid w → fields (S (S n)) (map (λ b, [b]) w ++ cs) acc = fields (S (S n)) cs (acc ++ w).
Proof.
  intros Hw. revert acc. induction Hw as [|b w Hb _ IH]; intros acc; [by rewrite app_nil_r|].
  cbn [map app fields]. rewrite graphic_solid by done. rewrite IH. by rewrite <- app_assoc.
Qed.

Lemma splitn_cons n w s :
  solid w → Forall (λ b, is_ascii b = true) s →
  splitn_whitespace (S (S n)) (w ++ Byte.x20 :: s) = w :: splitn_whitespace (S n) s.
Proof.
  intros Hw Hs. unfold splitn_whitespace. rewrite (chars_ascii w), fields_solid by auto using solid_ascii.
  rewrite !chars_ascii_nil by (done || by constructor). reflexivity.
Qed.

Lemma splitn_end n w : solid w → splitn_whitespace (S (S n)) w = [w].
Proof.
  intros Hw. unfold splitn_whitespace. rewrite chars_ascii_nil, <- (app_nil_r (map _ w)), fields_solid by auto using solid_ascii.
  reflexivity.
Qed.

Lemma fields_one cs field : fields 1 cs field = [field ++ concat cs].
Proof. by destruct cs. Qed.

Lemma splitn_last s : Forall (λ b, is_ascii b = true) s → splitn_whitespace 1 s = [s].
Proof. intros Hs. unfold splitn_whitespace. rewrite chars_ascii_nil, fields_one by done. by rewrite concat_singletons. Qed.

(** A line that [lines] returns as it is, when a line feed follows. *)
Definition line_ok (l : list byte) : Prop := contains_any [newline] l = false ∧ strip_cr l = l.

Lemma strip_cr_id l : Forall (λ b, printable b = true) l → strip_cr l = l.
Proof.
  intros Hl. unfold strip_cr, strip_suffix, ends_with. destruct (rev l) as [|b r] eqn:E; [done|].
  apply Forall_rev in Hl. rewrite E in Hl. apply list.Forall_cons in Hl as [Hb _]. cbn [rev app starts_with].
  rewrite bool_decide_eq_false_2; [done|]. by intros <-.
Qed.

Lemma printable_line l : Forall (λ b, printable b = true) l → line_ok l.
Proof.
  intros Hl. split; [|by apply strip_cr_id]. unfold contains_any. apply not_true_iff_false. intros (b & Hin & Hb)%existsb_exists.
  apply bool_decide_eq_true, list_elem_of_singleton in Hb as ->. apply list_elem_of_In in Hin.
  by pose proof (proj1 (list.Forall_forall _ _) Hl _ Hin).
Qed.

Lemma lines_of_cons l x xs : lines_of (l :: x :: xs) = strip_cr l :: lines_of (x :: xs).
Proof. by destruct l. Qed.

Lemma lines_text ls t : Forall line_ok ls → lines (concat (map (λ l, l ++ [newline]) ls) ++ t) = ls ++ lines t.
Proof.
  induction 1 as [|l ls [Hl Hc] _ IH]; [done|]. cbn [map concat]. unfold lines in *.
  rewrite <- !app_assoc. cbn [app]. rewrite split_on_app by done. cbn [app].
  destruct (split_on newline (concat (map (λ l, l ++ [newline]) ls) ++ t)) as [|x xs] eqn:E; [by apply split_on_nonempty in E|].
  by rewrite lines_of_cons, Hc, IH.
Qed.

(** A text whose last word is solid, up to the spaces after it. *)
Lemma trim_end_solid s w spaces :
  Forall (λ b, is_ascii b = true) s → solid w → w ≠ [] → Forall (λ b, b = Byte.x20) spaces →
  trim_end ((s ++ w) ++ spaces) = s ++ w.
Proof.
  intros Hs Hw Hne Hsp. destruct (exists_last Hne) as (t & b & ->). apply list.Forall_app in Hw as [Ht Hb].
  apply list.Forall_cons in Hb as [Hb _]. rewrite app_assoc. apply trim_end_ascii; [|done..].
  apply list.Forall_app. split; [done | by apply solid_ascii].
Qed.

Lemma plain_text_intro b s v :
  graphic b = true → Forall (λ b, printable b = true) s → plain_text v = true → plain_text (b :: s ++ v) = true.
Proof.
  intros Hb Hs (Hv & _ & (t & c & -> & Hc))%plain_text_inv. unfold plain_text.
  rewrite Hb, app_comm_cons, app_assoc, rev_app_distr. cbn [rev app]. rewrite Hc, !andb_true_r. apply forallb_forall.
  intros x Hx%list_elem_of_In. apply (proj1 (list.Forall_forall (λ b, printable b = true) ((b :: s) ++ t ++ [c]))); [|by rewrite app_assoc].
  apply list.Forall_app. split; [|done]. constructor; [by apply graphic_printable | done].
Qed.

Lemma trim_end_plain s : plain_text s = true → trim_end s = s.
Proof.
  intros (Hp & _ & (t & c & -> & Hc))%plain_text_inv. rewrite <- (app_nil_r (t ++ [c])) at 1.
  apply trim_end_ascii; [|done|constructor]. apply ascii_printable in Hp. by apply list.Forall_app in Hp as [? _].
Qed.

Lemma trim_plain_id s : plain_text s = true → trim s = s.
Proof. intros Hs. rewrite <- (app_nil_r s) at 1. apply (trim_plain [] s []); [done|constructor..]. Qed.

Lemma trim_space_plain s : plain_text s = true → trim (Byte.x20 :: s) = s.
Proof.
  intros Hs. rewrite <- (app_nil_r s) at 1. apply (trim_plain [Byte.x20] s []); [done | by repeat constructor | constructor].
Qed.

(** ** Trimming does not change the first words *)

Lemma chars_scalars s : Forall (λ c, scan_char c = ScanChar c []) (chars s).
Proof.
  unfold chars. generalize (length s) as n. intros n. revert s. induction n as [|n IH]; intros s; [constructor|].
  cbn [chars_fuel]. destruct (scan_char s) as [|c rest|] eqn:E; [constructor | | constructor].
  constructor; [by apply scan_char_self in E | apply IH].
Qed.

Lemma skip_white_suffix cs : ∃ ws, Forall (λ c, is_whitespace c = true) ws ∧ cs = ws ++ skip_white cs.
Proof.
  induction cs as [|c cs (ws & Hw & E)]; [by exists []|]. cbn [skip_white]. destruct (is_whitespace c) eqn:Hc.
  - exists (c :: ws). split; [by constructor|]. cbn. by f_equal.
  - by exists [].
Qed.

(** The characters of a text are those of the trimmed text and white space. *)
Lemma chars_trim_end s : ∃ ws, Forall (λ c, is_whitespace c = true) ws ∧ chars s = chars (trim_end s) ++ ws.
Proof.
  destruct (skip_white_suffix (rev (chars s))) as (ws & Hw & E). exists (rev ws). split; [by apply Forall_rev|].
  apply (f_equal (@rev _)) in E. rewrite rev_involutive, rev_app_distr in E. unfold trim_end.
  rewrite <- (app_nil_r (concat _)), chars_concat; [by rewrite app_nil_r|].
  pose proof (chars_scalars s) as H. rewrite E in H. by apply list.Forall_app in H as [H _].
Qed.

Lemma fields_take n cs ws : ∀ field,
  Forall (λ c, is_whitespace c = true) ws → (n ≤ length (fields (S n) cs field))%nat →
  take n (fields (S n) (cs ++ ws) field) = take n (fields (S n) cs field).
Proof.
  revert n. induction cs as [|c cs IH]; intros n field Hw Hlen.
  - destruct n as [|[|n]]; [done | | cbn in Hlen; lia]. destruct Hw as [|w ws Hc _]; [done|]. cbn [app fields]. by rewrite Hc.
  - destruct n as [|n]; [done|]. cbn [app fields] in *. destruct (is_whitespace c).
    + cbn [take]. f_equal. apply IH; [done|]. cbn [length] in Hlen. lia.
    + by apply (IH (S n)).
Qed.

Lemma splitn_trim n s :
  (n ≤ length (splitn_whitespace (S n) (trim_end s)))%nat →
  take n (splitn_whitespace (S n) s) = take n (splitn_whitespace (S n) (trim_end s)).
Proof.
  intros Hlen. unfold splitn_whitespace in *. destruct (chars_trim_end s) as (ws & Hw & ->). by apply fields_take.
Qed.

(** The characters that are no white space. *)
Definition solid_chars (s : list byte) : list (list byte) := List.filter (λ c, negb (is_whitespace c)) (chars s).

Lemma filter_white ws :
  Forall (λ c, is_whitespace c = true) ws → List.filter (λ c, negb (is_whitespace c)) ws = [].
Proof. induction 1 as [|c ws Hc _ IH]; [done|]. cbn [List.filter]. by rewrite Hc. Qed.

Lemma white_scalars ws : Forall (λ c, is_whitespace c = true) ws → Forall (λ c, scan_char c = ScanChar c []) ws.
Proof. intros H. eapply list.Forall_impl; [exact H|]. apply whitespace_char. Qed.

Lemma chars_concat_nil cs : Forall (λ c, scan_char c = ScanChar c []) cs → chars (concat cs) = cs.
Proof. intros H. rewrite <- (app_nil_r (concat cs)), chars_concat by done. apply app_nil_r. Qed.

Lemma solid_chars_trim s : solid_chars (trim s) = solid_chars s.
Proof.
  unfold trim, solid_chars. destruct (skip_white_suffix (chars s)) as (w1 & H1 & E1).
  destruct (skip_white_suffix (rev (skip_white (chars s)))) as (w2 & H2 & E2).
  apply (f_equal (@rev _)) in E2. rewrite rev_involutive, rev_app_distr in E2. pose proof (chars_scalars s) as Hs.
  rewrite E1, E2 in Hs. apply list.Forall_app in Hs as [_ [Hs _]%list.Forall_app]. rewrite chars_concat_nil by done.
  rewrite E1 at 2. rewrite E2 at 2. rewrite !List.filter_app, (filter_white w1), (filter_white (rev w2)) by (done || by apply Forall_rev).
  by rewrite app_nil_r.
Qed.

Lemma fields_rest n cs ws : ∀ field,
  Forall (λ c, scan_char c = ScanChar c []) cs → Forall (λ c, is_whitespace c = true) ws →
  (n ≤ length (fields (S n) cs field))%nat → (n = 0%nat → field = []) →
  solid_chars (concat (drop n (fields (S n) (cs ++ ws) field))) = solid_chars (concat (drop n (fields (S n) cs field))).
Proof.
  revert n. induction cs as [|c cs IH]; intros n field Hs Hw Hlen Hf.
  - destruct n as [|[|n]]; [| | cbn in Hlen; lia].
    + rewrite Hf, !fields_one by done. cbn [app drop concat]. rewrite !app_nil_r. unfold solid_chars.
      rewrite chars_concat_nil by by apply white_scalars. by rewrite filter_white.
    + destruct Hw as [|w ws Hc Hw]; [done|]. cbn [app fields]. rewrite Hc, fields_one. cbn [drop concat app].
      rewrite app_nil_r. unfold solid_chars. rewrite chars_concat_nil by by apply white_scalars. by rewrite filter_white.
  - destruct n as [|n].
    + rewrite Hf, !fields_one by done. cbn [drop concat app]. rewrite !app_nil_r.
      change (c ++ concat (cs ++ ws)) with (concat ((c :: cs) ++ ws)). change (c ++ concat cs) with (concat (c :: cs)).
      assert (Forall (λ c, scan_char c = ScanChar c []) ((c :: cs) ++ ws)) by
        (apply list.Forall_app; split; [done | by apply white_scalars]).
      unfold solid_chars. rewrite !chars_concat_nil by done. rewrite List.filter_app, (filter_white ws) by done. apply app_nil_r.
    + apply list.Forall_cons in Hs as [Hc Hs]. cbn [app fields] in *. destruct (is_whitespace c).
      * cbn [drop]. apply IH; [done.. | cbn [length] in Hlen; lia | done].
      * by apply (IH (S n)).
Qed.

Lemma fields_length n cs : ∀ field, (length (fields n cs field) ≤ n)%nat.
Proof.
  revert n. induction cs as [|c cs IH]; intros n field; destruct n as [|[|n]]; cbn [fields length]; try lia.
  destruct (is_whitespace c); [cbn [length]; pose proof (IH (S n) []); lia | apply (IH (S (S n)))].
Qed.

(** Both a text and its trimmed form start with an ASCII character that is no white space,
    or neither does. *)
Lemma starts_chars b s : is_ascii b = true → starts_with s [b] = true ↔ head (chars s) = Some [b].
Proof.
  intros Hb. split.
  - intros (t & ->)%starts_with_iff. rewrite (chars_ascii [b]); [done | by repeat constructor].
  - unfold chars. destruct s as [|x s]; [done|]. cbn [length chars_fuel].
    destruct (scan_char (x :: s)) as [|c rest|] eqn:E; [done | | done]. intros [= ->].
    apply scan_char_ok in E as [-> _]. apply starts_with_app.
Qed.

Lemma starts_trim b s : graphic b = true → starts_with (trim_end s) [b] = true ↔ starts_with s [b] = true.
Proof.
  intros Hb. rewrite !starts_chars by by apply printable_ascii, graphic_printable.
  destruct (chars_trim_end s) as (ws & Hw & ->). destruct (chars (trim_end s)) as [|c cs]; [|done].
  cbn [app head]. split; [done|]. destruct Hw as [|w ws Hc _]; [done|]. intros [= ->]. by rewrite graphic_solid in Hc.
Qed.
