(* ===== verification/Cursor.v ===== *)
(** Cursor readers over a byte slice ([src/src/node.rs]: [take], [read_u8], [read_u16],
    [read_i32], [read_f32], [read_string]).  The source threads [raw] and [&mut i]
    through bounds-checked reads; here a reader takes the slice and the cursor and
    returns the value with the advanced cursor.

    The class [Cursor] is the contract between the readers and the parsers built from
    them: a reader moves forward within the slice, looks at nothing past the cursor it
    returns, fails with [InvalidData] on any slice cut short of that cursor, and knows
    no other error.  [Writes] relates a reader to the bytes it reads back. *)

From S2P Require Import Prelude Bytes Lib Utf8 F32.
Local Open Scope rust_scope.

(** ** Readers *)

Definition reader (A : Type) : Type := list byte → nat → Result (A * nat).

Definition rd_ret {A} (a : A) : reader A := λ raw i, Ok (a, i).
Definition rd_bind {A B} (r : reader A) (k : A → reader B) : reader B :=
  λ raw i, match r raw i with Ok (a, j) => k a raw j | Err e => Err e end.

Notation "'let@' x ':=' r 'in' k" := (rd_bind r (λ x, k))
  (at level 10, x binder, r at level 100, k at level 200, only parsing) : rust_scope.

Definition take_bytes (len : nat) : reader (list byte) := λ raw i,
  if (length raw - i <? len)%nat then Err InvalidData
  else Ok (take len (drop i raw), (i + len)%nat).

Definition read_u8 : reader Z :=
  let@ b := take_bytes 1 in rd_ret (from_be b).

Definition read_u16 : reader Z :=
  let@ b := take_bytes 2 in rd_ret (from_be b).

Definition read_i32 : reader Z :=
  let@ b := take_bytes 4 in rd_ret (i32_from_be b).

Definition read_f32 : reader f32 :=
  let@ b := take_bytes 4 in rd_ret (f32_from_be b).

Definition rd_lift {A} (r : Result A) : reader A := λ raw i,
  match r with Ok a => Ok (a, i) | Err e => Err e end.

Definition read_string (len : nat) : reader (list byte) :=
  let@ b := take_bytes len in rd_lift (from_utf8 InvalidData b).

(** [for _ in 0..n] around a reader, collecting the items. *)
Fixpoint read_many {A} (n : nat) (r : reader A) : reader (list A) :=
  match n with
  | O => rd_ret []
  | S n => let@ a := r in let@ l := read_many n r in rd_ret (a :: l)
  end.

(** ** The contract of a reader *)

Class Cursor {A} (r : reader A) : Prop := {
  cursor_forward raw i a j : r raw i = Ok (a, j) → (i ≤ length raw)%nat → (i ≤ j ≤ length raw)%nat;
  cursor_local raw raw' i a j :
    r raw i = Ok (a, j) → (i ≤ length raw)%nat → take j raw = take j raw' →
    r raw' i = Ok (a, j);
  cursor_short raw i a j k :
    r raw i = Ok (a, j) → (i ≤ k < j)%nat → (j ≤ length raw)%nat → r (take k raw) i = Err InvalidData;
  cursor_error raw i e : r raw i = Err e → e = InvalidData;
}.

(** [r] reads the value [a] back from the bytes [w], wherever they stand, as long as what
    follows them satisfies [P]. *)
Definition Writes_if {A} (P : list byte → Prop) (r : reader A) (w : list byte) (a : A) : Prop :=
  ∀ pre post, P post → r (pre ++ w ++ post) (length pre) = Ok (a, (length pre + length w)%nat).

Abbreviation Writes := (Writes_if (λ _, True)).

(** ** Lemmas *)

#[export] Instance rd_ret_cursor {A} (a : A) : Cursor (rd_ret a).
Proof.
  split; unfold rd_ret; intros; simplify_eq; try done; lia.
Qed.

Lemma take_eq_length {A} (l l' : list A) j :
  take j l = take j l' → (j ≤ length l)%nat → (j ≤ length l')%nat.
Proof. intros H%(f_equal length). rewrite !length_take in H. lia. Qed.

Lemma take_eq_le {A} (l l' : list A) i j : (i ≤ j)%nat → take j l = take j l' → take i l = take i l'.
Proof.
  intros Hij H%(f_equal (take i)). rewrite !take_take in H. by rewrite !Nat.min_l in H by lia.
Qed.

#[export] Instance take_bytes_cursor len : Cursor (take_bytes len).
Proof.
  split; unfold take_bytes; intros.
  - case_match; simplify_eq; bool_hyps. lia.
  - destruct (length raw - i <? len)%nat eqn:E; simplify_eq; bool_hyps.
    pose proof (take_eq_length _ _ _ H1 ltac:(lia)).
    rewrite (proj2 (Nat.ltb_ge _ _)) by lia. do 2 f_equal.
    apply (f_equal (drop i)) in H1. rewrite !skipn_firstn_comm in H1.
    by replace (i + len - i)%nat with len in H1 by lia.
  - case_match; simplify_eq; bool_hyps.
    by rewrite (proj2 (Nat.ltb_lt _ _)) by (rewrite length_take; lia).
  - case_match; by simplify_eq.
Qed.

#[export] Instance rd_bind_cursor {A B} (r : reader A) (k : A → reader B) :
  Cursor r → (∀ a, Cursor (k a)) → Cursor (rd_bind r k).
Proof.
  intros Hr Hk. split; unfold rd_bind.
  - intros raw i b j H Hi. destruct (r raw i) as [[a j']|] eqn:E; [|done].
    apply cursor_forward in E; [|done]. apply cursor_forward in H; lia.
  - intros raw raw' i b j H Hi Ht. destruct (r raw i) as [[a j']|] eqn:E; [|done].
    pose proof (cursor_forward _ _ _ _ E Hi). pose proof (cursor_forward _ _ _ _ H ltac:(lia)).
    rewrite (cursor_local _ raw' _ _ _ E Hi) by (eapply take_eq_le; [|exact Ht]; lia).
    eapply cursor_local; eauto with lia.
  - intros raw i b j n H Hn Hj. destruct (r raw i) as [[a j']|] eqn:E; [|done].
    pose proof (cursor_forward _ _ _ _ E ltac:(lia)).
    destruct (decide (n < j')%nat).
    + by rewrite (cursor_short _ _ _ _ _ E) by lia.
    + assert (r (take n raw) i = Ok (a, j')) as ->
        by (eapply cursor_local; [done|lia|]; by rewrite take_take, Nat.min_l by lia).
      eapply cursor_short; eauto with lia.
  - intros raw i e H. destruct (r raw i) as [[a j']|] eqn:E.
    + by apply cursor_error in H.
    + simplify_eq. by apply cursor_error in E.
Qed.

#[export] Instance read_u8_cursor : Cursor read_u8 := _.
#[export] Instance read_u16_cursor : Cursor read_u16 := _.
#[export] Instance read_i32_cursor : Cursor read_i32 := _.
#[export] Instance read_f32_cursor : Cursor read_f32 := _.

#[export] Instance rd_utf8_cursor b : Cursor (rd_lift (from_utf8 InvalidData b)).
Proof.
  unfold from_utf8, rd_lift. split; destruct (utf8_valid b); intros; simplify_eq; try done; lia.
Qed.

#[export] Instance read_string_cursor len : Cursor (read_string len) := _.

#[export] Instance read_many_cursor {A} n (r : reader A) : Cursor r → Cursor (read_many n r).
Proof. intros. induction n; apply _. Qed.

Lemma writes_ret {A} P (a : A) : Writes_if P (rd_ret a) [] a.
Proof. intros pre post _. unfold rd_ret. by rewrite Nat.add_0_r. Qed.

Lemma writes_weaken {A} P (r : reader A) w a : Writes r w a → Writes_if P r w a.
Proof. intros H pre post _. by apply H. Qed.

Lemma writes_bind {A B} P (r : reader A) (k : A → reader B) w1 w2 a b :
  Writes r w1 a → Writes_if P (k a) w2 b → Writes_if P (rd_bind r k) (w1 ++ w2) b.
Proof.
  intros H1 H2 pre post HP. unfold rd_bind. rewrite <- (assoc_L (++)), H1 by done.
  specialize (H2 (pre ++ w1) post HP).
  rewrite length_app, <- (assoc_L (++)) in H2. rewrite H2, length_app. do 2 f_equal. lia.
Qed.

Lemma writes_bind_ret {A B} P (r : reader A) (f : A → B) w a :
  Writes_if P r w a → Writes_if P (rd_bind r (λ a, rd_ret (f a))) w (f a).
Proof. intros H pre post HP. unfold rd_bind. by rewrite H. Qed.

Lemma writes_take w : Writes (take_bytes (length w)) w w.
Proof.
  intros pre post _. unfold take_bytes. rewrite !length_app.
  rewrite (proj2 (Nat.ltb_ge _ _)) by lia. by rewrite drop_app_length, take_app_length.
Qed.

Lemma writes_take_n n w : length w = n → Writes (take_bytes n) w w.
Proof. intros <-. apply writes_take. Qed.

Lemma writes_u8 z : in_u8 z → Writes read_u8 [b8 z] z.
Proof.
  intros Hz. replace z with (from_be [b8 z]) at 2.
  - apply writes_bind_ret, writes_take_n. done.
  - unfold from_be. cbn [foldl]. rewrite u8_b8_small; width.
Qed.

Lemma writes_u16 z : in_u16 z → Writes read_u16 (to_be 2 z) z.
Proof.
  intros Hz. rewrite <- (u16_round z) at 2 by done.
  apply writes_bind_ret, writes_take_n, to_be_length.
Qed.

Lemma writes_i32 z : in_i32 z → Writes read_i32 (to_be 4 z) z.
Proof.
  intros Hz. rewrite <- (i32_round z) at 2 by done.
  apply writes_bind_ret, writes_take_n, to_be_length.
Qed.

Lemma writes_f32 f : f32_ok f → Writes read_f32 (f32_to_be f) f.
Proof.
  intros Hf. rewrite <- (f32_round f) at 2 by done.
  apply writes_bind_ret, writes_take_n. done.
Qed.

Lemma writes_string w : utf8_valid w = true → Writes (read_string (length w)) w w.
Proof.
  intros Hw. rewrite <- (app_nil_r w) at 2. eapply writes_bind; [apply writes_take|].
  intros pre post _. unfold rd_lift, from_utf8. rewrite Hw. by rewrite Nat.add_0_r.
Qed.

Lemma writes_many {A} (r : reader A) (enc : A → list byte) (l : list A) :
  Forall (λ a, Writes r (enc a) a) l → Writes (read_many (length l) r) (concat (map enc l)) l.
Proof.
  induction 1 as [|a l Ha _ IH]; [apply writes_ret|].
  cbn [length read_many map concat]. eapply writes_bind; [done|].
  by apply (writes_bind_ret _ _ (cons a)).
Qed.

(** What a successful read says about the value. *)
Definition Reads {A} (r : reader A) (P : A → Prop) : Prop :=
  ∀ raw i a j, r raw i = Ok (a, j) → P a.

Lemma reads_ret {A} (a : A) (P : A → Prop) : P a → Reads (rd_ret a) P.
Proof. intros H raw i a' j [= <- <-]. done. Qed.

Lemma reads_bind {A B} (r : reader A) (k : A → reader B) (P : A → Prop) (Q : B → Prop) :
  Reads r P → (∀ a, P a → Reads (k a) Q) → Reads (rd_bind r k) Q.
Proof.
  intros Hr Hk raw i b j H. unfold rd_bind in H.
  destruct (r raw i) as [[a j']|] eqn:E; [|done]. eapply Hk; [|done]. by eapply Hr.
Qed.

Lemma reads_take len : Reads (take_bytes len) (λ b, length b = len).
Proof.
  intros raw i a j H. unfold take_bytes in H. split_match_in H. bool_hyps.
  rewrite length_take, length_drop. lia.
Qed.

Lemma reads_u8 : Reads read_u8 in_u8.
Proof.
  eapply reads_bind; [apply reads_take|]. intros b Hb. apply reads_ret.
  pose proof (from_be_bound b). rewrite Hb in *. width.
Qed.

Lemma reads_u16 : Reads read_u16 in_u16.
Proof.
  eapply reads_bind; [apply reads_take|]. intros b Hb. by apply reads_ret, from_be_u16_bound.
Qed.

Lemma reads_i32 : Reads read_i32 in_i32.
Proof.
  eapply reads_bind; [apply reads_take|]. intros b _. apply reads_ret. auto with bytes.
Qed.

Lemma reads_f32 : Reads read_f32 f32_ok.
Proof.
  eapply reads_bind; [apply reads_take|]. intros b Hb. apply reads_ret. auto with bytes.
Qed.

Lemma reads_string len : Reads (read_string len) (λ s, utf8_valid s = true ∧ length s = len).
Proof.
  eapply reads_bind; [apply reads_take|]. intros b Hb raw i a j H.
  unfold rd_lift, from_utf8 in H. repeat split_match_in H. done.
Qed.

Lemma reads_many {A} n (r : reader A) (P : A → Prop) :
  Reads r P → Reads (read_many n r) (λ l, length l = n ∧ Forall P l).
Proof.
  intros Hr. induction n as [|n IH]; [by apply reads_ret|].
  cbn [read_many]. eapply reads_bind; [done|]. intros a Ha.
  eapply reads_bind; [done|]. intros l [Hl Hf]. apply reads_ret. simpl. auto.
Qed.

(** What a successful read says of the bytes: they are [w], followed by what is left. *)
Definition Consumes {A} (r : reader A) (Q : A → list byte → list byte → Prop) : Prop :=
  ∀ raw i a j, r raw i = Ok (a, j) → ∃ w, drop i raw = w ++ drop j raw ∧ Q a w (drop j raw).

Lemma consumes_ret {A} (a : A) (Q : A → list byte → list byte → Prop) :
  (∀ rest, Q a [] rest) → Consumes (rd_ret a) Q.
Proof. intros H raw i a' j [= <- <-]. by exists []. Qed.

Lemma consumes_weaken {A} (r : reader A) (P Q : A → list byte → list byte → Prop) :
  Consumes r P → (∀ a w rest, P a w rest → Q a w rest) → Consumes r Q.
Proof. intros H HPQ raw i a j (w & Hw & HP)%H. eauto. Qed.

Lemma consumes_bind {A B} (r : reader A) (k : A → reader B) P Q :
  Consumes r (λ a w _, P a w) →
  (∀ a w, P a w → Consumes (k a) (λ b w' rest, Q b (w ++ w') rest)) → Consumes (rd_bind r k) Q.
Proof.
  intros Hr Hk raw i b j H. unfold rd_bind in H.
  destruct (r raw i) as [[a j']|] eqn:E; [|done]. apply Hr in E as (w & Hw & HP).
  apply (Hk a w HP) in H as (w' & Hw' & HQ). exists (w ++ w'). by rewrite Hw, Hw', (assoc_L (++)).
Qed.

Lemma consumes_bind_ret {A B} (r : reader A) (f : A → B) Q :
  Consumes r (λ a w rest, Q (f a) w rest) → Consumes (rd_bind r (λ a, rd_ret (f a))) Q.
Proof.
  intros Hr raw i b j H. unfold rd_bind, rd_ret in H.
  destruct (r raw i) as [[a j']|] eqn:E; [|done]. injection H as <- <-. by apply Hr in E.
Qed.

Lemma consumes_take len : Consumes (take_bytes len) (λ b w _, w = b ∧ length b = len).
Proof.
  intros raw i a j H. pose proof (reads_take _ _ _ _ _ H) as Hl. unfold take_bytes in H.
  case_match; [done|]. injection H as <- <-. exists (take len (drop i raw)). by rewrite <- drop_drop, take_drop.
Qed.

Lemma consumes_u8 : Consumes read_u8 (λ z w _, in_u8 z ∧ w = [b8 z]).
Proof.
  apply consumes_bind_ret. eapply consumes_weaken; [apply consumes_take|].
  intros b w _ [-> Hb]. pose proof (from_be_bound b). rewrite Hb in *. split; [width|].
  rewrite <- (to_from_be b) at 1. by rewrite Hb.
Qed.

Lemma consumes_u16 : Consumes read_u16 (λ z w _, in_u16 z ∧ w = to_be 2 z).
Proof.
  apply consumes_bind_ret. eapply consumes_weaken; [apply consumes_take|].
  intros b w _ [-> Hb]. split; [by apply from_be_u16_bound|]. by rewrite <- Hb, to_from_be.
Qed.

Lemma consumes_i32 : Consumes read_i32 (λ z w _, in_i32 z ∧ w = to_be 4 z).
Proof.
  apply consumes_bind_ret. eapply consumes_weaken; [apply consumes_take|].
  intros b w _ [-> Hb]. split; [auto with bytes|]. by rewrite to_i32_from_be.
Qed.

Lemma consumes_f32 : Consumes read_f32 (λ f w _, f32_ok f ∧ w = f32_to_be f).
Proof.
  apply consumes_bind_ret. eapply consumes_weaken; [apply consumes_take|].
  intros b w _ [-> Hb]. split; [auto with bytes|]. unfold f32_to_be, f32_from_be. cbn [f32_bits].
  by rewrite <- Hb, to_from_be.
Qed.

Lemma consumes_string len :
  Consumes (read_string len) (λ s w _, utf8_valid s = true ∧ length s = len ∧ w = s).
Proof.
  eapply consumes_bind; [apply consumes_take|]. intros b w [-> Hb] raw i a j H.
  unfold rd_lift, from_utf8 in H. repeat split_match_in H. exists []. by rewrite app_nil_r.
Qed.

Lemma consumes_many {A} n (r : reader A) (enc : A → list byte) (P : A → Prop) :
  Consumes r (λ a w _, P a ∧ w = enc a) →
  Consumes (read_many n r) (λ l w _, length l = n ∧ Forall P l ∧ w = concat (map enc l)).
Proof.
  intros Hr. induction n as [|n IH]; [by apply consumes_ret|].
  cbn [read_many]. eapply consumes_bind; [apply Hr|]. intros a w [Ha ->].
  apply consumes_bind_ret. eapply consumes_weaken; [apply IH|].
  intros l w _ (Hl & Hf & ->). simpl. auto.
Qed.

Create HintDb cursor.
#[export] Hint Resolve writes_ret writes_u8 writes_u16 writes_i32 writes_f32 writes_string : cursor.
#[export] Hint Resolve reads_u8 reads_u16 reads_i32 reads_f32 reads_string : cursor.
