(* ===== verification/NodeDef.v ===== *)
(** Node definitions and node values ([src/src/node.rs]): the binary form of a
    [WingNodeDef] with its parser and serializer, and the value facets of
    [WingNodeData]. *)

From S2P Require Import Prelude Bytes Lib Utf8 F32 Cursor.
Local Open Scope rust_scope.

(** ** Data *)

Module NodeTypes.
Inductive NodeType :=
| Node | LinearFloat | LogarithmicFloat | FaderLevel | Integer | StringEnum | FloatEnum | String
| Unknown (raw : Z).
End NodeTypes.
Abbreviation NodeType := NodeTypes.NodeType.

Module NodeUnits.
Inductive NodeUnit :=
| None | Db | Percent | Milliseconds | Hertz | Meters | Seconds | Octaves
| Unknown (raw : Z).
End NodeUnits.
Abbreviation NodeUnit := NodeUnits.NodeUnit.

#[export] Instance NodeType_eq_dec : EqDecision NodeType.
Proof. solve_decision. Defined.
#[export] Instance NodeUnit_eq_dec : EqDecision NodeUnit.
Proof. solve_decision. Defined.

Record StringEnumItem := mk_string_item { si_item : list byte; si_long_item : list byte }.
Record FloatEnumItem := mk_float_item { fi_item : f32; fi_long_item : list byte }.

Record WingNodeDef := mk_def {
  def_id : Z;
  def_parent_id : Z;
  def_index : Z;
  def_name : list byte;
  def_long_name : list byte;
  def_node_type : NodeType;
  def_unit : NodeUnit;
  def_read_only : bool;
  def_min_float : option f32;
  def_max_float : option f32;
  def_steps : option Z;
  def_min_int : option Z;
  def_max_int : option Z;
  def_max_string_len : option Z;
  def_string_enum : option (list StringEnumItem);
  def_float_enum : option (list FloatEnumItem);
  def_raw : list byte;
}.

#[export] Instance StringEnumItem_eq_dec : EqDecision StringEnumItem.
Proof. solve_decision. Defined.
#[export] Instance FloatEnumItem_eq_dec : EqDecision FloatEnumItem.
Proof. solve_decision. Defined.
#[export] Instance WingNodeDef_eq_dec : EqDecision WingNodeDef.
Proof. solve_decision. Defined.

(** ** Serializing *)

(** [native::node_type_nibble]. *)
Definition node_type_nibble (t : NodeType) : Z :=
  match t with
  | NodeTypes.Node => 0
  | NodeTypes.LinearFloat => 1
  | NodeTypes.LogarithmicFloat => 2
  | NodeTypes.FaderLevel => 3
  | NodeTypes.Integer => 4
  | NodeTypes.StringEnum => 5
  | NodeTypes.FloatEnum => 6
  | NodeTypes.String => 7
  | NodeTypes.Unknown v => Z.land v 0x0f
  end.

Definition node_unit_nibble (u : NodeUnit) : Z :=
  match u with
  | NodeUnits.None => 0
  | NodeUnits.Db => 1
  | NodeUnits.Percent => 2
  | NodeUnits.Milliseconds => 3
  | NodeUnits.Hertz => 4
  | NodeUnits.Meters => 5
  | NodeUnits.Seconds => 6
  | NodeUnits.Octaves => 7
  | NodeUnits.Unknown v => Z.land v 0x0f
  end.

Definition push_short_string (raw value : list byte) : Result (list byte) :=
  if (255 <? length value)%nat then Err InvalidInput
  else Ok (raw ++ [b8 (Z.of_nat (length value))] ++ value).

Fixpoint push_string_items (raw : list byte) (items : list StringEnumItem) : Result (list byte) :=
  match items with
  | [] => Ok raw
  | it :: rest =>
    let? raw := push_short_string raw (si_item it) in
    let? raw := push_short_string raw (si_long_item it) in
    push_string_items raw rest
  end.

Fixpoint push_float_items (raw : list byte) (items : list FloatEnumItem) : Result (list byte) :=
  match items with
  | [] => Ok raw
  | it :: rest =>
    let? raw := push_short_string (raw ++ f32_to_be (fi_item it)) (fi_long_item it) in
    push_float_items raw rest
  end.

Definition flags_word (d : WingNodeDef) : Z :=
  let flags := Z.lor (Z.shiftl (node_type_nibble (def_node_type d)) 4)
                     (node_unit_nibble (def_unit d)) in
  if def_read_only d then Z.lor flags (Z.shiftl 1 9) else flags.

(** The type-specific tail of the definition. *)
Definition push_type_fields (d : WingNodeDef) (raw : list byte) : Result (list byte) :=
  match def_node_type d with
  | NodeTypes.Node | NodeTypes.Unknown _ => Ok raw
  | NodeTypes.String =>
    let? n := ok_or (def_max_string_len d) InvalidInput in
    Ok (raw ++ to_be 2 n)
  | NodeTypes.LinearFloat | NodeTypes.LogarithmicFloat =>
    let? lo := ok_or (def_min_float d) InvalidInput in
    let? hi := ok_or (def_max_float d) InvalidInput in
    let? st := ok_or (def_steps d) InvalidInput in
    Ok (raw ++ f32_to_be lo ++ f32_to_be hi ++ to_be 4 st)
  | NodeTypes.FaderLevel =>
    match def_min_float d, def_max_float d, def_steps d with
    | Some lo, Some hi, Some st => Ok (raw ++ f32_to_be lo ++ f32_to_be hi ++ to_be 4 st)
    | None, None, None => Ok raw
    | _, _, _ => Err InvalidInput
    end
  | NodeTypes.Integer =>
    let? lo := ok_or (def_min_int d) InvalidInput in
    let? hi := ok_or (def_max_int d) InvalidInput in
    Ok (raw ++ to_be 4 lo ++ to_be 4 hi)
  | NodeTypes.StringEnum =>
    let? items := ok_or (def_string_enum d) InvalidInput in
    if (65535 <? Z.of_nat (length items))%Z then Err InvalidInput
    else push_string_items (raw ++ to_be 2 (Z.of_nat (length items))) items
  | NodeTypes.FloatEnum =>
    let? items := ok_or (def_float_enum d) InvalidInput in
    if (65535 <? Z.of_nat (length items))%Z then Err InvalidInput
    else push_float_items (raw ++ to_be 2 (Z.of_nat (length items))) items
  end.

Definition to_wire_bytes (d : WingNodeDef) : Result (list byte) :=
  let raw := to_be 4 (def_parent_id d) ++ to_be 4 (def_id d) ++ to_be 2 (def_index d) in
  let? raw := push_short_string raw (def_name d) in
  let? raw := push_short_string raw (def_long_name d) in
  push_type_fields d (raw ++ to_be 2 (flags_word d)).

(** ** Parsing *)

Definition node_type_of (nibble : Z) : NodeType :=
  match nibble with
  | 0%Z => NodeTypes.Node
  | 1%Z => NodeTypes.LinearFloat
  | 2%Z => NodeTypes.LogarithmicFloat
  | 3%Z => NodeTypes.FaderLevel
  | 4%Z => NodeTypes.Integer
  | 5%Z => NodeTypes.StringEnum
  | 6%Z => NodeTypes.FloatEnum
  | 7%Z => NodeTypes.String
  | n => NodeTypes.Unknown n
  end.

Definition node_unit_of (nibble : Z) : NodeUnit :=
  match nibble with
  | 0%Z => NodeUnits.None
  | 1%Z => NodeUnits.Db
  | 2%Z => NodeUnits.Percent
  | 3%Z => NodeUnits.Milliseconds
  | 4%Z => NodeUnits.Hertz
  | 5%Z => NodeUnits.Meters
  | 6%Z => NodeUnits.Seconds
  | 7%Z => NodeUnits.Octaves
  | n => NodeUnits.Unknown n
  end.

(** The three fields packed in the flags word. *)
Definition type_of_flags (flags : Z) : NodeType := node_type_of (Z.land (Z.shiftr flags 4) 0x0f).
Definition unit_of_flags (flags : Z) : NodeUnit := node_unit_of (Z.land flags 0x0f).
Definition read_only_of_flags (flags : Z) : bool := negb (Z.land (Z.shiftr flags 9) 1 =? 0)%Z.

(** The mutable locals of [from_bytes_inner] that hold the type-specific fields. *)
Record TypeFields := mk_fields {
  f_min_float : option f32;
  f_max_float : option f32;
  f_steps : option Z;
  f_min_int : option Z;
  f_max_int : option Z;
  f_max_string_len : option Z;
  f_string_enum : option (list StringEnumItem);
  f_float_enum : option (list FloatEnumItem);
}.

Definition no_fields : TypeFields := mk_fields None None None None None None None None.

Definition range_fields (lo hi : f32) (st : Z) : TypeFields :=
  mk_fields (Some lo) (Some hi) (Some st) None None None None None.

Definition read_range : reader TypeFields :=
  let@ lo := read_f32 in
  let@ hi := read_f32 in
  let@ st := read_i32 in
  rd_ret (range_fields lo hi st).

Definition read_short_string : reader (list byte) :=
  let@ len := read_u8 in read_string (Z.to_nat len).

Definition read_string_item : reader StringEnumItem :=
  let@ item := read_short_string in
  let@ long_item := read_short_string in
  rd_ret (mk_string_item item long_item).

Definition read_float_item : reader FloatEnumItem :=
  let@ item := read_f32 in
  let@ long_item := read_short_string in
  rd_ret (mk_float_item item long_item).

Definition read_type_fields (t : NodeType) : reader TypeFields :=
  match t with
  | NodeTypes.Node | NodeTypes.Unknown _ => rd_ret no_fields
  | NodeTypes.String =>
    let@ n := read_u16 in rd_ret (mk_fields None None None None None (Some n) None None)
  | NodeTypes.LinearFloat | NodeTypes.LogarithmicFloat => read_range
  | NodeTypes.FaderLevel => λ raw i,
    if (12 <=? length raw - i)%nat then read_range raw i else rd_ret no_fields raw i
  | NodeTypes.Integer =>
    let@ lo := read_i32 in
    let@ hi := read_i32 in
    rd_ret (mk_fields None None None (Some lo) (Some hi) None None None)
  | NodeTypes.StringEnum =>
    let@ num := read_u16 in
    let@ items := read_many (Z.to_nat num) read_string_item in
    rd_ret (mk_fields None None None None None None (Some items) None)
  | NodeTypes.FloatEnum =>
    let@ num := read_u16 in
    let@ items := read_many (Z.to_nat num) read_float_item in
    rd_ret (mk_fields None None None None None None None (Some items))
  end.

(** The fields every definition starts with. *)
Record Header := mk_header {
  h_parent_id : Z; h_id : Z; h_index : Z;
  h_name : list byte; h_long_name : list byte; h_flags : Z;
}.

Definition read_header : reader Header :=
  let@ parent_id := read_i32 in
  let@ id := read_i32 in
  let@ index := read_u16 in
  let@ name := read_short_string in
  let@ long_name := read_short_string in
  let@ flags := read_u16 in
  rd_ret (mk_header parent_id id index name long_name flags).

Definition make_def (h : Header) (f : TypeFields) (raw : list byte) : WingNodeDef :=
  {| def_id := h_id h; def_parent_id := h_parent_id h; def_index := h_index h;
     def_name := h_name h; def_long_name := h_long_name h;
     def_node_type := type_of_flags (h_flags h);
     def_unit := unit_of_flags (h_flags h);
     def_read_only := read_only_of_flags (h_flags h);
     def_min_float := f_min_float f; def_max_float := f_max_float f; def_steps := f_steps f;
     def_min_int := f_min_int f; def_max_int := f_max_int f;
     def_max_string_len := f_max_string_len f;
     def_string_enum := f_string_enum f; def_float_enum := f_float_enum f;
     def_raw := raw |}.

Definition read_def (kept : list byte) : reader WingNodeDef :=
  let@ h := read_header in
  let@ f := read_type_fields (type_of_flags (h_flags h)) in
  rd_ret (make_def h f kept).

Definition from_bytes_inner (raw : list byte) (keep_raw : bool) : Result WingNodeDef :=
  map_ok fst (read_def (if keep_raw then raw else []) raw 0%nat).

Definition from_bytes (raw : list byte) : Result WingNodeDef := from_bytes_inner raw true.
Definition try_from_bytes (raw : list byte) : Result WingNodeDef := from_bytes raw.
Definition from_bytes_without_raw (raw : list byte) : Result WingNodeDef :=
  from_bytes_inner raw false.

(** ** Well-formed definitions *)

Definition short_str_ok (s : list byte) : Prop := utf8_valid s = true ∧ (length s ≤ 255)%nat.

Definition type_ok (t : NodeType) : Prop :=
  match t with NodeTypes.Unknown v => (8 ≤ v ≤ 15)%Z | _ => True end.
Definition unit_ok (u : NodeUnit) : Prop :=
  match u with NodeUnits.Unknown v => (8 ≤ v ≤ 15)%Z | _ => True end.

Definition string_item_ok (it : StringEnumItem) : Prop :=
  short_str_ok (si_item it) ∧ short_str_ok (si_long_item it).
Definition float_item_ok (it : FloatEnumItem) : Prop :=
  f32_ok (fi_item it) ∧ short_str_ok (fi_long_item it).

Definition range_ok (f : TypeFields) : Prop :=
  ∃ lo hi st, f32_ok lo ∧ f32_ok hi ∧ in_i32 st ∧ f = range_fields lo hi st.

(** Exactly the fields of the node's type are present, each in its range. *)
Definition fields_ok (t : NodeType) (f : TypeFields) : Prop :=
  match t with
  | NodeTypes.Node | NodeTypes.Unknown _ => f = no_fields
  | NodeTypes.String =>
    ∃ n, in_u16 n ∧ f = mk_fields None None None None None (Some n) None None
  | NodeTypes.LinearFloat | NodeTypes.LogarithmicFloat => range_ok f
  | NodeTypes.FaderLevel => f = no_fields ∨ range_ok f
  | NodeTypes.Integer =>
    ∃ lo hi, in_i32 lo ∧ in_i32 hi ∧ f = mk_fields None None None (Some lo) (Some hi) None None None
  | NodeTypes.StringEnum =>
    ∃ items, (Z.of_nat (length items) < 2 ^ 16)%Z ∧ Forall string_item_ok items ∧
      f = mk_fields None None None None None None (Some items) None
  | NodeTypes.FloatEnum =>
    ∃ items, (Z.of_nat (length items) < 2 ^ 16)%Z ∧ Forall float_item_ok items ∧
      f = mk_fields None None None None None None None (Some items)
  end.

Definition header_ok (h : Header) : Prop :=
  in_i32 (h_parent_id h) ∧ in_i32 (h_id h) ∧ in_u16 (h_index h) ∧
  short_str_ok (h_name h) ∧ short_str_ok (h_long_name h).

Definition fields_of (d : WingNodeDef) : TypeFields :=
  mk_fields (def_min_float d) (def_max_float d) (def_steps d) (def_min_int d) (def_max_int d)
    (def_max_string_len d) (def_string_enum d) (def_float_enum d).

Definition header_of (d : WingNodeDef) : Header :=
  mk_header (def_parent_id d) (def_id d) (def_index d) (def_name d) (def_long_name d) (flags_word d).

Record wf_def (d : WingNodeDef) : Prop := {
  wf_parent_id : in_i32 (def_parent_id d);
  wf_id : in_i32 (def_id d);
  wf_index : in_u16 (def_index d);
  wf_name : short_str_ok (def_name d);
  wf_long_name : short_str_ok (def_long_name d);
  wf_type : type_ok (def_node_type d);
  wf_unit : unit_ok (def_unit d);
  wf_fields : fields_ok (def_node_type d) (fields_of d);
}.

(** The same definition in every field, with other retained bytes. *)
Definition with_raw (raw : list byte) (d : WingNodeDef) : WingNodeDef :=
  {| def_id := def_id d; def_parent_id := def_parent_id d; def_index := def_index d;
     def_name := def_name d; def_long_name := def_long_name d;
     def_node_type := def_node_type d; def_unit := def_unit d; def_read_only := def_read_only d;
     def_min_float := def_min_float d; def_max_float := def_max_float d; def_steps := def_steps d;
     def_min_int := def_min_int d; def_max_int := def_max_int d;
     def_max_string_len := def_max_string_len d;
     def_string_enum := def_string_enum d; def_float_enum := def_float_enum d; def_raw := raw |}.

(** What a definition needs to be serialized at all. *)
Definition short (s : list byte) : Prop := (length s ≤ 255)%nat.

Definition string_item_short (it : StringEnumItem) : Prop := short (si_item it) ∧ short (si_long_item it).
Definition float_item_short (it : FloatEnumItem) : Prop := short (fi_long_item it).

#[export] Instance short_dec s : Decision (short s).
Proof. unfold short. apply _. Defined.
#[export] Instance string_item_short_dec it : Decision (string_item_short it).
Proof. unfold string_item_short. apply _. Defined.
#[export] Instance float_item_short_dec it : Decision (float_item_short it).
Proof. unfold float_item_short. apply _. Defined.

Definition encodable (d : WingNodeDef) : Prop :=
  short (def_name d) ∧ short (def_long_name d) ∧
  match def_node_type d with
  | NodeTypes.Node | NodeTypes.Unknown _ => True
  | NodeTypes.String => is_Some (def_max_string_len d)
  | NodeTypes.LinearFloat | NodeTypes.LogarithmicFloat =>
    is_Some (def_min_float d) ∧ is_Some (def_max_float d) ∧ is_Some (def_steps d)
  | NodeTypes.FaderLevel =>
    (is_Some (def_min_float d) ∧ is_Some (def_max_float d) ∧ is_Some (def_steps d))
    ∨ (def_min_float d = None ∧ def_max_float d = None ∧ def_steps d = None)
  | NodeTypes.Integer => is_Some (def_min_int d) ∧ is_Some (def_max_int d)
  | NodeTypes.StringEnum =>
    ∃ items, def_string_enum d = Some items ∧ (Z.of_nat (length items) ≤ 65535)%Z ∧
      Forall string_item_short items
  | NodeTypes.FloatEnum =>
    ∃ items, def_float_enum d = Some items ∧ (Z.of_nat (length items) ≤ 65535)%Z ∧
      Forall float_item_short items
  end.

(** ** The wire form as a concatenation *)

Definition short_bytes (s : list byte) : list byte := [b8 (Z.of_nat (length s))] ++ s.
Definition string_item_bytes (it : StringEnumItem) : list byte :=
  short_bytes (si_item it) ++ short_bytes (si_long_item it).
Definition float_item_bytes (it : FloatEnumItem) : list byte :=
  f32_to_be (fi_item it) ++ short_bytes (fi_long_item it).
Definition range_bytes (lo hi : f32) (st : Z) : list byte :=
  f32_to_be lo ++ f32_to_be hi ++ to_be 4 st.

Definition header_bytes (h : Header) : list byte :=
  to_be 4 (h_parent_id h) ++ to_be 4 (h_id h) ++ to_be 2 (h_index h) ++
  short_bytes (h_name h) ++ short_bytes (h_long_name h) ++ to_be 2 (h_flags h).

Definition field_bytes (f : TypeFields) : list byte :=
  match f with
  | mk_fields (Some lo) (Some hi) (Some st) _ _ _ _ _ => range_bytes lo hi st
  | mk_fields _ _ _ (Some lo) (Some hi) _ _ _ => to_be 4 lo ++ to_be 4 hi
  | mk_fields _ _ _ _ _ (Some n) _ _ => to_be 2 n
  | mk_fields _ _ _ _ _ _ (Some items) _ =>
    to_be 2 (Z.of_nat (length items)) ++ concat (map string_item_bytes items)
  | mk_fields _ _ _ _ _ _ _ (Some items) =>
    to_be 2 (Z.of_nat (length items)) ++ concat (map float_item_bytes items)
  | _ => []
  end.

(** ** Lemmas: the flags word *)

Definition flags_of (t u : Z) (ro : bool) : Z :=
  let flags := Z.lor (Z.shiftl t 4) u in if ro then Z.lor flags (Z.shiftl 1 9) else flags.

Lemma flags_of_fields t u ro :
  (0 ≤ t < 16)%Z → (0 ≤ u < 16)%Z →
  Z.land (Z.shiftr (flags_of t u ro) 4) 0x0f = t ∧ Z.land (flags_of t u ro) 0x0f = u ∧
  read_only_of_flags (flags_of t u ro) = ro ∧ in_u16 (flags_of t u ro).
Proof.
  intros Ht Hu.
  set (check := λ t u ro,
    (Z.land (Z.shiftr (flags_of t u ro) 4) 0x0f =? t)%Z && (Z.land (flags_of t u ro) 0x0f =? u)%Z &&
    Bool.eqb (read_only_of_flags (flags_of t u ro)) ro &&
    ((0 <=? flags_of t u ro)%Z && (flags_of t u ro <? 2 ^ 16)%Z)).
  assert (forallb (λ t, forallb (λ u, check t u true && check t u false) (seqZ 0 16)) (seqZ 0 16)
          = true) as H by (vm_compute; reflexivity).
  rewrite forallb_forall in H. specialize (H t). rewrite <- list_elem_of_In in H.
  rewrite elem_of_seqZ in H. specialize (H ltac:(lia)). rewrite forallb_forall in H.
  specialize (H u). rewrite <- list_elem_of_In, elem_of_seqZ in H. specialize (H ltac:(lia)).
  apply andb_true_iff in H as [H1 H2].
  assert (check t u ro = true) as H by (by destruct ro). subst check. clear H1 H2. cbv beta in H.
  bool_hyps. apply Bool.eqb_prop in H2. unfold in_u16. auto.
Qed.

Lemma type_nibble t : type_ok t → (0 ≤ node_type_nibble t < 16)%Z ∧ node_type_of (node_type_nibble t) = t.
Proof.
  destruct t as [| | | | | | | |v]; simpl; try (intros; split; [lia|done]). intros Hv.
  assert (v = 8 ∨ v = 9 ∨ v = 10 ∨ v = 11 ∨ v = 12 ∨ v = 13 ∨ v = 14 ∨ v = 15)%Z as Hc by lia.
  by destruct Hc as [->|[->|[->|[->|[->|[->|[->| ->]]]]]]].
Qed.

Lemma unit_nibble u : unit_ok u → (0 ≤ node_unit_nibble u < 16)%Z ∧ node_unit_of (node_unit_nibble u) = u.
Proof.
  destruct u as [| | | | | | | |v]; simpl; try (intros; split; [lia|done]). intros Hv.
  assert (v = 8 ∨ v = 9 ∨ v = 10 ∨ v = 11 ∨ v = 12 ∨ v = 13 ∨ v = 14 ∨ v = 15)%Z as Hc by lia.
  by destruct Hc as [->|[->|[->|[->|[->|[->|[->| ->]]]]]]].
Qed.

Lemma node_type_of_ok n : (0 ≤ n < 16)%Z → type_ok (node_type_of n).
Proof.
  intros Hn. unfold node_type_of.
  repeat (match goal with |- context [match ?x with _ => _ end] => destruct x end; simpl; try done);
    lia.
Qed.

Lemma node_unit_of_ok n : (0 ≤ n < 16)%Z → unit_ok (node_unit_of n).
Proof.
  intros Hn. unfold node_unit_of.
  repeat (match goal with |- context [match ?x with _ => _ end] => destruct x end; simpl; try done);
    lia.
Qed.

Lemma land_nibble z : (0 ≤ Z.land z 0x0f < 16)%Z.
Proof. change 0x0f%Z with (Z.ones 4). rewrite Z.land_ones by lia. apply Z.mod_pos_bound. lia. Qed.

Lemma flags_word_fields d :
  type_ok (def_node_type d) → unit_ok (def_unit d) →
  type_of_flags (flags_word d) = def_node_type d ∧ unit_of_flags (flags_word d) = def_unit d ∧
  read_only_of_flags (flags_word d) = def_read_only d ∧ in_u16 (flags_word d).
Proof.
  intros [Ht1 Ht2]%type_nibble [Hu1 Hu2]%unit_nibble.
  change (flags_word d) with
    (flags_of (node_type_nibble (def_node_type d)) (node_unit_nibble (def_unit d)) (def_read_only d)).
  destruct (flags_of_fields _ _ (def_read_only d) Ht1 Hu1) as (E1 & E2 & E3 & E4).
  unfold type_of_flags, unit_of_flags. by rewrite E1, E2, Ht2, Hu2.
Qed.

(** ** Lemmas: the serializer writes the wire form *)

Lemma push_short_string_eq raw s :
  push_short_string raw s = if decide (short s) then Ok (raw ++ short_bytes s) else Err InvalidInput.
Proof.
  unfold push_short_string, short. case_match; bool_hyps; case_decide; try lia; done.
Qed.

Lemma push_string_items_eq raw items :
  push_string_items raw items =
    if decide (Forall string_item_short items)
    then Ok (raw ++ concat (map string_item_bytes items)) else Err InvalidInput.
Proof.
  revert raw. induction items as [|it items IH]; intros raw; [by rewrite decide_True, app_nil_r|].
  cbn [push_string_items map concat]. unfold string_item_bytes.
  rewrite push_short_string_eq. destruct (decide (short (si_item it))) as [H1|H1];
    [rewrite push_short_string_eq; destruct (decide (short (si_long_item it))) as [H2|H2]|].
  - rewrite IH, <- !(assoc_L (++)). apply decide_ext.
    rewrite Forall_cons_iff. unfold string_item_short. tauto.
  - rewrite decide_False; [done|]. rewrite Forall_cons_iff. unfold string_item_short. tauto.
  - rewrite decide_False; [done|]. rewrite Forall_cons_iff. unfold string_item_short. tauto.
Qed.

Lemma push_float_items_eq raw items :
  push_float_items raw items =
    if decide (Forall float_item_short items)
    then Ok (raw ++ concat (map float_item_bytes items)) else Err InvalidInput.
Proof.
  revert raw. induction items as [|it items IH]; intros raw; [by rewrite decide_True, app_nil_r|].
  cbn [push_float_items map concat]. unfold float_item_bytes.
  rewrite push_short_string_eq. destruct (decide (short (fi_long_item it))) as [H1|H1].
  - rewrite IH, <- !(assoc_L (++)). apply decide_ext.
    rewrite Forall_cons_iff. unfold float_item_short. tauto.
  - rewrite decide_False; [done|]. rewrite Forall_cons_iff. unfold float_item_short. tauto.
Qed.

Lemma short_str_short s : short_str_ok s → short s.
Proof. by intros [_ ?]. Qed.

Lemma push_type_fields_wf d raw :
  fields_ok (def_node_type d) (fields_of d) →
  push_type_fields d raw = Ok (raw ++ field_bytes (fields_of d)).
Proof.
  unfold push_type_fields, fields_of.
  destruct d as [? ? ? ? ? t ? ? mf xf st mi xi sl se fe ?]; simpl. intros Hf.
  assert (∀ n, (Z.of_nat n < 2 ^ 16)%Z → (65535 <? Z.of_nat n)%Z = false) as Hlen.
  { intros n Hn. apply Z.ltb_ge. lia. }
  destruct t; simpl in Hf;
    repeat match goal with
    | H : range_ok _ |- _ => destruct H as (? & ? & ? & ? & ? & ? & ?)
    | H : _ ∨ _ |- _ => destruct H
    | H : ∃ _, _ |- _ => destruct H
    | H : _ ∧ _ |- _ => destruct H
    end;
    match goal with H : _ = _ |- _ => injection H as -> -> -> -> -> -> -> -> end;
    simpl; rewrite ?app_nil_r; try done.
  - rewrite Hlen by done. rewrite push_string_items_eq, decide_True, <- (assoc_L (++)); [done|].
    eapply Forall_impl; [|eassumption]. intros it [? ?]. split; by apply short_str_short.
  - rewrite Hlen by done. rewrite push_float_items_eq, decide_True, <- (assoc_L (++)); [done|].
    eapply Forall_impl; [|eassumption]. intros it [? ?]. by apply short_str_short.
Qed.

Definition wire_bytes (d : WingNodeDef) : list byte :=
  header_bytes (header_of d) ++ field_bytes (fields_of d).

Lemma to_wire_bytes_wf d : wf_def d → to_wire_bytes d = Ok (wire_bytes d).
Proof.
  intros []. unfold to_wire_bytes.
  rewrite push_short_string_eq, decide_True by by apply short_str_short.
  rewrite push_short_string_eq, decide_True by by apply short_str_short.
  rewrite push_type_fields_wf by done. unfold wire_bytes, header_bytes, header_of.
  cbn [h_parent_id h_id h_index h_name h_long_name h_flags]. by rewrite <- !(assoc_L (++)).
Qed.

(** ** Lemmas: the parser reads the wire form *)

Lemma writes_short_string s : short_str_ok s → Writes read_short_string (short_bytes s) s.
Proof.
  intros [Hu Hl]. eapply writes_bind; [apply writes_u8; width|].
  rewrite Nat2Z.id. by apply writes_string.
Qed.

Lemma writes_string_item it : string_item_ok it → Writes read_string_item (string_item_bytes it) it.
Proof.
  intros [H1 H2]. destruct it as [a b]. eapply writes_bind; [by apply writes_short_string|].
  by apply (writes_bind_ret _ _ (mk_string_item a)), writes_short_string.
Qed.

Lemma writes_float_item it : float_item_ok it → Writes read_float_item (float_item_bytes it) it.
Proof.
  intros [H1 H2]. destruct it as [a b]. eapply writes_bind; [by apply writes_f32|].
  by apply (writes_bind_ret _ _ (mk_float_item a)), writes_short_string.
Qed.

Lemma writes_range P lo hi st :
  f32_ok lo → f32_ok hi → in_i32 st → Writes_if P read_range (range_bytes lo hi st) (range_fields lo hi st).
Proof.
  intros. apply writes_weaken.
  eapply writes_bind; [by apply writes_f32|]. eapply writes_bind; [by apply writes_f32|].
  by apply (writes_bind_ret _ _ (range_fields lo hi)), writes_i32.
Qed.

Lemma writes_header h :
  in_i32 (h_parent_id h) → in_i32 (h_id h) → in_u16 (h_index h) →
  short_str_ok (h_name h) → short_str_ok (h_long_name h) → in_u16 (h_flags h) →
  Writes read_header (header_bytes h) h.
Proof.
  destruct h. unfold read_header, header_bytes.
  cbn [h_parent_id h_id h_index h_name h_long_name h_flags]. intros.
  do 2 (eapply writes_bind; [by apply writes_i32|]).
  eapply writes_bind; [by apply writes_u16|].
  do 2 (eapply writes_bind; [by apply writes_short_string|]).
  by apply (writes_bind_ret _ _ (mk_header _ _ _ _ _)), writes_u16.
Qed.

(** A fader definition without a range is delimited by the end of the slice: fewer than
    twelve further bytes may follow it. *)
Definition tail_ok (t : NodeType) (f : TypeFields) (post : list byte) : Prop :=
  t = NodeTypes.FaderLevel → f_min_float f = None → (length post < 12)%nat.

Lemma writes_items {A} (r : reader A) (enc : A → list byte) (l : list A) :
  Forall (λ a, Writes r (enc a) a) l →
  Writes (read_many (Z.to_nat (Z.of_nat (length l))) r) (concat (map enc l)) l.
Proof. intros Hf. rewrite Nat2Z.id. by apply writes_many. Qed.

Lemma writes_type_fields t f :
  fields_ok t f → Writes_if (tail_ok t f) (read_type_fields t) (field_bytes f) f.
Proof.
  assert (∀ n, (Z.of_nat n < 2 ^ 16)%Z → in_u16 (Z.of_nat n)) as Hlen by (intros; width).
  destruct t; cbn [fields_ok read_type_fields]; intros Hf.
  - subst f. apply writes_ret.
  - destruct Hf as (lo & hi & st & ? & ? & ? & ->). by apply writes_range.
  - destruct Hf as (lo & hi & st & ? & ? & ? & ->). by apply writes_range.
  - intros pre post Htail. rewrite !length_app.
    destruct Hf as [->|(lo & hi & st & ? & ? & ? & ->)].
    + specialize (Htail eq_refl eq_refl). change (length (field_bytes no_fields)) with 0%nat.
      rewrite (proj2 (Nat.leb_gt 12 _)) by lia. unfold rd_ret. by rewrite Nat.add_0_r.
    + change (length (field_bytes _)) with 12%nat. rewrite (proj2 (Nat.leb_le 12 _)) by lia.
      by apply (writes_range (λ _, True)).
  - destruct Hf as (lo & hi & ? & ? & ->). cbn [field_bytes].
    eapply writes_bind; [by apply writes_i32|].
    by apply (writes_bind_ret _ _ (λ hi, mk_fields _ _ _ _ (Some hi) _ _ _)), writes_weaken, writes_i32.
  - destruct Hf as (items & Hl & Hi & ->). cbn [field_bytes].
    eapply writes_bind; [by apply writes_u16, Hlen|].
    apply (writes_bind_ret _ _ (λ l, mk_fields _ _ _ _ _ _ (Some l) _)), writes_weaken, writes_items.
    eapply Forall_impl; [|eassumption]. apply writes_string_item.
  - destruct Hf as (items & Hl & Hi & ->). cbn [field_bytes].
    eapply writes_bind; [by apply writes_u16, Hlen|].
    apply (writes_bind_ret _ _ (λ l, mk_fields _ _ _ _ _ _ _ (Some l))), writes_weaken, writes_items.
    eapply Forall_impl; [|eassumption]. apply writes_float_item.
  - destruct Hf as (n & ? & ->). cbn [field_bytes].
    by apply (writes_bind_ret _ _ (λ n, mk_fields _ _ _ _ _ (Some n) _ _)), writes_weaken, writes_u16.
  - subst f. apply writes_ret.
Qed.

Lemma wf_header_ok d : wf_def d → header_ok (header_of d).
Proof. intros []. split_and!; assumption. Qed.

Lemma wf_header_writes d : wf_def d → Writes read_header (header_bytes (header_of d)) (header_of d).
Proof.
  intros []. apply writes_header; try done.
  by destruct (flags_word_fields d) as (_ & _ & _ & ?).
Qed.

Lemma make_def_fields d raw :
  type_ok (def_node_type d) → unit_ok (def_unit d) →
  make_def (header_of d) (fields_of d) raw = with_raw raw d.
Proof.
  intros Ht Hu. destruct (flags_word_fields d Ht Hu) as (E1 & E2 & E3 & _).
  unfold with_raw, make_def, header_of. simpl. by rewrite E1, E2, E3.
Qed.

Lemma read_def_bytes kept h f extra :
  header_ok h → in_u16 (h_flags h) → fields_ok (type_of_flags (h_flags h)) f →
  tail_ok (type_of_flags (h_flags h)) f extra →
  read_def kept ((header_bytes h ++ field_bytes f) ++ extra) 0
  = Ok (make_def h f kept, length (header_bytes h ++ field_bytes f)).
Proof.
  intros (? & ? & ? & ? & ?) Hfl Hf Ht.
  apply (writes_bind (tail_ok (type_of_flags (h_flags h)) f) read_header _
    (header_bytes h) (field_bytes f) h (make_def h f kept)) with (pre := []);
    [by apply writes_header| |done].
  by apply (writes_bind_ret _ _ (λ f, make_def h f kept)), writes_type_fields.
Qed.

Lemma read_def_wire kept d extra :
  wf_def d → tail_ok (def_node_type d) (fields_of d) extra →
  read_def kept (wire_bytes d ++ extra) 0 = Ok (with_raw kept d, length (wire_bytes d)).
Proof.
  intros Hwf Ht. destruct (flags_word_fields d) as (E & _ & _ & Hfl); [apply Hwf..|].
  rewrite <- make_def_fields by apply Hwf. rewrite <- E in Ht.
  apply (read_def_bytes kept (header_of d) (fields_of d)); [by apply wf_header_ok|done| |done].
  change (fields_ok (type_of_flags (flags_word d)) (fields_of d)). rewrite E. apply Hwf.
Qed.

(** ** Lemmas: everything the parser accepts is well formed *)

Lemma reads_short_string : Reads read_short_string short_str_ok.
Proof.
  eapply reads_bind; [apply reads_u8|]. intros len Hlen raw i s j H.
  apply reads_string in H as [Hu Hl]. split; [done|]. rewrite Hl. width.
Qed.

Lemma reads_string_item : Reads read_string_item string_item_ok.
Proof.
  do 2 (eapply reads_bind; [apply reads_short_string|]; intros ? ?). by apply reads_ret.
Qed.

Lemma reads_float_item : Reads read_float_item float_item_ok.
Proof.
  eapply reads_bind; [apply reads_f32|]; intros ? ?.
  eapply reads_bind; [apply reads_short_string|]; intros ? ?. by apply reads_ret.
Qed.

Lemma reads_range : Reads read_range range_ok.
Proof.
  eapply reads_bind; [apply reads_f32|]; intros lo ?.
  eapply reads_bind; [apply reads_f32|]; intros hi ?.
  eapply reads_bind; [apply reads_i32|]; intros st ?. apply reads_ret. by exists lo, hi, st.
Qed.

Lemma reads_type_fields t : Reads (read_type_fields t) (fields_ok t).
Proof.
  destruct t; cbn [read_type_fields].
  - by apply reads_ret.
  - apply reads_range.
  - apply reads_range.
  - intros raw i f j H. case_match.
    + right. by eapply reads_range.
    + left. by inversion H.
  - eapply reads_bind; [apply reads_i32|]; intros lo ?.
    eapply reads_bind; [apply reads_i32|]; intros hi ?. apply reads_ret. by exists lo, hi.
  - eapply reads_bind; [apply reads_u16|]; intros n Hn.
    eapply reads_bind; [apply reads_many, reads_string_item|]. intros l [Hl Hf].
    apply reads_ret. exists l. split; [rewrite Hl; width|done].
  - eapply reads_bind; [apply reads_u16|]; intros n Hn.
    eapply reads_bind; [apply reads_many, reads_float_item|]. intros l [Hl Hf].
    apply reads_ret. exists l. split; [rewrite Hl; width|done].
  - eapply reads_bind; [apply reads_u16|]; intros n Hn. apply reads_ret. by exists n.
  - by apply reads_ret.
Qed.

Lemma reads_header : Reads read_header header_ok.
Proof.
  do 2 (eapply reads_bind; [apply reads_i32|]; intros ? ?).
  eapply reads_bind; [apply reads_u16|]; intros ? ?.
  do 2 (eapply reads_bind; [apply reads_short_string|]; intros ? ?).
  eapply reads_bind; [apply reads_u16|]; intros ? _. apply reads_ret. split; eauto.
Qed.

Lemma reads_def kept : Reads (read_def kept) (λ d, wf_def d ∧ def_raw d = kept).
Proof.
  eapply reads_bind; [apply reads_header|]; intros h (? & ? & ? & ? & ?).
  eapply reads_bind; [apply reads_type_fields|]; intros f Hf. apply reads_ret.
  split; [|done]. split; try done.
  - apply node_type_of_ok, land_nibble.
  - apply node_unit_of_ok, land_nibble.
  - by destruct f.
Qed.

(** ** Lemmas: the bytes of what the parser accepts *)

(** The bytes of a definition: its flags word may have further bits set (8, and 10 to 15,
    which mean nothing to the parser), and anything may follow. *)
Definition wire_form (d : WingNodeDef) (raw : list byte) : Prop :=
  ∃ flags rest,
    in_u16 flags ∧
    Z.land (Z.shiftr flags 4) 0x0f = node_type_nibble (def_node_type d) ∧
    Z.land flags 0x0f = node_unit_nibble (def_unit d) ∧
    Z.testbit flags 9 = def_read_only d ∧
    tail_ok (def_node_type d) (fields_of d) rest ∧
    raw = header_bytes (mk_header (def_parent_id d) (def_id d) (def_index d) (def_name d)
            (def_long_name d) flags) ++ field_bytes (fields_of d) ++ rest.

Lemma consumes_short_string : Consumes read_short_string (λ s w _, short_str_ok s ∧ w = short_bytes s).
Proof.
  eapply consumes_bind; [apply consumes_u8|]. intros len w [Hlen ->].
  eapply consumes_weaken; [apply consumes_string|]. intros s w _ (Hu & Hl & ->).
  unfold short_str_ok, short_bytes. split; [split; [done|]; rewrite Hl; width|].
  by rewrite Hl, Z2Nat.id by width.
Qed.

Lemma consumes_string_item :
  Consumes read_string_item (λ it w _, string_item_ok it ∧ w = string_item_bytes it).
Proof.
  eapply consumes_bind; [apply consumes_short_string|]. intros a w [Ha ->].
  apply consumes_bind_ret. eapply consumes_weaken; [apply consumes_short_string|].
  by intros b w _ [Hb ->].
Qed.

Lemma consumes_float_item :
  Consumes read_float_item (λ it w _, float_item_ok it ∧ w = float_item_bytes it).
Proof.
  eapply consumes_bind; [apply consumes_f32|]. intros a w [Ha ->].
  apply consumes_bind_ret. eapply consumes_weaken; [apply consumes_short_string|].
  by intros b w _ [Hb ->].
Qed.

Lemma consumes_range : Consumes read_range (λ f w _, range_ok f ∧ w = field_bytes f).
Proof.
  eapply consumes_bind; [apply consumes_f32|]. intros lo w [? ->].
  eapply consumes_bind; [apply consumes_f32|]. intros hi w [? ->].
  apply consumes_bind_ret. eapply consumes_weaken; [apply consumes_i32|].
  intros st w _ [? ->]. split; [by exists lo, hi, st|done].
Qed.

Lemma consumes_items {A} (r : reader A) (enc : A → list byte) (P : A → Prop) (mk : list A → TypeFields) Q :
  Consumes r (λ a w _, P a ∧ w = enc a) →
  (∀ l rest, (Z.of_nat (length l) < 2 ^ 16)%Z → Forall P l →
     Q (mk l) (to_be 2 (Z.of_nat (length l)) ++ concat (map enc l)) rest) →
  Consumes (let@ num := read_u16 in let@ items := read_many (Z.to_nat num) r in rd_ret (mk items)) Q.
Proof.
  intros Hr HQ. eapply consumes_bind; [apply consumes_u16|]. intros n w [Hn ->].
  apply consumes_bind_ret. eapply consumes_weaken; [by apply consumes_many|].
  intros l w rest (Hl & Hf & ->).
  replace n with (Z.of_nat (length l)) by (rewrite Hl; width). apply HQ; [rewrite Hl; width|done].
Qed.

Lemma consumes_type_fields t :
  Consumes (read_type_fields t) (λ f w rest, fields_ok t f ∧ w = field_bytes f ∧ tail_ok t f rest).
Proof.
  unfold tail_ok. destruct t; cbn [read_type_fields].
  - by apply consumes_ret.
  - eapply consumes_weaken; [apply consumes_range|]. by intros f w rest [? ->].
  - eapply consumes_weaken; [apply consumes_range|]. by intros f w rest [? ->].
  - intros raw i f j H. case_match eqn:E; bool_hyps.
    + apply consumes_range in H as (w & Hw & Hr & ->). exists (field_bytes f). split; [done|].
      split; [by right|]. split; [done|]. by destruct Hr as (lo & hi & st & _ & _ & _ & ->).
    + injection H as <- <-. exists []. split; [done|]. split; [by left|]. split; [done|].
      intros _ _. rewrite length_drop. lia.
  - eapply consumes_bind; [apply consumes_i32|]. intros lo w [? ->].
    apply consumes_bind_ret. eapply consumes_weaken; [apply consumes_i32|].
    intros hi w rest [? ->]. split; [by exists lo, hi|done].
  - apply (consumes_items _ string_item_bytes string_item_ok); [apply consumes_string_item|].
    intros l rest Hl Hf. split; [by exists l|done].
  - apply (consumes_items _ float_item_bytes float_item_ok); [apply consumes_float_item|].
    intros l rest Hl Hf. split; [by exists l|done].
  - apply consumes_bind_ret. eapply consumes_weaken; [apply consumes_u16|].
    intros n w rest [? ->]. split; [by exists n|done].
  - by apply consumes_ret.
Qed.

Lemma consumes_header :
  Consumes read_header (λ h w _, header_ok h ∧ in_u16 (h_flags h) ∧ w = header_bytes h).
Proof.
  do 2 (eapply consumes_bind; [apply consumes_i32|]; intros ? ? [? ->]).
  eapply consumes_bind; [apply consumes_u16|]; intros ? ? [? ->].
  do 2 (eapply consumes_bind; [apply consumes_short_string|]; intros ? ? [? ->]).
  apply consumes_bind_ret. eapply consumes_weaken; [apply consumes_u16|].
  intros flags w _ [? ->]. by split_and!.
Qed.

Lemma nibble_kept n : (0 ≤ n < 16)%Z → node_type_nibble (node_type_of n) = n ∧ node_unit_nibble (node_unit_of n) = n.
Proof.
  intros Hn. assert (In n (seqZ 0 16)) as H by (rewrite <- list_elem_of_In, elem_of_seqZ; lia).
  pose proof (proj1 (forallb_forall (λ n, (node_type_nibble (node_type_of n) =? n)%Z
    && (node_unit_nibble (node_unit_of n) =? n)%Z) (seqZ 0 16)) eq_refl n H) as Hc.
  cbv beta in Hc. by bool_hyps.
Qed.

Lemma read_only_testbit flags : read_only_of_flags flags = Z.testbit flags 9.
Proof.
  unfold read_only_of_flags. rewrite (Z.land_ones _ 1), <- Z.bit0_mod, Z.shiftr_spec by lia.
  change (0 + 9)%Z with 9%Z. by destruct (Z.testbit flags 9).
Qed.

Lemma read_def_wire_form kept raw d j : read_def kept raw 0 = Ok (d, j) → wire_form d raw.
Proof.
  unfold read_def, rd_bind. intros H.
  destruct (read_header raw 0) as [[h i]|] eqn:Eh; [|done].
  destruct (read_type_fields _ raw i) as [[f k]|] eqn:Ef; [|done]. injection H as <- <-.
  apply consumes_header in Eh as (w & Hw & (? & Hf & ->)).
  apply consumes_type_fields in Ef as (w & Hw' & (? & -> & Ht)).
  exists (h_flags h), (drop k raw). split_and!; [done| | |by rewrite <- read_only_testbit| |].
  - symmetry. apply nibble_kept, land_nibble.
  - symmetry. apply nibble_kept, land_nibble.
  - by destruct f.
  - rewrite drop_0, Hw' in Hw. rewrite Hw at 1. by destruct h, f.
Qed.

Lemma wire_form_read kept raw d :
  wf_def d → wire_form d raw → ∃ j, read_def kept raw 0 = Ok (with_raw kept d, j).
Proof.
  intros Hwf (flags & rest & Hfl & Ht & Hu & Hro & Htail & ->). eexists. rewrite (assoc_L (++)).
  set (h := mk_header _ _ _ _ _ flags).
  assert (type_of_flags flags = def_node_type d) as Et.
  { unfold type_of_flags. rewrite Ht. apply type_nibble, Hwf. }
  assert (unit_of_flags flags = def_unit d) as Eu.
  { unfold unit_of_flags. rewrite Hu. apply unit_nibble, Hwf. }
  rewrite (read_def_bytes kept h (fields_of d)).
  - unfold make_def, with_raw. subst h. cbn. by rewrite Et, Eu, read_only_testbit, Hro.
  - by apply (wf_header_ok d).
  - done.
  - subst h. cbn [h_flags]. rewrite Et. apply Hwf.
  - subst h. cbn [h_flags]. by rewrite Et.
Qed.

(** ** Lemmas: truncated input *)

#[export] Instance read_short_string_cursor : Cursor read_short_string := _.
#[export] Instance read_string_item_cursor : Cursor read_string_item := _.
#[export] Instance read_float_item_cursor : Cursor read_float_item := _.
#[export] Instance read_range_cursor : Cursor read_range := _.
#[export] Instance read_header_cursor : Cursor read_header := _.

(** The type-specific reader without the one choice that looks at the end of the slice. *)
Definition read_type_fields_lazy (t : NodeType) : reader TypeFields :=
  match t with NodeTypes.FaderLevel => rd_ret no_fields | _ => read_type_fields t end.

#[export] Instance read_type_fields_lazy_cursor t : Cursor (read_type_fields_lazy t).
Proof. destruct t; cbn; apply _. Qed.

Definition read_def_lazy (kept : list byte) : reader WingNodeDef :=
  let@ h := read_header in
  let@ f := read_type_fields_lazy (type_of_flags (h_flags h)) in
  rd_ret (make_def h f kept).

#[export] Instance read_def_lazy_cursor kept : Cursor (read_def_lazy kept) := _.

Lemma read_type_fields_error t raw i e : read_type_fields t raw i = Err e → e = InvalidData.
Proof.
  destruct (decide (t = NodeTypes.FaderLevel)) as [->|Ht].
  - simpl. case_match; [apply cursor_error|done].
  - replace (read_type_fields t) with (read_type_fields_lazy t) by (by destruct t).
    apply cursor_error.
Qed.

Lemma read_def_error kept raw i e : read_def kept raw i = Err e → e = InvalidData.
Proof.
  unfold read_def, rd_bind. intros H.
  destruct (read_header raw i) as [[h j]|e'] eqn:E; [|simplify_eq; by apply cursor_error in E].
  destruct (read_type_fields _ raw j) as [[f k]|e'] eqn:E2; [done|].
  simplify_eq. by eapply read_type_fields_error.
Qed.

Lemma read_def_lazy_err kept raw i e : read_def_lazy kept raw i = Err e → read_def kept raw i = Err e.
Proof.
  unfold read_def, read_def_lazy, rd_bind.
  destruct (read_header raw i) as [[h j]|e']; [|done].
  by destruct (type_of_flags (h_flags h)).
Qed.

Lemma read_def_lazy_ok kept raw i d j :
  read_def_lazy kept raw i = Ok (d, j) → (length raw - j < 12)%nat → read_def kept raw i = Ok (d, j).
Proof.
  unfold read_def, read_def_lazy, rd_bind.
  destruct (read_header raw i) as [[h j']|e']; [|done].
  destruct (type_of_flags (h_flags h)) eqn:Et; try done. cbn [read_type_fields_lazy read_type_fields]. unfold rd_ret.
  intros [= <- <-] Hl. by rewrite (proj2 (Nat.leb_gt _ _)) by lia.
Qed.

(** The definition as the lazy reader sees it: a fader loses its range. *)
Definition lazy_fields (d : WingNodeDef) : TypeFields :=
  match def_node_type d with NodeTypes.FaderLevel => no_fields | _ => fields_of d end.

Lemma read_def_lazy_wire kept d extra :
  wf_def d →
  read_def_lazy kept (header_bytes (header_of d) ++ field_bytes (lazy_fields d) ++ extra) 0
  = Ok (make_def (header_of d) (lazy_fields d) kept,
        length (header_bytes (header_of d) ++ field_bytes (lazy_fields d))).
Proof.
  intros Hwf. destruct (flags_word_fields d) as (E & _); [apply Hwf..|]. rewrite (assoc_L (++)).
  apply (writes_bind (λ _, True) read_header _
    (header_bytes (header_of d)) (field_bytes (lazy_fields d)) (header_of d)
    (make_def (header_of d) (lazy_fields d) kept)) with (pre := []); [by apply wf_header_writes| |done].
  apply (writes_bind_ret _ _ (λ f, make_def (header_of d) f kept)).
  cbn [header_of h_flags]. rewrite E. pose proof (wf_fields d Hwf) as Hf.
  apply writes_type_fields in Hf. unfold read_type_fields_lazy, lazy_fields.
  destruct (def_node_type d); try (intros pre post _; by apply Hf). apply writes_ret.
Qed.

Lemma push_type_fields_total d raw :
  match push_type_fields d raw with
  | Ok _ => short (def_name d) → short (def_long_name d) → encodable d
  | Err e => e = InvalidInput ∧ ¬ encodable d
  end.
Proof.
  unfold push_type_fields, encodable.
  destruct (def_node_type d); cbn [ok_or]; try done.
  1-3: destruct (def_min_float d), (def_max_float d), (def_steps d); cbn [ok_or];
    rewrite !is_Some_alt; intuition congruence.
  - destruct (def_min_int d), (def_max_int d); cbn [ok_or]; rewrite !is_Some_alt; tauto.
  - destruct (def_string_enum d) as [items|]; cbn [ok_or];
      [|split; [done|]; by intros (_ & _ & ? & ? & _)].
    destruct (65535 <? _)%Z eqn:E; bool_hyps;
      [split; [done|]; intros (_ & _ & ? & [= <-] & ? & _); lia|].
    rewrite push_string_items_eq. case_decide; [by eauto 8|].
    split; [done|]. by intros (_ & _ & ? & [= <-] & _ & ?).
  - destruct (def_float_enum d) as [items|]; cbn [ok_or];
      [|split; [done|]; by intros (_ & _ & ? & ? & _)].
    destruct (65535 <? _)%Z eqn:E; bool_hyps;
      [split; [done|]; intros (_ & _ & ? & [= <-] & ? & _); lia|].
    rewrite push_float_items_eq. case_decide; [by eauto 8|].
    split; [done|]. by intros (_ & _ & ? & [= <-] & _ & ?).
  - destruct (def_max_string_len d); cbn [ok_or]; rewrite !is_Some_alt; tauto.
Qed.

Lemma to_wire_bytes_result d : (∃ raw, to_wire_bytes d = Ok raw) ∨ to_wire_bytes d = Err InvalidInput.
Proof.
  unfold to_wire_bytes. rewrite push_short_string_eq. case_decide; [|by right].
  rewrite push_short_string_eq. case_decide; [|by right].
  match goal with |- context [push_type_fields d ?raw] =>
    pose proof (push_type_fields_total d raw) as H'; destruct (push_type_fields d raw) end;
    [left; eauto|right]. by destruct H' as [-> _].
Qed.

(** ** Properties *)

(** C39: a well-formed definition is serialized, and its bytes parse back to the same
    definition in every field ([with_raw] only sets the retained source bytes), with or
    without retaining the source bytes; trailing bytes are ignored,
    except that a fader definition without a range tolerates at most eleven of them. *)
Theorem def_roundtrip d extra :
  wf_def d → tail_ok (def_node_type d) (fields_of d) extra →
  ∃ raw, to_wire_bytes d = Ok raw
    ∧ from_bytes_without_raw (raw ++ extra) = Ok (with_raw [] d)
    ∧ from_bytes (raw ++ extra) = Ok (with_raw (raw ++ extra) d).
Proof.
  intros Hwf Ht. exists (wire_bytes d). split; [by apply to_wire_bytes_wf|].
  unfold from_bytes_without_raw, from_bytes, from_bytes_inner.
  by rewrite !read_def_wire.
Qed.

(** C40: the parser accepts exactly the bytes that have the form of a well-formed
    definition, and reads that definition off them.  On success the integers are in range,
    the strings valid UTF-8 of at most 255 bytes, exactly the fields of the node type
    present, and the input is the header, the type's fields and unread trailing bytes of
    this very definition: the type and the unit are the two nibbles of the flags word (an
    unknown nibble is kept verbatim), the read-only mark its bit 9, and a fader without a
    range has fewer than twelve bytes behind it.  The only error is [InvalidData], for
    bytes that are the form of no well-formed definition. *)
Theorem def_parse_sound raw keep :
  match from_bytes_inner raw keep with
  | Ok d => wf_def d ∧ wire_form d raw ∧ def_raw d = (if keep then raw else [])
  | Err e => e = InvalidData ∧ ∀ d, wf_def d → ¬ wire_form d raw
  end.
Proof.
  unfold from_bytes_inner. destruct (read_def _ raw 0) as [[d j]|e] eqn:E; simpl.
  - pose proof (read_def_wire_form _ _ _ _ E). by apply reads_def in E as [? ?].
  - pose proof (read_def_error _ _ _ _ E) as ->. split; [done|]. intros d Hwf Hd.
    destruct (wire_form_read (if keep then raw else []) raw d Hwf Hd) as [j Hj]. congruence.
Qed.

(** Parsing and then serializing is stable: whatever the parser accepts can be
    serialized again (its retained bytes are not needed), and parsing the new bytes gives
    the same definition. *)
Theorem def_reserialize raw d :
  from_bytes raw = Ok d →
  ∃ raw', to_wire_bytes d = Ok raw' ∧ from_bytes_without_raw raw' = Ok (with_raw [] d)
    ∧ with_raw (def_raw d) d = d.
Proof.
  unfold from_bytes, from_bytes_inner. intros H.
  destruct (read_def _ raw 0) as [[d' j]|e] eqn:E; simplify_eq/=.
  apply reads_def in E as [Hwf _]. exists (wire_bytes d). split; [by apply to_wire_bytes_wf|].
  unfold from_bytes_without_raw, from_bytes_inner. rewrite <- (app_nil_r (wire_bytes d)).
  rewrite read_def_wire; [|done|intros _ _; simpl; lia]. split; [done|].
  by destruct d.
Qed.

(** No prefix of a serialized definition is mistaken for a definition: every cut
    yields [InvalidData], except that a fader definition cut inside its trailing range
    still parses, as the same fader without a range. *)
Theorem def_truncated d raw k keep :
  wf_def d → to_wire_bytes d = Ok raw → (k < length raw)%nat →
  from_bytes_inner (take k raw) keep =
    if decide (def_node_type d = NodeTypes.FaderLevel ∧ (length raw ≤ k + 12)%nat
               ∧ def_min_float d ≠ None)
    then Ok (make_def (header_of d) no_fields (if keep then take k raw else []))
    else Err InvalidData.
Proof.
  intros Hwf Hw Hk. rewrite to_wire_bytes_wf in Hw by done.
  assert (raw = wire_bytes d) as -> by congruence. clear Hw. unfold from_bytes_inner.
  set (kept := if keep then _ else _). clearbody kept.
  set (lazy := header_bytes (header_of d) ++ field_bytes (lazy_fields d)).
  assert (∃ rest, wire_bytes d = lazy ++ rest ∧
    (rest = [] ∨ def_node_type d = NodeTypes.FaderLevel ∧ length rest = 12%nat ∧ def_min_float d ≠ None)
    ∧ (def_node_type d = NodeTypes.FaderLevel → def_min_float d ≠ None → length rest = 12%nat)) as
    (rest & Hrest & Hlen & Hfull).
  { pose proof (wf_fields d Hwf) as Hf. subst lazy. unfold lazy_fields, wire_bytes.
    destruct (def_node_type d) eqn:Et; try (exists []; rewrite app_nil_r; split; [done|]; split; [by left|by intros ?]).
    destruct Hf as [Hf|(lo & hi & st & _ & _ & _ & Hf)].
    - exists []. rewrite Hf. split; [symmetry; apply app_nil_r|]. split; [by left|].
      intros _ []. unfold fields_of, no_fields in Hf. congruence.
    - exists (field_bytes (fields_of d)). rewrite <- (assoc_L (++)). split; [done|].
      rewrite Hf. split; [right|done]. split_and!; [done..|].
      unfold fields_of, range_fields in Hf. congruence. }
  pose proof (read_def_lazy_wire kept d rest Hwf) as HL. rewrite (assoc_L (++)) in HL.
  fold lazy in HL. rewrite Hrest in *. rewrite length_app in *.
  destruct (decide (k < length lazy)%nat).
  - rewrite decide_False by (intros (? & ? & ?); specialize (Hfull ltac:(done) ltac:(done)); lia).
    erewrite read_def_lazy_err; [done|]. eapply cursor_short; [exact HL|lia|].
    rewrite length_app. lia.
  - destruct Hlen as [->|(Ht & Hlen & Hm)]; [simpl in *; lia|].
    rewrite decide_True by (split_and!; [done|lia|done]).
    rewrite (read_def_lazy_ok _ _ _ (make_def (header_of d) (lazy_fields d) kept) (length lazy)).
    + unfold lazy_fields. by rewrite Ht.
    + eapply cursor_local; [exact HL|lia|]. rewrite take_take, Nat.min_l by lia. done.
    + rewrite length_take, length_app. lia.
Qed.

(** Serialization fails, with [InvalidInput], exactly on definitions that lack a field
    of their type, have inconsistent fader fields, or hold a string or an item list too
    long for its length prefix; it never guesses a missing field. *)
Theorem to_wire_bytes_decides d :
  (encodable d ∧ ∃ raw, to_wire_bytes d = Ok raw) ∨
  (¬ encodable d ∧ to_wire_bytes d = Err InvalidInput).
Proof.
  unfold to_wire_bytes. rewrite push_short_string_eq.
  case_decide as H1; [|right; split; [|done]; by intros [? _]]. rewrite push_short_string_eq.
  case_decide as H2; [|right; split; [|done]; by intros (_ & ? & _)].
  match goal with |- context [push_type_fields d ?raw] =>
    pose proof (push_type_fields_total d raw) as H; destruct (push_type_fields d raw) end.
  - left. eauto.
  - right. destruct H as [-> H]. done.
Qed.

(** *** Witnesses *)

Definition sample_def : WingNodeDef :=
  {| def_id := 12; def_parent_id := -3; def_index := 3; def_name := str "mdl";
     def_long_name := str "Model"; def_node_type := NodeTypes.StringEnum;
     def_unit := NodeUnits.Unknown 9; def_read_only := true;
     def_min_float := None; def_max_float := None; def_steps := None;
     def_min_int := None; def_max_int := None; def_max_string_len := None;
     def_string_enum := Some [mk_string_item (str "EXT") (str "External"); mk_string_item (str "HALL") []];
     def_float_enum := None; def_raw := [] |}.

Definition sample_fader : WingNodeDef :=
  {| def_id := 7; def_parent_id := 1; def_index := 0; def_name := str "fdr";
     def_long_name := []; def_node_type := NodeTypes.FaderLevel; def_unit := NodeUnits.Db;
     def_read_only := false;
     def_min_float := Some (F32 0xc2b40000); def_max_float := Some (F32 0x41200000);
     def_steps := Some 1024%Z; def_min_int := None; def_max_int := None;
     def_max_string_len := None; def_string_enum := None; def_float_enum := None; def_raw := [] |}.

Lemma sample_def_wf : wf_def sample_def.
Proof.
  split; try (unfold in_i32, in_u16; simpl; lia); try (split; [reflexivity|simpl; lia]);
    try (simpl; lia).
  eexists. split; [|split; [|reflexivity]]; [simpl; lia|].
  repeat constructor; simpl; lia.
Qed.

Lemma sample_fader_wf : wf_def sample_fader.
Proof.
  split; try (unfold in_i32, in_u16; simpl; lia); try (split; [reflexivity|simpl; lia]);
    try exact I.
  right. do 3 eexists. split_and!; [..|reflexivity]; unfold f32_ok, in_u32, in_i32; simpl; lia.
Qed.

Lemma def_roundtrip_witness :
  ∃ raw, to_wire_bytes sample_def = Ok raw
    ∧ from_bytes_without_raw (raw ++ [Byte.x01]) = Ok (with_raw [] sample_def)
    ∧ from_bytes (raw ++ [Byte.x01]) = Ok (with_raw (raw ++ [Byte.x01]) sample_def).
Proof.
  apply (def_roundtrip sample_def [Byte.x01] sample_def_wf).
  intros H. discriminate H.
Defined.

Lemma def_reserialize_witness :
  ∃ raw', to_wire_bytes (with_raw (wire_bytes sample_def) sample_def) = Ok raw'
    ∧ from_bytes_without_raw raw' = Ok (with_raw [] (with_raw (wire_bytes sample_def) sample_def))
    ∧ with_raw (wire_bytes sample_def) (with_raw (wire_bytes sample_def) sample_def)
      = with_raw (wire_bytes sample_def) sample_def.
Proof.
  apply (def_reserialize (wire_bytes sample_def) (with_raw (wire_bytes sample_def) sample_def)).
  vm_compute. reflexivity.
Defined.

Lemma def_truncated_witness :
  from_bytes_inner (take (length (wire_bytes sample_fader) - 5) (wire_bytes sample_fader)) false
  = Ok (make_def (header_of sample_fader) no_fields []).
Proof.
  rewrite (def_truncated sample_fader (wire_bytes sample_fader) _ false sample_fader_wf).
  - reflexivity.
  - vm_compute. reflexivity.
  - vm_compute. lia.
Defined.
