(* ===== verification/NodeData.v ===== *)
(** Node values ([WingNodeData] of [src/src/node.rs]) and the typed enum helpers of
    [src/src/helpers.rs]: the facets of a value, and the resolution of an enum entry by
    name, label or index to its wire form and back.

    A [usize] index is a [nat]; a Rust [String] is a list of bytes. *)

From stdpp Require Import sets.
From S2P Require Import Prelude Bytes Lib F32 NodeDef.
Local Open Scope rust_scope.

(** ** Values *)

Record WingNodeData := mk_data {
  string_value : option (list byte);
  float_value : option f32;
  int_value : option Z;
}.

#[export] Instance WingNodeData_eq_dec : EqDecision WingNodeData.
Proof. solve_decision. Defined.

Definition data_new : WingNodeData := mk_data None None None.
Definition with_string (s : list byte) : WingNodeData := mk_data (Some s) None None.
Definition with_float (f : f32) : WingNodeData := mk_data None (Some f) None.
Definition with_i32 (i : Z) : WingNodeData := mk_data None None (Some i).
Definition with_i16 (i : Z) : WingNodeData := mk_data None None (Some i).
Definition with_i8 (i : Z) : WingNodeData := mk_data None None (Some i).

Definition get_string (d : WingNodeData) : list byte :=
  match string_value d with
  | Some value => value
  | None =>
    match float_value d with
    | Some value => f32_display value
    | None =>
      match int_value d with
      | Some value => dec value
      | None => []
      end
    end
  end.

Definition get_float (d : WingNodeData) : f32 := default f32_zero (float_value d).
Definition get_int (d : WingNodeData) : Z := default 0%Z (int_value d).

Definition has_string (d : WingNodeData) : bool := bool_decide (is_Some (string_value d)).
Definition has_float (d : WingNodeData) : bool := bool_decide (is_Some (float_value d)).
Definition has_int (d : WingNodeData) : bool := bool_decide (is_Some (int_value d)).

(** [usize::try_from] of an [i32]. *)
Definition usize_of_i32 (i : Z) : option nat := if (i <? 0)%Z then None else Some (Z.to_nat i).

(** [iter().find(..)] and [iter().enumerate().find(..)] with a boolean predicate. *)
Fixpoint find_from {A} (p : A → bool) (l : list A) (i : nat) : option (nat * A) :=
  match l with
  | [] => None
  | a :: l => if p a then Some (i, a) else find_from p l (S i)
  end.
Definition find_item {A} (p : A → bool) (l : list A) : option A := snd <$> find_from p l 0.

Definition string_enum_item (d : WingNodeData) (def : WingNodeDef) : option (list byte) :=
  match def_string_enum def with
  | None => None
  | Some items =>
    let item :=
      if has_int d then
        match usize_of_i32 (get_int d) with Some index => items !! index | None => None end
      else if has_string d then
        let name := get_string d in find_item (λ it, bytes_eqb (si_item it) name) items
      else None in
    si_item <$> item
  end.

(** ** Enum entries *)

Module EnumKeys.
Inductive EnumKey := Item (name : list byte) | LongItem (name : list byte) | Index (idx : nat).
End EnumKeys.
Abbreviation EnumKey := EnumKeys.EnumKey.

Module EnumValues.
Inductive EnumValue := Str (s : list byte) | Float (f : f32).
End EnumValues.
Abbreviation EnumValue := EnumValues.EnumValue.

Definition encode_enum (def : WingNodeDef) (key : EnumKey) : option EnumValue :=
  match def_node_type def with
  | NodeTypes.StringEnum =>
    match def_string_enum def with
    | None => None
    | Some items =>
      (λ it, EnumValues.Str (si_item it)) <$>
        match key with
        | EnumKeys.Item name => find_item (λ it, bytes_eqb (si_item it) name) items
        | EnumKeys.LongItem name => find_item (λ it, bytes_eqb (si_long_item it) name) items
        | EnumKeys.Index idx => items !! idx
        end
    end
  | NodeTypes.FloatEnum =>
    match def_float_enum def with
    | None => None
    | Some items =>
      (λ it, EnumValues.Float (fi_item it)) <$>
        match key with
        | EnumKeys.Item _ => None
        | EnumKeys.LongItem name => find_item (λ it, bytes_eqb (fi_long_item it) name) items
        | EnumKeys.Index idx => items !! idx
        end
    end
  | _ => None
  end.

Module RawEnumValues.
Inductive RawEnumValue := Index (i : Z) | Float (f : f32) | Other (s : list byte).
End RawEnumValues.
Abbreviation RawEnumValue := RawEnumValues.RawEnumValue.

Module EnumDecodes.
Inductive EnumDecode :=
| StringEnum (item long_item : list byte) (index : nat)
| FloatEnum (item : f32) (long_item : list byte) (index : nat)
| Unknown (v : RawEnumValue).
End EnumDecodes.
Abbreviation EnumDecode := EnumDecodes.EnumDecode.

Definition unknown_other (d : WingNodeData) : EnumDecode :=
  EnumDecodes.Unknown (RawEnumValues.Other (get_string d)).

Definition decode_enum (def : WingNodeDef) (d : WingNodeData) : EnumDecode :=
  match def_node_type def with
  | NodeTypes.StringEnum =>
    match def_string_enum def, has_int d with
    | Some items, true =>
      let idx := get_int d in
      match (λ i, (i, items !! i)) <$> usize_of_i32 idx with
      | Some (index, Some it) => EnumDecodes.StringEnum (si_item it) (si_long_item it) index
      | _ => EnumDecodes.Unknown (RawEnumValues.Index idx)
      end
    | _, _ => unknown_other d
    end
  | NodeTypes.FloatEnum =>
    match def_float_enum def, has_float d with
    | Some items, true =>
      let value := get_float d in
      match find_from (λ it, f32_eqb (fi_item it) value) items 0 with
      | Some (index, it) => EnumDecodes.FloatEnum (fi_item it) (fi_long_item it) index
      | None => EnumDecodes.Unknown (RawEnumValues.Float value)
      end
    | _, _ => unknown_other d
    end
  | _ => unknown_other d
  end.

(** [item] of a [FloatEnum] decode is shown through its long label. *)
Definition display_string (d : WingNodeData) (def : WingNodeDef) : list byte :=
  match decode_enum def d with
  | EnumDecodes.StringEnum item _ _ => item
  | EnumDecodes.FloatEnum _ long_item _ => long_item
  | EnumDecodes.Unknown _ => get_string d
  end.

(** ** Lemmas *)

Lemma find_from_Some {A} (p : A → bool) l i n a :
  find_from p l i = Some (n, a) ↔
  ∃ k, n = (i + k)%nat ∧ l !! k = Some a ∧ p a = true ∧
    ∀ j b, (j < k)%nat → l !! j = Some b → p b = false.
Proof.
  revert i. induction l as [|b l IH]; intros i; simpl.
  - split; [done|]. by intros (k & _ & ? & _).
  - destruct (p b) eqn:E.
    + split.
      * intros [= <- <-]. exists 0%nat. split_and!; [lia|done|done|lia].
      * intros ([|k] & -> & Hk & Hp & Hmin); [|by rewrite (Hmin 0%nat b) in E by (done || lia)].
        injection Hk as <-. by rewrite Nat.add_0_r.
    + rewrite IH. split.
      * intros (k & -> & Hk & Hp & Hmin). exists (S k). split_and!; [lia|done|done|].
        intros [|j] c Hj Hc; [by injection Hc as <-|]. apply (Hmin j); [lia|done].
      * intros ([|k] & -> & Hk & Hp & Hmin); [injection Hk as <-; congruence|].
        exists k. split_and!; [lia|done|done|]. intros j c Hj. apply (Hmin (S j)). lia.
Qed.

Lemma find_from_None {A} (p : A → bool) l i :
  find_from p l i = None ↔ ∀ a, a ∈ l → p a = false.
Proof.
  revert i. induction l as [|b l IH]; intros i; simpl; [by split; [set_solver|]|].
  destruct (p b) eqn:E; [|rewrite IH; set_solver].
  split; [done|]. intros H. rewrite (H b) in E by set_solver. done.
Qed.

Lemma find_item_Some {A} (p : A → bool) l a :
  find_item p l = Some a → a ∈ l ∧ p a = true.
Proof.
  unfold find_item. intros H. destruct (find_from p l 0) as [[n b]|] eqn:E; simplify_eq/=.
  apply find_from_Some in E as (k & _ & Hk & Hp & _). split; [by eapply list_elem_of_lookup_2|done].
Qed.

Lemma find_item_elem {A} (p : A → bool) l a :
  a ∈ l → p a = true → is_Some (find_item p l).
Proof.
  intros Ha Hp. unfold find_item. destruct (find_from p l 0) as [[n b]|] eqn:E; [done|].
  rewrite find_from_None in E. by rewrite (E a) in Hp.
Qed.

Lemma find_item_name items name :
  find_item (λ it, bytes_eqb (si_item it) name) items ≠ None ↔ ∃ it, it ∈ items ∧ si_item it = name.
Proof.
  split.
  - destruct (find_item _ items) as [it|] eqn:E; [intros _|done].
    apply find_item_Some in E as [? <-%bytes_eqb_eq]. eauto.
  - intros (it & Hit & <-). intros H.
    destruct (find_item_elem (λ it', bytes_eqb (si_item it') (si_item it)) items it) as [? E];
      [done|by apply bytes_eqb_eq|congruence].
Qed.

Lemma usize_of_i32_Some i n : usize_of_i32 i = Some n ↔ i = Z.of_nat n.
Proof. unfold usize_of_i32. split; intros H; repeat case_match; bool_hyps; simplify_eq; f_equal; lia. Qed.

(** ** Properties *)

(** Decoding a string-enum index and writing the entry back agree: a decoded entry is the
    one at the decoded index, and naming it by index or by its short name encodes to the same
    wire value, that name; naming it by its label encodes to the name of some entry with that
    label. *)
Theorem string_enum_agrees def d item long_item index :
  decode_enum def d = EnumDecodes.StringEnum item long_item index →
  int_value d = Some (Z.of_nat index) ∧
  encode_enum def (EnumKeys.Index index) = Some (EnumValues.Str item) ∧
  encode_enum def (EnumKeys.Item item) = Some (EnumValues.Str item) ∧
  string_enum_item d def = Some item ∧ display_string d def = item ∧
  ∃ items it, def_string_enum def = Some items ∧ it ∈ items ∧ si_long_item it = long_item ∧
    encode_enum def (EnumKeys.LongItem long_item) = Some (EnumValues.Str (si_item it)).
Proof.
  intros H. unfold display_string. rewrite H. unfold decode_enum, encode_enum, string_enum_item in *.
  destruct (def_node_type def); try done; [|repeat (case_match; try done)].
  destruct (def_string_enum def) as [items|]; [|done]. unfold has_int in *.
  destruct (bool_decide _) eqn:Ei; [|done]. apply bool_decide_eq_true in Ei as [i Ei].
  unfold get_int in *. rewrite Ei in *. simpl in *.
  destruct (usize_of_i32 i) as [n|] eqn:En; [|done]. simpl in H.
  destruct (items !! n) as [it|] eqn:Eit; [|done]. injection H as <- <- <-. simpl.
  apply usize_of_i32_Some in En. assert (it ∈ items) as Hel by by eapply list_elem_of_lookup_2.
  split_and!; try done; [by f_equal|by rewrite Eit| |].
  - destruct (find_item _ items) as [it'|] eqn:E.
    + apply find_item_Some in E as [_ E%bytes_eqb_eq]. simpl. by rewrite E.
    + destruct (find_item_elem (λ it', bytes_eqb (si_item it') (si_item it)) items it) as [? E'];
        [done|by apply bytes_eqb_eq|congruence].
  - destruct (find_item_elem (λ it', bytes_eqb (si_long_item it') (si_long_item it)) items it)
      as [it' E]; [done|by apply bytes_eqb_eq|].
    exists items, it'. rewrite E. apply find_item_Some in E as [? ?%bytes_eqb_eq]. done.
Qed.

(** Decoding a float-enum value finds the first entry whose float equals it under IEEE
    equality; writing that entry by index sends the entry's own float; a value of no entry,
    and an index outside the list, is kept verbatim and never mapped to a neighbour. *)
Theorem decode_enum_faithful def d :
  match decode_enum def d with
  | EnumDecodes.StringEnum item long_item index =>
    ∃ items, def_string_enum def = Some items ∧ int_value d = Some (Z.of_nat index) ∧
      items !! index = Some (mk_string_item item long_item)
  | EnumDecodes.FloatEnum item long_item index =>
    ∃ items v, def_float_enum def = Some items ∧ float_value d = Some v ∧
      items !! index = Some (mk_float_item item long_item) ∧ f32_eqb item v = true ∧
      encode_enum def (EnumKeys.Index index) = Some (EnumValues.Float item) ∧
      ∀ j it, (j < index)%nat → items !! j = Some it → f32_eqb (fi_item it) v = false
  | EnumDecodes.Unknown (RawEnumValues.Index i) =>
    int_value d = Some i ∧ ∀ n items, def_string_enum def = Some items → i = Z.of_nat n → items !! n = None
  | EnumDecodes.Unknown (RawEnumValues.Float v) =>
    float_value d = Some v ∧
    ∀ it items, def_float_enum def = Some items → it ∈ items → f32_eqb (fi_item it) v = false
  | EnumDecodes.Unknown (RawEnumValues.Other s) => s = get_string d
  end.
Proof.
  unfold decode_enum, encode_enum, has_int, has_float, get_int, get_float.
  destruct (def_node_type def); try done.
  - destruct (def_string_enum def) as [items|]; [|done].
    destruct (int_value d) as [i|]; [rewrite bool_decide_true by eauto|by rewrite bool_decide_false by by intros []].
    simpl. destruct (usize_of_i32 i) as [n|] eqn:En; simpl.
    + apply usize_of_i32_Some in En as ->. destruct (items !! n) as [[]|] eqn:E.
      * by exists items.
      * split; [done|]. by intros m ? [= <-] <-%Nat2Z.inj.
    + split; [done|]. intros n ? _ ->. by rewrite (proj2 (usize_of_i32_Some _ n)) in En.
  - destruct (def_float_enum def) as [items|]; [|done].
    destruct (float_value d) as [v|]; [rewrite bool_decide_true by eauto|by rewrite bool_decide_false by by intros []].
    simpl. destruct (find_from _ items 0) as [[n [a b]]|] eqn:E.
    + apply find_from_Some in E as (k & -> & Hk & Hp & Hmin). exists items, v. simpl. rewrite Hk.
      split_and!; done.
    + split; [done|]. intros it ? [= <-] Hit. rewrite find_from_None in E. by apply (E it).
Qed.

(** The restorable name of a string-enum value is only ever the short name of an entry
    of the definition, so restoring it writes an entry that exists: the item an in-range
    index points at, or the name itself when it is one of the names. *)
Theorem string_enum_item_exact def d items :
  def_string_enum def = Some items →
  string_enum_item d def =
    match int_value d, string_value d with
    | Some i, _ => if decide (0 ≤ i)%Z then si_item <$> items !! Z.to_nat i else None
    | None, Some s => if decide (s ∈ map si_item items) then Some s else None
    | None, None => None
    end.
Proof.
  intros Hd. unfold string_enum_item, has_int, has_string, get_int, get_string. rewrite Hd.
  destruct (int_value d) as [i|]; [rewrite bool_decide_true by eauto|rewrite bool_decide_false by by intros []].
  - simpl. unfold usize_of_i32. case_decide; [by rewrite (proj2 (Z.ltb_ge i 0)) by done|].
    by rewrite (proj2 (Z.ltb_lt i 0)) by lia.
  - destruct (string_value d) as [s|]; [rewrite bool_decide_true by eauto|by rewrite bool_decide_false by by intros []].
    destruct (find_item _ items) as [it|] eqn:E; simpl.
    + apply find_item_Some in E as [Hit <-%bytes_eqb_eq].
      by rewrite decide_True by by apply list_elem_of_fmap_2.
    + rewrite decide_False; [done|]. intros (it & -> & Hit)%list_elem_of_fmap.
      by apply (find_item_name items (si_item it)); eauto.
Qed.

(** *** Witnesses *)

Lemma string_enum_agrees_witness :
  encode_enum sample_def (EnumKeys.Index 1) = Some (EnumValues.Str (str "HALL")).
Proof.
  apply (string_enum_agrees sample_def (with_i32 1) (str "HALL") [] 1). vm_compute. reflexivity.
Defined.

Lemma string_enum_item_exact_witness :
  string_enum_item (with_string (str "EXT")) sample_def = Some (str "EXT")
  ∧ string_enum_item (with_i32 2) sample_def = None.
Proof.
  split;
    rewrite (string_enum_item_exact sample_def _
      [mk_string_item (str "EXT") (str "External"); mk_string_item (str "HALL") []] eq_refl);
    vm_compute; reflexivity.
Defined.
