(* ===== verification/Description.v ===== *)
(** The description of a definition for people ([src/src/node.rs], [to_description]): its text,
    and the lines that text is made of.  Every line is a label padded to eleven columns and a
    value, so the values stand in one column. *)

From S2P Require Import Prelude Text Bytes Utf8 F32 Display Words NodeDef.
From stdpp Require Import list.
Local Open Scope Z_scope.

(** ** The code *)

Definition type_text (t : NodeType) : list byte :=
  match t with
  | NodeTypes.Node => str "node"
  | NodeTypes.LinearFloat => str "linear float"
  | NodeTypes.LogarithmicFloat => str "log float"
  | NodeTypes.Integer => str "integer"
  | NodeTypes.String => str "string"
  | NodeTypes.FaderLevel => str "fader level (float)"
  | NodeTypes.StringEnum => str "string enum"
  | NodeTypes.FloatEnum => str "float enum"
  | NodeTypes.Unknown n => str "unknown (0x" ++ lower_hex 2 n ++ str ")"
  end.

Definition unit_text (u : NodeUnit) : list byte :=
  match u with
  | NodeUnits.Db => str "dB"
  | NodeUnits.Percent => str "%"
  | NodeUnits.Milliseconds => str "ms"
  | NodeUnits.Hertz => str "Hz"
  | NodeUnits.Meters => str "meters"
  | NodeUnits.Seconds => str "seconds"
  | NodeUnits.Octaves => str "octaves"
  | NodeUnits.Unknown n => str "unknown (0x" ++ lower_hex 2 n ++ str ")"
  | NodeUnits.None => []
  end.

(** A line feed, a label and a value, where there is one. *)
Definition push_field (label : list byte) (value : option (list byte)) : list byte :=
  match value with Some v => newline :: label ++ v | None => [] end.

Fixpoint push_items (first : bool) (items : list (list byte * list byte)) : list byte :=
  match items with
  | [] => []
  | (item, long_item) :: items =>
    (if first then str "     " ++ item else str "           " ++ item)
    ++ (if bool_decide (long_item = []) then [] else str " (" ++ long_item ++ str ")")
    ++ [newline] ++ push_items false items
  end.

Definition string_item (i : StringEnumItem) : list byte * list byte := (si_item i, si_long_item i).
Definition float_item (i : FloatEnumItem) : list byte * list byte := (f32_display (fi_item i), fi_long_item i).

(** The part that depends on the type. *)
Definition push_range (d : WingNodeDef) : list byte :=
  match def_node_type d with
  | NodeTypes.LinearFloat | NodeTypes.LogarithmicFloat | NodeTypes.FaderLevel =>
    push_field (str "Minimum:   ") (f32_display <$> def_min_float d)
    ++ push_field (str "Maximum:   ") (f32_display <$> def_max_float d)
    ++ push_field (str "Steps:     ") (dec <$> def_steps d)
  | NodeTypes.Integer =>
    push_field (str "Minimum:   ") (dec <$> def_min_int d)
    ++ push_field (str "Maximum:   ") (dec <$> def_max_int d)
  | NodeTypes.String => push_field (str "MaxLength: ") (dec <$> def_max_string_len d)
  | NodeTypes.StringEnum =>
    match def_string_enum d with
    | Some items => newline :: str "Items:" ++ push_items true (map string_item items)
    | None => []
    end
  | NodeTypes.FloatEnum =>
    match def_float_enum d with
    | Some items => newline :: str "Items:" ++ push_items true (map float_item items)
    | None => []
    end
  | _ => []
  end.

Definition to_description (d : WingNodeDef) : list byte :=
  str "Id:        " ++ dec (def_id d)
  ++ newline :: str "Read-only: " ++ (if def_read_only d then str "yes" else str "no")
  ++ (if def_index d =? 0 then [] else newline :: str "Index:     " ++ dec (def_index d))
  ++ (if bool_decide (def_name d = []) then [] else newline :: str "Name:      " ++ def_name d)
  ++ (if bool_decide (def_long_name d = []) then [] else newline :: str "Long Name: " ++ def_long_name d)
  ++ newline :: str "Type:      " ++ type_text (def_node_type d)
  ++ (if bool_decide (def_unit d = NodeUnits.None) then [] else newline :: str "Unit:      " ++ unit_text (def_unit d))
  ++ push_range d.

(** ** The lines *)

Definition field_line (label : list byte) (value : option (list byte)) : list (list byte) :=
  match value with Some v => [label ++ v] | None => [] end.

Definition item_text (i : list byte * list byte) : list byte :=
  i.1 ++ (if bool_decide (i.2 = []) then [] else str " (" ++ i.2 ++ str ")").

(** The first item stands next to the heading, the others under it. *)
Definition item_lines (items : list (list byte * list byte)) : list (list byte) :=
  match items with
  | [] => [str "Items:"]
  | i :: items => (str "Items:     " ++ item_text i) :: map (λ i, str "           " ++ item_text i) items
  end.

Definition enum_items (d : WingNodeDef) : option (list (list byte * list byte)) :=
  match def_node_type d with
  | NodeTypes.StringEnum => map string_item <$> def_string_enum d
  | NodeTypes.FloatEnum => map float_item <$> def_float_enum d
  | _ => None
  end.

Definition range_lines (d : WingNodeDef) : list (list byte) :=
  match def_node_type d with
  | NodeTypes.LinearFloat | NodeTypes.LogarithmicFloat | NodeTypes.FaderLevel =>
    field_line (str "Minimum:   ") (f32_display <$> def_min_float d)
    ++ field_line (str "Maximum:   ") (f32_display <$> def_max_float d)
    ++ field_line (str "Steps:     ") (dec <$> def_steps d)
  | NodeTypes.Integer =>
    field_line (str "Minimum:   ") (dec <$> def_min_int d)
    ++ field_line (str "Maximum:   ") (dec <$> def_max_int d)
  | NodeTypes.String => field_line (str "MaxLength: ") (dec <$> def_max_string_len d)
  | _ => match enum_items d with Some items => item_lines items | None => [] end
  end.

Definition head_lines (d : WingNodeDef) : list (list byte) :=
  [str "Id:        " ++ dec (def_id d); str "Read-only: " ++ (if def_read_only d then str "yes" else str "no")]
  ++ (if def_index d =? 0 then [] else [str "Index:     " ++ dec (def_index d)])
  ++ (if bool_decide (def_name d = []) then [] else [str "Name:      " ++ def_name d])
  ++ (if bool_decide (def_long_name d = []) then [] else [str "Long Name: " ++ def_long_name d])
  ++ [str "Type:      " ++ type_text (def_node_type d)]
  ++ (if bool_decide (def_unit d = NodeUnits.None) then [] else [str "Unit:      " ++ unit_text (def_unit d)]).

Definition description_lines (d : WingNodeDef) : list (list byte) := head_lines d ++ range_lines d.

(** Items end their lines, the other lines are only separated. *)
Definition ends_line (d : WingNodeDef) : bool :=
  match enum_items d with Some (_ :: _) => true | _ => false end.

(** Lines after line feeds. *)
Definition fed (ls : list (list byte)) : list byte := concat (map (λ l, newline :: l) ls).

Lemma fed_app ls1 ls2 : fed (ls1 ++ ls2) = fed ls1 ++ fed ls2.
Proof. unfold fed. by rewrite map_app, concat_app. Qed.

Lemma push_field_fed label value : push_field label value = fed (field_line label value).
Proof. destruct value; [|done]. cbn. by rewrite app_nil_r. Qed.

Lemma push_items_fed items : newline :: push_items false items = fed (map (λ i, str "           " ++ item_text i) items) ++ [newline].
Proof.
  induction items as [|[item long] items IH]; [done|]. cbn [push_items map].
  unfold fed. cbn [map concat]. fold (fed (map (λ i, str "           " ++ item_text i) items)).
  unfold item_text at 1. cbn [fst snd]. cbn [app]. rewrite <- !app_assoc. cbn [app]. rewrite <- IH. by rewrite <- ?app_assoc.
Qed.

Lemma push_all_items items :
  newline :: str "Items:" ++ push_items true items
  = fed (item_lines items) ++ (match items with [] => [] | _ => [newline] end).
Proof.
  destruct items as [|[item long] items]; [by vm_compute|]. cbn [push_items item_lines].
  unfold fed. cbn [map concat]. fold (fed (map (λ i, str "           " ++ item_text i) items)).
  unfold item_text at 1. cbn [fst snd]. cbn [app]. rewrite <- !app_assoc, <- push_items_fed.
  change (str "Items:     ") with (str "Items:" ++ str "     "). by rewrite <- !app_assoc.
Qed.

Lemma push_range_fed d : push_range d = fed (range_lines d) ++ (if ends_line d then [newline] else []).
Proof.
  unfold push_range, range_lines, ends_line, enum_items.
  destruct (def_node_type d); rewrite ?push_field_fed, <- ?fed_app, ?app_nil_r; try done.
  - destruct (def_string_enum d) as [items|]; [|done]. cbn [fmap option_fmap option_map].
    rewrite push_all_items. by destruct (map string_item items).
  - destruct (def_float_enum d) as [items|]; [|done]. cbn [fmap option_fmap option_map].
    rewrite push_all_items. by destruct (map float_item items).
Qed.

Lemma to_description_eq d :
  to_description d = drop 1 (fed (description_lines d)) ++ (if ends_line d then [newline] else []).
Proof.
  unfold to_description, description_lines. rewrite push_range_fed, fed_app. unfold head_lines.
  destruct (def_index d =? 0), (bool_decide (def_name d = [])), (bool_decide (def_long_name d = [])),
    (bool_decide (def_unit d = NodeUnits.None));
  unfold fed; cbn [map concat app drop]; fold (fed (range_lines d));
    repeat progress (cbn [app drop]; rewrite ?drop_0; rewrite <- ?app_assoc, ?app_nil_r); done.
Qed.

(** ** The lines of the text *)

Definition clean_byte (b : byte) : Prop := b ≠ newline ∧ b ≠ Byte.x0d.
Definition clean (s : list byte) : Prop := Forall clean_byte s.

#[export] Instance clean_byte_dec b : Decision (clean_byte b).
Proof. unfold clean_byte. apply _. Defined.

Lemma clean_app s t : clean s → clean t → clean (s ++ t).
Proof. intros. by apply Forall_app. Qed.

Lemma clean_line s : clean s → line_ok s.
Proof.
  intros Hs. split.
  - apply not_true_iff_false. unfold contains_any. intros (b & Hin & Hb)%existsb_exists.
    apply bool_decide_eq_true, list_elem_of_singleton in Hb as ->. apply list_elem_of_In in Hin.
    apply (proj1 (Forall_forall _ _) Hs) in Hin as [Hne _]. by apply Hne.
  - unfold strip_cr, Text.strip_suffix, ends_with. destruct (rev s) as [|b r] eqn:E.
    + done.
    + apply Forall_rev in Hs. rewrite E in Hs. apply Forall_cons in Hs as [[_ Hb] _].
      cbn [rev app starts_with]. rewrite bool_decide_eq_false_2; [done|]. congruence.
Qed.

Lemma number_clean s : number_text s → clean s.
Proof.
  intros [Hs _]. eapply Forall_impl; [exact Hs|]. intros b [Hb|[->| ->]]; [|by split|by split].
  split; intros ->; vm_compute in Hb; naive_solver.
Qed.

Lemma dec_clean z : clean (dec z).
Proof. apply number_clean, dec_number. Qed.

Lemma f32_clean f : clean (f32_display f).
Proof.
  destruct (is_finite f) eqn:E; [by apply number_clean, f32_display_number|].
  apply negb_false_iff in E. unfold f32_display. rewrite E.
  destruct (f32_sign f), (f32_mant f =? 0); by repeat constructor.
Qed.

Lemma lower_hex_clean fuel z : clean (lower_hex fuel z).
Proof.
  revert z. induction fuel as [|fuel IH]; intros z; cbn [lower_hex]; [constructor|].
  apply clean_app; [destruct (z <? 16); [constructor|apply IH]|]. apply Forall_singleton.
  unfold hex_digit. pose proof (Z.mod_pos_bound z 16 eq_refl).
  split; intros E; apply (f_equal u8) in E; rewrite u8_b8_small in E by (destruct (_ <? 10) eqn:?; bool_hyps; lia);
    change (u8 newline) with 10 in E; change (u8 Byte.x0d) with 13 in E; destruct (_ <? 10) eqn:?; bool_hyps; lia.
Qed.

Create HintDb clean.
#[local] Hint Resolve clean_app dec_clean f32_clean lower_hex_clean : clean.
#[local] Hint Extern 1 (clean (str _)) => (by repeat constructor) : clean.
#[local] Hint Extern 1 (clean []) => constructor : clean.

(** The texts a definition brings along. *)
Definition clean_def (d : WingNodeDef) : Prop :=
  clean (def_name d) ∧ clean (def_long_name d)
  ∧ (∀ items i, enum_items d = Some items → i ∈ items → clean i.1 ∧ clean i.2).

(** The eleven columns of a label. *)
Definition LABELS : list (list byte) :=
  [str "Id:        "; str "Read-only: "; str "Index:     "; str "Name:      "; str "Long Name: "; str "Type:      ";
   str "Unit:      "; str "Minimum:   "; str "Maximum:   "; str "Steps:     "; str "MaxLength: "; str "Items:     ";
   str "           "].

Definition labelled (l : list byte) : Prop := ∃ label value, label ∈ LABELS ∧ l = label ++ value ∧ clean value.

Lemma labelled_intro label value : bool_decide (label ∈ LABELS) = true → clean value → labelled (label ++ value).
Proof. intros H%bool_decide_eq_true Hv. by exists label, value. Qed.

Lemma type_clean t : clean (type_text t).
Proof. destruct t; cbn [type_text]; auto with clean. Qed.

Lemma unit_clean u : clean (unit_text u).
Proof. destruct u; cbn [unit_text]; auto with clean. Qed.

Lemma item_clean i : clean i.1 → clean i.2 → clean (item_text i).
Proof. intros. unfold item_text. case_bool_decide; auto with clean. Qed.

Lemma field_labelled label value :
  bool_decide (label ∈ LABELS) = true → (∀ v, value = Some v → clean v) → Forall labelled (field_line label value).
Proof. intros Hl Hv. destruct value as [v|]; [|constructor]. constructor; [|constructor]. by apply labelled_intro, Hv. Qed.

Lemma head_labelled d : clean_def d → Forall labelled (head_lines d).
Proof.
  intros (Hn & Hl & _). unfold head_lines. cbn [app].
  repeat first [apply Forall_nil | apply Forall_cons; split | apply Forall_app; split | case_match];
    try (apply labelled_intro; [by vm_compute|]); auto using type_clean, unit_clean with clean.
Qed.

(** Every line of a description is labelled, but for an enum without items. *)
Lemma range_labelled d : clean_def d → Forall (λ l, labelled l ∨ l = str "Items:") (range_lines d).
Proof.
  intros (_ & _ & Hi). assert (∀ ls, Forall labelled ls → Forall (λ l, labelled l ∨ l = str "Items:") ls) as Himp
    by (intros ls Hls; eapply Forall_impl; [exact Hls|]; auto).
  assert (∀ A (f : A → list byte) label o, bool_decide (label ∈ LABELS) = true → (∀ a, clean (f a)) →
     Forall labelled (field_line label (f <$> o))) as Hf.
  { intros A f label o Hl Hc. apply field_labelled; [done|]. intros v (a & _ & ->)%fmap_Some. done. }
  unfold range_lines. destruct (enum_items d) as [items|] eqn:E.
  2:{ destruct (def_node_type d); apply Himp; repeat apply Forall_app_2;
        first [apply Forall_nil_2 | apply Hf; [by vm_compute|intros; apply f32_clean || apply dec_clean]]. }
  assert (Hitems : Forall (λ l, labelled l ∨ l = str "Items:") (item_lines items)).
  { destruct items as [|i items]; [by repeat constructor; right|].
    assert (∀ j, j ∈ i :: items → clean (item_text j)) as Hj
      by (intros j Hj; destruct (Hi _ j eq_refl Hj); by apply item_clean).
    cbn [item_lines]. constructor; [left; apply labelled_intro; [by vm_compute|apply Hj; left]|].
    apply Forall_map, Forall_forall. intros j Hin. left. apply labelled_intro; [by vm_compute|]. apply Hj. by right. }
  unfold enum_items in E. destruct (def_node_type d); done.
Qed.

Lemma fed_joined l ls : drop 1 (fed (l :: ls)) = l ++ fed ls.
Proof. unfold fed. cbn [map concat app drop]. by rewrite drop_0. Qed.

(** Joined lines, with a line feed at the end or without one. *)
Lemma fed_concat l ls : l ++ fed ls ++ [newline] = concat (map (λ l, l ++ [newline]) (l :: ls)).
Proof.
  revert l. induction ls as [|x ls IH]; intros l; [cbn; by rewrite app_nil_r|].
  change (concat (map (λ l, l ++ [newline]) (l :: x :: ls)))
    with ((l ++ [newline]) ++ concat (map (λ l, l ++ [newline]) (x :: ls))).
  rewrite <- IH. unfold fed. cbn [map concat app]. rewrite <- !app_assoc. done.
Qed.

Lemma lines_one l : l ≠ [] → contains_any [newline] l = false → lines l = [l].
Proof. intros Hne Hc. unfold lines. rewrite split_on_none by done. by destruct l. Qed.

Lemma lines_joined l ls (end_line : bool) :
  Forall (λ x, clean x ∧ x ≠ []) (l :: ls) →
  lines (l ++ fed ls ++ (if end_line then [newline] else [])) = l :: ls.
Proof.
  intros H. destruct end_line.
  - rewrite fed_concat. rewrite <- (app_nil_r (concat _)), lines_text; [by rewrite app_nil_r|].
    eapply Forall_impl; [exact H|]. intros x [Hx _]. by apply clean_line.
  - rewrite app_nil_r. destruct (exists_last (l := l :: ls) ltac:(done)) as (init & z & E). rewrite E.
    rewrite E in H. apply Forall_app in H as [Hinit Hz]. apply Forall_singleton in Hz as [Hz Hne].
    assert (l ++ fed ls = concat (map (λ l, l ++ [newline]) init) ++ z) as ->.
    { apply (app_inv_tail [newline]). rewrite <- !app_assoc, fed_concat, E, map_app, concat_app. cbn. by rewrite app_nil_r. }
    rewrite lines_text; [|eapply Forall_impl; [exact Hinit|]; intros x [Hx _]; by apply clean_line].
    f_equal. apply lines_one; [done|]. by apply clean_line.
Qed.

(** Whatever the definition, as long as its names contain no line ends, the lines of its
    description are the labelled fields it has, in order, each with its value in the same
    column. *)
Theorem description_exact d :
  clean_def d →
  lines (to_description d) = description_lines d
  ∧ Forall (λ l, labelled l ∨ l = str "Items:") (description_lines d).
Proof.
  intros Hd. assert (Forall (λ l, labelled l ∨ l = str "Items:") (description_lines d)) as Hl.
  { apply Forall_app. split; [|by apply range_labelled]. eapply Forall_impl; [by apply head_labelled|]. auto. }
  split; [|done]. rewrite to_description_eq. destruct (description_lines d) as [|l ls] eqn:E; [done|].
  rewrite fed_joined, <- app_assoc. apply lines_joined. eapply Forall_impl; [exact Hl|].
  intros x [(label & value & Hin & -> & Hv)| ->]; [|split; [repeat constructor|]; done].
  assert (clean label ∧ label ≠ []) as [Hc Hne].
  { revert Hin. apply (proj1 (Forall_forall (λ x, clean x ∧ x ≠ []) LABELS)). by repeat constructor. }
  split; [by apply clean_app|]. by intros [? _]%app_nil.
Qed.

(** ** Examples *)

Definition sample_def : WingNodeDef :=
  mk_def 4711 0 0 (str "fdr") (str "Fader") NodeTypes.StringEnum (NodeUnits.Unknown 0xa) false None None None None None None
    (Some [mk_string_item (str "A") (str "Input A"); mk_string_item (str "B") []]) None [].

Example sample_description :
  lines (to_description sample_def)
  = [str "Id:        4711"; str "Read-only: no"; str "Name:      fdr"; str "Long Name: Fader"; str "Type:      string enum";
     str "Unit:      unknown (0xa)"; str "Items:     A (Input A)"; str "           B"].
Proof. vm_compute. reflexivity. Qed.

Lemma description_exact_witness :
  clean_def sample_def ∧ lines (to_description sample_def) = description_lines sample_def
  ∧ Forall (λ l, labelled l ∨ l = str "Items:") (description_lines sample_def).
Proof.
  assert (Hd : clean_def sample_def).
  { repeat split; try (by repeat constructor); cbn in *; simplify_eq/=;
      repeat match goal with H : _ ∈ _ :: _ |- _ => apply elem_of_cons in H as [->|H] end;
      try (by apply not_elem_of_nil in H0); repeat constructor; done. }
  split; [exact Hd|]. exact (description_exact sample_def Hd).
Defined.
