(* ===== verification/Channel.v ===== *)
(** Channel framing of the Native TCP stream ([src/src/native.rs], [ChannelDecoder],
    [encode_channel], [append_escaped]): the escape byte 0xdf selects one of fourteen
    channels, a literal 0xdf is sent doubled as [0xdf 0xde]. *)

From S2P Require Import Prelude Lib.
Local Open Scope Z_scope.
Local Open Scope rust_scope.

(** ** Data *)

Definition ESCAPE : Z := 0xdf.
Definition ESCAPED_ESCAPE : Z := 0xde.
Definition CHANNEL_BASE : Z := 0xd0.
Definition CHANNEL_COUNT : Z := 14.

Inductive ChannelEvent :=
| Selected (channel : Z)
| Data (channel : Z) (b : byte).

#[export] Instance ChannelEvent_eq_dec : EqDecision ChannelEvent.
Proof. solve_decision. Defined.

Record ChannelDecoder := mk_channel_decoder {
  escaped : bool;
  channel : option Z;
}.

Definition default_channels : ChannelDecoder :=
  {| escaped := false; channel := None |}.

(** ** Operations *)

Definition with_channel (channel : Z) : Result ChannelDecoder :=
  if CHANNEL_COUNT <=? channel then Err InvalidInput
  else Ok {| escaped := false; channel := Some channel |}.

(** At most two events, as the source's [[Option<ChannelEvent>; 2]]. *)
Definition push_byte (d : ChannelDecoder) (b : byte)
    : Result (option ChannelEvent * option ChannelEvent) * ChannelDecoder :=
  if negb (escaped d) then
    if u8 b =? ESCAPE then
      (Ok (None, None), {| escaped := true; channel := channel d |})
    else
      match channel d with
      | None => (Err InvalidData, d)
      | Some c => (Ok (Some (Data c b), None), d)
      end
  else
    let d' := {| escaped := false; channel := channel d |} in
    if (u8 b =? ESCAPED_ESCAPE) || (u8 b =? ESCAPE) then
      match channel d with
      | None => (Err InvalidData, d')
      | Some c => (Ok (Some (Data c (b8 ESCAPE)), None), d')
      end
    else if (CHANNEL_BASE <=? u8 b) && (u8 b <=? 0xdd) then
      let c := u8 b - CHANNEL_BASE in
      (Ok (Some (Selected c), None), {| escaped := false; channel := Some c |})
    else
      match channel d with
      | None => (Err InvalidData, d')
      | Some c => (Ok (Some (Data c (b8 ESCAPE)), Some (Data c b)), d')
      end.

(** [into_iter().flatten()] on the pair. *)
Definition flatten_events (p : option ChannelEvent * option ChannelEvent) : list ChannelEvent :=
  option_list p.1 ++ option_list p.2.

Fixpoint push (d : ChannelDecoder) (input : list byte)
    : Result (list ChannelEvent) * ChannelDecoder :=
  match input with
  | [] => (Ok [], d)
  | b :: rest =>
    match push_byte d b with
    | (Err e, d') => (Err e, d')
    | (Ok events, d') =>
      match push d' rest with
      | (Ok more, d'') => (Ok (flatten_events events ++ more), d'')
      | (Err e, d'') => (Err e, d'')
      end
    end
  end.

Definition finish (d : ChannelDecoder) : Result unit :=
  if escaped d then Err InvalidData else Ok tt.

Definition reset (d : ChannelDecoder) : ChannelDecoder := default_channels.

Fixpoint append_escaped (out payload : list byte) : list byte :=
  match payload with
  | [] => out
  | b :: rest =>
    append_escaped (if u8 b =? ESCAPE then (out ++ [b]) ++ [b8 ESCAPED_ESCAPE] else out ++ [b]) rest
  end.

Definition encode_channel (channel : Z) (payload : list byte) : Result (list byte) :=
  if CHANNEL_COUNT <=? channel then Err InvalidInput
  else Ok (append_escaped [b8 ESCAPE; b8 (CHANNEL_BASE + channel)] payload).

Definition escaped_len (payload : list byte) : nat :=
  list_sum (map (λ b, if u8 b =? ESCAPE then 2%nat else 1%nat) payload).

(** ** The specification: what a payload byte looks like on the wire *)

Definition escape_byte (b : byte) : list byte :=
  if u8 b =? ESCAPE then [b; b8 ESCAPED_ESCAPE] else [b].

Definition escape (payload : list byte) : list byte := concat (map escape_byte payload).

(** ** Invariant: a selected channel is one of the fourteen *)

Definition channel_ok (c : Z) : Prop := 0 ≤ c < CHANNEL_COUNT.

Definition channels_inv (d : ChannelDecoder) : Prop :=
  match channel d with Some c => channel_ok c | None => True end.

Definition event_channel (e : ChannelEvent) : Z :=
  match e with Selected c => c | Data c _ => c end.

(** ** Lemmas *)

Lemma ESCAPE_byte b : u8 b = ESCAPE → b = b8 ESCAPE.
Proof. intros H. apply u8_inj. by rewrite H. Qed.

Lemma append_escaped_eq out payload : append_escaped out payload = out ++ escape payload.
Proof.
  revert out. induction payload as [|b rest IH]; intros out; [by rewrite app_nil_r|].
  cbn [append_escaped]. rewrite IH. unfold escape, escape_byte. cbn [map concat].
  case_match; by rewrite <- ?(assoc_L (++)).
Qed.

Lemma escape_app a b : escape (a ++ b) = escape a ++ escape b.
Proof. unfold escape. by rewrite map_app, concat_app. Qed.

Lemma escape_cons b a : escape (b :: a) = escape_byte b ++ escape a.
Proof. done. Qed.

Lemma escaped_len_eq payload : escaped_len payload = length (escape payload).
Proof.
  unfold escaped_len, escape. induction payload as [|b rest IH]; [done|].
  cbn [map concat list_sum foldr]. rewrite length_app, <- IH. unfold escape_byte.
  by case_match.
Qed.

Lemma escaped_len_app a b : escaped_len (a ++ b) = (escaped_len a + escaped_len b)%nat.
Proof. by rewrite !escaped_len_eq, escape_app, length_app. Qed.

Lemma escape_id payload : Forall (λ b, u8 b ≠ ESCAPE) payload → escape payload = payload.
Proof.
  induction 1 as [|b rest Hb _ IH]; [done|]. rewrite escape_cons, IH.
  unfold escape_byte. by rewrite (proj2 (Z.eqb_neq _ _)).
Qed.

(** Fragmentation: the bytes may arrive in any number of pieces. *)
Lemma push_app_eq d a b :
  push d (a ++ b) =
    match push d a with
    | (Err e, d') => (Err e, d')
    | (Ok ea, d') =>
      match push d' b with
      | (Ok eb, d'') => (Ok (ea ++ eb), d'')
      | (Err e, d'') => (Err e, d'')
      end
    end.
Proof.
  revert d. induction a as [|x a IH]; intros d; cbn [push app].
  - by destruct (push d b) as [[]].
  - destruct (push_byte d x) as [[ev|e] d']; [|done]. rewrite IH.
    destruct (push d' a) as [[ea|e] d'']; [|done].
    destruct (push d'' b) as [[eb|e] d''']; by rewrite ?(assoc_L (++)).
Qed.

Lemma push_app_ok d a b ea d1 :
  push d a = (Ok ea, d1) →
  push d (a ++ b) = match push d1 b with
                    | (Ok eb, d2) => (Ok (ea ++ eb), d2)
                    | (Err e, d2) => (Err e, d2)
                    end.
Proof. intros H. by rewrite push_app_eq, H. Qed.

(** The state in which channel [c] is selected and no escape is open. *)
Definition on_channel (c : Z) : ChannelDecoder := {| escaped := false; channel := Some c |}.

Lemma push_plain c b : u8 b ≠ ESCAPE → push (on_channel c) [b] = (Ok [Data c b], on_channel c).
Proof. intros H. cbn. by rewrite (proj2 (Z.eqb_neq _ _) H). Qed.

Lemma push_escape_byte c b : push (on_channel c) (escape_byte b) = (Ok [Data c b], on_channel c).
Proof.
  unfold escape_byte. case_match; bool_hyps; [|by apply push_plain].
  apply ESCAPE_byte in H as ->. done.
Qed.

Lemma push_escape c payload :
  push (on_channel c) (escape payload) = (Ok (map (Data c) payload), on_channel c).
Proof.
  induction payload as [|b rest IH]; [done|].
  rewrite escape_cons. erewrite push_app_ok by apply push_escape_byte. by rewrite IH.
Qed.

(** A select sequence, from any state in which no escape is open. *)
Lemma push_select d c :
  escaped d = false → channel_ok c →
  push d [b8 ESCAPE; b8 (CHANNEL_BASE + c)] = (Ok [Selected c], on_channel c).
Proof.
  intros Hd [H0 H1]. unfold CHANNEL_COUNT in H1. destruct d as [e ch]; simpl in Hd; subst e.
  cbn [push push_byte escaped channel negb flatten_events option_list fst snd app].
  change (u8 (b8 ESCAPE) =? ESCAPE) with true. cbn [escaped negb].
  unfold push_byte. cbn [escaped negb channel]. rewrite u8_b8_small by (unfold CHANNEL_BASE; lia).
  unfold ESCAPED_ESCAPE, ESCAPE, CHANNEL_BASE.
  rewrite (proj2 (Z.eqb_neq (0xd0 + c) 0xde)), (proj2 (Z.eqb_neq (0xd0 + c) 0xdf)),
    (proj2 (Z.leb_le 0xd0 (0xd0 + c))), (proj2 (Z.leb_le (0xd0 + c) 0xdd)) by lia.
  cbn [orb andb]. replace (0xd0 + c - 0xd0) with c by lia. done.
Qed.

Lemma encode_channel_eq c payload :
  channel_ok c →
  encode_channel c payload = Ok ([b8 ESCAPE; b8 (CHANNEL_BASE + c)] ++ escape payload).
Proof.
  intros [_ H]. unfold encode_channel. rewrite (proj2 (Z.leb_gt _ _) H).
  by rewrite append_escaped_eq.
Qed.

Lemma push_byte_inv d b r d' :
  channels_inv d → push_byte d b = (r, d') →
  channels_inv d' ∧
  match r with Ok p => Forall (λ e, channel_ok (event_channel e)) (flatten_events p) | Err _ => True end.
Proof.
  unfold channels_inv, channel_ok, CHANNEL_COUNT, push_byte, flatten_events, CHANNEL_BASE.
  intros Hd H. repeat split_match_in H; bool_hyps; simplify_eq/=;
    repeat match goal with E : channel _ = _ |- _ => rewrite E in * end;
    repeat (split || constructor); simpl; try done; lia.
Qed.

Lemma push_inv d input r d' :
  channels_inv d → push d input = (r, d') →
  channels_inv d' ∧
  match r with Ok l => Forall (λ e, channel_ok (event_channel e)) l | Err _ => True end.
Proof.
  revert d r d'. induction input as [|b rest IH]; intros d r d' Hd H; cbn [push] in H.
  - simplify_eq. auto.
  - destruct (push_byte d b) as [[p|e] d1] eqn:E1.
    + apply push_byte_inv in E1 as [Hd1 Hp]; [|done].
      destruct (push d1 rest) as [[more|e] d2] eqn:E2;
        apply IH in E2 as [Hd2 Hm]; try done; simplify_eq; split; try done.
      by apply Forall_app.
    + apply push_byte_inv in E1 as [Hd1 _]; [|done]. by simplify_eq.
Qed.

Lemma push_error d input e d' : push d input = (Err e, d') → e = InvalidData ∧ channel d' = None.
Proof.
  revert e d d'. induction input as [|b rest IH]; intros e d d' H; cbn [push] in H; [done|].
  destruct (push_byte d b) as [[p|e'] d1] eqn:E1.
  - destruct (push d1 rest) as [[more|e'] d2] eqn:E2; simplify_eq. by eapply IH.
  - simplify_eq. unfold push_byte in E1. repeat split_match_in E1; done.
Qed.

(** Once a channel is selected no byte is rejected. *)
Lemma push_selected_ok d input :
  is_Some (channel d) → ∃ l d', push d input = (Ok l, d') ∧ is_Some (channel d').
Proof.
  revert d. induction input as [|b rest IH]; intros d [c Hc]; [by eexists _, _|].
  assert (∃ p d1, push_byte d b = (Ok p, d1) ∧ is_Some (channel d1)) as (p & d1 & E1 & H1).
  { unfold push_byte. rewrite Hc.
    repeat case_match; simplify_eq; try (by eexists _, _);
    eexists _, _; simpl; rewrite ?Hc; eauto. }
  cbn [push]. rewrite E1. destruct (IH d1 H1) as (l & d2 & -> & H2). by eexists _, _.
Qed.

Create HintDb channel.
#[export] Hint Resolve push_escape push_select : channel.
Create Rewrite HintDb channel_rw.
#[export] Hint Rewrite append_escaped_eq escape_app push_escape : channel_rw.

(** ** Properties *)

(** Encoding a payload on a channel and de-framing the wire bytes yields the channel
    selection followed by exactly the payload's bytes on that channel, and leaves the
    decoder on that channel with no escape open, whatever the payload contains. *)
Theorem encode_channel_roundtrip d c payload wire :
  escaped d = false → channel_ok c → encode_channel c payload = Ok wire →
  push d wire = (Ok (Selected c :: map (Data c) payload), on_channel c)
  ∧ finish (push d wire).2 = Ok tt
  ∧ length wire = (2 + escaped_len payload)%nat.
Proof.
  intros Hd Hc Hw. rewrite encode_channel_eq in Hw by done.
  assert (wire = [b8 ESCAPE; b8 (CHANNEL_BASE + c)] ++ escape payload) as -> by congruence.
  erewrite push_app_ok by eauto with channel. rewrite push_escape. repeat split.
  rewrite length_app, escaped_len_eq. done.
Qed.

Lemma encode_channel_roundtrip_witness :
  push default_channels
    [Byte.xdf; Byte.xd3; Byte.x01; Byte.xdf; Byte.xde; Byte.xdf; Byte.xde]
  = (Ok [Selected 3; Data 3 Byte.x01; Data 3 Byte.xdf; Data 3 Byte.xdf], on_channel 3).
Proof.
  refine (proj1 (encode_channel_roundtrip default_channels 3
    [Byte.x01; Byte.xdf; Byte.xdf] _ eq_refl _ eq_refl)).
  unfold channel_ok, CHANNEL_COUNT. lia.
Defined.

(** De-framing does not depend on how the stream is cut into fragments, errors
    included: pushing [a ++ b] is pushing [a] and then, when that succeeded, [b]. *)
Theorem channel_push_fragmentation d a b :
  push d (a ++ b) =
    match push d a with
    | (Err e, d') => (Err e, d')
    | (Ok ea, d') =>
      match push d' b with
      | (Ok eb, d'') => (Ok (ea ++ eb), d'')
      | (Err e, d'') => (Err e, d'')
      end
    end.
Proof. apply push_app_eq. Qed.

(** Starting from a fresh decoder every event, on every input, names one of the
    fourteen channels, the selected channel stays one of them, and the only possible
    error is [InvalidData], which occurs only while no channel was ever selected. *)
Theorem channel_events_in_range input r d' :
  push default_channels input = (r, d') →
  channels_inv d' ∧
  match r with
  | Ok l => Forall (λ e, channel_ok (event_channel e)) l
  | Err e => e = InvalidData ∧ channel d' = None
  end.
Proof.
  intros H. assert (channels_inv default_channels) as H0 by done.
  destruct (push_inv _ _ _ _ H0 H) as [Hinv Hr]. split; [done|].
  destruct r as [l|e]; [done|]. by eapply push_error.
Qed.

Lemma channel_events_in_range_witness :
  channels_inv (push default_channels [Byte.xdf; Byte.xd1; Byte.x07]).2.
Proof. exact (proj1 (channel_events_in_range [Byte.xdf; Byte.xd1; Byte.x07] _ _ eq_refl)). Defined.
