(* ===== verification/Meter.v ===== *)
(** Meters: the family table of [Meter] and its wire encoding ([src/src/console.rs]), the
    subscription decoder ([decode_meter_entries] of [src/src/native.rs]) and the typed
    frames of [src/src/meters.rs].

    A sample is an [i16] as a [Z]; an index byte is a [u8] as a [Z].  Where the source
    asserts a slice length ([from_slice], [try_into().expect(..)]) the model returns
    [None] for the panic. *)

From S2P Require Import Prelude Bytes Lib F32 Channel.
Local Open Scope Z_scope.
Local Open Scope rust_scope.

(** ** The meter families *)

Module Meters.
Inductive Meter :=
| Channel (n : Z) | Aux (n : Z) | Bus (n : Z) | Main (n : Z) | Matrix (n : Z)
| Dca (n : Z) | Fx (n : Z) | Source (n : Z) | Output (n : Z) | Monitor | Rta
| Channel2 (n : Z) | Aux2 (n : Z) | Bus2 (n : Z) | Main2 (n : Z) | Matrix2 (n : Z).
End Meters.
Abbreviation Meter := Meters.Meter.

#[export] Instance Meter_eq_dec : EqDecision Meter.
Proof. solve_decision. Defined.

(** [(opcode, index, max)]. *)
Definition wire (m : Meter) : Z * Z * Z :=
  match m with
  | Meters.Channel n => (0xa0, n, 40)
  | Meters.Aux n => (0xa1, n, 8)
  | Meters.Bus n => (0xa2, n, 16)
  | Meters.Main n => (0xa3, n, 4)
  | Meters.Matrix n => (0xa4, n, 8)
  | Meters.Dca n => (0xa5, n, 16)
  | Meters.Fx n => (0xa6, n, 16)
  | Meters.Source n => (0xa7, n, 16)
  | Meters.Output n => (0xa8, n, 11)
  | Meters.Monitor => (0xa9, 0, 0)
  | Meters.Rta => (0xaa, 0, 0)
  | Meters.Channel2 n => (0xab, n, 40)
  | Meters.Aux2 n => (0xac, n, 8)
  | Meters.Bus2 n => (0xad, n, 16)
  | Meters.Main2 n => (0xae, n, 4)
  | Meters.Matrix2 n => (0xaf, n, 8)
  end.

Definition from_wire (opcode index : Z) : option Meter :=
  match opcode with
  | 0xa0 => Some (Meters.Channel index)
  | 0xa1 => Some (Meters.Aux index)
  | 0xa2 => Some (Meters.Bus index)
  | 0xa3 => Some (Meters.Main index)
  | 0xa4 => Some (Meters.Matrix index)
  | 0xa5 => Some (Meters.Dca index)
  | 0xa6 => Some (Meters.Fx index)
  | 0xa7 => Some (Meters.Source index)
  | 0xa8 => Some (Meters.Output index)
  | 0xa9 => if index =? 0 then Some Meters.Monitor else None
  | 0xaa => if index =? 0 then Some Meters.Rta else None
  | 0xab => Some (Meters.Channel2 index)
  | 0xac => Some (Meters.Aux2 index)
  | 0xad => Some (Meters.Bus2 index)
  | 0xae => Some (Meters.Main2 index)
  | 0xaf => Some (Meters.Matrix2 index)
  | _ => None
  end.

(** [u8::checked_sub(1)]. *)
Definition checked_pred (n : Z) : option Z := if n =? 0 then None else Some (n - 1).

Definition encode_meter (buf : list byte) (m : Meter) : Result (list byte) :=
  let '(opcode, n, max) := wire m in
  if max =? 0 then Ok (buf ++ [b8 opcode])
  else
    let? index :=
      ok_or (match checked_pred n with
             | Some i => if n <=? max then Some i else None
             | None => None
             end) InvalidInput in
    Ok (append_escaped (buf ++ [b8 opcode]) [b8 index]).

(** The loop over the requested meters in [request_meter]. *)
Fixpoint encode_meters (buf : list byte) (meters : list Meter) : Result (list byte) :=
  match meters with
  | [] => Ok buf
  | m :: rest => let? buf := encode_meter buf m in encode_meters buf rest
  end.

(** The loop state of [decode_meter_entries]: the meters so far and the current family. *)
Definition decode_meter_byte (limit : nat) (st : list Meter * option Z) (b : byte)
    : Result (list Meter * option Z) :=
  let '(meters, family) := st in
  let byte := u8 b in
  let? st :=
    if (0xa0 <=? byte) && (byte <=? 0xaf) then
      let meters :=
        match from_wire byte 0 with
        | Some m => if (wire m).2 =? 0 then meters ++ [m] else meters
        | None => meters
        end in
      Ok (meters, Some byte)
    else if byte <=? 0x7f then
      let? f := ok_or family InvalidData in
      let? m := ok_or (from_wire f (byte + 1)) InvalidData in
      Ok (meters ++ [m], family)
    else Err InvalidData in
  if (limit <? length st.1)%nat then Err InvalidData else Ok st.

Fixpoint decode_meter_loop (limit : nat) (st : list Meter * option Z) (raw : list byte)
    : Result (list Meter) :=
  match raw with
  | [] => Ok st.1
  | b :: rest => let? st := decode_meter_byte limit st b in decode_meter_loop limit st rest
  end.

Definition decode_meter_entries (raw : list byte) (limit : nat) : Result (list Meter) :=
  decode_meter_loop limit ([], None) raw.

(** ** Frames *)

(** Whole big-endian pairs; an odd last byte is dropped. *)
Fixpoint meter_samples (bytes : list byte) : list Z :=
  match bytes with
  | a :: b :: rest => i16_from_be [a; b] :: meter_samples rest
  | _ => []
  end.

Definition level_db (raw : Z) : f32 := f32_div (f32_of_int raw) (f32_of_int 256).
Definition fx_band_gr_db (raw : Z) : f32 :=
  f32_div (f32_mul (f32_of_int raw) (f32_of_int 6)) (f32_of_int 2048).

Definition CHANNEL_WORDS : nat := 8.
Definition DCA_WORDS : nat := 4.
Definition FX_WORDS : nat := 10.
Definition SOURCE_WORDS : nat := 8.
Definition OUTPUT_WORDS : nat := 8.
Definition MONITOR_WORDS : nat := 6.
Definition RTA_WORDS : nat := 120.
Definition CHANNEL_V2_WORDS : nat := 11.

Record ChannelMeter := mk_channel_meter {
  cm_input_l : Z; cm_input_r : Z; cm_output_l : Z; cm_output_r : Z;
  cm_gate_key : Z; cm_gate_gain : Z; cm_dyn_key : Z; cm_dyn_gain : Z;
}.

Record DcaMeter := mk_dca_meter {
  pre_fader_l : Z; pre_fader_r : Z; post_fader_l : Z; post_fader_r : Z;
}.

Record FxMeter := mk_fx_meter {
  fx_input_l : Z; fx_input_r : Z; fx_output_l : Z; fx_output_r : Z;
  fx_state : list Z;
}.

Record MonitorMeter := mk_monitor_meter {
  solo_l : Z; solo_r : Z; mon1_l : Z; mon1_r : Z; mon2_l : Z; mon2_r : Z;
}.

Record ChannelMeterV2 := mk_channel_meter_v2 {
  v2_input_l : Z; v2_input_r : Z; v2_output_l : Z; v2_output_r : Z;
  v2_gate_key : Z; v2_gate_gain : Z; v2_gate_led : Z;
  v2_dyn_key : Z; v2_dyn_gain : Z; v2_dyn_state : Z; v2_automix_gain : Z;
}.

Definition channel_from_slice (words : list Z) : option ChannelMeter :=
  match words with
  | [a; b; c; d; e; f; g; h] => Some (mk_channel_meter a b c d e f g h)
  | _ => None
  end.

Definition dca_from_slice (words : list Z) : option DcaMeter :=
  match words with
  | [a; b; c; d] => Some (mk_dca_meter a b c d)
  | _ => None
  end.

Definition fx_from_slice (words : list Z) : option FxMeter :=
  match words with
  | [a; b; c; d; e; f; g; h; i; j] => Some (mk_fx_meter a b c d [e; f; g; h; i; j])
  | _ => None
  end.

Definition monitor_from_slice (words : list Z) : option MonitorMeter :=
  match words with
  | [a; b; c; d; e; f] => Some (mk_monitor_meter a b c d e f)
  | _ => None
  end.

Definition channel_v2_from_slice (words : list Z) : option ChannelMeterV2 :=
  match words with
  | [a; b; c; d; e; f; g; h; i; j; k] => Some (mk_channel_meter_v2 a b c d e f g h i j k)
  | _ => None
  end.

(** [words.try_into()] to an array of eight samples. *)
Definition array8 (words : list Z) : option (list Z) :=
  if (length words =? 8)%nat then Some words else None.

Module MeterFrameEntries.
Inductive MeterFrameEntry :=
| Channel (m : ChannelMeter) | Aux (m : ChannelMeter) | Bus (m : ChannelMeter)
| Main (m : ChannelMeter) | Matrix (m : ChannelMeter)
| Dca (m : DcaMeter) | Fx (m : FxMeter)
| Source (words : list Z) | Output (words : list Z)
| Monitor (m : MonitorMeter) | Rta (words : list Z)
| Channel2 (m : ChannelMeterV2) | Aux2 (m : ChannelMeterV2) | Bus2 (m : ChannelMeterV2)
| Main2 (m : ChannelMeterV2) | Matrix2 (m : ChannelMeterV2).
End MeterFrameEntries.
Abbreviation MeterFrameEntry := MeterFrameEntries.MeterFrameEntry.

Definition meter_word_count (m : Meter) : nat :=
  match m with
  | Meters.Channel _ | Meters.Aux _ | Meters.Bus _ | Meters.Main _ | Meters.Matrix _ => CHANNEL_WORDS
  | Meters.Dca _ => DCA_WORDS
  | Meters.Fx _ => FX_WORDS
  | Meters.Source _ => SOURCE_WORDS
  | Meters.Output _ => OUTPUT_WORDS
  | Meters.Monitor => MONITOR_WORDS
  | Meters.Rta => RTA_WORDS
  | Meters.Channel2 _ | Meters.Aux2 _ | Meters.Bus2 _ | Meters.Main2 _ | Meters.Matrix2 _ =>
    CHANNEL_V2_WORDS
  end.

Definition decode_entry (m : Meter) (words : list Z) : option MeterFrameEntry :=
  match m with
  | Meters.Channel _ => MeterFrameEntries.Channel <$> channel_from_slice words
  | Meters.Aux _ => MeterFrameEntries.Aux <$> channel_from_slice words
  | Meters.Bus _ => MeterFrameEntries.Bus <$> channel_from_slice words
  | Meters.Main _ => MeterFrameEntries.Main <$> channel_from_slice words
  | Meters.Matrix _ => MeterFrameEntries.Matrix <$> channel_from_slice words
  | Meters.Dca _ => MeterFrameEntries.Dca <$> dca_from_slice words
  | Meters.Fx _ => MeterFrameEntries.Fx <$> fx_from_slice words
  | Meters.Source _ => MeterFrameEntries.Source <$> array8 words
  | Meters.Output _ => MeterFrameEntries.Output <$> array8 words
  | Meters.Monitor => MeterFrameEntries.Monitor <$> monitor_from_slice words
  | Meters.Rta => Some (MeterFrameEntries.Rta words)
  | Meters.Channel2 _ => MeterFrameEntries.Channel2 <$> channel_v2_from_slice words
  | Meters.Aux2 _ => MeterFrameEntries.Aux2 <$> channel_v2_from_slice words
  | Meters.Bus2 _ => MeterFrameEntries.Bus2 <$> channel_v2_from_slice words
  | Meters.Main2 _ => MeterFrameEntries.Main2 <$> channel_v2_from_slice words
  | Meters.Matrix2 _ => MeterFrameEntries.Matrix2 <$> channel_v2_from_slice words
  end.

(** The loop of [decode_frame]; [None] is a panic (a slice out of range, a wrong length). *)
Fixpoint decode_frame_loop (request : list Meter) (raw : list Z) (offset : nat)
    (out : list MeterFrameEntry) : option (list MeterFrameEntry) :=
  match request with
  | [] => Some out
  | m :: rest =>
    let n := meter_word_count m in
    words ← get_range raw offset (offset + n);
    entry ← decode_entry m words;
    decode_frame_loop rest raw (offset + n) (out ++ [entry])
  end.

Definition decode_frame (request : list Meter) (raw : list Z)
    : option (Result (list MeterFrameEntry)) :=
  let expected := list_sum (map meter_word_count request) in
  if negb (length raw =? expected)%nat then Some (Err (MeterFrameLength expected (length raw)))
  else Ok <$> decode_frame_loop request raw 0 [].

(** ** The specification of a frame: what an entry holds *)

Definition channel_words (m : ChannelMeter) : list Z :=
  [cm_input_l m; cm_input_r m; cm_output_l m; cm_output_r m;
   cm_gate_key m; cm_gate_gain m; cm_dyn_key m; cm_dyn_gain m].
Definition channel_v2_words (m : ChannelMeterV2) : list Z :=
  [v2_input_l m; v2_input_r m; v2_output_l m; v2_output_r m; v2_gate_key m; v2_gate_gain m;
   v2_gate_led m; v2_dyn_key m; v2_dyn_gain m; v2_dyn_state m; v2_automix_gain m].

(** The family opcode of an entry and the samples it was built from, in order. *)
Definition entry_words (e : MeterFrameEntry) : Z * list Z :=
  match e with
  | MeterFrameEntries.Channel m => (0xa0, channel_words m)
  | MeterFrameEntries.Aux m => (0xa1, channel_words m)
  | MeterFrameEntries.Bus m => (0xa2, channel_words m)
  | MeterFrameEntries.Main m => (0xa3, channel_words m)
  | MeterFrameEntries.Matrix m => (0xa4, channel_words m)
  | MeterFrameEntries.Dca m => (0xa5, [pre_fader_l m; pre_fader_r m; post_fader_l m; post_fader_r m])
  | MeterFrameEntries.Fx m =>
    (0xa6, [fx_input_l m; fx_input_r m; fx_output_l m; fx_output_r m] ++ fx_state m)
  | MeterFrameEntries.Source w => (0xa7, w)
  | MeterFrameEntries.Output w => (0xa8, w)
  | MeterFrameEntries.Monitor m => (0xa9, [solo_l m; solo_r m; mon1_l m; mon1_r m; mon2_l m; mon2_r m])
  | MeterFrameEntries.Rta w => (0xaa, w)
  | MeterFrameEntries.Channel2 m => (0xab, channel_v2_words m)
  | MeterFrameEntries.Aux2 m => (0xac, channel_v2_words m)
  | MeterFrameEntries.Bus2 m => (0xad, channel_v2_words m)
  | MeterFrameEntries.Main2 m => (0xae, channel_v2_words m)
  | MeterFrameEntries.Matrix2 m => (0xaf, channel_v2_words m)
  end.

Definition meter_opcode (m : Meter) : Z := (wire m).1.1.

(** A meter that may be subscribed to: its index is within its family. *)
Definition meter_ok (m : Meter) : Prop :=
  (wire m).2 = 0 ∨ 1 ≤ (wire m).1.2 ≤ (wire m).2.

#[export] Instance meter_ok_dec m : Decision (meter_ok m).
Proof. unfold meter_ok. apply _. Defined.

(** The subscription bytes of one meter. *)
Definition meter_bytes (m : Meter) : list byte :=
  let '(opcode, n, max) := wire m in
  if max =? 0 then [b8 opcode] else [b8 opcode; b8 (n - 1)].

(** ** Lemmas: the family table *)

Lemma wire_opcode m : 0xa0 ≤ meter_opcode m ≤ 0xaf.
Proof. by destruct m. Qed.

Lemma wire_max m : 0 ≤ (wire m).2 ≤ 40.
Proof. by destruct m. Qed.

Lemma from_wire_family m n : 
  (wire m).2 ≠ 0 → ∃ m', from_wire (meter_opcode m) n = Some m' ∧ wire m' = ((wire m).1.1, n, (wire m).2).
Proof. destruct m; simpl; intros; try done; eexists; done. Qed.

Lemma from_wire_wire m : from_wire (wire m).1.1 (wire m).1.2 = Some m.
Proof. by destruct m. Qed.

Lemma from_wire_Some o i m : from_wire o i = Some m → (wire m).1 = (o, i).
Proof.
  unfold from_wire. intros H.
  repeat (match type of H with
  | match ?x with _ => _ end = _ => destruct x eqn:?; try discriminate H; bool_hyps; subst
  end; try (injection H as <-; done)).
Qed.

(** ** Lemmas: subscriptions *)

Lemma encode_meter_eq buf m :
  (0 ≤ (wire m).1.2 < 256) →
  encode_meter buf m = if decide (meter_ok m) then Ok (buf ++ meter_bytes m) else Err InvalidInput.
Proof.
  intros Hn. pose proof (wire_max m) as Hmax. destruct (decide (meter_ok m)) as [Hok|Hok];
    unfold encode_meter, meter_ok, meter_bytes, checked_pred in *;
    destruct (wire m) as [[o n] max]; cbn [fst snd] in *.
  - destruct (max =? 0) eqn:Em; bool_hyps; [done|].
    rewrite (proj2 (Z.eqb_neq n 0)), (proj2 (Z.leb_le n max)) by lia. cbn [ok_or].
    rewrite append_escaped_eq, <- (assoc_L (++)), escape_id; [done|].
    repeat constructor. rewrite u8_b8_small; unfold ESCAPE; lia.
  - rewrite (proj2 (Z.eqb_neq max 0)) by lia. destruct (n =? 0) eqn:En; bool_hyps; [done|].
    by rewrite (proj2 (Z.leb_gt n max)) by lia.
Qed.

(** The opcode alone selects the family, and is the whole entry of an index-less meter. *)
Lemma decode_family_byte limit ms f m :
  (length ms < limit)%nat →
  decode_meter_byte limit (ms, f) (b8 (meter_opcode m))
  = Ok (if (wire m).2 =? 0 then ms ++ [m] else ms, Some (meter_opcode m)).
Proof.
  intros Hl. unfold decode_meter_byte. pose proof (wire_opcode m) as Ho.
  rewrite u8_b8_small by lia. rewrite (proj2 (Z.leb_le 0xa0 _)), (proj2 (Z.leb_le _ 0xaf)) by lia.
  cbn [andb].
  assert (∀ l : list Meter, (length l ≤ S (length ms))%nat → (limit <? length l)%nat = false) as Hlen
    by (intros; apply Nat.ltb_ge; lia).
  destruct m; lazy beta iota zeta delta [meter_opcode wire from_wire fst snd Z.eqb Pos.eqb];
    rewrite Hlen; try done; rewrite ?length_app; simpl; lia.
Qed.

Lemma decode_index_byte limit ms m :
  (wire m).2 ≠ 0 → 1 ≤ (wire m).1.2 ≤ (wire m).2 → (length ms < limit)%nat →
  decode_meter_byte limit (ms, Some (meter_opcode m)) (b8 ((wire m).1.2 - 1))
  = Ok (ms ++ [m], Some (meter_opcode m)).
Proof.
  intros H0 Hn Hl. unfold decode_meter_byte. pose proof (wire_max m).
  rewrite u8_b8_small by lia. rewrite (proj2 (Z.leb_gt 0xa0 _)) by lia. cbn [andb].
  rewrite (proj2 (Z.leb_le _ 0x7f)) by lia. cbn [ok_or]. rewrite Z.sub_add.
  unfold meter_opcode. rewrite from_wire_wire. cbn [ok_or fst].
  by rewrite (proj2 (Nat.ltb_ge _ _)) by (rewrite length_app; simpl; lia).
Qed.

Lemma decode_meter_step limit ms f m rest :
  meter_ok m → (length ms < limit)%nat →
  decode_meter_loop limit (ms, f) (meter_bytes m ++ rest)
  = decode_meter_loop limit (ms ++ [m], Some (meter_opcode m)) rest.
Proof.
  intros Hok Hl. pose proof (decode_family_byte limit ms f m Hl) as Hf.
  pose proof (decode_index_byte limit ms m) as Hi. unfold meter_ok, meter_bytes, meter_opcode in *.
  destruct (wire m) as [[o n] max]. cbn [fst snd] in *.
  destruct (max =? 0) eqn:Em; bool_hyps; cbn [app decode_meter_loop]; rewrite Hf; [done|].
  rewrite Hi by (done || lia). done.
Qed.

Lemma encode_meters_ok buf meters :
  Forall meter_ok meters → encode_meters buf meters = Ok (buf ++ concat (map meter_bytes meters)).
Proof.
  intros Hok. revert buf. induction Hok as [|m meters Hm _ IH]; intros buf; simpl; [by rewrite app_nil_r|].
  rewrite encode_meter_eq.
  - rewrite decide_True by done. by rewrite IH, <- (assoc_L (++)).
  - pose proof (wire_max m). destruct Hm as [Hm|]; [|lia]. by destruct m.
Qed.

Lemma encode_meters_inv buf meters w :
  Forall (λ m, in_u8 (wire m).1.2) meters → encode_meters buf meters = Ok w →
  Forall meter_ok meters ∧ w = buf ++ concat (map meter_bytes meters).
Proof.
  intros Hu. revert buf. induction Hu as [|m meters Hm _ IH]; intros buf; simpl.
  { intros [= <-]. by rewrite app_nil_r. }
  rewrite encode_meter_eq by done. case_decide; [|done]. intros [Hok ->]%IH.
  split; [by constructor|]. by rewrite <- (assoc_L (++)).
Qed.

Lemma decode_meters_ok limit ms f meters :
  Forall meter_ok meters → (length ms + length meters ≤ limit)%nat →
  decode_meter_loop limit (ms, f) (concat (map meter_bytes meters)) = Ok (ms ++ meters).
Proof.
  intros Hok. revert ms f. induction Hok as [|m meters Hm _ IH]; intros ms f Hl; simpl in *;
    [by rewrite app_nil_r|].
  rewrite decode_meter_step by (done || lia). rewrite IH by (rewrite length_app; simpl; lia).
  by rewrite <- (assoc_L (++)).
Qed.

(** ** Lemmas: frames *)

Lemma decode_entry_ok m words :
  length words = meter_word_count m →
  ∃ e, decode_entry m words = Some e ∧ entry_words e = (meter_opcode m, words).
Proof.
  intros Hl.
  destruct m; cbn in Hl |- *;
    try (eexists; split; [|reflexivity]; unfold array8; rewrite Hl; reflexivity);
    repeat (destruct words as [|? words]; try discriminate Hl; cbn in Hl; try injection Hl as Hl);
    eexists; split; reflexivity.
Qed.

Lemma decode_frame_loop_ok request raw offset out :
  (offset + list_sum (map meter_word_count request) ≤ length raw)%nat →
  ∃ es, decode_frame_loop request raw offset out = Some (out ++ es)
    ∧ map (λ e, (entry_words e).1) es = map meter_opcode request
    ∧ concat (map (λ e, (entry_words e).2) es)
      = take (list_sum (map meter_word_count request)) (drop offset raw).
Proof.
  revert offset out. induction request as [|m request IH]; intros offset out Hl; simpl in *.
  - exists []. by rewrite app_nil_r.
  - set (n := meter_word_count m) in *.
    set (words := take n (drop offset raw)).
    assert (length words = n) as Hw by (subst words; rewrite length_take, length_drop; lia).
    assert (get_range raw offset (offset + n) = Some words) as ->.
    { apply get_range_Some. split; [lia|]. subst words. f_equal. lia. }
    simpl. destruct (decode_entry_ok m words Hw) as (e & -> & He). simpl.
    destruct (IH (offset + n)%nat (out ++ [e])) as (es & -> & H1 & H2); [lia|].
    exists (e :: es). simpl. rewrite He, H1, H2, <- (assoc_L (++)). split_and!; try done.
    rewrite <- drop_drop. subst words. set (d := drop offset raw) in *. simpl.
    clearbody d. replace (list_sum _) with (n + list_sum (map meter_word_count request) - n)%nat at 1 by lia.
    rewrite <- (take_drop n (take (n + _) d)). rewrite take_take, Nat.min_l by lia.
    by rewrite skipn_firstn_comm.
Qed.

(** ** Properties *)

(** The family table is one bijection: [from_wire] undoes [wire] on every meter, and any
    opcode and index it accepts are the ones [wire] gives back. *)
Theorem meter_wire_inverse o i m : from_wire o i = Some m ↔ (wire m).1 = (o, i).
Proof.
  split; [apply from_wire_Some|]. intros H. pose proof (from_wire_wire m) as E. by rewrite H in E.
Qed.

(** A subscription list whose indices are 1-based and within their families is encoded,
    and the server-side decoder reads the same list back, order and duplicates included,
    up to its entry limit; any other index is refused with [InvalidInput]. *)
Theorem meter_entries_roundtrip meters limit :
  Forall (λ m, in_u8 (wire m).1.2) meters → (length meters ≤ limit)%nat →
  match encode_meters [] meters with
  | Ok w => Forall meter_ok meters ∧ decode_meter_entries w limit = Ok meters
  | Err e => e = InvalidInput ∧ ¬ Forall meter_ok meters
  end.
Proof.
  intros Hu Hl. destruct (decide (Forall meter_ok meters)) as [Hok|Hok].
  - rewrite encode_meters_ok by done. split; [done|]. by apply decode_meters_ok.
  - assert (∀ buf, encode_meters buf meters = Err InvalidInput) as ->; [|done].
    clear Hl. induction Hu as [|m meters Hm _ IH]; [by destruct Hok|]. intros buf. simpl.
    rewrite encode_meter_eq by done. case_decide; [|done]. apply IH. intros ?. by destruct Hok; constructor.
Qed.

(** Splitting a frame never panics.  A frame of the requested length yields one entry per
    requested meter, in request order and of its family, and the entries hold exactly the
    frame's samples in order; any other length is reported with both lengths. *)
Theorem decode_frame_exact request raw :
  let expected := list_sum (map meter_word_count request) in
  match decode_frame request raw with
  | None => False
  | Some (Err e) => length raw ≠ expected ∧ e = MeterFrameLength expected (length raw)
  | Some (Ok es) =>
    length raw = expected ∧ map (λ e, (entry_words e).1) es = map meter_opcode request
    ∧ concat (map (λ e, (entry_words e).2) es) = raw
  end.
Proof.
  intros expected. unfold decode_frame. fold expected.
  destruct (length raw =? expected)%nat eqn:E; bool_hyps; simpl; [|done].
  destruct (decode_frame_loop_ok request raw 0 []) as (es & -> & H1 & H2); [fold expected; lia|].
  simpl. split_and!; [done..|]. fold expected in H2. by rewrite H2, drop_0, take_ge by lia.
Qed.

(** The samples of a frame body survive the wire: the big-endian pairs decode to the
    [i16] samples they encode, and an odd last byte is ignored. *)
Theorem meter_samples_roundtrip samples extra :
  Forall in_i16 samples → (length extra ≤ 1)%nat →
  meter_samples (concat (map (to_be 2) samples) ++ extra) = samples.
Proof.
  intros Hs He. induction Hs as [|z samples Hz _ IH].
  - destruct extra as [|? [|? ?]]; simpl in He; done || lia.
  - pose proof (i16_round z Hz) as Hr. cbn [map concat]. rewrite to_be_2 in *.
    cbn [app meter_samples]. by rewrite Hr, IH.
Qed.

(** The levels the tests of the source name. *)
Example level_db_tests :
  map (λ r, f32_display (level_db r)) [0; 256; -256; 128; -32768; 1]
  = map str ["0"; "1"; "-1"; "0.5"; "-128"; "0.00390625"]%string
  ∧ f32_display (fx_band_gr_db 2048) = str "6" ∧ f32_display (fx_band_gr_db (-1024)) = str "-3".
Proof. vm_compute. repeat split. Qed.

(** *** Witnesses *)

Lemma meter_entries_roundtrip_witness :
  decode_meter_entries [b8 0xa0; b8 39; b8 0xa9; b8 0xa5; b8 0] 512
  = Ok [Meters.Channel 40; Meters.Monitor; Meters.Dca 1].
Proof.
  apply (meter_entries_roundtrip [Meters.Channel 40; Meters.Monitor; Meters.Dca 1] 512).
  - repeat constructor; simpl; lia.
  - apply Nat.leb_le. vm_compute. reflexivity.
Defined.

Lemma meter_samples_roundtrip_witness :
  meter_samples (concat (map (to_be 2) [-1; 32767; -32768]) ++ [Byte.x00]) = [-1; 32767; -32768].
Proof.
  apply (meter_samples_roundtrip [-1; 32767; -32768] [Byte.x00]).
  - repeat constructor; unfold in_i16; simpl; lia.
  - apply Nat.leb_le. reflexivity.
Defined.
