(* ===== verification/NativeRequest.v ===== *)
(** The server-side decoder of client-to-console Native requests ([src/src/native.rs],
    [NativeRequestDecoder]): tokens of the audio-engine channel 1, meter requests of
    channel 3, keep-alives and unknown opcodes, under resource limits.

    [&mut self] methods are state transformers over the decoder record.  The two loops of
    the source, the tail calls of [parse_audio] and the [while let] drains, run on fuel
    taken from the buffer length; [parse_audio_eq], [handle_audio] and [handle_meter] show
    that they satisfy the source's recursion, so the fuel never runs out. *)

From S2P Require Import Prelude Bytes Lib Utf8 F32 Channel Meter.
Local Open Scope Z_scope.
Local Open Scope rust_scope.

(** ** Data *)

Record NativeLimits := mk_limits {
  max_buffered_bytes : nat;
  max_string_bytes : nat;
  max_path_elements : nat;
  max_path_bytes : nat;
  max_definition_bytes : nat;
  max_batch_requests : nat;
  max_meter_entries : nat;
}.

Definition default_limits : NativeLimits :=
  {| max_buffered_bytes := 64 * 1024; max_string_bytes := 256; max_path_elements := 256;
     max_path_bytes := 4096; max_definition_bytes := 1024 * 1024;
     max_batch_requests := 4096; max_meter_entries := 512 |}.

Module NativeValues.
Inductive NativeValue :=
| Integer (z : Z) | Float (f : f32) | RawFloat (f : f32) | String (s : list byte).
End NativeValues.
Abbreviation NativeValue := NativeValues.NativeValue.

Module PathElements.
Inductive PathElement := Name (s : list byte) | Index (i : Z).
End PathElements.
Abbreviation PathElement := PathElements.PathElement.

Module NativeRequests.
Inductive NativeRequest :=
| KeepAlive (channel : Z)
| Get (id : Z)
| Definition_ (id : Z)
| Set_ (id : Z) (value : NativeValue)
| Toggle (id : Z)
| Step (id : Z) (amount : Z)
| BulkData (path : list PathElement)
| BulkDefinition (path : list PathElement)
| MeterPort (port : Z)
| MeterSubscribe (port report_id : Z) (meters : list Meter)
| MeterRenew (report_id : Z)
| Unknown (channel opcode : Z).
End NativeRequests.
Abbreviation NativeRequest := NativeRequests.NativeRequest.

Record NativeRequestDecoder := mk_decoder {
  channels : ChannelDecoder;
  limits : NativeLimits;
  audio : list byte;
  meter : list byte;
  selected_id : option Z;
  path : list PathElement;
  path_bytes : nat;
  meter_port : option Z;
}.

(** Field updates. *)
Definition set_channels (c : ChannelDecoder) (d : NativeRequestDecoder) : NativeRequestDecoder :=
  mk_decoder c (limits d) (audio d) (meter d) (selected_id d) (path d) (path_bytes d) (meter_port d).
Definition set_audio (a : list byte) (d : NativeRequestDecoder) : NativeRequestDecoder :=
  mk_decoder (channels d) (limits d) a (meter d) (selected_id d) (path d) (path_bytes d) (meter_port d).
Definition set_meter (m : list byte) (d : NativeRequestDecoder) : NativeRequestDecoder :=
  mk_decoder (channels d) (limits d) (audio d) m (selected_id d) (path d) (path_bytes d) (meter_port d).
Definition set_selected (i : option Z) (d : NativeRequestDecoder) : NativeRequestDecoder :=
  mk_decoder (channels d) (limits d) (audio d) (meter d) i (path d) (path_bytes d) (meter_port d).
Definition set_path (p : list PathElement) (n : nat) (d : NativeRequestDecoder) : NativeRequestDecoder :=
  mk_decoder (channels d) (limits d) (audio d) (meter d) (selected_id d) p n (meter_port d).
Definition set_meter_port (p : option Z) (d : NativeRequestDecoder) : NativeRequestDecoder :=
  mk_decoder (channels d) (limits d) (audio d) (meter d) (selected_id d) (path d) (path_bytes d) p.

(** ** Operations *)

Definition decoder_new (l : NativeLimits) : NativeRequestDecoder :=
  {| channels := default_channels; limits := l; audio := []; meter := [];
     selected_id := None; path := []; path_bytes := 0; meter_port := None |}.

Abbreviation DM A := (M NativeRequestDecoder Error A).

Definition drain_audio_bytes (n : nat) : DM unit := modify (λ d, set_audio (drop n (audio d)) d).
Definition drain_meter_bytes (n : nat) : DM unit := modify (λ d, set_meter (drop n (meter d)) d).

Definition check_buffer_limit : DM unit := λ d,
  if (max_buffered_bytes (limits d) <? length (audio d) + length (meter d))%nat
  then (Err InvalidData, d) else (Ok tt, d).

Definition check_path_room (name_bytes : nat) : DM unit := λ d,
  if (length (path d) <? max_path_elements (limits d))%nat &&
     (path_bytes d + name_bytes <=? max_path_bytes (limits d))%nat
  then (Ok tt, d) else (Err InvalidData, d).

Definition push_path_index (index : Z) : DM unit :=
  check_path_room 0 ;;!
  modify (λ d, set_path (path d ++ [PathElements.Index index]) (path_bytes d) d).

Definition selected_or_err : DM Z := λ d, (ok_or (selected_id d) InvalidData, d).

Definition set_value (used : nat) (value : NativeValue) : DM NativeRequest :=
  let! id := selected_or_err in
  drain_audio_bytes used ;;!
  ret (NativeRequests.Set_ id value).

Definition parse_string_token (len header : nat) : DM NativeRequest :=
  let! l := gets limits in
  if (max_string_bytes l <? len)%nat then throw InvalidData
  else
    let! a := gets audio in
    let! value := lift (from_utf8 InvalidData (take len (drop header a))) in
    set_value (header + len) (NativeValues.String value).

(** One activation of [parse_audio]: it returns, or it calls itself again. *)
Inductive activation := Return (r : option NativeRequest) | Again.

Definition returns (m : DM NativeRequest) : DM activation := let! r := m in ret (Return (Some r)).
Definition wait : DM activation := ret (Return None).

(** [let Some(bytes) = self.audio.get(i..j) else { return Ok(None) };]. *)
Definition with_audio (i j : nat) (k : list byte → DM activation) : DM activation :=
  let! a := gets audio in
  match get_range a i j with Some bytes => k bytes | None => wait end.

Definition when_audio (n : nat) (k : DM activation) : DM activation :=
  let! a := gets audio in if (length a <? n)%nat then wait else k.

Definition pop_path (d : NativeRequestDecoder) : NativeRequestDecoder :=
  match list.last (path d) with
  | Some (PathElements.Name name) =>
    set_path (removelast (path d)) (path_bytes d - length name) d
  | _ => set_path (removelast (path d)) (path_bytes d) d
  end.

Definition parse_audio_opcode (opcode : Z) : DM activation :=
  if opcode =? 0xd7 then
    with_audio 1 5 (λ bytes,
      modify (set_selected (Some (i32_from_be bytes))) ;;!
      drain_audio_bytes 5 ;;! ret Again)
  else if opcode <=? 0x3f then returns (set_value 1 (NativeValues.Integer opcode))
  else if opcode <=? 0x7f then
    (push_path_index (opcode - 0x3f) ;;! drain_audio_bytes 1 ;;! ret Again)
  else if opcode <=? 0xbf then
    let len := Z.to_nat (opcode - 0x7f) in
    when_audio (len + 1) (returns (parse_string_token len 1))
  else if opcode <=? 0xcf then
    let len := Z.to_nat (opcode - 0xbf) in
    when_audio (len + 1)
      (check_path_room len ;;!
       let! a := gets audio in
       let! value := lift (from_utf8 InvalidData (take len (drop 1 a))) in
       modify (λ d, set_path (path d ++ [PathElements.Name value]) (path_bytes d + len) d) ;;!
       drain_audio_bytes (len + 1) ;;! ret Again)
  else if opcode =? 0xd0 then returns (set_value 1 (NativeValues.String []))
  else if opcode =? 0xd1 then
    with_audio 1 2 (λ l,
      let len := (Z.to_nat (from_be l) + 1)%nat in
      when_audio (len + 2) (returns (parse_string_token len 2)))
  else if opcode =? 0xd2 then
    with_audio 1 3 (λ bytes,
      push_path_index (from_be bytes + 1) ;;! drain_audio_bytes 3 ;;! ret Again)
  else if opcode =? 0xd3 then
    with_audio 1 3 (λ bytes, returns (set_value 3 (NativeValues.Integer (i16_from_be bytes))))
  else if opcode =? 0xd4 then
    with_audio 1 5 (λ bytes, returns (set_value 5 (NativeValues.Integer (i32_from_be bytes))))
  else if (opcode =? 0xd5) || (opcode =? 0xd6) then
    with_audio 1 5 (λ bytes,
      let value := f32_from_be bytes in
      returns (set_value 5
        (if opcode =? 0xd5 then NativeValues.Float value else NativeValues.RawFloat value)))
  else if opcode =? 0xd8 then
    returns (let! id := selected_or_err in
             drain_audio_bytes 1 ;;! ret (NativeRequests.Toggle id))
  else if opcode =? 0xd9 then
    with_audio 1 2 (λ amount,
      returns (let! id := selected_or_err in
               drain_audio_bytes 2 ;;!
               ret (NativeRequests.Step id (wrap_signed 8 (from_be amount)))))
  else if opcode =? 0xda then
    (modify (set_selected None) ;;! modify (set_path [] 0) ;;!
     drain_audio_bytes 1 ;;! ret Again)
  else if opcode =? 0xdb then
    (modify (set_selected None) ;;! modify pop_path ;;! drain_audio_bytes 1 ;;! ret Again)
  else if (opcode =? 0xdc) || (opcode =? 0xdd) then
    returns (
      drain_audio_bytes 1 ;;!
      let! selected := gets selected_id in
      let! p := gets path in
      ret (match selected with
           | Some id =>
             if opcode =? 0xdc then NativeRequests.Get id else NativeRequests.Definition_ id
           | None =>
             if opcode =? 0xdc then NativeRequests.BulkData p else NativeRequests.BulkDefinition p
           end))
  else
    returns (drain_audio_bytes 1 ;;! ret (NativeRequests.Unknown 1 opcode)).

Definition parse_audio_step : DM activation := λ d,
  match audio d with
  | [] => wait d
  | b :: _ => parse_audio_opcode (u8 b) d
  end.

Fixpoint parse_audio_fuel (n : nat) : DM (option NativeRequest) :=
  match n with
  | O => ret None
  | S n =>
    let! a := parse_audio_step in
    match a with Return r => ret r | Again => parse_audio_fuel n end
  end.

Definition parse_audio : DM (option NativeRequest) := λ d,
  parse_audio_fuel (S (length (audio d))) d.

Definition parse_meter : DM (option NativeRequest) := λ d,
  match meter d with
  | [] => (Ok None, d)
  | b :: _ =>
    let opcode := u8 b in
    if opcode =? 0xd3 then
      match get_range (meter d) 1 3 with
      | None => (Ok None, d)
      | Some bytes =>
        let port := from_be bytes in
        (modify (set_meter_port (Some port)) ;;! drain_meter_bytes 3 ;;!
         ret (Some (NativeRequests.MeterPort port))) d
      end
    else if opcode =? 0xd4 then
      match get_range (meter d) 1 5 with
      | None => (Ok None, d)
      | Some bytes =>
        let report_id := from_be bytes in
        match meter d !! 5%nat with
        | None => (Ok None, d)
        | Some next =>
          if negb (u8 next =? 0xdc) then
            (drain_meter_bytes 5 ;;! ret (Some (NativeRequests.MeterRenew report_id))) d
          else
            let end_ := (length (meter d) - 1)%nat in
            if (end_ <? 6)%nat || negb (bool_decide (u8 <$> meter d !! end_ = Some 0xde)) then
              (Ok None, d)
            else
              (let! meters := lift (decode_meter_entries (take (end_ - 6) (drop 6 (meter d)))
                                      (max_meter_entries (limits d))) in
               let! port := lift (ok_or (meter_port d) InvalidData) in
               drain_meter_bytes (end_ + 1) ;;!
               ret (Some (NativeRequests.MeterSubscribe port report_id meters))) d
        end
      end
    else (drain_meter_bytes 1 ;;! ret (Some (NativeRequests.Unknown 3 opcode))) d
  end.

Definition flush_meter_renewal : DM (list NativeRequest) := λ d,
  if bool_decide (meter d = []) then (Ok [], d)
  else if (length (meter d) =? 5)%nat && bool_decide (u8 <$> meter d !! 0%nat = Some 0xd4) then
    (Ok [NativeRequests.MeterRenew (from_be (take 4 (drop 1 (meter d))))], set_meter [] d)
  else (Err InvalidData, d).

(** [while let Some(request) = parse()? { requests.push(request) }]. *)
Fixpoint drain_fuel (n : nat) (parse : DM (option NativeRequest)) (requests : list NativeRequest)
    : DM (list NativeRequest) :=
  match n with
  | O => ret requests
  | S n =>
    let! r := parse in
    match r with
    | Some request => drain_fuel n parse (requests ++ [request])
    | None => ret requests
    end
  end.

Definition handle_event (event : ChannelEvent) (requests : list NativeRequest)
    : DM (list NativeRequest) :=
  match event with
  | Selected channel =>
    let! renew := flush_meter_renewal in
    ret (requests ++ renew ++ [NativeRequests.KeepAlive channel])
  | Data channel b =>
    if channel =? 1 then
      modify (λ d, set_audio (audio d ++ [b]) d) ;;!
      check_buffer_limit ;;!
      let! a := gets audio in drain_fuel (S (length a)) parse_audio requests
    else if channel =? 3 then
      modify (λ d, set_meter (meter d ++ [b]) d) ;;!
      check_buffer_limit ;;!
      let! m := gets meter in drain_fuel (S (length m)) parse_meter requests
    else ret (requests ++ [NativeRequests.Unknown channel (u8 b)])
  end.

Fixpoint handle_events (events : list ChannelEvent) (requests : list NativeRequest)
    : DM (list NativeRequest) :=
  match events with
  | [] => ret requests
  | event :: rest =>
    let! requests := handle_event event requests in
    let! l := gets limits in
    if (max_batch_requests l <? length requests)%nat then throw InvalidData
    else handle_events rest requests
  end.

Definition push_events (input : list byte) : DM (list NativeRequest) := λ d,
  let '(r, c) := Channel.push (channels d) input in
  match r with
  | Ok events => handle_events events [] (set_channels c d)
  | Err e => (Err e, set_channels c d)
  end.

Definition decoder_reset (d : NativeRequestDecoder) : NativeRequestDecoder := decoder_new (limits d).

Definition decoder_push (input : list byte) : DM (list NativeRequest) := λ d,
  match push_events input d with
  | (Ok requests, d') => (Ok requests, d')
  | (Err e, d') => (Err e, decoder_reset d')
  end.

Definition flush : DM (list NativeRequest) := flush_meter_renewal.

Definition decoder_finish (d : NativeRequestDecoder) : Result unit :=
  let? _ := finish (channels d) in
  if bool_decide (audio d = []) && bool_decide (meter d = []) then Ok tt else Err InvalidData.

(** ** The specification: a stream of tokens *)

(** One token of the audio-engine channel, by its encoding. *)
Module Tokens.
Inductive Token :=
| Select (id : Z)                      (* 0xd7 *)
| Small (z : Z)                        (* 0x00..0x3f *)
| Near (index : Z)                     (* 0x40..0x7f *)
| Short (s : list byte)                (* 0x80..0xbf *)
| Name (s : list byte)                 (* 0xc0..0xcf *)
| Empty                                (* 0xd0 *)
| Long (s : list byte)                 (* 0xd1 *)
| Far (index : Z)                      (* 0xd2 *)
| Int16 (z : Z)                        (* 0xd3 *)
| Int32 (z : Z)                        (* 0xd4 *)
| Real (f : f32)                       (* 0xd5 *)
| RawReal (f : f32)                    (* 0xd6 *)
| Toggle                               (* 0xd8 *)
| Step (amount : Z)                    (* 0xd9 *)
| Root                                 (* 0xda *)
| Parent                               (* 0xdb *)
| Read                                 (* 0xdc *)
| Describe                             (* 0xdd *)
| Other (opcode : Z).                  (* 0xde.. *)
End Tokens.
Abbreviation Token := Tokens.Token.

(** The navigation state of a connection. *)
Record Nav := mk_nav { nav_id : option Z; nav_path : list PathElement }.

Definition element_bytes (e : PathElement) : nat :=
  match e with PathElements.Name s => length s | PathElements.Index _ => 0 end.
Definition names_bytes (p : list PathElement) : nat := list_sum (map element_bytes p).

Definition has_room (l : NativeLimits) (p : list PathElement) (n : nat) : bool :=
  (length p <? max_path_elements l)%nat && (names_bytes p + n <=? max_path_bytes l)%nat.

Definition assign (s : Nav) (v : NativeValue) : Result (option NativeRequest * Nav) :=
  let? id := ok_or (nav_id s) InvalidData in Ok (Some (NativeRequests.Set_ id v), s).

Definition assign_string (l : NativeLimits) (s : Nav) (w : list byte)
    : Result (option NativeRequest * Nav) :=
  if (length w <=? max_string_bytes l)%nat && utf8_valid w then assign s (NativeValues.String w)
  else Err InvalidData.

Definition enter (l : NativeLimits) (s : Nav) (e : PathElement)
    : Result (option NativeRequest * Nav) :=
  if has_room l (nav_path s) (element_bytes e)
  then Ok (None, mk_nav (nav_id s) (nav_path s ++ [e])) else Err InvalidData.

(** What a token asks for, and how it moves the navigation state. *)
Definition run_token (l : NativeLimits) (t : Token) (s : Nav)
    : Result (option NativeRequest * Nav) :=
  match t with
  | Tokens.Select id => Ok (None, mk_nav (Some id) (nav_path s))
  | Tokens.Small z | Tokens.Int16 z | Tokens.Int32 z => assign s (NativeValues.Integer z)
  | Tokens.Real f => assign s (NativeValues.Float f)
  | Tokens.RawReal f => assign s (NativeValues.RawFloat f)
  | Tokens.Empty => assign s (NativeValues.String [])
  | Tokens.Short w | Tokens.Long w => assign_string l s w
  | Tokens.Near i | Tokens.Far i => enter l s (PathElements.Index i)
  | Tokens.Name w =>
    if utf8_valid w then enter l s (PathElements.Name w) else Err InvalidData
  | Tokens.Toggle =>
    let? id := ok_or (nav_id s) InvalidData in Ok (Some (NativeRequests.Toggle id), s)
  | Tokens.Step n =>
    let? id := ok_or (nav_id s) InvalidData in Ok (Some (NativeRequests.Step id n), s)
  | Tokens.Root => Ok (None, mk_nav None [])
  | Tokens.Parent => Ok (None, mk_nav None (removelast (nav_path s)))
  | Tokens.Read =>
    Ok (Some (match nav_id s with
              | Some id => NativeRequests.Get id
              | None => NativeRequests.BulkData (nav_path s)
              end), s)
  | Tokens.Describe =>
    Ok (Some (match nav_id s with
              | Some id => NativeRequests.Definition_ id
              | None => NativeRequests.BulkDefinition (nav_path s)
              end), s)
  | Tokens.Other op => Ok (Some (NativeRequests.Unknown 1 op), s)
  end.

(** How many bytes the first token of a buffer takes; a length byte that has not arrived
    asks for itself. *)
Definition audio_need (a : list byte) : nat :=
  match a with
  | [] => 1
  | b :: rest =>
    let op := u8 b in
    if (op <=? 0x7f)%Z then 1
    else if (op <=? 0xbf)%Z then S (Z.to_nat (op - 0x7f)%Z)
    else if (op <=? 0xcf)%Z then S (Z.to_nat (op - 0xbf)%Z)
    else if (op =? 0xd1)%Z then match rest with [] => 2 | n :: _ => 3 + Z.to_nat (u8 n) end
    else if ((op =? 0xd2) || (op =? 0xd3))%Z then 3
    else if ((0xd4 <=? op) && (op <=? 0xd7))%Z then 5
    else if (op =? 0xd9)%Z then 2
    else 1
  end%nat.

Definition complete (a : list byte) : bool := (audio_need a <=? length a)%nat.

(** The first token of a complete buffer. *)
Definition token_of (a : list byte) : Token :=
  match a with
  | [] => Tokens.Empty
  | b :: rest =>
    let op := u8 b in
    if op <=? 0x3f then Tokens.Small op
    else if op <=? 0x7f then Tokens.Near (op - 0x3f)
    else if op <=? 0xbf then Tokens.Short (take (Z.to_nat (op - 0x7f)) rest)
    else if op <=? 0xcf then Tokens.Name (take (Z.to_nat (op - 0xbf)) rest)
    else if op =? 0xd0 then Tokens.Empty
    else if op =? 0xd1 then Tokens.Long (take (audio_need a - 2) (drop 1 rest))
    else if op =? 0xd2 then Tokens.Far (from_be (take 2 rest) + 1)
    else if op =? 0xd3 then Tokens.Int16 (i16_from_be (take 2 rest))
    else if op =? 0xd4 then Tokens.Int32 (i32_from_be (take 4 rest))
    else if op =? 0xd5 then Tokens.Real (f32_from_be (take 4 rest))
    else if op =? 0xd6 then Tokens.RawReal (f32_from_be (take 4 rest))
    else if op =? 0xd7 then Tokens.Select (i32_from_be (take 4 rest))
    else if op =? 0xd8 then Tokens.Toggle
    else if op =? 0xd9 then Tokens.Step (wrap_signed 8 (from_be (take 1 rest)))
    else if op =? 0xda then Tokens.Root
    else if op =? 0xdb then Tokens.Parent
    else if op =? 0xdc then Tokens.Read
    else if op =? 0xdd then Tokens.Describe
    else Tokens.Other op
  end.

(** The wire form of a token. *)
Definition token_bytes (t : Token) : list byte :=
  match t with
  | Tokens.Select id => b8 0xd7 :: to_be 4 id
  | Tokens.Small z => [b8 z]
  | Tokens.Near i => [b8 (i + 0x3f)]
  | Tokens.Short s => b8 (Z.of_nat (length s) + 0x7f) :: s
  | Tokens.Name s => b8 (Z.of_nat (length s) + 0xbf) :: s
  | Tokens.Empty => [b8 0xd0]
  | Tokens.Long s => b8 0xd1 :: b8 (Z.of_nat (length s) - 1) :: s
  | Tokens.Far i => b8 0xd2 :: to_be 2 (i - 1)
  | Tokens.Int16 z => b8 0xd3 :: to_be 2 z
  | Tokens.Int32 z => b8 0xd4 :: to_be 4 z
  | Tokens.Real f => b8 0xd5 :: f32_to_be f
  | Tokens.RawReal f => b8 0xd6 :: f32_to_be f
  | Tokens.Toggle => [b8 0xd8]
  | Tokens.Step n => [b8 0xd9; b8 n]
  | Tokens.Root => [b8 0xda]
  | Tokens.Parent => [b8 0xdb]
  | Tokens.Read => [b8 0xdc]
  | Tokens.Describe => [b8 0xdd]
  | Tokens.Other op => [b8 op]
  end.

(** A token that has a wire form: its fields fit their encoding. *)
Definition token_ok (t : Token) : Prop :=
  match t with
  | Tokens.Select z | Tokens.Int32 z => in_i32 z
  | Tokens.Small z => 0 ≤ z < 0x40
  | Tokens.Near i => 1 ≤ i ≤ 0x40
  | Tokens.Short s => (1 ≤ length s ≤ 64)%nat
  | Tokens.Name s => (1 ≤ length s ≤ 16)%nat
  | Tokens.Long s => (1 ≤ length s ≤ 256)%nat
  | Tokens.Far i => 1 ≤ i ≤ 0x10000
  | Tokens.Int16 z => in_i16 z
  | Tokens.Real f | Tokens.RawReal f => f32_ok f
  | Tokens.Step n => in_i8 n
  | Tokens.Other op => 0xde ≤ op < 0x100
  | _ => True
  end.

(** The navigation state of a decoder, and a decoder with another one. *)
Definition nav_of (d : NativeRequestDecoder) : Nav := mk_nav (selected_id d) (path d).
Definition with_nav (s : Nav) (a : list byte) (d : NativeRequestDecoder) : NativeRequestDecoder :=
  mk_decoder (channels d) (limits d) a (meter d) (nav_id s) (nav_path s) (names_bytes (nav_path s))
    (meter_port d).

(** The running byte count of the path is exact. *)
Definition path_inv (d : NativeRequestDecoder) : Prop := path_bytes d = names_bytes (path d).

(** ** Lemmas: one activation of the parser *)

Lemma opcode_cases (P : Z → Prop) :
  (∀ op, 0 ≤ op ≤ 0x3f → P op) → (∀ op, 0x40 ≤ op ≤ 0x7f → P op) →
  (∀ op, 0x80 ≤ op ≤ 0xbf → P op) → (∀ op, 0xc0 ≤ op ≤ 0xcf → P op) →
  P 0xd0 → P 0xd1 → P 0xd2 → P 0xd3 → P 0xd4 → P 0xd5 → P 0xd6 → P 0xd7 → P 0xd8 → P 0xd9 →
  P 0xda → P 0xdb → P 0xdc → P 0xdd → (∀ op, 0xde ≤ op < 0x100 → P op) →
  ∀ op, 0 ≤ op < 0x100 → P op.
Proof.
  intros. destruct (decide (op ≤ 0x3f)); [eauto with lia|].
  destruct (decide (op ≤ 0x7f)); [eauto with lia|].
  destruct (decide (op ≤ 0xbf)); [eauto with lia|].
  destruct (decide (op ≤ 0xcf)); [eauto with lia|].
  destruct (decide (0xde ≤ op)); [eauto with lia|].
  assert (op = 0xd0 ∨ op = 0xd1 ∨ op = 0xd2 ∨ op = 0xd3 ∨ op = 0xd4 ∨ op = 0xd5 ∨ op = 0xd6 ∨
    op = 0xd7 ∨ op = 0xd8 ∨ op = 0xd9 ∨ op = 0xda ∨ op = 0xdb ∨ op = 0xdc ∨ op = 0xdd) as Hc by lia.
  destruct_or! Hc; by subst.
Qed.

(** Decides the opcode tests of a goal from the bounds in the context. *)
Ltac op_tests :=
  repeat match goal with
  | |- context [(?a <=? ?b)%Z] =>
    first [rewrite (proj2 (Z.leb_le a b)) by lia | rewrite (proj2 (Z.leb_gt a b)) by lia]
  | |- context [(?a =? ?b)%Z] =>
    first [rewrite (proj2 (Z.eqb_eq a b)) by lia | rewrite (proj2 (Z.eqb_neq a b)) by lia]
  end; cbn [andb orb negb].

(** Case analysis on the opcode [u8 b]. *)
Ltac by_opcode b :=
  let H := fresh in
  pose proof (u8_bound b) as H; revert H; generalize (u8 b);
  lazymatch goal with |- ∀ z, _ → @?P z => apply (opcode_cases P) end; cbv beta;
  lazymatch goal with |- ∀ op : Z, _ => intros ? ? | _ => idtac end; op_tests.

Lemma get_range_cons {A} (a : A) l n :
  get_range (a :: l) 1 (S n) = if (length l <? n)%nat then None else Some (take n l).
Proof.
  unfold get_range. cbn [length Nat.leb]. cbn [andb]. change (drop 1 (a :: l)) with l.
  replace (S n - 1)%nat with n by lia. destruct (length l <? n)%nat eqn:E; bool_hyps.
  - by rewrite (proj2 (Nat.leb_gt _ _)) by lia.
  - by rewrite (proj2 (Nat.leb_le _ _)) by lia.
Qed.

Lemma from_be_1 n : from_be [n] = u8 n.
Proof. unfold from_be. cbn [foldl]. lia. Qed.

Lemma audio_need_le a : (1 ≤ audio_need a ≤ 258)%nat.
Proof.
  destruct a as [|b rest]; simpl; [lia|]. by_opcode b; try lia.
  destruct rest as [|n rest]; [lia|]. pose proof (u8_bound n). lia.
Qed.

Lemma with_audio_wait d b rest k f :
  audio d = b :: rest → (length rest < k)%nat → with_audio 1 (S k) f d = (Ok (Return None), d).
Proof.
  intros Ha Hk. unfold with_audio, gets, bind. rewrite Ha, get_range_cons.
  by rewrite (proj2 (Nat.ltb_lt _ _)) by lia.
Qed.

Lemma when_audio_wait d k f : (length (audio d) < k)%nat → when_audio k f d = (Ok (Return None), d).
Proof. intros Hk. unfold when_audio, gets, bind. by rewrite (proj2 (Nat.ltb_lt _ _)) by lia. Qed.

Lemma step_wait d : complete (audio d) = false → parse_audio_step d = (Ok (Return None), d).
Proof.
  unfold complete, parse_audio_step, parse_audio_opcode.
  destruct (audio d) as [|b rest] eqn:Ea; [done|]. cbn [audio_need length].
  assert (length (audio d) = S (length rest)) as Hl by (by rewrite Ea).
  by_opcode b; intros Hc; bool_hyps; try lia;
    try (apply when_audio_wait; lia); try (eapply with_audio_wait; [exact Ea|lia]).
  destruct rest as [|n rest]; [by apply (with_audio_wait d b []); [|simpl; lia]|].
  unfold with_audio, gets, bind. rewrite Ea, get_range_cons.
  change (length (n :: rest) <? 1)%nat with false. cbn [firstn]. rewrite from_be_1.
  apply when_audio_wait. simpl in *. lia.
Qed.

Lemma names_bytes_app p q : names_bytes (p ++ q) = (names_bytes p + names_bytes q)%nat.
Proof. unfold names_bytes. by rewrite map_app, list_sum_app. Qed.

Lemma names_bytes_1 e : names_bytes [e] = element_bytes e.
Proof. unfold names_bytes. simpl. lia. Qed.

(** The activation [m] consumes [n] bytes and does what the specification [r] says. *)
Definition Steps (d : NativeRequestDecoder) (n : nat) (m : DM activation)
    (r : Result (option NativeRequest * Nav)) : Prop :=
  match r with
  | Ok (req, s) =>
    m d = (Ok (match req with Some req => Return (Some req) | None => Again end),
           with_nav s (drop n (audio d)) d)
  | Err e => e = InvalidData ∧ (m d).1 = Err InvalidData
  end.

Section steps.
Context (d : NativeRequestDecoder) (Hp : path_inv d).

Lemma with_nav_same a : with_nav (nav_of d) a d = set_audio a d.
Proof. unfold with_nav, set_audio. simpl. by rewrite <- Hp. Qed.

Lemma steps_assign n v : Steps d n (returns (set_value n v)) (assign (nav_of d) v).
Proof.
  unfold Steps, assign, returns, set_value, selected_or_err, bind. simpl.
  destruct (selected_id d); simpl; [|done]. by rewrite with_nav_same.
Qed.

Lemma steps_string n len w :
  take len (drop n (audio d)) = w → length w = len →
  Steps d (n + len) (returns (parse_string_token len n)) (assign_string (limits d) (nav_of d) w).
Proof.
  intros <- Hl. pose proof (steps_assign (n + len) (NativeValues.String (take len (drop n (audio d))))) as H.
  unfold Steps, assign_string, returns, parse_string_token, lift, from_utf8, gets, bind in *.
  rewrite Hl. destruct (max_string_bytes (limits d) <? len)%nat eqn:E; bool_hyps.
  - by rewrite (proj2 (Nat.leb_gt len _)) by lia.
  - rewrite (proj2 (Nat.leb_le len _)) by lia. by destruct (utf8_valid _).
Qed.

Lemma check_room n :
  check_path_room n d = (if has_room (limits d) (path d) n then Ok tt else Err InvalidData, d).
Proof. unfold check_path_room, has_room. rewrite Hp. by destruct (_ && _). Qed.

Lemma steps_index i n :
  Steps d n (push_path_index i ;;! drain_audio_bytes n ;;! ret Again)%rust
    (enter (limits d) (nav_of d) (PathElements.Index i)).
Proof.
  unfold Steps, enter, push_path_index, bind. rewrite check_room. simpl.
  destruct (has_room _ _ _); simpl; [|done]. unfold with_nav, drain_audio_bytes, modify, set_audio, set_path.
  simpl. by rewrite names_bytes_app, Hp, Nat.add_0_r.
Qed.

Lemma steps_name len w :
  take len (drop 1 (audio d)) = w → length w = len →
  Steps d (S len)
    (check_path_room len ;;!
     let! a := gets audio in
     let! value := lift (from_utf8 InvalidData (take len (drop 1 a))) in
     modify (λ d, set_path (path d ++ [PathElements.Name value]) (path_bytes d + len) d) ;;!
     drain_audio_bytes (len + 1) ;;! ret Again)%rust
    (if utf8_valid w then enter (limits d) (nav_of d) (PathElements.Name w) else Err InvalidData).
Proof.
  intros <- Hl. unfold Steps, enter, gets, lift, from_utf8, bind. rewrite check_room. cbn [nav_path nav_of].
  cbn [element_bytes]. rewrite Hl.
  destruct (has_room _ _ _), (utf8_valid _); try done.
  unfold with_nav, modify, drain_audio_bytes, set_audio, set_path, ret. simpl.
  rewrite names_bytes_app, Hp, Nat.add_1_r. unfold names_bytes at 3. simpl. by rewrite Hl, Nat.add_0_r.
Qed.

Lemma steps_with_audio b rest k n (f : list byte → DM activation) r :
  audio d = b :: rest → (k ≤ length rest)%nat →
  Steps d n (f (take k rest)) r → Steps d n (with_audio 1 (S k) f) r.
Proof.
  intros Ha Hk. unfold Steps, with_audio, gets, bind. rewrite Ha, get_range_cons.
  by rewrite (proj2 (Nat.ltb_ge _ _)) by lia.
Qed.

Lemma steps_when_audio k n f r :
  (k ≤ length (audio d))%nat → Steps d n f r → Steps d n (when_audio k f) r.
Proof.
  intros Hk. unfold Steps, when_audio, gets, bind. by rewrite (proj2 (Nat.ltb_ge _ _)) by lia.
Qed.

Lemma pop_path_eq : pop_path d = set_path (removelast (path d)) (names_bytes (removelast (path d))) d.
Proof.
  unfold pop_path. rewrite Hp. destruct (path d) as [|e p _] using rev_ind; [done|].
  rewrite list.last_snoc, removelast_last, names_bytes_app. destruct e; f_equal; unfold names_bytes; simpl; lia.
Qed.
End steps.

(** A complete first token is interpreted as the specification says, and removed. *)
Lemma step_complete d :
  complete (audio d) = true → path_inv d →
  Steps d (audio_need (audio d)) parse_audio_step (run_token (limits d) (token_of (audio d)) (nav_of d)).
Proof.
  unfold complete. destruct (audio d) as [|b rest] eqn:Ea; [done|]. intros Hc Hp.
  assert (Steps d (audio_need (b :: rest)) (parse_audio_opcode (u8 b))
            (run_token (limits d) (token_of (b :: rest)) (nav_of d))) as H;
    [|unfold Steps, parse_audio_step in *; rewrite Ea in H |- *; exact H].
  assert (length (audio d) = S (length rest)) as Hl by (by rewrite Ea).
  unfold parse_audio_opcode, token_of. cbn [audio_need length] in *. revert Hc.
  by_opcode b; intros Hc; bool_hyps; cbn [run_token].
  all: try (eapply steps_with_audio; [exact Ea|lia|]).
  all: try (apply steps_assign, Hp).
  - by apply steps_index.
  - apply steps_when_audio; [lia|]. apply steps_string; [done|by rewrite Ea|].
    rewrite length_take. lia.
  - apply steps_when_audio; [lia|]. apply steps_name; [done|by rewrite Ea|].
    rewrite length_take. lia.
  - destruct rest as [|n rest]; [simpl in *; lia|].
    eapply steps_with_audio; [exact Ea|simpl in *; lia|]. cbn [firstn]. rewrite from_be_1.
    apply steps_when_audio; [simpl in *; lia|]. 
    replace (3 + Z.to_nat (u8 n))%nat with (2 + (Z.to_nat (u8 n) + 1))%nat by lia.
    rewrite Nat.add_comm, Nat.add_sub, Nat.add_comm.
    apply steps_string; [done|by rewrite Ea|].
    change (drop 1 (n :: rest)) with rest. rewrite length_take. cbn [length] in Hc. lia.
  - by apply steps_index.
  - unfold Steps. simpl. unfold bind, modify, with_nav. simpl. by rewrite <- Hp.
  - unfold Steps, returns, bind, selected_or_err. simpl. destruct (selected_id d); simpl; [|done].
    unfold ret, modify. by rewrite <- with_nav_same.
  - unfold Steps, returns, bind, selected_or_err. simpl. destruct (selected_id d); simpl; [|done].
    unfold ret, modify. by rewrite <- with_nav_same.
  - done.
  - unfold Steps, bind, modify. rewrite pop_path_eq by done. done.
  - unfold Steps, returns, bind. simpl. rewrite with_nav_same by done. by destruct (selected_id d).
  - unfold Steps, returns, bind. simpl. rewrite with_nav_same by done. by destruct (selected_id d).
  - unfold Steps, returns, bind. simpl. by rewrite with_nav_same by done.
Qed.

(** ** Lemmas: the recursion of [parse_audio] *)

Definition audio_frame (d d' : NativeRequestDecoder) : Prop :=
  channels d' = channels d ∧ limits d' = limits d ∧ meter d' = meter d ∧ meter_port d' = meter_port d.

Lemma path_inv_with_nav s a d : path_inv (with_nav s a d).
Proof. done. Qed.

Lemma path_inv_nav d : path_inv d → with_nav (nav_of d) (audio d) d = d.
Proof. intros Hp. rewrite with_nav_same by done. by destruct d. Qed.

(** Enough fuel is the same as more fuel. *)
Lemma parse_audio_fuel_irrel n m d :
  path_inv d → (length (audio d) < n)%nat → (length (audio d) < m)%nat →
  parse_audio_fuel n d = parse_audio_fuel m d.
Proof.
  revert m d. induction n as [|n IH]; intros [|m] d Hp Hn Hm; try lia. simpl. unfold bind.
  destruct (complete (audio d)) eqn:Hc; [|by rewrite step_wait].
  pose proof (step_complete d Hc Hp) as Hs. unfold Steps in Hs.
  destruct (run_token _ _ _) as [[[r|] s]|e].
  - by rewrite Hs.
  - rewrite Hs. pose proof (audio_need_le (audio d)). unfold complete in Hc. bool_hyps.
    apply IH; [done|simpl; rewrite length_drop; lia..].
  - destruct Hs as [_ Hs]. destruct (parse_audio_step d) as [[]]; by simplify_eq/=.
Qed.

(** The source's recursion: with the fuel of [parse_audio], every tail call has enough. *)
Lemma parse_audio_eq d :
  path_inv d →
  parse_audio d = (let! a := parse_audio_step in
                   match a with Return r => ret r | Again => parse_audio end)%rust d.
Proof.
  intros Hp. unfold parse_audio at 1. cbn [parse_audio_fuel]. unfold bind.
  destruct (complete (audio d)) eqn:Hc; [|by rewrite step_wait].
  pose proof (step_complete d Hc Hp) as Hs. unfold Steps in Hs.
  destruct (run_token _ _ _) as [[[r|] s]|e].
  - by rewrite Hs.
  - rewrite Hs. pose proof (audio_need_le (audio d)). unfold complete in Hc. bool_hyps.
    apply parse_audio_fuel_irrel; [done|simpl; rewrite length_drop; lia..].
  - destruct Hs as [_ Hs]. destruct (parse_audio_step d) as [[]]; by simplify_eq/=.
Qed.

Lemma parse_audio_wait d : complete (audio d) = false → parse_audio d = (Ok None, d).
Proof. intros Hc. unfold parse_audio. cbn [parse_audio_fuel]. unfold bind. by rewrite step_wait. Qed.

Lemma parse_audio_token d :
  path_inv d → complete (audio d) = true →
  match run_token (limits d) (token_of (audio d)) (nav_of d) with
  | Ok (r, s) =>
    let d' := with_nav s (drop (audio_need (audio d)) (audio d)) d in
    parse_audio d = match r with Some r => (Ok (Some r), d') | None => parse_audio d' end
  | Err e => e = InvalidData ∧ (parse_audio d).1 = Err InvalidData
  end.
Proof.
  intros Hp Hc. pose proof (step_complete d Hc Hp) as Hs. unfold Steps in Hs.
  rewrite parse_audio_eq by done. unfold bind.
  destruct (run_token _ _ _) as [[[r|] s]|e]; [by rewrite Hs..|].
  destruct Hs as [? Hs]. by destruct (parse_audio_step d) as [[]]; simplify_eq/=.
Qed.

(** ** Lemmas: one byte of a channel *)

(** A buffer that was waiting and gets one more byte holds at most that token. *)
Lemma complete_snoc a b :
  complete a = false → complete (a ++ [b]) = true → audio_need (a ++ [b]) = length (a ++ [b]).
Proof.
  unfold complete. intros Hi Hc. bool_hyps. rewrite length_app in *. cbn [length] in *.
  destruct a as [|x [|y a]]; [pose proof (audio_need_le ([] ++ [b])); cbn [length] in *; lia|..];
    simpl in *.
  - pose proof (u8_bound b). revert Hi Hc. by_opcode x; lia.
  - revert Hi Hc. by_opcode x; lia.
Qed.

Lemma drain_stop {P} n d reqs : P d = (Ok None, d) → drain_fuel (S n) P reqs d = (Ok reqs, d).
Proof. intros H. simpl. unfold bind. by rewrite H. Qed.

Lemma drain_some {P} n d d' r reqs :
  P d = (Ok (Some r), d') → drain_fuel (S n) P reqs d = drain_fuel n P (reqs ++ [r]) d'.
Proof. intros H. simpl. unfold bind. by rewrite H. Qed.

Lemma drain_err {P} n d e reqs : (P d).1 = Err e → (drain_fuel (S n) P reqs d).1 = Err e.
Proof. intros H. simpl. unfold bind. destruct (P d) as [[]]; by simplify_eq/=. Qed.

(** Draining after one byte of channel 1. *)
Definition audio_result (d : NativeRequestDecoder) (b : byte) : Result (list NativeRequest * NativeRequestDecoder) :=
  let a := audio d ++ [b] in
  if (max_buffered_bytes (limits d) <? length a + length (meter d))%nat then Err InvalidData
  else if complete a then
    let? rs := run_token (limits d) (token_of a) (nav_of d) in
    Ok (option_list rs.1, with_nav rs.2 [] d)
  else Ok ([], set_audio a d).

(** [m] ends in the state and with the requests of [r], after the earlier [reqs]. *)
Definition Yields (d : NativeRequestDecoder) (reqs : list NativeRequest)
    (m : DM (list NativeRequest)) (r : Result (list NativeRequest * NativeRequestDecoder)) : Prop :=
  match r with
  | Ok (new, d') => m d = (Ok (reqs ++ new), d')
  | Err e => e = InvalidData ∧ (m d).1 = Err InvalidData
  end.

Lemma handle_audio d b reqs :
  path_inv d → complete (audio d) = false →
  Yields d reqs (handle_event (Data 1 b) reqs) (audio_result d b).
Proof.
  intros Hp Hi. unfold Yields, audio_result, handle_event. cbn [Z.eqb Pos.eqb].
  change (1 =? 1) with true. cbv iota. unfold bind, modify, check_buffer_limit, gets.
  set (d1 := set_audio (audio d ++ [b]) d). change (audio d ++ [b]) with (audio d1).
  change (limits d) with (limits d1). change (meter d) with (meter d1). change (nav_of d) with (nav_of d1).
  assert (path_inv d1) as Hp1 by done.
  destruct (max_buffered_bytes (limits d1) <? _)%nat; [done|].
  destruct (complete (audio d1)) eqn:Hc.
  - pose proof (parse_audio_token d1 Hp1 Hc) as Ht.
    pose proof (complete_snoc _ _ Hi Hc) as Hn. change (audio d ++ [b]) with (audio d1) in Hn.
    rewrite Hn, drop_ge in Ht by done.
    destruct (run_token _ _ _) as [[r s]|e] eqn:Er; cbn [fst snd].
    + cbv zeta in Ht. change (with_nav s [] d) with (with_nav s [] d1).
      assert (parse_audio (with_nav s [] d1) = (Ok None, with_nav s [] d1)) as Hw
        by by apply parse_audio_wait.
      destruct r as [r|]; cbn [option_list].
      * erewrite drain_some by exact Ht. pose proof (audio_need_le (audio d1)).
        destruct (length (audio d1)) eqn:El; [lia|].
        by apply drain_stop.
      * rewrite app_nil_r. simpl. unfold bind. rewrite Ht, Hw. done.
    + destruct Ht as [? Ht]. split; [done|]. by apply drain_err.
  - rewrite app_nil_r. apply drain_stop. by apply parse_audio_wait.
Qed.

(** ** The specification: meter requests *)

(** The first byte of a meter request. *)
Definition meter_fresh (b : byte) : list NativeRequest * list byte :=
  if (u8 b =? 0xd3) || (u8 b =? 0xd4) then ([], [b]) else ([NativeRequests.Unknown 3 (u8 b)], []).

(** One more byte of channel 3: the requests, the unfinished request, the port.  A report
    id followed by anything but 0xdc renews; a collection ends with its first 0xde. *)
Definition meter_spec (entries : nat) (m : list byte) (port : option Z) (b : byte)
    : Result (list NativeRequest * list byte * option Z) :=
  match m with
  | [] => Ok (meter_fresh b, port)
  | op :: body =>
    if u8 op =? 0xd3 then
      if (length body <? 1)%nat then Ok ([], m ++ [b], port)
      else let p := from_be (body ++ [b]) in Ok ([NativeRequests.MeterPort p], [], Some p)
    else if (length body <? 4)%nat then Ok ([], m ++ [b], port)
    else if (length body =? 4)%nat then
      if u8 b =? 0xdc then Ok ([], m ++ [b], port)
      else
        let '(rs, m') := meter_fresh b in
        Ok (NativeRequests.MeterRenew (from_be body) :: rs, m', port)
    else if u8 b =? 0xde then
      let? meters := decode_meter_entries (drop 5 body) entries in
      let? p := ok_or port InvalidData in
      Ok ([NativeRequests.MeterSubscribe p (from_be (take 4 body)) meters], [], port)
    else Ok ([], m ++ [b], port)
  end.

(** An unfinished meter request. *)
Definition meter_pending (m : list byte) : Prop :=
  match m with
  | [] => True
  | op :: body =>
    u8 op = 0xd3 ∧ (length body ≤ 1)%nat ∨
    u8 op = 0xd4 ∧ ((length body ≤ 4)%nat ∨ u8 <$> body !! 4%nat = Some 0xdc)
  end.

Definition meter_result (d : NativeRequestDecoder) (b : byte)
    : Result (list NativeRequest * NativeRequestDecoder) :=
  if (max_buffered_bytes (limits d) <? length (audio d) + length (meter d ++ [b]))%nat
  then Err InvalidData
  else
    let? r := meter_spec (max_meter_entries (limits d)) (meter d) (meter_port d) b in
    Ok (r.1.1, set_meter_port r.2 (set_meter r.1.2 d)).

(** ** Lemmas: the meter parser *)

Lemma parse_meter_nil d : meter d = [] → parse_meter d = (Ok None, d).
Proof. intros H. unfold parse_meter. by rewrite H. Qed.

(** Draining a buffer of one byte. *)
Lemma drain_fresh n d b reqs :
  meter d = [b] →
  drain_fuel (S (S n)) parse_meter reqs d
  = (Ok (reqs ++ (meter_fresh b).1), set_meter (meter_fresh b).2 d).
Proof.
  intros Hm. unfold meter_fresh.
  assert (set_meter [b] d = d) as Hd by (rewrite <- Hm; by destruct d).
  destruct (u8 b =? 0xd3) eqn:E3; [|destruct (u8 b =? 0xd4) eqn:E4]; cbn [orb fst snd].
  - rewrite app_nil_r, Hd. apply drain_stop. unfold parse_meter. rewrite Hm, E3. done.
  - rewrite app_nil_r, Hd. apply drain_stop. unfold parse_meter. rewrite Hm, E3, E4. done.
  - erewrite (drain_some _ d (set_meter [] d)).
    + by apply drain_stop.
    + unfold parse_meter. rewrite Hm, E3, E4. unfold bind, drain_meter_bytes, modify. by rewrite Hm.
Qed.

Lemma decode_range (A : Type) (b : A) body n :
  length body = n → get_range (b :: body) 1 (S n) = Some body.
Proof.
  intros Hn. rewrite get_range_cons. rewrite (proj2 (Nat.ltb_ge _ _)) by lia.
  by rewrite firstn_all2 by lia.
Qed.

Lemma decode_meter_entries_error limit raw e : decode_meter_entries raw limit = Err e → e = InvalidData.
Proof.
  unfold decode_meter_entries. generalize (@nil Meter, @None Z).
  induction raw as [|b raw IH]; intros st; simpl; [done|].
  destruct (decode_meter_byte limit st b) as [st'|e'] eqn:E; [apply IH|].
  intros [= <-]. revert E. unfold decode_meter_byte, ok_or. destruct st.
  repeat case_match; intros; by simplify_eq.
Qed.

(** The activations of [parse_meter] on a report id. *)
Section report.
Context (d : NativeRequestDecoder) (op : byte) (Ho : u8 op = 0xd4).

Lemma report_short body :
  meter d = op :: body → (length body ≤ 4)%nat → parse_meter d = (Ok None, d).
Proof.
  intros Hm Hl. unfold parse_meter. rewrite Hm, Ho. change (0xd4 =? 0xd3) with false.
  change (0xd4 =? 0xd4) with true. cbv iota. rewrite get_range_cons.
  destruct (length body <? 4)%nat; [done|]. change ((op :: body) !! 5%nat) with (body !! 4%nat).
  by rewrite (lookup_ge_None_2 body 4) by lia.
Qed.

Lemma report_next body b :
  meter d = op :: body ++ [b] → length body = 4%nat →
  parse_meter d =
    if u8 b =? 0xdc then (Ok None, d)
    else (Ok (Some (NativeRequests.MeterRenew (from_be body))), set_meter [b] d).
Proof.
  intros Hm Hl. unfold parse_meter. rewrite Hm, Ho. change (0xd4 =? 0xd3) with false.
  change (0xd4 =? 0xd4) with true. cbv iota. rewrite get_range_cons, length_app.
  rewrite (proj2 (Nat.ltb_ge _ _)) by lia.
  change ((op :: body ++ [b]) !! 5%nat) with ((body ++ [b]) !! 4%nat).
  rewrite list_lookup_middle by done.
  replace (take 4 (body ++ [b])) with body by (by rewrite <- Hl, take_app_length).
  destruct (u8 b =? 0xdc); cbn [negb].
  - cbn [length]. rewrite length_app, Hl. done.
  - unfold bind, drain_meter_bytes, modify, ret. rewrite Hm. do 2 f_equal.
    change (drop 5 (op :: body ++ [b])) with (drop 4 (body ++ [b])). by rewrite <- Hl, drop_app_length.
Qed.

Lemma report_entry body b :
  meter d = op :: body ++ [b] → (5 ≤ length body)%nat → u8 <$> body !! 4%nat = Some 0xdc →
  parse_meter d =
    if u8 b =? 0xde then
      (let! meters := lift (decode_meter_entries (drop 5 body) (max_meter_entries (limits d))) in
       let! port := lift (ok_or (meter_port d) InvalidData) in
       modify (set_meter []) ;;!
       ret (Some (NativeRequests.MeterSubscribe port (from_be (take 4 body)) meters)))%rust d
    else (Ok None, d).
Proof.
  intros Hm Hl H4. unfold parse_meter. rewrite Hm, Ho. change (0xd4 =? 0xd3) with false.
  change (0xd4 =? 0xd4) with true. cbv iota. rewrite get_range_cons, length_app.
  rewrite (proj2 (Nat.ltb_ge _ _)) by lia.
  change ((op :: body ++ [b]) !! 5%nat) with ((body ++ [b]) !! 4%nat).
  rewrite lookup_app_l by lia. destruct (body !! 4%nat) as [next|] eqn:E4; [|done].
  change (Some (u8 next) = Some 0xdc) in H4. apply (inj Some) in H4.
  rewrite H4. change (0xdc =? 0xdc) with true. cbn [negb length]. rewrite length_app. cbn [length].
  replace (S (length body + 1) - 1)%nat with (S (length body)) by lia.
  rewrite (proj2 (Nat.ltb_ge _ _)) by lia. cbn [orb].
  change ((op :: body ++ [b]) !! S (length body)) with ((body ++ [b]) !! length body).
  rewrite list_lookup_middle by done. change (u8 <$> Some b) with (Some (u8 b)).
  destruct (u8 b =? 0xde) eqn:E; bool_hyps; [rewrite bool_decide_true by (by rewrite E)
    |rewrite bool_decide_false by congruence]; cbn [negb]; [|done].
  rewrite take_app_le by lia.
  assert (take (S (length body) - 6) (drop 6 (op :: body ++ [b])) = drop 5 body) as ->.
  { change (take (length body - 5) (drop 5 (body ++ [b])) = drop 5 body). rewrite drop_app_le by lia. rewrite <- length_drop. apply take_app_length. }
  unfold bind, lift, drain_meter_bytes, modify. do 2 (case_match; [|done]). simplify_eq.
  do 2 f_equal. rewrite drop_ge; [done|]. rewrite Hm. simpl. rewrite length_app. simpl. lia.
Qed.
End report.

(** Feeding one byte to a waiting meter buffer. *)
Lemma drain_meter d b reqs :
  meter_pending (meter d) →
  let d1 := set_meter (meter d ++ [b]) d in
  Yields d1 reqs (drain_fuel (S (length (meter d1))) parse_meter reqs)
    (let? r := meter_spec (max_meter_entries (limits d)) (meter d) (meter_port d) b in
     Ok (r.1.1, set_meter_port r.2 (set_meter r.1.2 d))).
Proof.
  intros Hp d1. unfold Yields.
  assert (∀ m, set_meter_port (meter_port d) (set_meter m d) = set_meter m d1) as Hset by done.
  assert (meter d1 = meter d ++ [b]) as Hm1 by done. rewrite Hm1, length_app.
  destruct (meter d) as [|op body] eqn:Hm; cbn [meter_spec app] in *.
  { cbn [length Nat.add]. rewrite (drain_fresh _ d1 b) by done. unfold meter_fresh. by destruct (_ || _). }
  destruct Hp as [[Ho Hl]|[Ho Hl]]; rewrite Ho.
  - change (0xd3 =? 0xd3) with true. cbv iota.
    destruct (length body <? 1)%nat eqn:E; bool_hyps; cbn [fst snd length Nat.add].
    + rewrite app_nil_r. apply (drain_stop _ d1). unfold parse_meter. rewrite Hm1, Ho.
      change (0xd3 =? 0xd3) with true. cbv iota. rewrite get_range_cons, length_app.
      by rewrite (proj2 (Nat.ltb_lt _ _)) by (simpl; lia).
    + assert (parse_meter d1 = (Ok (Some (NativeRequests.MeterPort (from_be (body ++ [b])))),
               set_meter_port (Some (from_be (body ++ [b]))) (set_meter [] d))) as Hpm.
      { unfold parse_meter. rewrite Hm1, Ho. change (0xd3 =? 0xd3) with true. cbv iota.
        rewrite (decode_range _ op (body ++ [b]) 2) by (rewrite length_app; simpl; lia).
        unfold bind, modify, drain_meter_bytes, ret. f_equal. unfold set_meter, set_meter_port. f_equal.
        apply drop_ge. simpl. rewrite length_app. simpl. lia. }
      rewrite (drain_some _ _ _ _ _ Hpm). rewrite Nat.add_1_r. apply drain_stop. by apply parse_meter_nil.
  - change (0xd4 =? 0xd3) with false. cbv iota.
    destruct (length body <? 4)%nat eqn:E; [|destruct (length body =? 4)%nat eqn:E5]; bool_hyps;
      cbn [fst snd].
    + rewrite app_nil_r. apply (drain_stop _ d1). eapply (report_short d1 op Ho); [done|].
      rewrite length_app. simpl. lia.
    + pose proof (report_next d1 op Ho body b Hm1 E5) as Hr.
      destruct (u8 b =? 0xdc) eqn:Eb; cbn [fst snd].
      * rewrite app_nil_r. by apply (drain_stop _ d1).
      * destruct (meter_fresh b) as [rs m'] eqn:Ef. cbn [fst snd]. rewrite (drain_some _ _ _ _ _ Hr).
        cbn [length Nat.add]. rewrite Nat.add_1_r. rewrite (drain_fresh _ _ b) by done.
        rewrite Ef, <- (assoc_L (++)). done.
    + destruct Hl as [Hl|Hl]; [lia|].
      pose proof (report_entry d1 op Ho body b Hm1 ltac:(lia) Hl) as Hr.
      change (limits d1) with (limits d) in Hr. change (meter_port d1) with (meter_port d) in Hr.
      destruct (u8 b =? 0xde) eqn:Eb; cbn [fst snd]; [|rewrite app_nil_r; by apply (drain_stop _ d1)].
      unfold bind, lift, modify in Hr.
      destruct (decode_meter_entries (drop 5 body) _) as [ms|e] eqn:Ed.
      * destruct (ok_or (meter_port d) InvalidData) as [p|e] eqn:Ep; cbn [fst snd].
        -- rewrite (drain_some _ _ _ _ _ Hr). cbn [length Nat.add]. rewrite Nat.add_1_r.
           by apply drain_stop, parse_meter_nil.
        -- unfold ok_or in Ep. destruct (meter_port d); simplify_eq. split; [done|].
           apply drain_err. by rewrite Hr.
      * apply decode_meter_entries_error in Ed as ->. split; [done|]. apply drain_err. by rewrite Hr.
Qed.

Lemma handle_meter d b reqs :
  meter_pending (meter d) → Yields d reqs (handle_event (Data 3 b) reqs) (meter_result d b).
Proof.
  intros Hp. pose proof (drain_meter d b reqs Hp) as H. cbv zeta in H.
  unfold meter_result. unfold Yields in *. unfold handle_event.
  change (3 =? 1) with false. change (3 =? 3) with true. cbv iota.
  unfold bind, modify, check_buffer_limit, gets. 
  set (d1 := set_meter (meter d ++ [b]) d) in *. change (meter d ++ [b]) with (meter d1).
  change (limits d) with (limits d1) in *. change (audio d) with (audio d1).
  by destruct (max_buffered_bytes _ <? _)%nat.
Qed.

(** ** The specification: a stream of channel events *)

Definition renew_spec (m : list byte) : Result (list NativeRequest * list byte) :=
  match m with
  | [] => Ok ([], [])
  | op :: body =>
    if (u8 op =? 0xd4) && (length body =? 4)%nat
    then Ok ([NativeRequests.MeterRenew (from_be body)], []) else Err InvalidData
  end.

Definition event_spec (d : NativeRequestDecoder) (event : ChannelEvent)
    : Result (list NativeRequest * NativeRequestDecoder) :=
  match event with
  | Selected c =>
    let? r := renew_spec (meter d) in
    Ok (r.1 ++ [NativeRequests.KeepAlive c], set_meter r.2 d)
  | Data c b =>
    if c =? 1 then audio_result d b
    else if c =? 3 then meter_result d b
    else Ok ([NativeRequests.Unknown c (u8 b)], d)
  end.

Fixpoint events_spec (d : NativeRequestDecoder) (events : list ChannelEvent)
    : Result (list NativeRequest * NativeRequestDecoder) :=
  match events with
  | [] => Ok ([], d)
  | e :: rest =>
    let? r := event_spec d e in
    let? r' := events_spec r.2 rest in
    Ok (r.1 ++ r'.1, r'.2)
  end.

(** ** The invariant of a decoder and of what it emits *)

Definition element_ok (e : PathElement) : Prop :=
  match e with PathElements.Name s => utf8_valid s = true | PathElements.Index i => 1 ≤ i ≤ 2 ^ 16 end.

Definition path_ok (l : NativeLimits) (p : list PathElement) : Prop :=
  (length p ≤ max_path_elements l)%nat ∧ (names_bytes p ≤ max_path_bytes l)%nat ∧ Forall element_ok p.

Definition nav_ok (l : NativeLimits) (s : Nav) : Prop :=
  path_ok l (nav_path s) ∧ from_option in_i32 True (nav_id s).

Definition value_ok (l : NativeLimits) (v : NativeValue) : Prop :=
  match v with
  | NativeValues.Integer z => in_i32 z
  | NativeValues.Float f | NativeValues.RawFloat f => f32_ok f
  | NativeValues.String s => utf8_valid s = true ∧ (length s ≤ max_string_bytes l)%nat
  end.

Definition request_ok (l : NativeLimits) (r : NativeRequest) : Prop :=
  match r with
  | NativeRequests.KeepAlive c => channel_ok c
  | NativeRequests.Get id | NativeRequests.Definition_ id | NativeRequests.Toggle id => in_i32 id
  | NativeRequests.Set_ id v => in_i32 id ∧ value_ok l v
  | NativeRequests.Step id n => in_i32 id ∧ in_i8 n
  | NativeRequests.BulkData p | NativeRequests.BulkDefinition p => path_ok l p
  | NativeRequests.MeterPort p => in_u16 p
  | NativeRequests.MeterSubscribe p rid ms =>
    in_u16 p ∧ in_u32 rid ∧ (length ms ≤ max_meter_entries l)%nat
  | NativeRequests.MeterRenew rid => in_u32 rid
  | NativeRequests.Unknown c op => channel_ok c ∧ in_u8 op
  end.

(** What waits in the two buffers is one incomplete token and one incomplete meter
    request, within the buffer limit; the path is within its limits and its running byte
    count is exact. *)
Record decoder_inv (d : NativeRequestDecoder) : Prop := {
  inv_channels : channels_inv (channels d);
  inv_audio : complete (audio d) = false;
  inv_meter : meter_pending (meter d);
  inv_buffered : (length (audio d) + length (meter d) ≤ max_buffered_bytes (limits d))%nat;
  inv_path : path_inv d;
  inv_nav : nav_ok (limits d) (nav_of d);
  inv_port : from_option in_u16 True (meter_port d);
}.

(** ** Lemmas: the decoder refines the event specification *)

Lemma flush_spec d :
  flush_meter_renewal d =
    match renew_spec (meter d) with
    | Ok (rs, m) => (Ok rs, set_meter m d)
    | Err e => (Err e, d)
    end.
Proof.
  unfold flush_meter_renewal, renew_spec. destruct (meter d) as [|op body] eqn:Hm.
  - rewrite bool_decide_true by done. f_equal. rewrite <- Hm. by destruct d.
  - rewrite bool_decide_false by done. cbn [length].
    change ((op :: body) !! 0%nat) with (Some op). change (u8 <$> Some op) with (Some (u8 op)).
    change (S (length body) =? 5)%nat with (length body =? 4)%nat. rewrite andb_comm.
    destruct (u8 op =? 0xd4) eqn:E; bool_hyps;
      [rewrite bool_decide_true by (by rewrite E)|by rewrite bool_decide_false by congruence].
    destruct (length body =? 4)%nat eqn:El; bool_hyps; simpl; [|done].
    by rewrite drop_0, firstn_all2 by lia.
Qed.

Lemma handle_event_spec d e reqs :
  decoder_inv d → Yields d reqs (handle_event e reqs) (event_spec d e).
Proof.
  intros []. destruct e as [c|c b]; cbn [event_spec].
  - unfold Yields, handle_event, bind. rewrite flush_spec. unfold renew_spec.
    destruct (meter d) as [|op body]; [done|]. by destruct (_ && _).
  - destruct (c =? 1) eqn:E1; bool_hyps; [subst c; by apply handle_audio|].
    destruct (c =? 3) eqn:E3; bool_hyps; [subst c; by apply handle_meter|].
    unfold Yields, handle_event. by rewrite (proj2 (Z.eqb_neq c 1)), (proj2 (Z.eqb_neq c 3)).
Qed.

(** *** Preservation *)

Lemma path_ok_snoc l p e :
  path_ok l p → has_room l p (element_bytes e) = true → element_ok e → path_ok l (p ++ [e]).
Proof.
  unfold path_ok, has_room. intros (? & ? & ?) ? ?. bool_hyps.
  rewrite length_app, names_bytes_app, names_bytes_1, Forall_app. simpl.
  split_and!; [lia..|done|by constructor].
Qed.

Lemma path_ok_pop l p : path_ok l p → path_ok l (removelast p).
Proof.
  destruct p as [|x p _] using rev_ind; [done|]. rewrite removelast_last.
  unfold path_ok. rewrite length_app, names_bytes_app, Forall_app. intros (? & ? & ? & _).
  simpl in *. split_and!; [lia..|done].
Qed.

(** What [run_token] may answer. *)
Definition token_result_ok (l : NativeLimits) (r : Result (option NativeRequest * Nav)) : Prop :=
  match r with
  | Ok (r, s) => nav_ok l s ∧ from_option (request_ok l) True r
  | Err e => e = InvalidData
  end.

Lemma assign_ok l s v : nav_ok l s → value_ok l v → token_result_ok l (assign s v).
Proof.
  intros Hs Hv. unfold assign. destruct (nav_id s) as [id|] eqn:E; simpl; [|done].
  split; [done|]. destruct Hs as [_ Hid]. by rewrite E in Hid.
Qed.

Lemma assign_string_ok l s w : nav_ok l s → token_result_ok l (assign_string l s w).
Proof.
  intros Hs. unfold assign_string. destruct (_ && _) eqn:E; [|done]. bool_hyps. by apply assign_ok.
Qed.

Lemma enter_ok l s e : nav_ok l s → element_ok e → token_result_ok l (enter l s e).
Proof.
  intros [Hp Hid] He. unfold enter. destruct (has_room _ _ _) eqn:E; [|done].
  split; [|done]. split; [by apply path_ok_snoc|done].
Qed.

Lemma run_token_ok l t s : nav_ok l s → token_ok t → token_result_ok l (run_token l t s).
Proof.
  intros Hs Ht. destruct t; simpl in Ht |- *;
    try (apply assign_ok; [done|simpl; width || done]); try (by apply assign_string_ok);
    try (apply enter_ok; [done|simpl; width]).
  - split; [|done]. split; [apply Hs|done].
  - destruct (utf8_valid _) eqn:E; [|done]. by apply enter_ok.
  - apply assign_ok; [done|]. split; [done|simpl; lia].
  - destruct (nav_id s) as [id|] eqn:E; simpl; [|done]. split; [done|]. destruct Hs as [_ H]. by rewrite E in H.
  - destruct (nav_id s) as [id|] eqn:E; simpl; [|done]. split; [done|]. destruct Hs as [_ H]. by rewrite E in H.
  - split; [|done]. split; [|done]. split_and!; [simpl; lia|unfold names_bytes; simpl; lia|constructor].
  - split; [|done]. split; [|done]. apply path_ok_pop, Hs.
  - split; [done|]. destruct Hs as [? H]. by destruct (nav_id s).
  - split; [done|]. destruct Hs as [? H]. by destruct (nav_id s).
  - split; [done|]. split; [unfold channel_ok, CHANNEL_COUNT; lia|width].
Qed.

Lemma token_of_ok a : complete a = true → token_ok (token_of a).
Proof.
  unfold complete. destruct a as [|b rest]; [done|]. unfold token_of.
  pose proof (from_be_bound (take 2 rest)) as H2. pose proof (from_be_bound (take 4 rest)) as H4.
  rewrite length_take in H2, H4. cbn [audio_need length]. by_opcode b; intros Hc; bool_hyps; simpl;
    rewrite ?length_take; auto with bytes; try lia.
  - destruct rest as [|n rest]; [simpl in Hc; lia|]. pose proof (u8_bound n).
    change (drop 1 (n :: rest)) with rest. cbn [length] in Hc. lia.
  - rewrite Nat.min_l in H2 by lia. change (256 ^ Z.of_nat 2) with 0x10000 in H2. lia.
  - apply f32_from_be_ok. rewrite length_take. lia.
  - apply f32_from_be_ok. rewrite length_take. lia.
  - pose proof (wrap_signed_bound 8 (from_be (take 1 rest))). width.
Qed.

Lemma audio_result_inv d b :
  decoder_inv d →
  match audio_result d b with
  | Ok (rs, d') => decoder_inv d' ∧ limits d' = limits d ∧ Forall (request_ok (limits d)) rs
  | Err e => e = InvalidData
  end.
Proof.
  intros []. unfold audio_result. destruct (_ <? _)%nat eqn:El; bool_hyps; [done|].
  destruct (complete (audio d ++ [b])) eqn:Hc.
  - pose proof (run_token_ok (limits d) (token_of (audio d ++ [b])) (nav_of d) inv_nav0
      (token_of_ok _ Hc)) as H.
    destruct (run_token _ _ _) as [[r s]|e]; [|done]. simpl in H. destruct H as [Hs Hr]. cbn [fst snd].
    split_and!; [|done|by destruct r; repeat constructor].
    split; try done. simpl. rewrite length_app in El. lia.
  - split_and!; [|done|constructor]. by split.
Qed.

Lemma meter_fresh_ok l b : Forall (request_ok l) (meter_fresh b).1 ∧ meter_pending (meter_fresh b).2
  ∧ (length (meter_fresh b).2 ≤ 1)%nat.
Proof.
  unfold meter_fresh. destruct (_ || _) eqn:E; simpl.
  - split_and!; [constructor| |lia]. apply orb_true_iff in E as [?|?]; bool_hyps; [left|right]; lia.
  - pose proof (u8_bound b). split_and!; [|done|lia]. repeat constructor; unfold CHANNEL_COUNT; width.
Qed.

Lemma decode_meter_length limit raw ms : decode_meter_entries raw limit = Ok ms → (length ms ≤ limit)%nat.
Proof.
  unfold decode_meter_entries. assert (length (@nil Meter, @None Z).1 ≤ limit)%nat as H by (simpl; lia).
  revert H. generalize (@nil Meter, @None Z).
  induction raw as [|b raw IH]; intros st Hst; simpl; [by intros [= <-]|].
  destruct (decode_meter_byte limit st b) as [st'|e'] eqn:E; [|done]. apply IH.
  revert E. unfold decode_meter_byte. destruct st as [ms' f]. case_match; [|done].
  destruct (limit <? _)%nat eqn:El; [done|]. bool_hyps. by intros [= <-].
Qed.

Lemma meter_result_inv d b :
  decoder_inv d →
  match meter_result d b with
  | Ok (rs, d') => decoder_inv d' ∧ limits d' = limits d ∧ Forall (request_ok (limits d)) rs
  | Err e => e = InvalidData
  end.
Proof.
  intros []. unfold meter_result. destruct (_ <? _)%nat eqn:El; bool_hyps; [done|].
  rewrite length_app in El. cbn [length] in El.
  assert (∀ rs m p, Forall (request_ok (limits d)) rs → meter_pending m → (length m ≤ length (meter d) + 1)%nat →
    from_option in_u16 True p →
    let d' := set_meter_port p (set_meter m d) in
    decoder_inv d' ∧ limits d' = limits d ∧ Forall (request_ok (limits d)) rs) as Hok.
  { intros rs m p ? ? ? ? d'. split_and!; [|done..]. split; try done. simpl. lia. }
  unfold meter_spec. destruct (meter d) as [|op body] eqn:Hm.
  { destruct (meter_fresh_ok (limits d) b) as (? & ? & ?). apply Hok; simpl in *; auto. }
  assert (∀ x : list byte, length (x ++ [b]) = (length x + 1)%nat) as Hla
    by (intros; by rewrite length_app).
  destruct inv_meter0 as [[Ho Hl]|[Ho Hl]]; rewrite Ho.
  - change (0xd3 =? 0xd3) with true. cbv iota. destruct (length body <? 1)%nat eqn:E; bool_hyps; cbn [fst snd].
    + apply Hok; [done| |by rewrite Hla|done]. left. rewrite Hla. lia.
    + assert (in_u16 (from_be (body ++ [b]))) by (apply from_be_u16_bound; rewrite Hla; lia).
      apply Hok; [by apply Forall_singleton|done|simpl; lia|done].
  - change (0xd4 =? 0xd3) with false. cbv iota.
    destruct (length body <? 4)%nat eqn:E; [|destruct (length body =? 4)%nat eqn:E5]; bool_hyps; cbn [fst snd].
    + apply Hok; [done| |by rewrite Hla|done]. right. rewrite Hla. split; [done|left; lia].
    + destruct (u8 b =? 0xdc) eqn:Eb; bool_hyps; cbn [fst snd].
      * apply Hok; [done| |by rewrite Hla|done]. right. split; [done|right].
        rewrite list_lookup_middle by done. by rewrite <- Eb.
      * destruct (meter_fresh_ok (limits d) b) as (? & ? & ?). destruct (meter_fresh b) as [rs m'].
        apply Hok; simpl in *; [|done|lia|done]. constructor; [|done]. by apply from_be_u32_bound.
    + destruct Hl as [Hl|Hl]; [lia|].
      destruct (u8 b =? 0xde) eqn:Eb; bool_hyps; cbn [fst snd].
      * destruct (decode_meter_entries _ _) as [ms|e] eqn:Ed; [|by eapply decode_meter_entries_error].
        destruct (meter_port d) as [p|] eqn:Ep; simpl; [|done].
        apply Hok; [|done|simpl; lia|done]. apply Forall_singleton. split_and!; [apply inv_port0|..].
        -- apply from_be_u32_bound. rewrite length_take. lia.
        -- by eapply decode_meter_length.
      * apply Hok; [done| |by rewrite Hla|done]. right. split; [done|right].
        by rewrite lookup_app_l by lia.
Qed.

Lemma event_spec_inv d e :
  decoder_inv d → channel_ok (event_channel e) →
  match event_spec d e with
  | Ok (rs, d') => decoder_inv d' ∧ limits d' = limits d ∧ Forall (request_ok (limits d)) rs
  | Err e => e = InvalidData
  end.
Proof.
  intros Hd Hc. destruct e as [c|c b]; simpl in Hc; cbn [event_spec].
  - unfold renew_spec. destruct Hd. destruct (meter d) as [|op body] eqn:Hm; cbn [fst snd].
    + split_and!; [|done|by apply Forall_singleton]. by split.
    + destruct (_ && _) eqn:E; cbn [fst snd]; [|done]. bool_hyps.
      split_and!; [split; try done; simpl in *; lia|done|].
      constructor; [|by apply Forall_singleton]. by apply from_be_u32_bound.
  - destruct (c =? 1); [by apply audio_result_inv|]. destruct (c =? 3); [by apply meter_result_inv|].
    split_and!; [done..|]. apply Forall_singleton. split; [done|]. apply u8_bound.
Qed.

Lemma events_spec_inv d events :
  decoder_inv d → Forall (λ e, channel_ok (event_channel e)) events →
  match events_spec d events with
  | Ok (rs, d') => decoder_inv d' ∧ limits d' = limits d ∧ Forall (request_ok (limits d)) rs
  | Err e => e = InvalidData
  end.
Proof.
  intros Hd He. revert d Hd. induction He as [|e events He _ IH]; intros d Hd; cbn [events_spec]; [done|].
  pose proof (event_spec_inv d e Hd He) as H. destruct (event_spec d e) as [[rs d1]|]; [|done].
  destruct H as (Hd1 & Hl1 & Hr1). cbn [fst snd]. specialize (IH d1 Hd1).
  destruct (events_spec d1 events) as [[rs' d2]|]; [|done]. destruct IH as (Hd2 & Hl2 & Hr2).
  rewrite Hl1 in Hl2, Hr2. cbn [fst snd]. split_and!; [done..|]. by apply Forall_app.
Qed.

Lemma events_spec_app d a b :
  events_spec d (a ++ b) =
    (let? r := events_spec d a in
     let? r' := events_spec r.2 b in Ok (r.1 ++ r'.1, r'.2))%rust.
Proof.
  revert d. induction a as [|e a IH]; intros d; cbn [app events_spec fst snd].
  - by destruct (events_spec d b) as [[]|].
  - destruct (event_spec d e) as [[r d1]|]; [|done]. cbn [fst snd]. rewrite IH.
    destruct (events_spec d1 a) as [[r1 d2]|]; [|done]. cbn [fst snd].
    destruct (events_spec d2 b) as [[r2 d3]|]; [|done]. cbn [fst snd]. by rewrite (assoc_L (++)).
Qed.

Lemma handle_events_cons e events reqs d :
  handle_events (e :: events) reqs d =
    match handle_event e reqs d with
    | (Ok reqs, d) =>
      if (max_batch_requests (limits d) <? length reqs)%nat then (Err InvalidData, d)
      else handle_events events reqs d
    | (Err e, d) => (Err e, d)
    end.
Proof.
  cbn [handle_events]. unfold bind, gets. destruct (handle_event e reqs d) as [[]]; [|done].
  by destruct (_ <? _)%nat.
Qed.

(** The loop of [push_events] with its batch limit. *)
Lemma handle_events_spec d events reqs :
  decoder_inv d → Forall (λ e, channel_ok (event_channel e)) events →
  (length reqs ≤ max_batch_requests (limits d))%nat →
  match events_spec d events with
  | Ok (new, d') =>
    if decide (length (reqs ++ new) ≤ max_batch_requests (limits d))%nat
    then handle_events events reqs d = (Ok (reqs ++ new), d')
    else (handle_events events reqs d).1 = Err InvalidData
  | Err e => e = InvalidData ∧ (handle_events events reqs d).1 = Err InvalidData
  end.
Proof.
  intros Hd He. revert d reqs Hd. induction He as [|e events He Hes IH]; intros d reqs Hd Hr; cbn [events_spec].
  { rewrite app_nil_r, decide_True by done. done. }
  pose proof (event_spec_inv d e Hd He) as H. pose proof (handle_event_spec d e reqs Hd) as Hh.
  unfold Yields in Hh. rewrite handle_events_cons.
  destruct (event_spec d e) as [[new1 d1]|err]; cbn [fst snd].
  2: { destruct Hh as [? Hh]. subst. split; [done|]. destruct (handle_event e reqs d) as [[a|e'] s']; cbn [fst] in *; congruence. }
  destruct H as (Hd1 & Hl1 & _). rewrite Hh, Hl1.
  specialize (IH d1 (reqs ++ new1) Hd1). rewrite Hl1 in IH.
  destruct (max_batch_requests (limits d) <? length (reqs ++ new1))%nat eqn:E; bool_hyps.
  - destruct (events_spec d1 events) as [[new2 d2]|err] eqn:Es; cbn [fst snd].
    + rewrite decide_False; [done|]. rewrite (assoc_L (++)), length_app. lia.
    + split; [|done]. pose proof (events_spec_inv d1 events Hd1 Hes) as Hs. by rewrite Es in Hs.
  - specialize (IH E). destruct (events_spec d1 events) as [[new2 d2]|err]; cbn [fst snd]; [|done].
    by rewrite <- (assoc_L (++)) in IH.
Qed.

(** *** The limits never change *)

Definition KeepsLimits {A} (m : DM A) : Prop := ∀ d, limits (m d).2 = limits d.

Lemma keeps_bind {A B} (m : DM A) (k : A → DM B) :
  KeepsLimits m → (∀ a, KeepsLimits (k a)) → KeepsLimits (bind m k).
Proof.
  intros Hm Hk d. unfold bind. specialize (Hm d). destruct (m d) as [[a|e] d1]; simpl in *; [|done].
  by rewrite Hk.
Qed.
Lemma keeps_ret {A} (a : A) : KeepsLimits (ret a). Proof. done. Qed.
Lemma keeps_throw {A} e : KeepsLimits (A := A) (throw e). Proof. done. Qed.
Lemma keeps_gets {A} (f : NativeRequestDecoder → A) : KeepsLimits (gets f). Proof. done. Qed.
Lemma keeps_lift {A} (r : Result A) : KeepsLimits (lift r). Proof. done. Qed.
Lemma keeps_modify f : (∀ d, limits (f d) = limits d) → KeepsLimits (modify f).
Proof. intros H d. apply H. Qed.

Create HintDb keeps.
#[export] Hint Resolve keeps_bind keeps_ret keeps_throw keeps_gets keeps_lift : keeps.

(** Splits a computation into its steps. *)
Ltac keeps :=
  repeat match goal with
  | |- KeepsLimits (bind _ _) => apply keeps_bind; [|intros ?]
  | |- KeepsLimits (modify _) => apply keeps_modify; intros; reflexivity
  | |- KeepsLimits (if ?b then _ else _) => destruct b
  | |- KeepsLimits (match ?x with _ => _ end) => destruct x
  | _ => solve [eauto 2 with keeps]
  end.

Lemma keeps_drain n : KeepsLimits (drain_audio_bytes n).
Proof. unfold drain_audio_bytes. keeps. Qed.
Lemma keeps_drain_meter n : KeepsLimits (drain_meter_bytes n).
Proof. unfold drain_meter_bytes. keeps. Qed.
Lemma keeps_room n : KeepsLimits (check_path_room n).
Proof. intros d. unfold check_path_room. by destruct (_ && _). Qed.
Lemma keeps_buffer : KeepsLimits check_buffer_limit.
Proof. intros d. unfold check_buffer_limit. by destruct (_ <? _)%nat. Qed.
Lemma keeps_selected : KeepsLimits selected_or_err. Proof. done. Qed.
Lemma keeps_pop : KeepsLimits (modify pop_path).
Proof.
  apply keeps_modify. intros d. unfold pop_path. by destruct (list.last _) as [[]|].
Qed.
#[export] Hint Resolve keeps_drain keeps_drain_meter keeps_room keeps_buffer keeps_selected keeps_pop : keeps.

Lemma keeps_set_value n v : KeepsLimits (set_value n v).
Proof. unfold set_value. keeps. Qed.
#[export] Hint Resolve keeps_set_value : keeps.

Lemma keeps_string_token len n : KeepsLimits (parse_string_token len n).
Proof. unfold parse_string_token. keeps. Qed.
#[export] Hint Resolve keeps_string_token : keeps.

Lemma keeps_opcode op : KeepsLimits (parse_audio_opcode op).
Proof.
  unfold parse_audio_opcode, with_audio, when_audio, returns, wait, push_path_index.
  repeat match goal with |- KeepsLimits (if ?b then _ else _) => destruct b end; keeps.
Qed.

Lemma keeps_audio_fuel n : KeepsLimits (parse_audio_fuel n).
Proof.
  induction n as [|n IH]; simpl; [apply keeps_ret|]. apply keeps_bind.
  - intros d. unfold parse_audio_step. destruct (audio d); [done|apply keeps_opcode].
  - intros []; [apply keeps_ret|done].
Qed.

Lemma keeps_parse_audio : KeepsLimits parse_audio.
Proof. intros d. apply keeps_audio_fuel. Qed.

Lemma keeps_parse_meter : KeepsLimits parse_meter.
Proof.
  intros d. unfold parse_meter. destruct (meter d) as [|op body]; [done|].
  repeat (match goal with
  | |- limits (match ?x with _ => _ end).2 = _ => destruct x
  | |- limits (bind ?m ?k ?d).2 = _ => apply (keeps_bind m k); [|intros ?]
  | |- limits (_, _).2 = _ => reflexivity
  | |- KeepsLimits _ => keeps
  end).
Qed.

Lemma keeps_drain_fuel n P reqs : KeepsLimits P → KeepsLimits (drain_fuel n P reqs).
Proof.
  intros HP. revert reqs. induction n as [|n IH]; intros reqs; simpl; [apply keeps_ret|].
  apply keeps_bind; [done|]. intros []; [apply IH|apply keeps_ret].
Qed.
#[export] Hint Resolve keeps_parse_audio keeps_parse_meter keeps_drain_fuel : keeps.

Lemma keeps_handle_events events reqs : KeepsLimits (handle_events events reqs).
Proof.
  revert reqs. induction events as [|e events IH]; intros reqs; simpl; [apply keeps_ret|].
  apply keeps_bind.
  - destruct e; unfold handle_event; keeps.
    intros d. rewrite flush_spec. by destruct (renew_spec _) as [[]|].
  - intros reqs'. keeps.
Qed.

(** ** Lemmas: pushing a fragment *)

(** [decoder_push] in terms of the event specification. *)
Lemma decoder_push_spec d input :
  decoder_inv d →
  decoder_push input d =
    match Channel.push (channels d) input with
    | (Err _, _) => (Err InvalidData, decoder_new (limits d))
    | (Ok events, c) =>
      match events_spec (set_channels c d) events with
      | Ok (reqs, d') =>
        if decide (length reqs ≤ max_batch_requests (limits d))%nat
        then (Ok reqs, d') else (Err InvalidData, decoder_new (limits d))
      | Err _ => (Err InvalidData, decoder_new (limits d))
      end
    end.
Proof.
  intros Hd. unfold decoder_push, push_events, decoder_reset.
  destruct (Channel.push (channels d) input) as [[events|e] c] eqn:Ec.
  2: { simpl. by apply push_error in Ec as [-> _]. }
  apply push_inv in Ec as [Hc He]; [|apply Hd].
  assert (decoder_inv (set_channels c d)) as Hd1 by by destruct Hd; split.
  pose proof (handle_events_spec (set_channels c d) events [] Hd1 He) as H.
  pose proof (keeps_handle_events events [] (set_channels c d)) as Hk.
  change (limits (set_channels c d)) with (limits d) in *. specialize (H ltac:(simpl; lia)).
  cbn [app] in H. destruct (events_spec (set_channels c d) events) as [[reqs d']|e].
  - destruct (decide _); [by rewrite H|].
    destruct (handle_events events [] (set_channels c d)) as [[|e'] d1]; simplify_eq/=. by rewrite Hk.
  - destruct H as [-> H].
    destruct (handle_events events [] (set_channels c d)) as [[|e'] d1]; simplify_eq/=. by rewrite Hk.
Qed.

Lemma decoder_new_inv l : decoder_inv (decoder_new l).
Proof.
  split; try done; [unfold decoder_new; simpl; lia|]. split; [|done]. split_and!; simpl; [lia| |constructor].
  unfold names_bytes. simpl. lia.
Qed.

Lemma set_channels_inv d c : decoder_inv d → channels_inv c → decoder_inv (set_channels c d).
Proof. intros [] ?. by split. Qed.

Lemma event_spec_channels d e c :
  event_spec (set_channels c d) e
  = map_ok (λ r, (r.1, set_channels c r.2)) (event_spec d e).
Proof.
  destruct e as [ch|ch b]; cbn [event_spec].
  - change (meter (set_channels c d)) with (meter d). by destruct (renew_spec _).
  - destruct (ch =? 1); [|destruct (ch =? 3); [|done]].
    + unfold audio_result. change (audio (set_channels c d)) with (audio d).
      change (nav_of (set_channels c d)) with (nav_of d).
      change (limits (set_channels c d)) with (limits d). change (meter (set_channels c d)) with (meter d).
      destruct (_ <? _)%nat; [done|]. destruct (complete _); [|done]. by destruct (run_token _ _ _).
    + unfold meter_result. change (meter (set_channels c d)) with (meter d).
      change (limits (set_channels c d)) with (limits d). change (audio (set_channels c d)) with (audio d).
      change (meter_port (set_channels c d)) with (meter_port d).
      destruct (_ <? _)%nat; [done|]. by destruct (meter_spec _ _ _ _).
Qed.

Lemma events_spec_channels d events c :
  events_spec (set_channels c d) events
  = map_ok (λ r, (r.1, set_channels c r.2)) (events_spec d events).
Proof.
  revert d. induction events as [|e events IH]; intros d; cbn [events_spec]; [done|].
  rewrite event_spec_channels. destruct (event_spec d e) as [[r d1]|]; [|done]. cbn [map_ok fst snd].
  rewrite IH. by destruct (events_spec d1 events) as [[]|].
Qed.

Lemma event_spec_keeps_channels d e rs d' : event_spec d e = Ok (rs, d') → channels d' = channels d.
Proof.
  destruct e as [ch|ch b]; cbn [event_spec].
  - destruct (renew_spec _); intros [= _ <-]; done.
  - destruct (ch =? 1); [|destruct (ch =? 3); [|by intros [= _ <-]]].
    + unfold audio_result. destruct (_ <? _)%nat; [done|].
      destruct (complete _); [destruct (run_token _ _ _); [|done]|]; by intros [= _ <-].
    + unfold meter_result. destruct (_ <? _)%nat; [done|].
      destruct (meter_spec _ _ _ _); [|done]. by intros [= _ <-].
Qed.

Lemma events_spec_keeps_channels d events rs d' :
  events_spec d events = Ok (rs, d') → channels d' = channels d.
Proof.
  revert d rs. induction events as [|e events IH]; intros d rs; cbn [events_spec]; [by intros [= _ <-]|].
  destruct (event_spec d e) as [[r d1]|] eqn:E; [|done]. cbn [fst snd].
  destruct (events_spec d1 events) as [[r2 d2]|] eqn:E2; [|done]. cbn [fst snd].
  intros [= _ <-]. rewrite (IH _ _ E2). by eapply event_spec_keeps_channels.
Qed.

(** ** Lemmas: whole tokens *)

Lemma audio_need_app p q : complete p = true → audio_need (p ++ q) = audio_need p.
Proof.
  unfold complete. destruct p as [|b p]; [done|]. cbn [app audio_need length].
  by_opcode b; try done. destruct p as [|n p]; [done|done].
Qed.

Lemma token_bytes_spec t :
  token_ok t → audio_need (token_bytes t) = length (token_bytes t) ∧ token_of (token_bytes t) = t.
Proof.
  assert (∀ n z, take n (to_be n z) = to_be n z) as Ht
    by (intros; by rewrite take_ge by (rewrite to_be_length; lia)).
  destruct t; intros Hok; cbn [token_ok token_bytes] in *;
    unfold audio_need, token_of; rewrite u8_b8_small by lia; op_tests; rewrite ?length_app;
    cbn [length]; rewrite ?to_be_length, ?Ht; split; try reflexivity; f_equal; try lia.
  all: rewrite ?firstn_all2 by lia; try done.
  all: auto using i32_round, i16_round, f32_round.
  - rewrite u8_b8_small by lia. lia.
  - unfold audio_need. rewrite !u8_b8_small by lia. op_tests. apply firstn_all2.
    change (drop 1 (?a :: s)) with s. lia.
  - rewrite u16_round by width. lia.
  - by rewrite firstn_all2, f32_round by done.
  - by rewrite firstn_all2, f32_round by done.
  - cbn [firstn]. rewrite from_be_1, u8_b8. change 256 with (2 ^ 8). rewrite wrap_signed_mod by lia.
    apply wrap_signed_id; [lia|]. width.
Qed.

Lemma token_bytes_prefix t p q :
  token_ok t → token_bytes t = p ++ q → q ≠ [] → complete p = false.
Proof.
  intros Ht Hpq Hq. destruct (token_bytes_spec t Ht) as [Hn _].
  destruct (complete p) eqn:E; [|done]. pose proof (audio_need_app p q E) as Ha.
  unfold complete in E. bool_hyps. rewrite <- Hpq, Hn, Hpq, length_app in Ha.
  destruct q; [done|]. simpl in Ha. lia.
Qed.

(** The bytes of one token, one event each, after some of its bytes [p]. *)
Lemma events_token d t p q :
  token_ok t → token_bytes t = p ++ q → q ≠ [] →
  (length (token_bytes t) + length (meter d) ≤ max_buffered_bytes (limits d))%nat →
  events_spec (set_audio p d) (map (Data 1) q)
  = map_ok (λ r, (option_list r.1, with_nav r.2 [] d)) (run_token (limits d) t (nav_of d)).
Proof.
  intros Ht. revert p. induction q as [|b q IH]; intros p Hpq Hq Hl; [done|].
  cbn [map events_spec event_spec]. change (1 =? 1) with true. cbv iota.
  unfold audio_result. change (audio (set_audio p d)) with p.
  change (limits (set_audio p d)) with (limits d). change (meter (set_audio p d)) with (meter d).
  change (nav_of (set_audio p d)) with (nav_of d).
  rewrite (proj2 (Nat.ltb_ge _ _)); [|rewrite Hpq in Hl; rewrite !length_app in *; simpl in *; lia].
  destruct q as [|b' q].
  - rewrite <- Hpq. destruct (token_bytes_spec t Ht) as [Hn Ho].
    unfold complete. rewrite Hn, Nat.leb_refl, Ho. cbn [map events_spec].
    destruct (run_token _ _ _) as [[r s]|]; [|done]. cbn [map_ok fst snd]. by rewrite app_nil_r.
  - assert (token_bytes t = (p ++ [b]) ++ b' :: q) as Hpq' by (by rewrite Hpq, <- (assoc_L (++))).
    rewrite (token_bytes_prefix t (p ++ [b]) (b' :: q)) by done. cbn [fst snd].
    change (set_audio (p ++ [b]) (set_audio p d)) with (set_audio (p ++ [b]) d).
    rewrite IH by done. by destruct (run_token _ _ _) as [[r s]|].
Qed.

(** The requests of a stream of tokens. *)
Fixpoint run_tokens (l : NativeLimits) (ts : list Token) (s : Nav) : Result (list NativeRequest * Nav) :=
  match ts with
  | [] => Ok ([], s)
  | t :: ts =>
    let? r := run_token l t s in
    let? r' := run_tokens l ts r.2 in
    Ok (option_list r.1 ++ r'.1, r'.2)
  end.

Definition tokens_bytes (ts : list Token) : list byte := concat (map token_bytes ts).

Lemma token_bytes_length t : token_ok t → (1 ≤ length (token_bytes t) ≤ 258)%nat.
Proof. intros Ht. destruct (token_bytes_spec t Ht) as [<- _]. apply audio_need_le. Qed.

Lemma events_tokens d ts :
  Forall token_ok ts → (258 + length (meter d) ≤ max_buffered_bytes (limits d))%nat →
  path_inv d → audio d = [] →
  events_spec d (map (Data 1) (tokens_bytes ts))
  = map_ok (λ r, (r.1, with_nav r.2 [] d)) (run_tokens (limits d) ts (nav_of d)).
Proof.
  intros Hts Hl. revert d Hl. induction Hts as [|t ts Ht _ IH]; intros d Hl Hp Ha.
  { pose proof (path_inv_nav d Hp) as E. rewrite Ha in E. simpl. by rewrite E. }
  unfold tokens_bytes. cbn [map concat run_tokens]. rewrite map_app, events_spec_app.
  pose proof (token_bytes_length t Ht) as Hlen.
  assert (set_audio [] d = d) as Hd by (rewrite <- Ha; by destruct d).
  assert (token_bytes t ≠ []) as Hne by (intros E; rewrite E in Hlen; simpl in Hlen; lia).
  rewrite <- Hd at 1. rewrite (events_token d t []) by (done || lia).
  destruct (run_token (limits d) t (nav_of d)) as [[r s]|]; [|done]. cbn [map_ok fst snd].
  fold (tokens_bytes ts). rewrite IH by done.
  assert (nav_of (with_nav s [] d) = s) as -> by (by destruct s).
  change (limits (with_nav s [] d)) with (limits d).
  by destruct (run_tokens (limits d) ts s) as [[]|].
Qed.

Lemma decoder_push_tokens_lemma d ts :
  decoder_inv d → channels d = on_channel 1 → audio d = [] →
  (258 + length (meter d) ≤ max_buffered_bytes (limits d))%nat → Forall token_ok ts →
  decoder_push (escape (tokens_bytes ts)) d =
    match run_tokens (limits d) ts (nav_of d) with
    | Ok (reqs, s) =>
      if decide (length reqs ≤ max_batch_requests (limits d))%nat
      then (Ok reqs, with_nav s [] d) else (Err InvalidData, decoder_new (limits d))
    | Err _ => (Err InvalidData, decoder_new (limits d))
    end.
Proof.
  intros Hd Hc Ha Hl Hts. rewrite decoder_push_spec by done. rewrite Hc, push_escape, <- Hc.
  assert (set_channels (channels d) d = d) as -> by (by destruct d).
  rewrite events_tokens by (done || apply Hd).
  by destruct (run_tokens _ _ _) as [[reqs s]|].
Qed.

Lemma decoder_push_keeps_inv d input :
  decoder_inv d →
  match decoder_push input d with
  | (Ok reqs, d') =>
    decoder_inv d' ∧ limits d' = limits d ∧ Forall (request_ok (limits d)) reqs
    ∧ (length reqs ≤ max_batch_requests (limits d))%nat
  | (Err e, d') => e = InvalidData ∧ d' = decoder_new (limits d)
  end.
Proof.
  intros Hd. rewrite decoder_push_spec by done.
  destruct (Channel.push (channels d) input) as [[events|e] c] eqn:Ec; [|done].
  apply push_inv in Ec as [Hc He]; [|apply Hd].
  pose proof (events_spec_inv (set_channels c d) events (set_channels_inv d c Hd Hc) He) as H.
  destruct (events_spec _ events) as [[reqs d']|e]; [|done]. destruct (decide _); [|done].
  destruct H as (? & ? & ?). done.
Qed.

Lemma decoder_push_app d a b :
  decoder_inv d →
  match decoder_push (a ++ b) d with
  | (Ok reqs, d2) =>
    ∃ r1 r2 d1, decoder_push a d = (Ok r1, d1) ∧ decoder_push b d1 = (Ok r2, d2) ∧ reqs = r1 ++ r2
  | (Err _, _) =>
    ∀ r1 r2 d1 d2, decoder_push a d = (Ok r1, d1) → decoder_push b d1 = (Ok r2, d2) →
      (max_batch_requests (limits d) < length (r1 ++ r2))%nat
  end.
Proof.
  intros Hd. pose proof (decoder_push_keeps_inv d a Hd) as Hsafe.
  rewrite !(decoder_push_spec d) in * by done. rewrite push_app_eq.
  destruct (Channel.push (channels d) a) as [[ea|e] c1]; [|done].
  destruct (events_spec (set_channels c1 d) ea) as [[r1 d1]|e] eqn:E1.
  2: { destruct (Channel.push c1 b) as [[eb|e'] c2]; [|done].
       change (set_channels c2 d) with (set_channels c2 (set_channels c1 d)).
       rewrite events_spec_app, events_spec_channels, E1. done. }
  pose proof (events_spec_keeps_channels _ _ _ _ E1) as Hc1. change (channels d1 = c1) in Hc1.
  destruct (decide (length r1 ≤ _)%nat) as [Hl1|Hl1].
  - destruct Hsafe as (Hd1 & Hlim & _). 
    pose proof (decoder_push_spec d1 b Hd1) as Hb. rewrite Hc1, Hlim in Hb.
    destruct (Channel.push c1 b) as [[eb|e'] c2].
    + change (set_channels c2 d) with (set_channels c2 (set_channels c1 d)).
      rewrite events_spec_app, events_spec_channels, E1. cbn [map_ok fst snd].
      destruct (events_spec (set_channels c2 d1) eb) as [[r2 d2]|e2]; cbn [fst snd].
      * destruct (decide (length (r1 ++ r2) ≤ _)%nat) as [Hl|Hl].
        -- exists r1, r2, d1. rewrite Hb, decide_True; [done|]. rewrite length_app in Hl. lia.
        -- intros ? ? ? ? [= <- <-] H2. rewrite Hb in H2. destruct (decide _) in H2; [|done].
           injection H2 as <- <-. lia.
      * intros ? ? ? ? [= <- <-] H2. by rewrite Hb in H2.
    + intros ? ? ? ? [= <- <-] H2. by rewrite Hb in H2.
  - destruct (Channel.push c1 b) as [[eb|e'] c2]; [|done].
    change (set_channels c2 d) with (set_channels c2 (set_channels c1 d)).
    rewrite events_spec_app, events_spec_channels, E1. cbn [map_ok fst snd].
    destruct (events_spec (set_channels c2 d1) eb) as [[r2 d2]|e2]; cbn [fst snd]; [|done].
    rewrite decide_False; [done|]. rewrite length_app. lia.
Qed.

(** ** Properties *)

(** C5: whatever bytes arrive, from a decoder in its invariant: either every request is within
    the limits (identifiers and values in range, strings valid UTF-8 and within the string
    limit, paths within the path limits, channels in range, meter lists within the entry
    limit, at most one batch) and the decoder is again in its invariant, which bounds what it
    buffers; or the only error is [InvalidData] and the decoder is as new. *)
Theorem decoder_push_safe d input :
  decoder_inv d →
  match decoder_push input d with
  | (Ok reqs, d') =>
    decoder_inv d' ∧ limits d' = limits d ∧ Forall (request_ok (limits d)) reqs
    ∧ (length reqs ≤ max_batch_requests (limits d))%nat
  | (Err e, d') => e = InvalidData ∧ d' = decoder_new (limits d)
  end.
Proof. apply decoder_push_keeps_inv. Qed.

(** How the stream is cut into reads does not matter.  If a fragment is accepted whole, it
    is accepted in any two pieces, with the same requests in order and the same final state;
    if it is refused whole, two pieces can only be accepted when together they hold more
    requests than one batch may. *)
Theorem decoder_push_fragmentation d a b :
  decoder_inv d →
  match decoder_push (a ++ b) d with
  | (Ok reqs, d2) =>
    ∃ r1 r2 d1, decoder_push a d = (Ok r1, d1) ∧ decoder_push b d1 = (Ok r2, d2) ∧ reqs = r1 ++ r2
  | (Err _, _) =>
    ∀ r1 r2 d1 d2, decoder_push a d = (Ok r1, d1) → decoder_push b d1 = (Ok r2, d2) →
      (max_batch_requests (limits d) < length (r1 ++ r2))%nat
  end.
Proof. apply decoder_push_app. Qed.

(** C4: the byte decoder implements the token semantics.  On the audio-engine channel, with
    nothing pending and buffer room for one token, the escaped bytes of any sequence of
    tokens are decoded to exactly the requests of that sequence, the navigation state moves
    as it says, and nothing stays buffered; a sequence the semantics refuses, or one with
    more requests than a batch may hold, is [InvalidData] and resets the decoder. *)
Theorem decoder_push_tokens d ts :
  decoder_inv d → channels d = on_channel 1 → audio d = [] →
  (258 + length (meter d) ≤ max_buffered_bytes (limits d))%nat → Forall token_ok ts →
  decoder_push (escape (tokens_bytes ts)) d =
    match run_tokens (limits d) ts (nav_of d) with
    | Ok (reqs, s) =>
      if decide (length reqs ≤ max_batch_requests (limits d))%nat
      then (Ok reqs, with_nav s [] d) else (Err InvalidData, decoder_new (limits d))
    | Err _ => (Err InvalidData, decoder_new (limits d))
    end.
Proof. apply decoder_push_tokens_lemma. Qed.

(** The tail calls of the parser and the drain loop terminate within the buffer: from a
    decoder whose path count is exact, [parse_audio] satisfies the source's unbounded
    recursion, and more fuel changes nothing. *)
Theorem parse_audio_terminates d n :
  path_inv d → (length (audio d) < n)%nat →
  parse_audio_fuel n d = parse_audio d ∧
  parse_audio d = (let! a := parse_audio_step in
                   match a with Return r => ret r | Again => parse_audio end)%rust d.
Proof.
  intros Hp Hn. split; [|by apply parse_audio_eq]. apply parse_audio_fuel_irrel; [done..|lia].
Qed.

(** *** Witnesses *)

(** A decoder with the audio-engine channel selected, under small limits. *)
Definition small_limits : NativeLimits :=
  {| max_buffered_bytes := 300; max_string_bytes := 256; max_path_elements := 4;
     max_path_bytes := 64; max_definition_bytes := 64; max_batch_requests := 16;
     max_meter_entries := 8 |}.

Definition sample_decoder : NativeRequestDecoder :=
  set_channels (on_channel 1) (decoder_new small_limits).

Lemma sample_decoder_inv : decoder_inv sample_decoder.
Proof. apply set_channels_inv; [apply decoder_new_inv|done]. Qed.

Definition sample_tokens : list Token :=
  [Tokens.Select 7; Tokens.Small 5; Tokens.Long (str "main"); Tokens.Toggle;
   Tokens.Root; Tokens.Name (str "ch"); Tokens.Near 1; Tokens.Read].

Lemma decoder_push_safe_witness :
  decoder_inv (decoder_push (escape (tokens_bytes sample_tokens)) sample_decoder).2.
Proof.
  pose proof (decoder_push_safe sample_decoder (escape (tokens_bytes sample_tokens)) sample_decoder_inv) as H.
  assert (is_ok (decoder_push (escape (tokens_bytes sample_tokens)) sample_decoder).1 = true) as E
    by (vm_compute; reflexivity).
  destruct (decoder_push _ _) as [[rs|e] d']; [apply H|discriminate E].
Defined.

Lemma decoder_push_fragmentation_witness :
  ∃ r1 r2 d1,
    decoder_push [b8 0xd7; b8 0; b8 0] sample_decoder = (Ok r1, d1) ∧
    decoder_push [b8 0; b8 7; b8 5] d1 = (Ok r2, set_selected (Some 7) sample_decoder) ∧
    [NativeRequests.Set_ 7 (NativeValues.Integer 5)] = r1 ++ r2.
Proof.
  pose proof (decoder_push_fragmentation sample_decoder [b8 0xd7; b8 0; b8 0] [b8 0; b8 7; b8 5]
    sample_decoder_inv) as H.
  assert (decoder_push ([b8 0xd7; b8 0; b8 0] ++ [b8 0; b8 7; b8 5]) sample_decoder
    = (Ok [NativeRequests.Set_ 7 (NativeValues.Integer 5)], set_selected (Some 7) sample_decoder)) as E
    by (vm_compute; reflexivity).
  rewrite E in H. exact H.
Defined.

Lemma decoder_push_tokens_witness :
  decoder_push (escape (tokens_bytes sample_tokens)) sample_decoder
  = (Ok [NativeRequests.Set_ 7 (NativeValues.Integer 5);
         NativeRequests.Set_ 7 (NativeValues.String (str "main"));
         NativeRequests.Toggle 7;
         NativeRequests.BulkData [PathElements.Name (str "ch"); PathElements.Index 1]],
     with_nav (mk_nav None [PathElements.Name (str "ch"); PathElements.Index 1]) [] sample_decoder).
Proof.
  rewrite (decoder_push_tokens sample_decoder sample_tokens sample_decoder_inv eq_refl eq_refl).
  - reflexivity.
  - apply Nat.leb_le. vm_compute. reflexivity.
  - repeat constructor; simpl; lia.
Defined.

Lemma parse_audio_terminates_witness :
  parse_audio_fuel 9 (set_audio [b8 0x41; b8 5] (set_selected (Some 7) sample_decoder))
  = parse_audio (set_audio [b8 0x41; b8 5] (set_selected (Some 7) sample_decoder)).
Proof.
  apply (parse_audio_terminates (set_audio [b8 0x41; b8 5] (set_selected (Some 7) sample_decoder)) 9).
  - reflexivity.
  - apply Nat.ltb_lt. reflexivity.
Defined.
