(* ===== verification/NativeResponse.v ===== *)
(** The server-side encoder of console-to-client responses ([src/src/native.rs],
    [encode_value], [BoundedResponseEncoder], [encode_responses_bounded]).

    [wire_len] and [max_wire_bytes] are 64-bit [usize] values as [Z], with the saturating
    addition of the source. *)

From S2P Require Import Prelude Bytes Lib Utf8 F32 Channel NodeDef Meter NativeRequest.
Local Open Scope Z_scope.
Local Open Scope rust_scope.

(** ** Data *)

Module NativeResponses.
Inductive NativeResponse :=
| RequestEnd
| NodeDef (def : WingNodeDef)
| NodeData (id : Z) (value : NativeValue)
| AuthoritativeEvent (id : Z) (value : NativeValue).
End NativeResponses.
Abbreviation NativeResponse := NativeResponses.NativeResponse.

Record BoundedResponseEncoder := mk_encoder {
  payload : list byte;
  wire_len : Z;
  max_wire_bytes : Z;
}.

Definition USIZE_MAX : Z := 2 ^ 64 - 1.
Definition saturating_add (a b : Z) : Z := Z.min (a + b) USIZE_MAX.

(** ** Operations *)

Definition encode_value (payload : list byte) (value : NativeValue) : Result (list byte) :=
  match value with
  | NativeValues.Integer z =>
    if (0 <=? z) && (z <=? 0x3f) then Ok (payload ++ [b8 z])
    else if (- 2 ^ 15 <=? z) && (z <=? 2 ^ 15 - 1) then Ok ((payload ++ [b8 0xd3]) ++ to_be 2 z)
    else Ok ((payload ++ [b8 0xd4]) ++ to_be 4 z)
  | NativeValues.Float f => Ok ((payload ++ [b8 0xd5]) ++ f32_to_be f)
  | NativeValues.RawFloat f => Ok ((payload ++ [b8 0xd6]) ++ f32_to_be f)
  | NativeValues.String s =>
    if bool_decide (s = []) then Ok (payload ++ [b8 0xd0])
    else if (length s <=? 64)%nat then Ok ((payload ++ [b8 (0x7f + Z.of_nat (length s))]) ++ s)
    else if (length s <=? 256)%nat then
      Ok ((payload ++ [b8 0xd1; b8 (Z.of_nat (length s) - 1)]) ++ s)
    else Err InvalidInput
  end.

Definition encoder_new (max_wire_bytes : Z) : BoundedResponseEncoder :=
  {| payload := []; wire_len := 2; max_wire_bytes := max_wire_bytes |}.

(** [NativeLimits::default().max_definition_bytes]. *)
Definition MAX_DEFINITION_BYTES : Z := 1024 * 1024.

(** The bytes [push] adds, before the bound is checked. *)
Definition encode_response (response : NativeResponse) : Result (list byte) :=
  match response with
  | NativeResponses.RequestEnd => Ok [b8 0xde]
  | NativeResponses.NodeData id value | NativeResponses.AuthoritativeEvent id value =>
    encode_value ([b8 0xd7] ++ to_be 4 id) value
  | NativeResponses.NodeDef def =>
    let? body := to_wire_bytes def in
    if MAX_DEFINITION_BYTES <? Z.of_nat (length body) then Err InvalidInput
    else
      let len := Z.of_nat (length body) in
      Ok ([b8 0xdf] ++ (if len <? 2 ^ 16 then to_be 2 len else to_be 2 0 ++ to_be 4 len) ++ body)
  end.

Definition encoder_push (enc : BoundedResponseEncoder) (response : NativeResponse)
    : Result unit * BoundedResponseEncoder :=
  match encode_response response with
  | Err e => (Err e, enc)
  | Ok encoded =>
    let next_wire_len := saturating_add (wire_len enc) (Z.of_nat (escaped_len encoded)) in
    if max_wire_bytes enc <? next_wire_len then (Err InvalidInput, enc)
    else (Ok tt, mk_encoder (payload enc ++ encoded) next_wire_len (max_wire_bytes enc))
  end.

Definition encoder_finish (enc : BoundedResponseEncoder) : Result (list byte) :=
  if max_wire_bytes enc <? wire_len enc then Err InvalidInput
  else Ok (append_escaped [b8 ESCAPE; b8 (CHANNEL_BASE + 1)] (payload enc)).

Fixpoint push_all (enc : BoundedResponseEncoder) (responses : list NativeResponse)
    : Result BoundedResponseEncoder :=
  match responses with
  | [] => Ok enc
  | r :: rest =>
    match encoder_push enc r with
    | (Ok _, enc) => push_all enc rest
    | (Err e, _) => Err e
    end
  end.

Definition encode_responses_bounded (responses : list NativeResponse) (max_wire_bytes : Z)
    : Result (list byte) :=
  let? enc := push_all (encoder_new max_wire_bytes) responses in
  encoder_finish enc.

Definition encode_responses (responses : list NativeResponse) : Result (list byte) :=
  encode_responses_bounded responses USIZE_MAX.

(** ** The specification of a batch *)

(** The token a value is sent as. *)
Definition value_token (v : NativeValue) : Token :=
  match v with
  | NativeValues.Integer z =>
    if decide (0 ≤ z < 0x40) then Tokens.Small z
    else if decide (in_i16 z) then Tokens.Int16 z else Tokens.Int32 z
  | NativeValues.Float f => Tokens.Real f
  | NativeValues.RawFloat f => Tokens.RawReal f
  | NativeValues.String s =>
    if decide (s = []) then Tokens.Empty
    else if decide (length s ≤ 64)%nat then Tokens.Short s else Tokens.Long s
  end.

(** A value that has a wire form. *)
Definition value_encodable (v : NativeValue) : Prop :=
  match v with NativeValues.String s => (length s ≤ 256)%nat | _ => True end.

#[export] Instance value_encodable_dec v : Decision (value_encodable v).
Proof. destruct v; apply _. Defined.

(** The payloads of a list of responses, when all of them have one. *)
Fixpoint encode_all (responses : list NativeResponse) : Result (list byte) :=
  match responses with
  | [] => Ok []
  | r :: rest => let? p := encode_response r in let? q := encode_all rest in Ok (p ++ q)
  end.

Definition batch_frame (p : list byte) : list byte := [b8 ESCAPE; b8 (CHANNEL_BASE + 1)] ++ escape p.

(** [wire_len] is exact, and within the bound once anything was pushed. *)
Definition encoder_inv (enc : BoundedResponseEncoder) : Prop :=
  wire_len enc = 2 + Z.of_nat (escaped_len (payload enc)) ∧ max_wire_bytes enc < USIZE_MAX.

(** ** Lemmas *)

Lemma encode_value_token p v :
  encode_value p v =
    if decide (value_encodable v) then Ok (p ++ token_bytes (value_token v)) else Err InvalidInput.
Proof.
  destruct v as [z|f|f|s]; simpl; rewrite ?decide_True by done; rewrite <- ?(assoc_L (++)); try done.
  - unfold in_i16. destruct ((0 <=? z) && (z <=? 0x3f)) eqn:E1; bool_hyps.
    { rewrite decide_True by lia. done. }
    rewrite decide_False by (intros ?; rewrite (proj2 (Z.leb_le 0 z)), (proj2 (Z.leb_le z 0x3f)) in E1 by lia; done).
    destruct ((- 2 ^ 15 <=? z) && (z <=? 2 ^ 15 - 1)) eqn:E2; bool_hyps.
    { rewrite decide_True by lia. by rewrite <- ?(assoc_L (++)). }
    rewrite decide_False; [by rewrite <- ?(assoc_L (++))|].
    intros ?. rewrite (proj2 (Z.leb_le (- 2 ^ 15) z)), (proj2 (Z.leb_le z (2 ^ 15 - 1))) in E2 by lia. done.
  - destruct (decide (s = [])) as [->|Hs]; [done|]. rewrite bool_decide_false by done.
    destruct (length s <=? 64)%nat eqn:E1; bool_hyps.
    { rewrite !decide_True by (unfold value_encodable; lia). rewrite <- ?(assoc_L (++)), Z.add_comm. done. }
    rewrite (decide_False (P := (length s ≤ 64)%nat)) by lia.
    destruct (length s <=? 256)%nat eqn:E2; bool_hyps.
    + rewrite decide_True by done. by rewrite <- ?(assoc_L (++)).
    + rewrite decide_False; [done|]. unfold value_encodable. lia.
Qed.

Lemma value_token_ok l v : value_ok l v → value_encodable v → token_ok (value_token v).
Proof.
  destruct v as [z|f|f|s]; simpl; intros Hv He; try done.
  - repeat case_decide; simpl; try done; lia.
  - destruct s; [done|]. rewrite decide_False by done. simpl in *. case_decide; simpl; lia.
Qed.

Lemma value_token_run l s v id :
  value_ok l v → nav_id s = Some id →
  run_token l (value_token v) s = Ok (Some (NativeRequests.Set_ id v), s).
Proof.
  intros Hv Hid. assert (∀ w, assign s w = Ok (Some (NativeRequests.Set_ id w), s)) as Ha
    by (intros w; unfold assign; by rewrite Hid).
  destruct v as [z|f|f|w]; simpl in *; try apply Ha.
  - repeat case_decide; apply Ha.
  - destruct Hv as [Hu Hl]. destruct (decide (w = [])) as [->|Hw]; [apply Ha|].
    assert (assign_string l s w = Ok (Some (NativeRequests.Set_ id (NativeValues.String w)), s)) as Hs.
    { unfold assign_string. rewrite (proj2 (Nat.leb_le _ _)), Hu by lia. apply Ha. }
    case_decide; apply Hs.
Qed.

Lemma encode_value_error p v e : encode_value p v = Err e → e = InvalidInput.
Proof. rewrite encode_value_token. case_decide; congruence. Qed.

Lemma encode_response_error r e : encode_response r = Err e → e = InvalidInput.
Proof.
  destruct r as [|d|id v|id v]; simpl; [done| |apply encode_value_error..].
  destruct (to_wire_bytes_result d) as [[w ->]| ->]; [|congruence].
  case_match; congruence.
Qed.

Lemma encoder_push_spec enc r :
  encoder_inv enc →
  match encoder_push enc r with
  | (Ok _, enc') =>
    encoder_inv enc' ∧ wire_len enc' ≤ max_wire_bytes enc' ∧ max_wire_bytes enc' = max_wire_bytes enc
    ∧ ∃ p, encode_response r = Ok p ∧ payload enc' = payload enc ++ p
  | (Err e, enc') =>
    e = InvalidInput ∧ enc' = enc ∧
    ∀ p, encode_response r = Ok p →
      max_wire_bytes enc < 2 + Z.of_nat (escaped_len (payload enc ++ p))
  end.
Proof.
  intros [Hw Hm]. unfold encoder_push. destruct (encode_response r) as [p|e] eqn:E.
  - rewrite Hw. unfold saturating_add.
    assert (2 + Z.of_nat (escaped_len (payload enc)) + Z.of_nat (escaped_len p)
      = 2 + Z.of_nat (escaped_len (payload enc ++ p))) as -> by (rewrite escaped_len_app; lia).
    destruct (_ <? _) eqn:El; bool_hyps.
    + split_and!; [done..|]. intros q [= <-]. lia.
    + split_and!; simpl; [split; simpl; lia|lia|done|by exists p].
  - split_and!; [by eapply encode_response_error|done|done].
Qed.

Lemma push_all_spec enc rs :
  encoder_inv enc →
  match push_all enc rs with
  | Ok enc' =>
    encoder_inv enc' ∧ max_wire_bytes enc' = max_wire_bytes enc ∧
    ∃ p, encode_all rs = Ok p ∧ payload enc' = payload enc ++ p
  | Err e =>
    e = InvalidInput ∧
    ∀ p, encode_all rs = Ok p → max_wire_bytes enc < 2 + Z.of_nat (escaped_len (payload enc ++ p))
  end.
Proof.
  revert enc. induction rs as [|r rs IH]; intros enc Hi; simpl.
  { split_and!; [done..|]. exists []. by rewrite app_nil_r. }
  pose proof (encoder_push_spec enc r Hi) as H. destruct (encoder_push enc r) as [[[]|e] enc1].
  - destruct H as (Hi1 & _ & Hm & p & Ep & Hp). specialize (IH enc1 Hi1). rewrite Ep.
    destruct (push_all enc1 rs) as [enc2|e].
    + destruct IH as (Hi2 & Hm2 & q & Eq & Hq). split_and!; [done|congruence|].
      exists (p ++ q). rewrite Eq, Hq, Hp, <- (assoc_L (++)). done.
    + destruct IH as [-> IH]. split; [done|]. intros w. destruct (encode_all rs) as [q|]; [|done].
      intros [= <-]. specialize (IH q eq_refl). rewrite Hm, Hp, <- (assoc_L (++)) in IH. done.
  - destruct H as (-> & _ & H). split; [done|]. intros w. destruct (encode_response r) as [p|]; [|done].
    destruct (encode_all rs) as [q|]; [|done]. intros [= <-]. specialize (H p eq_refl).
    rewrite (assoc_L (++)), escaped_len_app. lia.
Qed.

Lemma batch_frame_length p : length (batch_frame p) = (2 + escaped_len p)%nat.
Proof. unfold batch_frame. by rewrite length_app, escaped_len_eq. Qed.

(** ** Properties *)

(** A bounded batch is all or nothing: the result is the channel-1 frame of the
    concatenated response payloads when every response has a wire form and the whole frame
    fits the bound, and [InvalidInput] otherwise; no longer frame is ever returned. *)
Theorem encode_responses_bounded_exact rs max :
  max < USIZE_MAX →
  encode_responses_bounded rs max =
    match encode_all rs with
    | Ok p => if decide (Z.of_nat (length (batch_frame p)) ≤ max) then Ok (batch_frame p) else Err InvalidInput
    | Err _ => Err InvalidInput
    end.
Proof.
  intros Hmax. unfold encode_responses_bounded.
  pose proof (push_all_spec (encoder_new max) rs) as H. specialize (H ltac:(by split)).
  destruct (push_all (encoder_new max) rs) as [enc|e].
  - destruct H as ([Hw _] & Hm & p & -> & Hp). simpl in Hm, Hp. rewrite batch_frame_length.
    unfold encoder_finish. rewrite Hm, Hw, Hp. destruct (_ <? _) eqn:El; bool_hyps.
    + rewrite decide_False; [done|]. lia.
    + rewrite decide_True by lia. by rewrite append_escaped_eq.
  - destruct H as [-> H]. destruct (encode_all rs) as [p|e']; [|done].
    rewrite decide_False; [done|]. specialize (H p eq_refl). simpl in H. rewrite batch_frame_length. lia.
Qed.

(** One push either appends exactly the response's payload, keeping the reported frame
    length exact and within the bound, or leaves the encoder as it was, and then the response
    has no wire form or would not have fitted. *)
Theorem encoder_push_atomic enc r :
  encoder_inv enc →
  match encoder_push enc r with
  | (Ok _, enc') =>
    encoder_inv enc' ∧ wire_len enc' ≤ max_wire_bytes enc' ∧ max_wire_bytes enc' = max_wire_bytes enc
    ∧ ∃ p, encode_response r = Ok p ∧ payload enc' = payload enc ++ p
  | (Err e, enc') =>
    e = InvalidInput ∧ enc' = enc ∧
    ∀ p, encode_response r = Ok p →
      max_wire_bytes enc < 2 + Z.of_nat (escaped_len (payload enc ++ p))
  end.
Proof. apply encoder_push_spec. Qed.

(** *** Witnesses *)

Definition sample_responses : list NativeResponse :=
  [NativeResponses.NodeData 0xdf (NativeValues.Integer (-2));
   NativeResponses.NodeDef sample_def;
   NativeResponses.AuthoritativeEvent 5 (NativeValues.String (str "on"));
   NativeResponses.RequestEnd].

Lemma encode_responses_bounded_exact_witness :
  encode_responses_bounded [NativeResponses.NodeData 0xdf (NativeValues.Integer (-2))] 11
  = Ok [b8 0xdf; b8 0xd1; b8 0xd7; b8 0; b8 0; b8 0; b8 0xdf; b8 0xde; b8 0xd3; b8 0xff; b8 0xfe]
  ∧ encode_responses_bounded [NativeResponses.NodeData 0xdf (NativeValues.Integer (-2))] 10
  = Err InvalidInput.
Proof.
  split; rewrite encode_responses_bounded_exact by reflexivity; vm_compute; reflexivity.
Defined.

Lemma encoder_push_atomic_witness :
  wire_len (encoder_push (encoder_new 20) NativeResponses.RequestEnd).2 ≤ 20.
Proof.
  assert (encoder_inv (encoder_new 20)) as Hi by (split; reflexivity).
  exact (proj1 (proj2 (encoder_push_atomic (encoder_new 20) NativeResponses.RequestEnd Hi))).
Defined.
