(* ===== verification/ClientMessages.v ===== *)
(** What the client writes ([src/src/console.rs]): value assignments, toggles, node data and
    definition requests, keep-alives and meter subscriptions, and what the server-side
    decoder of [src/src/native.rs] makes of those bytes. *)

From S2P Require Import Prelude Bytes Lib Utf8 F32 Channel NodeDef Meter NativeRequest NativeResponse.
Local Open Scope Z_scope.
Local Open Scope rust_scope.

(** ** Messages *)

Definition push_escaped (buf : list byte) (b : byte) : list byte := append_escaped buf [b].
Definition extend_escaped (buf bytes : list byte) : list byte := append_escaped buf bytes.

Definition format_id (id : Z) (buf : list byte) (prefix : byte) (suffix : option byte) : list byte :=
  let buf := extend_escaped (buf ++ [prefix]) (to_be 4 id) in
  match suffix with Some suffix1 => buf ++ [suffix1] | None => buf end.

(** The bytes [request_node_definition], [request_node_data] and [toggle] write. *)
Definition request_node_definition (id : Z) : list byte :=
  if id =? 0 then [b8 0xda; b8 0xdd] else format_id id [] (b8 0xd7) (Some (b8 0xdd)).

Definition request_node_data (id : Z) : list byte :=
  if id =? 0 then [b8 0xda; b8 0xdc] else format_id id [] (b8 0xd7) (Some (b8 0xdc)).

Definition toggle (id : Z) : list byte := format_id id [] (b8 0xd7) (Some (b8 0xd8)).

Definition keep_alive_bytes : list byte := [b8 0xdf; b8 0xd1].

(** On an error the buffer is the one passed in. *)
Definition append_value_message (buf : list byte) (id : Z) (value : NativeValue) : Result (list byte) :=
  let? token := encode_value [] value in
  Ok (extend_escaped (format_id id buf (b8 0xd7) None) token).

Definition set_value_message (id : Z) (value : NativeValue) : Result (list byte) :=
  append_value_message [] id value.

Definition set_string_message (id : Z) (value : list byte) : Result (list byte) :=
  set_value_message id (NativeValues.String value).
Definition set_float_message (id : Z) (value : f32) : Result (list byte) :=
  set_value_message id (NativeValues.Float value).
Definition set_int_message (id value : Z) : Result (list byte) :=
  set_value_message id (NativeValues.Integer value).

(** The bytes [set_binary_node] writes. *)
Definition set_binary_node (data : list byte) : list byte := extend_escaped [] data.

(** ** Meter subscriptions *)

(** [_WingConsoleMeters], without its timer. *)
Record ConsoleMeters := mk_meters {
  meter_socket_port : option Z;
  active_meter_id : option Z;
  next_meter_id : Z;
}.

(** [bind] is what binding a UDP socket answers (its port), [write] what writing answers. *)
Definition request_meter_message (port id : Z) (encoded_meters : list byte) : list byte :=
  let buf := extend_escaped [b8 0xdf; b8 0xd3; b8 0xd3] (to_be 2 port) in
  let buf := extend_escaped (buf ++ [b8 0xd4]) (to_be 2 id) in
  let buf := extend_escaped buf (to_be 2 port) in
  (buf ++ [b8 0xdc]) ++ encoded_meters ++ [b8 0xde; b8 0xdf; b8 0xd1].

Definition request_meter (meters : list Meter) (bind : Result Z) (write : list byte → Result unit)
    (st : ConsoleMeters) : Result (Z * list byte) * ConsoleMeters :=
  match encode_meters [] meters with
  | Err e => (Err e, st)
  | Ok encoded =>
    let id := Z.max (next_meter_id st) 1 in
    match (match meter_socket_port st with Some port => Ok port | None => bind end) with
    | Err e => (Err e, st)
    | Ok port =>
      let st := mk_meters (Some port) (active_meter_id st) (next_meter_id st) in
      let buf := request_meter_message port id encoded in
      match write buf with
      | Err e => (Err e, st)
      | Ok _ => (Ok (id, buf), mk_meters (Some port) (Some id) ((id + 1) mod 2 ^ 16))
      end
    end
  end.

(** The bytes of a due meter keep-alive. *)
Definition keep_alive_meters (st : ConsoleMeters) : Result (list byte) :=
  let? port := ok_or (meter_socket_port st) MeterNotInitialized in
  Ok (match active_meter_id st with
      | Some id =>
        let keepalive := extend_escaped [b8 0xdf; b8 0xd3; b8 0xd4] (to_be 2 id) in
        let keepalive := extend_escaped keepalive (to_be 2 port) in
        (keepalive ++ [b8 0xdf]) ++ [b8 0xd1]
      | None => []
      end).

(** ** The messages as token streams *)

Lemma escape_plain b : u8 b ≠ ESCAPE → escape [b] = [b].
Proof. intros H. apply escape_id. by repeat constructor. Qed.

Lemma escape_token (z : Z) : z mod 256 ≠ ESCAPE → escape [b8 z] = [b8 z].
Proof. intros. apply escape_plain. by rewrite u8_b8. Qed.

Lemma format_id_eq id buf suffix :
  from_option (λ b, u8 b ≠ ESCAPE) True suffix →
  format_id id buf (b8 0xd7) suffix
  = buf ++ escape (token_bytes (Tokens.Select id) ++ option_list suffix).
Proof.
  intros Hs. unfold format_id, extend_escaped. rewrite append_escaped_eq.
  cbn [token_bytes]. rewrite escape_app, escape_cons.
  change (escape_byte (b8 0xd7)) with [b8 0xd7].
  destruct suffix as [b|].
  - change (option_list (Some b)) with [b]. rewrite (escape_plain b) by done.
    by rewrite <- !(assoc_L (++)).
  - change (escape (option_list None)) with (@nil byte). by rewrite app_nil_r, <- !(assoc_L (++)).
Qed.

Lemma request_node_definition_eq id :
  request_node_definition id = escape (tokens_bytes (if id =? 0 then [Tokens.Root; Tokens.Describe]
                                                     else [Tokens.Select id; Tokens.Describe])).
Proof.
  unfold request_node_definition. destruct (id =? 0); [done|]. by rewrite format_id_eq.
Qed.

Lemma request_node_data_eq id :
  request_node_data id = escape (tokens_bytes (if id =? 0 then [Tokens.Root; Tokens.Read]
                                               else [Tokens.Select id; Tokens.Read])).
Proof. unfold request_node_data. destruct (id =? 0); [done|]. by rewrite format_id_eq. Qed.

Lemma toggle_eq id : toggle id = escape (tokens_bytes [Tokens.Select id; Tokens.Toggle]).
Proof. unfold toggle. by rewrite format_id_eq. Qed.

Lemma append_value_message_eq buf id v :
  append_value_message buf id v =
    if decide (value_encodable v)
    then Ok (buf ++ escape (tokens_bytes [Tokens.Select id; value_token v])) else Err InvalidInput.
Proof.
  unfold append_value_message. rewrite encode_value_token. case_decide; [|done].
  unfold extend_escaped. rewrite append_escaped_eq, format_id_eq by done.
  unfold tokens_bytes. cbn [map concat option_list app]. rewrite !app_nil_r, escape_app.
  by rewrite <- (assoc_L (++)).
Qed.

(** ** The client's requests on the server *)

(** A server connection with nothing pending on the audio-engine channel, and buffer room
    for one token. *)
Record server_ready (d : NativeRequestDecoder) : Prop := {
  ready_inv : decoder_inv d;
  ready_channel : channels d = on_channel 1;
  ready_audio : audio d = [];
  ready_meter : meter d = [];
  ready_room : (258 ≤ max_buffered_bytes (limits d))%nat;
  ready_batch : (4 ≤ max_batch_requests (limits d))%nat;
}.

Lemma server_tokens d ts reqs s :
  server_ready d → Forall token_ok ts → run_tokens (limits d) ts (nav_of d) = Ok (reqs, s) →
  (length reqs ≤ 1)%nat → nav_ok (limits d) s →
  decoder_push (escape (tokens_bytes ts)) d = (Ok reqs, with_nav s [] d)
  ∧ server_ready (with_nav s [] d).
Proof.
  intros [Hi Hc Ha Hm Hr Hb] Hts Hrun Hl Hs. rewrite decoder_push_tokens_lemma by (done || rewrite Hm; simpl; lia).
  rewrite Hrun, decide_True by lia. split; [done|]. split; try done.
  destruct Hi. split; try done. simpl. lia.
Qed.

(** The meter bytes of one request, after its report id, on channel 3. *)
Lemma events_meter_extend d m q :
  (∃ op body, m = op :: body ∧ u8 op = 0xd4 ∧ (5 ≤ length body)%nat) →
  Forall (λ b, u8 b ≠ 0xde) q →
  (length (audio d) + length (m ++ q) ≤ max_buffered_bytes (limits d))%nat →
  events_spec (set_meter m d) (map (Data 3) q) = Ok ([], set_meter (m ++ q) d).
Proof.
  intros Hm Hq. revert m Hm. induction Hq as [|b q Hb _ IH]; intros m (op & body & -> & Ho & Hl) Hr.
  { by rewrite app_nil_r. }
  cbn [map events_spec event_spec]. change (3 =? 1) with false. change (3 =? 3) with true. cbv iota.
  unfold meter_result. change (meter (set_meter (op :: body) d)) with (op :: body).
  change (audio (set_meter (op :: body) d)) with (audio d).
  change (limits (set_meter (op :: body) d)) with (limits d).
  change (meter_port (set_meter (op :: body) d)) with (meter_port d).
  rewrite (proj2 (Nat.ltb_ge _ _)); [|simpl in *; rewrite !length_app in *; simpl in *; lia].
  cbn [meter_spec]. rewrite Ho. change (0xd4 =? 0xd3) with false. cbv iota.
  rewrite (proj2 (Nat.ltb_ge (length body) 4)) by lia. rewrite (proj2 (Nat.eqb_neq (length body) 4)) by lia.
  rewrite (proj2 (Z.eqb_neq (u8 b) 0xde)) by done. cbn [fst snd].
  change (set_meter_port (meter_port d) (set_meter ((op :: body) ++ [b]) (set_meter (op :: body) d)))
    with (set_meter ((op :: body) ++ [b]) d).
  rewrite IH; [by rewrite <- (assoc_L (++))| |by rewrite <- (assoc_L (++))].
  exists op, (body ++ [b]). split_and!; [done..|]. rewrite length_app. lia.
Qed.

(** A decoder with a given meter buffer and port. *)
Definition meter_at (m : list byte) (p : option Z) (d : NativeRequestDecoder) : NativeRequestDecoder :=
  set_meter_port p (set_meter m d).

Lemma events_meter_cons d m p b rest rs m' p' :
  meter_spec (max_meter_entries (limits d)) m p b = Ok (rs, m', p') →
  (length (audio d) + S (length m) ≤ max_buffered_bytes (limits d))%nat →
  events_spec (meter_at m p d) (map (Data 3) (b :: rest))
  = map_ok (λ r, (rs ++ r.1, r.2)) (events_spec (meter_at m' p' d) (map (Data 3) rest)).
Proof.
  intros Hs Hl. cbn [map events_spec event_spec]. change (3 =? 1) with false.
  change (3 =? 3) with true. cbv iota. unfold meter_result. cbn [meter_at set_meter_port set_meter meter audio limits meter_port].
  rewrite length_app. cbn [length]. rewrite (proj2 (Nat.ltb_ge _ _)) by lia. rewrite Hs. cbn [fst snd].
  change (set_meter_port p' (set_meter m' _)) with (meter_at m' p' d). by destruct (events_spec _ _).
Qed.

Lemma meter_bytes_plain m : meter_ok m → Forall (λ b, u8 b ≠ 0xde ∧ u8 b ≠ ESCAPE) (meter_bytes m).
Proof.
  intros Hok. pose proof (wire_opcode m) as Ho. pose proof (wire_max m) as Hmax.
  unfold meter_ok, meter_bytes, meter_opcode in *. destruct (wire m) as [[o n] max]. cbn [fst snd] in *.
  unfold ESCAPE. destruct (max =? 0) eqn:E; bool_hyps; repeat constructor; rewrite u8_b8_small; lia.
Qed.

Lemma meters_bytes_plain meters :
  Forall meter_ok meters → Forall (λ b, u8 b ≠ 0xde ∧ u8 b ≠ ESCAPE) (concat (map meter_bytes meters)).
Proof.
  induction 1 as [|m ms Hm _ IH]; simpl; [constructor|]. apply Forall_app. split; [|done].
  by apply meter_bytes_plain.
Qed.

Lemma meter_bytes_length meters :
  (length (concat (map meter_bytes meters)) ≤ 2 * length meters)%nat.
Proof.
  induction meters as [|m ms IH]; simpl; [lia|]. rewrite length_app.
  assert (length (meter_bytes m) ≤ 2)%nat; [|lia].
  unfold meter_bytes. destruct (wire m) as [[? ?] ?]. destruct (_ =? 0); simpl; lia.
Qed.

(** The report id on the wire: the client's id in the high half, its port in the low half. *)
Definition report_id (id port : Z) : Z := id * 2 ^ 16 + port.

Lemma report_id_bytes id port :
  in_u16 id → in_u16 port → from_be (to_be 2 id ++ to_be 2 port) = report_id id port.
Proof.
  intros. rewrite from_be_app, to_be_length, !u16_round by done. unfold report_id. done.
Qed.

Lemma events_subscribe d id port meters :
  in_u16 id → in_u16 port → Forall meter_ok meters →
  (length meters ≤ max_meter_entries (limits d))%nat →
  (length (audio d) + 2 * length meters + 8 ≤ max_buffered_bytes (limits d))%nat →
  meter d = [] →
  events_spec d (map (Data 3) (([b8 0xd3] ++ to_be 2 port) ++ ([b8 0xd4] ++ to_be 2 id ++ to_be 2 port)
                               ++ [b8 0xdc] ++ concat (map meter_bytes meters) ++ [b8 0xde]))
  = Ok ([NativeRequests.MeterPort port;
         NativeRequests.MeterSubscribe port (report_id id port) meters], meter_at [] (Some port) d).
Proof.
  intros Hid Hport Hok Hlen Hroom Hm.
  pose proof (report_id_bytes id port Hid Hport) as Hrid. pose proof (u16_round port Hport) as Hp.
  assert (d = meter_at [] (meter_port d) d) as Hd by (destruct d; simpl in Hm; by subst).
  rewrite Hd at 1. rewrite !to_be_2 in *. set (p1 := b8 (Z.shiftr port 8)) in *. set (p2 := b8 port) in *.
  set (i1 := b8 (Z.shiftr id 8)) in *. set (i2 := b8 id) in *. cbn [app] in *.
  erewrite events_meter_cons; [|reflexivity|simpl; lia].
  erewrite events_meter_cons; [|reflexivity|simpl; lia].
  erewrite events_meter_cons; [|reflexivity|simpl; lia].
  erewrite events_meter_cons; [|reflexivity|simpl; lia].
  erewrite events_meter_cons; [|reflexivity|simpl; lia].
  erewrite events_meter_cons; [|reflexivity|simpl; lia].
  erewrite events_meter_cons; [|reflexivity|simpl; lia].
  erewrite events_meter_cons; [|reflexivity|simpl; lia].
  erewrite events_meter_cons; [|reflexivity|simpl; lia].
  cbn [app]. rewrite Hp, map_app, events_spec_app.
  set (q := concat (map meter_bytes meters)).
  pose proof (meter_bytes_length meters) as Hq. fold q in Hq.
  change (meter_at ?m ?p d) with (set_meter m (meter_at [] p d)).
  rewrite events_meter_extend.
  - cbn [fst snd app map]. change (set_meter ?m (meter_at [] ?p d)) with (meter_at m p d).
    rewrite (events_meter_cons _ _ _ (b8 0xde) []
      [NativeRequests.MeterSubscribe port (report_id id port) meters] [] (Some port)).
    + reflexivity.
    + cbn [meter_spec].
      change (u8 (b8 0xd4) =? 0xd3) with false. change (u8 (b8 0xde) =? 0xde) with true. cbn [length Nat.ltb Nat.leb Nat.eqb].
      change (drop 5 (i1 :: i2 :: p1 :: p2 :: b8 0xdc :: q)) with q. cbv iota.
      unfold q, decode_meter_entries. rewrite decode_meters_ok by (done || simpl; lia). cbn [app ok_or firstn].
      rewrite Hrid. reflexivity.
    + simpl. fold q. lia.
  - do 2 eexists. split_and!; [reflexivity|reflexivity|simpl; lia].
  - eapply Forall_impl; [|by apply meters_bytes_plain]. by intros b [? _].
  - simpl. fold q. lia.
Qed.

Lemma push_channel_body d c payload :
  escaped d = false → channel_ok c →
  Channel.push d ([b8 ESCAPE; b8 (CHANNEL_BASE + c)] ++ escape payload)
  = (Ok (Selected c :: map (Data c) payload), on_channel c).
Proof.
  intros He Hc. erewrite push_app_ok by by apply push_select. by rewrite push_escape.
Qed.

(** A message on channel 3 between two channel switches. *)
Lemma push_meter_message d body :
  escaped d = false →
  Channel.push d (([b8 0xdf; b8 0xd3] ++ escape body) ++ [b8 0xdf; b8 0xd1])
  = (Ok ((Selected 3 :: map (Data 3) body) ++ [Selected 1]), on_channel 1).
Proof.
  intros He. erewrite push_app_ok.
  2: { apply (push_channel_body d 3); [done|]. unfold channel_ok, CHANNEL_COUNT. lia. }
  assert (Channel.push (on_channel 3) [b8 0xdf; b8 0xd1] = (Ok [Selected 1], on_channel 1)) as E
    by reflexivity. by rewrite E.
Qed.

Lemma request_meter_message_eq port id meters :
  Forall meter_ok meters →
  request_meter_message port id (concat (map meter_bytes meters))
  = ([b8 0xdf; b8 0xd3] ++ escape (([b8 0xd3] ++ to_be 2 port) ++ ([b8 0xd4] ++ to_be 2 id ++ to_be 2 port)
                                    ++ [b8 0xdc] ++ concat (map meter_bytes meters) ++ [b8 0xde]))
    ++ [b8 0xdf; b8 0xd1].
Proof.
  intros Hok. unfold request_meter_message, extend_escaped. rewrite !append_escaped_eq, !escape_app.
  rewrite (escape_id (concat (map meter_bytes meters))).
  2: { eapply Forall_impl; [|by apply meters_bytes_plain]. by intros b [_ ?]. }
  rewrite !escape_token by done. by rewrite <- !(assoc_L (++)).
Qed.

Lemma server_push d d1 wire events reqs :
  server_ready d → Channel.push (channels d) wire = (Ok events, on_channel 1) →
  events_spec d events = Ok (reqs, d1) →
  (length reqs ≤ 4)%nat → decoder_push wire d = (Ok reqs, d1).
Proof.
  intros [Hi Hc Ha Hm Hr Hb] Hp He Hl. rewrite decoder_push_spec by done. rewrite Hp.
  assert (set_channels (on_channel 1) d = d) as -> by (rewrite <- Hc; by destruct d).
  rewrite He. by rewrite decide_True by lia.
Qed.

Lemma keep_alive_meters_eq port id n :
  keep_alive_meters (mk_meters (Some port) (Some id) n)
  = Ok (([b8 0xdf; b8 0xd3] ++ escape ([b8 0xd4] ++ to_be 2 id ++ to_be 2 port)) ++ [b8 0xdf; b8 0xd1]).
Proof.
  unfold keep_alive_meters, extend_escaped. cbn [meter_socket_port active_meter_id ok_or].
  rewrite !append_escaped_eq, !escape_app, escape_token by done. by rewrite <- !(assoc_L (++)).
Qed.

(** The events of a message on channel 3 between two channel switches. *)
Lemma events_switched d body reqs d1 renew m :
  meter d = [] → events_spec d (map (Data 3) body) = Ok (reqs, d1) →
  renew_spec (meter d1) = Ok (renew, m) →
  events_spec d ((Selected 3 :: map (Data 3) body) ++ [Selected 1])
  = Ok (NativeRequests.KeepAlive 3 :: reqs ++ renew ++ [NativeRequests.KeepAlive 1], set_meter m d1).
Proof.
  intros Hm He Hr. rewrite <- app_comm_cons. cbn [events_spec event_spec]. rewrite Hm. cbn [renew_spec fst snd].
  assert (set_meter [] d = d) as -> by (rewrite <- Hm; by destruct d).
  rewrite events_spec_app, He. cbn [events_spec event_spec fst snd]. rewrite Hr. cbn [fst snd app].
  by rewrite app_nil_r.
Qed.

Lemma events_renew d id port :
  in_u16 id → in_u16 port → meter d = [] → (length (audio d) + 5 ≤ max_buffered_bytes (limits d))%nat →
  events_spec d (map (Data 3) ([b8 0xd4] ++ to_be 2 id ++ to_be 2 port))
  = Ok ([], set_meter ([b8 0xd4] ++ to_be 2 id ++ to_be 2 port) d).
Proof.
  intros Hid Hport Hm Hl. assert (d = meter_at [] (meter_port d) d) as Hd by (destruct d; simpl in Hm; by subst).
  rewrite Hd at 1. rewrite !to_be_2. cbn [app].
  do 5 (erewrite events_meter_cons; [|reflexivity|simpl; lia]). reflexivity.
Qed.

(** ** Properties *)

(** C6: a value assignment survives the connection.  Every value within the server's limits
    that has a wire form is sent by the client, and the server reads back exactly one [Set]
    of that node and value, whatever the node identifier or the value contains (escape bytes
    included); the connection is ready for the next request with that node selected.  A
    string longer than 256 bytes is refused before anything is written. *)
Theorem set_value_delivered d id v :
  server_ready d → in_i32 id → value_ok (limits d) v →
  match set_value_message id v with
  | Ok wire =>
    let d' := with_nav (mk_nav (Some id) (path d)) [] d in
    decoder_push wire d = (Ok [NativeRequests.Set_ id v], d') ∧ server_ready d'
  | Err e => e = InvalidInput ∧ ¬ value_encodable v
  end.
Proof.
  intros Hd Hid Hv. unfold set_value_message. rewrite append_value_message_eq. case_decide; [|done].
  apply server_tokens; [done| | |simpl; lia|].
  - each_elem; [done|]. by eapply value_token_ok.
  - cbn [run_tokens run_token]. by rewrite (value_token_run _ _ _ id Hv).
  - split; [apply (inv_nav _ (ready_inv _ Hd))|done].
Qed.

(** A toggle, a data request and a definition request for a node are read back as the
    single request they mean; identifier 0 asks for the whole tree from the root. *)
Theorem requests_delivered d id :
  server_ready d → in_i32 id →
  (decoder_push (toggle id) d).1 = Ok [NativeRequests.Toggle id] ∧
  (decoder_push (request_node_data id) d).1
    = Ok [if id =? 0 then NativeRequests.BulkData [] else NativeRequests.Get id] ∧
  (decoder_push (request_node_definition id) d).1
    = Ok [if id =? 0 then NativeRequests.BulkDefinition [] else NativeRequests.Definition_ id].
Proof.
  intros Hd Hid. pose proof (inv_nav _ (ready_inv _ Hd)) as [Hn _].
  assert (nav_ok (limits d) (mk_nav None [])) as Hroot.
  { split; [|done]. split_and!; simpl; [lia|unfold names_bytes; simpl; lia|constructor]. }
  assert (nav_ok (limits d) (mk_nav (Some id) (path d))) as Hsel by done.
  rewrite toggle_eq, request_node_data_eq, request_node_definition_eq.
  split_and!.
  - edestruct (server_tokens d) as [-> _]; [done|by each_elem|reflexivity|simpl; lia|done|done].
  - destruct (id =? 0);
      (edestruct (server_tokens d) as [-> _]; [done|by each_elem|reflexivity|simpl; lia|done|done]).
  - destruct (id =? 0);
      (edestruct (server_tokens d) as [-> _]; [done|by each_elem|reflexivity|simpl; lia|done|done]).
Qed.

(** A meter subscription is read back as the port announcement and the same meter list,
    under the report id made of the client's subscription id and its port, between the two
    channel switches, and the audio-engine channel is selected again; the keep-alive of that
    subscription renews the same report id. *)
Theorem meter_subscription_delivered d st meters bind write id wire st' port :
  server_ready d → (length meters ≤ max_meter_entries (limits d))%nat →
  (2 * length meters + 8 ≤ max_buffered_bytes (limits d))%nat →
  Forall (λ m, in_u8 (Meter.wire m).1.2) meters → in_u16 (next_meter_id st) →
  meter_socket_port st' = Some port → in_u16 port →
  request_meter meters bind write st = (Ok (id, wire), st') →
  let d' := meter_at [] (Some port) d in
  decoder_push wire d =
    (Ok [NativeRequests.KeepAlive 3; NativeRequests.MeterPort port;
         NativeRequests.MeterSubscribe port (report_id id port) meters;
         NativeRequests.KeepAlive 1], d') ∧
  ∃ ka, keep_alive_meters st' = Ok ka ∧
    decoder_push ka d' = (Ok [NativeRequests.KeepAlive 3; NativeRequests.MeterRenew (report_id id port);
                              NativeRequests.KeepAlive 1], d').
Proof.
  intros Hd Hlen Hroom Hu Hid Hport Hp Hreq d'. unfold request_meter in Hreq.
  destruct (encode_meters [] meters) as [encoded|] eqn:Ee; [|done].
  apply encode_meters_inv in Ee as [Hok ->]; [|done].
  destruct (match meter_socket_port st with Some port => Ok port | None => bind end) as [p|]; [|done].
  destruct (write _); [|done]. injection Hreq as <- <- <-. simpl in Hport. injection Hport as ->.
  assert (in_u16 (next_meter_id st `max` 1)) as Hid' by width.
  destruct Hd as [Hi Hc Ha Hm Hr Hb]. assert (server_ready d) as Hd by by split.
  assert (escaped (channels d) = false) as Hesc by (by rewrite Hc).
  assert (set_meter [] d = d) as Hdm by (rewrite <- Hm; by destruct d). split.
  - rewrite request_meter_message_eq by done.
    eapply server_push; [done|by apply push_meter_message| |simpl; lia].
    erewrite events_switched; [|done|apply events_subscribe; try done; rewrite Ha; simpl; lia|done].
    done.
  - eexists. split; [apply keep_alive_meters_eq|].
    assert (server_ready d') as Hd'. { split; try done. destruct Hi. split; try done; simpl; lia. }
    eapply server_push; [done|by apply push_meter_message| |simpl; lia].
    erewrite events_switched; [|done|apply events_renew; try done; rewrite (ready_audio _ Hd'); simpl; lia|].
    2: { cbn [meter set_meter app renew_spec]. rewrite length_app, !to_be_length.
         change ((u8 (b8 0xd4) =? 0xd4) && (2 + 2 =? 4)%nat) with true. cbv iota.
         rewrite report_id_bytes by done. reflexivity. }
    done.
Qed.

(** Subscription ids are never 0 and always fit 16 bits, also across the wrap; a
    subscription that reached the wire becomes the renewed one and spends its id, so the next
    id differs from it; one that failed (a bad index, no socket, a failed write) leaves both
    the renewed id and the next id as they were. *)
Theorem request_meter_ids meters bind write st :
  in_u16 (next_meter_id st) →
  match request_meter meters bind write st with
  | (Ok (id, _), st') =>
    1 ≤ id < 2 ^ 16 ∧ active_meter_id st' = Some id ∧ in_u16 (next_meter_id st') ∧
    Z.max (next_meter_id st') 1 ≠ id
  | (Err _, st') =>
    active_meter_id st' = active_meter_id st ∧ next_meter_id st' = next_meter_id st
  end.
Proof.
  intros Hn. unfold request_meter. destruct (encode_meters [] meters); [|done].
  destruct (match meter_socket_port st with Some port => Ok port | None => bind end); [|done].
  destruct (write _); [|done]. simpl. pose proof (Z.mod_pos_bound (next_meter_id st `max` 1 + 1) (2 ^ 16) eq_refl).
  split_and!; try width; [done|]. intros Heq.
  destruct (decide (next_meter_id st `max` 1 = 2 ^ 16 - 1)) as [E|E].
  - rewrite E in Heq. vm_compute in Heq. discriminate.
  - rewrite Z.mod_small in Heq by width. lia.
Qed.

(** *** Witnesses *)

Lemma sample_server_ready : server_ready sample_decoder.
Proof. split; try reflexivity; [apply sample_decoder_inv|..]; apply Nat.leb_le; vm_compute; reflexivity. Qed.

Lemma set_value_delivered_witness :
  ∃ wire, set_value_message 0xdfdf (NativeValues.String (str "Kick")) = Ok wire ∧
    (decoder_push wire sample_decoder).1
    = Ok [NativeRequests.Set_ 0xdfdf (NativeValues.String (str "Kick"))].
Proof.
  pose proof (set_value_delivered sample_decoder 0xdfdf (NativeValues.String (str "Kick")) sample_server_ready
    ltac:(unfold in_i32; lia) ltac:(split; [reflexivity|apply Nat.leb_le; reflexivity])) as H.
  destruct (set_value_message 0xdfdf (NativeValues.String (str "Kick"))) as [wire|e] eqn:E;
    [|vm_compute in E; discriminate E].
  exists wire. split; [reflexivity|]. destruct H as [H _]. rewrite H. reflexivity.
Defined.

Lemma requests_delivered_witness :
  (decoder_push (toggle (-1)) sample_decoder).1 = Ok [NativeRequests.Toggle (-1)].
Proof. apply (requests_delivered sample_decoder (-1) sample_server_ready). unfold in_i32. lia. Defined.

Lemma meter_subscription_delivered_witness :
  (decoder_push (request_meter_message 0x1234 7 (concat (map meter_bytes [Meters.Channel 2; Meters.Rta])))
     sample_decoder).1
  = Ok [NativeRequests.KeepAlive 3; NativeRequests.MeterPort 0x1234;
        NativeRequests.MeterSubscribe 0x1234 0x71234 [Meters.Channel 2; Meters.Rta];
        NativeRequests.KeepAlive 1].
Proof.
  edestruct (meter_subscription_delivered sample_decoder (mk_meters None None 7)
    [Meters.Channel 2; Meters.Rta] (Ok 0x1234) (λ _, Ok tt)) as [H _];
    [apply sample_server_ready|apply Nat.leb_le; reflexivity|apply Nat.leb_le; reflexivity| | | | |reflexivity|].
  - each_elem; unfold in_u8; simpl; lia.
  - unfold in_u16. simpl. lia.
  - reflexivity.
  - unfold in_u16. lia.
  - exact (f_equal fst H).
Defined.

Lemma request_meter_ids_witness :
  next_meter_id (request_meter [Meters.Rta] (Ok 5) (λ _, Ok tt) (mk_meters None (Some 65534) 65535)).2 = 0
  ∧ active_meter_id (request_meter [Meters.Rta] (Ok 5) (λ _, Ok tt) (mk_meters None (Some 65534) 65535)).2
    = Some 65535.
Proof.
  pose proof (request_meter_ids [Meters.Rta] (Ok 5) (λ _, Ok tt) (mk_meters None (Some 65534) 65535)
    ltac:(unfold in_u16; simpl; lia)) as H.
  split; [vm_compute; reflexivity|]. apply H.
Defined.
