(* ===== verification/MeterReader.v ===== *)
(** Reading meters ([src/src/console.rs], [_keep_alive_meters], [recv_meter_frame],
    [read_meters_timeout], [read_meters_into]): waiting for the next frame of the console on
    the meter socket while the subscription is kept alive.

    Time is in microseconds and passes while a receive waits; the environment is what the
    socket delivers and when, whether arming its timeout fails, and the outcome of each
    keep-alive write ([arms] and [writes], successes once used up).  [sent] records the
    keep-alives with their times. *)

From stdpp Require Import sorting.
From S2P Require Import Prelude Timer Bytes Lib Utf8 F32 Channel NodeDef NodeData.
From S2P Require Import Meter NativeRequest NativeResponse ClientMessages.
Local Open Scope Z_scope.
Local Open Scope rust_scope.

(** ** Data *)

Definition METER_FRAME_BYTES : nat := 8192.
Definition METERS_KEEP_ALIVE : Z := 3 * 1000 * MILLISECOND.

Inductive Arrival :=
| Datagram (from_peer : bool) (bytes : list byte)
| SocketError (kind : ErrorKind).

Record MeterReader := mk_reader {
  meters : ConsoleMeters;
  keep_alive_timer : Z;
  now : Z;
  incoming : list (Z * Arrival);
  arms : list (option ErrorKind);
  writes : list (option ErrorKind);
  sent : list (Z * list byte);
}.

Definition advance (at_ : Z) (rest : list (Z * Arrival)) (r : MeterReader) : MeterReader :=
  mk_reader (meters r) (keep_alive_timer r) at_ rest (arms r) (writes r) (sent r).

(** ** Operations *)

(** [wsock.write_all(&keepalive)]. *)
Definition write_keep_alive (bytes : list byte) : M MeterReader Error unit := λ r,
  let sent_ := sent r ++ [(now r, bytes)] in
  match writes r with
  | Some kind :: later =>
    (Err (Io kind), mk_reader (meters r) (keep_alive_timer r) (now r) (incoming r) (arms r) later (sent r))
  | None :: later => (Ok tt, mk_reader (meters r) (keep_alive_timer r) (now r) (incoming r) (arms r) later sent_)
  | [] => (Ok tt, mk_reader (meters r) (keep_alive_timer r) (now r) (incoming r) (arms r) [] sent_)
  end.

Definition arm_keep_alive : M MeterReader Error unit := modify (λ r,
  mk_reader (meters r) (now r + METERS_KEEP_ALIVE) (now r) (incoming r) (arms r) (writes r) (sent r)).

(** [_keep_alive_meters]. *)
Definition keep_alive_meters_due : M MeterReader Error unit := λ r,
  if keep_alive_timer r <=? now r then
    (let! keepalive := lift (keep_alive_meters (meters r)) in
     let! _ := match active_meter_id (meters r) with Some _ => write_keep_alive keepalive | None => ret tt end in
     arm_keep_alive) r
  else (Ok tt, r).

(** [socket.set_read_timeout(..)]. *)
Definition set_read_timeout : M MeterReader Error unit := λ r,
  match arms r with
  | outcome :: later =>
    (match outcome with Some kind => Err (Io kind) | None => Ok tt end,
     mk_reader (meters r) (keep_alive_timer r) (now r) (incoming r) later (writes r) (sent r))
  | [] => (Ok tt, r)
  end.

(** [socket.recv_from(buf)] within [wait]: the datagram, cut to the buffer, or the error. *)
Definition recv_from (wait : Z) (r : MeterReader) : result ErrorKind (bool * list byte) * MeterReader :=
  let waited := (Err TimedOut, advance (now r + wait) (incoming r) r) in
  match incoming r with
  | [] => waited
  | (at_, arrival) :: rest =>
    if at_ <=? now r + wait then
      (match arrival with
       | Datagram from_peer bytes => Ok (from_peer, take METER_FRAME_BYTES bytes)
       | SocketError kind => Err kind
       end, advance (Z.max (now r) at_) rest r)
    else waited
  end.

(** From the console, with a header and whole samples. *)
Definition well_formed (from_peer : bool) (frame : list byte) : bool :=
  from_peer && (4 <=? length frame)%nat && ((length frame - 4) mod 2 =? 0)%nat.

Definition recv_wait (deadline : Z) (r : MeterReader) : Z :=
  Z.max (Z.max 0 (Z.min deadline (keep_alive_timer r) - now r)) MILLISECOND.

Fixpoint recv_loop (fuel : nat) (deadline : Z) (r : MeterReader) : option (Result (Z * list byte) * MeterReader) :=
  match fuel with
  | O => None
  | S fuel =>
    match (let! _ := keep_alive_meters_due in
           let! port := gets (λ r, meter_socket_port (meters r)) in
           lift (ok_or port MeterNotInitialized)) r with
    | (Err e, r) => Some (Err e, r)
    | (Ok _, r) =>
      if deadline <=? now r then Some (Err Timeout, r)
      else
        match set_read_timeout r with
        | (Err e, r) => Some (Err e, r)
        | (Ok _, r) =>
          match recv_from (recv_wait deadline r) r with
          | (Ok (from_peer, frame), r) =>
            if well_formed from_peer frame then Some (Ok (from_be (take 2 frame), frame), r)
            else recv_loop fuel deadline r
          | (Err OtherKind, r) => Some (Err ConnectionError, r)
          | (Err _, r) => recv_loop fuel deadline r
          end
        end
    end
  end.

(** A round that goes on has taken an arrival or let a millisecond pass. *)
Definition recv_fuel (deadline : Z) (r : MeterReader) : nat :=
  S (length (incoming r) + rounds_left deadline (now r)).

Definition recv_meter_frame (deadline : Z) (r : MeterReader) : option (Result (Z * list byte) * MeterReader) :=
  recv_loop (recv_fuel deadline r) deadline r.

Definition read_meters_timeout (timeout : Z) (r : MeterReader) : option (Result (Z * list Z) * MeterReader) :=
  match recv_meter_frame (now r + timeout) r with
  | Some (Ok (id, frame), r) => Some (Ok (id, meter_samples (drop 4 frame)), r)
  | Some (Err e, r) => Some (Err e, r)
  | None => None
  end.

Definition read_meters : MeterReader → option (Result (Z * list Z) * MeterReader) :=
  read_meters_timeout METERS_KEEP_ALIVE.

(** With the contents of the caller's buffer after the call. *)
Definition read_meters_into (out : list Z) (r : MeterReader)
    : option (Result (Z * nat) * list Z * MeterReader) :=
  match recv_meter_frame (now r + METERS_KEEP_ALIVE) r with
  | Some (Ok (id, frame), r) =>
    let samples := drop 4 frame in
    let len := (length samples / 2)%nat in
    Some (Ok (id, len),
          if (len <=? length out)%nat then meter_samples samples ++ drop len out else out, r)
  | Some (Err e, r) => Some (Err e, out, r)
  | None => None
  end.

(** ** One round *)

Definition frame_of (bytes : list byte) : list byte := take METER_FRAME_BYTES bytes.

(** An arrival a wait goes past. *)
Definition dropped (ev : Z * Arrival) : Prop :=
  match ev.2 with
  | Datagram from_peer bytes => well_formed from_peer (frame_of bytes) = false
  | SocketError kind => kind ≠ OtherKind
  end.

(** A reader with a meter socket, whose keep-alive is [b], that is not overdue with it. *)
Record metered (r : MeterReader) (b : list byte) : Prop := {
  metered_bytes : keep_alive_meters (meters r) = Ok b;
  metered_due : now r ≤ keep_alive_timer r + MILLISECOND;
}.

(** Outcomes used up between two states: all of them successes, or all but the last. *)
Definition went_well (l l' : list (option ErrorKind)) : Prop :=
  ∃ oks, l = oks ++ l' ∧ Forall (λ o, o = None) oks.
Definition failed_with (kind : ErrorKind) (l l' : list (option ErrorKind)) : Prop :=
  ∃ oks, l = oks ++ Some kind :: l' ∧ Forall (λ o, o = None) oks.

Lemma went_well_trans l l1 l2 : went_well l l1 → went_well l1 l2 → went_well l l2.
Proof.
  intros (a & -> & Ha) (b & -> & Hb). exists (a ++ b). split; [by rewrite (assoc_L (++))|by apply Forall_app].
Qed.

Lemma went_well_failed kind l l1 l2 : went_well l l1 → failed_with kind l1 l2 → failed_with kind l l2.
Proof.
  intros (a & -> & Ha) (b & -> & Hb). exists (a ++ b). split; [by rewrite (assoc_L (++))|by apply Forall_app].
Qed.

Lemma went_well_refl l : went_well l l.
Proof. by exists []. Qed.

Lemma went_well_one l : went_well (None :: l) l.
Proof. exists [None]. split; [done|]. by repeat constructor. Qed.

Lemma failed_one kind l : failed_with kind (Some kind :: l) l.
Proof. by exists []. Qed.

#[local] Hint Resolve went_well_refl went_well_one failed_one : core.

(** What the keep-alives due at these times wrote: nothing without a subscription. *)
Definition kept_sends (st : ConsoleMeters) (b : list byte) (times : list Z) : list (Z * list byte) :=
  match active_meter_id st with Some _ => sends_of b times | None => [] end.

Lemma kept_sends_app st b l1 l2 : kept_sends st b (l1 ++ l2) = kept_sends st b l1 ++ kept_sends st b l2.
Proof. unfold kept_sends, sends_of. case_match; [apply map_app|done]. Qed.

Definition in_order (evs : list (Z * Arrival)) : Prop := StronglySorted (λ e f, e.1 ≤ f.1) evs.

Definition late (deadline : Z) (evs : list (Z * Arrival)) : Prop := Forall (λ ev, deadline ≤ ev.1) evs.

(** How the subscription fared between two states. *)
Definition kept_alive (r r' : MeterReader) (b : list byte) : Prop :=
  ∃ times, sent r' = sent r ++ kept_sends (meters r) b times ∧ on_time (keep_alive_timer r) METERS_KEEP_ALIVE times
    ∧ keep_alive_timer r' = due_after (keep_alive_timer r) METERS_KEEP_ALIVE times
    ∧ meters r' = meters r ∧ metered r' b ∧ went_well (arms r) (arms r') ∧ went_well (writes r) (writes r').

(** Arming the timeout failed, or the write of a keep-alive, which stays due. *)
Definition broke (kind : ErrorKind) (r r' : MeterReader) : Prop :=
  failed_with kind (arms r) (arms r') ∧ went_well (writes r) (writes r')
  ∨ went_well (arms r) (arms r') ∧ failed_with kind (writes r) (writes r') ∧ keep_alive_timer r' ≤ now r'.

(** The same when the wait ended there. *)
Definition fared {A} (res : Result A) (r r' : MeterReader) (b : list byte) : Prop :=
  match res with
  | Err (Io kind) =>
      (∃ times, sent r' = sent r ++ kept_sends (meters r) b times ∧ on_time (keep_alive_timer r) METERS_KEEP_ALIVE times)
      ∧ broke kind r r'
  | _ => kept_alive r r' b
  end.

Lemma kept_alive_refl r b : metered r b → kept_alive r r b.
Proof. intros H. exists []. unfold kept_sends. destruct (active_meter_id _); rewrite app_nil_r; by split_and!. Qed.

Lemma kept_alive_trans r r1 r2 b : kept_alive r r1 b → kept_alive r1 r2 b → kept_alive r r2 b.
Proof.
  intros (t1 & S1 & O1 & D1 & M1 & _ & A1 & W1) (t2 & S2 & O2 & D2 & M2 & H & A2 & W2). exists (t1 ++ t2).
  rewrite D1 in O2, D2. rewrite M1 in S2, M2. rewrite kept_sends_app, due_after_app.
  split_and!; [|by apply on_time_app|done|done|done|by eapply went_well_trans..].
  by rewrite S2, S1, (assoc_L (++)).
Qed.

Lemma kept_alive_fared {A} (res : Result A) r r1 r2 b :
  kept_alive r r1 b → fared res r1 r2 b → fared res r r2 b.
Proof.
  intros K F. destruct res as [?|[]]; try by eapply kept_alive_trans. cbn [fared] in *.
  destruct K as (t1 & S1 & O1 & D1 & M1 & _ & A1 & W1), F as [(t2 & S2 & O2) F]. split.
  - exists (t1 ++ t2). rewrite D1 in O2. rewrite M1 in S2. rewrite kept_sends_app.
    split; [by rewrite S2, S1, (assoc_L (++))|by apply on_time_app].
  - destruct F as [[F1 F2]|(F1 & F2 & F3)]; [left|right]; split_and?;
      try (by eapply went_well_failed); try (by eapply went_well_trans); done.
Qed.

(** The keep-alive at the head of a round. *)
Lemma keep_alive_step r b :
  metered r b →
  (∃ r1, keep_alive_meters_due r = (Ok tt, r1) ∧ kept_alive r r1 b ∧ now r1 = now r ∧ incoming r1 = incoming r
    ∧ now r1 ≤ keep_alive_timer r1)
  ∨ ∃ kind r1, keep_alive_meters_due r = (Err (Io kind), r1) ∧ sent r1 = sent r ∧ now r1 = now r
      ∧ incoming r1 = incoming r ∧ broke kind r r1.
Proof.
  intros [Hb Hd]. unfold keep_alive_meters_due.
  destruct (Z.leb_spec (keep_alive_timer r) (now r)) as [Hdue|Hdue].
  - unfold bind, lift. rewrite Hb. cbv beta iota.
    assert (Hnext : ∀ ws (se : list (Z * list byte)), went_well (writes r) ws → se = sent r ++ kept_sends (meters r) b [now r] →
      kept_alive r (mk_reader (meters r) (now r + METERS_KEEP_ALIVE) (now r) (incoming r) (arms r) ws se) b).
    { intros ws se Hw ->. exists [now r]. cbn. split_and!; [done|lia|lia|done|done|done| |done|done].
      split; [done|]. cbn. unfold METERS_KEEP_ALIVE, MILLISECOND. lia. }
    unfold kept_sends in Hnext. destruct (active_meter_id (meters r)) as [id|] eqn:Hid.
    + unfold write_keep_alive. destruct (writes r) as [|[kind|] later] eqn:Hw.
      * left. eexists. split; [done|]. split_and!; [by apply Hnext|done|done|]. cbn. unfold METERS_KEEP_ALIVE, MILLISECOND. lia.
      * right. eexists kind, _. split; [done|]. split_and!; [done..|]. right. rewrite Hw. by split_and!.
      * left. eexists. split; [done|]. split_and!; [by apply Hnext|done|done|]. cbn. unfold METERS_KEEP_ALIVE, MILLISECOND. lia.
    + left. eexists. split; [done|]. split_and!; [apply Hnext; [done|by rewrite app_nil_r]|done|done|].
      cbn. unfold METERS_KEEP_ALIVE, MILLISECOND. lia.
  - left. exists r. split_and!; [done|by apply kept_alive_refl|done|done|lia].
Qed.

Lemma recv_wait_bound deadline r :
  now r ≤ keep_alive_timer r →
  MILLISECOND ≤ recv_wait deadline r ∧ now r + recv_wait deadline r ≤ keep_alive_timer r + MILLISECOND
  ∧ (now r < deadline → now r + recv_wait deadline r < deadline + MILLISECOND).
Proof. unfold recv_wait, MILLISECOND. lia. Qed.

(** A receive takes the first arrival within its wait, or waits it out. *)
Lemma recv_from_spec wait r :
  0 ≤ wait → in_order (incoming r) →
  (recv_from wait r = (Err TimedOut, advance (now r + wait) (incoming r) r) ∧ late (now r + wait) (incoming r))
  ∨ ∃ ev rest, incoming r = ev :: rest ∧ ev.1 ≤ now r + wait ∧ late (ev.1) rest ∧ in_order rest
      ∧ recv_from wait r = (match ev.2 with
                            | Datagram p bytes => Ok (p, frame_of bytes)
                            | SocketError kind => Err kind
                            end, advance (Z.max (now r) ev.1) rest r).
Proof.
  intros Hw Hs. unfold recv_from. destruct (incoming r) as [|[at_ a] rest] eqn:E; [left; split; [done|constructor]|].
  apply StronglySorted_inv in Hs as [Hs Hr].
  destruct (Z.leb_spec at_ (now r + wait)) as [Hle|Hgt].
  - right. exists (at_, a), rest. by split_and!.
  - left. split; [done|]. constructor; [cbn; lia|]. eapply list.Forall_impl; [exact Hr|]. cbn. intros; lia.
Qed.

(** Time that passes within a round keeps the subscription. *)
Lemma advance_metered r b at_ rest :
  metered r b → at_ ≤ keep_alive_timer r + MILLISECOND → kept_alive r (advance at_ rest r) b.
Proof.
  intros [H1 H2] Hat. exists []. unfold kept_sends. destruct (active_meter_id _); rewrite app_nil_r; by split_and!.
Qed.

(** ** The wait *)

(** What a wait took and returned. *)
Definition received (deadline : Z) (r r' : MeterReader) (res : Result (Z * list byte)) : Prop :=
  ∃ skipped, Forall dropped skipped ∧
    match res with
    | Ok (id, frame) => ∃ at_ bytes, incoming r = skipped ++ (at_, Datagram true bytes) :: incoming r'
        ∧ frame = frame_of bytes ∧ well_formed true frame = true ∧ id = from_be (take 2 frame)
    | Err Timeout => incoming r = skipped ++ incoming r' ∧ deadline ≤ now r' ∧ late deadline (incoming r')
    | Err ConnectionError => ∃ at_, incoming r = skipped ++ (at_, SocketError OtherKind) :: incoming r'
    | Err (Io _) => incoming r = skipped ++ incoming r'
    | Err _ => False
    end.

Lemma received_skip deadline r r1 r' res ev :
  incoming r = ev :: incoming r1 → dropped ev → received deadline r1 r' res → received deadline r r' res.
Proof.
  intros Hi Hd (skipped & Hs & H). exists (ev :: skipped). split; [by constructor|]. rewrite Hi.
  destruct res as [[id frame]|[]]; cbn [app]; try done.
  - destruct H as (at_ & bytes & -> & H). by exists at_, bytes.
  - by rewrite H.
  - destruct H as (at_ & ->). by exists at_.
  - by destruct H as (-> & H).
Qed.

Lemma received_same deadline r r1 r' res :
  incoming r1 = incoming r → received deadline r1 r' res → received deadline r r' res.
Proof. unfold received. by intros ->. Qed.

(** What a loop, or the rest of one, does from [r]. *)
Definition loop_ok (o : option (Result (Z * list byte) * MeterReader)) (deadline : Z) (r : MeterReader) (b : list byte) : Prop :=
  ∃ res r', o = Some (res, r') ∧ fared res r r' b ∧ now r' < deadline + MILLISECOND ∧ received deadline r r' res.

(** A round that only waited, or dropped an arrival. *)
Lemma loop_ok_later o deadline r r2 b :
  kept_alive r r2 b →
  incoming r = incoming r2 ∨ (∃ ev, incoming r = ev :: incoming r2 ∧ dropped ev) →
  loop_ok o deadline r2 b → loop_ok o deadline r b.
Proof.
  intros K Hi (res & r' & E & K' & N & R). exists res, r'. split_and!; [done|by eapply kept_alive_fared|done|].
  destruct Hi as [Hi|(ev & Hi & Hd)]; [by apply (received_same _ _ r2)|by eapply received_skip].
Qed.

Lemma kept_alive_metered r r' b : kept_alive r r' b → metered r' b.
Proof. by intros (? & _ & _ & _ & _ & ? & _). Qed.

Lemma metered_port r b : metered r b → is_Some (meter_socket_port (meters r)).
Proof.
  intros [Hb _]. unfold keep_alive_meters in Hb. by destruct (meter_socket_port (meters r)).
Qed.

(** Arming the timeout of a receive. *)
Lemma set_read_timeout_ok r b :
  metered r b →
  (∃ r1, set_read_timeout r = (Ok tt, r1) ∧ kept_alive r r1 b ∧ now r1 = now r ∧ incoming r1 = incoming r
    ∧ keep_alive_timer r1 = keep_alive_timer r)
  ∨ ∃ kind r1, set_read_timeout r = (Err (Io kind), r1) ∧ sent r1 = sent r ∧ now r1 = now r
      ∧ incoming r1 = incoming r ∧ broke kind r r1.
Proof.
  intros [Hb Hd]. unfold set_read_timeout. destruct (arms r) as [|[kind|] later] eqn:Ha.
  - left. exists r. split_and!; [done|by apply kept_alive_refl|done..].
  - right. eexists kind, _. split; [done|]. split_and!; [done..|]. left. rewrite Ha. by split_and!.
  - left. eexists. split; [done|]. split_and!; [|done..]. exists []. unfold kept_sends.
    destruct (active_meter_id _); rewrite app_nil_r, Ha; by split_and!.
Qed.

Lemma loop_ok_broke deadline r r1 b kind :
  broke kind r r1 → sent r1 = sent r → now r1 < deadline + MILLISECOND → incoming r1 = incoming r →
  loop_ok (Some (Err (Io kind), r1)) deadline r b.
Proof.
  intros Hb Hs Hn Hi. eexists _, r1. split_and!; [done| |done|by exists []]. split; [|done].
  exists []. unfold kept_sends. split; [|done]. by destruct (active_meter_id _); rewrite app_nil_r.
Qed.

Lemma late_weaken d d' evs : d ≤ d' → late d' evs → late d evs.
Proof. intros Hd H. eapply list.Forall_impl; [exact H|]. cbn. intros; lia. Qed.

Lemma recv_loop_spec fuel deadline r b :
  metered r b → in_order (incoming r) → (deadline ≤ now r → late deadline (incoming r)) →
  now r < deadline + MILLISECOND →
  (length (incoming r) + rounds_left deadline (now r) < fuel)%nat →
  loop_ok (recv_loop fuel deadline r) deadline r b.
Proof.
  revert r. induction fuel as [|fuel IH]; intros r Ha Hs Hl Hn Hf; [lia|]. cbn [recv_loop].
  destruct (keep_alive_step r b Ha) as [(r1 & E1 & K1 & N1 & I1 & D1)|(kind & r1 & E1 & S1 & N1 & I1 & B1)]; unfold bind; rewrite E1.
  2: { apply loop_ok_broke; [done|done|lia|done]. }
  pose proof (kept_alive_metered _ _ _ K1) as A1. destruct (metered_port r1 b A1) as [port Hport].
  unfold gets, lift. rewrite Hport. cbn [ok_or]. rewrite <- N1, <- I1 in *.
  eapply loop_ok_later; [exact K1|by left|]. destruct (Z.leb_spec deadline (now r1)) as [Hdl|Hdl].
  { exists (Err Timeout), r1. split_and!; [done|by apply kept_alive_refl|done|].
    exists []. split; [constructor|]. split_and!; [done|done|by apply Hl]. }
  destruct (set_read_timeout_ok r1 b A1) as [(r1' & E2 & K2' & N2 & I2 & D2)|(kind & r1' & E2 & S2 & N2 & I2 & B2)]; rewrite E2.
  2: { apply loop_ok_broke; [done|done|lia|done]. }
  eapply loop_ok_later; [exact K2'|by left|]. pose proof (kept_alive_metered _ _ _ K2') as A2.
  rewrite <- N2, <- I2, <- D2 in *. clear r1 E1 K1 A1 Hport E2 K2' N1 I1 N2 I2 D2. rename r1' into r1, A2 into A1.
  destruct (recv_wait_bound deadline r1 D1) as (W1 & W2 & W3). specialize (W3 Hdl).
  assert (0 ≤ recv_wait deadline r1) by (unfold MILLISECOND in *; lia).
  destruct (recv_from_spec (recv_wait deadline r1) r1) as [(-> & Hlate)|(ev & rest & Ei & Hev & Hlate & Hs2 & ->)]; [done|done| |].
  - set (r2 := advance _ _ r1). assert (K2 : kept_alive r1 r2 b) by (apply advance_metered; [done|lia]).
    eapply loop_ok_later; [exact K2|by left|]. apply IH; [by eapply kept_alive_metered|exact Hs| |exact W3|].
    + intros Hd. by apply (late_weaken _ (now r2)).
    + assert (rounds_left deadline (now r2) < rounds_left deadline (now r1))%nat
        by (apply rounds_left_step; [lia|]; change (now r2) with (now r1 + recv_wait deadline r1); lia).
      change (incoming r2) with (incoming r1). lia.
  - set (r2 := advance _ _ r1). assert (K2 : kept_alive r1 r2 b) by (apply advance_metered; [done|lia]).
    assert (N2 : now r2 < deadline + MILLISECOND) by (cbn; lia).
    assert (Hnext : dropped ev → loop_ok (recv_loop fuel deadline r2) deadline r1 b).
    { intros Hd. eapply loop_ok_later; [exact K2|right; by exists ev|].
      apply IH; [by eapply kept_alive_metered|exact Hs2| |exact N2|].
      - cbn. intros Hx. eapply late_weaken; [|exact Hlate]. lia.
      - assert (rounds_left deadline (now r2) ≤ rounds_left deadline (now r1))%nat
          by (apply rounds_left_le; change (now r2) with (Z.max (now r1) ev.1); lia).
        rewrite Ei in Hf. cbn [length] in Hf. change (incoming r2) with rest. lia. }
    destruct ev as [at_ [p bytes|kind]]; cbn [snd fst] in *.
    + destruct (well_formed p (frame_of bytes)) eqn:Ew; [|by apply Hnext]. assert (p = true) as -> by (by destruct p).
      eexists _, r2. split_and!; [done|done|done|]. exists []. split; [constructor|]. by exists at_, bytes.
    + destruct kind; [by apply Hnext..|]. eexists _, r2. split_and!; [done|done|done|].
      exists []. split; [constructor|]. by exists at_.
Qed.

(** ** The samples *)

Lemma i16_bytes a c : to_be 2 (i16_from_be [a; c]) = [a; c].
Proof.
  unfold i16_from_be. rewrite <- (to_be_mod 2 2) by lia. change (256 ^ Z.of_nat 2) with (2 ^ 16).
  rewrite wrap_signed_unsigned by lia. change (2 ^ 16) with (256 ^ Z.of_nat 2). rewrite to_be_mod by lia.
  apply (to_from_be [a; c]).
Qed.

Lemma meter_samples_bytes l :
  (length l mod 2 = 0)%nat → concat (map (to_be 2) (meter_samples l)) = l ∧ Forall in_i16 (meter_samples l)
    ∧ length (meter_samples l) = (length l / 2)%nat.
Proof.
  assert (∀ n l, length l = (2 * n)%nat → concat (map (to_be 2) (meter_samples l)) = l ∧ Forall in_i16 (meter_samples l)
    ∧ length (meter_samples l) = n) as H.
  { clear l. induction n as [|n IH]; intros [|a [|c l]] Hl; cbn [length] in Hl; try lia; [by repeat constructor|].
    destruct (IH l) as (H1 & H2 & H3); [lia|]. cbn [meter_samples map concat length]. rewrite H1, H3. split_and!; [|by constructor; [apply i16_from_be_bound|]|done].
    change (a :: c :: l) with ([a; c] ++ l). f_equal. by apply i16_bytes. }
  intros Hm. apply H. pose proof (Nat.div_mod_eq (length l) 2). lia.
Qed.

Lemma well_formed_parts frame :
  well_formed true frame = true →
  ∃ pad, frame = to_be 2 (from_be (take 2 frame)) ++ pad ++ concat (map (to_be 2) (meter_samples (drop 4 frame)))
    ∧ length pad = 2%nat ∧ in_u16 (from_be (take 2 frame)) ∧ Forall in_i16 (meter_samples (drop 4 frame))
    ∧ length (meter_samples (drop 4 frame)) = (length (drop 4 frame) / 2)%nat.
Proof.
  unfold well_formed. cbn [andb]. intros [H4%Nat.leb_le Hm%Nat.eqb_eq]%andb_true_iff.
  rewrite <- length_drop in Hm. destruct (meter_samples_bytes _ Hm) as (Hb & Hi & Hl).
  assert (H2 : length (take 2 frame) = 2%nat) by (rewrite length_take; lia).
  exists (take 2 (drop 2 frame)). split_and!; [|rewrite length_take, length_drop; lia|by apply from_be_u16_bound|done|done].
  rewrite Hb. pose proof (to_from_be (take 2 frame)) as E. rewrite H2 in E. rewrite E.
  rewrite <- (take_drop 2 frame) at 1. f_equal. rewrite <- (take_drop 2 (drop 2 frame)) at 1. by rewrite drop_drop.
Qed.

(** A caller that paused: what is overdue at the start is due now. *)
Definition caught_up (r : MeterReader) : MeterReader :=
  mk_reader (meters r) (Z.max (keep_alive_timer r) (now r)) (now r) (incoming r) (arms r) (writes r) (sent r).

Lemma caught_up_loop fuel deadline r b :
  keep_alive_meters (meters r) = Ok b →
  recv_loop (S fuel) deadline r = recv_loop (S fuel) deadline (caught_up r)
  ∨ ∃ kind r', recv_loop (S fuel) deadline r = Some (Err (Io kind), r') ∧ incoming r' = incoming r
      ∧ sent r' = sent r ∧ now r' = now r ∧ broke kind r r'.
Proof.
  intros Hb. destruct (Z.leb_spec (keep_alive_timer r) (now r)) as [Hdue|Hdue].
  2: { left. f_equal. destruct r. unfold caught_up. cbn in *. by rewrite Z.max_l by lia. }
  cbn [recv_loop]. unfold keep_alive_meters_due, bind, lift. cbn [caught_up keep_alive_timer now meters].
  rewrite (proj2 (Z.leb_le (keep_alive_timer r) (now r))), (proj2 (Z.leb_le (Z.max _ _) (now r))) by lia.
  rewrite Hb. cbv beta iota. destruct (active_meter_id (meters r)) as [id|]; [|by left].
  unfold write_keep_alive. change (writes (caught_up r)) with (writes r). destruct (writes r) as [|[kind|] later] eqn:Hw; [by left| |by left].
  right. eexists kind, _. split; [done|]. split_and!; [done..|]. right. rewrite Hw. by split_and!.
Qed.

(** A wait that starts before its deadline. *)
Lemma recv_meter_frame_ok timeout r b :
  keep_alive_meters (meters r) = Ok b → in_order (incoming r) → 0 < timeout →
  ∃ res r' times, recv_meter_frame (now r + timeout) r = Some (res, r')
    ∧ sent r' = sent r ++ kept_sends (meters r) b times
    ∧ on_time (Z.max (keep_alive_timer r) (now r)) METERS_KEEP_ALIVE times
    ∧ now r' < now r + timeout + MILLISECOND ∧ received (now r + timeout) r r' res
    ∧ match res with
      | Err (Io kind) => broke kind r r'
      | _ => keep_alive_timer r' = due_after (Z.max (keep_alive_timer r) (now r)) METERS_KEEP_ALIVE times
          ∧ now r' ≤ keep_alive_timer r' + MILLISECOND ∧ went_well (arms r) (arms r') ∧ went_well (writes r) (writes r')
      end.
Proof.
  intros Hb Hs Ht. unfold recv_meter_frame, recv_fuel.
  destruct (caught_up_loop (length (incoming r) + rounds_left (now r + timeout) (now r)) (now r + timeout) r b Hb)
    as [->|(kind & r' & -> & Hi & Hse & Hn & Hbr)].
  - destruct (recv_loop_spec (S (length (incoming r) + rounds_left (now r + timeout) (now r))) (now r + timeout) (caught_up r) b)
      as (res & r' & E & F & N & R); cbn [caught_up incoming now] in *;
      [split; [done|cbn; unfold MILLISECOND; lia]|done|lia|unfold MILLISECOND; lia|lia|].
    destruct res as [?|[]]; cbn [fared] in F;
      try (destruct F as (times & F1 & F2 & F3 & _ & [_ F5] & F6 & F7); eexists _, r', times; by split_and!).
    destruct F as [(times & F1 & F2) F]. eexists _, r', times. by split_and!.
  - eexists _, r', []. unfold kept_sends. split_and!; [done| |done|unfold MILLISECOND; lia|by exists []|done].
    by destruct (active_meter_id _); rewrite app_nil_r.
Qed.

Lemma recv_meter_frame_no_socket deadline r :
  meter_socket_port (meters r) = None →
  recv_meter_frame deadline r = Some (Err MeterNotInitialized, r).
Proof.
  intros Hp. unfold recv_meter_frame, recv_fuel. cbn [recv_loop]. unfold bind, keep_alive_meters_due.
  destruct (keep_alive_timer r <=? now r).
  - unfold bind, lift, keep_alive_meters. by rewrite Hp.
  - unfold gets, lift. by rewrite Hp.
Qed.

(** [read_meters_into] is [read_meters] into the caller's buffer, or nothing at all when
    that is too small, with the room it would have taken. *)
Lemma read_meters_into_ok out r b :
  keep_alive_meters (meters r) = Ok b → in_order (incoming r) →
  ∃ res r', read_meters r = Some (res, r') ∧
    read_meters_into out r = Some (match res with
      | Ok (id, samples) => (Ok (id, length samples),
          if (length samples <=? length out)%nat then samples ++ drop (length samples) out else out)
      | Err e => (Err e, out)
      end, r').
Proof.
  intros Ha Hs. destruct (recv_meter_frame_ok METERS_KEEP_ALIVE r b) as (res & r' & _ & E & _ & _ & _ & (sk & _ & R) & _); [done|done|reflexivity|].
  unfold read_meters, read_meters_timeout, read_meters_into. rewrite E. destruct res as [[id frame]|e]; [|by eexists _, _].
  destruct R as (at_ & bytes & _ & _ & Hw & _). destruct (well_formed_parts frame Hw) as (_ & _ & _ & _ & _ & Hl).
  exists (Ok (id, meter_samples (drop 4 frame))), r'. split; [done|]. cbv iota beta. by rewrite Hl.
Qed.

(** *** Property *)

(** C19: waiting for a meter frame returns within its timeout, keeps the subscription alive and
    takes only what the console sends, whatever the socket, the arming of its timeout and
    the keep-alive writes do. Without a meter socket it fails at once. With one, the first
    keep-alive is sent at once when it is overdue (a caller that paused), otherwise each when
    it is due, never early and at most a millisecond late, and none without a subscription;
    the frame returned is the first datagram of the console that has a header and whole
    samples, and its bytes are exactly its report id, two bytes, and the samples returned;
    everything it passed over was something else. A timeout is reported only once the time
    has passed and what is still to come arrives after it; a socket error is a lost
    connection; and an I/O error is the first failure to arm the timeout or to write a
    keep-alive, which then stays due. The arrivals come in order of their times. *)
Theorem read_meters_exact timeout r :
  in_order (incoming r) → 0 < timeout →
  match keep_alive_meters (meters r) with
  | Err e => e = MeterNotInitialized ∧ read_meters_timeout timeout r = Some (Err MeterNotInitialized, r)
  | Ok b =>
    ∃ res r' times skipped, read_meters_timeout timeout r = Some (res, r')
      ∧ sent r' = sent r ++ kept_sends (meters r) b times
      ∧ on_time (Z.max (keep_alive_timer r) (now r)) METERS_KEEP_ALIVE times
      ∧ now r' < now r + timeout + MILLISECOND
      ∧ match res with
        | Err (Io _) => True
        | _ => keep_alive_timer r' = due_after (Z.max (keep_alive_timer r) (now r)) METERS_KEEP_ALIVE times
            ∧ now r' ≤ keep_alive_timer r' + MILLISECOND
            ∧ went_well (arms r) (arms r') ∧ went_well (writes r) (writes r')
        end
      ∧ Forall dropped skipped
      ∧ match res with
        | Ok (id, samples) => ∃ at_ bytes pad, incoming r = skipped ++ (at_, Datagram true bytes) :: incoming r'
            ∧ take METER_FRAME_BYTES bytes = to_be 2 id ++ pad ++ concat (map (to_be 2) samples)
            ∧ length pad = 2%nat ∧ in_u16 id ∧ Forall in_i16 samples
        | Err Timeout => incoming r = skipped ++ incoming r' ∧ now r + timeout ≤ now r'
            ∧ Forall (λ ev, now r + timeout ≤ ev.1) (incoming r')
        | Err ConnectionError => ∃ at_, incoming r = skipped ++ (at_, SocketError OtherKind) :: incoming r'
        | Err (Io kind) => incoming r = skipped ++ incoming r'
            ∧ (failed_with kind (arms r) (arms r') ∧ went_well (writes r) (writes r')
               ∨ went_well (arms r) (arms r') ∧ failed_with kind (writes r) (writes r')
                 ∧ keep_alive_timer r' ≤ now r')
        | Err _ => False
        end
  end.
Proof.
  intros Hs Ht. destruct (keep_alive_meters (meters r)) as [b|e] eqn:Hb.
  - destruct (recv_meter_frame_ok timeout r b Hb Hs Ht) as (res & r' & times & E & S & O & N & (sk & Hsk & R) & K).
    unfold read_meters_timeout. rewrite E. destruct res as [[id frame]|e].
    + eexists _, r', times, sk. split_and!; [done..|]. cbn iota.
      destruct R as (at_ & bytes & Hi & -> & Hw & ->). destruct (well_formed_parts _ Hw) as (pad & Hp & Hl & Hu & Hz & _).
      exists at_, bytes, pad. by split_and!.
    + eexists _, r', times, sk. split_and!; [done..| |done|]; by destruct e.
  - assert (Hp : meter_socket_port (meters r) = None).
    { unfold keep_alive_meters in Hb. by destruct (meter_socket_port (meters r)). }
    split.
    + unfold keep_alive_meters in Hb. rewrite Hp in Hb. by injection Hb as <-.
    + unfold read_meters_timeout. by rewrite recv_meter_frame_no_socket.
Qed.

(** *** Witness *)

(** A keep-alive due in a second; a datagram of a stranger, one of odd length, the frame. *)
Definition sample_meter_reader : MeterReader :=
  mk_reader (mk_meters (Some 5000) (Some 4) 5) 1000000 0
    [(10, Datagram false [b8 0; b8 4; b8 0; b8 0; b8 1; b8 2]); (20, Datagram true [b8 0; b8 4; b8 0]);
     (1500000, Datagram true [b8 0; b8 4; b8 0; b8 0; b8 0xff; b8 0xfe])] [] [] [].

Lemma read_meters_exact_witness :
  ∃ r' b, read_meters sample_meter_reader = Some (Ok (4, [-2]), r')
    ∧ sent r' = [(1000000, b)] ∧ keep_alive_meters (meters sample_meter_reader) = Ok b.
Proof.
  pose proof (read_meters_exact METERS_KEEP_ALIVE sample_meter_reader) as H.
  destruct (keep_alive_meters (meters sample_meter_reader)) as [b|] eqn:Eb; [|vm_compute in Eb; discriminate].
  destruct H as (res & r' & times & sk & E & S & _).
  - repeat constructor; vm_compute; discriminate.
  - reflexivity.
  - exists r', b. change (read_meters sample_meter_reader) with (read_meters_timeout METERS_KEEP_ALIVE sample_meter_reader).
    assert (F := E). apply (f_equal (fmap (M := option) fst)) in F. cbn [fmap option_fmap option_map fst] in F.
    vm_compute in F. injection F as <-. split; [exact E|]. split; [|reflexivity].
    apply (f_equal (fmap (M := option) (λ p, map fst (sent p.2)))) in E. cbn [fmap option_fmap option_map snd] in E.
    rewrite S in E. cbn [sent sample_meter_reader app] in E. vm_compute in E.
    destruct times as [|t [|]]; [discriminate E| |discriminate E]. injection E as <-. rewrite S. reflexivity.
Defined.
