(* ===== verification/ResponseReader.v ===== *)
(** The client-side response parser ([src/src/console.rs], [read_inner] and the
    [read_u8] .. [read_f] helpers), over any source of de-escaped bytes.

    [decode_next] is the only way the parser gets at the wire, so the parser is written
    against the class [ByteSource]: a next byte or a reason to stop, and the current node
    id the parser keeps between responses.  The client's session implements the class in
    [ClientReader]; the instance here, a plain list of bytes, is the specification of what
    a byte stream means.  [Preserves] and [sim] carry facts about the source to every
    parser built from it. *)

From S2P Require Import Prelude Bytes Lib Utf8 F32 Cursor Channel NodeDef.
From S2P Require Import NodeData Meter NativeRequest NativeResponse.
Local Open Scope Z_scope.
Local Open Scope rust_scope.

(** ** Data *)

Module WingResponses.
Inductive WingResponse :=
| RequestEnd
| NodeDef (def : WingNodeDef)
| NodeData (id : Z) (data : WingNodeData).
End WingResponses.
Abbreviation WingResponse := WingResponses.WingResponse.

#[export] Instance WingResponse_eq_dec : EqDecision WingResponse.
Proof. solve_decision. Defined.

(** Why a read stopped: with an error, or still waiting for the wire. *)
Inductive Stop := Fail (e : Error) | Blocked.

#[export] Instance Stop_eq_dec : EqDecision Stop.
Proof. solve_decision. Defined.

(** [MAX_NODE_DEF_BYTES]. *)
Definition MAX_NODE_DEF_BYTES : Z := 1024 * 1024.

(** ** The source of bytes *)

Class ByteSource (S : Type) := {
  next_byte : M S Stop byte;
  current_node : S → Z;
  set_current_node : Z → S → S;
  remaining : S → nat;
}.

(** Every byte delivered uses up some of what remains, from the states the source
    promises to work in, and leads to such a state. *)
Class ByteSourceLaws (S : Type) `{ByteSource S} := {
  source_inv : S → Prop;
  next_byte_less s b s' :
    source_inv s → next_byte s = (Ok b, s') → source_inv s' ∧ (remaining s' < remaining s)%nat;
  set_current_node_same i s : remaining (set_current_node i s) = remaining s;
  set_current_node_inv i s : source_inv s → source_inv (set_current_node i s);
}.

(** ** The parser *)

Section Parser.
Context {S : Type} `{ByteSource S}.

Definition read_u8 : M S Stop Z := let! b := next_byte in ret (u8 b).

Definition read_i8 : M S Stop Z := let! b := next_byte in ret (i8 b).

Definition read_u16 : M S Stop Z :=
  let! a := next_byte in
  let! b := next_byte in
  ret (Z.lor (Z.shiftl (u8 a) 8) (u8 b)).

Definition read_i16 : M S Stop Z := let! v := read_u16 in ret (wrap_signed 16 v).

Definition read_u32 : M S Stop Z :=
  let! a := next_byte in
  let! b := next_byte in
  let! c := next_byte in
  let! d := next_byte in
  ret (Z.lor (Z.lor (Z.lor (Z.shiftl (u8 a) 24) (Z.shiftl (u8 b) 16)) (Z.shiftl (u8 c) 8)) (u8 d)).

Definition read_i32 : M S Stop Z := let! v := read_u32 in ret (wrap_signed 32 v).

(** [for _ in 0..len { decode_next }], with the bytes read. *)
Fixpoint read_bytes (len : nat) : M S Stop (list byte) :=
  match len with
  | O => ret []
  | Datatypes.S len => let! b := next_byte in let! l := read_bytes len in ret (b :: l)
  end.

Definition fallible {A} (r : Result A) : M S Stop A :=
  match r with Ok a => ret a | Err e => throw (Fail e) end.

Definition read_string (len : nat) : M S Stop (list byte) :=
  let! buf := read_bytes len in fallible (from_utf8 InvalidData buf).

Definition read_f : M S Stop f32 :=
  let! a := next_byte in
  let! b := next_byte in
  let! c := next_byte in
  let! d := next_byte in
  ret (F32 (Z.lor (Z.lor (Z.lor (Z.shiftl (u8 a) 24) (Z.shiftl (u8 b) 16)) (Z.shiftl (u8 c) 8)) (u8 d))).

Definition node_data (d : WingNodeData) : M S Stop (option WingResponse) :=
  let! id := gets current_node in ret (Some (WingResponses.NodeData id d)).

Definition read_node_def : M S Stop (option WingResponse) :=
  let! short_len := read_u16 in
  let! def_len := (if short_len =? 0 then read_u32 else ret short_len) in
  if MAX_NODE_DEF_BYTES <? def_len then throw (Fail InvalidData)
  else
    let! raw := read_bytes (Z.to_nat def_len) in
    let! def := fallible (try_from_bytes raw) in
    ret (Some (WingResponses.NodeDef def)).

(** One turn of the loop of [read_inner] after its opcode: a response, or [None] to go
    round again. *)
Definition read_command (cmd : Z) : M S Stop (option WingResponse) :=
  if cmd <=? 0x3f then node_data (with_i32 cmd)
  else if cmd <=? 0x7f then ret None
  else if cmd <=? 0xbf then
    let! v := read_string (Z.to_nat (cmd - 0x80 + 1)) in node_data (with_string v)
  else if cmd <=? 0xcf then
    let! _ := read_bytes (Z.to_nat (cmd - 0xc0 + 1)) in ret None
  else if cmd =? 0xd0 then node_data (with_string [])
  else if cmd =? 0xd1 then
    let! len := read_u8 in
    let! v := read_string (Z.to_nat (len + 1)) in node_data (with_string v)
  else if cmd =? 0xd2 then let! _ := read_u16 in ret None
  else if cmd =? 0xd3 then let! v := read_i16 in node_data (with_i16 v)
  else if cmd =? 0xd4 then let! v := read_i32 in node_data (with_i32 v)
  else if (cmd =? 0xd5) || (cmd =? 0xd6) then let! v := read_f in node_data (with_float v)
  else if cmd =? 0xd7 then
    let! id := read_i32 in
    let! _ := modify (set_current_node id) in ret None
  else if cmd =? 0xd8 then ret None
  else if cmd =? 0xd9 then let! _ := read_i8 in ret None
  else if (cmd =? 0xda) || (cmd =? 0xdb) || (cmd =? 0xdc) || (cmd =? 0xdd) then ret None
  else if cmd =? 0xde then ret (Some WingResponses.RequestEnd)
  else if cmd =? 0xdf then read_node_def
  else throw (Fail InvalidData).

Definition read_token : M S Stop (option WingResponse) :=
  let! b := next_byte in read_command (u8 b).

Fixpoint read_loop (fuel : nat) : M S Stop WingResponse :=
  match fuel with
  | O => throw Blocked
  | Datatypes.S fuel =>
    let! r := read_token in
    match r with Some response => ret response | None => read_loop fuel end
  end.

(** [read_inner]: a turn consumes at least a byte, so what remains bounds the turns. *)
Definition read_inner : M S Stop WingResponse := λ s, read_loop (Datatypes.S (remaining s)) s.

End Parser.

(** ** The specification: a list of bytes *)

Record ByteStream := mk_stream { stream : list byte; stream_node : Z }.

#[export] Instance stream_source : ByteSource ByteStream := {|
  next_byte := λ s,
    match stream s with
    | [] => (Err Blocked, s)
    | b :: rest => (Ok b, mk_stream rest (stream_node s))
    end;
  current_node := stream_node;
  set_current_node := λ id s, mk_stream (stream s) id;
  remaining := λ s, length (stream s);
|}.

#[export] Instance stream_laws : ByteSourceLaws ByteStream.
Proof.
  apply (Build_ByteSourceLaws _ _ (λ _, True)); try done.
  intros [[|c l] n] b s' _ E; simplify_eq/=. split; [done|lia].
Defined.

(** Everything the bytes say, up to the first malformed or incomplete response. *)
Fixpoint parse_fuel (fuel : nat) (s : ByteStream) : list WingResponse :=
  match fuel with
  | O => []
  | Datatypes.S fuel =>
    match read_inner s with
    | (Ok r, s') => r :: parse_fuel fuel s'
    | (Err _, _) => []
    end
  end.
Definition parse_responses (s : ByteStream) : list WingResponse :=
  parse_fuel (length (stream s)) s.

(** What the client sees of a response the server sent. *)
Definition data_of_value (v : NativeValue) : WingNodeData :=
  match v with
  | NativeValues.Integer z => with_i32 z
  | NativeValues.Float f | NativeValues.RawFloat f => with_float f
  | NativeValues.String s => with_string s
  end.

Definition client_view (r : NativeResponse) : WingResponse :=
  match r with
  | NativeResponses.RequestEnd => WingResponses.RequestEnd
  | NativeResponses.NodeDef d => WingResponses.NodeDef (with_raw (wire_bytes d) d)
  | NativeResponses.NodeData id v | NativeResponses.AuthoritativeEvent id v =>
    WingResponses.NodeData id (data_of_value v)
  end.

(** The node the parser is on after a response. *)
Definition node_after (node : Z) (r : NativeResponse) : Z :=
  match r with
  | NativeResponses.RequestEnd | NativeResponses.NodeDef _ => node
  | NativeResponses.NodeData id _ | NativeResponses.AuthoritativeEvent id _ => id
  end.

Definition value_wf (v : NativeValue) : Prop :=
  match v with
  | NativeValues.Integer z => in_i32 z
  | NativeValues.Float f | NativeValues.RawFloat f => f32_ok f
  | NativeValues.String s => utf8_valid s = true
  end.

Definition response_wf (r : NativeResponse) : Prop :=
  match r with
  | NativeResponses.RequestEnd => True
  | NativeResponses.NodeDef d => wf_def d
  | NativeResponses.NodeData id v | NativeResponses.AuthoritativeEvent id v => in_i32 id ∧ value_wf v
  end.

(** ** Lemmas: what a parser does to its source *)

(** [m] only moves the source along [Q], except perhaps when it stops for a reason
    outside [P]. *)
Definition Preserves {S A} (P : Stop → Prop) (Q : S → S → Prop) (m : M S Stop A) : Prop :=
  ∀ s, match m s with (Ok _, s') => Q s s' | (Err e, s') => P e → Q s s' end.

Section Preserves.
Context {S : Type} `{ByteSource S} (P : Stop → Prop) (Q : S → S → Prop) `{!PreOrder Q}.

Lemma preserves_ret {A} (a : A) : Preserves P Q (ret a).
Proof. intros s. simpl. reflexivity. Qed.

Lemma preserves_throw {A} (e : Stop) : Preserves P Q (throw (A := A) e).
Proof. intros s _. reflexivity. Qed.

Lemma preserves_gets {A} (f : S → A) : Preserves P Q (gets f).
Proof. intros s. simpl. reflexivity. Qed.

Lemma preserves_bind {A B} (m : M S Stop A) (k : A → M S Stop B) :
  Preserves P Q m → (∀ a, Preserves P Q (k a)) → Preserves P Q (bind m k).
Proof.
  intros Hm Hk s. specialize (Hm s). unfold bind. destruct (m s) as [[a|e] s1]; [|done].
  specialize (Hk a s1). destruct (k a s1) as [[b|e] s2]; [|intros He; specialize (Hk He)];
    (etransitivity; [exact Hm|exact Hk]).
Qed.

Hypothesis Hnext : Preserves P Q next_byte.
Hypothesis Hset : ∀ i s, Q s (set_current_node i s).

Lemma preserves_modify i : Preserves P Q (modify (set_current_node i)).
Proof. intros s. apply Hset. Qed.

Lemma preserves_read_bytes n : Preserves P Q (read_bytes n).
Proof. induction n; simpl; auto using preserves_ret, preserves_bind. Qed.

Lemma preserves_fallible {A} (r : Result A) : Preserves P Q (fallible r).
Proof. destruct r; [apply preserves_ret|apply preserves_throw]. Qed.

Ltac preserve := repeat first
  [ apply Hnext | apply preserves_ret | apply preserves_throw | apply preserves_gets
  | apply preserves_modify | apply preserves_read_bytes | apply preserves_fallible
  | apply preserves_bind; [|intros ?] | progress cbv beta zeta | case_match ].

Lemma preserves_read_command cmd : Preserves P Q (read_command cmd).
Proof.
  unfold read_command, read_node_def, node_data, read_string, read_f, read_i8, read_u8, read_i16,
    read_i32, read_u32, read_u16. preserve.
Qed.

Lemma preserves_read_token : Preserves P Q read_token.
Proof. apply preserves_bind; [done|]. intros b. apply preserves_read_command. Qed.

Lemma preserves_read_loop fuel : Preserves P Q (read_loop fuel).
Proof.
  induction fuel as [|fuel IH]; [apply preserves_throw|]. simpl.
  apply preserves_bind; [apply preserves_read_token|]. intros [r|]; [apply preserves_ret|done].
Qed.

Lemma preserves_read_inner : Preserves P Q read_inner.
Proof. intros s. apply preserves_read_loop. Qed.
End Preserves.

Section Turns.
Context {S : Type} `{Laws : ByteSourceLaws S}.

(** Once a byte is taken the source is strictly smaller, and stays so. *)
Definition shrinks (s s' : S) : Prop :=
  source_inv s → source_inv s' ∧ (remaining s' ≤ remaining s)%nat.

#[local] Instance shrinks_preorder : PreOrder shrinks.
Proof.
  split; [by intros s|]. intros s1 s2 s3 H1 H2 Hs.
  destruct (H1 Hs) as [Hs2 ?]. destruct (H2 Hs2). split; [done|lia].
Qed.

Lemma read_token_less s r s' :
  source_inv s → read_token s = (Ok r, s') → source_inv s' ∧ (remaining s' < remaining s)%nat.
Proof.
  intros Hs E. unfold read_token, bind at 1 in E. destruct (next_byte s) as [[b|e] s1] eqn:E1; [|done].
  destruct (next_byte_less _ _ _ Hs E1) as [Hs1 Hb].
  pose proof (preserves_read_command (λ _, False) shrinks) as Hp.
  assert (Preserves (λ _, False) shrinks next_byte) as Hnext.
  { intros s0. destruct (next_byte s0) as [[b0|e] s0'] eqn:E0; [|done]. intros Hi0.
    destruct (next_byte_less _ _ _ Hi0 E0). split; [done|lia]. }
  specialize (Hp Hnext (λ i s Hi, conj (set_current_node_inv i s Hi)
    (Nat.eq_le_incl _ _ (set_current_node_same i s))) (u8 b) s1).
  rewrite E in Hp. destruct (Hp Hs1). split; [done|lia].
Qed.

(** The recursion of the source, free of fuel. *)
Lemma read_loop_fuel n m s :
  source_inv s → (remaining s < n)%nat → (remaining s < m)%nat → read_loop n s = read_loop m s.
Proof.
  revert m s. induction n as [|n IH]; intros [|m] s Hi Hn Hm; [lia..|]. cbn [read_loop]. unfold bind.
  destruct (read_token s) as [[[r|]|e] s'] eqn:E; try done.
  apply read_token_less in E as [??]; [|done]. apply IH; [done|lia..].
Qed.

Lemma read_inner_eq s :
  source_inv s →
  read_inner s =
    match read_token s with
    | (Ok (Some r), s') => (Ok r, s')
    | (Ok None, s') => read_inner s'
    | (Err e, s') => (Err e, s')
    end.
Proof.
  intros Hi. unfold read_inner at 1. cbn [read_loop]. unfold bind.
  destruct (read_token s) as [[[r|]|e] s'] eqn:E; try done.
  apply read_token_less in E as [??]; [|done]. apply read_loop_fuel; [done|lia..].
Qed.

Lemma read_inner_less s r s' :
  source_inv s → read_inner s = (Ok r, s') → source_inv s' ∧ (remaining s' < remaining s)%nat.
Proof.
  remember (remaining s) as k eqn:Hk. revert s Hk.
  induction k as [k IH] using lt_wf_ind. intros s Hk Hi E. rewrite read_inner_eq in E by done.
  destruct (read_token s) as [[[r'|]|e] s1] eqn:Et; simplify_eq;
    apply read_token_less in Et as [Hi1 ?]; try done.
  destruct (IH (remaining s1) ltac:(lia) s1 eq_refl Hi1 E). split; [done|lia].
Qed.
End Turns.

(** ** Lemmas: one source stands for another *)

(** From related states [m1] does what [m2] does, except that it may stop for a reason of
    its own, one of [io]. *)
Definition sim {S1 S2 A} (R : S1 → S2 → Prop) (io : Stop → Prop)
    (m1 : M S1 Stop A) (m2 : M S2 Stop A) : Prop :=
  ∀ s1 s2, R s1 s2 →
  match m1 s1 with
  | (Ok a, s1') => ∃ s2', m2 s2 = (Ok a, s2') ∧ R s1' s2'
  | (Err e, s1') => io e ∨ ∃ s2', m2 s2 = (Err e, s2')
  end.

Section Simulation.
Context {S1 S2 : Type} `{ByteSourceLaws S1} `{ByteSourceLaws S2}.
Context (R : S1 → S2 → Prop) (io : Stop → Prop).

Abbreviation simR := (sim R io).

Lemma sim_ret {A} (a : A) : simR (ret a) (ret a).
Proof. intros s1 s2 HR. simpl. eauto. Qed.

Lemma sim_throw {A} e : simR (throw (A := A) e) (throw e).
Proof. intros s1 s2 HR. simpl. eauto. Qed.

Lemma sim_bind {A B} m1 m2 (k1 : A → M S1 Stop B) k2 :
  simR m1 m2 → (∀ a, simR (k1 a) (k2 a)) → simR (bind m1 k1) (bind m2 k2).
Proof.
  intros Hm Hk s1 s2 HR. specialize (Hm s1 s2 HR). unfold bind.
  destruct (m1 s1) as [[a|e] s1'].
  - destruct Hm as (s2' & -> & HR'). by apply Hk.
  - destruct Hm as [?|(s2' & ->)]; eauto.
Qed.

Hypothesis Hnext : simR next_byte next_byte.
Hypothesis Hset : ∀ i s1 s2, R s1 s2 → R (set_current_node i s1) (set_current_node i s2).
Hypothesis Hinv : ∀ s1 s2, R s1 s2 → source_inv s1 ∧ source_inv s2.
Hypothesis Hcur : ∀ s1 s2, R s1 s2 → current_node s1 = current_node s2.

Lemma sim_modify i : simR (modify (set_current_node i)) (modify (set_current_node i)).
Proof. intros s1 s2 HR. simpl. eauto. Qed.

Lemma sim_node_data d : simR (node_data d) (node_data d).
Proof. intros s1 s2 HR. unfold node_data, bind, gets, ret. rewrite (Hcur s1 s2) by done. eauto. Qed.

Lemma sim_read_bytes n : simR (read_bytes n) (read_bytes n).
Proof. induction n; simpl; auto using sim_ret, sim_bind. Qed.

Lemma sim_fallible {A} (r : Result A) : simR (fallible r) (fallible r).
Proof. destruct r; [apply sim_ret|apply sim_throw]. Qed.

Ltac simulate := repeat first
  [ apply Hnext | apply sim_ret | apply sim_throw | apply sim_modify | apply sim_node_data
  | apply sim_read_bytes | apply sim_fallible | apply sim_bind; [|intros ?]
  | progress cbv beta zeta | case_match ].

Lemma sim_read_token : simR read_token read_token.
Proof.
  unfold read_token, read_command, read_node_def, read_string, read_f, read_i8, read_u8, read_i16,
    read_i32, read_u32, read_u16. simulate.
Qed.

Lemma sim_read_inner : simR read_inner read_inner.
Proof.
  intros s1 s2. remember (remaining s1) as n eqn:Hn. revert s1 s2 Hn.
  induction n as [n IH] using lt_wf_ind. intros s1 s2 Hn HR. destruct (Hinv s1 s2 HR).
  pose proof (sim_read_token s1 s2 HR) as Ht. rewrite (read_inner_eq s1), (read_inner_eq s2) by done.
  destruct (read_token s1) as [[[r|]|e] s1'] eqn:E.
  - destruct Ht as (s2' & -> & HR'). eauto.
  - destruct Ht as (s2' & -> & HR'). apply read_token_less in E as [_ ?]; [|done]. eapply (IH (remaining s1')); [lia|done..].
  - destruct Ht as [?|(s2' & ->)]; eauto.
Qed.
End Simulation.

(** ** Lemmas: invariants of the source, and the parser's own error *)

(** [m] keeps the invariant [I], and a stop satisfies [E] with the state it leaves. *)
Definition stays {S A} (I : S → Prop) (E : Stop → S → Prop) (m : M S Stop A) : Prop :=
  ∀ s, I s → match m s with (Ok _, s') => I s' | (Err e, s') => E e s' end.

Section Stays.
Context {S : Type} (I : S → Prop) (E : Stop → S → Prop).

Lemma stays_ret {A} (a : A) : stays I E (ret a).
Proof. by intros s. Qed.

Lemma stays_gets {A} (f : S → A) : stays I E (gets f).
Proof. by intros s. Qed.

Lemma stays_modify f : (∀ s, I s → I (f s)) → stays I E (modify f).
Proof. intros Hf s Hs. by apply Hf. Qed.

Lemma stays_throw {A} e : (∀ s, I s → E e s) → stays I E (throw (A := A) e).
Proof. intros He s Hs. by apply He. Qed.

Lemma stays_bind {A B} (m : M S Stop A) (k : A → M S Stop B) :
  stays I E m → (∀ a, stays I E (k a)) → stays I E (bind m k).
Proof.
  intros Hm Hk s Hs. specialize (Hm s Hs). unfold bind. destruct (m s) as [[a|e] s1]; [|done]. by apply Hk.
Qed.

Context `{!ByteSource S}.
Hypothesis Hnext : stays I E next_byte.
Hypothesis Hset : ∀ i s, I s → I (set_current_node i s).
Hypothesis Hinvalid : ∀ s, I s → E (Fail InvalidData) s.

Lemma stays_read_bytes n : stays I E (read_bytes n).
Proof. induction n; simpl; auto using stays_ret, stays_bind. Qed.

Lemma stays_utf8 w : stays I E (fallible (from_utf8 InvalidData w)).
Proof. unfold from_utf8. destruct (utf8_valid w); [apply stays_ret|by apply stays_throw]. Qed.

Lemma stays_def w : stays I E (fallible (try_from_bytes w)).
Proof.
  unfold try_from_bytes, from_bytes, from_bytes_inner.
  destruct (read_def w w 0%nat) as [[d n]|e] eqn:Ed; simpl; [apply stays_ret|].
  apply read_def_error in Ed as ->. by apply stays_throw.
Qed.

Lemma stays_read_token : stays I E read_token.
Proof.
  unfold read_token, read_command, read_node_def, node_data, read_string, read_f, read_i8, read_u8,
    read_i16, read_i32, read_u32, read_u16.
  repeat first
    [ apply Hnext | apply stays_ret | apply stays_gets | apply stays_modify; auto; fail | apply stays_read_bytes
    | apply stays_utf8 | apply stays_def | apply stays_throw; done
    | apply stays_bind; [|intros ?] | progress cbv beta zeta | case_match ].
Qed.

Lemma stays_read_inner `{!ByteSourceLaws S} : (∀ s, I s → source_inv s) → stays I E read_inner.
Proof.
  intros Hinv s. remember (remaining s) as n eqn:Hn. revert s Hn.
  induction n as [n IH] using lt_wf_ind. intros s Hn Hs. rewrite read_inner_eq by auto.
  pose proof (stays_read_token s Hs) as Ht. destruct (read_token s) as [[[r|]|e] s'] eqn:Et; [done| |done].
  apply read_token_less in Et as [_ ?]; [|auto]. by eapply (IH (remaining s')); [lia|..].
Qed.
End Stays.

Lemma stream_errors (s : ByteStream) e s' :
  read_inner s = (Err e, s') → e = Blocked ∨ e = Fail InvalidData.
Proof.
  intros E. pose proof (stays_read_inner (λ _, True) (λ e _, e = Blocked ∨ e = Fail InvalidData)) as H.
  assert (stays (λ _, True) (λ e (_ : ByteStream), e = Blocked ∨ e = Fail InvalidData) next_byte) as Hn
    by (intros [[|] ?] _; simpl; auto).
  specialize (H Hn (λ _ _ _, I) (λ _ _, or_intror eq_refl) _ (λ _ _, I) s I). by rewrite E in H.
Qed.

(** ** Lemmas: reading from the list *)

(** [m] reads [a] back from the bytes [w]. *)
Definition reads_back {A} (m : M ByteStream Stop A) (w : list byte) (a : A) : Prop :=
  ∀ rest node, m (mk_stream (w ++ rest) node) = (Ok a, mk_stream rest node).

Lemma reads_back_ret {A} (a : A) : reads_back (ret a) [] a.
Proof. by intros rest node. Qed.

Lemma reads_back_bind {A B} m (k : A → M ByteStream Stop B) w1 w2 a b :
  reads_back m w1 a → reads_back (k a) w2 b → reads_back (bind m k) (w1 ++ w2) b.
Proof. intros H1 H2 rest node. unfold bind. by rewrite <- (assoc_L (++)), H1, H2. Qed.

Lemma reads_back_bind_ret {A B} (m : M ByteStream Stop A) (f : A → B) w a :
  reads_back m w a → reads_back (let! x := m in ret (f x)) w (f a).
Proof. intros Hm rest node. unfold bind. by rewrite Hm. Qed.

Lemma reads_back_next b : reads_back next_byte [b] b.
Proof. by intros rest node. Qed.

Lemma reads_back_bytes w : reads_back (read_bytes (length w)) w w.
Proof.
  induction w as [|b w IH]; [apply reads_back_ret|]. simpl.
  eapply (reads_back_bind _ _ [b]); [apply reads_back_next|].
  by apply (reads_back_bind_ret _ (cons b)).
Qed.

Lemma shift_or a b n : 0 ≤ n → 0 ≤ b < 2 ^ n → Z.lor (Z.shiftl a n) b = a * 2 ^ n + b.
Proof.
  intros Hn Hb. rewrite Z.shiftl_mul_pow2 by done.
  assert (Z.land (a * 2 ^ n) b = 0) as Hl.
  { apply Z.bits_inj'. intros i Hi. rewrite Z.land_spec, Z.bits_0, <- Z.shiftl_mul_pow2, Z.shiftl_spec by lia.
    destruct (Z.ltb_spec i n).
    - by rewrite Z.testbit_neg_r by lia.
    - rewrite <- (Z.mod_small b (2 ^ n)), Z.mod_pow2_bits_high by lia. apply andb_false_r. }
  pose proof (Z.add_lor_land (a * 2 ^ n) b). lia.
Qed.

Lemma or_be_2 a b : Z.lor (Z.shiftl (u8 a) 8) (u8 b) = from_be [a; b].
Proof.
  pose proof (u8_bound a). pose proof (u8_bound b). rewrite shift_or by lia.
  unfold from_be. simpl. lia.
Qed.

Lemma or_be_4 a b c d :
  Z.lor (Z.lor (Z.lor (Z.shiftl (u8 a) 24) (Z.shiftl (u8 b) 16)) (Z.shiftl (u8 c) 8)) (u8 d)
  = from_be [a; b; c; d].
Proof.
  pose proof (u8_bound a). pose proof (u8_bound b). pose proof (u8_bound c). pose proof (u8_bound d).
  replace (Z.shiftl (u8 a) 24) with (Z.shiftl (Z.shiftl (u8 a) 8) 16) by by rewrite Z.shiftl_shiftl by lia.
  rewrite <- Z.shiftl_lor, (shift_or (u8 a) (u8 b)) by lia.
  replace (Z.shiftl (u8 a * 2 ^ 8 + u8 b) 16) with (Z.shiftl (Z.shiftl (u8 a * 2 ^ 8 + u8 b) 8) 8)
    by by rewrite Z.shiftl_shiftl by lia.
  rewrite <- Z.shiftl_lor, (shift_or _ (u8 c)), (shift_or _ (u8 d)) by lia.
  unfold from_be. simpl. lia.
Qed.

Lemma reads_back_u16 z : in_u16 z → reads_back read_u16 (to_be 2 z) z.
Proof.
  intros Hz rest node. rewrite to_be_2. unfold read_u16, bind. simpl. unfold ret. do 2 f_equal.
  rewrite or_be_2, <- to_be_2. by apply u16_round.
Qed.

Lemma reads_back_u32 z : reads_back read_u32 (to_be 4 z) (z mod 2 ^ 32).
Proof.
  intros rest node. rewrite to_be_4. unfold read_u32, bind. simpl. unfold ret. do 2 f_equal.
  rewrite or_be_4, <- to_be_4. apply from_to_be.
Qed.

Lemma reads_back_i16 z : in_i16 z → reads_back read_i16 (to_be 2 z) z.
Proof.
  intros Hz. rewrite <- (to_be_mod 2 2) by lia. change (256 ^ Z.of_nat 2) with (2 ^ 16).
  rewrite <- (wrap_signed_id 16 z) at 2 by width. rewrite <- (wrap_signed_mod 16 z) by lia.
  apply (reads_back_bind_ret _ (wrap_signed 16)), reads_back_u16.
  pose proof (Z.mod_pos_bound z (2 ^ 16)). width.
Qed.

Lemma reads_back_i32 z : in_i32 z → reads_back read_i32 (to_be 4 z) z.
Proof.
  intros Hz. rewrite <- (wrap_signed_id 32 z) at 2 by width. rewrite <- (wrap_signed_mod 32 z) by lia.
  apply (reads_back_bind_ret _ (wrap_signed 32)), reads_back_u32.
Qed.

Lemma reads_back_f f : f32_ok f → reads_back read_f (f32_to_be f) f.
Proof.
  intros Hf rest node. unfold f32_to_be. rewrite to_be_4. unfold read_f, bind. simpl. unfold ret.
  do 2 f_equal. rewrite or_be_4, <- to_be_4. change (from_be (to_be 4 (f32_bits f)))
    with (f32_bits (f32_from_be (f32_to_be f))). rewrite f32_round by done. by destruct f.
Qed.

Lemma reads_back_fallible {A} (a : A) : reads_back (fallible (Ok a)) [] a.
Proof. apply reads_back_ret. Qed.

Lemma reads_back_string w : utf8_valid w = true → reads_back (read_string (length w)) w w.
Proof.
  intros Hw. rewrite <- (app_nil_r w) at 2. eapply reads_back_bind; [apply reads_back_bytes|].
  unfold from_utf8. rewrite Hw. apply reads_back_fallible.
Qed.

Lemma reads_back_node_data d rest node :
  node_data d (mk_stream rest node) = (Ok (Some (WingResponses.NodeData node d)), mk_stream rest node).
Proof. done. Qed.

(** After [w] the parser answers that the current node has the value [d]. *)
Lemma value_back {A} (m : M ByteStream Stop A) (f : A → WingNodeData) w a :
  reads_back m w a →
  ∀ rest node, bind m (λ x, node_data (f x)) (mk_stream (w ++ rest) node)
    = (Ok (Some (WingResponses.NodeData node (f a))), mk_stream rest node).
Proof. intros Hm rest node. unfold bind at 1. by rewrite Hm. Qed.

Lemma read_token_cons b rest node :
  read_token (mk_stream (b :: rest) node) = read_command (u8 b) (mk_stream rest node).
Proof. done. Qed.

Lemma read_command_small z : 0 ≤ z < 0x40 → read_command (S := ByteStream) z = node_data (with_i32 z).
Proof. intros Hz. unfold read_command. by rewrite (proj2 (Z.leb_le z 0x3f)) by lia. Qed.

Lemma read_command_short n :
  (0 < n ≤ 64)%nat →
  read_command (S := ByteStream) (Z.of_nat n + 0x7f) =
    let! v := read_string n in node_data (with_string v).
Proof.
  intros Hn. unfold read_command.
  rewrite (proj2 (Z.leb_gt _ 0x3f)), (proj2 (Z.leb_gt _ 0x7f)), (proj2 (Z.leb_le _ 0xbf)) by lia.
  by replace (Z.to_nat (Z.of_nat n + 0x7f - 0x80 + 1)) with n by lia.
Qed.

Lemma reads_back_long s :
  (0 < length s ≤ 256)%nat → utf8_valid s = true →
  reads_back (let! len := read_u8 in read_string (Z.to_nat (len + 1)))
    (b8 (Z.of_nat (length s) - 1) :: s) s.
Proof.
  intros Hl Hs. apply (reads_back_bind _ _ [_] s (Z.of_nat (length s) - 1)).
  - intros rest node. unfold read_u8, bind. simpl. unfold ret. by rewrite u8_b8_small by lia.
  - replace (Z.to_nat (Z.of_nat (length s) - 1 + 1)) with (length s) by lia. by apply reads_back_string.
Qed.

Lemma bind_assoc {S E A B C} (m : M S E A) (k : A → M S E B) (h : B → M S E C) s :
  bind (bind m k) h s = bind m (λ a, bind (k a) h) s.
Proof. unfold bind. by destruct (m s) as [[]]. Qed.

(** A value token is read as the current node's value. *)
Lemma read_token_value v rest node :
  value_wf v → value_encodable v →
  read_token (mk_stream (token_bytes (value_token v) ++ rest) node) =
    (Ok (Some (WingResponses.NodeData node (data_of_value v))), mk_stream rest node).
Proof.
  intros Hv He. destruct v as [z|f|f|s]; cbn [value_token value_wf data_of_value] in *.
  - case_decide as Hs; [|case_decide as Hi]; cbn [token_bytes app]; rewrite read_token_cons.
    + rewrite u8_b8_small by lia. by rewrite read_command_small by lia.
    + apply (value_back read_i16 with_i16). by apply reads_back_i16.
    + apply (value_back read_i32 with_i32). by apply reads_back_i32.
  - cbn [token_bytes app]. rewrite read_token_cons.
    apply (value_back read_f with_float). by apply reads_back_f.
  - cbn [token_bytes app]. rewrite read_token_cons.
    apply (value_back read_f with_float). by apply reads_back_f.
  - case_decide as Hs; [by subst|]. cbn [value_encodable] in He. destruct s as [|c s']; [done|].
    remember (c :: s') as s eqn:E. assert (0 < length s)%nat by (subst; simpl; lia). clear E c s'.
    case_decide as Hl; cbn [token_bytes app]; rewrite read_token_cons.
    + rewrite u8_b8_small, read_command_short by lia. apply (value_back (read_string _) with_string).
      by apply reads_back_string.
    + change (u8 (b8 0xd1)) with 0xd1. change (read_command 0xd1 ?s) with
        ((let! len := read_u8 in let! v := read_string (S := ByteStream) (Z.to_nat (len + 1)) in
          node_data (with_string v)) s). rewrite <- bind_assoc.
      apply (value_back _ with_string (_ :: s) s). by apply reads_back_long.
Qed.

Lemma read_token_select id rest node :
  in_i32 id →
  read_token (mk_stream ([b8 0xd7] ++ to_be 4 id ++ rest) node) = (Ok None, mk_stream rest id).
Proof.
  intros Hid. cbn [app]. rewrite read_token_cons. change (u8 (b8 0xd7)) with 0xd7.
  change (read_command 0xd7) with
    (let! id := read_i32 (S := ByteStream) in let! _ := modify (set_current_node id) in
     ret (@None WingResponse)).
  unfold bind at 1. by rewrite reads_back_i32.
Qed.

(** The length field of a definition: 16 bits, or zero and 32 bits. *)
Definition def_len_bytes (len : Z) : list byte :=
  if len <? 2 ^ 16 then to_be 2 len else to_be 2 0 ++ to_be 4 len.

Lemma reads_back_def_len len :
  0 < len < 2 ^ 32 →
  reads_back (let! n := read_u16 in if n =? 0 then read_u32 else ret n) (def_len_bytes len) len.
Proof.
  intros Hl. unfold def_len_bytes. destruct (Z.ltb_spec len (2 ^ 16)).
  - rewrite <- (app_nil_r (to_be 2 len)). eapply reads_back_bind; [apply reads_back_u16; width|].
    rewrite (proj2 (Z.eqb_neq len 0)) by lia. apply reads_back_ret.
  - eapply reads_back_bind; [apply reads_back_u16; width|]. change (0 =? 0) with true. cbv iota.
    rewrite <- (Z.mod_small len (2 ^ 32)) at 2 by lia. apply reads_back_u32.
Qed.

Lemma wire_bytes_parse d :
  wf_def d → try_from_bytes (wire_bytes d) = Ok (with_raw (wire_bytes d) d).
Proof.
  intros Hd. unfold try_from_bytes, from_bytes, from_bytes_inner.
  pose proof (read_def_wire (wire_bytes d) d [] Hd) as H. rewrite app_nil_r in H.
  rewrite H; [done|]. unfold tail_ok. destruct (def_node_type d); try done; simpl; intros; lia.
Qed.

Lemma wire_bytes_pos d : (0 < length (wire_bytes d))%nat.
Proof. unfold wire_bytes, header_bytes. rewrite !length_app, !to_be_length. lia. Qed.

Lemma reads_back_node_def d :
  wf_def d → Z.of_nat (length (wire_bytes d)) ≤ MAX_NODE_DEF_BYTES →
  reads_back read_node_def (def_len_bytes (Z.of_nat (length (wire_bytes d))) ++ wire_bytes d)
    (Some (WingResponses.NodeDef (with_raw (wire_bytes d) d))).
Proof.
  intros Hd Hl rest node. unfold read_node_def. rewrite <- bind_assoc.
  unfold bind at 1. pose proof (wire_bytes_pos d). unfold MAX_NODE_DEF_BYTES in *.
  rewrite <- (assoc_L (++)), reads_back_def_len by lia. cbv beta iota.
  rewrite (proj2 (Z.ltb_ge _ _)), Nat2Z.id by lia. unfold bind at 1.
  by rewrite reads_back_bytes, wire_bytes_parse.
Qed.

Lemma read_inner_some s r s' : read_token s = (Ok (Some r), s') → read_inner (S := ByteStream) s = (Ok r, s').
Proof. intros E. by rewrite read_inner_eq, E by done. Qed.

Lemma encode_value_inv p v w :
  encode_value p v = Ok w → value_encodable v ∧ w = p ++ token_bytes (value_token v).
Proof. rewrite encode_value_token. case_decide; [|done]. by intros [= <-]. Qed.

Lemma read_node_data id v p rest node :
  in_i32 id → value_wf v → encode_value ([b8 0xd7] ++ to_be 4 id) v = Ok p →
  read_inner (mk_stream (p ++ rest) node) =
    (Ok (WingResponses.NodeData id (data_of_value v)), mk_stream rest id).
Proof.
  intros Hid Hv [He ->]%encode_value_inv. rewrite read_inner_eq, <- !(assoc_L (++)) by done.
  rewrite read_token_select by done. by apply read_inner_some, read_token_value.
Qed.

(** One response the server encodes is one response the client reads. *)
Lemma read_inner_response r p rest node :
  response_wf r → encode_response r = Ok p →
  read_inner (mk_stream (p ++ rest) node) = (Ok (client_view r), mk_stream rest (node_after node r)).
Proof.
  destruct r as [|d|id v|id v]; cbn [encode_response response_wf client_view node_after].
  - intros _ [= <-]. by apply read_inner_some.
  - intros Hd H. rewrite to_wire_bytes_wf in H by done. cbv beta iota in H.
    destruct (Z.ltb_spec MAX_DEFINITION_BYTES (Z.of_nat (length (wire_bytes d)))) as [|Hl]; [done|].
    injection H as <-. apply read_inner_some. cbn [app].
    rewrite read_token_cons. change (u8 (b8 0xdf)) with 0xdf.
    change (read_command 0xdf ?s) with (read_node_def s).
    pose proof (reads_back_node_def d Hd Hl rest node) as Hb. unfold def_len_bytes in Hb.
    exact Hb.
  - intros [] ?. by apply read_node_data.
  - intros [] ?. by apply read_node_data.
Qed.

Lemma parse_fuel_enough n m s :
  (length (stream s) ≤ n)%nat → (length (stream s) ≤ m)%nat → parse_fuel n s = parse_fuel m s.
Proof.
  revert m s. induction n as [|n IH]; intros [|m] s Hn Hm; try done.
  - simpl. destruct s as [[|] ?]; [|simpl in *; lia]. done.
  - simpl. destruct s as [[|] ?]; [|simpl in *; lia]. done.
  - cbn [parse_fuel]. destruct (read_inner s) as [[r|e] s'] eqn:E; [|done].
    apply read_inner_less in E as [_ E]; [|done]. simpl in E. f_equal. apply IH; lia.
Qed.

Lemma parse_responses_eq s :
  parse_responses s =
    match read_inner s with (Ok r, s') => r :: parse_responses s' | (Err _, _) => [] end.
Proof.
  unfold parse_responses. destruct s as [[|b l] node]; [done|].
  rewrite (parse_fuel_enough _ (Datatypes.S (length (b :: l)))) by (simpl; lia).
  cbn [parse_fuel]. destruct (read_inner _) as [[r|e] s'] eqn:E; [|done]. f_equal.
  apply parse_fuel_enough; [|done]. apply read_inner_less in E as [_ E]; [|done]. simpl in E |- *. lia.
Qed.

Lemma parse_encoded rs p node :
  Forall response_wf rs → encode_all rs = Ok p → parse_responses (mk_stream p node) = map client_view rs.
Proof.
  intros Hrs. revert p node. induction Hrs as [|r rs Hr _ IH]; intros p node E; simpl in E.
  { by injection E as <-. }
  destruct (encode_response r) as [q|] eqn:Er; [|done]. destruct (encode_all rs) as [w|]; [|done].
  injection E as <-. rewrite parse_responses_eq, (read_inner_response r) by done.
  cbn [map]. f_equal. by apply IH.
Qed.
