(* ===== verification/ClientReader.v ===== *)
(** The client's read path ([src/src/console.rs], [decode_next], [read_locked],
    [read_timeout]): de-framing what the socket delivers, keeping the session alive while
    waiting, and rolling a timed-out response back so that no byte of it is lost.

    The socket and the timers are the environment: [script] lists what each pass through
    the refill block of [decode_next_inner] meets (a keep-alive that is due and whether its
    write fails, an error arming the read timeout, the outcome of [read]), and a deadline or
    a reconnect by another clone becomes visible after a given number of looks at it.
    [write_results] are the outcomes of the requests written in between.  When
    the script is used up the reader is [Blocked], still waiting.

    [unread] is the logical content of a session, wherever its bytes wait: [replay], the
    decoded [rx_events], the undecoded [rx_buf] or the network. *)

From stdpp Require Import sets.
From S2P Require Import Prelude Bytes Lib Utf8 F32 Channel NodeDef NodeData.
From S2P Require Import Meter NativeRequest NativeResponse ResponseReader.
Local Open Scope Z_scope.
Local Open Scope rust_scope.

(** ** Data *)

(** [MAX_NATIVE_RESPONSE_BYTES]. *)
Definition MAX_NATIVE_RESPONSE_BYTES : Z := 16 * 1024 * 1024.
Definition AUDIO_ENGINE_CHANNEL : Z := 1.

(** An [Instant] in the future: reached after this many looks at the clock, or never
    while the session is watched. *)
Abbreviation Deadline := (option nat).

(** What [read] on the socket returns: some bytes, none at the end of the stream, an error. *)
Inductive ReadResult :=
| Received (bytes : list byte)
| ReadFailed (kind : ErrorKind).

(** One pass through the refill block. *)
Record Pass := mk_pass {
  keep_alive_due : option (option ErrorKind);
  arm_failed : option ErrorKind;
  socket_read : ReadResult;
}.

(** [_WingConsoleMain], with [rx_buf] the bytes between [rx_buf_tail] and the end. *)
Record Main := mk_main {
  rx_buf : list byte;
  rx_channels : ChannelDecoder;
  rx_events : list ChannelEvent;
  replay : list (Z * byte);
  pending : list WingResponse;
  read_capture : list (Z * byte);
  current_node_id : Z;
  op_deadline : option Deadline;
  capture : option (list byte);
}.

(** The part of [WingConsole] a reader touches, with its environment. *)
Record Session := mk_session {
  main : Main;
  stream_tainted : bool;
  reconnecting : Deadline;
  sent : list byte;
  script : list Pass;
  write_results : list (option ErrorKind);
}.

Definition set_rx_buf (v : list byte) (m : Main) : Main :=
  mk_main v (rx_channels m) (rx_events m) (replay m) (pending m) (read_capture m)
    (current_node_id m) (op_deadline m) (capture m).
Definition set_channels (v : ChannelDecoder) (m : Main) : Main :=
  mk_main (rx_buf m) v (rx_events m) (replay m) (pending m) (read_capture m)
    (current_node_id m) (op_deadline m) (capture m).
Definition set_events (v : list ChannelEvent) (m : Main) : Main :=
  mk_main (rx_buf m) (rx_channels m) v (replay m) (pending m) (read_capture m)
    (current_node_id m) (op_deadline m) (capture m).
Definition set_replay (v : list (Z * byte)) (m : Main) : Main :=
  mk_main (rx_buf m) (rx_channels m) (rx_events m) v (pending m) (read_capture m)
    (current_node_id m) (op_deadline m) (capture m).
Definition set_pending (v : list WingResponse) (m : Main) : Main :=
  mk_main (rx_buf m) (rx_channels m) (rx_events m) (replay m) v (read_capture m)
    (current_node_id m) (op_deadline m) (capture m).
Definition set_read_capture (v : list (Z * byte)) (m : Main) : Main :=
  mk_main (rx_buf m) (rx_channels m) (rx_events m) (replay m) (pending m) v
    (current_node_id m) (op_deadline m) (capture m).
Definition set_node_id (v : Z) (m : Main) : Main :=
  mk_main (rx_buf m) (rx_channels m) (rx_events m) (replay m) (pending m) (read_capture m)
    v (op_deadline m) (capture m).
Definition set_deadline (v : option Deadline) (m : Main) : Main :=
  mk_main (rx_buf m) (rx_channels m) (rx_events m) (replay m) (pending m) (read_capture m)
    (current_node_id m) v (capture m).
Definition set_capture (v : option (list byte)) (m : Main) : Main :=
  mk_main (rx_buf m) (rx_channels m) (rx_events m) (replay m) (pending m) (read_capture m)
    (current_node_id m) (op_deadline m) v.

Definition set_main (v : Main) (s : Session) : Session :=
  mk_session v (stream_tainted s) (reconnecting s) (sent s) (script s) (write_results s).
Definition on_main (f : Main → Main) (s : Session) : Session := set_main (f (main s)) s.
Definition set_tainted (v : bool) (s : Session) : Session :=
  mk_session (main s) v (reconnecting s) (sent s) (script s) (write_results s).
Definition set_reconnecting (v : Deadline) (s : Session) : Session :=
  mk_session (main s) (stream_tainted s) v (sent s) (script s) (write_results s).
Definition set_sent (v : list byte) (s : Session) : Session :=
  mk_session (main s) (stream_tainted s) (reconnecting s) v (script s) (write_results s).
Definition set_script (v : list Pass) (s : Session) : Session :=
  mk_session (main s) (stream_tainted s) (reconnecting s) (sent s) v (write_results s).
Definition set_write_results (v : list (option ErrorKind)) (s : Session) : Session :=
  mk_session (main s) (stream_tainted s) (reconnecting s) (sent s) (script s) v.

(** ** Looking at the clock and the flags *)

Abbreviation Read A := (M Session Stop A).

Definition look (d : Deadline) : bool * Deadline :=
  match d with
  | None => (false, None)
  | Some O => (true, Some O)
  | Some (S n) => (false, Some n)
  end.

(** [self.reconnecting.load(..)]. *)
Definition load_reconnecting : Read bool := λ s,
  let (b, d) := look (reconnecting s) in (Ok b, set_reconnecting d s).

(** [op_deadline.is_some_and(|deadline| Instant::now() >= deadline)]. *)
Definition deadline_passed : Read bool := λ s,
  match op_deadline (main s) with
  | None => (Ok false, s)
  | Some d => let (b, d') := look d in (Ok b, on_main (set_deadline (Some d')) s)
  end.

(** ** Decoding *)

Definition ensure_native_response_capacity (len : nat) : Result unit :=
  if MAX_NATIVE_RESPONSE_BYTES <=? Z.of_nat len then Err InvalidData else Ok tt.

(** A decoded byte on its way out: recorded for a rollback. *)
Definition deliver_byte (decoded : Z * byte) : Read (option (Z * byte)) :=
  let! len := gets (λ s, length (read_capture (main s))) in
  let! _ := fallible (ensure_native_response_capacity len) in
  let! _ := modify (on_main (λ m, set_read_capture (read_capture m ++ [decoded]) m)) in
  ret (Some decoded).

(** [while let Some(event) = r.rx_events.pop_front()]: up to the first audio byte. *)
Fixpoint pop_audio (events : list ChannelEvent) : option byte * list ChannelEvent :=
  match events with
  | [] => (None, [])
  | Data c v :: rest => if c =? AUDIO_ENGINE_CHANNEL then (Some v, rest) else pop_audio rest
  | Selected _ :: rest => pop_audio rest
  end.

(** [_keep_alive]: the write when the timer is due. *)
Definition keep_alive (due : option (option ErrorKind)) : Read unit :=
  match due with
  | None => ret tt
  | Some None => modify (λ s, set_sent (sent s ++ [b8 0xdf; b8 0xd1]) s)
  | Some (Some kind) => throw (Fail (Io kind))
  end.

(** The refill block; [false] to go round the loop again. *)
Definition refill : Read bool :=
  let! passes := gets script in
  match passes with
  | [] => throw Blocked
  | pass :: later =>
    let! _ := modify (set_script (mk_pass None (arm_failed pass) (socket_read pass) :: later)) in
    let! _ := keep_alive (keep_alive_due pass) in
    let! expired := deadline_passed in
    if expired then throw (Fail Timeout)
    else
      let! _ := modify (set_script (mk_pass None None (socket_read pass) :: later)) in
      match arm_failed pass with
      | Some kind => throw (Fail (Io kind))
      | None =>
        let! _ := modify (set_script later) in
        match socket_read pass with
        | Received [] => throw (Fail ConnectionError)
        | Received bytes => let! _ := modify (on_main (set_rx_buf bytes)) in ret true
        | ReadFailed OtherKind => throw (Fail (Io OtherKind))
        | ReadFailed _ =>
          let! expired := deadline_passed in
          if expired then throw (Fail Timeout) else ret false
        end
      end
  end.

(** The byte at [rx_buf_tail] through the channel decoder. *)
Definition decode_buffered (b : byte) (rest : list byte) : Read (option (Z * byte)) :=
  let! d := gets (λ s, rx_channels (main s)) in
  let '(events, d') := push_byte d b in
  let! _ := modify (on_main (λ m, set_channels d' (set_rx_buf rest m))) in
  let! both := fallible events in
  let! _ := modify (on_main (λ m,
    match both.2 with Some second => set_events (rx_events m ++ [second]) m | None => m end)) in
  match both.1 with
  | Some (Data c value) =>
    if c =? AUDIO_ENGINE_CHANNEL then deliver_byte (AUDIO_ENGINE_CHANNEL, value) else ret None
  | _ => ret None
  end.

(** One turn of the loop of [decode_next_inner]. *)
Definition decode_turn : Read (option (Z * byte)) :=
  let! flagged := load_reconnecting in
  if flagged : bool then throw (Fail Reconnecting)
  else
    let! m := gets main in
    match replay m with
    | decoded :: rest =>
      let! _ := modify (on_main (set_replay rest)) in deliver_byte decoded
    | [] =>
      let (audio, events) := pop_audio (rx_events m) in
      let! _ := modify (on_main (set_events events)) in
      match audio with
      | Some value => deliver_byte (AUDIO_ENGINE_CHANNEL, value)
      | None =>
        match rx_buf m with
        | b :: rest => decode_buffered b rest
        | [] =>
          let! filled := refill in
          if filled : bool then
            let! buffer := gets (λ s, rx_buf (main s)) in
            match buffer with b :: rest => decode_buffered b rest | [] => ret None end
          else ret None
        end
      end
    end.

Fixpoint decode_loop (fuel : nat) : Read (Z * byte) :=
  match fuel with
  | O => throw Blocked
  | S fuel =>
    let! r := decode_turn in
    match r with Some decoded => ret decoded | None => decode_loop fuel end
  end.

(** An upper bound on the turns left: a byte on the wire makes at most two events. *)
Definition pass_weight (p : Pass) : nat :=
  match socket_read p with Received l => S (2 * length l) | ReadFailed _ => 1 end.

Definition backlog (s : Session) : nat :=
  length (replay (main s)) + length (rx_events (main s)) + 2 * length (rx_buf (main s))
  + list_sum (map pass_weight (script s)).

Definition decode_next_inner : Read (Z * byte) := λ s, decode_loop (S (backlog s)) s.

Definition decode_next : Read (Z * byte) :=
  let! decoded := decode_next_inner in
  let! cap := gets (λ s, capture (main s)) in
  match cap with
  | None => ret decoded
  | Some cap =>
    let! _ := fallible (ensure_native_response_capacity (length cap)) in
    let! _ := modify (on_main (set_capture (Some (cap ++ [decoded.2])))) in
    ret decoded
  end.

#[export] Instance session_source : ByteSource Session := {|
  next_byte := let! decoded := decode_next in ret decoded.2;
  current_node := λ s, current_node_id (main s);
  set_current_node := λ id, on_main (set_node_id id);
  remaining := backlog;
|}.

(** ** Reading a response *)

Definition rollback (previous_node_id : Z) (m : Main) : Main :=
  set_node_id previous_node_id (set_read_capture [] (set_replay (read_capture m ++ replay m) m)).

(** The errors a reconnect on another clone causes here. *)
Definition severed (e : Error) : bool :=
  match e with ConnectionError | Io _ => true | _ => false end.

(** [read_locked] once [read_inner] returned; a blocked read has not returned. *)
Definition finish_read (previous_node_id : Z) (o : result Stop WingResponse * Session)
    : result Stop WingResponse * Session :=
  match o with
  | (Err Blocked, s) => (Err Blocked, s)
  | (Err (Fail Timeout), s) => (Err (Fail Timeout), on_main (rollback previous_node_id) s)
  | (Err (Fail e), s) =>
    let s := on_main (set_read_capture []) s in
    if severed e then
      (let! flagged := load_reconnecting in
       throw (Fail (if flagged : bool then Reconnecting else e))) s
    else (Err (Fail e), s)
  | (Ok r, s) => (Ok r, on_main (set_read_capture []) s)
  end.

Definition read_locked : Read WingResponse :=
  let! tainted := gets stream_tainted in
  if tainted : bool then throw (Fail ConnectionError)
  else
    let! flagged := load_reconnecting in
    if flagged : bool then throw (Fail Reconnecting)
    else
      let! m := gets main in
      match pending m with
      | response :: rest => let! _ := modify (on_main (set_pending rest)) in ret response
      | [] => λ s,
        finish_read (current_node_id m) (read_inner (on_main (set_read_capture []) s))
      end.

(** [read] holds the read gate around [read_locked]; the model has one reader. *)
Definition read : Read WingResponse := read_locked.

Definition set_op_deadline (d : option Deadline) : Read unit := modify (on_main (set_deadline d)).

(** A call between the two [set_op_deadline]s of an attended operation. *)
Definition with_deadline {A} (timeout : Deadline) (m : Read A) : Read A := λ s,
  let (r, s') := m (on_main (set_deadline (Some timeout)) s) in
  match r with
  | Err Blocked => (r, s')
  | _ => (r, on_main (set_deadline None) s')
  end.

Definition read_timeout (timeout : Deadline) : Read WingResponse := with_deadline timeout read_locked.

(** ** The logical content of a session *)

Definition audio_of (e : ChannelEvent) : option (Z * byte) :=
  match e with
  | Data c v => if c =? AUDIO_ENGINE_CHANNEL then Some (AUDIO_ENGINE_CHANNEL, v) else None
  | Selected _ => None
  end.

(** The audio-engine bytes of a piece of the wire. *)
Definition decoded (d : ChannelDecoder) (wire : list byte) : list (Z * byte) :=
  match push d wire with (Ok events, _) => omap audio_of events | (Err _, _) => [] end.

Definition pass_bytes (p : Pass) : list byte :=
  match socket_read p with Received l => l | ReadFailed _ => [] end.

Definition incoming (s : Session) : list byte := concat (map pass_bytes (script s)).

(** What is still to be read, wherever it waits. *)
Definition unread (s : Session) : list (Z * byte) :=
  replay (main s) ++ omap audio_of (rx_events (main s))
  ++ decoded (rx_channels (main s)) (rx_buf (main s) ++ incoming s).

(** A channel is selected, so no byte is refused; a session starts on channel 1. *)
Definition reader_inv (s : Session) : Prop := is_Some (channel (rx_channels (main s))).

Definition stream_of (s : Session) : ByteStream :=
  mk_stream (map snd (unread s)) (current_node_id (main s)).

(** The responses a session will deliver. *)
Definition deliver (s : Session) : list WingResponse :=
  pending (main s) ++ parse_responses (stream_of s).

(** The session's buffers have room for everything that is still to come. *)
Definition roomy (s : Session) : Prop :=
  Z.of_nat (length (read_capture (main s)) + length (unread s)) ≤ MAX_NATIVE_RESPONSE_BYTES ∧
  match capture (main s) with
  | Some cap => Z.of_nat (length cap + length (unread s)) ≤ MAX_NATIVE_RESPONSE_BYTES
  | None => True
  end.

(** A new session, as [connect] builds it. *)
Definition new_session (passes : list Pass) : Session :=
  mk_session (mk_main [] (on_channel AUDIO_ENGINE_CHANNEL) [] [] [] [] 0 None None)
    false None [] passes [].

(** ** Lemmas: what is still to be read *)

Lemma decoded_nil d : decoded d [] = [].
Proof. done. Qed.

Lemma decoded_cons d b wire :
  is_Some (channel d) →
  ∃ p d', push_byte d b = (Ok p, d') ∧ is_Some (channel d') ∧
    decoded d (b :: wire) = omap audio_of (flatten_events p) ++ decoded d' wire.
Proof.
  intros Hd. destruct (push_selected_ok d [b] Hd) as (l & d' & E & Hd').
  cbn [push] in E. destruct (push_byte d b) as [[p|e] d1] eqn:E1; [|done].
  injection E as <- <-. exists p, d1. split_and!; [done..|].
  unfold decoded. cbn [push]. rewrite E1.
  destruct (push_selected_ok d1 wire Hd') as (l' & d2 & E2 & _). rewrite E2.
  by rewrite omap_app.
Qed.

Lemma pop_audio_spec events :
  let (v, rest) := pop_audio events in
  omap audio_of events =
    match v with Some b => (AUDIO_ENGINE_CHANNEL, b) :: omap audio_of rest | None => [] end
  ∧ (length rest + (if v then 1 else 0) ≤ length events)%nat
  ∧ (v = None → rest = []).
Proof.
  induction events as [|[c|c b] events IH]; [done|..]; cbn [pop_audio].
  - destruct (pop_audio events) as [[v|] rest]; simpl in *; intuition lia.
  - cbn [omap list_omap audio_of]. destruct (c =? AUDIO_ENGINE_CHANNEL).
    + simpl. split_and!; [done|lia|done].
    + destruct (pop_audio events) as [[v|] rest]; simpl in *; intuition lia.
Qed.

(** Everything but the wire and the clock is as before, and the wire brought what it
    was going to bring. *)
Record keeps (s s' : Session) : Prop := {
  keeps_replay : replay (main s') = replay (main s);
  keeps_events : rx_events (main s') = rx_events (main s);
  keeps_channels : rx_channels (main s') = rx_channels (main s);
  keeps_wire : rx_buf (main s') ++ incoming s' = rx_buf (main s) ++ incoming s;
  keeps_pending : pending (main s') = pending (main s);
  keeps_read_capture : read_capture (main s') = read_capture (main s);
  keeps_node : current_node_id (main s') = current_node_id (main s);
  keeps_capture : capture (main s') = capture (main s);
  keeps_tainted : stream_tainted s' = stream_tainted s;
}.

#[export] Instance keeps_preorder : PreOrder keeps.
Proof.
  split; [by intros s; split|]. intros s1 s2 s3 [] []. split; congruence.
Qed.

Lemma keeps_unread s s' : keeps s s' → unread s' = unread s.
Proof. intros []. unfold unread. congruence. Qed.

Lemma keeps_inv s s' : keeps s s' → reader_inv s → reader_inv s'.
Proof. intros Hk ?. unfold reader_inv. by rewrite (keeps_channels _ _ Hk). Qed.

Lemma load_reconnecting_keeps s :
  ∃ b s', load_reconnecting s = (Ok b, s') ∧ keeps s s' ∧ main s' = main s ∧ script s' = script s
    ∧ (reconnecting s = None → b = false ∧ reconnecting s' = None) ∧ (b = true → reconnecting s' = Some 0%nat).
Proof.
  unfold load_reconnecting. destruct (look (reconnecting s)) as [b d] eqn:E. eexists _, _. split; [done|].
  split; [by split|]. split_and!; [done..| |]; simpl; destruct (reconnecting s) as [[]|]; by simplify_eq/=.
Qed.

(** No deadline, or one that is never reached. *)
Definition quiet (d : option Deadline) : Prop :=
  match d with None | Some None => True | Some (Some _) => False end.

Lemma deadline_passed_keeps s :
  ∃ b s', deadline_passed s = (Ok b, s') ∧ keeps s s' ∧ script s' = script s
    ∧ rx_buf (main s') = rx_buf (main s) ∧ reconnecting s' = reconnecting s
    ∧ (quiet (op_deadline (main s)) → b = false ∧ quiet (op_deadline (main s'))).
Proof.
  unfold deadline_passed. destruct (op_deadline (main s)) as [d|] eqn:E.
  - destruct (look d) as [b d'] eqn:El. eexists _, _. split; [done|]. split_and!; try done.
    destruct d; [done|]. by injection El as <- <-.
  - exists false, s. split_and!; try done. by rewrite E.
Qed.

(** The reasons to stop that come from the environment. *)
Definition environment_stop (e : Stop) : Prop :=
  match e with
  | Fail (Timeout | Reconnecting | ConnectionError | Io _) => True
  | _ => False
  end.

(** Nothing goes wrong around the reader: no reconnect, no deadline, no socket error. *)
Definition pass_clean (p : Pass) : Prop :=
  match keep_alive_due p with Some (Some _) => False | _ => True end ∧ arm_failed p = None ∧
  match socket_read p with Received [] | ReadFailed OtherKind => False | _ => True end.

(** Neither a reconnect nor a deadline interferes, and the wire is as [ok] says. *)
Definition steady (ok : list Pass → Prop) (s : Session) : Prop :=
  reconnecting s = None ∧ quiet (op_deadline (main s)) ∧ ok (script s).

Definition clean : Session → Prop := steady (Forall pass_clean).

Definition script_weight (s : Session) : nat := list_sum (map pass_weight (script s)).

(** Replacing the pass at hand by what is left of it. *)
Lemma keeps_script s ps :
  concat (map pass_bytes ps) = incoming s → keeps s (set_script ps s).
Proof. intros E. split; try done. unfold incoming in *. simpl. by rewrite E. Qed.

Lemma keep_alive_keeps s due :
  match keep_alive due s with
  | (Ok _, s') => keeps s s' ∧ main s' = main s ∧ script s' = script s ∧ reconnecting s' = reconnecting s
  | (Err e, s') => environment_stop e ∧ s' = s ∧ ∃ kind, due = Some (Some kind)
  end.
Proof. destruct due as [[kind|]|]; simpl; eauto 10. split_and!; try done. by split. Qed.

Lemma refill_spec s :
  rx_buf (main s) = [] →
  match refill s with
  | (Ok true, s') => keeps s s' ∧ (∃ b rest, rx_buf (main s') = b :: rest)
      ∧ (2 * length (rx_buf (main s')) + script_weight s' < script_weight s)%nat
  | (Ok false, s') => keeps s s' ∧ rx_buf (main s') = [] ∧ (script_weight s' < script_weight s)%nat
  | (Err Blocked, s') => s' = s ∧ script s = []
  | (Err e, s') => environment_stop e ∧ keeps s s' ∧ rx_buf (main s') = []
      ∧ (script_weight s' ≤ script_weight s)%nat
  end.
Proof.
  intros Hbuf. unfold refill, gets, bind, modify, throw, ret. cbv beta iota.
  destruct (script s) as [|[due arm rd] ps] eqn:Es; [done|].
  cbn [keep_alive_due arm_failed socket_read].
  set (s1 := set_script (mk_pass None arm rd :: ps) s).
  assert (keeps s s1) as K1 by (apply keeps_script; unfold incoming; by rewrite Es).
  assert (script_weight s1 = script_weight s) as W1 by (unfold script_weight; simpl; by rewrite Es).
  pose proof (keep_alive_keeps s1 due) as Hk. destruct (keep_alive due s1) as [[[]|e] s2].
  2: { destruct Hk as (He & -> & _). destruct e; [|done]. by rewrite W1. }
  destruct Hk as (K2 & M2 & S2 & _).
  destruct (deadline_passed_keeps s2) as (b & s3 & -> & K3 & S3 & B3 & _).
  assert (rx_buf (main s3) = []) as Hb3 by (rewrite B3, M2; done).
  assert (keeps s s3) as K by (etransitivity; [exact K1|]; etransitivity; [exact K2|done]).
  assert (script s3 = mk_pass None arm rd :: ps) as Es3 by (by rewrite S3, S2).
  assert (script_weight s3 = script_weight s) as W3 by (unfold script_weight in *; rewrite S3, S2; done).
  destruct b; [by rewrite W3|].
  assert (script_weight s = pass_weight (mk_pass None arm rd) + list_sum (map pass_weight ps))%nat as Ws
    by (rewrite <- W3; unfold script_weight; by rewrite Es3).
  assert (incoming s3 = pass_bytes (mk_pass None arm rd) ++ concat (map pass_bytes ps)) as Is
    by (unfold incoming; by rewrite Es3).
  destruct arm as [kind|].
  { split_and!; [done| |done|rewrite Ws; unfold script_weight, pass_weight, list_sum; cbn; lia].
    etransitivity; [exact K|]. apply (keeps_script s3 (mk_pass None None rd :: ps)). rewrite Is. done. }
  destruct rd as [[|b bytes]|kind].
  - split_and!; [done| |done|rewrite Ws; unfold script_weight, pass_weight, list_sum; cbn; lia].
    etransitivity; [exact K|]. apply (keeps_script s3 ps). by rewrite Is.
  - split_and!; [|by eexists _, _|rewrite Ws; unfold script_weight, pass_weight, list_sum; cbn; lia].
    etransitivity; [exact K|]. split; try done. unfold incoming in *; simpl. rewrite Is, Hb3. done.
  - assert (keeps s (set_script ps s3)) as K4.
    { etransitivity; [exact K|]. apply (keeps_script s3 ps). by rewrite Is. }
    assert (script_weight (set_script ps s3) < script_weight s)%nat as W4
      by (rewrite Ws; unfold script_weight, pass_weight, list_sum; cbn; lia).
    destruct (deadline_passed_keeps (set_script ps s3)) as (b & s5 & E5 & K5 & S5 & B5 & _).
    assert (keeps s s5) as K6 by (etransitivity; eassumption).
    assert (script_weight s5 < script_weight s)%nat as W5 by (unfold script_weight in *; rewrite S5; done).
    assert (rx_buf (main s5) = []) as B6 by (rewrite B5; done).
    destruct kind;
      try (change (deadline_passed _) with (deadline_passed (set_script ps s3)); rewrite E5;
           destruct b; cbv beta iota; (split_and!; [done..|lia])).
    cbv beta iota. split_and!; try done. change (script_weight (set_script ps s3) ≤ script_weight s)%nat. lia.
Qed.

(** A pass in which nothing goes wrong is used up. *)
Lemma refill_pass s p ps :
  reconnecting s = None → quiet (op_deadline (main s)) → script s = p :: ps → pass_clean p →
  ∃ filled s', refill s = (Ok filled, s')
    ∧ reconnecting s' = None ∧ quiet (op_deadline (main s')) ∧ script s' = ps.
Proof.
  intros Hr Hd Es (Hp1 & Hp2 & Hp3). unfold refill, gets, bind, modify, throw, ret. rewrite Es. cbv beta iota.
  destruct p as [due arm rd]. cbn [keep_alive_due arm_failed socket_read] in *.
  subst arm. set (s1 := set_script (mk_pass None None rd :: ps) s).
  pose proof (keep_alive_keeps s1 due) as Hk. destruct (keep_alive due s1) as [[[]|e] s2].
  2: { destruct Hk as (_ & _ & kind & ->). done. }
  destruct Hk as (_ & M2 & S2 & R2).
  destruct (deadline_passed_keeps s2) as (b & s3 & -> & _ & S3 & B3 & R3 & D3).
  destruct D3 as [-> D3]; [by rewrite M2|].
  destruct rd as [[|b bytes]|kind]; [done| |].
  - eexists true, _. split; [done|]. split_and!; [by simpl; rewrite R3, R2|done|done].
  - destruct (deadline_passed_keeps (set_script ps s3)) as (b & s5 & E5 & _ & S5 & _ & R5 & D5).
    destruct D5 as [-> D5]; [done|]. exists false, s5. split.
    + destruct kind; try done; cbv beta iota;
        change (deadline_passed _) with (deadline_passed (set_script ps s3)); by rewrite E5.
    + split_and!; [rewrite R5; simpl; by rewrite R3, R2|done|done].
Qed.

Lemma refill_clean s :
  clean s → match refill s with (Ok _, s') => clean s' | (Err e, s') => e = Blocked end.
Proof.
  intros (Hr & Hd & Hs). destruct (script s) as [|p ps] eqn:Es.
  { unfold refill, gets, bind. by rewrite Es. }
  apply Forall_cons_iff in Hs as [Hp Hps].
  destruct (refill_pass s p ps Hr Hd Es Hp) as (filled & s' & -> & Hr' & Hd' & Es').
  split_and!; [done..|by rewrite Es'].
Qed.

(** The session moves on by [l]: these bytes, and nothing else, went from what is unread
    to the rollback record. *)
Record advance (l : list (Z * byte)) (s s' : Session) : Prop := {
  adv_inv : reader_inv s';
  adv_unread : unread s = l ++ unread s';
  adv_read_capture : read_capture (main s') = read_capture (main s) ++ l;
  adv_pending : pending (main s') = pending (main s);
  adv_node : current_node_id (main s') = current_node_id (main s);
  adv_capture : capture (main s') = capture (main s);
  adv_tainted : stream_tainted s' = stream_tainted s;
}.

Lemma keeps_advance s s' : reader_inv s → keeps s s' → advance [] s s'.
Proof.
  intros Hi Hk. split; try apply Hk; [by eapply keeps_inv|by rewrite (keeps_unread _ _ Hk)|].
  rewrite app_nil_r. apply Hk.
Qed.

Lemma advance_trans l1 l2 s1 s2 s3 : advance l1 s1 s2 → advance l2 s2 s3 → advance (l1 ++ l2) s1 s3.
Proof.
  intros [] []. split; try congruence.
  - by rewrite adv_unread0, adv_unread1, (assoc_L (++)).
  - by rewrite adv_read_capture1, adv_read_capture0, (assoc_L (++)).
Qed.

Definition full (s : Session) : Prop :=
  MAX_NATIVE_RESPONSE_BYTES ≤ Z.of_nat (length (read_capture (main s))).

Lemma deliver_byte_eq x s :
  deliver_byte x s =
    if MAX_NATIVE_RESPONSE_BYTES <=? Z.of_nat (length (read_capture (main s)))
    then (Err (Fail InvalidData), s)
    else (Ok (Some x), on_main (λ m, set_read_capture (read_capture m ++ [x]) m) s).
Proof.
  unfold deliver_byte, ensure_native_response_capacity, bind, gets. cbv beta iota. by destruct (_ <=? _).
Qed.

(** A turn's outcome, from a state [s]. *)
Definition turn_ok (s : Session) (o : result Stop (option (Z * byte)) * Session) : Prop :=
  match o with
  | (Ok x, s') => advance (option_list x) s s' ∧ (backlog s' < backlog s)%nat
  | (Err (Fail InvalidData), s') => full s ∧ unread s ≠ [] ∧ (backlog s' ≤ backlog s)%nat
  | (Err Blocked, s') => advance [] s s' ∧ (backlog s' ≤ backlog s)%nat ∧ unread s = []
  | (Err e, s') => environment_stop e ∧ advance [] s s' ∧ (backlog s' ≤ backlog s)%nat
  end.

Lemma turn_ok_from s s2 o :
  advance [] s s2 → (backlog s2 ≤ backlog s)%nat → turn_ok s2 o → turn_ok s o.
Proof.
  intros Ha Hb. assert (unread s = unread s2) as Hu by apply Ha.
  assert (full s2 → full s) as Hf.
  { unfold full. rewrite (adv_read_capture _ _ _ Ha), app_nil_r. done. }
  assert (∀ l s', advance l s2 s' → advance l s s') as Htr
    by (intros l s' ?; change l with ([] ++ l); by eapply advance_trans).
  destruct o as [[x|[e|]] s'].
  - intros [H1 H2]. split; [by apply Htr|lia].
  - destruct e; intros H; first [destruct H as (H1 & H2 & H3); split_and!; [done|by apply Htr|lia]
      | destruct H as (H1 & H2 & H3); split_and!; [auto|congruence|lia]].
  - intros (H1 & H2 & H3). split_and!; [by apply Htr|lia|congruence].
Qed.

(** Handing over a byte taken out of [unread s]. *)
Lemma deliver_byte_turn s x s1 :
  reader_inv s1 → unread s = x :: unread s1 → read_capture (main s1) = read_capture (main s) →
  pending (main s1) = pending (main s) → current_node_id (main s1) = current_node_id (main s) →
  capture (main s1) = capture (main s) → stream_tainted s1 = stream_tainted s →
  (backlog s1 < backlog s)%nat →
  turn_ok s (deliver_byte x s1).
Proof.
  intros Hi Hu Hc Hp Hn Hca Ht Hb. rewrite deliver_byte_eq. rewrite Hc.
  destruct (Z.leb_spec MAX_NATIVE_RESPONSE_BYTES (Z.of_nat (length (read_capture (main s))))).
  - cbn [turn_ok]. split_and!; [done|by rewrite Hu|lia].
  - cbn [turn_ok option_list]. split; [|exact Hb]. split; try done. simpl. by rewrite Hc.
Qed.

Lemma decode_buffered_turn s s1 b rest :
  reader_inv s1 → keeps s s1 → replay (main s1) = [] → rx_events (main s1) = [] →
  rx_buf (main s1) = b :: rest → (backlog s1 ≤ backlog s)%nat →
  turn_ok s (decode_buffered b rest s1).
Proof.
  intros Hi Hk Hr He Hb Hw. unfold decode_buffered, gets, bind, modify. cbv beta iota.
  destruct (decoded_cons (rx_channels (main s1)) b (rest ++ incoming s1) Hi)
    as ([p1 p2] & d' & E & Hd' & Hdec).
  rewrite E. cbn [fallible ret fst snd].
  pose proof (keeps_unread _ _ Hk) as Hu. unfold unread in Hu at 1. rewrite Hr, He, Hb in Hu.
  change ((b :: rest) ++ incoming s1) with (b :: rest ++ incoming s1) in Hu. rewrite Hdec in Hu.
  unfold flatten_events in Hu. cbn [fst snd] in Hu. rewrite omap_app, <- (assoc_L (++)) in Hu. simpl in Hu.
  set (s2 := on_main (λ m, match p2 with Some second => set_events (rx_events m ++ [second]) m | None => m end)
               (on_main (λ m, set_channels d' (set_rx_buf rest m)) s1)).
  assert (unread s2 = omap audio_of (option_list p2) ++ decoded d' (rest ++ incoming s1)) as Hu2.
  { unfold unread, s2, on_main. destruct p2; simpl; by rewrite Hr, He. }
  assert (backlog s2 < backlog s)%nat as Hb2.
  { eapply Nat.lt_le_trans; [|exact Hw]. unfold backlog. rewrite Hr, He, Hb. unfold s2, on_main.
    destruct p2; simpl; rewrite Hr, He; simpl; lia. }
  assert (reader_inv s2) as Hi2 by (unfold reader_inv, s2; by destruct p2).
  rewrite <- Hu2 in Hu. destruct Hk as [K1 K2 K3 K4 K5 K6 K7 K8 K9].
  assert (turn_ok s (Ok None, s2) ∨ ∃ v, p1 = Some (Data AUDIO_ENGINE_CHANNEL v)) as Hc.
  { destruct p1 as [[c|c v]|]; simpl in Hu.
    - left. split; [|done]. by split; try (unfold s2; destruct p2; simpl; rewrite ?app_nil_r; congruence).
    - destruct (Z.eqb_spec c AUDIO_ENGINE_CHANNEL) as [->|]; [by right; eexists|].
      left. split; [|done]. by split; try (unfold s2; destruct p2; simpl; rewrite ?app_nil_r; congruence).
    - left. split; [|done]. by split; try (unfold s2; destruct p2; simpl; rewrite ?app_nil_r; congruence). }
  destruct p1 as [[c|c v]|]; try (by destruct Hc as [?|[? ?]]).
  simpl in Hu. destruct (Z.eqb_spec c AUDIO_ENGINE_CHANNEL) as [->|].
  - apply deliver_byte_turn; try done; unfold s2; destruct p2; simpl; congruence.
  - destruct Hc as [?|[? [=]]]; done.
Qed.

Lemma backlog_eq s :
  backlog s = (length (replay (main s)) + length (rx_events (main s)) + 2 * length (rx_buf (main s))
    + script_weight s)%nat.
Proof. done. Qed.

Lemma keeps_backlog s s' :
  keeps s s' → rx_buf (main s') = rx_buf (main s) → (script_weight s' ≤ script_weight s)%nat →
  (backlog s' ≤ backlog s)%nat.
Proof. intros [] Hb Hw. rewrite !backlog_eq. rewrite keeps_replay0, keeps_events0, Hb. lia. Qed.

(** The refill with what follows it, when nothing is buffered. *)
Lemma refill_turn s s1 :
  reader_inv s1 → keeps s s1 → replay (main s1) = [] → rx_events (main s1) = [] →
  rx_buf (main s1) = [] → (backlog s1 ≤ backlog s)%nat →
  turn_ok s ((let! filled := refill in
              if filled : bool then
                let! buffer := gets (λ s, rx_buf (main s)) in
                match buffer with b :: rest => decode_buffered b rest | [] => ret None end
              else ret None) s1).
Proof.
  intros Hi Hk Hr He Hb Hw. unfold bind at 1. pose proof (refill_spec s1 Hb) as Hf.
  assert (reader_inv s) as His.
  { unfold reader_inv. by rewrite <- (keeps_channels _ _ Hk). }
  assert (∀ s2, keeps s1 s2 → rx_buf (main s2) = [] → (script_weight s2 ≤ script_weight s1)%nat →
    advance [] s s2 ∧ (backlog s2 ≤ backlog s)%nat) as Hback.
  { intros s2 K Eb Hle. split; [apply keeps_advance; [done|by etransitivity]|].
    pose proof (keeps_backlog s1 s2 K ltac:(congruence) Hle). lia. }
  destruct (refill s1) as [[[]|[e|]] s2].
  - destruct Hf as (K & (b & rest & Eb) & Hlt). unfold gets, bind. cbv beta iota. rewrite Eb.
    apply decode_buffered_turn; try done; [by eapply keeps_inv|by etransitivity| | |];
      destruct K; try congruence.
    rewrite !backlog_eq in *. rewrite Hr, He, Hb in Hw. rewrite keeps_replay0, keeps_events0, Hr, He, Eb in *.
    simpl in *. lia.
  - destruct Hf as (K & Eb & Hlt). destruct (Hback s2 K Eb) as [Ks Hbs]; [lia|].
    simpl. split; [done|]. pose proof (keeps_unread _ _ K).
    rewrite !backlog_eq in *. rewrite Hr, He, Hb in Hw. destruct K.
    rewrite keeps_replay0, keeps_events0, Eb, Hr, He in *. simpl in *. lia.
  - destruct Hf as (Henv & K & Eb & Hle). destruct (Hback s2 K Eb Hle). by destruct e.
  - destruct Hf as [-> Hsc]. simpl. split_and!; [by apply keeps_advance|done|]. rewrite <- (keeps_unread _ _ Hk).
    unfold unread, incoming. by rewrite Hr, He, Hb, Hsc.
Qed.

Lemma decode_turn_ok s : reader_inv s → turn_ok s (decode_turn s).
Proof.
  intros Hi. unfold decode_turn, bind at 1.
  destruct (load_reconnecting_keeps s) as (flag & s1 & -> & K & M1 & S1 & _ & _).
  assert (backlog s1 = backlog s) as B1 by (rewrite !backlog_eq; unfold script_weight; by rewrite M1, S1).
  destruct flag; [split_and!; [done|by apply keeps_advance|by rewrite B1]|]. unfold gets, bind at 1. cbv beta iota.
  assert (reader_inv s1) as Hi1 by by eapply keeps_inv.
  pose proof (keeps_unread _ _ K) as Hu. rewrite backlog_eq in B1.
  destruct (replay (main s1)) as [|x rest] eqn:Er.
  2: { unfold modify, bind at 1. cbv beta iota. apply deliver_byte_turn; try apply K; [done| |].
       - rewrite <- Hu. unfold unread. by rewrite Er.
       - rewrite <- B1, backlog_eq. simpl. unfold script_weight. simpl. lia. }
  pose proof (pop_audio_spec (rx_events (main s1))) as Hp.
  destruct (pop_audio (rx_events (main s1))) as [audio events]. destruct Hp as (Hom & Hlen & Hnone).
  unfold modify, bind at 1. cbv beta iota.
  set (s2 := on_main (set_events events) s1).
  assert (script_weight s2 = script_weight s1) as W2 by done.
  destruct audio as [v|].
  { apply deliver_byte_turn; try apply K; [done| |].
    - rewrite <- Hu. unfold unread. rewrite Er, Hom. simpl. by rewrite Er.
    - rewrite <- B1, backlog_eq, W2. simpl in *. rewrite Er. simpl. lia. }
  specialize (Hnone eq_refl) as ->.
  assert (unread s2 = unread s1) as Hu2 by (unfold unread; by rewrite Er, Hom; simpl; rewrite Er).
  apply (turn_ok_from s s2).
  - destruct K. split; try done; [by rewrite Hu2, Hu|by rewrite app_nil_r].
  - rewrite <- B1, backlog_eq, W2. simpl. rewrite Er. simpl. lia.
  - destruct (rx_buf (main s1)) as [|b rest] eqn:Eb.
    + by apply refill_turn.
    + by apply decode_buffered_turn.
Qed.

Definition next_ok (s : Session) (o : result Stop (Z * byte) * Session) : Prop :=
  turn_ok s (map_ok Some o.1, o.2).

Lemma decode_loop_ok n s : reader_inv s → (backlog s < n)%nat → next_ok s (decode_loop n s).
Proof.
  revert s. induction n as [|n IH]; intros s Hi Hn; [lia|]. cbn [decode_loop]. unfold bind.
  pose proof (decode_turn_ok s Hi) as Ht. destruct (decode_turn s) as [[[x|]|e] s1]; try done.
  destruct Ht as [Ha Hb]. cbn [option_list] in Ha.
  eapply turn_ok_from; [done|lia|]. apply IH; [apply Ha|lia].
Qed.

Lemma decode_loop_fuel n m s :
  reader_inv s → (backlog s < n)%nat → (backlog s < m)%nat → decode_loop n s = decode_loop m s.
Proof.
  revert m s. induction n as [|n IH]; intros [|m] s Hi Hn Hm; [lia..|]. cbn [decode_loop]. unfold bind.
  pose proof (decode_turn_ok s Hi) as Ht. destruct (decode_turn s) as [[[x|]|e] s1]; try done.
  destruct Ht as [Ha Hb]. apply IH; [apply Ha|lia..].
Qed.

(** [advance], with the bytes teed into an active capture. *)
Record consumes (l : list (Z * byte)) (s s' : Session) : Prop := {
  con_inv : reader_inv s';
  con_unread : unread s = l ++ unread s';
  con_read_capture : read_capture (main s') = read_capture (main s) ++ l;
  con_pending : pending (main s') = pending (main s);
  con_node : current_node_id (main s') = current_node_id (main s);
  con_capture : capture (main s') = (λ cap, cap ++ map snd l) <$> capture (main s);
  con_tainted : stream_tainted s' = stream_tainted s;
}.

Lemma advance_consumes s s' : advance [] s s' → consumes [] s s'.
Proof.
  intros []. split; try done. rewrite adv_capture0. destruct (capture (main s)); [|done].
  simpl. by rewrite app_nil_r.
Qed.

Lemma roomy_not_full s : roomy s → unread s ≠ [] → ¬ full s.
Proof. intros [H _] Hu. unfold full. destruct (unread s); [done|]. simpl in H. lia. Qed.

(** What a call of [decode_next] does, whatever the environment does to it. *)
Lemma next_byte_ok s :
  reader_inv s → roomy s →
  match next_byte s with
  | (Ok b, s') => (∃ c, consumes [(c, b)] s s') ∧ roomy s' ∧ (backlog s' < backlog s)%nat
  | (Err Blocked, s') => consumes [] s s' ∧ unread s = []
  | (Err e, s') => environment_stop e ∧ consumes [] s s'
  end.
Proof.
  intros Hi Hr. cbn [next_byte session_source]. unfold decode_next, decode_next_inner.
  pose proof (decode_loop_ok (S (backlog s)) s Hi ltac:(lia)) as Hn. unfold next_ok in Hn.
  unfold bind at 1 2. destruct (decode_loop (S (backlog s)) s) as [[[c b]|[e|]] s1]; cbn [fst snd map_ok] in Hn.
  - destruct Hn as [Ha Hb]. destruct Hr as [Hr1 Hr2]. cbn [option_list] in Ha.
    assert (length (unread s) = S (length (unread s1))) as Hlen by (by rewrite (adv_unread _ _ _ Ha)).
    assert (Z.of_nat (length (read_capture (main s1)) + length (unread s1)) ≤ MAX_NATIVE_RESPONSE_BYTES) as Hr1'.
    { rewrite (adv_read_capture _ _ _ Ha), length_app. simpl. lia. }
    unfold gets, bind. cbv beta iota. rewrite (adv_capture _ _ _ Ha).
    destruct (capture (main s)) as [cap|] eqn:Ec.
    + unfold ensure_native_response_capacity. rewrite (proj2 (Z.leb_gt _ _)) by lia. cbn [fallible ret modify].
      split_and!; [|split|done].
      * exists c. destruct Ha. split; try done. simpl. by rewrite Ec.
      * exact Hr1'.
      * cbn [on_main set_main main set_capture capture]. change (unread (on_main _ s1)) with (unread s1).
        rewrite length_app. simpl. lia.
    + cbn [ret]. split_and!; [|split|done].
      * exists c. destruct Ha. split; try done. by rewrite adv_capture0, Ec.
      * exact Hr1'.
      * by rewrite (adv_capture _ _ _ Ha), Ec.
  - destruct e; try (destruct Hn as (? & ? & ?); split; [done|by apply advance_consumes]).
    destruct Hn as (Hf & Hu & _). by destruct (roomy_not_full s Hr Hu).
  - destruct Hn as (? & ? & ?). split; [by apply advance_consumes|done].
Qed.

#[export] Instance session_laws : ByteSourceLaws Session.
Proof.
  apply (Build_ByteSourceLaws _ _ (λ s, reader_inv s ∧ roomy s)); try done.
  intros s b s' [Hi Hr] E. pose proof (next_byte_ok s Hi Hr) as H. rewrite E in H.
  destruct H as ([c Hc] & ? & ?). split; [split; [apply Hc|done]|done].
Defined.

(** The two sources: a session, and the list of bytes it has still to read. *)
Definition same_stream (s : Session) (l : ByteStream) : Prop := source_inv s ∧ stream_of s = l.

Lemma consumes_roomy s s' : consumes [] s s' → roomy s → roomy s'.
Proof.
  intros [] [H1 H2]. unfold roomy. rewrite app_nil_r in con_read_capture0.
  rewrite con_read_capture0, con_capture0. simpl in con_unread0. rewrite <- con_unread0. split; [done|].
  destruct (capture (main s)); [|done]. simpl in *. by rewrite app_nil_r.
Qed.

Lemma next_same_stream : sim same_stream environment_stop next_byte next_byte.
Proof.
  intros s l [[Hi Hr] <-]. pose proof (next_byte_ok s Hi Hr) as H.
  destruct (next_byte s) as [[b|[e|]] s'].
  - destruct H as ([c Hc] & Hr' & _). exists (stream_of s'). split; [|by split; [split; [apply Hc|]|]].
    unfold stream_of. rewrite (con_unread _ _ _ Hc), (con_node _ _ _ Hc). done.
  - left. destruct e; apply H.
  - right. destruct H as [Hc Hu]. exists (stream_of s). unfold stream_of. by rewrite Hu.
Qed.

Lemma read_same_stream : sim same_stream environment_stop read_inner read_inner.
Proof.
  apply sim_read_inner; [apply next_same_stream|..].
  - intros i s l [[] <-]. done.
  - by intros s l [? _].
  - by intros s l [_ <-].
Qed.

(** Along a read the bytes only move, whatever the outcome. *)
Record moves (l : list (Z * byte)) (s s' : Session) : Prop := {
  mov_unread : unread s = l ++ unread s';
  mov_read_capture : read_capture (main s') = read_capture (main s) ++ l;
  mov_pending : pending (main s') = pending (main s);
  mov_capture : capture (main s') = (λ cap, cap ++ map snd l) <$> capture (main s);
  mov_tainted : stream_tainted s' = stream_tainted s;
}.

Definition moves_on (s s' : Session) : Prop :=
  source_inv s → source_inv s' ∧ ∃ l, moves l s s'.

#[export] Instance moves_on_preorder : PreOrder moves_on.
Proof.
  split.
  - intros s Hs. split; [done|]. exists []. split; rewrite ?app_nil_r; try done.
    destruct (capture (main s)); [|done]. simpl. by rewrite app_nil_r.
  - intros s1 s2 s3 H12 H23 H1. destruct (H12 H1) as [H2 [l Hl]]. destruct (H23 H2) as [H3 [l' Hl']].
    split; [done|]. exists (l ++ l'). destruct Hl, Hl'. split; try congruence.
    + by rewrite mov_unread0, mov_unread1, (assoc_L (++)).
    + by rewrite mov_read_capture1, mov_read_capture0, (assoc_L (++)).
    + rewrite mov_capture1, mov_capture0. destruct (capture (main s1)); [|done]. simpl.
      by rewrite map_app, (assoc_L (++)).
Qed.

Lemma consumes_moves l s s' : consumes l s s' → moves l s s'.
Proof. intros []. by split. Qed.

Lemma read_inner_moves s : source_inv s → moves_on s (read_inner s).2.
Proof.
  intros Hs. pose proof (preserves_read_inner (λ _, True) moves_on) as Hp.
  assert (Preserves (λ _, True) moves_on next_byte) as Hnext.
  { intros s0. destruct (next_byte s0) as [r s0'] eqn:E.
    assert (moves_on s0 s0') as Hm.
    { intros [Hi Hr]. pose proof (next_byte_ok s0 Hi Hr) as H. rewrite E in H.
      destruct r as [b|[e|]].
      - destruct H as ([c Hc] & ? & _). split; [split; [apply Hc|done]|]. eauto using consumes_moves.
      - assert (consumes [] s0 s0') as Hc by (destruct e; apply H).
        split; [split; [apply Hc|by eapply consumes_roomy]|]. eauto using consumes_moves.
      - destruct H as [Hc _]. split; [split; [apply Hc|by eapply consumes_roomy]|]. eauto using consumes_moves. }
    by destruct r. }
  assert (∀ i s, moves_on s (set_current_node i s)) as Hset.
  { intros i s0 Hs0. split; [done|]. exists []. split; rewrite ?app_nil_r; try done.
    simpl. destruct (capture (main s0)); [|done]. simpl. by rewrite app_nil_r. }
  specialize (Hp Hnext Hset s). destruct (read_inner s) as [[r|e] s']; [done|by apply Hp].
Qed.

(** ** Lemmas: one call of [read] *)

(** A session a reader may be called on. *)
Definition session_ok (s : Session) : Prop :=
  reader_inv s ∧ Z.of_nat (length (unread s)) ≤ MAX_NATIVE_RESPONSE_BYTES ∧
  match capture (main s) with
  | Some cap => Z.of_nat (length cap + length (unread s)) ≤ MAX_NATIVE_RESPONSE_BYTES
  | None => True
  end.

Lemma session_ok_cleared s : session_ok s → source_inv (on_main (set_read_capture []) s).
Proof. intros (Hi & Hu & Hc). split; [done|]. split; [|done]. simpl. done. Qed.

(** What a call of [read_locked] did. *)
Definition read_ok (s : Session) (o : result Stop WingResponse * Session) : Prop :=
  match o with
  | (Ok r, s') => session_ok s' ∧ deliver s = r :: deliver s'
  | (Err (Fail Timeout), s') =>
    unread s' = unread s ∧ current_node_id (main s') = current_node_id (main s)
    ∧ pending (main s') = pending (main s) ∧ reader_inv s'
  | (Err (Fail InvalidData), s') => pending (main s) = [] ∧ (read_inner (stream_of s)).1 = Err (Fail InvalidData)
  | (Err Blocked, s') => deliver s = []
  | (Err (Fail e), s') => e = Reconnecting ∨ severed e = true
  end
  ∧ match o.1 with
    | Ok _ | Err (Fail Timeout) =>
      stream_tainted s = false ∧ stream_tainted o.2 = stream_tainted s
      ∧ (capture (main s) = None → capture (main o.2) = None)
    | _ => True
    end.

Lemma moves_session_ok l s s' :
  reader_inv s' → moves l (on_main (set_read_capture []) s) s' → session_ok s →
  session_ok (on_main (set_read_capture []) s').
Proof.
  intros Hi [] (_ & Hu & Hc). change (unread (on_main _ s)) with (unread s) in mov_unread0.
  change (capture (main (on_main _ s))) with (capture (main s)) in mov_capture0.
  split; [exact Hi|]. change (unread (on_main _ s')) with (unread s').
  change (capture (main (on_main _ s'))) with (capture (main s')). rewrite mov_capture0.
  rewrite mov_unread0, length_app in *. split; [lia|].
  destruct (capture (main s)) as [cap|]; [|done]. simpl. rewrite length_app, length_map. lia.
Qed.

Lemma unread_rollback l n s s' :
  moves l (on_main (set_read_capture []) s) s' → unread (on_main (rollback n) s') = unread s.
Proof.
  intros []. change (unread (on_main _ s)) with (unread s) in mov_unread0. simpl in mov_read_capture0.
  rewrite mov_unread0. unfold unread, rollback. simpl. by rewrite mov_read_capture0, <- (assoc_L (++)).
Qed.

Lemma finish_read_ok s :
  session_ok s → pending (main s) = [] → stream_tainted s = false →
  read_ok s (finish_read (current_node_id (main s)) (read_inner (on_main (set_read_capture []) s))).
Proof.
  intros Hs Hp Ht. set (s1 := on_main (set_read_capture []) s).
  assert (source_inv s1) as Hi1 by by apply session_ok_cleared.
  pose proof (read_same_stream s1 (stream_of s) (conj Hi1 eq_refl)) as Hsim.
  destruct (read_inner_moves s1 Hi1 Hi1) as [Hi2 [l Hl]].
  assert (deliver s = parse_responses (stream_of s)) as Hd by (unfold deliver; by rewrite Hp).
  assert (stream_tainted s = false ∧ stream_tainted (read_inner s1).2 = stream_tainted s
    ∧ (capture (main s) = None → capture (main (read_inner s1).2) = None)) as Hframe.
  { split; [done|]. rewrite (mov_tainted _ _ _ Hl), (mov_capture _ _ _ Hl). split; [done|].
    simpl. by intros ->. }
  destruct (read_inner s1) as [[r|e] s2]; cbn [fst snd] in *.
  - destruct Hsim as (l2 & E & _ & <-). cbn [finish_read]. split.
    + split; [eapply moves_session_ok; [apply Hi2|done|done]|].
      rewrite Hd, parse_responses_eq, E. unfold deliver. f_equal. simpl.
      rewrite (mov_pending _ _ _ Hl). simpl. by rewrite Hp.
    + exact Hframe.
  - assert (∀ e', severed e' = true → read_ok s
      ((let! flagged := load_reconnecting in throw (Fail (if flagged : bool then Reconnecting else e')))
         (on_main (set_read_capture []) s2))) as Hsev.
    { intros e' He. destruct (load_reconnecting_keeps (on_main (set_read_capture []) s2))
        as (b & s3 & E3 & _). unfold bind. rewrite E3. destruct b; [by repeat split; left|].
      destruct e'; try done; by repeat split; right. }
    destruct Hsim as [He|(l2 & E)].
    + destruct e as [[]|]; try done; cbn [finish_read severed]; try by apply Hsev.
      * split; [|exact Hframe].
        split_and!; [by apply unread_rollback with (s := s) (l := l)|done| |apply Hi2].
        simpl. by rewrite (mov_pending _ _ _ Hl).
      * by repeat split; left.
    + pose proof (stream_errors _ _ _ E) as [-> | ->]; cbn [finish_read severed].
      * by split; [rewrite Hd, parse_responses_eq, E|].
      * by split; [split; [done|by rewrite E]|].
Qed.

Lemma read_locked_ok s : session_ok s → read_ok s (read_locked s).
Proof.
  intros Hs. unfold read_locked, gets, bind at 1. cbv beta iota.
  destruct (stream_tainted s) eqn:Et; [by repeat split; right|].
  unfold load_reconnecting, bind at 1. destruct (look (reconnecting s)) as [flag d].
  set (s1 := set_reconnecting d s). destruct flag; [by repeat split; left|].
  unfold bind at 1. cbv beta iota. destruct (pending (main s1)) as [|r rest] eqn:Ep.
  - exact (finish_read_ok s1 Hs Ep Et).
  - split; [|by split]. split; [exact Hs|]. unfold deliver. change (main s) with (main s1). rewrite Ep. done.
Qed.

(** ** Lemmas: an environment in which nothing goes wrong *)

(** Nothing waits on this side of the wire: the state in which a turn refills. *)
Definition drained (m : Main) : Prop := replay m = [] ∧ rx_events m = [] ∧ rx_buf m = [].

Section Steady.
Context (ok : list Pass → Prop) (E : Stop → Session → Prop).
Hypothesis Hrefill : ∀ s, steady ok s → drained (main s) →
  match refill s with (Ok _, s') => steady ok s' | (Err e, s') => E e s' end.
Hypothesis Hinvalid : ∀ s, steady ok s → E (Fail InvalidData) s.

Abbreviation holds := (stays (steady ok) E).

Lemma steady_deliver_byte x : holds (deliver_byte x).
Proof. intros s Hs. rewrite deliver_byte_eq. destruct (_ <=? _); [by apply Hinvalid|exact Hs]. Qed.

Lemma steady_decode_buffered b rest : holds (decode_buffered b rest).
Proof.
  unfold decode_buffered. apply stays_bind; [apply stays_gets|]. intros d.
  destruct (push_byte d b) as [ev d'] eqn:Ed. apply stays_bind; [by apply stays_modify|]. intros _.
  apply stays_bind.
  { intros s Hs. destruct ev as [p|e]; [done|]. assert (e = InvalidData) as ->.
    { unfold push_byte in Ed. repeat split_match_in Ed; congruence. }
    by apply Hinvalid. }
  intros p. apply stays_bind; [apply stays_modify; by destruct p as [? []]|]. intros _.
  repeat case_match; auto using stays_ret, steady_deliver_byte.
Qed.

Lemma steady_decode_turn : holds decode_turn.
Proof.
  intros s Hs. unfold decode_turn, bind at 1. destruct Hs as (Hr & Hd & Hsc).
  unfold load_reconnecting. rewrite Hr. cbn [look].
  assert (steady ok (set_reconnecting None s)) as Hs1 by done.
  revert Hs1. generalize (set_reconnecting None s). clear - Hrefill Hinvalid. intros s Hs. cbv iota.
  unfold gets, bind at 1. cbv beta iota. destruct (replay (main s)) as [|x rest] eqn:Er.
  2: { clear Er. revert s Hs. apply (stays_bind _ _ (A := unit)); [by apply stays_modify|]. intros _. apply steady_deliver_byte. }
  pose proof (pop_audio_spec (rx_events (main s))) as Hev.
  destruct (pop_audio (rx_events (main s))) as [[v|] events].
  { clear Er Hev. revert s Hs. apply (stays_bind _ _ (A := unit)); [by apply stays_modify|]. intros _. apply steady_deliver_byte. }
  destruct Hev as (_ & _ & Hev). specialize (Hev eq_refl) as ->.
  destruct (rx_buf (main s)) as [|b rest] eqn:Eb.
  2: { clear Er Eb. revert s Hs. apply (stays_bind _ _ (A := unit)); [by apply stays_modify|]. intros _. apply steady_decode_buffered. }
  unfold bind at 1, modify. cbv beta iota. set (s1 := on_main (set_events []) s).
  pose proof (Hrefill s1 Hs (conj Er (conj eq_refl Eb))) as Hs2.
  unfold bind at 1. destruct (refill s1) as [[filled|e] s2]; [|done]. revert s2 Hs2.
  destruct filled; [|apply stays_ret]. apply stays_bind; [apply stays_gets|].
  intros [|b l]; [apply stays_ret|apply steady_decode_buffered].
Qed.

Lemma steady_decode_loop n s :
  reader_inv s → (backlog s < n)%nat → steady ok s →
  match decode_loop n s with (Ok _, s') => steady ok s' | (Err e, s') => E e s' end.
Proof.
  revert s. induction n as [|n IH]; intros s Hi Hn Hs; [lia|]. cbn [decode_loop]. unfold bind.
  pose proof (steady_decode_turn s Hs) as Ht. pose proof (decode_turn_ok s Hi) as Ho.
  destruct (decode_turn s) as [[[x|]|e] s1]; try done.
  destruct Ho as [Ha Hb]. apply IH; [apply Ha|lia|done].
Qed.

(** [next_byte] and [read_inner] from the states the source promises to work in. *)
Abbreviation steady_source := (λ s, steady ok s ∧ source_inv s).

Lemma steady_next_byte : stays steady_source E next_byte.
Proof.
  intros s [Hs [Hi Hr]]. pose proof (next_byte_ok s Hi Hr) as Hn. cbn [next_byte session_source] in *.
  assert (match decode_next s with (Ok _, s') => steady ok s' | (Err e, s') => E e s' end) as Hd.
  { unfold decode_next, decode_next_inner, bind at 1.
    pose proof (steady_decode_loop (S (backlog s)) s Hi ltac:(lia) Hs) as Hl.
    destruct (decode_loop (S (backlog s)) s) as [[x|e] s1]; [|done]. revert s1 Hl.
    apply stays_bind; [apply stays_gets|]. intros [cap|]; [|apply stays_ret].
    apply (stays_bind _ _ (A := unit)).
    { unfold ensure_native_response_capacity. destruct (_ <=? _); [by apply stays_throw|apply stays_ret]. }
    intros _.
    apply stays_bind; [by apply stays_modify|]. intros; apply stays_ret. }
  unfold bind at 1. unfold bind at 1 in Hn. destruct (decode_next s) as [[x|e] s1]; [|done]. cbn [ret] in *.
  split; [done|]. destruct Hn as ([c Hc] & ? & _). split; [apply Hc|done].
Qed.

Lemma steady_read_inner : stays steady_source E read_inner.
Proof.
  refine (stays_read_inner _ _ steady_next_byte _ _ _).
  - by intros i s [? [? ?]].
  - intros s [? _]. by apply Hinvalid.
  - by intros s [_ ?].
Qed.
End Steady.

Lemma clean_next_byte :
  stays (λ s, clean s ∧ source_inv s) (λ e _, ¬ environment_stop e) next_byte.
Proof.
  apply steady_next_byte; [|by intros s _ []]. intros s Hs _. pose proof (refill_clean s Hs) as H.
  destruct (refill s) as [[[]|e] s']; [done..|]. subst. by intros [].
Qed.

(** In a clean environment a session and its stream agree on every outcome. *)
Definition clean_stream (s : Session) (l : ByteStream) : Prop := same_stream s l ∧ clean s.

Lemma read_clean_stream : sim clean_stream (λ _, False) read_inner read_inner.
Proof.
  apply sim_read_inner.
  - intros s l [HR Hs]. pose proof (next_same_stream s l HR) as H.
    pose proof (clean_next_byte s (conj Hs (proj1 HR))) as Hc.
    destruct (next_byte s) as [[b|e] s'] eqn:E.
    + destruct H as (l' & E' & HR'). destruct Hc. exists l'. by split.
    + destruct H as [?|?]; [done|by right].
  - by intros i s l [[[] <-] ?].
  - by intros s l [[? _] _].
  - by intros s l [[_ <-] _].
Qed.

(** ** Lemmas: a wire that ends *)

(** The wire fails after these passes, as a socket does at the end of its input. *)
Definition ending (passes : list Pass) : Prop :=
  ∃ ps due, passes = ps ++ [mk_pass due None (ReadFailed OtherKind)]
    ∧ Forall pass_clean ps ∧ match due with Some (Some _) => False | _ => True end.

Definition ends : Session → Prop := steady ending.

(** A read stops for a malformed response, or with the wire read to its end. *)
Definition end_stop (e : Stop) (s : Session) : Prop :=
  e = Fail InvalidData ∨ e = Fail (Io OtherKind) ∧ incoming s = [] ∧ unread s = [] ∧ reconnecting s = None.

Lemma refill_ends s :
  ends s → drained (main s) →
  match refill s with (Ok _, s') => ends s' | (Err e, s') => end_stop e s' end.
Proof.
  intros (Hr & Hd & ps & due & Es & Hps & Hdue) (Dr & De & Db). destruct ps as [|p ps].
  - pose proof (refill_spec s Db) as Hspec. revert Hspec. unfold refill, gets, bind, modify, throw, ret. rewrite Es. cbn [app keep_alive_due arm_failed socket_read].
    set (s1 := set_script _ s). pose proof (keep_alive_keeps s1 due) as Hk.
    destruct (keep_alive due s1) as [[[]|e] s2].
    2: { destruct Hk as (_ & _ & kind & ->). done. }
    destruct Hk as (_ & M2 & _ & R2). destruct (deadline_passed_keeps s2) as (b & s3 & -> & _ & _ & _ & R3 & D3).
    destruct D3 as [-> _]; [by rewrite M2|]. intros (_ & Hk & Hb & _). right.
    split_and!; [done..| |by simpl; rewrite R3, R2].
    unfold unread. rewrite (keeps_replay _ _ Hk), (keeps_events _ _ Hk), Dr, De, Hb. done.
  - apply Forall_cons_iff in Hps as [Hp Hps].
    destruct (refill_pass s p _ Hr Hd Es Hp) as (filled & s' & -> & Hr' & Hd' & Es').
    split_and!; [done..|]. by exists ps, due.
Qed.

Lemma ends_next_byte : stays (λ s, ends s ∧ source_inv s) end_stop next_byte.
Proof. apply (steady_next_byte _ _ refill_ends). by left. Qed.

Lemma ends_read_inner : stays (λ s, ends s ∧ source_inv s) end_stop read_inner.
Proof. apply (steady_read_inner _ _ refill_ends). by left. Qed.

(** Such a session does what its stream says, and fails where the stream has run out. *)
Lemma read_ending_stream s :
  ends s → source_inv s →
  match read_inner s with
  | (Ok r, s') => ∃ l, read_inner (stream_of s) = (Ok r, l)
  | (Err e, s') => (read_inner (stream_of s)).1 = Err (if decide (e = Fail InvalidData) then e else Blocked)
  end.
Proof.
  intros Hs Hi. set (R := λ s l, same_stream s l ∧ ends s).
  assert (sim R (λ e, e = Fail (Io OtherKind)) read_inner read_inner) as Hf.
  { apply sim_read_inner; [|by intros i s0 l0 [[[] <-] ?]|by intros s0 l0 [[? _] _]|by intros s0 l0 [[_ <-] _]].
    intros s0 l0 [HR Hs0]. pose proof (next_same_stream s0 l0 HR) as H.
    pose proof (ends_next_byte s0 (conj Hs0 (proj1 HR))) as Hc. destruct (next_byte s0) as [[b|e] s0'].
    - destruct H as (l' & E' & HR'). destruct Hc. exists l'. by split.
    - destruct Hc as [->|[-> _]]; [|by left]. destruct H as [[]|?]. by right. }
  assert (sim (λ l s, R s l) (λ e, e = Blocked) read_inner read_inner) as Hb.
  { apply sim_read_inner; [|by intros i s0 l0 [[[] <-] ?]|by intros s0 l0 [[? _] _]|by intros s0 l0 [[_ <-] _]].
    intros l0 s0 [HR Hs0]. pose proof (next_same_stream s0 l0 HR) as H.
    pose proof (ends_next_byte s0 (conj Hs0 (proj1 HR))) as Hc.
    pose proof (next_byte_ok s0 (proj1 (proj1 HR)) (proj2 (proj1 HR))) as Hn.
    destruct (next_byte s0) as [[b|e] s0'].
    - destruct H as (l' & -> & HR'). destruct Hc. exists s0'. by split.
    - destruct Hc as [->|(-> & _ & Hu & _)]; [by destruct Hn|].
      destruct Hn as [_ Hn]. destruct HR as [_ <-]. cbn [next_byte stream_source stream_of stream].
      rewrite (con_unread _ _ _ Hn), Hu. by left. }
  assert (R s (stream_of s)) as HR by by split. specialize (Hf _ _ HR). specialize (Hb _ _ HR).
  pose proof (ends_read_inner s (conj Hs Hi)) as He. destruct (read_inner s) as [[r|e] s'].
  - destruct Hf as (l & -> & _). by eexists.
  - destruct He as [->|[-> _]].
    { rewrite decide_True by done. by destruct Hf as [?|(l & ->)]. }
    rewrite decide_False by done.
    destruct (read_inner (stream_of s)) as [[r|e] l] eqn:E; [by destruct Hb as (? & ? & _)|].
    destruct Hb as [->|(? & ?)]; [done|]. simplify_eq. by destruct (stream_errors _ _ _ E).
Qed.

Lemma read_clean_next s r rest :
  session_ok s → clean s → stream_tainted s = false → deliver s = r :: rest →
  ∃ s', read_locked s = (Ok r, s') ∧ session_ok s' ∧ clean s' ∧ stream_tainted s' = false
    ∧ deliver s' = rest.
Proof.
  intros Hs Hc Ht Hd. assert (∃ s', read_locked s = (Ok r, s') ∧ clean s') as (s' & E & Hc').
  { unfold read_locked, gets, bind at 1. cbv beta iota. rewrite Ht. destruct Hc as (Hr & Hdl & Hsc).
    unfold load_reconnecting, bind at 1. rewrite Hr. cbn [look]. set (s1 := set_reconnecting None s).
    assert (clean s1) as Hc1 by done. unfold bind at 1. cbv beta iota.
    destruct (pending (main s1)) as [|r' rest'] eqn:Ep.
    - assert (clean_stream (on_main (set_read_capture []) s1) (stream_of s1)) as Hcs.
      { split; [|done]. split; [by apply session_ok_cleared|done]. }
      pose proof (read_clean_stream _ _ Hcs) as Hsim.
      unfold deliver in Hd. change (main s) with (main s1) in Hd. rewrite Ep in Hd.
      change (stream_of s) with (stream_of s1) in Hd. simpl in Hd. rewrite parse_responses_eq in Hd.
      destruct (read_inner (on_main (set_read_capture []) s1)) as [[r1|e] s2].
      + destruct Hsim as (l & E & _ & Hc2). rewrite E in Hd. injection Hd as -> _. cbn [finish_read].
        by eexists.
      + destruct Hsim as [[]|(l & E)]. by rewrite E in Hd.
    - unfold deliver in Hd. change (main s) with (main s1) in Hd. rewrite Ep in Hd. injection Hd as -> _.
      by eexists. }
  pose proof (read_locked_ok s Hs) as H. rewrite E in H. destruct H as [[Hs' Hd'] (_ & Ht' & _)].
  exists s'. simpl in Ht'. split_and!; try done; [congruence|]. rewrite Hd in Hd'. by injection Hd'.
Qed.

(** Successive reads. *)
Fixpoint read_times (n : nat) : Read (list WingResponse) :=
  match n with
  | O => ret []
  | S n => let! r := read in let! rs := read_times n in ret (r :: rs)
  end.

Lemma read_times_clean l s :
  session_ok s → clean s → stream_tainted s = false → deliver s = l →
  ∃ s', read_times (length l) s = (Ok l, s') ∧ deliver s' = [].
Proof.
  revert s. induction l as [|r l IH]; intros s Hs Hc Ht Hd; [by eexists|].
  destruct (read_clean_next s r l Hs Hc Ht Hd) as (s1 & E & Hs1 & Hc1 & Ht1 & Hd1).
  destruct (IH s1 Hs1 Hc1 Ht1 Hd1) as (s2 & E2 & Hd2).
  exists s2. split; [|done]. cbn [length read_times]. unfold read, bind. by rewrite E, E2.
Qed.

(** The server's batches, as one stream, cut into socket reads in any way. *)
Lemma decoded_batch p : decoded (on_channel AUDIO_ENGINE_CHANNEL) (batch_frame p) = map (pair AUDIO_ENGINE_CHANNEL) p.
Proof.
  unfold decoded, batch_frame. erewrite push_app_ok by (apply push_select; done).
  rewrite push_escape. simpl. induction p as [|b p IH]; [done|]. simpl. by rewrite IH.
Qed.

Lemma new_session_deliver passes p :
  concat (map pass_bytes passes) = batch_frame p →
  unread (new_session passes) = map (pair AUDIO_ENGINE_CHANNEL) p ∧
  stream_of (new_session passes) = mk_stream p 0.
Proof.
  intros Hp. assert (unread (new_session passes) = map (pair AUDIO_ENGINE_CHANNEL) p) as Hu.
  { unfold unread, incoming. simpl. rewrite Hp. apply decoded_batch. }
  split; [done|]. unfold stream_of. rewrite Hu, map_map. simpl. by rewrite map_id.
Qed.

(** A session over a new connection, whatever was written on it and is still to be written. *)
Definition fresh (s : Session) : Prop :=
  main s = main (new_session []) ∧ stream_tainted s = false ∧ reconnecting s = None.

Lemma fresh_reads_batch s responses p :
  fresh s → Forall response_wf responses → encode_all responses = Ok p →
  Z.of_nat (length p) ≤ MAX_NATIVE_RESPONSE_BYTES →
  Forall pass_clean (script s) → concat (map pass_bytes (script s)) = batch_frame p →
  ∃ s', read_times (length responses) s = (Ok (map client_view responses), s') ∧ deliver s' = [].
Proof.
  destruct s as [m t r st passes ws]. intros (Hm & Ht & Hr) Hrs Hp Hlen Hpass Hcat. cbn in Hm, Ht, Hr, Hpass, Hcat.
  subst m t r. destruct (new_session_deliver passes p Hcat) as [Hu Hst].
  rewrite <- (length_map client_view responses). apply read_times_clean; try done.
  - split; [by eexists|]. split; [|done]. etransitivity; [|exact Hlen].
    change (Z.of_nat (length (unread (new_session passes))) ≤ Z.of_nat (length p)). by rewrite Hu, length_map.
  - transitivity (deliver (new_session passes)); [done|]. unfold deliver. rewrite Hst. by apply parse_encoded.
Qed.

(** ** Properties *)

(** C1: end to end, what the server encodes the client reads: if the socket delivers a
    batch of encoded responses in any number of pieces, with any idle wake-ups and
    keep-alives in between, then reading as many times as there are responses returns
    them all, in order, values and definitions intact, and nothing is left over. *)
Theorem client_reads_server_batch responses p passes :
  Forall response_wf responses → encode_all responses = Ok p →
  Z.of_nat (length p) ≤ MAX_NATIVE_RESPONSE_BYTES →
  Forall pass_clean passes → concat (map pass_bytes passes) = batch_frame p →
  ∃ s', read_times (length responses) (new_session passes) = (Ok (map client_view responses), s')
    ∧ deliver s' = [].
Proof.
  intros. by apply (fresh_reads_batch (new_session passes) responses p).
Qed.

(** C2: a bounded read is cancellation-safe: when it times out, wherever inside a response
    the deadline struck, every byte it had consumed is back in front of the stream and the
    current node is restored, so the session will deliver exactly the responses it would
    have delivered had the read never been attempted. *)
Theorem read_timeout_lossless s timeout s' :
  session_ok s → read_timeout timeout s = (Err (Fail Timeout), s') →
  unread s' = unread s ∧ stream_of s' = stream_of s ∧ deliver s' = deliver s ∧
  op_deadline (main s') = None ∧ (capture (main s') = None → session_ok s').
Proof.
  intros Hs E. unfold read_timeout, with_deadline in E.
  pose proof (read_locked_ok (on_main (set_deadline (Some timeout)) s) Hs) as H.
  destruct (read_locked (on_main (set_deadline (Some timeout)) s)) as [[r|[e|]] s1]; simplify_eq.
  destruct H as [(Hu & Hn & Hp & Hi) _].
  change (unread (on_main (set_deadline (Some timeout)) s)) with (unread s) in Hu.
  change (unread (on_main _ s1)) with (unread s1).
  assert (stream_of s1 = stream_of s) as Hst by (unfold stream_of; rewrite Hu; f_equal; exact Hn).
  split_and!; [done|exact Hst| |done|].
  - unfold deliver. change (stream_of (on_main _ s1)) with (stream_of s1). rewrite Hst. f_equal. exact Hp.
  - intros Hc. destruct Hs as (_ & Hl & _). split; [exact Hi|]. change (unread (on_main _ s1)) with (unread s1); split; [by rewrite Hu|]. by rewrite Hc.
Qed.

(** Whatever the environment does, a read that succeeds returns the next response the
    session has to deliver, queued ones first, and leaves the rest; [InvalidData] means the
    stream itself is malformed there; a blocked read has nothing left to deliver; and the
    other errors are a reconnect or a lost connection. *)
Theorem read_delivers s :
  session_ok s →
  match read s with
  | (Ok r, s') => session_ok s' ∧ deliver s = r :: deliver s'
  | (Err Blocked, _) => deliver s = []
  | (Err (Fail InvalidData), _) =>
    pending (main s) = [] ∧ (read_inner (stream_of s)).1 = Err (Fail InvalidData)
  | (Err (Fail e), _) => e ∈ [Timeout; Reconnecting; ConnectionError] ∨ ∃ kind, e = Io kind
  end.
Proof.
  intros Hs. unfold read. pose proof (read_locked_ok s Hs) as H.
  destruct (read_locked s) as [[r|[e|]] s']; destruct H as [H _]; [done| |done].
  destruct e; try done; try (left; set_solver); try (right; by eexists);
    destruct H as [H|H]; try done; left; set_solver.
Qed.

(** C3: the loop of [decode_next_inner] ends: with as much fuel as there is work in the
    buffers and the script it gives the same result as with any more, so [Blocked] only
    ever means that the wire has brought nothing more. *)
Theorem decode_next_terminates n s :
  reader_inv s → (backlog s < n)%nat →
  decode_loop n s = decode_next_inner s ∧
  match decode_next_inner s with (Err Blocked, _) => unread s = [] | _ => True end.
Proof.
  intros Hi Hn. split; [apply decode_loop_fuel; [done|lia..]|].
  pose proof (decode_loop_ok (S (backlog s)) s Hi ltac:(lia)) as H. unfold decode_next_inner, next_ok in *.
  destruct (decode_loop _ s) as [[x|[e|]] s']; [done..|]. apply H.
Qed.

(** *** Witnesses *)

(** A batch cut in the middle of an escape sequence and of a value, around an idle wake-up. *)
Definition sample_batch : list NativeResponse :=
  [NativeResponses.NodeData 0xdf (NativeValues.Integer (-2));
   NativeResponses.AuthoritativeEvent 5 (NativeValues.String (str "on"));
   NativeResponses.RequestEnd].

Definition sample_payload : list byte :=
  match encode_all sample_batch with Ok p => p | Err _ => [] end.

Definition sample_passes : list Pass :=
  [mk_pass None None (Received (take 7 (batch_frame sample_payload)));
   mk_pass (Some None) None (ReadFailed WouldBlock);
   mk_pass None None (Received (drop 7 (batch_frame sample_payload)))].

Lemma client_reads_server_batch_witness :
  ∃ s', read_times 3 (new_session sample_passes)
    = (Ok [WingResponses.NodeData 0xdf (with_i32 (-2)); WingResponses.NodeData 5 (with_string (str "on"));
           WingResponses.RequestEnd], s') ∧ deliver s' = [].
Proof.
  apply (client_reads_server_batch sample_batch sample_payload sample_passes).
  - unfold sample_batch. each_elem; simpl; try done; split; try done; width.
  - reflexivity.
  - vm_compute. discriminate.
  - unfold sample_passes. each_elem; split; done.
  - vm_compute. reflexivity.
Defined.

(** The deadline strikes inside the second response. *)
Lemma read_timeout_lossless_witness :
  let s := new_session [mk_pass None None (Received (take 9 (batch_frame sample_payload)));
                        mk_pass None None (ReadFailed TimedOut)] in
  deliver (read_timeout (Some 1%nat) s).2 = deliver s ∧ (read_timeout (Some 1%nat) s).1 = Err (Fail Timeout).
Proof.
  intros s. split; [|vm_compute; reflexivity].
  destruct (read_timeout (Some 1%nat) s) as [r s'] eqn:E.
  assert (r = Err (Fail Timeout)) as -> by (apply (f_equal fst) in E; vm_compute in E; by rewrite <- E).
  refine (proj1 (proj2 (proj2 (read_timeout_lossless s (Some 1%nat) s' _ E)))).
  split; [by eexists|]. split; [vm_compute; discriminate|done].
Defined.

Lemma read_delivers_witness :
  deliver (new_session sample_passes) =
    WingResponses.NodeData 0xdf (with_i32 (-2)) :: deliver (read (new_session sample_passes)).2.
Proof.
  assert (session_ok (new_session sample_passes)) as Hs
    by (split; [by eexists|]; split; [vm_compute; discriminate|done]).
  pose proof (read_delivers (new_session sample_passes) Hs) as H.
  destruct (read (new_session sample_passes)) as [r s'] eqn:E.
  assert (r = Ok (WingResponses.NodeData 0xdf (with_i32 (-2)))) as ->
    by (apply (f_equal fst) in E; vm_compute in E; by rewrite <- E).
  apply H.
Defined.

Lemma decode_next_terminates_witness :
  decode_loop 100 (new_session sample_passes) = decode_next_inner (new_session sample_passes).
Proof.
  apply (decode_next_terminates 100 (new_session sample_passes)); [by eexists|].
  vm_compute. lia.
Defined.
