(* ===== verification/Attended.v ===== *)
(** Attended operations ([src/src/console.rs], [attended_read_until], [get_node_data],
    [get_node_definition], [get_node_definitions], [get_nodes], [get_binary_node]): a
    request, and reading until its answer arrives or a deadline passes.  Responses that
    belong to somebody else are handed back or put back in the queue, in order.

    The loops run on fuel, the queued responses and undecoded bytes of the session;
    [attended_loop_ok] and its siblings show that it never runs out. *)

From stdpp Require Import gmap.
From S2P Require Import Prelude Bytes Lib Utf8 F32 Channel NodeDef NodeData.
From S2P Require Import Meter NativeRequest NativeResponse ClientMessages ResponseReader ClientReader.
Local Open Scope Z_scope.
Local Open Scope rust_scope.

(** ** Requests *)

(** [MAX_ATTENDED_BUFFERED]. *)
Definition MAX_ATTENDED_BUFFERED : Z := 64 * 1024.

Definition ensure_stream_usable : Read unit :=
  let! tainted := gets stream_tainted in
  if tainted : bool then throw (Fail ConnectionError) else ret tt.

(** [wsock.write_all(buf)]. *)
Definition write_all (buf : list byte) : Read unit := λ s,
  match write_results s with
  | Some kind :: later => (Err (Fail (Io kind)), set_write_results later s)
  | None :: later => (Ok tt, set_sent (sent s ++ buf) (set_write_results later s))
  | [] => (Ok tt, set_sent (sent s ++ buf) s)
  end.

Definition send_request (buf : list byte) : Read unit :=
  let! _ := ensure_stream_usable in write_all buf.

(** ** Reading until a match *)

Definition requeue (responses : list WingResponse) : Read unit :=
  modify (on_main (λ m, set_pending (responses ++ pending m) m)).

(** [mem::take(&mut main.pending)]. *)
Definition take_pending : Read (list WingResponse) := λ s,
  (Ok (pending (main s)), on_main (set_pending []) s).

(** A bound on the responses a session can still produce. *)
Definition work (s : Session) : nat := length (pending (main s)) + backlog s.

Section Attended.
Context {T : Type} (matcher : WingResponse → option T).

Fixpoint attended_loop (fuel : nat) (buffered : list WingResponse)
    : Read (T * list WingResponse) := λ s,
  match fuel with
  | O => (Err Blocked, s)
  | S fuel =>
    match read_locked s with
    | (Err (Fail Timeout), s) => (requeue buffered ;;! throw (Fail Timeout)) s
    | (Err e, s) => (Err e, s)
    | (Ok resp, s) =>
      match matcher resp with
      | Some matched => (Ok (matched, buffered), s)
      | None =>
        if MAX_ATTENDED_BUFFERED <=? Z.of_nat (length buffered) then (Err (Fail InvalidData), s)
        else
          let buffered := buffered ++ [resp] in
          (let! expired := deadline_passed in
           if expired : bool then requeue buffered ;;! throw (Fail Timeout)
           else attended_loop fuel buffered) s
      end
    end
  end.

Definition attended_read_until : Read (T * list WingResponse) := λ s,
  attended_loop (S (work s)) [] s.
End Attended.

Definition matches_data (id : Z) (resp : WingResponse) : option WingNodeData :=
  match resp with
  | WingResponses.NodeData rid data => if rid =? id then Some data else None
  | _ => None
  end.

Definition matches_definition (id : Z) (resp : WingResponse) : option WingNodeDef :=
  match resp with
  | WingResponses.NodeDef def => if def_id def =? id then Some def else None
  | _ => None
  end.

Definition get_node_data (id : Z) (timeout : Deadline) : Read (WingNodeData * list WingResponse) :=
  let! _ := send_request (request_node_data id) in
  with_deadline timeout (attended_read_until (matches_data id)).

Definition get_node_definition (id : Z) (timeout : Deadline) : Read (WingNodeDef * list WingResponse) :=
  let! _ := send_request (request_node_definition id) in
  with_deadline timeout (attended_read_until (matches_definition id)).

(** ** A subtree of definitions *)

(** The locals of the loop of [get_node_definitions]. *)
Record Sweep := mk_sweep {
  sweep_ids : gset Z;
  sweep_defs : list WingNodeDef;
  sweep_buffered : list WingResponse;
}.

(** One response: on with the sweep, or its end. *)
Definition sweep_step (w : Sweep) (resp : WingResponse) : result Error (Sweep * bool) :=
  let other :=
    if Z.of_nat (length (sweep_buffered w)) <? MAX_ATTENDED_BUFFERED
    then Ok (mk_sweep (sweep_ids w) (sweep_defs w) (sweep_buffered w ++ [resp]), false)
    else Err InvalidData in
  match resp with
  | WingResponses.NodeDef def =>
    if bool_decide (def_id def ∈ sweep_ids w) || bool_decide (def_parent_id def ∈ sweep_ids w)
    then Ok (mk_sweep ({[def_id def]} ∪ sweep_ids w) (sweep_defs w ++ [def]) (sweep_buffered w), false)
    else other
  | WingResponses.RequestEnd =>
    if bool_decide (sweep_defs w ≠ []) then Ok (w, true) else other
  | WingResponses.NodeData _ _ => other
  end.

Fixpoint sweep_loop (fuel : nat) (w : Sweep) : M Session Stop (result Error (list WingNodeDef) * list WingResponse) := λ s,
  match fuel with
  | O => (Err Blocked, s)
  | S fuel =>
    match read_locked s with
    | (Err Blocked, s) => (Err Blocked, s)
    | (Err (Fail e), s) => (Ok (Err e, sweep_buffered w), s)
    | (Ok resp, s) =>
      match sweep_step w resp with
      | Err e => (Ok (Err e, sweep_buffered w), s)
      | Ok (w, true) => (Ok (Ok (sweep_defs w), sweep_buffered w), s)
      | Ok (w, false) =>
        (let! expired := deadline_passed in
         if expired : bool then ret (Err Timeout, sweep_buffered w) else sweep_loop fuel w) s
      end
    end
  end.

Definition get_node_definitions (root_id : Z) (timeout : Deadline) : Read (list WingNodeDef) :=
  let! earlier := take_pending in
  λ s,
  match send_request (request_node_definition root_id) s with
  | (Err e, s) => (requeue earlier ;;! throw e) s
  | (Ok _, s) =>
    (let! outcome := with_deadline timeout (λ s, sweep_loop (S (work s)) (mk_sweep {[root_id]} [] []) s) in
     let! _ := requeue (earlier ++ outcome.2) in
     fallible outcome.1) s
  end.

(** ** Several nodes *)

Definition stash_early (id : Z) (ids : list Z) (stash : gmap Z WingNodeData) (resp : WingResponse)
    : gmap Z WingNodeData :=
  match resp with
  | WingResponses.NodeData bid bdata =>
    if negb (bid =? id) && bool_decide (bid ∈ ids)
    then match stash !! bid with Some _ => stash | None => <[bid := bdata]> stash end
    else stash
  | _ => stash
  end.

Fixpoint get_nodes_loop (ids todo : list Z) (timeout_per_node : Deadline) (stash : gmap Z WingNodeData)
    : Read (list (Z * Result WingNodeData)) :=
  match todo with
  | [] => ret []
  | id :: todo =>
    match stash !! id with
    | Some data =>
      let! out := get_nodes_loop ids todo timeout_per_node (delete id stash) in
      ret ((id, Ok data) :: out)
    | None => λ s,
      match get_node_data id timeout_per_node s with
      | (Err Blocked, s) => (Err Blocked, s)
      | (Err (Fail err), s) =>
        (let! out := get_nodes_loop ids todo timeout_per_node stash in ret ((id, Err err) :: out)) s
      | (Ok (data, buffered), s) =>
        let stash := foldl (stash_early id ids) stash buffered in
        (let! out := get_nodes_loop ids todo timeout_per_node stash in ret ((id, Ok data) :: out)) s
      end
    end
  end.

Definition get_nodes (ids : list Z) (timeout_per_node : Deadline) : Read (list (Z * Result WingNodeData)) :=
  get_nodes_loop ids ids timeout_per_node ∅.

(** ** A raw capture *)

Fixpoint capture_loop (fuel : nat) : M Session Stop (result Error unit) := λ s,
  match fuel with
  | O => (Err Blocked, s)
  | S fuel =>
    match read_locked s with
    | (Err Blocked, s) => (Err Blocked, s)
    | (Err (Fail e), s) => (Ok (Err e), s)
    | (Ok WingResponses.RequestEnd, s) => (Ok (Ok tt), s)
    | (Ok _, s) =>
      (let! expired := deadline_passed in
       if expired : bool then ret (Err Timeout) else capture_loop fuel) s
    end
  end.

Definition get_binary_node (id : Z) (timeout : Deadline) : Read (list byte) :=
  let! _ := send_request (request_node_data id) in
  let! _ := modify (on_main (set_capture (Some []))) in
  let! _ := modify (on_main (set_deadline (Some timeout))) in
  let! earlier := take_pending in
  let! outcome := (λ s, capture_loop (S (work s)) s) in
  let! _ := requeue earlier in
  let! _ := modify (on_main (set_deadline None)) in
  let! captured := gets (λ s, default [] (capture (main s))) in
  let! _ := modify (on_main (set_capture None)) in
  let! _ := (match outcome with Err Timeout => modify (set_tainted true) | _ => ret tt end) in
  fallible (map_ok (λ _, captured) outcome).

(** [set_binary_node], with the number of bytes written. *)
Definition write_binary_node (data : list byte) : Read nat :=
  let! _ := ensure_stream_usable in
  let! _ := write_all (set_binary_node data) in
  ret (length (set_binary_node data)).

(** ** Lemmas: reads inside a loop *)

Lemma work_eq s : work s = (length (pending (main s)) + backlog s)%nat.
Proof. done. Qed.

Lemma read_locked_less s r s' :
  session_ok s → read_locked s = (Ok r, s') → (work s' < work s)%nat.
Proof.
  intros Hs. unfold read_locked, gets, bind at 1. cbv beta iota.
  destruct (stream_tainted s); [done|]. unfold load_reconnecting, bind at 1.
  destruct (look (reconnecting s)) as [flag d]. set (s1 := set_reconnecting d s). destruct flag; [done|].
  unfold bind at 1. cbv beta iota. change (work s) with (work s1).
  destruct (pending (main s1)) as [|r' rest] eqn:Ep.
  - intros E. set (s2 := on_main (set_read_capture []) s1) in E.
    assert (source_inv s2) as Hi by by apply session_ok_cleared.
    destruct (read_inner s2) as [[r1|[e|]] s3] eqn:E1; cbn [finish_read] in E.
    + simplify_eq. destruct (read_inner_less _ _ _ Hi E1) as [_ Hlt].
      destruct (read_inner_moves s2 Hi Hi) as [_ [l Hl]]. rewrite E1 in Hl. simpl in Hl.
      rewrite !work_eq. change (pending (main (on_main _ s3))) with (pending (main s3)).
      rewrite (mov_pending _ _ _ Hl). simpl in Hlt.
      change (backlog (on_main _ s3)) with (backlog s3). change (backlog s2) with (backlog s1) in Hlt.
      simpl. lia.
    + destruct e; simpl in E; try done; unfold bind, load_reconnecting in E;
        repeat case_match; simplify_eq/=.
    + done.
  - intros [= <- <-]. rewrite !work_eq, Ep. simpl. unfold backlog. simpl. lia.
Qed.

Lemma deadline_passed_session s :
  ∃ b s1, deadline_passed s = (Ok b, s1) ∧ unread s1 = unread s ∧ stream_of s1 = stream_of s
    ∧ pending (main s1) = pending (main s) ∧ capture (main s1) = capture (main s)
    ∧ stream_tainted s1 = stream_tainted s ∧ work s1 = work s ∧ (session_ok s → session_ok s1).
Proof.
  unfold deadline_passed. destruct (op_deadline (main s)) as [d|]; [|by exists false, s].
  destruct (look d) as [b d']. by exists b, (on_main (set_deadline (Some d')) s).
Qed.

Lemma deliver_eq s s' :
  stream_of s' = stream_of s → pending (main s') = pending (main s) → deliver s' = deliver s.
Proof. intros H1 H2. unfold deliver. by rewrite H1, H2. Qed.

Lemma deliver_requeue rs s : deliver (on_main (λ m, set_pending (rs ++ pending m) m) s) = rs ++ deliver s.
Proof. unfold deliver. simpl. by rewrite <- (assoc_L (++)). Qed.

Definition unmatched {T} (matcher : WingResponse → option T) (r : WingResponse) : Prop := matcher r = None.

(** What [attended_loop] did since the read that filled [buffered]: [s0] is the session
    before the first of them. *)
Definition attended_ok {T} (matcher : WingResponse → option T) (s0 : Session)
    (o : result Stop (T * list WingResponse) * Session) : Prop :=
  match o with
  | (Ok (t, buffered), s') =>
    session_ok s' ∧ Forall (unmatched matcher) buffered ∧
    ∃ resp, matcher resp = Some t ∧ deliver s0 = buffered ++ resp :: deliver s'
  | (Err (Fail Timeout), s') => deliver s' = deliver s0 ∧ session_ok s'
  | (Err Blocked, _) => Forall (unmatched matcher) (deliver s0)
  | (Err (Fail e), _) =>
    e ∈ [InvalidData; Reconnecting; ConnectionError] ∨ ∃ kind, e = Io kind
  end.

Lemma timeout_session_ok s s' :
  session_ok s → capture (main s) = None → read_locked s = (Err (Fail Timeout), s') →
  session_ok s' ∧ deliver s' = deliver s.
Proof.
  intros Hs Hc E. pose proof (read_locked_ok s Hs) as H. rewrite E in H.
  destruct H as [(Hu & Hn & Hp & Hi) (_ & _ & Hc')]. destruct Hs as (_ & Hl & _). split.
  - split; [done|]. rewrite Hu. split; [done|]. simpl in Hc'. by rewrite Hc'.
  - apply deliver_eq; [|done]. unfold stream_of. by rewrite Hu, Hn.
Qed.

Section AttendedLemmas.
Context {T : Type} (matcher : WingResponse → option T).

Lemma attended_loop_ok fuel buffered s0 s :
  session_ok s → capture (main s) = None → (work s < fuel)%nat →
  Forall (unmatched matcher) buffered → deliver s0 = buffered ++ deliver s →
  attended_ok matcher s0 (attended_loop matcher fuel buffered s).
Proof.
  revert buffered s. induction fuel as [|fuel IH]; intros buffered s Hs Hc Hw Hb Hd; [lia|].
  cbn [attended_loop]. pose proof (read_locked_ok s Hs) as H.
  destruct (read_locked s) as [[resp|[e|]] s1] eqn:E.
  - destruct H as [[Hs1 Hd1] (_ & _ & Hc1)]. specialize (Hc1 Hc). simpl in Hc1.
    pose proof (read_locked_less _ _ _ Hs E) as Hw1.
    destruct (matcher resp) as [t|] eqn:Em.
    + split; [done|]. split; [done|]. exists resp. split; [done|]. by rewrite Hd, Hd1.
    + destruct (MAX_ATTENDED_BUFFERED <=? Z.of_nat (length buffered)); [left; set_solver|].
      destruct (deadline_passed_session s1)
        as (b & s2 & E2 & Hu2 & Hst2 & Hp2 & Hc2 & Ht2 & Hw2 & Hs2).
      unfold bind at 1. rewrite E2. specialize (Hs2 Hs1).
      assert (deliver s0 = (buffered ++ [resp]) ++ deliver s2) as Hd2.
      { rewrite (deliver_eq s1 s2), Hd, Hd1 by done. by rewrite <- (assoc_L (++)). }
      destruct b.
      * split; [|exact Hs2]. unfold requeue, bind, modify, throw. rewrite deliver_requeue. done.
      * apply IH; [done|congruence|lia| |done]. apply Forall_app. by split; [|apply Forall_singleton].
  - destruct H as [H _]. destruct e; try done; try (left; set_solver);
      try (right; by eexists); try (destruct H as [H|H]; [done|by simpl in H]).
    destruct (timeout_session_ok _ _ Hs Hc E) as [Hs1 Hd1]. unfold requeue, bind, modify, throw.
    split; [|exact Hs1]. rewrite deliver_requeue. congruence.
  - destruct H as [H _]. simpl in H. simpl. by rewrite Hd, H, app_nil_r.
Qed.

Lemma attended_read_until_ok s :
  session_ok s → capture (main s) = None →
  attended_ok matcher s (attended_read_until matcher s).
Proof. intros Hs Hc. apply attended_loop_ok; [done|done|lia|done|done]. Qed.

Lemma with_deadline_attended timeout s :
  session_ok s → capture (main s) = None →
  attended_ok matcher s (with_deadline timeout (attended_read_until matcher) s).
Proof.
  intros Hs Hc. unfold with_deadline.
  pose proof (attended_read_until_ok (on_main (set_deadline (Some timeout)) s) Hs Hc) as H.
  destruct (attended_read_until _ _) as [[[t b]|[e|]] s']; try done.
Qed.
End AttendedLemmas.

Lemma send_request_session buf s :
  match send_request buf s with
  | (Ok _, s') => main s' = main s ∧ script s' = script s ∧ sent s' = sent s ++ buf
      ∧ stream_tainted s' = stream_tainted s ∧ stream_tainted s = false
  | (Err (Fail e), s') => main s' = main s ∧ script s' = script s ∧ sent s' = sent s
      ∧ (e = ConnectionError ∧ stream_tainted s = true ∨ ∃ kind, e = Io kind)
  | (Err Blocked, _) => False
  end.
Proof.
  unfold send_request, ensure_stream_usable, gets, bind. cbv beta iota.
  destruct (stream_tainted s) eqn:Et; [simpl; split_and!; auto|]. unfold ret, write_all.
  destruct (write_results s) as [|[kind|] later]; simpl; try done. split_and!; try done. right. by eexists.
Qed.

Lemma same_main_unread s s' : main s' = main s → script s' = script s → unread s' = unread s.
Proof. intros H1 H2. unfold unread, incoming. by rewrite H1, H2. Qed.

Lemma same_main_session s s' :
  main s' = main s → script s' = script s →
  deliver s' = deliver s ∧ stream_of s' = stream_of s ∧ (session_ok s → session_ok s').
Proof.
  intros H1 H2. pose proof (same_main_unread s s' H1 H2) as Hu.
  assert (stream_of s' = stream_of s) as Hst by (unfold stream_of; by rewrite Hu, H1).
  split_and!; [by apply deliver_eq; [|rewrite H1]|done|].
  unfold session_ok, reader_inv. by rewrite Hu, H1.
Qed.

(** A request and its attended read, from the caller's side. *)
Lemma get_attended_ok {T} (matcher : WingResponse → option T) buf timeout s :
  session_ok s → capture (main s) = None →
  attended_ok matcher s
    ((let! _ := send_request buf in with_deadline timeout (attended_read_until matcher)) s).
Proof.
  intros Hs Hc. unfold bind. pose proof (send_request_session buf s) as H.
  destruct (send_request buf s) as [[[]|[e|]] s1]; [| |done].
  - destruct H as (H1 & H2 & _). destruct (same_main_session s s1 H1 H2) as (Hd & _ & Hs1).
    pose proof (with_deadline_attended matcher timeout s1 (Hs1 Hs) ltac:(by rewrite H1)) as H.
    destruct (with_deadline _ _ s1) as [[[t b]|[e|]] s2]; simpl in *; rewrite <- Hd; try done.
  - destruct H as (_ & _ & _ & [[-> _]|[kind ->]]); simpl; [left; set_solver|right; by eexists].
Qed.

(** ** Lemmas: the sweep *)

(** Every definition taken hangs together with the root through those before it. *)
Definition connected (root : Z) (ids : gset Z) (defs : list WingNodeDef) : Prop :=
  (∀ i, i ∈ ids → i = root ∨ ∃ d, d ∈ defs ∧ def_id d = i) ∧
  ∀ k d, defs !! k = Some d →
    def_id d = root ∨ def_parent_id d = root ∨
    ∃ j d', (j < k)%nat ∧ defs !! j = Some d' ∧ (def_id d' = def_parent_id d ∨ def_id d' = def_id d).

(** What the responses read so far became: each of them, in order, is a definition taken
    or a response set aside. *)
Inductive sorted_out : list WingNodeDef → list WingResponse → list WingResponse → Prop :=
| sorted_nil : sorted_out [] [] []
| sorted_taken defs buffered rs d :
  sorted_out defs buffered rs → sorted_out (defs ++ [d]) buffered (rs ++ [WingResponses.NodeDef d])
| sorted_aside defs buffered rs r :
  sorted_out defs buffered rs → sorted_out defs (buffered ++ [r]) (rs ++ [r]).

Lemma connected_snoc root ids defs d :
  connected root ids defs → def_id d ∈ ids ∨ def_parent_id d ∈ ids →
  connected root ({[def_id d]} ∪ ids) (defs ++ [d]).
Proof.
  intros [Hi Hd] Hin. split.
  - intros i [->%elem_of_singleton|Hi']%elem_of_union.
    + right. exists d. split; [set_solver|done].
    + destruct (Hi i Hi') as [->|(d' & ? & ?)]; [by left|]. right. exists d'. set_solver.
  - intros k d0 Hk. destruct (decide (k < length defs)%nat) as [Hlt|Hge].
    + rewrite lookup_app_l in Hk by done. destruct (Hd k d0 Hk) as [?|[?|(j & d' & ? & Hj & ?)]]; [tauto..|].
      right; right. exists j, d'. rewrite lookup_app_l by lia. done.
    + rewrite lookup_app_r in Hk by lia. apply list_lookup_singleton_Some in Hk as [Hk <-].
      assert (k = length defs) as -> by lia.
      assert (∀ i, i ∈ ids → i = root ∨ ∃ j d', (j < length defs)%nat ∧ (defs ++ [d]) !! j = Some d' ∧ def_id d' = i) as Hf.
      { intros i Hi'. destruct (Hi i Hi') as [->|(d' & Hd' & <-)]; [by left|].
        apply list_elem_of_lookup in Hd' as [j Hj]. pose proof (lookup_lt_Some _ _ _ Hj).
        right. exists j, d'. rewrite lookup_app_l by done. done. }
      destruct Hin as [Hin|Hin]; destruct (Hf _ Hin) as [?|(j & d' & ? & ? & ?)]; [tauto| |tauto|];
        right; right; exists j, d'; auto.
Qed.

Lemma sweep_step_ok w r root rs :
  connected root (sweep_ids w) (sweep_defs w) → sorted_out (sweep_defs w) (sweep_buffered w) rs →
  match sweep_step w r with
  | Ok (w', false) => connected root (sweep_ids w') (sweep_defs w')
      ∧ sorted_out (sweep_defs w') (sweep_buffered w') (rs ++ [r])
  | Ok (w', true) => w' = w ∧ r = WingResponses.RequestEnd ∧ sweep_defs w ≠ []
  | Err e => e = InvalidData ∧ MAX_ATTENDED_BUFFERED ≤ Z.of_nat (length (sweep_buffered w))
  end.
Proof.
  intros Hc Hs. pose proof (sorted_aside _ _ _ r Hs) as Hs1.
  unfold sweep_step. destruct r as [|d|id data].
  - destruct (bool_decide (sweep_defs w ≠ [])) eqn:E; [by apply bool_decide_eq_true in E|].
    destruct (_ <? _) eqn:El; bool_hyps; [by split|by split].
  - destruct (bool_decide (def_id d ∈ _) || _) eqn:E.
    + split; [|by apply sorted_taken]. apply connected_snoc; [done|].
      apply orb_true_iff in E as [E|E]; apply bool_decide_eq_true in E; auto.
    + destruct (_ <? _) eqn:El; bool_hyps; by split.
  - destruct (_ <? _) eqn:El; bool_hyps; by split.
Qed.

Definition connected_defs (root : Z) (defs : list WingNodeDef) : Prop :=
  ∀ k d, defs !! k = Some d →
    def_id d = root ∨ def_parent_id d = root ∨
    ∃ j d', (j < k)%nat ∧ defs !! j = Some d' ∧ (def_id d' = def_parent_id d ∨ def_id d' = def_id d).

(** The outcome of the loop, from the session [s0] at its start. *)
Definition sweep_ok (root : Z) (s0 : Session)
    (o : result Stop (result Error (list WingNodeDef) * list WingResponse) * Session) : Prop :=
  match o with
  | (Ok (Ok defs, buffered), s') =>
    session_ok s' ∧ defs ≠ [] ∧ connected_defs root defs ∧
    ∃ rs, sorted_out defs buffered rs ∧ deliver s0 = rs ++ WingResponses.RequestEnd :: deliver s'
  | (Ok (Err Timeout, buffered), s') =>
    session_ok s' ∧ ∃ defs rs, sorted_out defs buffered rs ∧ deliver s0 = rs ++ deliver s'
  | (Ok (Err e, _), _) => e ∈ [InvalidData; Reconnecting; ConnectionError] ∨ ∃ kind, e = Io kind
  | (Err Blocked, _) => ∃ defs buffered, sorted_out defs buffered (deliver s0)
  | (Err (Fail _), _) => False
  end.

Lemma sweep_loop_ok fuel w root s0 s rs :
  session_ok s → capture (main s) = None → (work s < fuel)%nat →
  connected root (sweep_ids w) (sweep_defs w) → sorted_out (sweep_defs w) (sweep_buffered w) rs →
  deliver s0 = rs ++ deliver s →
  sweep_ok root s0 (sweep_loop fuel w s).
Proof.
  revert w s rs. induction fuel as [|fuel IH]; intros w s rs Hs Hc Hw Hcon Hso Hd; [lia|].
  cbn [sweep_loop]. pose proof (read_locked_ok s Hs) as H.
  destruct (read_locked s) as [[resp|[e|]] s1] eqn:E.
  - destruct H as [[Hs1 Hd1] (_ & _ & Hc1)]. specialize (Hc1 Hc). simpl in Hc1.
    pose proof (read_locked_less _ _ _ Hs E) as Hw1.
    pose proof (sweep_step_ok w resp root rs Hcon Hso) as Hstep.
    destruct (sweep_step w resp) as [[w1 []]|e].
    + destruct Hstep as (-> & -> & Hne). split; [done|]. split; [done|]. split; [exact (proj2 Hcon)|].
      exists rs. split; [done|]. by rewrite Hd, Hd1.
    + destruct Hstep as [Hcon1 Hso1].
      destruct (deadline_passed_session s1)
        as (b & s2 & E2 & Hu2 & Hst2 & Hp2 & Hc2 & Ht2 & Hw2 & Hs2).
      unfold bind at 1. rewrite E2. specialize (Hs2 Hs1).
      assert (deliver s0 = (rs ++ [resp]) ++ deliver s2) as Hd2.
      { rewrite (deliver_eq s1 s2), Hd, Hd1 by done. by rewrite <- (assoc_L (++)). }
      destruct b; [split; [done|]; eauto|]. eapply IH; [done|congruence|lia|done|done|done].
    + destruct Hstep as [-> _]. left. set_solver.
  - destruct H as [H _]. destruct e; try done; try (left; set_solver);
      try (right; by eexists); try (destruct H as [H|H]; [done|by simpl in H]).
    destruct (timeout_session_ok _ _ Hs Hc E) as [Hs1 Hd1]. split; [done|].
    exists (sweep_defs w), rs. split; [done|]. congruence.
  - destruct H as [H _]. simpl in H. exists (sweep_defs w), (sweep_buffered w).
    by rewrite Hd, H, app_nil_r.
Qed.

(** What [get_node_definitions] promises, from [s]. *)
Definition definitions_ok (root : Z) (s : Session) (o : result Stop (list WingNodeDef) * Session) : Prop :=
  match o with
  | (Ok defs, s') =>
    defs ≠ [] ∧ connected_defs root defs ∧
    ∃ rs buffered rest, sorted_out defs buffered rs ∧
      parse_responses (stream_of s) = rs ++ WingResponses.RequestEnd :: rest ∧
      deliver s' = pending (main s) ++ buffered ++ rest
  | (Err (Fail Timeout), s') =>
    ∃ defs rs buffered rest, sorted_out defs buffered rs ∧
      parse_responses (stream_of s) = rs ++ rest ∧ deliver s' = pending (main s) ++ buffered ++ rest
  | (Err (Fail e), s') =>
    (e ∈ [InvalidData; Reconnecting; ConnectionError] ∨ ∃ kind, e = Io kind) ∧
    ∃ later, pending (main s') = pending (main s) ++ later
  | (Err Blocked, s') =>
    ∃ defs buffered, sorted_out defs buffered (parse_responses (stream_of s))
  end.

Lemma get_node_definitions_ok root timeout s :
  session_ok s → capture (main s) = None → definitions_ok root s (get_node_definitions root timeout s).
Proof.
  intros Hs Hc. unfold get_node_definitions, take_pending, bind at 1. cbv beta iota.
  set (s1 := on_main (set_pending []) s). pose proof (send_request_session (request_node_definition root) s1) as H.
  assert (session_ok s1) as Hs1 by done.
  destruct (send_request (request_node_definition root) s1) as [[[]|[e|]] s2]; [| |done].
  - destruct H as (H1 & H2 & _). destruct (same_main_session s1 s2 H1 H2) as (Hd & _ & Hs2).
    specialize (Hs2 Hs1). unfold bind at 1, with_deadline.
    set (s3 := on_main (set_deadline (Some timeout)) s2).
    pose proof (sweep_loop_ok (S (work s3)) (mk_sweep {[root]} [] []) root s3 s3 [] Hs2) as Hl.
    specialize (Hl ltac:(by unfold s3; simpl; rewrite H1) ltac:(lia)).
    specialize (Hl ltac:(by split; [set_solver|]) ltac:(constructor) eq_refl).
    assert (deliver s3 = parse_responses (stream_of s)) as Hd3.
    { change (deliver s3) with (deliver s2). by rewrite Hd. }
    destruct (sweep_loop _ _ s3) as [[[[defs|e] buffered]|[e|]] s4]; try done.
    + destruct Hl as (Hs4 & Hne & Hcon & rs & Hso & Hd4). split; [done|]. split; [done|].
      exists rs, buffered, (deliver s4). rewrite <- Hd3. split_and!; [done..|].
      unfold requeue, bind, modify. rewrite deliver_requeue. by rewrite <- (assoc_L (++)).
    + assert (∃ later, pending (main (on_main (λ m, set_pending ((pending (main s) ++ buffered) ++ pending m) m)
          (on_main (set_deadline None) s4))) = pending (main s) ++ later) as Hq.
      { exists (buffered ++ pending (main s4)). simpl. by rewrite <- (assoc_L (++)). }
      destruct e; try exact (conj Hl Hq). destruct Hl as (Hs4 & defs & rs & Hso & Hd4).
      exists defs, rs, buffered, (deliver s4). rewrite <- Hd3. split_and!; [done..|].
      unfold requeue, bind, modify. rewrite deliver_requeue. by rewrite <- (assoc_L (++)).
    + destruct Hl as (defs & buffered & Hso). exists defs, buffered. by rewrite <- Hd3.
  - destruct H as (H1 & H2 & _ & He). unfold requeue, bind, modify, throw.
    destruct He as [[-> _]|[kind ->]]; (split; [|by exists []; simpl; rewrite H1]);
      [left; set_solver|right; by eexists].
Qed.

(** No attended operation but a capture ever turns the tee on. *)
Lemma read_locked_capture s :
  session_ok s → capture (main s) = None → capture (main (read_locked s).2) = None.
Proof.
  intros Hs Hc. unfold read_locked, gets, bind at 1. cbv beta iota.
  destruct (stream_tainted s); [done|]. unfold load_reconnecting, bind at 1.
  destruct (look (reconnecting s)) as [flag d]. set (s1 := set_reconnecting d s). destruct flag; [done|].
  unfold bind at 1. cbv beta iota. destruct (pending (main s1)) as [|r' rest]; [|done].
  set (s2 := on_main (set_read_capture []) s1).
  assert (source_inv s2) as Hi by by apply session_ok_cleared.
  destruct (read_inner_moves s2 Hi Hi) as [_ [l Hl]].
  assert (capture (main (read_inner s2).2) = None) as Hcap by (rewrite (mov_capture _ _ _ Hl); simpl; by rewrite Hc).
  destruct (read_inner s2) as [[r1|[e|]] s3]; [done| |done].
  destruct e; try done; simpl; unfold bind, load_reconnecting; by repeat case_match; simplify_eq/=.
Qed.

Lemma attended_loop_capture {T} (matcher : WingResponse → option T) fuel buffered s :
  session_ok s → capture (main s) = None → capture (main (attended_loop matcher fuel buffered s).2) = None.
Proof.
  revert buffered s. induction fuel as [|fuel IH]; intros buffered s Hs Hc; [done|]. cbn [attended_loop].
  pose proof (read_locked_capture s Hs Hc) as Hc1. pose proof (read_locked_ok s Hs) as [H _].
  destruct (read_locked s) as [[resp|[e|]] s1]; [|by destruct e|done].
  destruct H as [Hs1 _]. destruct (matcher resp); [done|]. destruct (_ <=? _); [done|].
  destruct (deadline_passed_session s1) as (b & s2 & E2 & _ & _ & _ & Hc2 & _ & _ & Hs2).
  unfold bind at 1. rewrite E2. simpl in Hc1. assert (capture (main s2) = None) by congruence.
  destruct b; [done|]. apply IH; auto.
Qed.

Lemma get_node_data_capture id timeout s :
  session_ok s → capture (main s) = None → capture (main (get_node_data id timeout s).2) = None.
Proof.
  intros Hs Hc. unfold get_node_data, bind. pose proof (send_request_session (request_node_data id) s) as H.
  destruct (send_request (request_node_data id) s) as [[[]|[e|]] s1]; [| |done].
  - destruct H as (H1 & H2 & _). destruct (same_main_session s s1 H1 H2) as (_ & _ & Hs1).
    unfold with_deadline, attended_read_until.
    set (s2 := on_main (set_deadline (Some timeout)) s1).
    pose proof (attended_loop_capture (matches_data id) (S (work s2)) [] s2 (Hs1 Hs)) as Hl.
    specialize (Hl ltac:(by unfold s2; simpl; rewrite H1)).
    destruct (attended_loop _ _ _ s2) as [[?|[e|]] s3]; done.
  - destruct H as (H1 & _). simpl. by rewrite H1.
Qed.

(** ** Lemmas: several nodes *)

Lemma stash_early_from id ids stash rs (P : WingResponse → Prop) :
  Forall P rs → (∀ i d, stash !! i = Some d → P (WingResponses.NodeData i d)) →
  ∀ i d, foldl (stash_early id ids) stash rs !! i = Some d → P (WingResponses.NodeData i d).
Proof.
  intros Hrs. revert stash. induction Hrs as [|r rs Hr _ IH]; intros stash Hst; [done|].
  cbn [foldl]. apply IH. intros i d. destruct r as [| |bid bdata]; simpl; try apply Hst.
  destruct (_ && _); [|apply Hst]. destruct (stash !! bid) eqn:E; [apply Hst|].
  intros [[<- <-]|[_ H]]%lookup_insert_Some; [done|by apply Hst].
Qed.

(** A failure after which the session goes on as if the node had not been asked for. *)
Definition plain_miss (p : Z * Result WingNodeData) : Prop :=
  match p.2 with Ok _ => True | Err e => e = Timeout end.

Lemma get_nodes_loop_names ids todo timeout stash s :
  match get_nodes_loop ids todo timeout stash s with
  | (Ok out, _) => map fst out = todo
  | (Err e, _) => e = Blocked
  end.
Proof.
  revert stash s. induction todo as [|id todo IH]; intros stash s; [done|]. cbn [get_nodes_loop].
  assert (∀ stash s r, match (let! out := get_nodes_loop ids todo timeout stash in ret ((id, r) :: out)) s with
    | (Ok out, _) => map fst out = id :: todo | (Err e, _) => e = Blocked end) as Hnext.
  { intros stash' s' r. specialize (IH stash' s'). unfold bind.
    destruct (get_nodes_loop ids todo timeout stash' s') as [[out|e] s2]; [|done]. simpl. by f_equal. }
  destruct (stash !! id) as [data|]; [apply Hnext|].
  destruct (get_node_data id timeout s) as [[[data buffered]|[e|]] s1]; [apply Hnext..|done].
Qed.

Lemma matches_data_inv id r t : matches_data id r = Some t → r = WingResponses.NodeData id t.
Proof.
  destruct r as [| |rid data]; simpl; try done. destruct (Z.eqb_spec rid id) as [->|]; [|done].
  by intros [= ->].
Qed.

Lemma get_nodes_loop_ok ids todo timeout stash (sent_by : list WingResponse) s :
  session_ok s → capture (main s) = None →
  Forall (λ r, r ∈ sent_by) (deliver s) →
  (∀ i d, stash !! i = Some d → WingResponses.NodeData i d ∈ sent_by) →
  match get_nodes_loop ids todo timeout stash s with
  | (Ok out, _) =>
    Forall plain_miss out → ∀ i d, (i, Ok d) ∈ out → WingResponses.NodeData i d ∈ sent_by
  | (Err _, _) => True
  end.
Proof.
  revert stash s. induction todo as [|id todo IH]; intros stash s Hs Hc Hd Hst.
  { intros _ i d H. set_solver. }
  cbn [get_nodes_loop].
  assert (∀ stash s r, session_ok s → capture (main s) = None → Forall (λ r, r ∈ sent_by) (deliver s) →
    (∀ i d, stash !! i = Some d → WingResponses.NodeData i d ∈ sent_by) →
    (∀ d, r = Ok d → WingResponses.NodeData id d ∈ sent_by) →
    match (let! out := get_nodes_loop ids todo timeout stash in ret ((id, r) :: out)) s with
    | (Ok out, _) => Forall plain_miss out → ∀ i d, (i, Ok d) ∈ out → WingResponses.NodeData i d ∈ sent_by
    | (Err _, _) => True end) as Hnext.
  { intros stash' s' r Hs' Hc' Hd' Hst' Hr. specialize (IH stash' s' Hs' Hc' Hd' Hst'). unfold bind.
    destruct (get_nodes_loop ids todo timeout stash' s') as [[out|e] s2]; [|done].
    intros [_ Hp]%Forall_cons_iff i d [[= -> Hrd]|Hin]%elem_of_cons; [by apply Hr|]. by apply IH. }
  destruct (stash !! id) as [data|] eqn:Eid.
  { apply Hnext; try done.
    - intros i d [_ H]%lookup_delete_Some. by apply Hst.
    - intros d [= <-]. by apply Hst. }
  pose proof (get_attended_ok (matches_data id) (request_node_data id) timeout s Hs Hc) as H.
  fold (get_node_data id timeout) in H.
  pose proof (get_node_data_capture id timeout s Hs Hc) as Hcap.
  destruct (get_node_data id timeout s) as [[[data buffered]|[e|]] s1]; [| |done].
  - destruct H as (Hs1 & _ & resp & Hm%matches_data_inv & Hd1). subst resp. rewrite Hd1 in Hd.
    apply Forall_app in Hd as [Hb [Hr Hd']%Forall_cons_iff].
    apply Hnext; try done; [|by intros d [= ->]].
    intros i d Hi. exact (stash_early_from id ids stash buffered (λ r, r ∈ sent_by) Hb Hst i d Hi).
  - destruct (decide (e = Timeout)) as [->|Hne].
    + destruct H as [Hd1 Hs1]. apply Hnext; try done. by rewrite Hd1.
    + unfold bind. destruct (get_nodes_loop ids todo timeout stash s1) as [[out|e'] s2]; [|done].
      by intros [H' _]%Forall_cons_iff.
Qed.

(** ** Lemmas: a raw capture *)

(** With nothing queued, a read moves bytes from the stream into the capture. *)
Lemma read_locked_captures s r s' :
  session_ok s → pending (main s) = [] → read_locked s = (Ok r, s') →
  pending (main s') = [] ∧ ∃ l, unread s = l ++ unread s' ∧
    capture (main s') = (λ cap, cap ++ map snd l) <$> capture (main s).
Proof.
  intros Hs Hp. unfold read_locked, gets, bind at 1. cbv beta iota.
  destruct (stream_tainted s); [done|]. unfold load_reconnecting, bind at 1.
  destruct (look (reconnecting s)) as [flag d]. set (s1 := set_reconnecting d s). destruct flag; [done|].
  unfold bind at 1. cbv beta iota. change (pending (main s1)) with (pending (main s)). rewrite Hp.
  set (s2 := on_main (set_read_capture []) s1).
  assert (source_inv s2) as Hi by by apply session_ok_cleared.
  destruct (read_inner_moves s2 Hi Hi) as [_ [l Hl]].
  destruct (read_inner s2) as [[r1|[e|]] s3]; intros E; [|destruct e; simpl in E; try done|done].
  - injection E as <- <-. simpl in Hl. split; [simpl; by rewrite (mov_pending _ _ _ Hl)|]. exists l.
    split; [apply Hl|]. apply Hl.
  - unfold bind, load_reconnecting in E. repeat case_match; simplify_eq/=.
  - unfold bind, load_reconnecting in E. repeat case_match; simplify_eq/=.
Qed.

Lemma capture_loop_ok fuel cap s :
  session_ok s → pending (main s) = [] → capture (main s) = Some cap → (work s < fuel)%nat →
  match capture_loop fuel s with
  | (Ok (Ok _), s') => pending (main s') = [] ∧ session_ok s' ∧ ∃ l rs,
      capture (main s') = Some (cap ++ l) ∧ map snd (unread s) = l ++ map snd (unread s') ∧
      Forall (λ r, r ≠ WingResponses.RequestEnd) rs ∧
      deliver s = rs ++ WingResponses.RequestEnd :: deliver s'
  | (Ok (Err e), s') =>
    (e = Timeout ∨ e ∈ [InvalidData; Reconnecting; ConnectionError] ∨ ∃ kind, e = Io kind)
  | (Err e, s') => e = Blocked ∧ Forall (λ r, r ≠ WingResponses.RequestEnd) (deliver s)
  end.
Proof.
  revert cap s. induction fuel as [|fuel IH]; intros cap s Hs Hp Hc Hw; [lia|]. cbn [capture_loop].
  pose proof (read_locked_ok s Hs) as H. destruct (read_locked s) as [[resp|[e|]] s1] eqn:E.
  - destruct H as [[Hs1 Hd1] _]. pose proof (read_locked_less _ _ _ Hs E) as Hw1.
    destruct (read_locked_captures s resp s1 Hs Hp E) as (Hp1 & l & Hu & Hc1). rewrite Hc in Hc1. simpl in Hc1.
    assert (map snd (unread s) = map snd l ++ map snd (unread s1)) as Hm by by rewrite Hu, map_app.
    destruct (decide (resp = WingResponses.RequestEnd)) as [->|Hne].
    { split; [done|]. split; [done|]. by exists (map snd l), []. }
    destruct (deadline_passed_session s1)
      as (b & s2 & E2 & Hu2 & Hst2 & Hp2 & Hc2 & Ht2 & Hw2 & Hs2). specialize (Hs2 Hs1).
    assert (deliver s2 = deliver s1) as Hd2 by by apply deliver_eq.
    specialize (IH (cap ++ map snd l) s2 Hs2 ltac:(congruence) ltac:(congruence) ltac:(lia)).
    assert (∀ o, capture_loop (S fuel) s = o → o = (let! expired := deadline_passed in
       if expired : bool then ret (Err Timeout) else capture_loop fuel) s1) as Hgo.
    { intros o <-. cbn [capture_loop]. rewrite E. by destruct resp. }
    specialize (Hgo _ eq_refl). cbn [capture_loop] in Hgo. rewrite E in Hgo. rewrite Hgo.
    unfold bind. rewrite E2. destruct b; [simpl; auto|].
    destruct (capture_loop fuel s2) as [[[[]|e]|e] s3]; [|done|].
    + destruct IH as (Hp3 & Hs3 & l3 & rs & Hc3 & Hm3 & Hrs & Hd3). split; [done|]. split; [done|].
      exists (map snd l ++ l3), (resp :: rs). split_and!.
      * by rewrite Hc3, <- (assoc_L (++)).
      * by rewrite Hm, <- (assoc_L (++)), <- Hm3, Hu2.
      * by constructor.
      * by rewrite Hd1, <- Hd2, Hd3.
    + destruct IH as [-> Hrs]. split; [done|]. rewrite Hd1, <- Hd2. by constructor.
  - destruct H as [H _]. destruct e; try (by left); right;
      try (left; set_solver); try (right; by eexists); destruct H as [H|H]; try done; left; set_solver.
  - destruct H as [H _]. simpl in H. by rewrite H.
Qed.

(** ** Properties *)

(** C7: an attended get answers with the first response that matches: everything that came
    before it is handed back, in order and unmatched, and the session goes on right after
    it; a get that times out leaves the session with exactly the responses it had, in the
    same order; a get that never returns was never sent a match. *)
Theorem attended_get_lossless {T} (matcher : WingResponse → option T) buf timeout s :
  session_ok s → capture (main s) = None →
  match (let! _ := send_request buf in with_deadline timeout (attended_read_until matcher)) s with
  | (Ok (t, buffered), s') =>
    session_ok s' ∧ Forall (unmatched matcher) buffered ∧
    ∃ resp, matcher resp = Some t ∧ deliver s = buffered ++ resp :: deliver s'
  | (Err (Fail Timeout), s') => deliver s' = deliver s ∧ session_ok s'
  | (Err Blocked, _) => Forall (unmatched matcher) (deliver s)
  | (Err (Fail e), _) => e ∈ [InvalidData; Reconnecting; ConnectionError] ∨ ∃ kind, e = Io kind
  end.
Proof. apply get_attended_ok. Qed.

(** The definitions of a subtree sweep are, in order, responses the console sent after
    the request and before an end marker, each tied to the root through an earlier one;
    every response that is not taken goes back to the queue, in order, behind what was
    queued before the request; a sweep that times out loses no foreign response either. *)
Theorem get_node_definitions_sorts root timeout s :
  session_ok s → capture (main s) = None → definitions_ok root s (get_node_definitions root timeout s).
Proof. apply get_node_definitions_ok. Qed.

(** [get_nodes] answers once per id, in the order asked; and as long as nodes only
    answer or time out, a value reported for an id is one the console sent for that id. *)
Theorem get_nodes_answers ids timeout s :
  session_ok s → capture (main s) = None →
  match get_nodes ids timeout s with
  | (Ok out, _) => map fst out = ids ∧
      (Forall plain_miss out → ∀ i d, (i, Ok d) ∈ out → WingResponses.NodeData i d ∈ deliver s)
  | (Err e, _) => e = Blocked
  end.
Proof.
  intros Hs Hc. unfold get_nodes. pose proof (get_nodes_loop_names ids ids timeout ∅ s) as H1.
  pose proof (get_nodes_loop_ok ids ids timeout ∅ (deliver s) s Hs Hc) as H2.
  specialize (H2 ltac:(apply list.Forall_forall; auto) ltac:(by intros i d; rewrite lookup_empty)).
  by destruct (get_nodes_loop ids ids timeout ∅ s) as [[out|e] s'].
Qed.

(** C8: a raw capture is the exact run of stream bytes that was read, up to and including
    the first end marker: nothing before it, nothing past it, and nothing queued earlier;
    the session goes on right behind it.  A capture that times out fences the stream: no
    later read or write goes through until a reconnect. *)
Theorem get_binary_node_exact id timeout s :
  session_ok s → capture (main s) = None →
  match get_binary_node id timeout s with
  | (Ok captured, s') =>
    map snd (unread s) = captured ++ map snd (unread s') ∧
    pending (main s') = pending (main s) ∧ capture (main s') = None ∧
    ∃ rs, Forall (λ r, r ≠ WingResponses.RequestEnd) rs ∧
      parse_responses (stream_of s) = rs ++ WingResponses.RequestEnd :: parse_responses (stream_of s')
  | (Err (Fail Timeout), s') =>
    stream_tainted s' = true ∧ (read s').1 = Err (Fail ConnectionError) ∧
    ∀ buf, send_request buf s' = (Err (Fail ConnectionError), s')
  | (Err Blocked, _) => Forall (λ r, r ≠ WingResponses.RequestEnd) (parse_responses (stream_of s))
  | (Err (Fail e), s') => e ∈ [InvalidData; Reconnecting; ConnectionError] ∨ ∃ kind, e = Io kind
  end.
Proof.
  intros Hs Hc. unfold get_binary_node, bind at 1.
  pose proof (send_request_session (request_node_data id) s) as H.
  destruct (send_request (request_node_data id) s) as [[[]|[e|]] s1]; [| |done].
  2: { destruct H as (_ & _ & _ & [[-> _]|[kind ->]]); [left; set_solver|right; by eexists]. }
  destruct H as (H1 & H2 & _). destruct (same_main_session s s1 H1 H2) as (_ & Hst & Hs1).
  pose proof (same_main_unread s s1 H1 H2) as Hu. specialize (Hs1 Hs).
  unfold modify, take_pending. do 4 (unfold bind at 1; cbv beta iota).
  set (s2 := on_main (set_pending []) (on_main (set_deadline (Some timeout)) (on_main (set_capture (Some [])) s1))).
  assert (session_ok s2) as Hs2 by (destruct Hs1 as (? & ? & ?); by split).
  pose proof (capture_loop_ok (S (work s2)) [] s2 Hs2 eq_refl eq_refl ltac:(lia)) as Hl.
  change (unread s2) with (unread s1) in Hl.
  assert (deliver s2 = parse_responses (stream_of s)) as Hd by (unfold deliver; by rewrite <- Hst).
  rewrite Hd, Hu in Hl.
  destruct (capture_loop (S (work s2)) s2) as [[[[]|e]|e] s3].
  - destruct Hl as (Hp3 & Hs3 & l & rs & Hc3 & Hm & Hrs & Hd3). unfold bind, gets, ret. simpl.
    rewrite Hc3. simpl. split_and!; [exact Hm|by rewrite Hp3, app_nil_r, H1|done|].
    exists rs. split; [done|]. rewrite Hd3. unfold deliver. by rewrite Hp3.
  - destruct (decide (e = Timeout)) as [->|Hne]; [by split_and!|].
    assert (e ∈ [InvalidData; Reconnecting; ConnectionError] ∨ ∃ kind, e = Io kind) as He by by destruct Hl.
    unfold bind, gets, ret. destruct e; try done; exact He.
  - destruct Hl as [-> Hrs]. exact Hrs.
Qed.

(** *** Witnesses *)

Definition sample_session : Session := new_session sample_passes.

Lemma sample_session_ok : session_ok sample_session.
Proof. split; [by eexists|]. split; [vm_compute; discriminate|done]. Qed.

Lemma attended_get_lossless_witness :
  ∃ resp, matches_data 5 resp = Some (with_string (str "on")) ∧
    deliver sample_session = [WingResponses.NodeData 0xdf (with_i32 (-2))] ++
      resp :: deliver (get_node_data 5 (Some 9%nat) sample_session).2.
Proof.
  pose proof (attended_get_lossless (matches_data 5) (request_node_data 5) (Some 9%nat) sample_session
    sample_session_ok eq_refl) as H. unfold get_node_data.
  match type of H with match ?o with _ => _ end => destruct o as [r s'] eqn:E end.
  assert (r = Ok (with_string (str "on"), [WingResponses.NodeData 0xdf (with_i32 (-2))])) as ->
    by (apply (f_equal fst) in E; vm_compute in E; rewrite <- E; vm_compute; reflexivity).
  apply H.
Defined.

(** A subtree of two definitions around a value that belongs to nobody. *)
Definition sample_child : WingNodeDef :=
  mk_def 77 (def_id sample_def) 1 (str "g") [] NodeTypes.Node NodeUnits.None false
    None None None None None None None None [].

Definition sample_tree : list NativeResponse :=
  [NativeResponses.NodeDef sample_def; NativeResponses.NodeData 9 (NativeValues.Integer 3);
   NativeResponses.NodeDef sample_child; NativeResponses.RequestEnd].

Definition sample_tree_session : Session :=
  new_session [mk_pass None None
    (Received (match encode_all sample_tree with Ok p => batch_frame p | Err _ => [] end))].

Lemma get_node_definitions_sorts_witness :
  definitions_ok (def_id sample_def) sample_tree_session
    (Ok [with_raw (wire_bytes sample_def) sample_def; with_raw (wire_bytes sample_child) sample_child],
     (get_node_definitions (def_id sample_def) None sample_tree_session).2).
Proof.
  assert (session_ok sample_tree_session) as Hs
    by (split; [by eexists|]; split; [vm_compute; discriminate|done]).
  pose proof (get_node_definitions_sorts (def_id sample_def) None sample_tree_session Hs eq_refl) as H.
  destruct (get_node_definitions (def_id sample_def) None sample_tree_session) as [r s'] eqn:E.
  assert (r = Ok [with_raw (wire_bytes sample_def) sample_def; with_raw (wire_bytes sample_child) sample_child])
    as -> by (apply (f_equal fst) in E; vm_compute in E; rewrite <- E; vm_compute; reflexivity).
  exact H.
Defined.

Lemma get_nodes_answers_witness :
  (get_nodes [5; 0xdf] None sample_session).1
    = Ok [(5, Ok (with_string (str "on"))); (0xdf, Ok (with_i32 (-2)))]
  ∧ WingResponses.NodeData 0xdf (with_i32 (-2)) ∈ deliver sample_session.
Proof.
  pose proof (get_nodes_answers [5; 0xdf] None sample_session sample_session_ok eq_refl) as H.
  destruct (get_nodes [5; 0xdf] None sample_session) as [r s'] eqn:E.
  assert (r = Ok [(5, Ok (with_string (str "on"))); (0xdf, Ok (with_i32 (-2)))]) as ->
    by (apply (f_equal fst) in E; vm_compute in E; rewrite <- E; vm_compute; reflexivity).
  split; [reflexivity|]. destruct H as [_ H]. refine (H _ 0xdf _ _); [each_elem; exact I|right; left].
Defined.

Lemma get_binary_node_exact_witness :
  (get_binary_node 5 None sample_session).1 = Ok sample_payload
  ∧ map snd (unread sample_session) = sample_payload.
Proof.
  pose proof (get_binary_node_exact 5 None sample_session sample_session_ok eq_refl) as H.
  destruct (get_binary_node 5 None sample_session) as [r s'] eqn:E.
  assert (r = Ok sample_payload) as -> by (apply (f_equal fst) in E; vm_compute in E; rewrite <- E; vm_compute; reflexivity).
  assert (map snd (unread s') = []) as Hz.
  { replace s' with (get_binary_node 5 None sample_session).2 by by rewrite E. vm_compute. reflexivity. }
  split; [reflexivity|]. destruct H as [H _]. rewrite H, Hz. apply app_nil_r.
Defined.
