(* ===== verification/Reconnect.v ===== *)
(** Reconnecting ([src/src/console.rs], [ReconnectPolicy], [SessionGap], [reconnect]): a new
    connection replaces the session in place, after bounded backoff, once for all the clones
    that asked while it was being made.

    A reconnect has two parts: [enter], up to the wait for [reconnect_gate], and [gated], run
    while it is held.  What other clones do in between is the argument [others] of
    [reconnect]; the step relation below runs many clones.  The network is an argument too:
    the outcome of each attempt of [handshake_streams], with what the new connection will
    deliver and the answer of the firmware probe made over it.  Durations are in nanoseconds;
    [sleeps] records the backoffs slept through. *)

From S2P Require Import Prelude Bytes Lib Utf8 F32 Channel NodeDef NodeData.
From S2P Require Import Meter NativeRequest NativeResponse ClientMessages ResponseReader ClientReader.
Local Open Scope Z_scope.
Local Open Scope rust_scope.

(** ** Data *)

Record ReconnectPolicy := mk_policy { max_attempts : Z; initial_backoff : Z; max_backoff : Z }.

Definition MILLIS : Z := 10 ^ 6.

Definition default_reconnect_policy : ReconnectPolicy := mk_policy 5 (250 * MILLIS) (5000 * MILLIS).

Record SessionGap := mk_gap { dropped_events : bool; meters_invalidated : bool; state_may_have_changed : bool }.

Record ReconnectOutcome := mk_outcome { attempts : Z; gap : SessionGap }.

(** What the clones of a console share. *)
Record Console := mk_console {
  session : Session;
  meters : ConsoleMeters;
  pending_reconnects : Z;
  session_generation : Z;
  firmware : option (list byte);
  reconnectable : bool;
}.

(** A connection the handshake opened: what its socket will meet, what its writes will, and
    the firmware the probe found. *)
Record Connection := mk_connection {
  new_script : list Pass;
  new_write_results : list (option ErrorKind);
  probe_firmware : option (list byte);
}.

(** ** Operations *)

(** [Duration::MAX], and [saturating_mul(2)]. *)
Definition DURATION_MAX : Z := (2 ^ 64 - 1) * 10 ^ 9 + 999999999.
Definition saturating_double (d : Z) : Z := Z.min (d * 2) DURATION_MAX.

Definition set_pending_reconnects (n : Z) (c : Console) : Console :=
  mk_console (session c) (meters c) (n mod 2 ^ 64) (session_generation c) (firmware c) (reconnectable c).

(** [has_meter_socket] is set when the meter socket is. *)
Definition session_gap (c : Console) : SessionGap :=
  mk_gap true (match meter_socket_port (meters c) with Some _ => true | None => false end) true.

(** The parser state of the new session; the reset covers every field. *)
Definition reset_main : Main := mk_main [] (on_channel AUDIO_ENGINE_CHANNEL) [] [] [] [] 0 None None.

(** The new streams swapped in. The handshake wrote the channel selection. *)
Definition replace_session (conn : Connection) (c : Console) : Console :=
  let s := mk_session reset_main false None keep_alive_bytes (new_script conn) (new_write_results conn) in
  mk_console s
    (mk_meters (meter_socket_port (meters c)) None (next_meter_id (meters c)))
    (pending_reconnects c)
    ((session_generation c + 1) mod 2 ^ 64)
    (match probe_firmware conn with Some f => Some f | None => firmware c end)
    (reconnectable c).

Section Reconnect.
Context (handshake_streams : Z → result Error Connection) (policy : ReconnectPolicy).

(** The attempts [attempt..=max_attempts], of which [n] are left. *)
Fixpoint attempt_loop (n : nat) (attempt backoff : Z) (last_err : Error) (sleeps : list Z) (c : Console)
    : Result ReconnectOutcome * list Z * Console :=
  match n with
  | O => (Err last_err, sleeps, c)
  | S n =>
    match handshake_streams attempt with
    | Ok conn =>
      let c := replace_session conn c in
      (Ok (mk_outcome attempt (session_gap c)), sleeps, c)
    | Err err =>
      if attempt <? max_attempts policy then
        attempt_loop n (attempt + 1) (Z.min (saturating_double backoff) (max_backoff policy)) err
          (sleeps ++ [backoff]) c
      else attempt_loop n (attempt + 1) backoff err sleeps c
    end
  end.

(** Up to the gate: the generation seen. *)
Definition enter (c : Console) : Result Z * Console :=
  if negb (reconnectable c) then (Err InvalidInput, c)
  else (Ok (session_generation c), set_pending_reconnects (pending_reconnects c + 1) c).

(** Holding the gate. *)
Definition gated (generation : Z) (c : Console) : Result ReconnectOutcome * list Z * Console :=
  let c := set_pending_reconnects (pending_reconnects c - 1) c in
  if negb (session_generation c =? generation) then (Ok (mk_outcome 0 (session_gap c)), [], c)
  else attempt_loop (Z.to_nat (max_attempts policy)) 1 (initial_backoff policy) ConnectionError [] c.

Definition reconnect (others : Console → Console) (c : Console) : Result ReconnectOutcome * list Z * Console :=
  match enter c with
  | (Err e, c) => (Err e, [], c)
  | (Ok generation, c) => gated generation (others c)
  end.
End Reconnect.

(** ** Backoff *)

(** The [n]-th backoff: doubled each time, capped from the second on. *)
Definition backoff_of (policy : ReconnectPolicy) (n : nat) : Z :=
  match n with
  | O => initial_backoff policy
  | S _ => Z.min (initial_backoff policy * 2 ^ Z.of_nat n) (max_backoff policy)
  end.

Definition policy_ok (policy : ReconnectPolicy) : Prop :=
  0 ≤ initial_backoff policy ≤ DURATION_MAX ∧ 0 ≤ max_backoff policy ≤ DURATION_MAX
  ∧ 0 ≤ max_attempts policy < 2 ^ 32.

Lemma backoff_next policy n :
  policy_ok policy →
  Z.min (saturating_double (backoff_of policy n)) (max_backoff policy) = backoff_of policy (S n).
Proof.
  intros (Hi & Hm & _). unfold saturating_double. cbn [backoff_of].
  rewrite Nat2Z.inj_succ, Z.pow_succ_r by lia. destruct n as [|n]; cbn [backoff_of].
  - change (Z.of_nat 0) with 0. rewrite Z.pow_0_r. lia.
  - set (x := 2 ^ Z.of_nat (S n)). assert (1 ≤ x) by (apply (Z.pow_le_mono_r 2 0); lia). nia.
Qed.

(** The backoffs before attempt [k]. *)
Definition backoffs (policy : ReconnectPolicy) (k : Z) : list Z :=
  map (backoff_of policy) (seq 0 (Z.to_nat (k - 1))).

Lemma backoffs_next policy k :
  1 ≤ k → backoffs policy (k + 1) = backoffs policy k ++ [backoff_of policy (Z.to_nat (k - 1))].
Proof.
  intros Hk. unfold backoffs. replace (Z.to_nat (k + 1 - 1)) with (S (Z.to_nat (k - 1))) by lia.
  by rewrite seq_S, map_app.
Qed.

(** ** The attempts *)

Section Attempts.
Context (handshake_streams : Z → result Error Connection) (policy : ReconnectPolicy) (Hp : policy_ok policy).

Definition failed_before (k : Z) : Prop := ∀ j, 1 ≤ j < k → ∃ e, handshake_streams j = Err e.

(** What the loop makes of the attempts: the first that succeeds, or the last error. *)
Definition attempts_result (c : Console) (o : Result ReconnectOutcome * list Z * Console) : Prop :=
  (∃ k conn, 1 ≤ k ≤ max_attempts policy ∧ failed_before k ∧ handshake_streams k = Ok conn
     ∧ o = (Ok (mk_outcome k (session_gap c)), backoffs policy k, replace_session conn c))
  ∨ (failed_before (max_attempts policy + 1)
     ∧ ∃ e, (max_attempts policy = 0 → e = ConnectionError)
       ∧ (0 < max_attempts policy → handshake_streams (max_attempts policy) = Err e)
       ∧ o = (Err e, backoffs policy (max_attempts policy), c)).

Lemma attempt_loop_spec n attempt err c :
  1 ≤ attempt → attempt + Z.of_nat n = max_attempts policy + 1 → failed_before attempt →
  (attempt = 1 → err = ConnectionError) → (1 < attempt → handshake_streams (attempt - 1) = Err err) →
  (0 < Z.of_nat n ∨ max_attempts policy = 0) →
  attempts_result c (attempt_loop handshake_streams policy n attempt (backoff_of policy (Z.to_nat (attempt - 1)))
    err (backoffs policy attempt) c).
Proof.
  revert attempt err. induction n as [|n IH]; intros attempt err H1 Hn Hf He1 He Hpos; cbn [attempt_loop].
  - right. assert (max_attempts policy = 0) as Hz by lia. assert (attempt = 1) as -> by lia.
    split; [intros j Hj; lia|]. exists err. split_and!; [auto|lia|].
    unfold backoffs. by rewrite Hz.
  - destruct (handshake_streams attempt) as [conn|e] eqn:E.
    { left. exists attempt, conn. split_and!; [lia|lia|done|done|]. done. }
    assert (Hf' : failed_before (attempt + 1)).
    { intros j Hj. destruct (decide (j = attempt)) as [->|]; [by eexists|]. apply Hf. lia. }
    destruct (Z.ltb_spec attempt (max_attempts policy)) as [Hlt|Hge].
    + rewrite backoff_next, <- (backoffs_next policy attempt) by done.
      replace (S (Z.to_nat (attempt - 1))) with (Z.to_nat (attempt + 1 - 1)) by lia.
      apply IH; try lia; [done|]. intros _. by replace (attempt + 1 - 1) with attempt by lia.
    + assert (n = 0%nat) as -> by lia. cbn [attempt_loop]. assert (attempt = max_attempts policy) as -> by lia.
      right. split; [done|]. exists e. split_and!; [lia|done|done].
Qed.

Lemma attempts_spec c :
  attempts_result c (attempt_loop handshake_streams policy (Z.to_nat (max_attempts policy)) 1
    (initial_backoff policy) ConnectionError [] c).
Proof.
  pose proof Hp as (_ & _ & Hm).
  apply (attempt_loop_spec (Z.to_nat (max_attempts policy)) 1 ConnectionError c); try done; try lia.
  intros j Hj. lia.
Qed.
End Attempts.

(** ** Interleavings *)

(** A clone runs, or waits for the gate with the generation it saw. *)
Inductive Phase := Running | Waiting (generation : Z).

Inductive Event :=
| Entered (clone : nat)
| Joined (clone : nat)
| Replaced (clone : nat) (attempts : Z)
| Failed (clone : nat) (e : Error).

Record World := mk_world { console : Console; phases : list Phase }.

(** How a clone's turn at the gate ended. *)
Definition gate_event (i : nat) (r : Result ReconnectOutcome) : Event :=
  match r with
  | Ok o => if attempts o =? 0 then Joined i else Replaced i (attempts o)
  | Err e => Failed i e
  end.

(** What reads, writes and meters do to a console: anything but what is below. *)
Definition same_gate (c c' : Console) : Prop :=
  pending_reconnects c' = pending_reconnects c ∧ session_generation c' = session_generation c
  ∧ reconnectable c' = reconnectable c.

(** One step of one clone. The gate makes [gated] one step; reads and writes of any clone
    come between. *)
Inductive step : World → list Event → World → Prop :=
| step_enter i w g c' :
    phases w !! i = Some Running → enter (console w) = (Ok g, c') →
    step w [Entered i] (mk_world c' (<[i := Waiting g]> (phases w)))
| step_gated i w g handshake_streams policy r sleeps c' :
    phases w !! i = Some (Waiting g) → policy_ok policy →
    gated handshake_streams policy g (console w) = (r, sleeps, c') →
    step w [gate_event i r] (mk_world c' (<[i := Running]> (phases w)))
| step_session w c' :
    same_gate (console w) c' → step w [] (mk_world c' (phases w)).

Inductive run : World → list Event → World → Prop :=
| run_nil w : run w [] w
| run_step w1 w2 w3 t1 t2 : step w1 t1 w2 → run w2 t2 w3 → run w1 (t1 ++ t2) w3.

Definition clone_of (e : Event) : nat :=
  match e with Entered i | Joined i | Replaced i _ | Failed i _ => i end.

Definition is_replaced (e : Event) : bool := match e with Replaced _ _ => true | _ => false end.

Definition replacements (t : list Event) : Z := Z.of_nat (length (filter (λ e, is_replaced e = true) t)).

Definition waiting (p : Phase) : bool := match p with Waiting _ => true | Running => false end.
Definition count_waiting (ps : list Phase) : Z := Z.of_nat (length (filter (λ p, waiting p = true) ps)).

(** The counters are of their width, and [pending_reconnects] counts the waiting clones. *)
Definition world_ok (w : World) : Prop :=
  0 ≤ session_generation (console w) < 2 ^ 64
  ∧ pending_reconnects (console w) = count_waiting (phases w) mod 2 ^ 64.

Lemma replacements_app t1 t2 : replacements (t1 ++ t2) = replacements t1 + replacements t2.
Proof. unfold replacements. rewrite list.filter_app, length_app. lia. Qed.

(** A turn at the gate: what it does to the counters, and how it is reported. *)
Lemma gated_counters handshake_streams policy g c r sleeps c' i :
  policy_ok policy → gated handshake_streams policy g c = (r, sleeps, c') →
  pending_reconnects c' = (pending_reconnects c - 1) mod 2 ^ 64
  ∧ (0 ≤ session_generation c < 2 ^ 64 →
     session_generation c' = (session_generation c + replacements [gate_event i r]) mod 2 ^ 64)
  ∧ reconnectable c' = reconnectable c
  ∧ (gate_event i r = Joined i ↔ session_generation c ≠ g).
Proof.
  intros Hp. unfold gated. cbn [session_generation set_pending_reconnects].
  destruct (Z.eqb_spec (session_generation c) g) as [He|He]; cbn [negb].
  - intros H. destruct (attempts_spec handshake_streams policy Hp (set_pending_reconnects (pending_reconnects c - 1) c))
      as [(k & conn & Hk & _ & _ & E)|(_ & e & _ & _ & E)]; rewrite H in E; injection E as -> _ ->.
    + unfold gate_event. cbn [attempts]. rewrite (proj2 (Z.eqb_neq k 0)) by lia. by split_and!.
    + split_and!; try done. intros Hg. cbn. by rewrite Z.add_0_r, Z.mod_small.
  - intros [= <- <- <-]. cbn. split_and!; try done. intros Hg. by rewrite Z.add_0_r, Z.mod_small.
Qed.

Lemma enter_counters c g c' :
  enter c = (Ok g, c') →
  g = session_generation c ∧ pending_reconnects c' = (pending_reconnects c + 1) mod 2 ^ 64
  ∧ session_generation c' = session_generation c.
Proof. unfold enter. destruct (negb _); [done|]. by intros [= <- <-]. Qed.

Lemma count_waiting_set ps i p p' :
  ps !! i = Some p →
  count_waiting (<[i := p']> ps) = count_waiting ps - Z.b2z (waiting p) + Z.b2z (waiting p').
Proof.
  revert i. induction ps as [|q ps IH]; intros [|i] Hi; try done; unfold count_waiting in *.
  - injection Hi as ->. cbn [insert list_insert]. rewrite !list.filter_cons.
    destruct (waiting p), (waiting p'); repeat case_decide; try done; cbn [length Z.b2z]; lia.
  - change (<[S i := p']> (q :: ps)) with (q :: <[i := p']> ps). rewrite !list.filter_cons. specialize (IH i Hi). case_decide; cbn [length]; lia.
Qed.

Lemma step_counters w t w' :
  step w t w' → world_ok w →
  world_ok w' ∧ session_generation (console w') = (session_generation (console w) + replacements t) mod 2 ^ 64.
Proof.
  intros [i w0 g c' Hi He|i w0 g hs policy r sleeps c' Hi Hp Hg|w0 c' (H1 & H2 & H3)] [Hs Hw]; cbn [console phases].
  - destruct (enter_counters _ _ _ He) as (_ & Hpend & Hgen). change (replacements [Entered i]) with 0.
    rewrite Z.add_0_r, Z.mod_small by done. split; [|done]. split; cbn [console phases]; [by rewrite Hgen|].
    rewrite Hpend, Hw, (count_waiting_set _ _ Running) by done. cbn [waiting Z.b2z].
    rewrite Z.add_mod_idemp_l by done. f_equal. lia.
  - destruct (gated_counters hs policy g (console w0) r sleeps c' i Hp Hg) as (Hpend & Hgen & _ & _).
    rewrite (Hgen Hs). split; [|done]. split; cbn [console phases]; [rewrite (Hgen Hs); by apply Z.mod_pos_bound|].
    rewrite Hpend, Hw, (count_waiting_set _ _ (Waiting g)) by done. cbn [waiting Z.b2z].
    rewrite Zminus_mod_idemp_l. f_equal. lia.
  - change (replacements []) with 0. rewrite Z.add_0_r, H2, Z.mod_small by done.
    split; [|done]. split; cbn [console phases]; congruence.
Qed.

Lemma run_counters w t w' :
  run w t w' → world_ok w →
  world_ok w' ∧ session_generation (console w') = (session_generation (console w) + replacements t) mod 2 ^ 64.
Proof.
  induction 1 as [w|w1 w2 w3 t1 t2 Hs _ IH]; intros Hw.
  - split; [done|]. change (replacements []) with 0. rewrite Z.add_0_r, Z.mod_small; [done|apply Hw].
  - destruct (step_counters _ _ _ Hs Hw) as [H2 E2]. destruct (IH H2) as [H3 E3]. split; [done|].
    rewrite E3, E2, Z.add_mod_idemp_l, replacements_app by done. f_equal. lia.
Qed.

(** A clone without an event stays where it is. *)
Lemma run_phase w t w' i :
  run w t w' → Forall (λ e, clone_of e ≠ i) t → phases w' !! i = phases w !! i.
Proof.
  induction 1 as [w|w1 w2 w3 t1 t2 Hs _ IH]; [done|]. intros [H1 H2]%list.Forall_app. rewrite (IH H2).
  destruct Hs as [j w0 g c' _ _|j w0 g hs policy r sleeps c' _ _ _|w0 c' _]; cbn [phases]; [| |done];
    apply list.Forall_cons in H1 as [H1 _]; apply list_lookup_insert_ne.
  - exact H1.
  - intros ->. apply H1. unfold gate_event. destruct r; [by destruct (_ =? _)|done].
Qed.

(** A run whose trace is cut splits there. *)
Lemma run_split w t1 t2 w' : run w (t1 ++ t2) w' → ∃ wm, run w t1 wm ∧ run wm t2 w'.
Proof.
  remember (t1 ++ t2) as t eqn:Et. intros H. revert t1 t2 Et.
  induction H as [w|w1 w2 w3 s1 s2 Hs H IH]; intros t1 t2 Et.
  - symmetry in Et. apply app_nil in Et as [-> ->]. exists w. split; constructor.
  - assert (s1 = [] ∨ ∃ e, s1 = [e]) as [->|[e ->]] by (destruct Hs; eauto).
    + destruct (IH t1 t2 Et) as (wm & Ha & Hb). exists wm. split; [|done].
      change t1 with ([] ++ t1). by eapply run_step.
    + destruct t1 as [|e' t1].
      * cbn [app] in Et. subst t2. exists w1. split; [constructor|]. change (e :: s2) with ([e] ++ s2). by eapply run_step.
      * injection Et as <- Et. destruct (IH t1 t2 Et) as (wm & Ha & Hb). exists wm. split; [|done].
        change (e :: t1) with ([e] ++ t1). by eapply run_step.
Qed.

(** The step that made an event, among steps that make none. *)
Lemma run_event w e w' :
  run w [e] w' → ∃ w1 w2, run w [] w1 ∧ step w1 [e] w2 ∧ run w2 [] w'.
Proof.
  remember [e] as t eqn:Et. intros H. revert Et. induction H as [w|w1 w2 w3 s1 s2 Hs H IH]; intros Et; [done|].
  assert (s1 = [] ∨ ∃ e', s1 = [e']) as [->|[e' ->]] by (destruct Hs; eauto).
  - destruct (IH Et) as (wa & wb & Ha & Hb & Hc). exists wa, wb. split_and!; [|done|done].
    change (@nil Event) with (@nil Event ++ []). by eapply run_step.
  - injection Et as -> ->. exists w1, w2. split_and!; [constructor|done|done].
Qed.

Lemma run_silent w w' : run w [] w' → world_ok w →
  phases w' = phases w ∧ session_generation (console w') = session_generation (console w) ∧ world_ok w'.
Proof.
  intros Hr Hw. destruct (run_counters _ _ _ Hr Hw) as [Hw' E]. change (replacements []) with 0 in E.
  rewrite Z.add_0_r, Z.mod_small in E by apply Hw. split_and!; [|done|done].
  apply list_eq. intros i. symmetry. symmetry. eapply run_phase; [exact Hr|constructor].
Qed.

Lemma replaced_in t : 0 < replacements t ↔ ∃ j k, Replaced j k ∈ t.
Proof.
  unfold replacements. split.
  - intros H. destruct (filter _ t) as [|e l] eqn:E; [cbn in H; lia|].
    assert (He : e ∈ filter (λ e, is_replaced e = true) t) by (rewrite E; left).
    apply list_elem_of_filter in He as [Hr He]. destruct e as [| |j k|]; try done. by exists j, k.
  - intros (j & k & Hin). assert (He : Replaced j k ∈ filter (λ e, is_replaced e = true) t) by (by apply list_elem_of_filter).
    destruct (filter _ t); [by apply elem_of_nil in He|]. cbn. lia.
Qed.

Lemma gate_event_clone i r : clone_of (gate_event i r) = i.
Proof. unfold gate_event. by destruct r; [destruct (_ =? _)|]. Qed.

Lemma step_entered w i w' :
  step w [Entered i] w' → phases w' !! i = Some (Waiting (session_generation (console w'))).
Proof.
  remember [Entered i] as t eqn:Et. intros H. revert Et.
  destruct H as [j w0 g c' Hj Ee|j w0 g hs policy r sl c' _ _ _|]; intros Et; [| |done].
  - injection Et as ->. destruct (enter_counters _ _ _ Ee) as (-> & _ & Hg). cbn [phases console]. rewrite Hg.
    apply list_lookup_insert_eq. by eapply lookup_lt_Some.
  - injection Et as Et. unfold gate_event in Et. destruct r as [o|e]; [destruct (attempts o =? 0)|]; done.
Qed.

Lemma step_turn w i e w' g :
  step w [e] w' → clone_of e = i → phases w !! i = Some (Waiting g) →
  (e = Joined i ↔ session_generation (console w) ≠ g).
Proof.
  remember [e] as t eqn:Et. intros H. revert Et.
  destruct H as [j w0 g' c' Hj _|j w0 g' hs policy r sl c' Hj Hp Hg|]; intros Et; [| |done].
  - injection Et as <-. cbn [clone_of]. intros <-. congruence.
  - injection Et as <-. rewrite gate_event_clone. intros <- Hw. rewrite Hj in Hw. injection Hw as <-.
    by apply (gated_counters hs policy g' (console w0) r sl c' j Hp Hg).
Qed.

(** A counter of 64 bits comes back to a value only after 2^64 steps. *)
Lemma counter_moved g n : 0 ≤ g < 2 ^ 64 → 0 ≤ n < 2 ^ 64 → (g + n) mod 2 ^ 64 ≠ g ↔ 0 < n.
Proof.
  intros Hg Hn. destruct (Z_lt_le_dec (g + n) (2 ^ 64)).
  - rewrite Z.mod_small by lia. lia.
  - replace (g + n) with (g + n - 2 ^ 64 + 1 * 2 ^ 64) by lia. rewrite Z.mod_add by lia. rewrite Z.mod_small by lia. lia.
Qed.

(** *** Properties *)

Lemma session_gap_eq c :
  session_gap c = mk_gap true (bool_decide (is_Some (meter_socket_port (meters c)))) true.
Proof. unfold session_gap. by destruct (meter_socket_port (meters c)). Qed.

(** C9: a reconnect is a new session or nothing. On a console without a peer it refuses; if
    another clone replaced the session while this one waited for its turn, it makes no
    attempt and takes that session; otherwise it attempts until one succeeds, at most
    [max_attempts] times, sleeping between attempts the initial backoff doubled each time
    and capped from the second sleep on, and reports the last error if none did, the session
    untouched. After a success the meter subscription is forgotten, and nothing of the old
    connection remains, whatever state it was in: the next batch the server sends is read
    whole, however the new socket cuts it. The gap always claims lost events and changed
    state, and claims a lost meter subscription exactly when the clones share a meter socket,
    whether or not a subscription was active on it. *)
Theorem reconnect_exact handshake_streams policy others c r sleeps c' :
  policy_ok policy → reconnect handshake_streams policy others c = (r, sleeps, c') →
  if reconnectable c then
    let c1 := others (set_pending_reconnects (pending_reconnects c + 1) c) in
    if decide (session_generation c1 ≠ session_generation c) then
      r = Ok (mk_outcome 0 (mk_gap true (bool_decide (is_Some (meter_socket_port (meters c1)))) true)) ∧ sleeps = [] ∧ session c' = session c1 ∧ meters c' = meters c1
    else
      (∃ k conn, 1 ≤ k ≤ max_attempts policy ∧ (∀ j, 1 ≤ j < k → ∃ e, handshake_streams j = Err e)
         ∧ handshake_streams k = Ok conn
         ∧ r = Ok (mk_outcome k (mk_gap true (bool_decide (is_Some (meter_socket_port (meters c1)))) true)) ∧ sleeps = map (backoff_of policy) (seq 0 (Z.to_nat (k - 1)))
         ∧ active_meter_id (meters c') = None
         ∧ session_generation c' = (session_generation c + 1) mod 2 ^ 64
         ∧ firmware c' = match probe_firmware conn with Some f => Some f | None => firmware c1 end
         ∧ ∀ responses p,
             Forall response_wf responses → encode_all responses = Ok p →
             Z.of_nat (length p) ≤ MAX_NATIVE_RESPONSE_BYTES →
             Forall pass_clean (new_script conn) → concat (map pass_bytes (new_script conn)) = batch_frame p →
             ∃ s', read_times (length responses) (session c') = (Ok (map client_view responses), s')
               ∧ deliver s' = [])
      ∨ (∀ j, 1 ≤ j ≤ max_attempts policy → ∃ e, handshake_streams j = Err e)
        ∧ (∃ e, r = Err e ∧ handshake_streams (max_attempts policy) = Err e ∨ r = Err ConnectionError ∧ max_attempts policy = 0)
        ∧ sleeps = map (backoff_of policy) (seq 0 (Z.to_nat (max_attempts policy - 1)))
        ∧ session c' = session c1 ∧ meters c' = meters c1 ∧ session_generation c' = session_generation c1
  else r = Err InvalidInput ∧ sleeps = [] ∧ c' = c.
Proof.
  intros Hp H. unfold reconnect, enter in H. destruct (reconnectable c); cbn [negb] in H.
  2: { by injection H as <- <- <-. }
  set (c1 := others _) in *. cbv zeta. rewrite <- session_gap_eq. unfold gated in H. set (c2 := set_pending_reconnects _ c1) in *.
  change (session_generation c2) with (session_generation c1) in H.
  destruct (Z.eqb_spec (session_generation c1) (session_generation c)) as [He|He]; cbn [negb] in H.
  - rewrite decide_False by auto.
    destruct (attempts_spec handshake_streams policy Hp c2) as [(k & conn & Hk & Hf & Ok' & E)|(Hf & e & H0 & H1 & E)];
      rewrite H in E; injection E as -> -> ->.
    + left. exists k, conn. split_and!; try done; [lia|lia|by rewrite <- He|].
      intros responses p. by apply (fresh_reads_batch (session (replace_session conn c2))).
    + right. split_and!; try done; [intros j Hj; apply Hf; lia|]. exists e. destruct Hp as (_ & _ & Hm).
      destruct (decide (max_attempts policy = 0)) as [Hz|Hz]; [right; by rewrite H0|left]. split; [done|]. apply H1. lia.
  - rewrite decide_True by done. injection H as <- <- <-. by split_and!.
Qed.

(** C10: reconnects of several clones coalesce. In any run of any number of clones, with any
    reads, writes and other reconnects in between, a clone that entered a reconnect makes
    connection attempts of its own exactly when no other clone replaced the session since it
    entered, and otherwise joins; and all along the counter that sweeps look at is the number
    of clones that wait. *)
Theorem reconnects_coalesce w i mid e w' :
  world_ok w → run w (Entered i :: mid ++ [e]) w' →
  Forall (λ e, clone_of e ≠ i) mid → clone_of e = i → replacements mid < 2 ^ 64 →
  (e = Joined i ↔ ∃ j k, Replaced j k ∈ mid)
  ∧ (Z.of_nat (length (phases w')) < 2 ^ 64 → pending_reconnects (console w') = count_waiting (phases w')).
Proof.
  intros Hw Hrun Hmid He Hlt. change (Entered i :: mid ++ [e]) with ([Entered i] ++ mid ++ [e]) in Hrun.
  destruct (run_split _ _ _ _ Hrun) as (w2 & R1 & R23). destruct (run_split _ _ _ _ R23) as (w3 & R2 & R3).
  destruct (run_event _ _ _ R1) as (wa & wb & Ra & Sab & Rb).
  destruct (run_silent _ _ Ra Hw) as (_ & _ & Hwa).
  destruct (run_event _ _ _ R3) as (wc & wd & Rc & Scd & Rd).
  pose proof (step_entered _ _ _ Sab) as Hent.
  destruct (step_counters _ _ _ Sab Hwa) as [Hwb _].
  destruct (run_silent _ _ Rb Hwb) as (Pb & Gb & Hw2).
  destruct (run_counters _ _ _ R2 Hw2) as [Hw3 G3].
  destruct (run_silent _ _ Rc Hw3) as (Pc & Gc & _).
  rewrite <- Pb, <- Gb, <- (run_phase _ _ _ i R2 Hmid), <- Pc in Hent. split.
  - rewrite (step_turn _ _ _ _ _ Scd He Hent), Gc, G3, <- replaced_in.
    apply counter_moved; [apply Hw2|]. unfold replacements in *. lia.
  - intros Hlen. destruct (run_counters _ _ _ Hrun Hw) as [[_ Hpend] _]. rewrite Hpend. apply Z.mod_small.
    unfold count_waiting. pose proof (list.length_filter (λ p, waiting p = true) (phases w')). lia.
Qed.

(** *** Witnesses *)

(** A session that lost its stream in the middle of an escape sequence, tainted, with a meter
    subscription; the second attempt gets through. *)
Definition sample_console : Console :=
  mk_console
    (mk_session (set_channels (mk_channel_decoder true (Some 3)) reset_main) true None [] [] [])
    (mk_meters (Some 5000) (Some 4) 5) 0 7 (Some (str "3.0")) true.

Definition sample_connection : Connection := mk_connection sample_passes [] (Some (str "3.1")).

Definition sample_network (attempt : Z) : result Error Connection :=
  if attempt <? 2 then Err ConnectionError else Ok sample_connection.

(** After a reconnect the subscription is gone, and the next gap claims to lose it again. *)
Example gap_without_subscription :
  let c := replace_session sample_connection sample_console in
  active_meter_id (meters c) = None ∧ meters_invalidated (session_gap c) = true.
Proof. split; reflexivity. Qed.

Lemma reconnect_exact_witness :
  ∃ c', reconnect sample_network default_reconnect_policy id sample_console
      = (Ok (mk_outcome 2 (mk_gap true true true)), [250 * MILLIS], c')
    ∧ ∃ s', read_times 3 (session c')
      = (Ok [WingResponses.NodeData 0xdf (with_i32 (-2)); WingResponses.NodeData 5 (with_string (str "on"));
             WingResponses.RequestEnd], s').
Proof.
  destruct (reconnect sample_network default_reconnect_policy id sample_console) as [[r sl] c'] eqn:E.
  assert (Hp : policy_ok default_reconnect_policy) by (split_and!; vm_compute; discriminate || reflexivity).
  pose proof (reconnect_exact _ _ _ _ _ _ _ Hp E) as H. cbv zeta beta in H.
  change (reconnectable sample_console) with true in H. cbv iota in H.
  destruct (decide _) as [Hn|_] in H; [by destruct Hn|].
  destruct H as [(k & conn & Hk & Hf & Hc & -> & -> & _ & _ & _ & Hread)|(Hf & _)].
  2: { destruct (Hf 2) as [e He]; [split; vm_compute; discriminate|]. discriminate He. }
  assert (k = 2) as ->.
  { destruct (decide (k < 2)); [unfold sample_network in Hc; rewrite (proj2 (Z.ltb_lt k 2)) in Hc by done; done|].
    destruct (decide (2 < k)) as [H2|]; [|lia]. destruct (Hf 2) as [e He]; [lia|]. discriminate He. }
  injection Hc as <-. exists c'. split; [reflexivity|].
  destruct (Hread sample_batch sample_payload) as (s' & Hs' & _).
  - unfold sample_batch. each_elem; simpl; try done; split; try done; width.
  - reflexivity.
  - vm_compute. discriminate.
  - unfold sample_connection, sample_passes. cbn [new_script]. each_elem; split; done.
  - vm_compute. reflexivity.
  - exists s'. exact Hs'.
Defined.

(** Two clones ask; the first one reconnects for both. *)
Lemma reconnects_coalesce_witness :
  ∃ w w', run w ([Entered 0; Entered 1] ++ [Replaced 1 2; Joined 0]) w'
    ∧ (Joined 0 = Joined 0 ↔ ∃ j k, Replaced j k ∈ [Entered 1; Replaced 1 2]).
Proof.
  set (w0 := mk_world sample_console [Running; Running]).
  assert (Hp : policy_ok default_reconnect_policy) by (split_and!; vm_compute; discriminate || reflexivity).
  assert (H : ∃ w', run w0 (Entered 0 :: [Entered 1; Replaced 1 2] ++ [Joined 0]) w').
  { eexists. eapply (run_step w0 _ _ [Entered 0]); [by apply (step_enter 0 w0 7)|].
    eapply (run_step _ _ _ [Entered 1]); [by apply (step_enter 1 _ 7)|].
    eapply (run_step _ _ _ [Replaced 1 2]).
    { apply (step_gated 1 _ 7 sample_network default_reconnect_policy
        (Ok (mk_outcome 2 (mk_gap true true true))) [250 * MILLIS]); [done|exact Hp|]. vm_compute. reflexivity. }
    eapply (run_step _ _ _ [Joined 0]); [|constructor].
    apply (step_gated 0 _ 7 sample_network default_reconnect_policy
      (Ok (mk_outcome 0 (mk_gap true true true))) []); [done|exact Hp|]. vm_compute. reflexivity. }
  destruct H as [w' H]. exists w0, w'. split; [exact H|].
  apply (reconnects_coalesce w0 0 [Entered 1; Replaced 1 2] (Joined 0) w').
  - split; [split; vm_compute; [discriminate|reflexivity]|reflexivity].
  - exact H.
  - repeat constructor; discriminate.
  - reflexivity.
  - vm_compute. reflexivity.
Defined.
