(* ===== verification/BinaryValues.v ===== *)
(** Raw node buffers ([src/src/console.rs]): [NodeValue], [parse_binary_values],
    [encode_binary_values], the comparison of values and [verify_binary_node].

    The embedded property map is data the build generates: what it knows of an id is the
    parameter [defs_by_id] of the definitions that use it. *)

From stdpp Require Import gmap.
From S2P Require Import Prelude Bytes Lib Utf8 F32 Channel NodeDef NodeData.
From S2P Require Import Meter NativeRequest NativeResponse ClientMessages ResponseReader ClientReader Attended.
Local Open Scope Z_scope.
Local Open Scope rust_scope.

(** ** Data *)

Module NodeValues.
Inductive NodeValue := String (s : list byte) | Float (f : f32) | Int (i : Z).
End NodeValues.
Abbreviation NodeValue := NodeValues.NodeValue.

#[export] Instance NodeValue_eq_dec : EqDecision NodeValue.
Proof. solve_decision. Defined.

(** [NodeValue::from_data]. *)
Definition from_data (data : WingNodeData) : NodeValue :=
  if has_string data then NodeValues.String (get_string data)
  else if has_float data then NodeValues.Float (get_float data)
  else NodeValues.Int (get_int data).

(** The [match] that turns a [NodeValue] into the value of a message. *)
Definition to_native (v : NodeValue) : NativeValue :=
  match v with
  | NodeValues.String s => NativeValues.String s
  | NodeValues.Float f => NativeValues.Float f
  | NodeValues.Int n => NativeValues.Integer n
  end.

Record BinaryMismatch := mk_mismatch {
  mismatch_id : Z; mismatch_expected : NodeValue; mismatch_actual : option NodeValue }.

Record VerifyReport := mk_report {
  checked : nat; skipped : nat; mismatches : list BinaryMismatch }.

(** ** Parsing *)

(** The local [take] of [parse_binary_values], on the bytes from the cursor on. *)
Definition take_slice (n : nat) (rest : list byte) : Result (list byte * list byte) :=
  if (length rest <? n)%nat then Err InvalidData else Ok (take n rest, drop n rest).

(** [str_from]. *)
Definition str_from (bytes : list byte) : list byte := from_utf8_lossy bytes.

(** The locals of the loop: the bytes from the cursor on, the current node, the output. *)
Record Parse := mk_parse { p_rest : list byte; p_cur : option Z; p_out : list (Z * NodeValue) }.

Definition emit (p : Parse) (rest : list byte) (v : NodeValue) : Result (option Parse) :=
  let? id := ok_or (p_cur p) InvalidData in
  Ok (Some (mk_parse rest (p_cur p) (p_out p ++ [(id, v)]))).

Definition skip (p : Parse) (n : nat) (rest : list byte) : Result (option Parse) :=
  let? (_, rest) := take_slice n rest in Ok (Some (mk_parse rest (p_cur p) (p_out p))).

(** One turn of the loop with opcode [cmd], [rest] behind it; [None] breaks out. *)
Definition parse_opcode (p : Parse) (cmd : Z) (rest : list byte) : Result (option Parse) :=
  if cmd <=? 0x3f then emit p rest (NodeValues.Int cmd)
  else if cmd <=? 0x7f then skip p 0 rest
  else if cmd <=? 0xbf then
    let? (s, rest) := take_slice (Z.to_nat (cmd - 0x80) + 1) rest in
    emit p rest (NodeValues.String (str_from s))
  else if cmd <=? 0xcf then skip p (Z.to_nat (cmd - 0xc0) + 1) rest
  else if cmd =? 0xd0 then emit p rest (NodeValues.String [])
  else if cmd =? 0xd1 then
    let? (b, rest) := take_slice 1 rest in
    let? (s, rest) := take_slice (Z.to_nat (from_be b) + 1) rest in
    emit p rest (NodeValues.String (str_from s))
  else if cmd =? 0xd2 then skip p 2 rest
  else if cmd =? 0xd3 then
    let? (b, rest) := take_slice 2 rest in emit p rest (NodeValues.Int (i16_from_be b))
  else if cmd =? 0xd4 then
    let? (b, rest) := take_slice 4 rest in emit p rest (NodeValues.Int (i32_from_be b))
  else if (cmd =? 0xd5) || (cmd =? 0xd6) then
    let? (b, rest) := take_slice 4 rest in emit p rest (NodeValues.Float (f32_from_be b))
  else if cmd =? 0xd7 then
    let? (b, rest) := take_slice 4 rest in
    Ok (Some (mk_parse rest (Some (i32_from_be b)) (p_out p)))
  else if cmd =? 0xd8 then skip p 0 rest
  else if cmd =? 0xd9 then skip p 1 rest
  else if cmd <=? 0xdd then skip p 0 rest
  else if cmd =? 0xde then Ok None
  else Err InvalidData.

Fixpoint parse_values_loop (fuel : nat) (p : Parse) : Result (list (Z * NodeValue)) :=
  match fuel with
  | O => Ok (p_out p)
  | S fuel =>
    match p_rest p with
    | [] => Ok (p_out p)
    | b :: rest =>
      match parse_opcode p (u8 b) rest with
      | Ok (Some p) => parse_values_loop fuel p
      | Ok None => Ok (p_out p)
      | Err e => Err e
      end
    end
  end.

Definition parse_binary_values (data : list byte) : Result (list (Z * NodeValue)) :=
  parse_values_loop (length data) (mk_parse data None []).

(** ** Encoding *)

Definition encode_pair (out : list byte) (pair : Z * NodeValue) : list byte :=
  match encode_value [] (to_native pair.2) with
  | Err _ => out
  | Ok encoded_value => (out ++ [b8 0xd7]) ++ to_be 4 pair.1 ++ encoded_value
  end.

Definition encode_binary_values (pairs : list (Z * NodeValue)) : list byte :=
  foldl encode_pair [] pairs ++ [b8 0xde].

(** ** Comparing *)

(** [1e-3_f32] and [1e-4]. *)
Definition f32_1e_3 : f32 := F32 0x3a83126f.
Definition f32_1e_4 : f32 := F32 0x38d1b717.

(** [==] on [NodeValue]: floats compare as IEEE numbers. *)
Definition node_value_eqb (a b : NodeValue) : bool :=
  match a, b with
  | NodeValues.String x, NodeValues.String y => bytes_eqb x y
  | NodeValues.Float x, NodeValues.Float y => f32_eqb x y
  | NodeValues.Int x, NodeValues.Int y => x =? y
  | _, _ => false
  end.

Definition values_match (a b : NodeValue) : bool :=
  match a, b with
  | NodeValues.Float x, NodeValues.Float y =>
    f32_leb (f32_abs (f32_sub x y))
      (f32_max f32_1e_3 (f32_mul (f32_max (f32_abs x) (f32_abs y)) f32_1e_4))
  | _, _ => node_value_eqb a b
  end.

Section Verify.
Context (defs_by_id : Z → option (list WingNodeDef)).

Definition id_is_read_only (id : Z) : bool :=
  match defs_by_id id with Some defs => forallb def_read_only defs | None => false end.

Definition label_at (idx : nat) (label : list byte) (def : WingNodeDef) : bool :=
  match def_string_enum def with
  | Some items => match items !! idx with Some item => bytes_eqb (si_item item) label | None => false end
  | None => false
  end.

Definition values_match_at (id : Z) (a b : NodeValue) : bool :=
  if values_match a b then true
  else
    match (match a, b with
           | NodeValues.Int i, NodeValues.String s | NodeValues.String s, NodeValues.Int i => Some (i, s)
           | _, _ => None
           end) with
    | None => false
    | Some (idx, label) =>
      match usize_of_i32 idx with
      | None => false
      | Some idx =>
        match defs_by_id id with Some defs => existsb (label_at idx label) defs | None => false end
      end
    end.

(** [parse_binary_values(&buf)?.into_iter().collect()]: of two entries the later one stays. *)
Definition capture_value_map (timeout : Deadline) : Read (gmap Z NodeValue) :=
  let! buf := get_binary_node 0 timeout in
  let! values := fallible (parse_binary_values buf) in
  ret (list_to_map (rev values)).

Definition agrees (current : gmap Z NodeValue) (id : Z) (want : NodeValue) : bool :=
  match current !! id with Some a => values_match_at id a want | None => false end.

(** The first pass: the counts, and what does not match. *)
Definition first_pass (current : gmap Z NodeValue) (expected : list (Z * NodeValue))
    : nat * nat * list (Z * NodeValue) :=
  foldl (λ acc p,
    let '(checked, skipped, suspects) := acc in
    if id_is_read_only p.1 then (checked, S skipped, suspects)
    else (S checked, skipped,
          if agrees current p.1 p.2 then suspects else suspects ++ [p])) (0, 0, [])%nat expected.

Definition mismatch_of (current : gmap Z NodeValue) (p : Z * NodeValue) : BinaryMismatch :=
  mk_mismatch p.1 p.2 (current !! p.1).

Definition verify_binary_node (data : list byte) (capture_timeout : Deadline) (settle : bool)
    : Read VerifyReport :=
  let! expected := fallible (parse_binary_values data) in
  let! current := capture_value_map capture_timeout in
  let '(checked, skipped, suspects) := first_pass current expected in
  if bool_decide (suspects = []) then ret (mk_report checked skipped [])
  else if negb settle then ret (mk_report checked skipped (map (mismatch_of current) suspects))
  else
    let! recheck := capture_value_map capture_timeout in
    ret (mk_report checked skipped
      (map (mismatch_of recheck) (filter (λ p, agrees recheck p.1 p.2 = false) suspects))).
End Verify.

(** ** Lemmas *)

Definition value_pair (r : WingResponse) : list (Z * NodeValue) :=
  match r with WingResponses.NodeData id data => [(id, from_data data)] | _ => [] end.

Definition no_def (r : WingResponse) : Prop :=
  match r with WingResponses.NodeDef _ => False | _ => True end.

#[export] Instance no_def_dec r : Decision (no_def r).
Proof. destruct r; apply _. Defined.

Lemma take_slice_app n w rest : length w = n → take_slice n (w ++ rest) = Ok (w, rest).
Proof.
  intros <-. unfold take_slice. rewrite length_app, (proj2 (Nat.ltb_ge _ _)) by lia.
  by rewrite take_app_length, drop_app_length.
Qed.

Lemma take_slice_Ok n rest w rest' :
  take_slice n rest = Ok (w, rest') → rest = w ++ rest' ∧ length w = n.
Proof.
  unfold take_slice. intros H. split_match_in H. bool_hyps. rewrite take_drop, length_take. split; [done|lia].
Qed.

Lemma parse_opcode_shorter p cmd rest p' :
  parse_opcode p cmd rest = Ok (Some p') → (length (p_rest p') ≤ length rest)%nat.
Proof.
  assert (∀ n l w l', take_slice n l = Ok (w, l') → (length l' ≤ length l)%nat) as Ht.
  { intros n l w l' [-> _]%take_slice_Ok. rewrite length_app. lia. }
  assert (∀ l v, emit p l v = Ok (Some p') → (length (p_rest p') ≤ length l)%nat) as He.
  { intros l v. unfold emit. destruct (p_cur p); simpl; [|done]. by intros [= <-]. }
  assert (∀ n l, skip p n l = Ok (Some p') → (length (p_rest p') ≤ length l)%nat) as Hs.
  { intros n l. unfold skip. destruct (take_slice n l) as [[w l']|] eqn:E; [|done].
    intros [= <-]. simpl. by eapply Ht. }
  unfold parse_opcode. intros H.
  repeat match type of H with
  | (if ?b then _ else _) = _ => destruct b
  | context [take_slice ?n ?l] => let E := fresh in destruct (take_slice n l) as [[? ?]|] eqn:E; [apply Ht in E|done]
  end; try done; try (apply He in H; lia); try (apply Hs in H; lia).
  injection H as <-. simpl. lia.
Qed.

Lemma parse_values_fuel n m p :
  (length (p_rest p) ≤ n)%nat → (length (p_rest p) ≤ m)%nat →
  parse_values_loop n p = parse_values_loop m p.
Proof.
  revert m p. induction n as [|n IH]; intros [|m] p Hn Hm; [done|..];
    cbn [parse_values_loop]; destruct (p_rest p) as [|b rest] eqn:E; simpl in Hn, Hm; try done; try lia.
  destruct (parse_opcode p (u8 b) rest) as [[p'|]|e] eqn:Ep; [|done..].
  apply parse_opcode_shorter in Ep. apply IH; lia.
Qed.

(** The loop from a given state, free of fuel. *)
Definition parse_from (p : Parse) : Result (list (Z * NodeValue)) := parse_values_loop (length (p_rest p)) p.

Lemma parse_from_cons b rest cur out :
  parse_from (mk_parse (b :: rest) cur out) =
    match parse_opcode (mk_parse (b :: rest) cur out) (u8 b) rest with
    | Ok (Some p) => parse_from p
    | Ok None => Ok out
    | Err e => Err e
    end.
Proof.
  unfold parse_from at 1. cbn [p_rest length parse_values_loop].
  destruct (parse_opcode _ _ _) as [[p'|]|e] eqn:E; [|done..].
  apply parse_opcode_shorter in E. by apply parse_values_fuel.
Qed.

(** The opcode sees the cursor, the current node and the output only. *)
Lemma parse_opcode_rest l l' cur out cmd rest :
  parse_opcode (mk_parse l cur out) cmd rest = parse_opcode (mk_parse l' cur out) cmd rest.
Proof. done. Qed.

Definition normal (v : NativeValue) : NodeValue :=
  match v with
  | NativeValues.Integer z => NodeValues.Int z
  | NativeValues.Float f | NativeValues.RawFloat f => NodeValues.Float f
  | NativeValues.String s => NodeValues.String s
  end.

Lemma normal_to_native v : normal (to_native v) = v.
Proof. by destruct v. Qed.

Lemma parse_from_select id rest cur out :
  in_i32 id →
  parse_from (mk_parse ([b8 0xd7] ++ to_be 4 id ++ rest) cur out) = parse_from (mk_parse rest (Some id) out).
Proof.
  intros Hid. cbn [app]. rewrite parse_from_cons. change (u8 (b8 0xd7)) with 0xd7.
  change (parse_opcode ?p 0xd7 ?r) with
    (let? (b, rest) := take_slice 4 r in Ok (Some (mk_parse rest (Some (i32_from_be b)) (p_out p)))).
  rewrite take_slice_app by apply to_be_length. by rewrite i32_round.
Qed.

Lemma parse_from_value v rest id out :
  value_wf v → value_encodable v →
  parse_from (mk_parse (token_bytes (value_token v) ++ rest) (Some id) out)
  = parse_from (mk_parse rest (Some id) (out ++ [(id, normal v)])).
Proof.
  intros Hv He. destruct v as [z|f|f|s]; cbn [value_token value_wf normal] in *.
  - case_decide as Hs; [|case_decide as Hi]; cbn [token_bytes app]; rewrite parse_from_cons.
    + rewrite u8_b8_small by lia. unfold parse_opcode. by rewrite (proj2 (Z.leb_le z 0x3f)) by lia.
    + change (u8 (b8 0xd3)) with 0xd3. change (parse_opcode ?p 0xd3 ?r) with
        (let? (b, rest) := take_slice 2 r in emit p rest (NodeValues.Int (i16_from_be b))).
      rewrite take_slice_app by apply to_be_length. by rewrite i16_round.
    + change (u8 (b8 0xd4)) with 0xd4. change (parse_opcode ?p 0xd4 ?r) with
        (let? (b, rest) := take_slice 4 r in emit p rest (NodeValues.Int (i32_from_be b))).
      rewrite take_slice_app by apply to_be_length. by rewrite i32_round.
  - cbn [token_bytes app]. rewrite parse_from_cons. change (u8 (b8 0xd5)) with 0xd5.
    change (parse_opcode ?p 0xd5 ?r) with
      (let? (b, rest) := take_slice 4 r in emit p rest (NodeValues.Float (f32_from_be b))).
    rewrite take_slice_app by done. by rewrite f32_round.
  - cbn [token_bytes app]. rewrite parse_from_cons. change (u8 (b8 0xd6)) with 0xd6.
    change (parse_opcode ?p 0xd6 ?r) with
      (let? (b, rest) := take_slice 4 r in emit p rest (NodeValues.Float (f32_from_be b))).
    rewrite take_slice_app by done. by rewrite f32_round.
  - case_decide as Hs; [by subst|]. cbn [value_encodable] in He. destruct s as [|c s']; [done|].
    remember (c :: s') as s eqn:E. assert (0 < length s)%nat by (subst; simpl; lia). clear E c s'.
    case_decide as Hl; cbn [token_bytes app]; rewrite parse_from_cons.
    + rewrite u8_b8_small by lia. unfold parse_opcode.
      rewrite (proj2 (Z.leb_gt _ 0x3f)), (proj2 (Z.leb_gt _ 0x7f)), (proj2 (Z.leb_le _ 0xbf)) by lia.
      rewrite take_slice_app by lia. unfold str_from. by rewrite from_utf8_lossy_valid.
    + change (u8 (b8 0xd1)) with 0xd1. change (parse_opcode ?p 0xd1 ?r) with
        (let? (b, rest) := take_slice 1 r in
         let? (s, rest) := take_slice (Z.to_nat (from_be b) + 1) rest in
         emit p rest (NodeValues.String (str_from s))).
      change (?c :: s ++ rest) with ([c] ++ s ++ rest).
      rewrite (take_slice_app 1 [_]) by done. rewrite take_slice_app.
      * unfold str_from. by rewrite from_utf8_lossy_valid.
      * unfold from_be. cbn [foldl]. rewrite u8_b8_small by lia. lia.
Qed.

(** What one pair contributes to a buffer. *)
Definition pair_bytes (p : Z * NodeValue) : list byte :=
  [b8 0xd7] ++ to_be 4 p.1 ++ token_bytes (value_token (to_native p.2)).

Lemma encode_pairs_eq pairs out :
  foldl encode_pair out pairs =
    out ++ concat (map pair_bytes (filter (λ p, value_encodable (to_native p.2)) pairs)).
Proof.
  revert out. induction pairs as [|p pairs IH]; intros out; [by rewrite app_nil_r|].
  cbn [foldl]. rewrite IH. unfold encode_pair. rewrite encode_value_token, filter_cons.
  repeat case_decide; try done. cbn [map concat app]. unfold pair_bytes. by rewrite <- !(assoc_L (++)).
Qed.

(** A pair as the protocol can hold it. *)
Definition pair_wf (p : Z * NodeValue) : Prop := in_i32 p.1 ∧ value_wf (to_native p.2).

Lemma parse_encoded_pairs pairs out cur :
  Forall pair_wf pairs → Forall (λ p, value_encodable (to_native p.2)) pairs →
  parse_from (mk_parse (concat (map pair_bytes pairs) ++ [b8 0xde]) cur out) = Ok (out ++ pairs).
Proof.
  intros Hwf. revert out cur. induction Hwf as [|[id v] pairs [Hid Hv] _ IH]; intros out cur He.
  { simpl. rewrite app_nil_r. by rewrite parse_from_cons. }
  apply Forall_cons_iff in He as [He Hes]. cbn [fst snd] in *. cbn [map concat]. unfold pair_bytes at 1. cbn [fst snd].
  rewrite <- !(assoc_L (++)), parse_from_select, parse_from_value by done.
  rewrite IH by done. by rewrite <- (assoc_L (++)), normal_to_native.
Qed.

(** ** Lemmas: the raw parser and the typed reader *)

Lemma read_bytes_slice n rest node l s' :
  read_bytes n (mk_stream rest node) = (Ok l, s') →
  take_slice n rest = Ok (l, stream s') ∧ stream_node s' = node.
Proof.
  revert rest l s'. induction n as [|n IH]; intros rest l s' E; cbn [read_bytes] in E.
  { injection E as <- <-. done. }
  unfold bind in E at 1. destruct rest as [|b rest]; simpl in E; [done|]. unfold bind in E.
  destruct (read_bytes n (mk_stream rest node)) as [[l'|e] s1] eqn:E1; [|done]. injection E as <- <-.
  destruct (IH rest l' s1 E1) as [Ht Hn]. split; [|done].
  apply take_slice_Ok in Ht as [-> <-]. apply (take_slice_app _ (b :: l')). done.
Qed.

Lemma read_string_slice n rest node v s' :
  read_string n (mk_stream rest node) = (Ok v, s') →
  ∃ l, take_slice n rest = Ok (l, stream s') ∧ stream_node s' = node ∧ str_from l = v.
Proof.
  unfold read_string, bind. intros E.
  destruct (read_bytes n (mk_stream rest node)) as [[l|e] s1] eqn:E1; [|done].
  unfold from_utf8 in E. destruct (utf8_valid l) eqn:Eu; [|done]. injection E as <- <-.
  apply read_bytes_slice in E1 as [? ?]. exists l. split_and!; [done..|]. by apply from_utf8_lossy_valid.
Qed.

Lemma read_u16_slice rest node v s' :
  read_u16 (mk_stream rest node) = (Ok v, s') →
  ∃ l, take_slice 2 rest = Ok (l, stream s') ∧ stream_node s' = node ∧ from_be l = v.
Proof.
  unfold read_u16, bind. intros E. destruct rest as [|a [|b rest]]; simpl in E; try done.
  injection E as <- <-. exists [a; b]. split_and!; [by apply (take_slice_app 2 [a; b])|done|].
  symmetry. apply or_be_2.
Qed.

Lemma read_u32_slice rest node v s' :
  read_u32 (mk_stream rest node) = (Ok v, s') →
  ∃ l, take_slice 4 rest = Ok (l, stream s') ∧ stream_node s' = node ∧ from_be l = v.
Proof.
  unfold read_u32, bind. intros E. destruct rest as [|a [|b [|c [|d rest]]]]; simpl in E; try done.
  injection E as <- <-. exists [a; b; c; d]. split_and!; [by apply (take_slice_app 4 [a; b; c; d])|done|].
  symmetry. apply or_be_4.
Qed.

Lemma read_f_slice rest node v s' :
  read_f (mk_stream rest node) = (Ok v, s') →
  ∃ l, take_slice 4 rest = Ok (l, stream s') ∧ stream_node s' = node ∧ f32_from_be l = v.
Proof.
  unfold read_f, bind. intros E. destruct rest as [|a [|b [|c [|d rest]]]]; simpl in E; try done.
  injection E as <- <-. exists [a; b; c; d]. split_and!; [by apply (take_slice_app 4 [a; b; c; d])|done|].
  unfold f32_from_be. by rewrite or_be_4.
Qed.

(** What the raw parser does where the typed reader answers [r]. *)
Definition raw_agrees (node : Z) (out : list (Z * NodeValue)) (r : option WingResponse) (s' : ByteStream)
    (o : Result (option Parse)) : Prop :=
  match r with
  | None => o = Ok (Some (mk_parse (stream s') (Some (stream_node s')) out))
  | Some WingResponses.RequestEnd => o = Ok None
  | Some (WingResponses.NodeDef _) => o = Err InvalidData
  | Some (WingResponses.NodeData id d) =>
    o = Ok (Some (mk_parse (stream s') (Some (stream_node s')) (out ++ [(id, from_data d)])))
  end.

Lemma emit_agrees l node out rest v d s s' r :
  stream s = rest → stream_node s = node → from_data d = v →
  node_data d s = (Ok r, s') →
  raw_agrees node out r s' (emit (mk_parse l (Some node) out) rest v).
Proof. intros <- <- <- E. unfold node_data, bind, gets, ret in E. by injection E as <- <-. Qed.

Lemma skip_agrees l node out n rest rest' :
  (∃ w, take_slice n rest = Ok (w, rest')) →
  skip (mk_parse l (Some node) out) n rest = Ok (Some (mk_parse rest' (Some node) out)).
Proof. intros [w E]. unfold skip. by rewrite E. Qed.

(** Opcode by opcode the two decoders of the grammar agree. *)
Lemma command_agrees l cmd rest node out r s' :
  read_command cmd (mk_stream rest node) = (Ok r, s') →
  raw_agrees node out r s' (parse_opcode (mk_parse l (Some node) out) cmd rest).
Proof.
  intros E. unfold read_command in E. unfold parse_opcode.
  destruct (cmd <=? 0x3f); [eapply emit_agrees; [..|exact E]; reflexivity|].
  destruct (cmd <=? 0x7f) eqn:E7f.
  { injection E as <- <-. apply skip_agrees. exists []. by apply (take_slice_app 0 []). }
  destruct (cmd <=? 0xbf) eqn:Ebf.
  { apply bind_ok in E as (v & s1 & (w & Ht & Hn & <-)%read_string_slice & E). bool_hyps.
    replace (Z.to_nat (cmd - 0x80) + 1)%nat with (Z.to_nat (cmd - 0x80 + 1)) by lia.
    rewrite Ht. by eapply emit_agrees; [..|exact E]. }
  destruct (cmd <=? 0xcf).
  { apply bind_ok in E as (v & s1 & [Ht <-]%read_bytes_slice & E). injection E as <- <-. bool_hyps.
    replace (Z.to_nat (cmd - 0xc0) + 1)%nat with (Z.to_nat (cmd - 0xc0 + 1)) by lia.
    apply skip_agrees. eauto. }
  destruct (cmd =? 0xd0); [eapply emit_agrees; [..|exact E]; reflexivity|].
  destruct (cmd =? 0xd1).
  { apply bind_ok in E as (len & s1 & E1 & E). apply bind_ok in E1 as (b & s2 & E1 & E2).
    injection E2 as <- <-. destruct rest as [|c rest]; simpl in E1; [done|]. injection E1 as <- <-.
    apply bind_ok in E as (v & s1 & (w & Ht & Hn & <-)%read_string_slice & E).
    change (c :: rest) with ([c] ++ rest). rewrite (take_slice_app 1 [c]) by done. rewrite from_be_1. pose proof (u8_bound c).
    replace (Z.to_nat (u8 c) + 1)%nat with (Z.to_nat (u8 c + 1)) by lia.
    rewrite Ht. by eapply emit_agrees; [..|exact E]. }
  destruct (cmd =? 0xd2).
  { apply bind_ok in E as (v & s1 & (w & Ht & Hn & _)%read_u16_slice & E). injection E as <- <-.
    cbn [raw_agrees]. rewrite Hn. apply skip_agrees. eauto. }
  destruct (cmd =? 0xd3).
  { apply bind_ok in E as (v & s1 & E1 & E). apply bind_ok in E1 as (v' & s2 & (w & Ht & Hn & <-)%read_u16_slice & E2).
    injection E2 as <- <-. rewrite Ht. by eapply emit_agrees; [..|exact E]. }
  destruct (cmd =? 0xd4).
  { apply bind_ok in E as (v & s1 & E1 & E). apply bind_ok in E1 as (v' & s2 & (w & Ht & Hn & <-)%read_u32_slice & E2).
    injection E2 as <- <-. rewrite Ht. by eapply emit_agrees; [..|exact E]. }
  destruct (_ || _).
  { apply bind_ok in E as (v & s1 & (w & Ht & Hn & <-)%read_f_slice & E).
    rewrite Ht. by eapply emit_agrees; [..|exact E]. }
  destruct (cmd =? 0xd7).
  { apply bind_ok in E as (v & s1 & E1 & E). apply bind_ok in E1 as (v' & s2 & (w & Ht & Hn & <-)%read_u32_slice & E2).
    injection E2 as <- <-. apply bind_ok in E as (u & s3 & E3 & E). injection E3 as <- <-. injection E as <- <-.
    by rewrite Ht. }
  destruct (cmd =? 0xd8) eqn:Ed8.
  { injection E as <- <-. apply skip_agrees. exists []. by apply (take_slice_app 0 []). }
  destruct (cmd =? 0xd9) eqn:Ed9.
  { apply bind_ok in E as (v & s1 & E1 & E). apply bind_ok in E1 as (b & s2 & E1 & E2).
    injection E2 as <- <-. injection E as <- <-. destruct rest as [|c rest]; simpl in E1; [done|].
    injection E1 as <- <-. apply skip_agrees. exists [c]. by apply (take_slice_app 1 [c]). }
  destruct ((cmd =? 0xda) || (cmd =? 0xdb) || (cmd =? 0xdc) || (cmd =? 0xdd)) eqn:Enav.
  { injection E as <- <-. rewrite (proj2 (Z.leb_le cmd 0xdd)).
    - apply skip_agrees. exists []. by apply (take_slice_app 0 []).
    - rewrite !orb_true_iff, !Z.eqb_eq in Enav. lia. }
  destruct (cmd =? 0xde) eqn:Ede.
  { injection E as <- <-. bool_hyps. subst cmd. done. }
  destruct (cmd =? 0xdf) eqn:Edf; [|done].
  (* the definition stream, which the raw parser refuses *)
  unfold read_node_def in E. apply bind_ok in E as (? & ? & _ & E). apply bind_ok in E as (? & ? & _ & E).
  destruct (_ <? _); [done|]. apply bind_ok in E as (? & ? & _ & E). apply bind_ok in E as (? & ? & _ & E).
  injection E as <- <-. bool_hyps. by subst cmd.
Qed.

Lemma parse_typed n w node rs rest out :
  (length w ≤ n)%nat →
  parse_responses (mk_stream w node) = rs ++ WingResponses.RequestEnd :: rest →
  Forall (λ r, r ≠ WingResponses.RequestEnd) rs →
  parse_from (mk_parse w (Some node) out)
  = if decide (Forall no_def rs) then Ok (out ++ concat (map value_pair rs)) else Err InvalidData.
Proof.
  revert w node rs out. induction n as [|n IH]; intros w node rs out Hn Hp Hre.
  { destruct w; [|simpl in Hn; lia]. by destruct rs. }
  destruct w as [|b w]; [by destruct rs|].
  rewrite parse_responses_eq, read_inner_eq, read_token_cons in Hp by done.
  pose proof (λ l r s', command_agrees l (u8 b) w node out r s') as Ha. rewrite parse_from_cons.
  destruct (read_command (u8 b) (mk_stream w node)) as [[r|e] s1] eqn:E; [|by destruct rs].
  specialize (Ha (b :: w) r s1 eq_refl).
  assert (length (stream s1) ≤ length w)%nat as Hlen.
  { assert (read_token (mk_stream (b :: w) node) = (Ok r, s1)) as Et by (by rewrite read_token_cons).
    apply read_token_less in Et as [_ Et]; [|done]. simpl in Et. lia. }
  assert (length (stream s1) ≤ n)%nat as Hlen' by (simpl in Hn; lia).
  destruct s1 as [w1 node1]. cbn [stream stream_node] in *.
  destruct r as [r|].
  - destruct rs as [|r' rs].
    + injection Hp as -> _. cbn [raw_agrees] in Ha. rewrite Ha, decide_True by done. by rewrite app_nil_r.
    + injection Hp as -> Hp. apply Forall_cons_iff in Hre as [? Hre].
      destruct r' as [|d|id d]; cbn [raw_agrees] in Ha; [done| |].
      * rewrite Ha, decide_False; [done|]. by intros [[] _]%Forall_cons_iff.
      * rewrite Ha, (IH w1 node1 rs) by done. cbn [map concat value_pair]. rewrite <- (assoc_L (++)).
        apply decide_ext. rewrite Forall_cons_iff. cbn [no_def]. tauto.
  - cbn [raw_agrees] in Ha. rewrite Ha. apply IH; [done| |done..]. by rewrite parse_responses_eq.
Qed.

(** ** Lemmas: verification *)

Section VerifyLemmas.
Context (defs_by_id : Z → option (list WingNodeDef)).

Abbreviation writable := (λ p : Z * NodeValue, id_is_read_only defs_by_id p.1 = false).
Abbreviation suspect := (λ current (p : Z * NodeValue), agrees defs_by_id current p.1 p.2 = false).

Lemma first_pass_eq current expected :
  first_pass defs_by_id current expected =
    (length (filter writable expected), length (filter (λ p, ¬ writable p) expected),
     filter (λ p, writable p ∧ suspect current p) expected).
Proof.
  unfold first_pass. pattern expected. apply rev_ind; [done|]. clear expected. intros p l IH.
  rewrite foldl_app, IH. cbn [foldl]. rewrite !list.filter_app, !length_app, !list.filter_cons, !list.filter_nil.
  destruct (id_is_read_only defs_by_id p.1) eqn:Er.
  - rewrite decide_False, decide_True, decide_False by naive_solver. simpl. rewrite app_nil_r.
    f_equal; f_equal; lia.
  - rewrite decide_True, decide_False by naive_solver. destruct (agrees defs_by_id current p.1 p.2) eqn:Ea.
    + rewrite decide_False by naive_solver. simpl. rewrite app_nil_r. f_equal; f_equal; lia.
    + rewrite decide_True by done. simpl. f_equal; f_equal; lia.
Qed.
End VerifyLemmas.

(** ** Properties *)

(** A buffer of values parses back to exactly the values that went into it, in order;
    the only values left out are strings the token format cannot hold, longer than 256
    bytes. *)
Theorem binary_values_roundtrip pairs :
  Forall pair_wf pairs →
  parse_binary_values (encode_binary_values pairs) =
    Ok (filter (λ p, value_encodable (to_native p.2)) pairs).
Proof.
  intros Hwf. unfold parse_binary_values, encode_binary_values. rewrite encode_pairs_eq. cbn [app].
  change (parse_values_loop (length ?d) (mk_parse ?d ?c ?o)) with (parse_from (mk_parse d c o)).
  apply (parse_encoded_pairs _ [] None).
  - apply list.Forall_forall. intros p [_ Hp]%list_elem_of_filter. rewrite list.Forall_forall in Hwf. auto.
  - apply list.Forall_forall. by intros p [Hp _]%list_elem_of_filter.
Qed.

(** C14: the raw parser and the typed reader understand the stream alike: on a capture that
    starts with a node selector and on which [read] would yield the responses [rs] and then
    the end marker, [parse_binary_values] yields the ids and values of [rs], in order, and
    stops at that marker whatever follows; but it knows no node definitions, and fails with
    [InvalidData] when there is one among [rs]. *)
Theorem raw_parser_matches_reader id w rs rest :
  in_i32 id →
  parse_responses (mk_stream w id) = rs ++ WingResponses.RequestEnd :: rest →
  Forall (λ r, r ≠ WingResponses.RequestEnd) rs →
  parse_binary_values ([b8 0xd7] ++ to_be 4 id ++ w)
  = if decide (Forall no_def rs) then Ok (concat (map value_pair rs)) else Err InvalidData.
Proof.
  intros Hid Hp Hre. unfold parse_binary_values.
  change (parse_values_loop (length ?d) (mk_parse ?d ?c ?o)) with (parse_from (mk_parse d c o)).
  rewrite parse_from_select by done. by apply (parse_typed (length w) w id rs rest []).
Qed.

(** A verification counts every entry of the buffer exactly once, as checked or as
    skipped because its node is read-only everywhere; it reports, in order, exactly the
    writable entries that disagree with a whole-desk capture, and after a settle pause only
    those that disagree with a second capture as well. *)
Theorem verify_binary_node_exact defs_by_id data timeout settle s report s' :
  verify_binary_node defs_by_id data timeout settle s = (Ok report, s') →
  ∃ expected current s1,
    parse_binary_values data = Ok expected ∧
    capture_value_map timeout s = (Ok current, s1) ∧
    checked report = length (filter (λ p, id_is_read_only defs_by_id p.1 = false) expected) ∧
    (checked report + skipped report)%nat = length expected ∧
    let suspects := filter (λ p, id_is_read_only defs_by_id p.1 = false
                               ∧ agrees defs_by_id current p.1 p.2 = false) expected in
    if decide (suspects ≠ [] ∧ settle = true) then
      ∃ recheck, capture_value_map timeout s1 = (Ok recheck, s') ∧
        mismatches report = map (mismatch_of recheck)
          (filter (λ p, agrees defs_by_id recheck p.1 p.2 = false) suspects)
    else s' = s1 ∧ mismatches report = map (mismatch_of current) suspects.
Proof.
  unfold verify_binary_node. intros E. apply bind_ok in E as (expected & s0 & E1 & E).
  destruct (parse_binary_values data) as [l|e]; [|done]. injection E1 as -> ->.
  apply bind_ok in E as (current & s1 & Ec & E). rewrite first_pass_eq in E.
  exists expected, current, s1. split; [done|]. split; [done|].
  set (suspects := filter (λ p, _ ∧ _) expected) in *.
  assert (∀ m o, (ret (mk_report (length (filter (λ p, id_is_read_only defs_by_id p.1 = false) expected))
      (length (filter (λ p, ¬ (id_is_read_only defs_by_id p.1 = false)) expected)) m) : Read _) o = (Ok report, s') →
      o = s' ∧ mismatches report = m ∧
      checked report = length (filter (λ p, id_is_read_only defs_by_id p.1 = false) expected) ∧
      (checked report + skipped report)%nat = length expected) as Hret.
  { intros m o [= <- <-]. split_and!; try done. simpl. rewrite <- length_app.
    apply Permutation_length, filter_app_complement. }
  destruct (bool_decide (suspects = [])) eqn:Es.
  - apply bool_decide_eq_true in Es. apply Hret in E as (-> & -> & Hc & Hl).
    split; [done|]. split; [done|]. cbv zeta. rewrite decide_False by naive_solver. by rewrite Es.
  - apply bool_decide_eq_false in Es. destruct settle; simpl in E.
    + apply bind_ok in E as (recheck & s2 & E2 & E). apply Hret in E as (-> & Hm & Hc & Hl).
      split; [done|]. split; [done|]. cbv zeta. rewrite decide_True by done. eauto.
    + apply Hret in E as (-> & Hm & Hc & Hl).
      split; [done|]. split; [done|]. cbv zeta. rewrite decide_False by naive_solver. done.
Qed.

(** *** Witnesses *)

Definition sample_pairs : list (Z * NodeValue) :=
  [(5, NodeValues.Int 40); (0xdf, NodeValues.String (str "on")); (-1, NodeValues.Float (F32 0x3f800000))].

Lemma sample_pairs_wf : Forall pair_wf sample_pairs.
Proof. unfold sample_pairs. each_elem; split; simpl; try done; width. Qed.

Lemma binary_values_roundtrip_witness :
  parse_binary_values (encode_binary_values sample_pairs) = Ok sample_pairs.
Proof. rewrite (binary_values_roundtrip sample_pairs sample_pairs_wf). vm_compute. reflexivity. Defined.

Lemma raw_parser_matches_reader_witness :
  parse_binary_values ([b8 0xd7] ++ to_be 4 9 ++ [b8 3] ++ sample_payload ++ [b8 0xff])
  = Ok [(9, NodeValues.Int 3); (0xdf, NodeValues.Int (-2)); (5, NodeValues.String (str "on"))].
Proof.
  rewrite (raw_parser_matches_reader 9 ([b8 3] ++ sample_payload ++ [b8 0xff])
    [WingResponses.NodeData 9 (with_i32 3); WingResponses.NodeData 0xdf (with_i32 (-2));
     WingResponses.NodeData 5 (with_string (str "on"))] []).
  - reflexivity.
  - width.
  - vm_compute. reflexivity.
  - each_elem; discriminate.
Defined.

(** The desk holds [5 = on] and [0xdf = -2]; the buffer wants [5 = off] and knows 9, read-only. *)
Definition sample_defs (id : Z) : option (list WingNodeDef) :=
  if id =? 9 then Some [sample_def] else None.

Definition sample_wanted : list byte :=
  encode_binary_values [(5, NodeValues.String (str "off")); (9, NodeValues.Int 1); (0xdf, NodeValues.Int (-2))].

Lemma verify_binary_node_exact_witness :
  ∃ report s', verify_binary_node sample_defs sample_wanted None false sample_session = (Ok report, s')
    ∧ checked report = 2%nat ∧ (checked report + skipped report)%nat = 3%nat.
Proof.
  destruct (verify_binary_node sample_defs sample_wanted None false sample_session) as [r s'] eqn:E.
  assert (r = Ok (mk_report 2 1 [mk_mismatch 5 (NodeValues.String (str "off"))
                                   (Some (NodeValues.String (str "on")))])) as ->
    by (apply (f_equal fst) in E; vm_compute in E; rewrite <- E; vm_compute; reflexivity).
  eexists _, s'. split; [reflexivity|].
  destruct (verify_binary_node_exact _ _ _ _ _ _ _ E) as (expected & current & s1 & Hp & _ & _ & Hl & _).
  split; [reflexivity|]. rewrite Hl. vm_compute in Hp. injection Hp as <-. reflexivity.
Defined.
