(* ===== verification/Writes.v ===== *)
(** Coalesced writes and restore ([src/src/console.rs], [write_node_values],
    [flush_node_writes], [set_nodes], [restore], [flush_restore_batch],
    [restore_order_key]): messages are batched into large writes, each item keeps its own
    outcome, and a restore applies model selectors first and stops at a failed one.

    What a flush meets when it takes the writer lock is the environment: [outcomes], one per
    flush that has something to write, and plain success once they are used up.  [batches]
    holds the batches that were written in full. *)

From stdpp Require Import sets sorting.
From S2P Require Import Prelude Sort Text Bytes Lib Utf8 F32 Channel NodeDef.
From S2P Require Import NodeData Meter NativeRequest NativeResponse ClientMessages ResponseReader ClientReader Attended.
From S2P Require Import BinaryValues.
Local Open Scope Z_scope.
Local Open Scope rust_scope.

(** ** Data *)

(** [WRITE_BATCH_BYTES]. *)
Definition WRITE_BATCH_BYTES : Z := 8 * 1024.

(** What a flush finds behind the writer lock. *)
Inductive FlushOutcome :=
| Written
| WriteFailed (kind : ErrorKind)
| Tainted
| SessionChanged.

Record Writer := mk_writer {
  writer_tainted : bool;
  outcomes : list FlushOutcome;
  batches : list (list byte);
}.

(** The locals of [write_node_values]. *)
Record Batch := mk_batch {
  buf : list byte;
  queued : list nat;
  results : list (Result unit);
}.

Record DumpEntry := mk_entry { fullname : list byte; entry_id : Z; value : NodeValue }.

(** ** Batched writes *)

(** [results[i] = e] for every queued item. *)
Definition fail_queued (b : Batch) (e : Error) : list (Result unit) :=
  foldl (λ rs i, <[i := Err e]> rs) (results b) (queued b).

Definition flush_node_writes (w : Writer) (b : Batch) : Writer * Batch :=
  if bool_decide (buf b = []) then (w, b)
  else
    let done_ rs := mk_batch [] [] rs in
    if writer_tainted w then (w, done_ (fail_queued b ConnectionError))
    else
      match outcomes w with
      | Tainted :: later => (mk_writer true later (batches w), done_ (fail_queued b ConnectionError))
      | SessionChanged :: later => (mk_writer false later (batches w), done_ (fail_queued b Reconnecting))
      | WriteFailed kind :: later => (mk_writer false later (batches w), done_ (fail_queued b (Io kind)))
      | Written :: later => (mk_writer false later (batches w ++ [buf b]), done_ (results b))
      | [] => (mk_writer false [] (batches w ++ [buf b]), done_ (results b))
      end.

(** One item: checked, encoded and queued, with a flush when the batch is large. *)
Definition write_item (w : Writer) (b : Batch) (item : Z * NodeValue) : Writer * Batch :=
  let i := length (results b) in
  let b' :=
    if writer_tainted w then mk_batch (buf b) (queued b) (results b ++ [Err ConnectionError])
    else
      match append_value_message (buf b) item.1 (to_native item.2) with
      | Ok buf' => mk_batch buf' (queued b ++ [i]) (results b ++ [Ok tt])
      | Err e => mk_batch (buf b) (queued b) (results b ++ [Err e])
      end in
  if WRITE_BATCH_BYTES <=? Z.of_nat (length (buf b')) then flush_node_writes w b' else (w, b').

Fixpoint write_items (w : Writer) (b : Batch) (items : list (Z * NodeValue)) : Writer * Batch :=
  match items with
  | [] => (w, b)
  | item :: items => let '(w, b) := write_item w b item in write_items w b items
  end.

Definition write_node_values (w : Writer) (items : list (Z * NodeValue)) : list (Result unit) * Writer :=
  let '(w, b) := write_items w (mk_batch [] [] []) items in
  let '(w, b) := flush_node_writes w b in
  (results b, w).

Definition set_nodes (w : Writer) (values : list (Z * NodeValue)) : list (Z * Result unit) * Writer :=
  let '(rs, w) := write_node_values w values in (zip (map fst values) rs, w).

(** ** Restore *)

(** [s.rsplit('/').next()]: what follows the last slash. *)
Fixpoint last_segment (s : list byte) : list byte :=
  match s with
  | [] => []
  | b :: rest =>
    if existsb (λ c, bool_decide (c = slash)) rest then last_segment rest
    else if bool_decide (b = slash) then rest else s
  end.

Definition is_selector (name : list byte) : bool := bytes_eqb (last_segment name) (str "mdl").

(** [fullname.matches('/').count()]. *)
Definition depth (name : list byte) : nat := length (filter (λ c, c = slash) name).

Definition restore_order_key (name : list byte) : bool * nat :=
  if is_selector name then (false, depth name) else (true, 0%nat).

(** The lexicographic order of the key, [false] before [true]. *)
Definition key_le (a b : bool * nat) : bool :=
  match a.1, b.1 with
  | false, true => true
  | true, false => false
  | _, _ => (a.2 <=? b.2)%nat
  end.

Definition entry_leb (a b : DumpEntry) : bool :=
  key_le (restore_order_key (fullname a)) (restore_order_key (fullname b)).

Definition sort_entries (l : list DumpEntry) : list DumpEntry := sort_by entry_leb l.

(** The locals of [restore]; a batch remembers each entry's slot in the results. *)
Record Restore := mk_restore {
  restore_results : list (list byte * Result unit);
  restore_batch : list (nat * DumpEntry);
  selector_failed : bool;
}.

(** [results[slot].1 = result]. *)
Definition put_result (rs : list (list byte * Result unit)) (p : nat * Result unit)
    : list (list byte * Result unit) :=
  match rs !! p.1 with Some (name, _) => <[p.1 := (name, p.2)]> rs | None => rs end.

Definition flush_restore_batch (w : Writer) (batch : list (nat * DumpEntry))
    (rs : list (list byte * Result unit)) : Writer * list (list byte * Result unit) :=
  let '(outcomes, w) := write_node_values w (map (λ p, (entry_id p.2, value p.2)) batch) in
  (w, foldl put_result rs (zip (map fst batch) outcomes)).

Section Restore.
Context (name_to_def : list byte → option WingNodeDef).

Definition known_read_only (name : list byte) : bool :=
  match name_to_def name with Some def => def_read_only def | None => false end.

Definition restore_entry (w : Writer) (r : Restore) (entry : DumpEntry) : Writer * Restore :=
  let slot := length (restore_results r) in
  if selector_failed r || known_read_only (fullname entry) then
    (w, mk_restore (restore_results r ++ [(fullname entry, Err InvalidInput)])
          (restore_batch r) (selector_failed r))
  else
    let rs := restore_results r ++ [(fullname entry, Ok tt)] in
    let batch := restore_batch r ++ [(slot, entry)] in
    if is_selector (fullname entry) then
      let '(w, rs) := flush_restore_batch w batch rs in
      (w, mk_restore rs [] (match rs !! slot with Some (_, Err _) => true | _ => false end))
    else (w, mk_restore rs batch (selector_failed r)).

Fixpoint restore_entries (w : Writer) (r : Restore) (entries : list DumpEntry) : Writer * Restore :=
  match entries with
  | [] => (w, r)
  | e :: entries => let '(w, r) := restore_entry w r e in restore_entries w r entries
  end.

Definition restore (w : Writer) (entries : list DumpEntry) : list (list byte * Result unit) * Writer :=
  let '(w, r) := restore_entries w (mk_restore [] [] false) (sort_entries entries) in
  let '(w, rs) := flush_restore_batch w (restore_batch r) (restore_results r) in
  (rs, w).
End Restore.

(** ** What was delivered *)

(** The message of an item that has one. *)
Definition message (item : Z * NodeValue) : list byte :=
  match set_value_message item.1 (to_native item.2) with Ok m => m | Err _ => [] end.

Definition has_message (item : Z * NodeValue) : Prop := value_encodable (to_native item.2).

(** The bytes of the items reported as written. *)
Fixpoint delivered (items : list (Z * NodeValue)) (rs : list (Result unit)) : list byte :=
  match items, rs with
  | item :: items, Ok _ :: rs => message item ++ delivered items rs
  | _ :: items, Err _ :: rs => delivered items rs
  | _, _ => []
  end.

(** An outcome an item can have: [InvalidInput] exactly when it has no message. *)
Definition outcome_fits (item : Z * NodeValue) (r : Result unit) : Prop :=
  match r with
  | Ok _ => has_message item
  | Err InvalidInput => ¬ has_message item
  | Err (ConnectionError | Reconnecting | Io _) => True
  | Err _ => False
  end.

Definition item_of (e : DumpEntry) : Z * NodeValue := (entry_id e, value e).

(** ** Lemmas: batches *)

(** The positions of the [Ok]s, counted from [n]. *)
Fixpoint ok_from (n : nat) (rs : list (Result unit)) : list nat :=
  match rs with
  | [] => []
  | Ok _ :: rs => n :: ok_from (S n) rs
  | Err _ :: rs => ok_from (S n) rs
  end.

Definition fail_ok (e : Error) (r : Result unit) : Result unit :=
  match r with Ok _ => Err e | Err e' => Err e' end.

Lemma fail_queued_eq e rs1 rs2 :
  foldl (λ rs i, <[i := Err e]> rs) (rs1 ++ rs2) (ok_from (length rs1) rs2) = rs1 ++ map (fail_ok e) rs2.
Proof.
  revert rs1. induction rs2 as [|r rs2 IH]; intros rs1; [by simpl; rewrite app_nil_r|].
  specialize (IH (rs1 ++ [fail_ok e r])). rewrite length_app, Nat.add_1_r, <- !(assoc_L (++)) in IH. simpl in IH.
  destruct r as [u|e']; simpl in *; [|done].
  rewrite insert_app_r_alt by lia. rewrite Nat.sub_diag. simpl. exact IH.
Qed.

Lemma delivered_app items1 items2 rs1 rs2 :
  length items1 = length rs1 →
  delivered (items1 ++ items2) (rs1 ++ rs2) = delivered items1 rs1 ++ delivered items2 rs2.
Proof.
  revert rs1. induction items1 as [|item items1 IH]; intros [|r rs1] Hl; try done.
  simpl. injection Hl as Hl. destruct r; [|by apply IH]. rewrite IH by done. by rewrite (assoc_L (++)).
Qed.

Lemma delivered_failed e items rs : delivered items (map (fail_ok e) rs) = [].
Proof. revert rs. induction items as [|item items IH]; intros [|[] rs]; simpl; done || apply IH. Qed.

Lemma ok_from_app n rs1 rs2 : ok_from n (rs1 ++ rs2) = ok_from n rs1 ++ ok_from (n + length rs1) rs2.
Proof.
  revert n. induction rs1 as [|r rs1 IH]; intros n; simpl; [by rewrite Nat.add_0_r|].
  rewrite IH. replace (S n + length rs1)%nat with (n + S (length rs1))%nat by lia. by destruct r.
Qed.

Lemma append_message buf item :
  append_value_message buf item.1 (to_native item.2) =
    if decide (has_message item) then Ok (buf ++ message item) else Err InvalidInput.
Proof.
  unfold message, set_value_message, has_message. rewrite !append_value_message_eq.
  by case_decide.
Qed.

Lemma message_nonempty item : has_message item → message item ≠ [].
Proof.
  intros Hm. unfold message, set_value_message. rewrite append_value_message_eq, decide_True by done.
  cbn [app]. unfold tokens_bytes. cbn [map concat token_bytes]. rewrite escape_app. by unfold escape.
Qed.

(** The state of the loop after the items [todo] that were taken: those of [d1] are settled,
    those of [d2] wait in the buffer unless they failed to encode. *)
Record batch_inv (base : list byte) (w : Writer) (b : Batch)
    (d1 d2 : list (Z * NodeValue)) (r1 r2 : list (Result unit)) : Prop := {
  inv_results : results b = r1 ++ r2;
  inv_queued : queued b = ok_from (length r1) r2;
  inv_buf : buf b = delivered d2 r2;
  inv_sent : concat (batches w) = base ++ delivered d1 r1;
  inv_len1 : length d1 = length r1;
  inv_len2 : length d2 = length r2;
  inv_fits1 : Forall2 outcome_fits d1 r1;
  inv_fits2 : Forall2 outcome_fits d2 r2;
}.

Lemma fits_failed e d rs :
  (e = ConnectionError ∨ e = Reconnecting ∨ ∃ kind, e = Io kind) →
  Forall2 outcome_fits d rs → Forall2 outcome_fits d (map (fail_ok e) rs).
Proof.
  intros He. induction 1 as [|item r d rs Hr _ IH]; simpl; [constructor|]. constructor; [|done].
  destruct r; simpl; [|done]. by destruct He as [-> |[-> |[? ->]]].
Qed.

Lemma no_bytes_no_ok d r n : Forall2 outcome_fits d r → delivered d r = [] → ok_from n r = [].
Proof.
  intros H. revert n. induction H as [|item r d rs Hr _ IH]; intros n Hd; [done|]. simpl in *.
  destruct r; [|by apply IH]. apply app_eq_nil in Hd as [Hm _]. by apply message_nonempty in Hm.
Qed.

Lemma flush_inv base w b d1 d2 r1 r2 w' b' :
  batch_inv base w b d1 d2 r1 r2 → flush_node_writes w b = (w', b') →
  ∃ r2', batch_inv base w' b' (d1 ++ d2) [] (r1 ++ r2') []
    ∧ (Forall (λ o, o = Written) (outcomes w) → writer_tainted w = false →
       r2' = r2 ∧ Forall (λ o, o = Written) (outcomes w') ∧ writer_tainted w' = false).
Proof.
  intros [] E. unfold flush_node_writes in E.
  assert (∀ e wt os, (e = ConnectionError ∨ e = Reconnecting ∨ ∃ kind, e = Io kind) →
    batch_inv base (mk_writer wt os (batches w)) (mk_batch [] [] (fail_queued b e))
      (d1 ++ d2) [] (r1 ++ map (fail_ok e) r2) []) as Hfail.
  { intros e wt os He. split; simpl; try done.
    - unfold fail_queued. rewrite inv_results0, inv_queued0, fail_queued_eq. by rewrite app_nil_r.
    - rewrite delivered_app, delivered_failed by done. by rewrite app_nil_r.
    - rewrite !length_app, length_map. congruence.
    - apply Forall2_app; [done|]. by apply fits_failed. }
  assert (∀ os, batch_inv base (mk_writer false os (batches w ++ [buf b])) (mk_batch [] [] (results b))
      (d1 ++ d2) [] (r1 ++ r2) []) as Hok.
  { intros os. split; simpl; try done.
    - by rewrite app_nil_r.
    - rewrite concat_app, inv_sent0, delivered_app by done. simpl.
      by rewrite app_nil_r, inv_buf0, (assoc_L (++)).
    - rewrite !length_app. congruence.
    - by apply Forall2_app. }
  destruct (bool_decide (buf b = [])) eqn:Eb.
  { apply bool_decide_eq_true in Eb. injection E as <- <-. exists r2. split; [|done].
    rewrite inv_buf0 in Eb. split; simpl; try done.
    - by rewrite app_nil_r.
    - rewrite inv_queued0. by apply (no_bytes_no_ok d2).
    - by rewrite inv_buf0.
    - rewrite delivered_app, Eb by done. by rewrite app_nil_r.
    - rewrite !length_app. congruence.
    - by apply Forall2_app. }
  destruct (writer_tainted w) eqn:Et.
  { injection E as <- <-. eexists. split; [|done].
    destruct w as [wt os bs]; simpl in *. subst. apply Hfail. auto. }
  destruct (outcomes w) as [|[|kind| |] os] eqn:Eo; injection E as <- <-.
  - exists r2. split; [apply Hok|done].
  - exists r2. split; [apply Hok|]. intros [_ Hos]%Forall_cons_iff _. done.
  - eexists. split; [apply Hfail; eauto|]. by intros [? _]%Forall_cons_iff.
  - eexists. split; [apply Hfail; eauto|]. by intros [? _]%Forall_cons_iff.
  - eexists. split; [apply Hfail; eauto|]. by intros [? _]%Forall_cons_iff.
Qed.

(** Nothing goes wrong behind the writer lock. *)
Definition writer_clean (w : Writer) : Prop :=
  writer_tainted w = false ∧ Forall (λ o, o = Written) (outcomes w).

Definition exact_outcome (item : Z * NodeValue) : Result unit :=
  if decide (has_message item) then Ok tt else Err InvalidInput.

Definition exact (items : list (Z * NodeValue)) (rs : list (Result unit)) : Prop := rs = map exact_outcome items.

Lemma write_item_inv base w b item d1 d2 r1 r2 w' b' :
  batch_inv base w b d1 d2 r1 r2 → write_item w b item = (w', b') →
  ∃ d1' d2' r1' r2', d1' ++ d2' = (d1 ++ d2) ++ [item] ∧ batch_inv base w' b' d1' d2' r1' r2'
    ∧ (writer_clean w → exact (d1 ++ d2) (r1 ++ r2) →
       writer_clean w' ∧ exact (d1' ++ d2') (r1' ++ r2')).
Proof.
  intros Hi E. unfold write_item in E. rewrite append_message in E.
  set (b1 := if writer_tainted w then _ else _) in E.
  assert (∃ r, batch_inv base w b1 d1 (d2 ++ [item]) r1 (r2 ++ [r])
    ∧ (writer_clean w → r = exact_outcome item)) as (r & Hb1 & Hex).
  { subst b1. destruct Hi.
    assert (∀ e, outcome_fits item (Err e) → batch_inv base w
      (mk_batch (buf b) (queued b) (results b ++ [Err e])) d1 (d2 ++ [item]) r1 (r2 ++ [Err e])) as Herr.
    { intros e He. split; simpl; try done.
      - by rewrite inv_results0, <- (assoc_L (++)).
      - rewrite inv_queued0, ok_from_app. simpl. by rewrite app_nil_r.
      - rewrite inv_buf0, delivered_app by done. simpl. by rewrite app_nil_r.
      - rewrite !length_app. simpl. lia.
      - apply Forall2_app; [done|]. by constructor. }
    destruct (writer_tainted w) eqn:Et.
    { eexists. split; [by apply Herr|]. intros [? _]. congruence. }
    case_decide as Hm.
    - exists (Ok tt). split; [|intros _; unfold exact_outcome; by rewrite decide_True].
      split; simpl; try done.
      + by rewrite inv_results0, <- (assoc_L (++)).
      + rewrite inv_queued0, ok_from_app, inv_results0, length_app. done.
      + rewrite inv_buf0, delivered_app by done. simpl. by rewrite app_nil_r.
      + rewrite !length_app. simpl. lia.
      + apply Forall2_app; [done|]. by constructor.
    - exists (Err InvalidInput). split; [by apply Herr|]. intros _. unfold exact_outcome. by rewrite decide_False. }
  assert (exact (d1 ++ d2) (r1 ++ r2) → writer_clean w → exact (d1 ++ d2 ++ [item]) (r1 ++ r2 ++ [r])) as Hexact.
  { unfold exact. intros H Hw. rewrite (assoc_L (++) r1), H, (Hex Hw), !map_app.
    by rewrite <- (assoc_L (++)). }
  destruct (_ <=? _).
  - destruct (flush_inv _ _ _ _ _ _ _ _ _ Hb1 E) as (r2' & Hf & Hc).
    exists (d1 ++ d2 ++ [item]), [], (r1 ++ r2'), []. rewrite !app_nil_r.
    split; [by rewrite (assoc_L (++))|]. split; [done|]. intros [Hw1 Hw2] Hx.
    destruct (Hc Hw2 Hw1) as (-> & ? & ?). split; [done|]. by apply Hexact.
  - injection E as <- <-. exists d1, (d2 ++ [item]), r1, (r2 ++ [r]).
    split; [by rewrite (assoc_L (++))|]. split; [done|]. intros Hw Hx. split; [done|]. by apply Hexact.
Qed.

Lemma write_items_inv base items w b d1 d2 r1 r2 w' b' :
  batch_inv base w b d1 d2 r1 r2 → write_items w b items = (w', b') →
  ∃ d1' d2' r1' r2', d1' ++ d2' = (d1 ++ d2) ++ items ∧ batch_inv base w' b' d1' d2' r1' r2'
    ∧ (writer_clean w → exact (d1 ++ d2) (r1 ++ r2) →
       writer_clean w' ∧ exact (d1' ++ d2') (r1' ++ r2')).
Proof.
  revert w b d1 d2 r1 r2. induction items as [|item items IH]; intros w b d1 d2 r1 r2 Hi E.
  { injection E as <- <-. exists d1, d2, r1, r2. by rewrite app_nil_r. }
  cbn [write_items] in E. destruct (write_item w b item) as [w1 b1] eqn:E1.
  destruct (write_item_inv _ _ _ _ _ _ _ _ _ _ Hi E1) as (d1' & d2' & r1' & r2' & Hd & Hi1 & Hc1).
  destruct (IH _ _ _ _ _ _ Hi1 E) as (e1 & e2 & s1 & s2 & He & Hi2 & Hc2).
  exists e1, e2, s1, s2. split; [rewrite He, Hd, <- (assoc_L (++)); done|]. split; [done|].
  intros Hw Hx. destruct (Hc1 Hw Hx). by apply Hc2.
Qed.

Lemma write_node_values_ok items w rs w' :
  write_node_values w items = (rs, w') →
  length rs = length items ∧ Forall2 outcome_fits items rs ∧
  concat (batches w') = concat (batches w) ++ delivered items rs ∧
  (writer_clean w → writer_clean w' ∧ rs = map exact_outcome items).
Proof.
  intros E. unfold write_node_values in E.
  destruct (write_items w (mk_batch [] [] []) items) as [w1 b1] eqn:E1.
  destruct (flush_node_writes w1 b1) as [w2 b2] eqn:E2. injection E as <- <-.
  assert (batch_inv (concat (batches w)) w (mk_batch [] [] []) [] [] [] []) as Hi.
  { split; simpl; try done. by rewrite app_nil_r. }
  destruct (write_items_inv _ _ _ _ _ _ _ _ _ _ Hi E1) as (d1 & d2 & r1 & r2 & Hd & Hi1 & Hc1).
  simpl in Hd. destruct (flush_inv _ _ _ _ _ _ _ _ _ Hi1 E2) as (r2' & [] & Hc2).
  rewrite app_nil_r in inv_results0. rewrite inv_results0. rewrite Hd in *.
  split_and!; [done..|]. intros Hw. destruct (Hc1 Hw eq_refl) as [[Ht Hos] Hx].
  destruct (Hc2 Hos Ht) as (-> & ? & ?). done.
Qed.

(** ** Lemmas: putting a batch's outcomes back *)

(** The outcomes [os] in place of the [Ok]s of [rs], in order. *)
Fixpoint fill (rs os : list (Result unit)) : list (Result unit) :=
  match rs, os with
  | Ok _ :: rs, o :: os => o :: fill rs os
  | Err e :: rs, os => Err e :: fill rs os
  | rs, [] => rs
  | [], _ => []
  end.

(** The entries whose outcome is [Ok]. *)
Fixpoint ok_items {A} (l : list A) (rs : list (Result unit)) : list A :=
  match l, rs with
  | a :: l, Ok _ :: rs => a :: ok_items l rs
  | _ :: l, Err _ :: rs => ok_items l rs
  | _, _ => []
  end.

Lemma fill_length rs os : length (fill rs os) = length rs.
Proof. revert os. induction rs as [|[] rs IH]; intros [|o os]; simpl; auto. Qed.

Lemma put_results p1 p2 os :
  foldl put_result (p1 ++ p2) (zip (ok_from (length p1) (map snd p2)) os)
  = p1 ++ zip (map fst p2) (fill (map snd p2) os).
Proof.
  revert p1 os. induction p2 as [|[name r] p2 IH]; intros p1 os; [by destruct os|].
  assert (∀ r' os, foldl put_result (p1 ++ (name, r') :: p2) (zip (ok_from (S (length p1)) (map snd p2)) os)
    = p1 ++ (name, r') :: zip (map fst p2) (fill (map snd p2) os)) as Hnext.
  { intros r' os'. specialize (IH (p1 ++ [(name, r')]) os').
    by rewrite length_app, Nat.add_1_r, <- !(assoc_L (++)) in IH. }
  destruct r as [[]|e]; simpl.
  - destruct os as [|o os]; simpl.
    + by rewrite zip_fst_snd.
    + rewrite <- (Hnext o os). f_equal. unfold put_result. simpl.
      rewrite list_lookup_middle by done. rewrite insert_app_r_alt, Nat.sub_diag by lia. done.
  - rewrite Hnext. by destruct os.
Qed.

Lemma delivered_fill {A} (f : A → Z * NodeValue) l rs os :
  length l = length rs → length os = length (ok_items l rs) →
  delivered (map f l) (fill rs os) = delivered (map f (ok_items l rs)) os.
Proof.
  revert rs os. induction l as [|a l IH]; intros [|[] rs] os Hl Ho; try done; simpl in *.
  - destruct os as [|o os]; [done|]. injection Hl as Hl. injection Ho as Ho. simpl. by rewrite IH.
  - injection Hl as Hl. by destruct os; apply IH.
Qed.

Lemma ok_positions_length {A} n (l : list A) rs :
  length l = length rs → length (ok_from n rs) = length (ok_items l rs).
Proof.
  revert n rs. induction l as [|a l IH]; intros n [|[] rs] Hl; try done; simpl in *; injection Hl as Hl; auto.
Qed.

Lemma ok_items_app {A} (l1 l2 : list A) rs1 rs2 :
  length l1 = length rs1 → ok_items (l1 ++ l2) (rs1 ++ rs2) = ok_items l1 rs1 ++ ok_items l2 rs2.
Proof.
  revert rs1. induction l1 as [|a l1 IH]; intros [|[] rs1] Hl; try done; simpl in *; injection Hl as Hl;
    by rewrite IH.
Qed.

(** ** Lemmas: restore *)

Section RestoreLemmas.
Context (name_to_def : list byte → option WingNodeDef).

Abbreviation read_only := (λ e, known_read_only name_to_def (fullname e)).

(** A selector that a restore does apply. *)
Definition live_selector (e : DumpEntry) : Prop :=
  is_selector (fullname e) = true ∧ read_only e = false.

Definition refused (r : Result unit) : Prop := r = Err InvalidInput.

(** Behind a failed selector everything is refused. *)
Definition stops_at_failure (d : list DumpEntry) (rs : list (Result unit)) : Prop :=
  ∀ i j e x r, d !! i = Some e → live_selector e → rs !! i = Some (Err x) → (i < j)%nat →
    rs !! j = Some r → refused r.

(** The state of [restore] after the entries [d1 ++ d2]: those of [d1] are settled. *)
Record restore_inv (base : list byte) (w : Writer) (st : Restore)
    (d1 d2 : list DumpEntry) (p1 p2 : list (list byte * Result unit)) : Prop := {
  rinv_results : restore_results st = p1 ++ p2;
  rinv_names1 : map fst p1 = map fullname d1;
  rinv_names2 : map fst p2 = map fullname d2;
  rinv_batch : restore_batch st = zip (ok_from (length p1) (map snd p2)) (ok_items d2 (map snd p2));
  rinv_sent : concat (batches w) = base ++ delivered (map item_of d1) (map snd p1);
  rinv_read_only : Forall2 (λ e r, read_only e = true → refused r) (d1 ++ d2) (map snd (p1 ++ p2));
  rinv_stop :
    if selector_failed st then ok_items d2 (map snd p2) = [] ∧ stops_at_failure (d1 ++ d2) (map snd (p1 ++ p2))
    else Forall2 (λ e r, live_selector e → r = Ok tt) d1 (map snd p1) ∧ Forall (λ e, ¬ live_selector e) d2;
}.

Lemma stops_snoc d rs e r :
  length d = length rs → stops_at_failure d rs → refused r → stops_at_failure (d ++ [e]) (rs ++ [r]).
Proof.
  intros Hl Hs Hr i j e' x r' Hd Hlive Hi Hij Hj.
  destruct (decide (j < length rs)%nat) as [Hlt|Hge].
  - rewrite lookup_app_l in Hd by lia. rewrite lookup_app_l in Hi by lia.
    rewrite lookup_app_l in Hj by done. by eapply Hs.
  - rewrite lookup_app_r in Hj by lia. apply list_lookup_singleton_Some in Hj as [_ <-]. done.
Qed.

(** Where every settled selector succeeded and none waits, none failed. *)
Lemma no_live_failure d1 d2 (rs1 rs2 : list (Result unit)) i e x :
  Forall2 (λ e r, live_selector e → r = Ok tt) d1 rs1 → Forall (λ e, ¬ live_selector e) d2 →
  (d1 ++ d2) !! i = Some e → live_selector e → (rs1 ++ rs2) !! i = Some (Err x) → False.
Proof.
  intros H1 H2 Hd Hlive Hi. pose proof (list.Forall2_length _ _ _ H1) as Hl.
  destruct (decide (i < length d1)%nat) as [Hlt|Hge].
  - rewrite lookup_app_l in Hd by done. rewrite lookup_app_l in Hi by lia.
    pose proof (Forall2_lookup_lr _ _ _ _ _ _ H1 Hd Hi Hlive). done.
  - rewrite lookup_app_r in Hd by lia. rewrite list.Forall_lookup in H2. by destruct (H2 _ _ Hd).
Qed.

(** What a flush makes of the waiting part. *)
Lemma flush_restore_ok base w d1 d2 p1 p2 w' rs :
  map fst p2 = map fullname d2 → length p1 = length d1 →
  concat (batches w) = base ++ delivered (map item_of d1) (map snd p1) →
  flush_restore_batch w (zip (ok_from (length p1) (map snd p2)) (ok_items d2 (map snd p2))) (p1 ++ p2) = (w', rs) →
  ∃ os, rs = p1 ++ zip (map fst p2) (fill (map snd p2) os) ∧
    concat (batches w') = base ++ delivered (map item_of (d1 ++ d2)) (map snd rs).
Proof.
  intros Hn2 Hl1 Hsent E. unfold flush_restore_batch in E.
  assert (length d2 = length (map snd p2)) as Hl2.
  { rewrite length_map. apply (f_equal length) in Hn2. by rewrite !length_map in Hn2. }
  pose proof (ok_positions_length (length p1) d2 (map snd p2) Hl2) as Hlen.
  assert (∀ (a : list nat) (b : list DumpEntry), length a = length b →
    map (λ p, (entry_id p.2, value p.2)) (zip a b) = map item_of b ∧ map fst (zip a b) = a) as Hzip.
  { intros a. induction a as [|x a IH]; intros [|y b] Hab; try done. injection Hab as Hab.
    destruct (IH b Hab) as [Hx Hy]. simpl. by rewrite Hx, Hy. }
  destruct (Hzip _ _ Hlen) as [Hitems Hslots]. rewrite Hitems in E.
  destruct (write_node_values w (map item_of (ok_items d2 (map snd p2)))) as [os w1] eqn:Ew.
  apply write_node_values_ok in Ew as (Hos & _ & Hb & _). injection E as <- <-.
  rewrite Hslots, put_results. exists os. split; [done|].
  rewrite Hb, Hsent, map_app, map_app, delivered_app by (by rewrite !length_map).
  rewrite <- (assoc_L (++)). do 2 f_equal.
  assert (map snd (zip (map fst p2) (fill (map snd p2) os)) = fill (map snd p2) os) as ->.
  { apply snd_zip. rewrite fill_length, !length_map. done. }
  symmetry. apply delivered_fill; [done|]. by rewrite Hos, length_map.
Qed.

Lemma fill_keeps (P : DumpEntry → Prop) d rs os :
  Forall2 (λ e r, P e → refused r) d rs → Forall2 (λ e r, P e → refused r) d (fill rs os).
Proof.
  intros H. revert os. induction H as [|e r d rs Hr H IH]; intros os; [by destruct os|].
  destruct r as [[]|x]; simpl.
  - destruct os as [|o os]; constructor; auto. intros HP. by specialize (Hr HP).
  - constructor; auto.
Qed.

(** The flush a selector triggers decides whether the restore goes on. *)
Lemma selector_stop d1 d2 e rs1 rs2 r :
  Forall2 (λ e r, live_selector e → r = Ok tt) d1 rs1 → Forall (λ e, ¬ live_selector e) d2 →
  length d2 = length rs2 →
  if (match r with Err _ => true | Ok _ => false end : bool)
  then ok_items (@nil DumpEntry) [] = [] ∧ stops_at_failure ((d1 ++ d2) ++ [e]) (rs1 ++ rs2 ++ [r])
  else Forall2 (λ e r, live_selector e → r = Ok tt) ((d1 ++ d2) ++ [e]) (rs1 ++ rs2 ++ [r])
       ∧ Forall (λ e, ¬ live_selector e) [].
Proof.
  intros H1 H2 Hl. pose proof (list.Forall2_length _ _ _ H1) as Hl1. destruct r as [[]|x].
  - split; [|constructor]. rewrite <- (assoc_L (++)). apply Forall2_app; [done|]. apply Forall2_app.
    + apply list.Forall2_same_length_lookup_2; [done|]. intros i e' r' He _ Hlive.
      rewrite list.Forall_lookup in H2. by destruct (H2 _ _ He).
    + by repeat constructor.
  - split; [done|]. rewrite (assoc_L (++)). intros i j e' y r' Hd Hlive Hi Hij Hj.
    pose proof (lookup_lt_Some _ _ _ Hj) as Hlt. rewrite !length_app in Hlt. simpl in Hlt. exfalso.
    rewrite lookup_app_l in Hd by (rewrite length_app; lia).
    rewrite lookup_app_l in Hi by (rewrite length_app; lia).
    exact (no_live_failure _ _ _ _ _ _ _ H1 H2 Hd Hlive Hi).
Qed.

(** The results after the flush that a selector triggers. *)
Lemma selector_flush_shape p1 p2 (name : list byte) os :
  let p := p2 ++ [(name, Ok tt)] in
  let rs := p1 ++ zip (map fst p) (fill (map snd p) os) in
  ∃ F r, fill (map snd p) os = F ++ [r] ∧ length F = length p2 ∧
    map snd rs = map snd p1 ++ F ++ [r] ∧ map fst rs = map fst p1 ++ map fst p ∧
    rs !! length (p1 ++ p2) = Some (name, r).
Proof.
  intros p rs. assert (length (fill (map snd p) os) = S (length p2)) as HF.
  { rewrite fill_length, length_map. unfold p. rewrite length_app. simpl. lia. }
  destruct (exists_last (l := fill (map snd p) os)) as (F & r & HFr); [by destruct (fill _ _)|].
  exists F, r. rewrite HFr, length_app in HF. simpl in HF.
  assert (length F = length p2) as Hl by lia. unfold rs. rewrite HFr.
  assert (length (map fst p) = length (F ++ [r])) as Hpl
    by (unfold p; rewrite length_map, !length_app; simpl; lia).
  split_and!; [done|done| | |].
  - rewrite map_app. by rewrite snd_zip by lia.
  - rewrite map_app. by rewrite fst_zip by lia.
  - rewrite lookup_app_r by (rewrite length_app; lia).
    replace (length (p1 ++ p2) - length p1)%nat with (length p2) by (rewrite length_app; lia).
    unfold p. rewrite map_app, zip_with_app by by rewrite length_map.
    rewrite lookup_app_r by (rewrite length_zip_with, length_map; lia).
    by rewrite length_zip_with, length_map, Hl, Nat.min_id, Nat.sub_diag.
Qed.

(** An entry that is refused. *)
Lemma restore_blocked_inv base w st e d1 d2 p1 p2 :
  restore_inv base w st d1 d2 p1 p2 → selector_failed st || known_read_only name_to_def (fullname e) = true →
  restore_inv base w
    (mk_restore (restore_results st ++ [(fullname e, Err InvalidInput)]) (restore_batch st) (selector_failed st))
    d1 (d2 ++ [e]) p1 (p2 ++ [(fullname e, Err InvalidInput)]).
Proof.
  intros [Hres Hn1 Hn2 Hba Hse Hro Hst] Eb.
  assert (length d1 = length p1) as Hl1 by (apply (f_equal length) in Hn1; by rewrite !length_map in Hn1).
  assert (length d2 = length p2) as Hl2 by (apply (f_equal length) in Hn2; by rewrite !length_map in Hn2).
  assert (length d2 = length (map snd p2)) as Hl2' by by rewrite length_map.
  split; simpl.
  - by rewrite Hres, <- (assoc_L (++)).
  - done.
  - by rewrite !map_app, Hn2.
  - rewrite map_app, ok_from_app, ok_items_app by done. simpl. by rewrite !app_nil_r.
  - done.
  - rewrite !(assoc_L (++)), map_app. apply Forall2_app; [done|]. by constructor.
  - destruct (selector_failed st).
    + destruct Hst as [Hok Hst]. rewrite map_app, ok_items_app, Hok by done. split; [done|].
      rewrite !(assoc_L (++)), map_app. apply stops_snoc; [|done|done].
      rewrite length_map, !length_app. lia.
    + destruct Hst as [Hst1 Hst2]. split; [done|]. apply Forall_app. split; [done|].
      apply Forall_singleton. simpl in Eb. by intros [_ ?]; congruence.
Qed.

Lemma restore_entry_inv base w st e d1 d2 p1 p2 w' st' :
  restore_inv base w st d1 d2 p1 p2 → restore_entry name_to_def w st e = (w', st') →
  ∃ d1' d2' p1' p2', d1' ++ d2' = (d1 ++ d2) ++ [e] ∧ restore_inv base w' st' d1' d2' p1' p2'.
Proof.
  intros Hinv E. pose proof Hinv as [Hres Hn1 Hn2 Hba Hse Hro Hst]. unfold restore_entry in E.
  assert (length d1 = length p1) as Hl1 by (apply (f_equal length) in Hn1; by rewrite !length_map in Hn1).
  assert (length d2 = length p2) as Hl2 by (apply (f_equal length) in Hn2; by rewrite !length_map in Hn2).
  assert (length d2 = length (map snd p2)) as Hl2' by by rewrite length_map.
  destruct (selector_failed st || known_read_only name_to_def (fullname e)) eqn:Eb.
  { injection E as <- <-. exists d1, (d2 ++ [e]), p1, (p2 ++ [(fullname e, Err InvalidInput)]).
    split; [by rewrite (assoc_L (++))|by apply restore_blocked_inv]. }
  apply orb_false_iff in Eb as [Ef Er]. rewrite Ef in Hst. destruct Hst as [Hst1 Hst2].
  rewrite Hres, Hba in E.
  assert (zip (ok_from (length p1) (map snd p2)) (ok_items d2 (map snd p2)) ++ [(length (p1 ++ p2), e)]
    = zip (ok_from (length p1) (map snd (p2 ++ [(fullname e, Ok tt)])))
          (ok_items (d2 ++ [e]) (map snd (p2 ++ [(fullname e, Ok tt)])))) as Hb.
  { rewrite map_app, ok_from_app, ok_items_app by done. rewrite zip_with_app by by apply ok_positions_length.
    simpl. by rewrite length_app, length_map. }
  rewrite Hb, <- (assoc_L (++)) in E.
  assert (map fst (p2 ++ [(fullname e, Ok tt)]) = map fullname (d2 ++ [e])) as Hn2' by by rewrite !map_app, Hn2.
  assert (Forall2 (λ e r, read_only e = true → refused r) ((d1 ++ d2) ++ [e])
    (map snd (p1 ++ p2) ++ [Ok tt])) as Hro'.
  { apply Forall2_app; [done|]. constructor; [by rewrite Er|done]. }
  destruct (is_selector (fullname e)) eqn:Es.
  - destruct (flush_restore_batch w _ _) as [w1 rs] eqn:Ew.
    eapply (flush_restore_ok base) in Ew as (os & Hrs & Hsent); [|done|done|done].
    injection E as <- <-. exists ((d1 ++ d2) ++ [e]), [], rs, [].
    split; [by rewrite app_nil_r|].
    destruct (selector_flush_shape p1 p2 (fullname e) os) as (F & r & HFr & HF & Hsnd & Hfst & Hslot).
    rewrite <- Hrs in Hsnd, Hfst, Hslot. split; simpl.
    + by rewrite app_nil_r.
    + rewrite Hfst, Hn1, Hn2', <- map_app. by rewrite (assoc_L (++)).
    + done.
    + done.
    + rewrite (assoc_L (++)) in Hsent. exact Hsent.
    + rewrite !app_nil_r, Hsnd, <- (assoc_L (++)), <- HFr, map_app.
      rewrite map_app, <- !(assoc_L (++)) in Hro'.
      apply Forall2_app_inv in Hro' as [Hro1 Hro2]; [|by rewrite length_map].
      apply Forall2_app; [done|]. by apply fill_keeps.
    + rewrite Hslot, !app_nil_r, Hsnd. apply (selector_stop d1 d2 e (map snd p1) F r); try done. lia.
  - injection E as <- <-. exists d1, (d2 ++ [e]), p1, (p2 ++ [(fullname e, Ok tt)]).
    split; [by rewrite (assoc_L (++))|]. split; simpl; try done.
    + rewrite !(assoc_L (++)), map_app. exact Hro'.
    + rewrite Ef. split; [done|]. apply Forall_app. split; [done|]. apply Forall_singleton.
      intros [? _]. congruence.
Qed.

Lemma restore_entries_inv base entries w st d1 d2 p1 p2 w' st' :
  restore_inv base w st d1 d2 p1 p2 → restore_entries name_to_def w st entries = (w', st') →
  ∃ d1' d2' p1' p2', d1' ++ d2' = (d1 ++ d2) ++ entries ∧ restore_inv base w' st' d1' d2' p1' p2'.
Proof.
  revert w st d1 d2 p1 p2. induction entries as [|e entries IH]; intros w st d1 d2 p1 p2 Hi E.
  { injection E as <- <-. exists d1, d2, p1, p2. by rewrite app_nil_r. }
  cbn [restore_entries] in E. destruct (restore_entry name_to_def w st e) as [w1 st1] eqn:E1.
  destruct (restore_entry_inv _ _ _ _ _ _ _ _ _ _ Hi E1) as (a1 & a2 & q1 & q2 & Ha & Hi1).
  destruct (IH _ _ _ _ _ _ Hi1 E) as (c1 & c2 & s1 & s2 & Hc & Hi2).
  exists c1, c2, s1, s2. split; [|done]. rewrite Hc, Ha, <- (assoc_L (++)). done.
Qed.

Lemma fill_no_ok {A} (l : list A) rs os : length l = length rs → ok_items l rs = [] → fill rs os = rs.
Proof.
  revert rs. induction l as [|a l IH]; intros [|[] rs] Hl Ho; try done; [by destruct os|].
  simpl in *. injection Hl as Hl. by destruct os; rewrite IH.
Qed.

Lemma restore_ok w entries rs w' :
  restore name_to_def w entries = (rs, w') →
  let sorted := sort_entries entries in
  map fst rs = map fullname sorted ∧
  concat (batches w') = concat (batches w) ++ delivered (map item_of sorted) (map snd rs) ∧
  Forall2 (λ e r, read_only e = true → refused r) sorted (map snd rs) ∧
  stops_at_failure sorted (map snd rs).
Proof.
  intros E sorted. unfold restore in E. fold sorted in E.
  destruct (restore_entries name_to_def w (mk_restore [] [] false) sorted) as [w1 st] eqn:E1.
  destruct (flush_restore_batch w1 (restore_batch st) (restore_results st)) as [w2 rs2] eqn:E2.
  injection E as <- <-.
  assert (restore_inv (concat (batches w)) w (mk_restore [] [] false) [] [] [] []) as Hi.
  { split; simpl; try done. by rewrite app_nil_r. }
  destruct (restore_entries_inv _ _ _ _ _ _ _ _ _ _ Hi E1) as (d1 & d2 & p1 & p2 & Hd & []).
  simpl in Hd. rewrite rinv_results0, rinv_batch0 in E2.
  assert (length d1 = length p1) as Hl1 by (apply (f_equal length) in rinv_names3; by rewrite !length_map in rinv_names3).
  assert (length d2 = length p2) as Hl2 by (apply (f_equal length) in rinv_names4; by rewrite !length_map in rinv_names4).
  eapply flush_restore_ok in E2 as (os & Hrs & Hsent); [|done|done|exact rinv_sent0].
  assert (map snd rs2 = map snd p1 ++ fill (map snd p2) os) as Hsnd.
  { rewrite Hrs, map_app. by rewrite snd_zip by (rewrite fill_length, !length_map; lia). }
  rewrite <- Hd. split_and!.
  - rewrite Hrs, map_app, rinv_names3, map_app, fst_zip; [by rewrite rinv_names4|].
    rewrite fill_length, !length_map. lia.
  - exact Hsent.
  - rewrite Hsnd. rewrite map_app in rinv_read_only0.
    apply Forall2_app_inv in rinv_read_only0 as [H1 H2]; [|by rewrite length_map].
    apply Forall2_app; [done|]. by apply fill_keeps.
  - rewrite Hsnd. destruct (selector_failed st).
    + destruct rinv_stop0 as [Ho Hs]. rewrite (fill_no_ok d2) by (by rewrite ?length_map).
      by rewrite <- map_app.
    + destruct rinv_stop0 as [H1 H2]. intros i j e x r He Hlive Hx. exfalso.
      exact (no_live_failure _ _ _ _ _ _ _ H1 H2 He Hlive Hx).
Qed.
End RestoreLemmas.

(** ** Lemmas: the order of a restore *)

Definition key_of (e : DumpEntry) : bool * nat := restore_order_key (fullname e).

Definition entry_le (a b : DumpEntry) : Prop := key_le (key_of a) (key_of b) = true.

#[export] Instance entry_leb_total : TotalOrder entry_leb.
Proof.
  split; unfold entry_leb; intros a b; [|intros c];
    repeat destruct (restore_order_key _) as [[] ?]; unfold key_le; simpl;
    rewrite ?Nat.leb_le, ?Nat.leb_gt; try done; lia.
Qed.

(** ** Properties *)

(** Batching changes nothing but the size of the writes: the bytes written in full are
    exactly the messages of the items reported as written, in order, each item has its own
    outcome, refused as invalid only when it has no message; and when nothing goes wrong
    every item that has a message is written. *)
Theorem write_node_values_exact items w rs w' :
  write_node_values w items = (rs, w') →
  length rs = length items ∧ Forall2 outcome_fits items rs ∧
  concat (batches w') = concat (batches w) ++ delivered items rs ∧
  (writer_clean w → writer_clean w' ∧ rs = map exact_outcome items).
Proof. apply write_node_values_ok. Qed.

(** C15: a restore reports one outcome per entry in the order applied and writes exactly the
    entries it reports as written; entries the property map knows as read-only are refused
    and never written; behind a model selector that failed every entry is refused. *)
Theorem restore_applies name_to_def w entries rs w' :
  restore name_to_def w entries = (rs, w') →
  map fst rs = map fullname (sort_entries entries) ∧
  concat (batches w') = concat (batches w) ++ delivered (map item_of (sort_entries entries)) (map snd rs) ∧
  Forall2 (λ e r, known_read_only name_to_def (fullname e) = true → r = Err InvalidInput)
    (sort_entries entries) (map snd rs) ∧
  stops_at_failure name_to_def (sort_entries entries) (map snd rs).
Proof. apply restore_ok. Qed.

(** The order of a restore is a stable rearrangement of the dump: model selectors before
    everything else, outer selectors before inner ones, and otherwise the dump's order. *)
Theorem restore_order entries :
  sort_entries entries ≡ₚ entries ∧ StronglySorted entry_le (sort_entries entries) ∧
  ∀ k, filter (λ x, key_of x = k) (sort_entries entries) = filter (λ x, key_of x = k) entries.
Proof.
  split_and!; [apply sort_by_perm | apply (sort_by_sorted entry_leb) |].
  intros k. apply (sort_by_stable entry_leb (λ x, key_of x = k)). intros a b Ha Hb.
  unfold entry_leb. change (key_le (key_of a) (key_of b) = true). rewrite Ha, Hb.
  destruct k as [[] n]; unfold key_le; simpl; by apply Nat.leb_le.
Qed.

(** *** Witnesses *)

Definition sample_writer : Writer := mk_writer false [WriteFailed OtherKind] [].

Definition sample_items : list (Z * NodeValue) :=
  [(5, NodeValues.Int 40); (6, NodeValues.String (replicate 300 (b8 97)))].

Lemma write_node_values_exact_witness :
  (write_node_values (mk_writer false [] []) sample_items).1 = [Ok tt; Err InvalidInput]
  ∧ concat (batches (write_node_values (mk_writer false [] []) sample_items).2)
    = message (5, NodeValues.Int 40).
Proof.
  destruct (write_node_values (mk_writer false [] []) sample_items) as [rs w'] eqn:E.
  destruct (write_node_values_exact _ _ _ _ E) as (_ & _ & Hs & Hc).
  destruct Hc as [_ ->]; [by split; [|constructor]|]. simpl in Hs.
  split; [vm_compute; reflexivity|]. simpl. rewrite Hs. vm_compute. reflexivity.
Defined.

(** A failed model selector: its child, listed first in the dump, is not written. *)
Definition sample_entries : list DumpEntry :=
  [mk_entry (str "/fx/1/mix") 8 (NodeValues.Int 3);
   mk_entry (str "/fx/1/mdl") 5 (NodeValues.String (str "HALL"))].

Lemma restore_applies_witness :
  (restore (λ _, None) sample_writer sample_entries).1
    = [(str "/fx/1/mdl", Err (Io OtherKind)); (str "/fx/1/mix", Err InvalidInput)]
  ∧ concat (batches (restore (λ _, None) sample_writer sample_entries).2) = [].
Proof.
  destruct (restore (λ _, None) sample_writer sample_entries) as [rs w'] eqn:E.
  assert (rs = [(str "/fx/1/mdl", Err (Io OtherKind)); (str "/fx/1/mix", Err InvalidInput)]) as ->
    by (apply (f_equal fst) in E; vm_compute in E; rewrite <- E; vm_compute; reflexivity).
  destruct (restore_applies _ _ _ _ _ E) as (_ & Hs & _). split; [reflexivity|].
  simpl. rewrite Hs. vm_compute. reflexivity.
Defined.
