(* ===== verification/PropIndex.v ===== *)
(** The view over the embedded property map ([src/src/propindex.rs]): the blob's header and
    its tables, read in place; name lookup by open addressing, id lookup by binary search.

    A function of the source that can panic (an index out of range, an [expect]) returns an
    option here, [None] for the panic; [defs], the cache of parsed definitions, is not part
    of the state because a cached definition is the one that would be parsed again. *)

From S2P Require Import Prelude Sort Bytes Lib Utf8 F32 Cursor NodeDef.
Local Open Scope Z_scope.

(** ** Data *)

Definition MAGIC : list byte := str "WPM2".
Definition HEADER_LEN : nat := 12.

(** [u32::MAX as usize]: a free slot of the hash table. *)
Definition EMPTY : Z := 0xffffffff.

(** [PropIndex]; [count] is the length of [defs]. *)
Record PropIndex := mk_index {
  entries : list byte;
  offsets : list byte;
  by_id_table : list byte;
  hash : list byte;
  count : nat;
}.

(** ** Reading integers *)

Definition be32 (bytes : list byte) (at_ : nat) : option Z :=
  from_be <$> get_range bytes at_ (at_ + 4).

Definition be16 (bytes : list byte) (at_ : nat) : option nat :=
  (λ b, Z.to_nat (from_be b)) <$> get_range bytes at_ (at_ + 2).

(** ** Hashing *)

Definition fnv_step (h : Z) (b : byte) : Z := Z.lxor h (u8 b) * 0x00000100000001b3 mod 2 ^ 64.

Definition name_hash (name : list byte) : Z :=
  let h := foldl fnv_step 0xcbf29ce484222325 name in
  Z.lxor h (Z.shiftr h 32).

Definition next_power_of_two (n : nat) : nat := 2 ^ Nat.log2_up n.

Definition hash_slots (count : nat) : nat :=
  match count with O => O | _ => next_power_of_two (count * 2) end.

(** ** Binary search *)

Fixpoint partition_loop (fuel : nat) (pred : nat → option bool) (lo hi : nat) : option nat :=
  if (lo <? hi)%nat then
    match fuel with
    | O => None
    | S fuel =>
      let mid := (lo + (hi - lo) / 2)%nat in
      p ← pred mid; if p : bool then partition_loop fuel pred (mid + 1) hi else partition_loop fuel pred lo mid
    end
  else Some lo.

Definition partition_point (len : nat) (pred : nat → option bool) : option nat :=
  partition_loop len pred 0 len.

(** ** The index *)

(** [split_at], past its bound check. *)
Definition split_at (l : list byte) (n : nat) : list byte * list byte := (take n l, drop n l).

Definition new (data : list byte) : option PropIndex :=
  if (HEADER_LEN <=? length data)%nat && bytes_eqb (take 4 data) MAGIC then
    count ← be32 data 4; entries_len ← be32 data 8;
    let count := Z.to_nat count in
    let entries_len := Z.to_nat entries_len in
    if (length data =? HEADER_LEN + entries_len + count * 8 + hash_slots count * 4)%nat then
      let '(entries, tables) := split_at (drop HEADER_LEN data) entries_len in
      let '(offsets, tables) := split_at tables (count * 4) in
      let '(by_id, hash) := split_at tables (count * 4) in
      Some (mk_index entries offsets by_id hash count)
    else None
  else None.

(** The index with no entries, when the property map is left out of the build. *)
Definition empty : PropIndex := mk_index [] [] [] [] 0.

Definition len (ix : PropIndex) : nat := count ix.

(** One record of the entries, at [i]: its name, its definition bytes and where it ends. *)
Definition record_at (entries : list byte) (i : nat) : option (list byte * list byte * nat) :=
  let i := (i + 1)%nat in
  name_len ← be16 entries i;
  let i := (i + 2)%nat in
  name ← get_range entries i (i + name_len);
  let i := (i + name_len)%nat in
  def_len ← be16 entries i;
  let i := (i + 2)%nat in
  def ← get_range entries i (i + def_len);
  Some (name, def, (i + def_len)%nat).

Definition raw (ix : PropIndex) (ordinal : nat) : option (list byte * list byte) :=
  i ← be32 (offsets ix) (ordinal * 4); fst <$> record_at (entries ix) (Z.to_nat i).

Definition name (ix : PropIndex) (ordinal : nat) : option (list byte) :=
  r ← raw ix ordinal; if utf8_valid r.1 then Some r.1 else None.

(** [i32::from_be_bytes([def[4], def[5], def[6], def[7]])]. *)
Definition def_id_at (def : list byte) : option Z := i32_from_be <$> get_range def 4 8.

Definition id_at (ix : PropIndex) (ordinal : nat) : option Z :=
  r ← raw ix ordinal; def_id_at r.2.

Definition def (ix : PropIndex) (ordinal : nat) : option WingNodeDef :=
  if (ordinal <? count ix)%nat then
    r ← raw ix ordinal;
    match from_bytes_without_raw r.2 with Ok d => Some d | Err _ => None end
  else None.

(** The probe loop of [find]. *)
Fixpoint find_loop (fuel : nat) (ix : PropIndex) (slots : Z) (name : list byte) (slot : Z)
    : option (option nat) :=
  match fuel with
  | O => None
  | S fuel =>
    ordinal ← be32 (hash ix) (Z.to_nat slot * 4);
    if ordinal =? EMPTY then Some None
    else
      r ← raw ix (Z.to_nat ordinal);
      if bytes_eqb r.1 name then Some (Some (Z.to_nat ordinal))
      else find_loop fuel ix slots name (Z.land (slot + 1) (slots - 1))
  end.

(** One round per slot is enough: the table has a free slot. *)
Definition find (ix : PropIndex) (name : list byte) : option (option nat) :=
  let slots := (length (hash ix) / 4)%nat in
  if (slots =? 0)%nat then Some None
  else
    let slots' := Z.of_nat slots in
    find_loop slots ix slots' name (Z.land (name_hash name) (slots' - 1)).

Definition get (ix : PropIndex) (name : list byte) : option (option WingNodeDef) :=
  o ← find ix name;
  match o with Some o => Some <$> def ix o | None => Some None end.

Definition id_of (ix : PropIndex) (name : list byte) : option (option Z) :=
  o ← find ix name;
  match o with Some o => Some <$> id_at ix o | None => Some None end.

(** One item of [iter] and of [by_id]. *)
Definition item (ix : PropIndex) (ordinal : nat) : option (list byte * WingNodeDef) :=
  n ← name ix ordinal; d ← def ix ordinal; Some (n, d).

Definition iter (ix : PropIndex) : option (list (list byte * WingNodeDef)) :=
  mapM (item ix) (seq 0 (len ix)).

Definition ordinal (ix : PropIndex) (k : nat) : option nat :=
  Z.to_nat <$> be32 (by_id_table ix) (k * 4).

Definition by_id (ix : PropIndex) (id : Z) : option (option (list (list byte * WingNodeDef))) :=
  start ← partition_point (len ix) (λ k, o ← ordinal ix k; i ← id_at ix o; Some (i <? id));
  end_ ← partition_point (len ix) (λ k, o ← ordinal ix k; i ← id_at ix o; Some (i <=? id));
  if (start <? end_)%nat then
    Some <$> mapM (λ k, o ← ordinal ix k; item ix o) (seq start (end_ - start))
  else Some None.
