(* ===== verification/PropMap.v ===== *)
(** The generator of the embedded property map ([src/tools/wingschema.rs], [push_entry],
    [write_propmap_bin]) and its contract with the index that reads it: an index over a
    generated blob answers every lookup as the list of entries it was generated from. *)

From stdpp Require Import sets sorting.
From S2P Require Import Prelude Sort Bytes Lib Utf8 F32 Cursor NodeDef PropIndex.
Local Open Scope Z_scope.

(** ** Data *)

(** One entry of the sweep. *)
Record Entry := mk_swept { flag : byte; full_name : list byte; def_bytes : list byte }.

(** [(record offset, name, definition id)], as [write_propmap_bin] collects them. *)
Record MapRecord := mk_map_record { r_offset : nat; r_name : list byte; r_id : Z }.

(** ** Operations *)

Definition push_entry (raw : list byte) (flag : byte) (fullname def_bytes : list byte) : list byte :=
  raw ++ [flag] ++ to_be 2 (Z.of_nat (length fullname)) ++ fullname
      ++ to_be 2 (Z.of_nat (length def_bytes)) ++ def_bytes.

(** Number of records in [raw]; the lengths alone are read. *)
Fixpoint count_entries (fuel : nat) (raw : list byte) (i count : nat) : option nat :=
  if (i <? length raw)%nat then
    match fuel with
    | O => None
    | S fuel =>
      name_len ← be16 raw (i + 1);
      let i := (i + (3 + name_len))%nat in
      def_len ← be16 raw i;
      count_entries fuel raw (i + (2 + def_len)) (count + 1)
    end
  else Some count.

(** The scan that collects the records: each is at least five bytes long. *)
Fixpoint scan_records (fuel : nat) (raw : list byte) (i : nat) : option (list MapRecord) :=
  if (i <? length raw)%nat then
    match fuel with
    | O => None
    | S fuel =>
      r ← record_at raw i;
      let '(name, def, next) := r in
      id ← def_id_at def;
      rest ← scan_records fuel raw next;
      Some (mk_map_record i name id :: rest)
    end
  else Some [].

Definition record_le (a b : MapRecord) : bool := bytes_le (r_name a) (r_name b).

(** [records.windows(2).all(|w| w[0].1 != w[1].1)]. *)
Fixpoint no_adjacent_duplicate (records : list MapRecord) : bool :=
  match records with
  | a :: (b :: _) as rest => negb (bytes_eqb (r_name a) (r_name b)) && no_adjacent_duplicate rest
  | _ => true
  end.

Definition record_id (records : list MapRecord) (o : nat) : Z :=
  match records !! o with Some r => r_id r | None => 0 end.

(** The order of [(records[o].2, o)]. *)
Definition ordinal_le (records : list MapRecord) (a b : nat) : bool :=
  (record_id records a <? record_id records b)
  || ((record_id records a =? record_id records b) && (a <=? b)%nat).

(** The probe for a free slot. *)
Fixpoint free_slot (fuel : nat) (table : list Z) (slots slot : Z) : option Z :=
  match fuel with
  | O => None
  | S fuel =>
    z ← table !! Z.to_nat slot;
    if z =? EMPTY then Some slot else free_slot fuel table slots (Z.land (slot + 1) (slots - 1))
  end.

Definition insert_ordinal (slots : nat) (table : list Z) (ordinal : nat) (name : list byte)
    : option (list Z) :=
  let slots' := Z.of_nat slots in
  slot ← free_slot slots table slots' (Z.land (name_hash name) (slots' - 1));
  Some (<[Z.to_nat slot := Z.of_nat ordinal]> table).

Fixpoint fill_table (slots : nat) (table : list Z) (ordinal : nat) (names : list (list byte))
    : option (list Z) :=
  match names with
  | [] => Some table
  | name :: names =>
    table ← insert_ordinal slots table ordinal name; fill_table slots table (ordinal + 1) names
  end.

Definition be32_table (l : list Z) : list byte := concat (map (to_be 4) l).

(** The whole blob, [None] for a panic. *)
Definition write_propmap_bin (raw : list byte) : option (list byte) :=
  _ ← count_entries (length raw) raw 0 0;
  scanned ← scan_records (length raw) raw 0;
  let records := sort_by record_le scanned in
  if no_adjacent_duplicate records then
    let by_id := sort_by (ordinal_le records) (seq 0 (length records)) in
    let slots :=
      if bool_decide (records = []) then O else next_power_of_two (length records * 2) in
    table ← fill_table slots (replicate slots EMPTY) 0 (map r_name records);
    Some (str "WPM2" ++ to_be 4 (Z.of_nat (length records)) ++ to_be 4 (Z.of_nat (length raw)) ++ raw
          ++ be32_table (map (λ r, Z.of_nat (r_offset r)) records)
          ++ be32_table (map Z.of_nat by_id) ++ be32_table table)
  else None.

(** The sweep's records, one [push_entry] after another. *)
Definition push_entries (l : list Entry) : list byte :=
  foldl (λ raw e, push_entry raw (flag e) (full_name e) (def_bytes e)) [] l.

(** ** The contract *)

(** What a generated map needs of its entries: each fits its two length fields and holds at
    least the two ids, names are distinct and UTF-8, every definition parses, and offsets fit
    32 bits. *)
Record entry_ok (e : Entry) : Prop := {
  name_len_ok : Z.of_nat (length (full_name e)) < 2 ^ 16;
  def_len_ok : 8 ≤ Z.of_nat (length (def_bytes e)) < 2 ^ 16;
  name_utf8 : utf8_valid (full_name e) = true;
}.

Record entries_ok (l : list Entry) : Prop := {
  each_ok : Forall entry_ok l;
  names_distinct : NoDup (map full_name l);
  total_len_ok : Z.of_nat (length (push_entries l)) < 2 ^ 32;
}.

(** ** Scanning the records *)

Definition record_bytes (e : Entry) : list byte :=
  [flag e] ++ to_be 2 (Z.of_nat (length (full_name e))) ++ full_name e
    ++ to_be 2 (Z.of_nat (length (def_bytes e))) ++ def_bytes e.

Definition records_bytes (l : list Entry) : list byte := concat (map record_bytes l).

Lemma records_bytes_cons e l : records_bytes (e :: l) = record_bytes e ++ records_bytes l.
Proof. done. Qed.

Lemma push_entries_eq l : push_entries l = records_bytes l.
Proof.
  unfold push_entries, records_bytes. rewrite <- (app_nil_l (concat _)). generalize (@nil byte) as acc.
  induction l as [|e l IH]; intros acc; simpl; [by rewrite app_nil_r|].
  rewrite IH. unfold push_entry, record_bytes. by rewrite <- !(assoc_L (++)).
Qed.

Lemma record_bytes_length e :
  length (record_bytes e) = (5 + length (full_name e) + length (def_bytes e))%nat.
Proof. unfold record_bytes. rewrite !length_app, !to_be_length. simpl. lia. Qed.

(** A range read back from a position given by what precedes it. *)
Lemma get_range_at {A} (l a b c : list A) i j :
  l = a ++ b ++ c → i = length a → j = (length a + length b)%nat → get_range l i j = Some b.
Proof. intros -> -> ->. apply get_range_app. Qed.

Lemma be16_at l a n c i :
  l = a ++ to_be 2 (Z.of_nat n) ++ c → i = length a → Z.of_nat n < 2 ^ 16 → be16 l i = Some n.
Proof.
  intros -> -> Hn. unfold be16. rewrite (get_range_at _ a (to_be 2 (Z.of_nat n)) c);
    [|done|done|by rewrite to_be_length].
  simpl. rewrite u16_round by width. by rewrite Nat2Z.id.
Qed.

Lemma record_at_entry pre e post :
  entry_ok e →
  record_at (pre ++ record_bytes e ++ post) (length pre)
  = Some (full_name e, def_bytes e, length pre + length (record_bytes e))%nat.
Proof.
  intros [Hn Hd _]. rewrite record_bytes_length. unfold record_at, record_bytes.
  set (n := full_name e) in *. set (d := def_bytes e) in *.
  rewrite (be16_at _ (pre ++ [flag e]) (length n) (n ++ to_be 2 (Z.of_nat (length d)) ++ d ++ post));
    [|by rewrite <- !(assoc_L (++))|by rewrite length_app|done].
  simpl. rewrite (get_range_at _ (pre ++ [flag e] ++ to_be 2 (Z.of_nat (length n))) n
                    (to_be 2 (Z.of_nat (length d)) ++ d ++ post));
    [|by rewrite <- !(assoc_L (++))|rewrite !length_app, to_be_length; simpl; lia
     |rewrite !length_app, to_be_length; simpl; lia].
  simpl. rewrite (be16_at _ (pre ++ [flag e] ++ to_be 2 (Z.of_nat (length n)) ++ n) (length d) (d ++ post));
    [|by rewrite <- !(assoc_L (++))|rewrite !length_app, to_be_length; simpl; lia|lia].
  simpl. rewrite (get_range_at _ (pre ++ [flag e] ++ to_be 2 (Z.of_nat (length n)) ++ n
                                   ++ to_be 2 (Z.of_nat (length d))) d post);
    [|by rewrite <- !(assoc_L (++))|rewrite !length_app, !to_be_length; simpl; lia
     |rewrite !length_app, !to_be_length; simpl; lia].
  simpl. do 2 f_equal. lia.
Qed.

(** The id a definition's bytes carry. *)
Definition entry_id (e : Entry) : Z := i32_from_be (take 4 (drop 4 (def_bytes e))).

Lemma def_id_at_entry e : entry_ok e → def_id_at (def_bytes e) = Some (entry_id e).
Proof.
  intros [_ Hd _]. unfold def_id_at, get_range. rewrite (proj2 (Nat.leb_le 8 _)) by lia. done.
Qed.

(** The entries of a sweep with their offsets, and the records [scan_records] finds. *)
Fixpoint placed_from (i : nat) (l : list Entry) : list (Entry * nat) :=
  match l with
  | [] => []
  | e :: l => (e, i) :: placed_from (i + length (record_bytes e)) l
  end.

Definition record_of (p : Entry * nat) : MapRecord :=
  mk_map_record p.2 (full_name p.1) (entry_id p.1).

Lemma scan_records_at fuel pre l :
  Forall entry_ok l → (length (records_bytes l) ≤ fuel)%nat →
  scan_records fuel (pre ++ records_bytes l) (length pre) = Some (map record_of (placed_from (length pre) l)).
Proof.
  revert fuel pre. induction l as [|e l IH]; intros fuel pre Hl Hf.
  - destruct fuel; cbn [scan_records]; rewrite app_nil_r, (proj2 (Nat.ltb_ge _ _)) by lia; done.
  - apply Forall_cons_iff in Hl as [He Hl]. rewrite records_bytes_cons in *.
    rewrite length_app in Hf. pose proof (record_bytes_length e).
    destruct fuel as [|fuel]; [lia|]. cbn [scan_records].
    rewrite (proj2 (Nat.ltb_lt _ _)) by (rewrite !length_app; lia).
    rewrite record_at_entry by done. cbn -[Nat.add length record_bytes]. rewrite def_id_at_entry by done. cbn -[Nat.add length record_bytes].
    rewrite (assoc_L (++)), <- length_app, IH by (done || lia). done.
Qed.

Lemma count_entries_at fuel pre l n :
  Forall entry_ok l → (length (records_bytes l) ≤ fuel)%nat →
  count_entries fuel (pre ++ records_bytes l) (length pre) n = Some (n + length l)%nat.
Proof.
  revert fuel pre n. induction l as [|e l IH]; intros fuel pre n Hl Hf.
  - destruct fuel; cbn [count_entries]; rewrite app_nil_r, (proj2 (Nat.ltb_ge _ _)) by lia;
      f_equal; simpl; lia.
  - apply Forall_cons_iff in Hl as [He Hl]. rewrite records_bytes_cons in *.
    rewrite length_app in Hf. pose proof (record_bytes_length e) as Hlen. destruct He as [Hn Hd _].
    destruct fuel as [|fuel]; [lia|]. cbn [count_entries].
    rewrite (proj2 (Nat.ltb_lt _ _)) by (rewrite !length_app; lia).
    rewrite (be16_at _ (pre ++ [flag e]) (length (full_name e))
               (full_name e ++ to_be 2 (Z.of_nat (length (def_bytes e))) ++ def_bytes e ++ records_bytes l));
      [|unfold record_bytes; by rewrite <- !(assoc_L (++))|by rewrite length_app|done].
    cbn -[Nat.add length record_bytes]. rewrite (be16_at _ (pre ++ [flag e] ++ to_be 2 (Z.of_nat (length (full_name e))) ++ full_name e)
                      (length (def_bytes e)) (def_bytes e ++ records_bytes l));
      [|unfold record_bytes; by rewrite <- !(assoc_L (++))
       |rewrite !length_app, to_be_length; simpl; lia|lia].
    cbn -[Nat.add length record_bytes]. replace (length pre + (3 + length (full_name e)) + (2 + length (def_bytes e)))%nat
      with (length (pre ++ record_bytes e)) by (rewrite length_app; lia).
    rewrite (assoc_L (++)), IH by (done || lia). f_equal. simpl. lia.
Qed.

(** ** Open addressing *)

Section Probe.
Context (k : nat).

Abbreviation slots := (2 ^ k)%nat.
Abbreviation modulus := (Z.of_nat slots).

(** The slot looked at in round [j] for a hash [h]. *)
Definition probe (h : Z) (j : nat) : nat := Z.to_nat ((h + Z.of_nat j) mod modulus).

Definition taken (table : list Z) (h : Z) (j : nat) : Prop :=
  ∃ z, table !! probe h j = Some z ∧ z ≠ EMPTY.

Lemma modulus_pos : 0 < modulus.
Proof. pose proof (Nat.pow_nonzero 2 k ltac:(done)). lia. Qed.
#[local] Hint Resolve modulus_pos : core.

Lemma mask x : Z.land x (modulus - 1) = x mod modulus.
Proof.
  rewrite Nat2Z.inj_pow. change (Z.of_nat 2) with 2.
  replace (2 ^ Z.of_nat k - 1) with (Z.ones (Z.of_nat k)) by (rewrite Z.ones_equiv; lia).
  apply Z.land_ones. lia.
Qed.

Lemma mask_step h : Z.land (h mod modulus + 1) (modulus - 1) = (h + 1) mod modulus.
Proof. rewrite mask. by rewrite Z.add_mod_idemp_l by (pose proof modulus_pos; lia). Qed.

Lemma probe_lt h j : (probe h j < slots)%nat.
Proof.
  unfold probe. pose proof (Z.mod_pos_bound (h + Z.of_nat j) modulus modulus_pos). lia.
Qed.

Lemma probe_0 h : probe h 0 = Z.to_nat (h mod modulus).
Proof. unfold probe. by rewrite Z.add_0_r. Qed.

Lemma probe_S h j : probe h (S j) = probe (h + 1) j.
Proof. unfold probe. do 2 f_equal. lia. Qed.

Lemma probe_onto h p : (p < slots)%nat → ∃ j, (j < slots)%nat ∧ probe h j = p.
Proof.
  intros Hp. pose proof modulus_pos as Hm.
  pose proof (Z.mod_pos_bound (Z.of_nat p - h) modulus Hm).
  exists (Z.to_nat ((Z.of_nat p - h) mod modulus)). split; [lia|]. unfold probe.
  rewrite Z2Nat.id, Z.add_mod_idemp_r by lia.
  replace (h + (Z.of_nat p - h)) with (Z.of_nat p) by lia. rewrite Z.mod_small by lia. lia.
Qed.

Lemma free_slot_walk table h i fuel :
  (∀ j, (j < i)%nat → taken table h j) → table !! probe h i = Some EMPTY → (i < fuel)%nat →
  free_slot fuel table modulus (h mod modulus) = Some ((h + Z.of_nat i) mod modulus).
Proof.
  revert h fuel. induction i as [|i IH]; intros h [|fuel] Ht He Hf; try lia; cbn [free_slot].
  - rewrite probe_0 in He. rewrite He. simpl. by rewrite Z.add_0_r.
  - destruct (Ht 0%nat) as (z & Hz & Hne); [lia|]. rewrite probe_0 in Hz. rewrite Hz. simpl.
    rewrite (proj2 (Z.eqb_neq _ _) Hne), mask_step.
    rewrite (IH (h + 1) fuel); [do 2 f_equal; lia| |by rewrite <- probe_S|lia].
    intros j Hj. destruct (Ht (S j)) as (z' & Hz' & ?); [lia|]. exists z'. by rewrite <- probe_S.
Qed.

(** A table with a free slot has a first one on every probe path. *)
Lemma first_free table h p :
  length table = slots → table !! p = Some EMPTY →
  ∃ i, (i < slots)%nat ∧ table !! probe h i = Some EMPTY ∧ ∀ j, (j < i)%nat → taken table h j.
Proof.
  intros Hl Hp.
  assert (∀ m, (∀ j, (j < m)%nat → taken table h j) ∨
    ∃ i, (i < m)%nat ∧ table !! probe h i = Some EMPTY ∧ ∀ j, (j < i)%nat → taken table h j) as Hm.
  { induction m as [|m [IH|(i & ? & ?)]]; [left; lia| |right; exists i; split; [lia|done]].
    destruct (lookup_lt_is_Some_2 table (probe h m)) as [z Hz]; [rewrite Hl; apply probe_lt|].
    destruct (decide (z = EMPTY)) as [->|Hne].
    - right. exists m. split; [lia|done].
    - left. intros j Hj. destruct (decide (j = m)) as [->|]; [by exists z|]. apply IH. lia. }
  apply lookup_lt_Some in Hp as Hlt. rewrite Hl in Hlt.
  destruct (Hm slots) as [Ht|(i & Hi)]; [|by exists i].
  destruct (probe_onto h p Hlt) as (j & Hj & <-). destruct (Ht j Hj) as (z & Hz & ?). congruence.
Qed.

(** The table after the first [m] names have been inserted. *)
Record table_ok (names : list (list byte)) (table : list Z) (m : nat) : Prop := {
  table_length : length table = slots;
  table_ordinals p z : table !! p = Some z → z ≠ EMPTY → ∃ o, z = Z.of_nat o ∧ (o < m)%nat;
  table_found o : (o < m)%nat → ∃ nm i, names !! o = Some nm
    ∧ table !! probe (name_hash nm) i = Some (Z.of_nat o)
    ∧ (i < slots)%nat ∧ ∀ j, (j < i)%nat → taken table (name_hash nm) j;
  table_load : length (filter (λ z, z ≠ EMPTY) table) = m;
}.

Lemma free_exists table :
  (length (filter (λ z, z ≠ EMPTY) table) < length table)%nat → ∃ p, table !! p = Some EMPTY.
Proof.
  induction table as [|z table IH]; simpl; [lia|]. rewrite list.filter_cons.
  destruct (decide (z ≠ EMPTY)) as [|Hz]; [|intros _; exists 0%nat; simpl; f_equal; by apply dec_stable].
  simpl. intros H. destruct IH as [p Hp]; [lia|]. by exists (S p).
Qed.

Lemma load_insert table p z :
  table !! p = Some EMPTY → z ≠ EMPTY →
  length (filter (λ z, z ≠ EMPTY) (<[p := z]> table)) = S (length (filter (λ z, z ≠ EMPTY) table)).
Proof.
  intros Hp Hz. rewrite <- (take_drop_middle table p EMPTY Hp) at 2.
  rewrite insert_take_drop by (by eapply lookup_lt_Some).
  rewrite !list.filter_app, !list.filter_cons, !length_app.
  rewrite (decide_True (P := z ≠ EMPTY)), (decide_False (P := EMPTY ≠ EMPTY)) by tauto. simpl. lia.
Qed.

Lemma taken_insert table h j p z : z ≠ EMPTY → taken table h j → taken (<[p := z]> table) h j.
Proof.
  intros Hz (z' & Hz' & ?). destruct (decide (p = probe h j)) as [->|].
  - exists z. split; [|done]. apply list_lookup_insert_eq. by eapply lookup_lt_Some.
  - exists z'. by rewrite list_lookup_insert_ne.
Qed.

Lemma insert_ordinal_ok names table m nm :
  table_ok names table m → names !! m = Some nm → (m < slots)%nat → Z.of_nat m < EMPTY →
  ∃ table', insert_ordinal slots table m nm = Some table' ∧ table_ok names table' (S m).
Proof.
  intros [Hl Ho Hf Hc] Hnm Hm Hmax. destruct (free_exists table) as [p Hp]; [lia|].
  destruct (first_free table (name_hash nm) p Hl Hp) as (i & Hi & Hie & Hit).
  unfold insert_ordinal. rewrite mask, (free_slot_walk _ _ i) by done. simpl.
  change (Z.to_nat ((name_hash nm + Z.of_nat i) mod modulus)) with (probe (name_hash nm) i).
  set (q := probe (name_hash nm) i) in *. eexists. split; [done|].
  assert (Hne : Z.of_nat m ≠ EMPTY) by lia. split.
  - by rewrite length_insert.
  - intros p' z Hz Hze. apply list_lookup_insert_Some in Hz as [(-> & <- & _)|[_ Hz]].
    + exists m. split; [done|lia].
    + destruct (Ho _ _ Hz Hze) as (o & -> & ?). exists o. split; [done|lia].
  - intros o Hom. destruct (decide (o = m)) as [->|].
    + exists nm, i. split_and!; [done| |done|intros j Hj; by apply taken_insert, Hit].
      apply list_lookup_insert_eq. rewrite Hl. apply probe_lt.
    + destruct (Hf o) as (nm' & i' & Hn' & Hp' & Hi' & Ht'); [lia|]. exists nm', i'.
      split_and!; [done| |done|intros j Hj; by apply taken_insert, Ht'].
      rewrite list_lookup_insert_ne; [done|]. intros e. rewrite e in Hie. rewrite Hie in Hp'.
      simplify_eq. unfold EMPTY in *. lia.
  - rewrite load_insert by done. by rewrite Hc.
Qed.

Lemma fill_table_ok names rest table m :
  table_ok names table m → drop m names = rest → (length names < slots)%nat →
  Z.of_nat (length names) ≤ EMPTY →
  ∃ table', fill_table slots table m rest = Some table' ∧ table_ok names table' (m + length rest)%nat.
Proof.
  intros Ht Hr Hn Hmax. revert table m Ht Hr. induction rest as [|nm rest IH]; intros table m Ht Hr.
  - exists table. simpl. by rewrite Nat.add_0_r.
  - assert (Hm : names !! m = Some nm).
    { rewrite <- (Nat.add_0_r m), <- lookup_drop, Hr. done. }
    apply lookup_lt_Some in Hm as Hlt.
    destruct (insert_ordinal_ok names table m nm) as (t1 & Hi & Ht1); [done..|lia|lia|].
    cbn [fill_table]. rewrite Hi. simpl. rewrite Nat.add_1_r.
    destruct (IH t1 (S m)) as (t2 & Hf & Ht2); [done| |].
    + rewrite <- Nat.add_1_r, <- drop_drop, Hr. done.
    + exists t2. split; [done|]. by rewrite Nat.add_succ_r.
Qed.

Lemma empty_table_ok names : table_ok names (replicate slots EMPTY) 0.
Proof.
  split.
  - apply length_replicate.
  - by intros p z [-> _]%lookup_replicate.
  - lia.
  - induction slots; simpl; [done|]. rewrite list.filter_cons, decide_False by tauto. done.
Qed.

Lemma table_u32 names table m : table_ok names table m → Z.of_nat m ≤ EMPTY → Forall in_u32 table.
Proof.
  intros [_ Ho _ _] Hm. apply list.Forall_forall. intros z [p Hp]%list_elem_of_lookup_1.
  destruct (decide (z = EMPTY)) as [->|Hne]; [unfold EMPTY; width|].
  destruct (Ho _ _ Hp Hne) as (o & -> & ?). unfold EMPTY in *. width.
Qed.
End Probe.

(** ** Reading the tables back *)

Lemma be32_table_length l : length (be32_table l) = (4 * length l)%nat.
Proof.
  unfold be32_table. induction l as [|z l IH]; [done|]. cbn [map concat].
  rewrite length_app, to_be_length, IH. simpl. lia.
Qed.

Lemma be32_table_lookup l p z : l !! p = Some z → in_u32 z → be32 (be32_table l) (p * 4) = Some z.
Proof.
  intros Hp Hz. pose proof (take_drop_middle l p z Hp) as E. unfold be32.
  rewrite (get_range_at _ (be32_table (take p l)) (to_be 4 z) (be32_table (drop (S p) l))).
  - simpl. by rewrite u32_round.
  - rewrite <- E at 1. unfold be32_table. by rewrite map_app, concat_app.
  - apply lookup_lt_Some in Hp. rewrite be32_table_length, length_take. lia.
  - apply lookup_lt_Some in Hp. rewrite be32_table_length, length_take, to_be_length. lia.
Qed.

(** ** Finding a name *)

Section Find.
Context (k : nat) (ix : PropIndex) (names : list (list byte)) (table : list Z).
Context (names_nodup : NoDup names).
Context (Hhash : hash ix = be32_table table) (Hu32 : Forall in_u32 table).
Context (Htable : table_ok k names table (length names)) (Hroom : (length names < 2 ^ k)%nat).
Context (Hraw : ∀ o nm, names !! o = Some nm → ∃ d, raw ix o = Some (nm, d)).
Context (Hmax : Z.of_nat (length names) ≤ EMPTY).

Lemma hash_at p z : table !! p = Some z → be32 (hash ix) (p * 4) = Some z.
Proof.
  intros Hp. rewrite Hhash. apply be32_table_lookup; [done|].
  rewrite list.Forall_forall in Hu32. by eapply Hu32, list_elem_of_lookup_2.
Qed.

(** What a taken slot holds: an ordinal and its name. *)
Lemma slot_name h j :
  taken k table h j → ∃ o nm d, table !! probe k h j = Some (Z.of_nat o)
    ∧ Z.of_nat o ≠ EMPTY ∧ names !! o = Some nm ∧ raw ix o = Some (nm, d).
Proof.
  intros (z & Hz & Hne). destruct (table_ordinals _ _ _ _ Htable _ _ Hz Hne) as (o & -> & Ho).
  destruct (lookup_lt_is_Some_2 _ _ Ho) as [nm Hnm]. destruct (Hraw _ _ Hnm) as [d Hd].
  by exists o, nm, d.
Qed.

Lemma find_loop_hit name o i h fuel :
  names !! o = Some name → table !! probe k h i = Some (Z.of_nat o) →
  (∀ j, (j < i)%nat → taken k table h j) → (i < fuel)%nat →
  find_loop fuel ix (Z.of_nat (2 ^ k)) name (h mod Z.of_nat (2 ^ k)) = Some (Some o).
Proof.
  intros Ho. apply lookup_lt_Some in Ho as Holt. revert h fuel.
  induction i as [|i IH]; intros h [|fuel] Hi Ht Hf; try lia; cbn [find_loop].
  - rewrite probe_0 in Hi. rewrite (hash_at _ _ Hi). simpl. rewrite (proj2 (Z.eqb_neq _ _)) by lia.
    destruct (Hraw _ _ Ho) as [d Hd]. rewrite Nat2Z.id, Hd. simpl.
    by rewrite (proj2 (bytes_eqb_eq _ _)).
  - destruct (slot_name h 0) as (o' & nm & d & Hs & Hne & Hnm & Hd); [apply Ht; lia|].
    rewrite probe_0 in Hs. rewrite (hash_at _ _ Hs). simpl. rewrite (proj2 (Z.eqb_neq _ _) Hne).
    rewrite Nat2Z.id, Hd. simpl. destruct (bytes_eqb nm name) eqn:E.
    + apply bytes_eqb_eq in E as ->. do 2 f_equal. by eapply NoDup_lookup.
    + rewrite mask_step. apply IH; [by rewrite <- probe_S| |lia].
      intros j Hj. destruct (Ht (S j)) as (z & Hz & ?); [lia|]. exists z. by rewrite <- probe_S.
Qed.

Lemma find_loop_miss name i h fuel :
  name ∉ names → table !! probe k h i = Some EMPTY →
  (∀ j, (j < i)%nat → taken k table h j) → (i < fuel)%nat →
  find_loop fuel ix (Z.of_nat (2 ^ k)) name (h mod Z.of_nat (2 ^ k)) = Some None.
Proof.
  intros Hn. revert h fuel.
  induction i as [|i IH]; intros h [|fuel] Hi Ht Hf; try lia; cbn [find_loop].
  - rewrite probe_0 in Hi. by rewrite (hash_at _ _ Hi).
  - destruct (slot_name h 0) as (o' & nm & d & Hs & Hne & Hnm & Hd); [apply Ht; lia|].
    rewrite probe_0 in Hs. rewrite (hash_at _ _ Hs). simpl. rewrite (proj2 (Z.eqb_neq _ _) Hne).
    rewrite Nat2Z.id, Hd. simpl. destruct (bytes_eqb nm name) eqn:E.
    + apply bytes_eqb_eq in E as ->. destruct Hn. by eapply list_elem_of_lookup_2.
    + rewrite mask_step. apply IH; [by rewrite <- probe_S| |lia].
      intros j Hj. destruct (Ht (S j)) as (z & Hz & ?); [lia|]. exists z. by rewrite <- probe_S.
Qed.

Lemma hash_len : (length (hash ix) / 4 = 2 ^ k)%nat.
Proof.
  rewrite Hhash, be32_table_length, (table_length _ _ _ _ Htable), Nat.mul_comm.
  by apply Nat.div_mul.
Qed.

Lemma find_start name :
  find ix name = find_loop (2 ^ k) ix (Z.of_nat (2 ^ k)) name (name_hash name mod Z.of_nat (2 ^ k)).
Proof.
  unfold find. rewrite hash_len, mask, (proj2 (Nat.eqb_neq _ _)); [done|]. by apply Nat.pow_nonzero.
Qed.

Lemma find_hit name o : names !! o = Some name → find ix name = Some (Some o).
Proof.
  intros Ho. rewrite find_start. apply lookup_lt_Some in Ho as Hlt.
  destruct (table_found _ _ _ _ Htable o Hlt) as (nm & i & Hnm & Hi & Hlti & Ht).
  simplify_eq. by eapply find_loop_hit.
Qed.

Lemma find_miss name : name ∉ names → find ix name = Some None.
Proof.
  intros Hn. rewrite find_start. destruct (free_exists table) as [p Hp].
  { rewrite (table_load _ _ _ _ Htable), (table_length _ _ _ _ Htable). lia. }
  destruct (first_free k table (name_hash name) p) as (i & Hi & He & Ht);
    [apply (table_length _ _ _ _ Htable)|done|].
  by eapply find_loop_miss.
Qed.
End Find.

(** ** Ranges of a sorted table *)

Lemma partition_loop_ok pred p fuel lo hi :
  (lo ≤ p ≤ hi)%nat → (hi - lo ≤ fuel)%nat →
  (∀ i, (lo ≤ i < p)%nat → pred i = Some true) → (∀ i, (p ≤ i < hi)%nat → pred i = Some false) →
  partition_loop fuel pred lo hi = Some p.
Proof.
  revert lo hi. induction fuel as [|fuel IH]; intros lo hi Hp Hf Ht Hn; cbn [partition_loop].
  - rewrite (proj2 (Nat.ltb_ge _ _)) by lia. f_equal. lia.
  - destruct (Nat.ltb_spec lo hi) as [Hlt|]; [|f_equal; lia].
    pose proof (Nat.Div0.div_le_upper_bound (hi - lo) 2 (hi - lo) ltac:(lia)).
    assert ((hi - lo) / 2 < hi - lo)%nat by (apply Nat.div_lt; lia).
    set (mid := (lo + (hi - lo) / 2)%nat) in *. destruct (decide (mid < p)%nat).
    + rewrite Ht by lia. simpl. apply IH; [lia|lia| |]; intros i Hi; [apply Ht|apply Hn]; lia.
    + rewrite Hn by lia. simpl. apply IH; [lia|lia| |]; intros i Hi; [apply Ht|apply Hn]; lia.
Qed.

Lemma partition_point_ok pred p len :
  (p ≤ len)%nat → (∀ i, (i < p)%nat → pred i = Some true) →
  (∀ i, (p ≤ i < len)%nat → pred i = Some false) → partition_point len pred = Some p.
Proof. intros Hp Ht Hf. apply partition_loop_ok; [lia|lia| |done]. intros i Hi. apply Ht. lia. Qed.

Lemma filter_none {A} (P : A → Prop) `{∀ x, Decision (P x)} l :
  (∀ a, a ∈ l → ¬ P a) → filter P l = [].
Proof.
  induction l as [|a l IH]; intros Hl; [done|]. rewrite list.filter_cons, decide_False.
  - apply IH. intros b Hb. apply Hl. by right.
  - apply Hl. by left.
Qed.

Lemma filter_all {A} (P : A → Prop) `{∀ x, Decision (P x)} l : Forall P (filter P l).
Proof. apply list.Forall_forall. by intros a [? _]%list_elem_of_filter. Qed.

Lemma filter_true {A} (l : list A) : filter (λ _, True) l = l.
Proof. induction l as [|a l IH]; [done|]. rewrite list.filter_cons, decide_True by done. by rewrite IH. Qed.

(** A list sorted by [f] falls into the smaller, the equal and the larger elements. *)
Lemma sorted_split {A} (f : A → Z) (id : Z) l :
  StronglySorted (λ a b, f a ≤ f b) l →
  l = filter (λ a, f a < id) l ++ filter (λ a, f a = id) l ++ filter (λ a, id < f a) l.
Proof.
  induction 1 as [|a l Hl IH Ha]; [done|]. rewrite !list.filter_cons.
  assert (Hmin : ∀ P : A → Prop, ∀ D : ∀ x, Decision (P x), (∀ b, f a ≤ f b → ¬ P b) → filter P l = []).
  { intros P D HP. apply filter_none. intros b Hb. apply HP.
    rewrite list.Forall_forall in Ha. by apply Ha. }
  destruct (decide (f a < id)).
  - rewrite !decide_False by lia. simpl. by rewrite <- IH.
  - rewrite (Hmin (λ b, f b < id)) in IH |- * by lia. destruct (decide (f a = id)).
    + rewrite decide_False by lia. simpl in *. by rewrite <- IH.
    + rewrite (Hmin (λ b, f b = id)) in IH |- * by lia. rewrite decide_True by lia. simpl in *.
      by rewrite <- IH.
Qed.

(** Reading a run of ordinals and using each. *)
Lemma mapM_run {A} (f : nat → option nat) (g : nat → option A) (run : list nat) i :
  (∀ j o, run !! j = Some o → f (i + j)%nat = Some o) →
  mapM (λ k, o ← f k; g o) (seq i (length run)) = mapM g run.
Proof.
  revert i. induction run as [|o run IH]; intros i Hf; [done|]. cbn [length seq mapM].
  specialize (Hf 0%nat o eq_refl) as H0. rewrite Nat.add_0_r in H0. rewrite H0. simpl.
  destruct (g o); [|done]. simpl. rewrite IH; [done|]. intros j o' Hj.
  rewrite Nat.add_succ_comm. by apply Hf.
Qed.

(** The ordinals a test selects, mapped, are the selected elements, mapped. *)
Lemma mapM_selected {A B} (P : A → Prop) `{∀ x, Decision (P x)} (Q : nat → Prop) `{∀ x, Decision (Q x)}
    (g : nat → option B) (h : A → B) l i :
  (∀ o a, l !! o = Some a → g (i + o)%nat = Some (h a) ∧ (Q (i + o)%nat ↔ P a)) →
  mapM g (filter Q (seq i (length l))) = Some (map h (filter P l)).
Proof.
  revert i. induction l as [|a l IH]; intros i Hg; [done|]. cbn [length seq].
  destruct (Hg 0%nat a eq_refl) as [H1 H2]. rewrite Nat.add_0_r in *.
  rewrite !list.filter_cons, (decide_ext _ _ _ _ H2). specialize (IH (S i)).
  destruct (decide (P a)); cbn [mapM map]; [rewrite H1; simpl|];
    (rewrite IH; [done|]; intros o b Hb; rewrite Nat.add_succ_comm; by apply Hg).
Qed.

(** ** The generated blob *)

Definition name_le (a b : Entry) : bool := bytes_le (full_name a) (full_name b).

Lemma map_fst_placed i l : map fst (placed_from i l) = l.
Proof. revert i. induction l; intros; simpl; congruence. Qed.

Lemma placed_read pre l p :
  Forall entry_ok l → p ∈ placed_from (length pre) l →
  record_at (pre ++ records_bytes l) p.2
    = Some (full_name p.1, def_bytes p.1, p.2 + length (record_bytes p.1))%nat
  ∧ (p.2 < length (pre ++ records_bytes l))%nat.
Proof.
  revert pre. induction l as [|e l IH]; intros pre Hl Hp; cbn [placed_from] in Hp; [by apply elem_of_nil in Hp|].
  apply Forall_cons_iff in Hl as [He Hl]. rewrite records_bytes_cons.
  apply elem_of_cons in Hp as [->|Hp].
  - split; [by apply record_at_entry|]. rewrite !length_app, record_bytes_length. simpl. lia.
  - rewrite <- length_app in Hp. rewrite (assoc_L (++)). by apply IH.
Qed.

Lemma no_duplicate records : NoDup (map r_name records) → no_adjacent_duplicate records = true.
Proof.
  induction records as [|a [|b l] IH]; intros Hn; [done..|]. cbn [map] in Hn.
  apply list.NoDup_cons in Hn as [Ha Hn]. change (negb (bytes_eqb (r_name a) (r_name b)) && no_adjacent_duplicate (b :: l) = true).
  rewrite IH by done. destruct (bytes_eqb _ _) eqn:E; [|done].
  apply bytes_eqb_eq in E. destruct Ha. rewrite E. by left.
Qed.

(** The bound on the offsets bounds the number of entries. *)
Lemma entries_count l :
  Forall entry_ok l → (13 * length l ≤ length (records_bytes l))%nat.
Proof.
  induction 1 as [|e l [_ Hd _] Hl IH]; [done|]. rewrite records_bytes_cons, length_app, record_bytes_length.
  simpl. lia.
Qed.

(** A definition carries the id its bytes show. *)
Lemma bind_Ok {A B} (r : reader A) (k : A → reader B) raw i b j :
  rd_bind r k raw i = Ok (b, j) → ∃ a i', r raw i = Ok (a, i') ∧ k a raw i' = Ok (b, j).
Proof. unfold rd_bind. destruct (r raw i) as [[a i']|]; [|done]. intros. by exists a, i'. Qed.

Lemma read_i32_Ok raw i z j :
  read_i32 raw i = Ok (z, j) → z = i32_from_be (take 4 (drop i raw)) ∧ j = (i + 4)%nat ∧ (4 ≤ length raw - i)%nat.
Proof.
  unfold read_i32. intros (b & i' & Hb & [= <- <-])%bind_Ok. unfold take_bytes in Hb.
  case_match; [done|]. injection Hb as <- <-. bool_hyps. done.
Qed.

Lemma parsed_id raw d : from_bytes_without_raw raw = Ok d → def_id_at raw = Some (def_id d).
Proof.
  unfold from_bytes_without_raw, from_bytes_inner, def_id_at. intros H.
  destruct (read_def _ raw 0%nat) as [[d' j]|] eqn:E; [|done]. injection H as ->.
  apply bind_Ok in E as (h & i & Hh & E). apply bind_Ok in E as (f & i' & _ & [= <- _]).
  apply bind_Ok in Hh as (parent & i0 & Hp & Hh). apply read_i32_Ok in Hp as (_ & -> & _).
  apply bind_Ok in Hh as (id & i1 & Hid & Hh). apply read_i32_Ok in Hid as (-> & -> & Hlen).
  do 4 apply bind_Ok in Hh as (? & ? & _ & Hh). injection Hh as <- _. simpl.
  unfold get_range. by rewrite (proj2 (Nat.leb_le 8 _)) by lia.
Qed.

#[export] Instance ordinal_total records : TotalOrder (ordinal_le records).
Proof.
  split; unfold ordinal_le; intros a b; [|intros c];
    rewrite ?orb_true_iff, ?andb_true_iff, ?orb_false_iff, ?andb_false_iff, ?Z.ltb_lt, ?Z.ltb_ge,
      ?Z.eqb_eq, ?Z.eqb_neq, ?Nat.leb_le, ?Nat.leb_gt; lia.
Qed.

Section Generated.
Context (l : list Entry) (Hl : entries_ok l).

(** The entries in name order, each with its offset. *)
Definition placed : list (Entry * nat) := sort_by (λ a b, name_le a.1 b.1) (placed_from 0 l).

Definition sorted : list Entry := sort_by name_le l.

Definition map_records : list MapRecord := map record_of placed.

Definition id_order : list nat := sort_by (ordinal_le map_records) (seq 0 (length l)).

Lemma placed_entries : map fst placed = sorted.
Proof. unfold placed, sorted. rewrite (sort_by_map _ name_le) by done. by rewrite map_fst_placed. Qed.

Lemma placed_length : length placed = length l.
Proof. rewrite <- (length_map fst), placed_entries. apply sort_by_length. Qed.

Lemma map_records_length : length map_records = length l.
Proof. unfold map_records. by rewrite length_map, placed_length. Qed.

Lemma map_records_names : map r_name map_records = map full_name sorted.
Proof. unfold map_records. by rewrite <- placed_entries, !map_map. Qed.

Lemma sorted_names_nodup : NoDup (map full_name sorted).
Proof. unfold sorted. by rewrite (sort_by_perm name_le l); apply Hl. Qed.

Lemma raw_length : Z.of_nat (length (push_entries l)) < 2 ^ 32.
Proof. apply Hl. Qed.

Lemma count_bound : Z.of_nat (length l) ≤ EMPTY.
Proof.
  pose proof raw_length as H. rewrite push_entries_eq in H.
  pose proof (entries_count l (each_ok l Hl)). unfold EMPTY. lia.
Qed.

Lemma scanned : scan_records (length (push_entries l)) (push_entries l) 0 = Some (map record_of (placed_from 0 l)).
Proof.
  rewrite push_entries_eq. apply (scan_records_at _ [] l); [apply Hl | done].
Qed.

Lemma sorted_records : sort_by record_le (map record_of (placed_from 0 l)) = map_records.
Proof. unfold map_records, placed. by rewrite (sort_by_map _ record_le). Qed.

(** What stands at an ordinal. *)
Lemma placed_at o e : sorted !! o = Some e →
  ∃ off, placed !! o = Some (e, off) ∧ e ∈ l
    ∧ record_at (push_entries l) off = Some (full_name e, def_bytes e, off + length (record_bytes e))%nat
    ∧ in_u32 (Z.of_nat off).
Proof.
  rewrite <- placed_entries. intros H. apply list_lookup_fmap_Some in H as ([e' off] & -> & Ho).
  exists off. apply list_elem_of_lookup_2 in Ho as Hin. unfold placed in Hin. rewrite elem_of_sort_by in Hin.
  destruct (placed_read [] l (e', off)) as [Hr Hlt]; [apply Hl|done|]. rewrite push_entries_eq.
  pose proof raw_length as Hb. rewrite push_entries_eq in Hb. simpl in Hr, Hlt. split_and!; [done| |done|width].
  rewrite <- (map_fst_placed 0 l). by apply list_elem_of_fmap_2'  with (e', off).
Qed.

Lemma sorted_lookup_id o e : sorted !! o = Some e → record_id map_records o = entry_id e.
Proof.
  intros (off & Ho & _)%placed_at. unfold record_id, map_records. by rewrite list_lookup_fmap, Ho.
Qed.

(** The index read back from the blob, its parts named. *)
Definition index (table : list Z) : PropIndex :=
  mk_index (push_entries l) (be32_table (map (λ r, Z.of_nat (r_offset r)) map_records))
    (be32_table (map Z.of_nat id_order)) (be32_table table) (length l).

Lemma raw_at table o e : sorted !! o = Some e → raw (index table) o = Some (full_name e, def_bytes e).
Proof.
  intros (off & Ho & _ & Hr & Hb)%placed_at. unfold raw. simpl.
  rewrite (be32_table_lookup _ o (Z.of_nat off)); [|unfold map_records; by rewrite !list_lookup_fmap, Ho|done].
  simpl. by rewrite Nat2Z.id, Hr.
Qed.
Lemma entry_id_range o e : sorted !! o = Some e → (o < length l)%nat.
Proof. intros H%lookup_lt_Some. unfold sorted in H. by rewrite sort_by_length in H. Qed.

Lemma sorted_ok o e : sorted !! o = Some e → entry_ok e.
Proof.
  intros (_ & _ & Hin & _)%placed_at. pose proof (each_ok l Hl) as H. rewrite list.Forall_forall in H.
  by apply H.
Qed.

Lemma id_at_index table o e : sorted !! o = Some e → id_at (index table) o = Some (entry_id e).
Proof.
  intros H. unfold id_at. rewrite (raw_at table o e H). simpl. by eapply def_id_at_entry, sorted_ok.
Qed.

Lemma slots_value : l ≠ [] → ∃ k, hash_slots (length l) = (2 ^ k)%nat ∧ (length l < 2 ^ k)%nat.
Proof.
  intros Hne. assert (0 < length l)%nat by (destruct l; simpl; [done|lia]). exists (Nat.log2_up (length l * 2)).
  split; [by destruct (length l); [lia|]|].
  pose proof (Nat.log2_up_spec (length l * 2) ltac:(lia)). lia.
Qed.

(** The table [write_propmap_bin] fills, and what [find] needs of it. *)
Lemma filled : ∃ table,
  fill_table (hash_slots (length l)) (replicate (hash_slots (length l)) EMPTY) 0 (map r_name map_records)
    = Some table ∧ length table = hash_slots (length l) ∧ Forall in_u32 table
  ∧ (l ≠ [] → ∃ k, (length l < 2 ^ k)%nat ∧ table_ok k (map full_name sorted) table (length l)).
Proof.
  rewrite map_records_names.
  assert (Hnames : length (map full_name sorted) = length l)
    by (rewrite length_map; apply sort_by_length).
  destruct (decide (l = [])) as [E|Hne].
  - exists []. unfold sorted. rewrite E. split_and!; done.
  - destruct (slots_value Hne) as (k & -> & Hk). pose proof count_bound.
    destruct (fill_table_ok k (map full_name sorted) (map full_name sorted) (replicate (2 ^ k) EMPTY) 0)
      as (table & Hf & Ht); [apply empty_table_ok|done|lia|lia|].
    rewrite Hnames in Ht. exists table. split_and!; [done|by eapply table_length| |].
    + by eapply table_u32.
    + intros _. by exists k.
Qed.

Lemma offsets_length : length (be32_table (map (λ r, Z.of_nat (r_offset r)) map_records)) = (length l * 4)%nat.
Proof. rewrite be32_table_length, length_map, map_records_length. lia. Qed.

Lemma by_id_length : length (be32_table (map Z.of_nat id_order)) = (length l * 4)%nat.
Proof. unfold id_order. rewrite be32_table_length, length_map, sort_by_length, length_seq. lia. Qed.

Lemma generated : ∃ table blob,
  write_propmap_bin (push_entries l) = Some blob ∧ new blob = Some (index table) ∧ Forall in_u32 table
  ∧ length table = hash_slots (length l)
  ∧ (l ≠ [] → ∃ k, (length l < 2 ^ k)%nat ∧ table_ok k (map full_name sorted) table (length l)).
Proof.
  destruct filled as (table & Hf & Hlen & Hu & Hk). exists table.
  unfold write_propmap_bin. rewrite scanned.
  pose proof (count_entries_at (length (push_entries l)) [] l 0 (each_ok l Hl)) as Hc.
  rewrite push_entries_eq in Hc |- *. simpl in Hc. rewrite Hc by done. rewrite <- push_entries_eq. cbn [mbind option_bind].
  rewrite sorted_records, map_records_length.
  rewrite no_duplicate by (rewrite map_records_names; apply sorted_names_nodup).
  replace (if bool_decide (map_records = []) then 0%nat else next_power_of_two (length l * 2))
    with (hash_slots (length l)).
  2:{ rewrite <- map_records_length. case_bool_decide as E; [by rewrite E|]. by destruct map_records. }
  rewrite Hf. cbn [mbind option_bind]. eexists. split; [done|]. split; [|done].
  pose proof raw_length as Hraw. pose proof count_bound as Hcount. unfold EMPTY in Hcount.
  set (raw_ := push_entries l) in *. unfold new.
  fold id_order. set (offs := be32_table (map _ map_records)). set (ids := be32_table (map Z.of_nat id_order)).
  set (slots := be32_table table).
  assert (Hos : length offs = (length l * 4)%nat) by apply offsets_length.
  assert (Hids : length ids = (length l * 4)%nat) by apply by_id_length.
  assert (Hsl : length slots = (hash_slots (length l) * 4)%nat) by (unfold slots; rewrite be32_table_length, Hlen; lia).
  set (blob := str "WPM2" ++ _).
  assert (Hblob : length blob = (12 + length raw_ + length l * 8 + hash_slots (length l) * 4)%nat).
  { unfold blob. rewrite !length_app, !to_be_length, Hos, Hids, Hsl. change (length (str "WPM2")) with 4%nat. lia. }
  rewrite (proj2 (Nat.leb_le _ _)) by (rewrite Hblob; unfold HEADER_LEN; lia).
  replace (bytes_eqb (take 4 blob) MAGIC) with true by (symmetry; by apply bytes_eqb_eq). cbn [andb].
  assert (get_range blob 4 (4 + 4) = Some (to_be 4 (Z.of_nat (length l)))) as H4.
  { eapply (get_range_at _ (str "WPM2")); reflexivity. }
  assert (get_range blob 8 (8 + 4) = Some (to_be 4 (Z.of_nat (length raw_)))) as H8.
  { eapply (get_range_at _ (str "WPM2" ++ to_be 4 (Z.of_nat (length l)))); reflexivity. }
  unfold be32. rewrite H4, H8.
  cbn [fmap option_fmap option_map mbind option_bind].
  rewrite !u32_round by width. rewrite !Nat2Z.id, (proj2 (Nat.eqb_eq _ _)) by done.
  replace (drop HEADER_LEN blob) with (raw_ ++ offs ++ ids ++ slots) by done.
  unfold split_at. rewrite take_app_length, drop_app_length, <- Hos, take_app_length, drop_app_length.
  rewrite Hos, <- Hids, take_app_length, drop_app_length. done.
Qed.
(** Lookup by name, through the whole blob. *)
Lemma find_index table :
  Forall in_u32 table → length table = hash_slots (length l) →
  (l ≠ [] → ∃ k, (length l < 2 ^ k)%nat ∧ table_ok k (map full_name sorted) table (length l)) →
  (∀ o e, sorted !! o = Some e → find (index table) (full_name e) = Some (Some o))
  ∧ (∀ nm, nm ∉ map full_name l → find (index table) nm = Some None).
Proof.
  intros Hu Hlen Hk. destruct (decide (l = [])) as [E|Hne].
  - unfold sorted. rewrite E in Hlen |- *. split; [done|]. intros nm _. unfold find. simpl.
    apply nil_length_inv in Hlen as ->. done.
  - destruct (Hk Hne) as (k & Hroom & Ht).
    assert (Hn : length (map full_name sorted) = length l) by (rewrite length_map; apply sort_by_length).
    assert (Hraw : ∀ o nm, map full_name sorted !! o = Some nm → ∃ d, raw (index table) o = Some (nm, d)).
    { intros o nm H. apply list_lookup_fmap_Some in H as (e & -> & He). exists (def_bytes e). by apply raw_at. }
    rewrite <- Hn in Ht, Hroom. pose proof count_bound as Hc. rewrite <- Hn in Hc. split.
    + intros o e He. eapply (find_hit k _ (map full_name sorted) table); try done.
      * apply sorted_names_nodup.
      * by rewrite list_lookup_fmap, He.
    + intros nm Hnm. eapply (find_miss k _ (map full_name sorted) table); try done.
      unfold sorted. by rewrite (sort_by_perm name_le l).
Qed.

(** What [iter] and [by_id] yield for an entry. *)
Definition yields (e : Entry) (p : list byte * WingNodeDef) : Prop :=
  p.1 = full_name e ∧ from_bytes_without_raw (def_bytes e) = Ok p.2.

Lemma def_at table o e d :
  sorted !! o = Some e → from_bytes_without_raw (def_bytes e) = Ok d → def (index table) o = Some d.
Proof.
  intros Ho Hd. unfold def. simpl. apply entry_id_range in Ho as Hlt.
  rewrite (proj2 (Nat.ltb_lt _ _) Hlt), (raw_at table o e Ho). simpl. by rewrite Hd.
Qed.

Lemma item_at table o e p : sorted !! o = Some e → yields e p → item (index table) o = Some p.
Proof.
  intros Ho [H1 H2]. unfold item, name. rewrite (raw_at table o e Ho). simpl.
  rewrite (name_utf8 e (sorted_ok o e Ho)). simpl. rewrite (def_at table o e _ Ho H2). destruct p. simpl in *. by subst.
Qed.

Lemma yields_id e p : entry_ok e → yields e p → entry_id e = def_id p.2.
Proof. intros He [_ Hp%parsed_id]. rewrite def_id_at_entry in Hp by done. congruence. Qed.

(** Everything in name order, and everything with one id in name order. *)
Lemma items_selected table items (P : list byte * WingNodeDef → Prop) `{∀ x, Decision (P x)}
    (Q : nat → Prop) `{∀ x, Decision (Q x)} :
  Forall2 yields sorted items → (∀ o p, items !! o = Some p → Q o ↔ P p) →
  mapM (item (index table)) (filter Q (seq 0 (length l))) = Some (filter P items).
Proof.
  intros Hi HQ. replace (length l) with (length items).
  2:{ rewrite <- (list.Forall2_length _ _ _ Hi). apply sort_by_length. }
  rewrite (mapM_selected P Q _ id); [by rewrite map_id|]. intros o p Hp. simpl. split; [|by apply HQ].
  destruct (list.Forall2_lookup_r _ _ _ _ _ Hi Hp) as (e & He & Hy). by eapply item_at.
Qed.

(** *** The run of one id *)

Definition rid (o : nat) : Z := record_id map_records o.

Lemma id_order_sorted : StronglySorted (λ a b, ordinal_le map_records a b = true) id_order.
Proof.
  apply (sort_by_sorted (ordinal_le map_records)).
Qed.

Lemma sorted_weaken {A} (R R' : A → A → Prop) l' :
  (∀ a b, R a b → R' a b) → StronglySorted R l' → StronglySorted R' l'.
Proof. intros HR. induction 1 as [|a l0 Hs IH Ha]; constructor; [done|]. eapply list.Forall_impl; [exact Ha|]. eauto. Qed.

Lemma sorted_filter {A} (R R' : A → A → Prop) (P : A → Prop) `{∀ x, Decision (P x)} l' :
  (∀ a b, P a → P b → R a b → R' a b) → StronglySorted R l' → StronglySorted R' (filter P l').
Proof.
  intros HR. induction 1 as [|a l' Hs IH Ha]; [constructor|]. rewrite list.filter_cons.
  case_decide; [|done]. constructor; [done|]. apply list.Forall_forall. intros b Hb.
  apply list.list_elem_of_filter in Hb as [? Hb]. rewrite list.Forall_forall in Ha. eauto.
Qed.

Lemma id_run id :
  filter (λ o, rid o = id) id_order = filter (λ o, rid o = id) (seq 0 (length l)).
Proof.
  eapply (StronglySorted_unique le).
  - eapply sorted_filter, id_order_sorted. intros a b Ha Hb. unfold ordinal_le. fold (rid a) (rid b).
    rewrite Ha, Hb, Z.ltb_irrefl, Z.eqb_refl. simpl. by rewrite Nat.leb_le.
  - eapply sorted_filter; [by intros a b _ _ ?|]. apply Sorted_StronglySorted; [intros ???; lia|].
    generalize 0%nat as i, (length l) as n. intros i n. revert i. induction n as [|n IH]; intros i; simpl; [done|].
    constructor; [done|]. destruct n; simpl; constructor. lia.
  - unfold id_order. by rewrite (sort_by_perm _ (seq 0 (length l))).
Qed.

Lemma ordinal_at table k o : id_order !! k = Some o → ordinal (index table) k = Some o ∧ (o < length l)%nat.
Proof.
  intros Hk. apply list_elem_of_lookup_2 in Hk as Hin. unfold id_order in Hin.
  rewrite elem_of_sort_by in Hin. apply elem_of_seq in Hin as [_ Hlt]. simpl in Hlt. split; [|done].
  unfold ordinal. simpl. pose proof count_bound. unfold EMPTY in *.
  rewrite (be32_table_lookup _ k (Z.of_nat o)); [simpl; by rewrite Nat2Z.id| |width].
  by rewrite list_lookup_fmap, Hk.
Qed.

Lemma probe_id table k o (p : Z → bool) :
  id_order !! k = Some o →
  (o ← ordinal (index table) k; i ← id_at (index table) o; Some (p i)) = Some (p (rid o)).
Proof.
  intros Hk. destruct (ordinal_at table k o Hk) as [-> Hlt]. simpl.
  assert (∃ e, sorted !! o = Some e) as [e He].
  { apply lookup_lt_is_Some_2. unfold sorted. by rewrite sort_by_length. }
  rewrite (id_at_index table o e He). simpl. unfold rid. by rewrite (sorted_lookup_id o e).
Qed.

Lemma partition_ids table (p : Z → bool) l1 l2 :
  id_order = l1 ++ l2 → Forall (λ o, p (rid o) = true) l1 → Forall (λ o, p (rid o) = false) l2 →
  partition_point (length l) (λ k, o ← ordinal (index table) k; i ← id_at (index table) o; Some (p i))
  = Some (length l1).
Proof.
  intros E H1 H2. rewrite list.Forall_lookup in H1, H2.
  assert (Hlen : length l = (length l1 + length l2)%nat).
  { rewrite <- length_app, <- E. unfold id_order. by rewrite sort_by_length, length_seq. }
  apply partition_point_ok; [lia| |]; intros i Hi.
  - destruct (lookup_lt_is_Some_2 l1 i Hi) as [o Ho]. rewrite (probe_id table i o).
    + f_equal. by eapply H1.
    + rewrite E. by apply lookup_app_l_Some.
  - destruct (lookup_lt_is_Some_2 l2 (i - length l1)) as [o Ho]; [lia|]. rewrite (probe_id table i o).
    + f_equal. by eapply H2.
    + rewrite E, lookup_app_r by lia. done.
Qed.

Lemma by_id_index table items id :
  Forall2 yields sorted items →
  by_id (index table) id = Some (match filter (λ p, def_id p.2 = id) items with [] => None | ps => Some ps end).
Proof.
  intros Hi.
  assert (E : id_order = filter (λ o, rid o < id) id_order ++ filter (λ o, rid o = id) id_order
                         ++ filter (λ o, id < rid o) id_order).
  { apply sorted_split. eapply sorted_weaken, id_order_sorted. intros a b. unfold ordinal_le. fold (rid a) (rid b).
    rewrite orb_true_iff, andb_true_iff, Z.ltb_lt, Z.eqb_eq. lia. }
  set (l1 := filter (λ o, rid o < id) id_order) in *. set (l2 := filter (λ o, rid o = id) id_order) in *.
  set (l3 := filter (λ o, id < rid o) id_order) in *.
  assert (H1 : Forall (λ o, rid o < id) l1) by apply filter_all.
  assert (H2 : Forall (λ o, rid o = id) l2) by apply filter_all.
  assert (H3 : Forall (λ o, id < rid o) l3) by apply filter_all.
  unfold by_id, len. simpl.
  rewrite (partition_ids table (λ i, i <? id) l1 (l2 ++ l3) E).
  2:{ eapply list.Forall_impl; [exact H1|]. intros o ?. by apply Z.ltb_lt. }
  2:{ apply list.Forall_app. split; (eapply list.Forall_impl; [eassumption|]); intros o Ho; cbv beta in *; apply Z.ltb_ge; lia. }
  simpl. rewrite (partition_ids table (λ i, i <=? id) (l1 ++ l2) l3).
  2:{ by rewrite <- (assoc_L (++)). }
  2:{ apply list.Forall_app. split; (eapply list.Forall_impl; [eassumption|]); intros o Ho; cbv beta in *; apply Z.leb_le; lia. }
  2:{ eapply list.Forall_impl; [exact H3|]. intros o ?. by apply Z.leb_gt. }
  simpl. rewrite length_app. replace (length l1 + length l2 - length l1)%nat with (length l2) by lia.
  assert (Hrun : mapM (item (index table)) l2 = Some (filter (λ p, def_id p.2 = id) items)).
  { unfold l2. rewrite id_run. apply items_selected; [done|]. intros o p Hp.
    destruct (list.Forall2_lookup_r _ _ _ _ _ Hi Hp) as (e & He & Hy). unfold rid.
    rewrite (sorted_lookup_id o e He), (yields_id e p (sorted_ok o e He) Hy). done. }
  rewrite (mapM_run (ordinal (index table)) (item (index table)) l2 (length l1)), Hrun.
  2:{ intros j o Hj. apply ordinal_at. rewrite E, lookup_app_r by lia.
      rewrite Nat.add_comm, Nat.add_sub. by apply lookup_app_l_Some. }
  apply length_mapM in Hrun. destruct (filter _ items); simpl in *.
  - rewrite (proj2 (Nat.ltb_ge _ _)); [done|lia].
  - rewrite (proj2 (Nat.ltb_lt _ _)); [done|lia].
Qed.
Lemma iter_index table items :
  Forall2 yields sorted items → iter (index table) = Some items.
Proof.
  intros Hi. pose proof (items_selected table items (λ _, True) (λ _, True) Hi ltac:(done)) as H.
  by rewrite !filter_true in H.
Qed.

Lemma get_index table e d :
  Forall in_u32 table → length table = hash_slots (length l) →
  (l ≠ [] → ∃ k, (length l < 2 ^ k)%nat ∧ table_ok k (map full_name sorted) table (length l)) →
  e ∈ l → from_bytes_without_raw (def_bytes e) = Ok d →
  get (index table) (full_name e) = Some (Some d) ∧ id_of (index table) (full_name e) = Some (Some (def_id d)).
Proof.
  intros Hu Hlen Hk He Hd. destruct (find_index table Hu Hlen Hk) as [Hf _].
  rewrite <- (elem_of_sort_by name_le) in He. apply list_elem_of_lookup_1 in He as [o Ho].
  unfold get, id_of. rewrite (Hf o e Ho). simpl. rewrite (def_at table o e d Ho Hd), (id_at_index table o e Ho).
  simpl. rewrite (yields_id e (full_name e, d) (sorted_ok o e Ho)); done.
Qed.

End Generated.

(** ** Properties *)

(** C16: an index over a generated blob answers a lookup by name as the list of entries does:
    for every entry whose definition parses, [get] yields that definition and [id_of] its
    id; for any other name both report nothing.  No lookup panics or runs out of slots. *)
Theorem propmap_lookup l :
  entries_ok l →
  ∃ blob ix, write_propmap_bin (push_entries l) = Some blob ∧ new blob = Some ix ∧ len ix = length l
  ∧ (∀ e d, e ∈ l → from_bytes_without_raw (def_bytes e) = Ok d →
       get ix (full_name e) = Some (Some d) ∧ id_of ix (full_name e) = Some (Some (def_id d)))
  ∧ (∀ nm, nm ∉ map full_name l → get ix nm = Some None ∧ id_of ix nm = Some None).
Proof.
  intros Hl. destruct (generated l Hl) as (table & blob & Hw & Hn & Hu & Hlen & Hk).
  exists blob, (index l table). split_and!; [done..| |].
  - intros e d. by apply get_index.
  - intros nm Hnm. destruct (find_index l Hl table Hu Hlen Hk) as [_ Hm].
    unfold get, id_of. by rewrite (Hm nm Hnm).
Qed.

(** An index over a generated blob lists its entries in name order, and lists the entries
    of an id, whose definitions the hash table's order scatters, in name order too: nothing
    is missed or repeated, and an id without entries is reported as such. *)
Theorem propmap_by_id l items :
  entries_ok l → Forall2 yields (sort_by name_le l) items →
  ∃ blob ix, write_propmap_bin (push_entries l) = Some blob ∧ new blob = Some ix
  ∧ iter ix = Some items
  ∧ ∀ id, by_id ix id = Some (match filter (λ p, def_id p.2 = id) items with [] => None | ps => Some ps end).
Proof.
  intros Hl Hi. destruct (generated l Hl) as (table & blob & Hw & Hn & Hu & Hlen & Hk).
  exists blob, (index l table). split_and!; [done..| |].
  - by apply iter_index.
  - intros id. by apply by_id_index.
Qed.

(** *** Witnesses *)

Definition sample_entries : list Entry :=
  [mk_swept (b8 1) (str "/ch/2") (wire_bytes sample_fader);
   mk_swept (b8 1) (str "/ch/1") (wire_bytes sample_def)].

Lemma sample_entries_ok : entries_ok sample_entries.
Proof.
  split.
  - each_elem; split; vm_compute; split || reflexivity; discriminate || reflexivity.
  - apply (bool_decide_unpack _). vm_compute. exact I.
  - vm_compute. reflexivity.
Qed.

Lemma propmap_lookup_witness :
  ∃ blob ix, write_propmap_bin (push_entries sample_entries) = Some blob ∧ new blob = Some ix
  ∧ get ix (str "/ch/1") = Some (Some (with_raw [] sample_def)) ∧ id_of ix (str "/ch/3") = Some None.
Proof.
  destruct (propmap_lookup sample_entries sample_entries_ok) as (blob & ix & Hw & Hn & _ & Hget & Hmiss).
  exists blob, ix. split_and!; [exact Hw|exact Hn| |].
  - apply (Hget (mk_swept (b8 1) (str "/ch/1") (wire_bytes sample_def))).
    + right. left.
    + vm_compute. reflexivity.
  - apply Hmiss. apply (bool_decide_unpack _). vm_compute. exact I.
Defined.

Definition sample_items : list (list byte * WingNodeDef) :=
  [(str "/ch/1", with_raw [] sample_def); (str "/ch/2", with_raw [] sample_fader)].

Lemma propmap_by_id_witness :
  ∃ blob ix, write_propmap_bin (push_entries sample_entries) = Some blob ∧ new blob = Some ix
  ∧ iter ix = Some sample_items
  ∧ by_id ix (def_id sample_fader) = Some (Some [(str "/ch/2", with_raw [] sample_fader)])
  ∧ by_id ix (-5) = Some None.
Proof.
  assert (Hi : Forall2 yields (sort_by name_le sample_entries) sample_items).
  { replace (sort_by name_le sample_entries) with (rev sample_entries) by (vm_compute; reflexivity).
    repeat constructor; vm_compute; reflexivity. }
  destruct (propmap_by_id sample_entries sample_items sample_entries_ok Hi)
    as (blob & ix & Hw & Hn & Hit & Hid).
  exists blob, ix. split_and!; [exact Hw|exact Hn|exact Hit| |].
  - rewrite Hid. vm_compute. reflexivity.
  - rewrite Hid. vm_compute. reflexivity.
Defined.
