(* ===== verification/EmbeddedMap.v ===== *)
(** The embedded property map as the crate's other components see it ([src/src/console.rs]:
    [name_to_id], [name_to_def], [propmap_iter], [propmap_len], [id_to_defs_iter]): a class
    of lookups with their laws, and the instance the index over a generated blob gives.
    Clients are proved against the class. *)

From stdpp Require Import sets sorting.
From S2P Require Import Prelude Sort Decimal Bytes Lib Utf8 F32 Cursor NodeDef.
From S2P Require Import PropIndex PropMap.
Local Open Scope Z_scope.

(** ** The interface *)

(** The lookups of [NAME_TO_DEF]. *)
Class EmbeddedMap := {
  map_entries : list (list byte * WingNodeDef);
  defs_by_id : Z → option (list (list byte * WingNodeDef));
  id_by_name : list byte → option Z;
  def_by_name : list byte → option WingNodeDef;
}.

(** What they promise: all four read one list of entries, sorted by distinct names. *)
Class EmbeddedMapLaws (m : EmbeddedMap) : Prop := {
  entries_distinct : NoDup (map fst map_entries);
  entries_in_order : StronglySorted (λ a b, bytes_le a b = true) (map fst map_entries);
  defs_by_id_law id :
    defs_by_id id = match filter (λ p, def_id p.2 = id) map_entries with [] => None | ps => Some ps end;
  def_by_name_law name d : def_by_name name = Some d ↔ (name, d) ∈ map_entries;
  id_by_name_law name : id_by_name name = def_id <$> def_by_name name;
}.

(** ** The lookups *)

Section Lookups.
Context `{EmbeddedMap}.

(** A path, or an id written as a number. *)
Definition name_to_id (fullname : list byte) : option Z :=
  match parse_i32 fullname with Some num => Some num | None => id_by_name fullname end.

Definition name_to_def (fullname : list byte) : option WingNodeDef := def_by_name fullname.
Definition propmap_iter : list (list byte * WingNodeDef) := map_entries.
Definition propmap_len : nat := length map_entries.
Definition id_to_defs_iter (id : Z) : option (list (list byte * WingNodeDef)) := defs_by_id id.
End Lookups.

(** ** Consequences of the laws *)

Section Laws.
Context {m : EmbeddedMap} `{!EmbeddedMapLaws m}.

Lemma defs_by_id_in id l name d : defs_by_id id = Some l → (name, d) ∈ l → (name, d) ∈ map_entries ∧ def_id d = id.
Proof.
  rewrite defs_by_id_law. intros Hl Hin. destruct (filter _ _) as [|p ps] eqn:E; [done|].
  injection Hl as <-. rewrite <- E in Hin. apply list_elem_of_filter in Hin as [Hid Hin]. done.
Qed.

Lemma defs_by_id_nonempty id l : defs_by_id id = Some l → l ≠ [].
Proof. rewrite defs_by_id_law. intros Hl. destruct (filter _ _); [done|]. by injection Hl as <-. Qed.

Lemma defs_by_id_entry name d : (name, d) ∈ map_entries → ∃ l, defs_by_id (def_id d) = Some l ∧ (name, d) ∈ l.
Proof.
  intros Hin. assert (Hf : (name, d) ∈ filter (λ p, def_id p.2 = def_id d) map_entries)
    by (by apply list_elem_of_filter).
  rewrite defs_by_id_law. destruct (filter _ _) as [|p ps] eqn:E; [by apply elem_of_nil in Hf|].
  eexists. split; [done|]. exact Hf.
Qed.

Lemma id_by_name_entry name d : (name, d) ∈ map_entries → id_by_name name = Some (def_id d).
Proof. intros Hin. rewrite id_by_name_law. by rewrite (proj2 (def_by_name_law name d) Hin). Qed.

Lemma id_by_name_Some name id : id_by_name name = Some id → ∃ d, (name, d) ∈ map_entries ∧ def_id d = id.
Proof.
  rewrite id_by_name_law. intros (d & Hd & ->)%fmap_Some. exists d. split; [|done]. by apply def_by_name_law.
Qed.

Lemma defs_by_id_distinct id l : defs_by_id id = Some l → NoDup (map fst l).
Proof.
  rewrite defs_by_id_law. intros Hl. destruct (filter _ _) as [|p ps] eqn:E; [done|]. injection Hl as <-.
  rewrite <- E. clear E. pose proof entries_distinct as Hn. revert Hn. generalize map_entries as es.
  induction es as [|x xs IH]; [done|]. cbn [map]. intros [Hx Hn]%list.NoDup_cons.
  rewrite list.filter_cons. case_decide; [|by apply IH]. cbn [map]. constructor; [|by apply IH].
  intros Hin. apply Hx. apply list_elem_of_fmap in Hin as (y & -> & [_ Hy]%list_elem_of_filter).
  apply list_elem_of_fmap. eauto.
Qed.
End Laws.

(** ** The index as the map *)

(** The lookups of [NAME_TO_DEF] over an index; a lookup that panicked would find nothing,
    which the laws exclude for a generated blob. *)
#[export] Instance index_map (ix : PropIndex) : EmbeddedMap := {
  map_entries := default [] (iter ix);
  defs_by_id id := default None (by_id ix id);
  id_by_name name := default None (id_of ix name);
  def_by_name name := default None (get ix name);
}.

Lemma yields_names l items : Forall2 yields l items → map fst items = map full_name l.
Proof. induction 1 as [|e p l items [H _] _ IH]; [done|]. cbn [map]. by rewrite H, IH. Qed.

Lemma sorted_map {A B} (f : A → B) (R : B → B → Prop) l :
  StronglySorted (λ a b, R (f a) (f b)) l → StronglySorted R (map f l).
Proof.
  induction 1 as [|a l Hs IH Ha]; [constructor|]. cbn [map]. constructor; [done|].
  apply list.Forall_fmap. exact Ha.
Qed.

#[export] Instance name_le_total : TotalOrder name_le.
Proof.
  split; unfold name_le; intros a b; [apply (le_total bytes_le)|intros c; apply (le_trans bytes_le)].
Qed.

Lemma generated_map_laws l items ix :
  entries_ok l → Forall2 yields (sort_by name_le l) items →
  len ix = length l →
  iter ix = Some items →
  (∀ id, by_id ix id = Some (match filter (λ p, def_id p.2 = id) items with [] => None | ps => Some ps end)) →
  (∀ e d, e ∈ l → from_bytes_without_raw (def_bytes e) = Ok d →
     get ix (full_name e) = Some (Some d) ∧ id_of ix (full_name e) = Some (Some (def_id d))) →
  (∀ nm, nm ∉ map full_name l → get ix nm = Some None ∧ id_of ix nm = Some None) →
  EmbeddedMapLaws (index_map ix).
Proof.
  intros Hl Hi _ Hit Hid Hget Hmiss.
  assert (Hnames : map fst items = map full_name (sort_by name_le l)) by (by apply yields_names).
  pose (m := index_map ix). assert (Hent : @map_entries m = items) by (cbn; by rewrite Hit).
  assert (Hlook : ∀ name, @def_by_name m name = None ∧ @id_by_name m name = None ∧ name ∉ map fst items
      ∨ ∃ d, (name, d) ∈ items ∧ @def_by_name m name = Some d ∧ @id_by_name m name = Some (def_id d)).
  { intros name. destruct (decide (name ∈ map fst items)) as [Hin|Hin].
    - right. apply list_elem_of_fmap in Hin as ([n d] & -> & Hin).
      destruct (list_elem_of_lookup_1 _ _ Hin) as [i Hp].
      destruct (list.Forall2_lookup_r _ _ _ _ _ Hi Hp) as (e & He & [H1 H2]). cbn in H1, H2. subst n.
      apply list_elem_of_lookup_2 in He. rewrite elem_of_sort_by in He.
      destruct (Hget e d He H2) as [Hg Ho]. exists d. split; [done|]. cbn. by rewrite Hg, Ho.
    - left. assert (Hm : name ∉ map full_name l).
      { rewrite Hnames in Hin. intros Hx. apply Hin. apply list_elem_of_fmap in Hx as (e & -> & He).
        apply list_elem_of_fmap. exists e. by rewrite elem_of_sort_by. }
      destruct (Hmiss name Hm) as [Hg Ho]. cbn. by rewrite Hg, Ho. }
  assert (Hnd : NoDup (map fst items)).
  { rewrite Hnames. rewrite (sort_by_perm name_le l). apply names_distinct. done. }
  change (EmbeddedMapLaws m). split.
  - by rewrite Hent.
  - rewrite Hent, Hnames. apply sorted_map. apply (sort_by_sorted name_le).
  - intros id. rewrite Hent. cbn. by rewrite Hid.
  - intros name d. rewrite Hent. destruct (Hlook name) as [(-> & _ & Hn)|(d' & Hin & -> & _)].
    + split; [done|]. intros Hin. destruct Hn. apply list_elem_of_fmap. by exists (name, d).
    + split; [by intros [= <-]|]. intros Hin2. f_equal.
      destruct (list_elem_of_lookup_1 _ _ Hin) as [i Hi1], (list_elem_of_lookup_1 _ _ Hin2) as [j Hj].
      assert (i = j) as ->; [|congruence].
      eapply (NoDup_lookup (map fst items)); [done|by rewrite list_lookup_fmap, Hi1|by rewrite list_lookup_fmap, Hj].
  - intros name. destruct (Hlook name) as [(-> & -> & _)|(d' & _ & -> & ->)]; done.
Qed.

(** The map the generator writes has the laws. *)
Lemma generated_map l items :
  entries_ok l → Forall2 yields (sort_by name_le l) items →
  ∃ blob ix, write_propmap_bin (push_entries l) = Some blob ∧ new blob = Some ix
    ∧ EmbeddedMapLaws (index_map ix) ∧ @map_entries (index_map ix) = items.
Proof.
  intros Hl Hi. destruct (generated l Hl) as (table & blob & Hw & Hn & Hu & Hlen & Hk).
  exists blob, (index l table). split; [done|]. split; [done|].
  split; [|change (default [] (iter (index l table)) = items); by rewrite (iter_index l Hl table items Hi)].
  apply (generated_map_laws l items); try done.
  - by apply iter_index.
  - intros id. by apply by_id_index.
  - intros e d. by apply get_index.
  - intros nm Hnm. destruct (find_index l Hl table Hu Hlen Hk) as [_ Hm].
    unfold get, id_of. by rewrite (Hm nm Hnm).
Qed.
