(* ===== verification/Dump.v ===== *)
(** Snapshots ([src/src/console.rs]: [dump_subtree], [dumpable_leaves],
    [path_matches_active_models], [dump_value], [dump_get]): reading the writable values of a
    subtree, restricted to the active models, over the attended reads of a session and the
    interface of the embedded map.

    A clone that waits to reconnect is the environment: [asked] says, one look per request,
    whether one does (none once the list is used up). *)

From stdpp Require Import gmap sorting.
From S2P Require Import Prelude Sort Text Bytes Lib Utf8 F32 Cursor NodeDef.
From S2P Require Import NodeData Channel Meter NativeRequest NativeResponse ClientMessages ResponseReader.
From S2P Require Import ClientReader Attended BinaryValues Writes PropIndex PropMap EmbeddedMap.
Local Open Scope Z_scope.
Local Open Scope rust_scope.

(** ** Data *)

Record ActiveModel := mk_model { parent : list byte; definition : WingNodeDef; selected : NodeValue }.

Record NodeDump := mk_dump { entries : list DumpEntry; unknown_models : list (list byte) }.

(** A session, and the looks at the waiting reconnects. *)
Record Dumping := mk_dumping { session : Session; asked : list bool }.

Abbreviation Sweeping A := (M Dumping Stop A).

(** ** Helpers *)

Definition mdl : list byte := str "/mdl".

(** The selector's item that names the branch of a path below it: the longest one, the last
    of those of one length, as [max_by_key] keeps it. *)
Fixpoint longest_item (best : option StringEnumItem) (items : list StringEnumItem) : option StringEnumItem :=
  match items with
  | [] => best
  | it :: items =>
    let best' :=
      match best with
      | Some b => if (length (si_item b) <=? length (si_item it))%nat then Some it else Some b
      | None => Some it
      end in
    longest_item best' items
  end.

Definition names_branch (relative : list byte) (it : StringEnumItem) : bool :=
  bytes_eqb relative (si_item it)
  || match strip_prefix relative (si_item it) with Some suffix => starts_with suffix [slash] | None => false end.

(** What the selector says of a path below its slot. *)
Definition branch_active (model : ActiveModel) (relative : list byte) : bool :=
  match (items ← def_string_enum (definition model);
         longest_item None (filter (λ it, names_branch relative it = true) items)) with
  | Some it => match selected model with NodeValues.String name => bytes_eqb name (si_item it) | _ => false end
  | None => true
  end.

Definition path_matches_active_models (path : list byte) (models : list ActiveModel) : bool :=
  forallb (λ model,
    match (suffix ← strip_prefix path (parent model); strip_prefix suffix [slash]) with
    | None => true
    | Some relative => branch_active model relative
    end) models.

Definition dump_value (data : WingNodeData) (def : WingNodeDef) : Result NodeValue :=
  if bool_decide (def_node_type def ≠ NodeTypes.StringEnum) then Ok (from_data data)
  else
    match def_string_enum def with
    | None => Err InvalidData
    | Some _ =>
      Ok (match string_enum_item data def with
          | Some item => NodeValues.String item
          | None => from_data data
          end)
    end.

(** [PartialEq] of [NodeValue]: floats compare as IEEE numbers. *)
Definition node_value_eqb (a b : NodeValue) : bool :=
  match a, b with
  | NodeValues.String x, NodeValues.String y => bytes_eqb x y
  | NodeValues.Float x, NodeValues.Float y => f32_eqb x y
  | NodeValues.Int x, NodeValues.Int y => x =? y
  | _, _ => false
  end.

Definition under_root (root name : list byte) : bool :=
  bytes_eqb name root || starts_with name (root ++ [slash]).

Definition dumpable (root : list byte) (c : list byte * WingNodeDef) : bool :=
  negb (bool_decide (def_node_type c.2 = NodeTypes.Node)) && negb (def_read_only c.2) && under_root root c.1.

Definition leaf_le (a b : list byte * Z) : bool := bytes_le a.1 b.1.

Definition dumpable_leaves (l : list (list byte * WingNodeDef)) (root : list byte) : list (list byte * Z) :=
  sort_by leaf_le (map (λ c, (c.1, def_id c.2)) (filter (λ c, dumpable root c = true) l)).

(** A model selector at, above or below the root. *)
Definition selects (root : list byte) (c : list byte * WingNodeDef) : bool :=
  match strip_suffix c.1 mdl with
  | None => false
  | Some p =>
    bool_decide (def_node_type c.2 = NodeTypes.StringEnum)
    && (bytes_eqb c.1 root || bytes_eqb p root || starts_with p (root ++ [slash]) || starts_with root (p ++ [slash]))
  end.

(** Outermost first, then by name. *)
Definition selector_le (a b : list byte * WingNodeDef) : bool :=
  (depth a.1 <? depth b.1)%nat || ((depth a.1 =? depth b.1)%nat && bytes_le a.1 b.1).

(** ** The sweep *)

Definition attended {A} (m : Read A) : Sweeping A := λ d,
  let '(r, s) := m (session d) in (r, mk_dumping s (asked d)).

Definition dump_get (id : Z) (timeout : Deadline) : Sweeping WingNodeData := λ d,
  match asked d with
  | true :: later => (Err (Fail Reconnecting), mk_dumping (session d) later)
  | _ =>
    (let! r := attended (get_node_data id timeout) in ret r.1) (mk_dumping (session d) (tail (asked d)))
  end.

Definition fallible_ {A} (r : Result A) : Sweeping A := attended (fallible r).

(** The locals of the first loop. *)
Record Selectors := mk_selectors {
  active_models : list ActiveModel;
  selector_values : gmap (list byte) NodeValue;
  unknown : list (list byte);
}.

(** [fullname.strip_suffix("/mdl").unwrap()] of a selector. *)
Definition slot_of (fullname : list byte) : list byte := default [] (strip_suffix fullname mdl).

Definition read_selector (timeout : Deadline) (w : Selectors) (c : list byte * WingNodeDef) : Sweeping Selectors :=
  let '(fullname, def) := c in
  if negb (path_matches_active_models fullname (active_models w)) then ret w
  else
    let! data := dump_get (def_id def) timeout in
    let! v := fallible_ (dump_value data def) in
    ret (mk_selectors
      (active_models w ++ [mk_model (slot_of fullname) def v])
      (<[fullname := v]> (selector_values w))
      (match string_enum_item data def with None => unknown w ++ [fullname] | Some _ => unknown w end)).

Fixpoint read_selectors (timeout : Deadline) (w : Selectors) (l : list (list byte * WingNodeDef)) : Sweeping Selectors :=
  match l with
  | [] => ret w
  | c :: l => let! w := read_selector timeout w c in read_selectors timeout w l
  end.

Section DumpSubtree.
Context `{EmbeddedMap}.

(** [NAME_TO_DEF.get(fullname).unwrap()]: the leaves are the map's, so the default is never
    used ([leaf_def]). *)
Definition unwrap_def (fullname : list byte) (id : Z) : WingNodeDef :=
  default (make_def (mk_header 0 id 0 [] [] 0) no_fields []) (name_to_def fullname).

Fixpoint read_leaves (timeout : Deadline) (models : list ActiveModel) (values : gmap (list byte) NodeValue)
    (out : list DumpEntry) (leaves : list (list byte * Z)) : Sweeping (list DumpEntry) :=
  match leaves with
  | [] => ret out
  | (fullname, id) :: leaves =>
    if negb (path_matches_active_models fullname models) then read_leaves timeout models values out leaves
    else
      match values !! fullname with
      | Some v => read_leaves timeout models (delete fullname values) (out ++ [mk_entry fullname id v]) leaves
      | None =>
        let! data := dump_get id timeout in
        let! v := fallible_ (dump_value data (unwrap_def fullname id)) in
        read_leaves timeout models values (out ++ [mk_entry fullname id v]) leaves
      end
  end.

Fixpoint recheck (timeout : Deadline) (models : list ActiveModel) : Sweeping unit :=
  match models with
  | [] => ret tt
  | model :: models =>
    let! data := dump_get (def_id (definition model)) timeout in
    let! v := fallible_ (dump_value data (definition model)) in
    if negb (node_value_eqb v (selected model)) then throw (Fail InvalidData) else recheck timeout models
  end.

Definition selectors_of (root : list byte) : list (list byte * WingNodeDef) :=
  sort_by selector_le (filter (λ c, selects root c = true) propmap_iter).

Definition dump_subtree (root : list byte) (timeout : Deadline) : Sweeping NodeDump :=
  let leaves := dumpable_leaves propmap_iter root in
  let! w := read_selectors timeout (mk_selectors [] ∅ []) (selectors_of root) in
  let! out := read_leaves timeout (active_models w) (selector_values w) [] leaves in
  let! _ := recheck timeout (active_models w) in
  ret (mk_dump out (unknown w)).
End DumpSubtree.

(** ** A logic for sweeps *)

(** A sweep in a state it can go on from. *)
Definition dumping_ok (d : Dumping) : Prop := session_ok (session d) ∧ capture (main (session d)) = None.

(** If [m] returns, it took a run of the responses the console sends and satisfies [P] of
    them. *)
Definition answers {A} (m : Sweeping A) (P : list WingResponse → A → Prop) : Prop :=
  ∀ d a d', dumping_ok d → m d = (Ok a, d') →
    dumping_ok d' ∧ ∃ taken, deliver (session d) = taken ++ deliver (session d') ∧ P taken a.

Lemma answers_ret {A} (a : A) (P : list WingResponse → A → Prop) : P [] a → answers (ret a) P.
Proof. intros HP d a' d' Hd [= <- <-]. split; [done|]. by exists []. Qed.

Lemma answers_throw {A} e (P : list WingResponse → A → Prop) : answers (throw e) P.
Proof. by intros d a d' _ [=]. Qed.

Lemma answers_bind {A B} (m : Sweeping A) (k : A → Sweeping B) P (Q : A → list WingResponse → B → Prop) R :
  answers m P → (∀ a, answers (k a) (Q a)) →
  (∀ t1 t2 a b, P t1 a → Q a t2 b → R (t1 ++ t2) b) → answers (bind m k) R.
Proof.
  intros Hm Hk HR d b d' Hd H. unfold bind in H. destruct (m d) as [[a|e] d1] eqn:E; [|done].
  destruct (Hm d a d1 Hd E) as (Hd1 & t1 & E1 & HP). destruct (Hk a d1 b d' Hd1 H) as (Hd2 & t2 & E2 & HQ).
  split; [done|]. exists (t1 ++ t2). split; [by rewrite E1, E2, (assoc_L (++))|]. by eapply HR.
Qed.

Lemma answers_fallible {A} (r : Result A) : answers (fallible_ r) (λ taken a, taken = [] ∧ r = Ok a).
Proof.
  intros d a d' Hd H. unfold fallible_, attended, fallible in H. destruct r as [x|e]; [|done].
  injection H as <- <-. destruct d. split; [done|]. by exists [].
Qed.

Lemma answers_get id timeout : answers (dump_get id timeout) (λ taken data, WingResponses.NodeData id data ∈ taken).
Proof.
  intros d data d' [Hs Hc] H. unfold dump_get in H.
  assert (Hget : ∀ later, (let! r := attended (get_node_data id timeout) in ret r.1) (mk_dumping (session d) later) = (Ok data, d') →
    dumping_ok d' ∧ ∃ taken, deliver (session d) = taken ++ deliver (session d') ∧ WingResponses.NodeData id data ∈ taken).
  { intros later G. unfold bind, attended in G. cbn [session asked] in G.
    pose proof (get_attended_ok (matches_data id) (request_node_data id) timeout (session d) Hs Hc) as Hok.
    pose proof (get_node_data_capture id timeout (session d) Hs Hc) as Hcap.
    change (attended_ok (matches_data id) (session d) (get_node_data id timeout (session d))) in Hok.
    destruct (get_node_data id timeout (session d)) as [[[x b]|e] s]; [|done].
    unfold ret in G. injection G as <- <-. destruct Hok as (Hs' & _ & resp & Hresp & Hdel). cbn in Hcap.
    split; [done|]. exists (b ++ [resp]). split; [by rewrite Hdel, <- (assoc_L (++))|].
    apply elem_of_app. right. destruct resp as [|def|rid rdata]; cbn in Hresp; try done.
    destruct (Z.eqb_spec rid id); [|done]. injection Hresp as ->. subst. left. }
  destruct (asked d) as [|[] later] eqn:E; [by eapply Hget|done|by eapply Hget].
Qed.

(** A value the console gave for a definition. *)
Definition read_as (taken : list WingResponse) (def : WingNodeDef) (v : NodeValue) : Prop :=
  ∃ data, WingResponses.NodeData (def_id def) data ∈ taken ∧ dump_value data def = Ok v.

Lemma read_as_app taken t1 t2 def v : read_as taken def v → read_as (t1 ++ taken ++ t2) def v.
Proof. intros (data & Hin & Hv). exists data. split; [|done]. rewrite !elem_of_app. auto. Qed.

Lemma read_as_left t1 t2 def v : read_as t1 def v → read_as (t1 ++ t2) def v.
Proof. apply (read_as_app t1 []). Qed.

Lemma read_as_right t1 t2 def v : read_as t2 def v → read_as (t1 ++ t2) def v.
Proof. intros H. rewrite <- (app_nil_r t2). by apply read_as_app. Qed.

Lemma answers_read id timeout def :
  id = def_id def →
  answers (let! data := dump_get id timeout in let! v := fallible_ (dump_value data def) in ret (data, v))
    (λ taken r, read_as taken def r.2).
Proof.
  intros ->. eapply answers_bind; [apply answers_get| |].
  - intros data. eapply (answers_bind _ _ _ (λ v taken r, taken = [] ∧ r = (data, v))).
    + apply answers_fallible.
    + intros v. by apply answers_ret.
    + intros t1 t2 v r [-> Hv] [-> ->]. instantiate (1 := λ data taken r, taken = [] ∧ dump_value data def = Ok r.2).
      done.
  - intros t1 t2 data r Hin [-> Hv]. exists data. by rewrite app_nil_r.
Qed.

(** ** The selectors *)

Section DumpFacts.
Context {m : EmbeddedMap} `{!EmbeddedMapLaws m}.
Abbreviation Defined_ := (list (list byte * WingNodeDef)).

Definition model_read (l : Defined_) (taken : list WingResponse) (a : ActiveModel) : Prop :=
  ∃ name, (name, definition a) ∈ l ∧ parent a = slot_of name ∧ read_as taken (definition a) (selected a).

Definition value_read (l : Defined_) (taken : list WingResponse) (name : list byte) (v : NodeValue) : Prop :=
  ∃ def, (name, def) ∈ l ∧ read_as taken def v.

(** What the first loop adds. *)
Definition selectors_read (l : Defined_) (w : Selectors) (taken : list WingResponse) (w' : Selectors) : Prop :=
  (∃ new, active_models w' = active_models w ++ new ∧ Forall (model_read l taken) new)
  ∧ (∀ name v, selector_values w' !! name = Some v →
       selector_values w !! name = Some v ∨ value_read l taken name v)
  ∧ (∃ names, unknown w' = unknown w ++ names ∧ Forall (λ n, n ∈ map fst l) names).

Lemma read_selector_answers timeout w c :
  answers (read_selector timeout w c) (selectors_read [c] w).
Proof.
  destruct c as [name def]. unfold read_selector. destruct (negb _).
  - apply answers_ret. split_and!; [exists []; by rewrite app_nil_r| |exists []; by rewrite app_nil_r]. by left.
  - set (k := λ (data : WingNodeData) (v : NodeValue), mk_selectors
      (active_models w ++ [mk_model (slot_of name) def v]) (<[name := v]> (selector_values w))
      (match string_enum_item data def with None => unknown w ++ [name] | Some _ => unknown w end)).
    intros d w' d' Hd H.
    pose proof (answers_read (def_id def) timeout def eq_refl d) as Hr. unfold bind in Hr, H.
    destruct (dump_get (def_id def) timeout d) as [[data|e] d1]; [|done].
    destruct (fallible_ (dump_value data def) d1) as [[v|e] d2]; [|done]. unfold ret in Hr, H.
    destruct (Hr (data, v) d2 Hd eq_refl) as (Hd2 & taken & E & Hv). injection H as <- <-. split; [done|].
    exists taken. split; [done|]. cbn [snd] in Hv. split_and!.
    + eexists. split; [done|]. constructor; [|constructor]. exists name. split_and!; [left|done|done].
    + intros n v' Hn. cbn [selector_values] in Hn. rewrite lookup_insert in Hn. case_decide; [|by left].
      subst n. injection Hn as <-. right. exists def. split; [left|done].
    + cbn [unknown]. destruct (string_enum_item data def); [exists []; by rewrite app_nil_r|].
      exists [name]. split; [done|]. constructor; [left|constructor].
Qed.

Lemma selectors_read_step c l w w1 w2 t1 t2 :
  selectors_read [c] w t1 w1 → selectors_read l w1 t2 w2 → selectors_read (c :: l) w (t1 ++ t2) w2.
Proof.
  intros ((n1 & E1 & F1) & V1 & (u1 & U1 & G1)) ((n2 & E2 & F2) & V2 & (u2 & U2 & G2)).
  assert (Hl : ∀ x, x ∈ [c] → x ∈ c :: l) by (intros x ->%list_elem_of_singleton; left). split_and!.
  - exists (n1 ++ n2). split; [by rewrite E2, E1, (assoc_L (++))|]. apply list.Forall_app. split.
    + eapply list.Forall_impl; [exact F1|]. intros a (nm & Hin & Hp & Hr). exists nm.
      split_and!; [by apply Hl|done|by apply read_as_left].
    + eapply list.Forall_impl; [exact F2|]. intros a (nm & Hin & Hp & Hr). exists nm.
      split_and!; [by right|done|by apply read_as_right].
  - intros nm v Hv. destruct (V2 nm v Hv) as [Hv1|(def & Hin & Hr)].
    + destruct (V1 nm v Hv1) as [?|(def & Hin & Hr)]; [by left|right]. exists def.
      split; [by apply Hl|by apply read_as_left].
    + right. exists def. split; [by right|by apply read_as_right].
  - exists (u1 ++ u2). split; [by rewrite U2, U1, (assoc_L (++))|]. apply list.Forall_app. split.
    + eapply list.Forall_impl; [exact G1|]. cbn. intros x ->%list_elem_of_singleton. left.
    + eapply list.Forall_impl; [exact G2|]. cbn. intros x ?. by right.
Qed.

Lemma read_selectors_answers timeout l w :
  answers (read_selectors timeout w l) (selectors_read l w).
Proof.
  revert w. induction l as [|c l IH]; intros w; cbn [read_selectors].
  - apply answers_ret. split_and!; [exists []; by rewrite app_nil_r| |exists []; by rewrite app_nil_r]. by left.
  - eapply answers_bind; [apply read_selector_answers|intros w1; apply IH|].
    intros t1 t2 w1 w2. apply selectors_read_step.
Qed.


(** ** The leaves *)

Lemma leaf_def root name id :
  (name, id) ∈ dumpable_leaves propmap_iter root →
  ∃ def, (name, def) ∈ map_entries ∧ id = def_id def ∧ name_to_def name = Some def
    ∧ def_node_type def ≠ NodeTypes.Node ∧ def_read_only def = false ∧ under_root root name = true.
Proof.
  unfold dumpable_leaves. rewrite elem_of_sort_by. intros ([n def] & [= -> ->] & Hin)%list_elem_of_fmap.
  apply list_elem_of_filter in Hin as [Hd Hin]. cbn [fst snd].
  exists def. unfold dumpable in Hd. cbn [fst snd] in Hd. apply andb_true_iff in Hd as [[Ht Hr]%andb_true_iff Hu].
  apply negb_true_iff in Ht, Hr. apply bool_decide_eq_false in Ht.
  split_and!; try done. by apply def_by_name_law.
Qed.

Lemma selector_def root name def :
  (name, def) ∈ selectors_of root →
  name_to_def name = Some def ∧ def_node_type def = NodeTypes.StringEnum ∧ strip_suffix name mdl = Some (slot_of name).
Proof.
  unfold selectors_of. rewrite elem_of_sort_by. intros [Hs Hin]%list_elem_of_filter. unfold selects in Hs.
  cbn [fst snd] in Hs. unfold slot_of. destruct (strip_suffix name mdl) as [p|]; [|done].
  apply andb_true_iff in Hs as [Ht%bool_decide_eq_true _]. split_and!; [by apply def_by_name_law|done|done].
Qed.

(** A captured entry holds what the console sent for the map's own, writable definition. *)
Definition entry_read (taken : list WingResponse) (e : DumpEntry) : Prop :=
  ∃ def, name_to_def (Writes.fullname e) = Some def ∧ Writes.entry_id e = def_id def ∧ def_read_only def = false
    ∧ read_as taken def (Writes.value e).

(** A value of the first loop, for the map's definition of its name. *)
Definition known_value (taken : list WingResponse) (name : list byte) (v : NodeValue) : Prop :=
  ∃ def, name_to_def name = Some def ∧ read_as taken def v.

Lemma entry_read_app taken t1 t2 e : entry_read taken e → entry_read (t1 ++ taken ++ t2) e.
Proof. intros (def & H1 & H2 & H3 & H4). exists def. split_and!; [done..|by apply read_as_app]. Qed.

Definition active_leaves (models : list ActiveModel) (leaves : list (list byte * Z)) : list (list byte * Z) :=
  filter (λ p, path_matches_active_models p.1 models = true) leaves.

Lemma unwrap_def_ok name def id : name_to_def name = Some def → unwrap_def name id = def.
Proof. unfold unwrap_def. by intros ->. Qed.

(** [before] is what the first loop had taken. *)
Lemma read_leaves_answers timeout models root before leaves : ∀ values out,
  (∀ p, p ∈ leaves → p ∈ dumpable_leaves propmap_iter root) →
  (∀ name v, values !! name = Some v → known_value before name v) →
  answers (read_leaves timeout models values out leaves) (λ taken res,
    ∃ new, res = out ++ new
      ∧ map (λ e, (Writes.fullname e, Writes.entry_id e)) new = active_leaves models leaves
      ∧ Forall (entry_read (before ++ taken)) new).
Proof.
  induction leaves as [|[name id] leaves IH]; intros values out Hl Hv; cbn [read_leaves].
  { apply answers_ret. exists []. by rewrite app_nil_r. }
  assert (Hl' : ∀ p, p ∈ leaves → p ∈ dumpable_leaves propmap_iter root) by (intros p Hp; apply Hl; by right).
  destruct (leaf_def root name id (Hl _ (list_elem_of_here _ _))) as (def & _ & -> & Hd & _ & Hro & _).
  unfold active_leaves. rewrite list.filter_cons. cbn [fst].
  destruct (path_matches_active_models name models) eqn:Ep; cbn [negb].
  2: { rewrite decide_False by done. by apply IH. }
  rewrite decide_True by done.
  destruct (values !! name) as [v|] eqn:Ev.
  - intros d res d' Hok H. eapply IH in H as (Hd' & taken & E & new & -> & Hm & Hf); [|done| |done].
    2: { intros n v' Hn. rewrite lookup_delete in Hn. case_decide; [done|]. by apply Hv. }
    split; [done|]. exists taken. split; [done|]. exists (mk_entry name (def_id def) v :: new).
    split_and!; [by rewrite <- (assoc_L (++))|cbn; by rewrite Hm|].
    constructor; [|done]. destruct (Hv _ _ Ev) as (def' & Hd2 & Hr). rewrite Hd in Hd2. injection Hd2 as <-.
    exists def. split_and!; [done..|by apply read_as_left].
  - rewrite (unwrap_def_ok name def _ Hd). intros d res d' Hok H.
    pose proof (answers_read (def_id def) timeout def eq_refl d) as Hr. unfold bind in Hr, H.
    destruct (dump_get (def_id def) timeout d) as [[data|e] d1]; [|done].
    destruct (fallible_ (dump_value data def) d1) as [[v|e] d2]; [|done]. unfold ret in Hr.
    destruct (Hr (data, v) d2 Hok eq_refl) as (Hd2 & t1 & E1 & Hrd). cbn [snd] in Hrd.
    eapply IH in H as (Hd' & t2 & E2 & new & -> & Hm & Hf); [|done|done|done].
    split; [done|]. exists (t1 ++ t2). split; [by rewrite E1, E2, (assoc_L (++))|].
    exists (mk_entry name (def_id def) v :: new). split_and!; [by rewrite <- (assoc_L (++))|cbn; by rewrite Hm|].
    constructor; [exists def; split_and!; [done..|by apply read_as_app]|].
    eapply list.Forall_impl; [exact Hf|]. intros e (def' & G1 & G2 & G3 & data' & Gin & Gv).
    exists def'. split_and!; [done..|]. exists data'. split; [|done]. rewrite !elem_of_app in *. tauto.
Qed.

(** ** The last look *)

(** The selector still reads as the value it was captured with. *)
Definition model_kept (taken : list WingResponse) (a : ActiveModel) : Prop :=
  ∃ v, read_as taken (definition a) v ∧ node_value_eqb v (selected a) = true.

Lemma recheck_answers timeout models :
  answers (recheck timeout models) (λ taken _, Forall (model_kept taken) models).
Proof.
  induction models as [|a models IH]; cbn [recheck]; [apply answers_ret; constructor|].
  intros d [] d' Hok H.
  pose proof (answers_read (def_id (definition a)) timeout (definition a) eq_refl d) as Hr. unfold bind in Hr, H.
  destruct (dump_get (def_id (definition a)) timeout d) as [[data|e] d1]; [|done].
  destruct (fallible_ (dump_value data (definition a)) d1) as [[v|e] d2]; [|done]. unfold ret in Hr.
  destruct (Hr (data, v) d2 Hok eq_refl) as (Hd2 & t1 & E1 & Hrd). cbn [snd] in Hrd.
  destruct (node_value_eqb v (selected a)) eqn:Ev; [|done]. cbn [negb] in H.
  destruct (IH _ _ _ Hd2 H) as (Hd' & t2 & E2 & Hf). split; [done|].
  exists (t1 ++ t2). split; [by rewrite E1, E2, (assoc_L (++))|]. constructor.
  - exists v. split; [by apply read_as_left|done].
  - eapply list.Forall_impl; [exact Hf|]. intros b (v' & Hb & Hv'). exists v'. split; [by apply read_as_right|done].
Qed.

(** ** The snapshot *)

(** [swept] is what the console sent up to the last entry, [confirmed] what came after. *)
Definition snapshot (root : list byte) (taken : list WingResponse) (dump : NodeDump) : Prop :=
  ∃ swept confirmed models, taken = swept ++ confirmed
    ∧ map (λ e, (Writes.fullname e, Writes.entry_id e)) (entries dump) = active_leaves models (dumpable_leaves propmap_iter root)
    ∧ Forall (λ e, entry_read swept e ∧ known_read_only name_to_def (Writes.fullname e) = false) (entries dump)
    ∧ Forall (λ a, model_read (selectors_of root) swept a ∧ model_kept confirmed a) models
    ∧ Forall (λ name, name ∈ map fst (selectors_of root)) (unknown_models dump).

Lemma dump_subtree_answers root timeout : answers (dump_subtree root timeout) (snapshot root).
Proof.
  unfold dump_subtree. intros d dump d' Hok H. unfold bind in H.
  pose proof (read_selectors_answers timeout (selectors_of root) (mk_selectors [] ∅ []) d) as H1.
  destruct (read_selectors _ _ _ d) as [[w|e] d1]; [|done].
  destruct (H1 w d1 Hok eq_refl) as (Hd1 & t1 & E1 & (models & Em & Fm) & Hv & (names & En & Fn)).
  cbn [active_models selector_values unknown app] in Em, Hv, En.
  assert (Hv' : ∀ name v, selector_values w !! name = Some v → known_value t1 name v).
  { intros name v Hn. destruct (Hv name v Hn) as [Hx|(def & Hin & Hr)]; [by rewrite lookup_empty in Hx|].
    exists def. split; [by apply (selector_def root)|done]. }
  pose proof (read_leaves_answers timeout (active_models w) root t1 (dumpable_leaves propmap_iter root)
    (selector_values w) [] (λ p Hp, Hp) Hv') as H2.
  destruct (read_leaves _ _ _ _ _ d1) as [[out|e] d2] eqn:Eo; [|done].
  destruct (H2 d1 out d2 Hd1 Eo) as (Hd2 & t2 & E2 & new & -> & Hm & Hf).
  pose proof (recheck_answers timeout (active_models w) d2) as H3.
  destruct (recheck _ _ d2) as [[[]|e] d3]; [|done]. injection H as <- <-.
  destruct (H3 tt d3 Hd2 eq_refl) as (Hd3 & t3 & E3 & Hk). split; [done|].
  exists ((t1 ++ t2) ++ t3). split; [by rewrite E1, E2, E3, !(assoc_L (++))|].
  exists (t1 ++ t2), t3, (active_models w). cbn [entries unknown_models]. split_and!.
  - done.
  - exact Hm.
  - eapply list.Forall_impl; [exact Hf|]. intros e He. split; [done|].
    destruct He as (def & Hd & _ & Hro & _). unfold known_read_only. by rewrite Hd.
  - rewrite Em in Hk |- *. rewrite list.Forall_forall in Fm, Hk. apply list.Forall_forall. intros a Ha.
    split; [|by apply Hk]. destruct (Fm a Ha) as (nm & G1 & G2 & G3). exists nm.
    split_and!; [done..|by apply read_as_left].
  - by rewrite En.
Qed.
End DumpFacts.

(** *** Property *)

(** C17: a snapshot is the console's own state, complete and consistent. If a sweep of a
    usable session returns, it took a run of the responses the console sends, first those it
    was swept from, then those that confirmed it; and with the models it found: its entries
    are exactly the writable leaves under the root that those models leave active, in name
    order, each with a value the console sent in the first part for that leaf's id, read with
    the map's own definition; restoring the snapshot refuses none of them as read only; each
    model is a selector's value from the first part, and was read again, equal, in the second,
    after the last entry, so none changed under the sweep; the models reported as unknown
    are selectors. *)
Theorem dump_subtree_exact (m : EmbeddedMap) root timeout d dump d' :
  EmbeddedMapLaws m → dumping_ok d → dump_subtree root timeout d = (Ok dump, d') →
  dumping_ok d' ∧ ∃ swept confirmed models,
    deliver (session d) = swept ++ confirmed ++ deliver (session d')
    ∧ map (λ e, (Writes.fullname e, Writes.entry_id e)) (entries dump)
      = filter (λ p, path_matches_active_models p.1 models = true) (dumpable_leaves propmap_iter root)
    ∧ Forall (λ e, entry_read swept e ∧ known_read_only name_to_def (Writes.fullname e) = false) (entries dump)
    ∧ Forall (λ a, model_read (selectors_of root) swept a ∧ model_kept confirmed a) models
    ∧ Forall (λ name, name ∈ map fst (selectors_of root)) (unknown_models dump).
Proof.
  intros Hm Hd H. destruct (dump_subtree_answers root timeout d dump d' Hd H)
    as (Hd' & taken & Ht & swept & confirmed & models & -> & Hrest).
  split; [done|]. exists swept, confirmed, models. by rewrite (assoc_L (++)).
Qed.

(** *** Witness *)

(** A slot with a selector of two models, whose parameters share an id. *)
Definition sample_leaf (id : Z) (type : NodeType) (items : option (list StringEnumItem)) : WingNodeDef :=
  mk_def id 0 0 [] [] type NodeUnits.None false None None None None None None items None [].

Definition sample_selector : WingNodeDef :=
  sample_leaf 5 NodeTypes.StringEnum (Some [mk_string_item (str "DEL") []; mk_string_item (str "HALL") []]).

Definition sample_slot : list (list byte * WingNodeDef) :=
  [(str "/fx/1/DEL/time", sample_leaf 6 NodeTypes.Integer None);
   (str "/fx/1/HALL/pdel", sample_leaf 6 NodeTypes.Integer None);
   (str "/fx/1/mdl", sample_selector)].

Definition slot_map : EmbeddedMap := {|
  map_entries := sample_slot;
  defs_by_id id := match filter (λ p, def_id p.2 = id) sample_slot with [] => None | ps => Some ps end;
  def_by_name name := (list_to_map sample_slot : gmap (list byte) WingNodeDef) !! name;
  id_by_name name := def_id <$> (list_to_map sample_slot : gmap (list byte) WingNodeDef) !! name;
|}.

Lemma slot_map_laws : EmbeddedMapLaws slot_map.
Proof.
  assert (Hn : NoDup (map fst sample_slot)) by (apply (bool_decide_unpack _); vm_compute; exact I).
  split; try done.
  - repeat constructor; vm_compute; reflexivity.
  - intros name d. symmetry. by apply elem_of_list_to_map.
Qed.

(** The console answers: the model, the value, the model again. *)
Definition sample_answers : list NativeResponse :=
  [NativeResponses.NodeData 5 (NativeValues.String (str "HALL")); NativeResponses.NodeData 6 (NativeValues.Integer 40);
   NativeResponses.NodeData 5 (NativeValues.String (str "HALL"))].

Definition sample_dumping : Dumping :=
  mk_dumping (new_session [mk_pass None None
    (Received (batch_frame (match encode_all sample_answers with Ok p => p | Err _ => [] end)))]) [].

Lemma dump_subtree_exact_witness :
  let _ := slot_map in
  ∃ taken models,
    dump_subtree (str "/fx/1") (Some 9%nat) sample_dumping
      = (Ok (mk_dump [mk_entry (str "/fx/1/HALL/pdel") 6 (NodeValues.Int 40);
                      mk_entry (str "/fx/1/mdl") 5 (NodeValues.String (str "HALL"))] []),
         (dump_subtree (str "/fx/1") (Some 9%nat) sample_dumping).2)
    ∧ [(str "/fx/1/HALL/pdel", 6); (str "/fx/1/mdl", 5)]
      = filter (λ p, path_matches_active_models p.1 models = true) (dumpable_leaves propmap_iter (str "/fx/1"))
    ∧ deliver (session sample_dumping) = taken.
Proof.
  cbv zeta. assert (Hd : dumping_ok sample_dumping).
  { split; [|done]. split; [by eexists|]. split; [vm_compute; discriminate|done]. }
  destruct (@dump_subtree slot_map (str "/fx/1") (Some 9%nat) sample_dumping) as [r d'] eqn:E.
  assert (Er := f_equal fst E). assert (Es := f_equal snd E). vm_compute in Er. cbn [snd] in Es |- *. subst r.
  destruct (dump_subtree_exact slot_map _ _ _ _ _ slot_map_laws Hd E) as (_ & swept & confirmed & models & Ht & Hm & _).
  assert (Hn : deliver (session d') = []) by (rewrite <- Es; vm_compute; reflexivity).
  rewrite Hn, app_nil_r in Ht. exists (swept ++ confirmed), models. split; [|split; [exact Hm|exact Ht]].
  reflexivity.
Defined.
