(* ===== verification/Osc.v ===== *)
(** OSC messages ([src/src/osc.rs]): the OSC 1.0 codec, the request builders with their
    address and pair checks, and the parsers of replies and events.

    A Rust [String] is its UTF-8 bytes.  The readers take the slice and the cursor, as in the
    node-definition parser; [bytes[start..]] cannot panic because the cursor stays within
    the slice, which the round trip and its lemmas keep.  The text of an
    [OscError::Malformed] is kept: it names the check that failed. *)

From S2P Require Import Prelude Text Decimal Bytes Lib Utf8 F32 Display.
Local Open Scope Z_scope.
Local Open Scope rust_scope.

(** ** Data *)

Definition MAX_PACKET_BYTES : Z := 32 * 1024.

Module OscNodeErrors.
Inductive OscNodeError :=
| NodeNotFound | ValueError | BufferOverflow | NodeIsNotPar | IncompleteData | StackEmpty.
End OscNodeErrors.
Export OscNodeErrors(OscNodeError).

Module OscErrors.
Inductive OscError :=
| Io (kind : ErrorKind)
| Malformed (what : list byte)
| TooLarge (n : Z)
| Timeout
| Node (e : OscNodeError)
| RetriesExhausted (attempts : Z).
End OscErrors.
Export OscErrors(OscError).

Abbreviation OscResult A := (result OscError A).

Definition malformed {A} (what : list byte) : OscResult A := Err (OscErrors.Malformed what).

Module OscArgs.
Inductive OscArg :=
| Int (v : Z)
| Float (v : f32)
| Str (v : list byte)
| Blob (v : list byte).
End OscArgs.
Export OscArgs(OscArg).

Record OscMessage := mk_message { addr : list byte; args : list OscArg }.

(** [==] of the derived [PartialEq]: floats compare as IEEE numbers. *)
Definition osc_arg_eqb (a b : OscArg) : bool :=
  match a, b with
  | OscArgs.Int v, OscArgs.Int w => (v =? w)%Z
  | OscArgs.Float v, OscArgs.Float w => f32_eqb v w
  | OscArgs.Str v, OscArgs.Str w => bytes_eqb v w
  | OscArgs.Blob v, OscArgs.Blob w => bytes_eqb v w
  | _, _ => false
  end.

Fixpoint osc_args_eqb (l l' : list OscArg) : bool :=
  match l, l' with
  | [], [] => true
  | a :: l, b :: l' => osc_arg_eqb a b && osc_args_eqb l l'
  | _, _ => false
  end.

Definition osc_message_eqb (m m' : OscMessage) : bool :=
  bytes_eqb (addr m) (addr m') && osc_args_eqb (args m) (args m').

#[export] Instance OscNodeError_eq_dec : EqDecision OscNodeError.
Proof. solve_decision. Defined.
#[export] Instance OscError_eq_dec : EqDecision OscError.
Proof. solve_decision. Defined.
#[export] Instance OscArg_eq_dec : EqDecision OscArg.
Proof. solve_decision. Defined.
#[export] Instance OscMessage_eq_dec : EqDecision OscMessage.
Proof. solve_decision. Defined.

Definition nul : byte := Byte.x00.

Definition has_nul (s : list byte) : bool := contains_any [nul] s.

(** ** Encoding *)

(** [n.div_ceil(4) * 4]. *)
Definition ceil4 (n : nat) : nat := ((n + 3) / 4 * 4)%nat.

Definition push_osc_string (buf s : list byte) : list byte :=
  buf ++ s ++ replicate (ceil4 (length s + 1) - length s) nul.

(** [(4 - n % 4) % 4]. *)
Definition blob_pad (n : nat) : nat := ((4 - n `mod` 4) `mod` 4)%nat.

Definition push_osc_blob (buf data : list byte) : list byte :=
  buf ++ to_be 4 (Z.of_nat (length data)) ++ data ++ replicate (blob_pad (length data)) nul.

Definition type_tag (a : OscArg) : byte :=
  match a with
  | OscArgs.Int _ => Byte.x69 | OscArgs.Float _ => Byte.x66
  | OscArgs.Str _ => Byte.x73 | OscArgs.Blob _ => Byte.x62
  end.

Definition push_arg (buf : list byte) (a : OscArg) : list byte :=
  match a with
  | OscArgs.Int v => buf ++ to_be 4 v
  | OscArgs.Float v => buf ++ f32_to_be v
  | OscArgs.Str v => push_osc_string buf v
  | OscArgs.Blob v => push_osc_blob buf v
  end.

Definition str_has_nul (a : OscArg) : bool :=
  match a with OscArgs.Str v => has_nul v | _ => false end.

Definition comma : byte := Byte.x2c.

Definition encode (msg : OscMessage) : OscResult (list byte) :=
  if has_nul (addr msg) || existsb str_has_nul (args msg) then
    malformed (str "OSC strings cannot contain embedded NULs")
  else
    let buf := push_osc_string [] (addr msg) in
    let buf :=
      match args msg with
      | [] => buf
      | _ => foldl push_arg (push_osc_string buf (comma :: map type_tag (args msg))) (args msg)
      end in
    if MAX_PACKET_BYTES <? Z.of_nat (length buf) then Err (OscErrors.TooLarge (Z.of_nat (length buf)))
    else Ok buf.

(** ** Decoding *)

Definition osc_reader (A : Type) : Type := list byte → nat → OscResult (A * nat).

(** [bytes[start..].iter().position(|&b| b == 0)]. *)
Fixpoint position_nul (l : list byte) : option nat :=
  match l with
  | [] => None
  | b :: l => if bool_decide (b = nul) then Some O else S <$> position_nul l
  end.

Definition read_osc_string : osc_reader (list byte) := λ bytes start,
  match position_nul (drop start bytes) with
  | None => malformed (str "unterminated OSC string")
  | Some n =>
    let s := take n (drop start bytes) in
    if utf8_valid s then
      let padded_total := ceil4 (n + 1) in
      if (length bytes <? start + padded_total)%nat then malformed (str "truncated OSC string padding")
      else Ok (s, (start + padded_total)%nat)
    else malformed (str "invalid utf8 in OSC string")
  end.

Definition read_osc_i32 : osc_reader Z := λ bytes i,
  match get_range bytes i (i + 4) with
  | Some chunk => Ok (i32_from_be chunk, (i + 4)%nat)
  | None => malformed (str "truncated int32 argument")
  end.

Definition read_osc_f32 : osc_reader f32 := λ bytes i,
  match get_range bytes i (i + 4) with
  | Some chunk => Ok (f32_from_be chunk, (i + 4)%nat)
  | None => malformed (str "truncated float32 argument")
  end.

Definition read_osc_blob : osc_reader (list byte) := λ bytes i,
  let? (size, i) := read_osc_i32 bytes i in
  if size <? 0 then malformed (str "negative blob size")
  else
    let size := Z.to_nat size in
    match get_range bytes i (i + size) with
    | None => malformed (str "truncated blob data")
    | Some data =>
      let i := (i + size)%nat in
      let pad := blob_pad size in
      if (length bytes <? i + pad)%nat then malformed (str "truncated blob padding")
      else Ok (data, (i + pad)%nat)
    end.

Definition read_arg (tag : byte) : osc_reader OscArg := λ bytes i,
  if bool_decide (tag = Byte.x69) then let? (v, i) := read_osc_i32 bytes i in Ok (OscArgs.Int v, i)
  else if bool_decide (tag = Byte.x66) then let? (v, i) := read_osc_f32 bytes i in Ok (OscArgs.Float v, i)
  else if bool_decide (tag = Byte.x73) then let? (v, i) := read_osc_string bytes i in Ok (OscArgs.Str v, i)
  else if bool_decide (tag = Byte.x62) then let? (v, i) := read_osc_blob bytes i in Ok (OscArgs.Blob v, i)
  else malformed (str "unsupported OSC type tag").

(** The tag string's characters: a character outside ASCII starts with a byte that is no
    tag, so the bytes decide as the characters do. *)
Fixpoint read_args (tags : list byte) : osc_reader (list OscArg) := λ bytes i,
  match tags with
  | [] => Ok ([], i)
  | tag :: tags =>
    let? (a, i) := read_arg tag bytes i in
    let? (l, i) := read_args tags bytes i in
    Ok (a :: l, i)
  end.

Definition decode (bytes : list byte) : OscResult OscMessage :=
  let? (address, i) := read_osc_string bytes 0%nat in
  if negb (starts_with address [slash]) then
    malformed (str "address pattern must start with '/' (bundles are not supported)")
  else if (length bytes <=? i)%nat then Ok (mk_message address [])
  else
    let? (tag, i) := read_osc_string bytes i in
    match tag with
    | c :: tags =>
      if bool_decide (c = comma) then
        let? (l, i) := read_args tags bytes i in
        if (i =? length bytes)%nat then Ok (mk_message address l)
        else malformed (str "trailing bytes after OSC arguments")
      else malformed (str "type tag string must start with ','")
    | [] => malformed (str "type tag string must start with ','")
    end.

(** ** Request builders *)

Definition validate_address_path (path : list byte) : OscResult unit :=
  if contains_any (str "*?[]{}, ") path then
    malformed (str "address path contains an OSC-reserved wildcard/pattern character")
  else Ok tt.

(** A validated path with these arguments. *)
Definition build (path : list byte) (l : list OscArg) : OscResult OscMessage :=
  let? _ := validate_address_path path in Ok (mk_message path l).

Definition get_param (path : list byte) : OscResult OscMessage := build path [].

(** [{:08x}] of a 32-bit number. *)
Fixpoint hex (n : nat) (z : Z) : list byte :=
  match n with
  | O => []
  | S n => hex n (Z.shiftr z 4) ++ [hex_digit (Z.land z 0xf)]
  end.

Definition get_param_by_id (id : Z) : OscMessage := mk_message (str "/#" ++ hex 8 (id mod 2 ^ 32)) [].

Definition osc_set_string (path value : list byte) : OscResult OscMessage := build path [OscArgs.Str value].
Definition osc_set_float (path : list byte) (value : f32) : OscResult OscMessage := build path [OscArgs.Float value].
Definition osc_set_int (path : list byte) (value : Z) : OscResult OscMessage := build path [OscArgs.Int value].
Definition osc_toggle (path : list byte) : OscResult OscMessage := osc_set_int path (-1).
Definition set_enum_by_name (path name : list byte) : OscResult OscMessage := osc_set_string path name.
Definition set_enum_by_index (path : list byte) (index : Z) : OscResult OscMessage := osc_set_int path index.

(** [matches!(name, "." | "..")] is subsumed by the separator check before it, as in the
    source. *)
Definition bad_pair_name (name : list byte) : bool :=
  bool_decide (name = []) || contains_any (str "/.,=") name || has_nul name
  || bool_decide (name = str ".") || bool_decide (name = str "..").

Definition bad_pair_value (value : list byte) : bool := contains_any [comma] value || has_nul value.

Definition equals : byte := Byte.x3d.

Fixpoint format_pairs (pairs : list (list byte * list byte)) : OscResult (list (list byte)) :=
  match pairs with
  | [] => Ok []
  | (name, value) :: pairs =>
    if bad_pair_name name then
      malformed (str "node pair names must be local leaf names without grammar separators")
    else if bad_pair_value value then
      malformed (str "node pair values cannot contain commas or embedded NULs; use set_string for arbitrary strings")
    else
      let? rest := format_pairs pairs in
      Ok ((name ++ [equals] ++ value) :: rest)
  end.

Definition format_node_pairs (pairs : list (list byte * list byte)) : OscResult (list byte) :=
  let? formatted := format_pairs pairs in Ok (join comma formatted).

Definition node_set_local (node_path : list byte) (pairs : list (list byte * list byte)) : OscResult OscMessage :=
  let? _ := validate_address_path node_path in
  let? payload := format_node_pairs pairs in
  Ok (mk_message node_path [OscArgs.Str payload]).

Definition node_set_root (payload : list byte) : OscMessage := mk_message (str "/") [OscArgs.Str payload].

Definition node_dump (node_path : list byte) : OscResult OscMessage := build node_path [OscArgs.Str (str "*")].
Definition node_describe (node_path : list byte) : OscResult OscMessage := build node_path [OscArgs.Str (str "?")].
Definition node_describe_with_values (node_path : list byte) : OscResult OscMessage :=
  build node_path [OscArgs.Str (str "#")].

Definition console_info : OscMessage := mk_message (str "/?") [].

(** [{port}] of a [u16]. *)
Definition decimal (z : Z) : list byte := decimal_fuel 5 z.

Definition with_reply_port (port : Z) (msg : OscMessage) : OscMessage :=
  mk_message (str "/%" ++ decimal port ++ addr msg) (args msg).

Inductive SubscriptionFormat := Binary | OscTriplet | OscNative.

Definition format_address (f : SubscriptionFormat) : list byte :=
  match f with Binary => str "/*b" | OscTriplet => str "/*s" | OscNative => str "/*S" end.

Definition subscribe (f : SubscriptionFormat) : OscMessage := mk_message (format_address f) [].

(** ** Reply parsers *)

Module ParamFacets.
Inductive ParamFacets :=
| StringOrEnum (display : list byte)
| Float (display : list byte) (raw value : f32)
| Int (display : list byte) (raw : f32) (value : Z)
| NativeFloat (v : f32)
| NativeInt (v : Z).
End ParamFacets.
Export ParamFacets(ParamFacets).

Record ParamReply := mk_reply { path : list byte; facets : ParamFacets }.

Definition parse_param_reply (msg : OscMessage) : OscResult ParamReply :=
  let reply f := Ok (mk_reply (addr msg) f) in
  match args msg with
  | [OscArgs.Str display] => reply (ParamFacets.StringOrEnum display)
  | [OscArgs.Str display; OscArgs.Float raw; OscArgs.Float value] => reply (ParamFacets.Float display raw value)
  | [OscArgs.Str display; OscArgs.Float raw; OscArgs.Int value] => reply (ParamFacets.Int display raw value)
  | [OscArgs.Float value] => reply (ParamFacets.NativeFloat value)
  | [OscArgs.Int value] => reply (ParamFacets.NativeInt value)
  | _ => malformed (str "unexpected parameter reply shape")
  end.

Module OscEvents.
Inductive OscEvent :=
| Param (r : ParamReply)
| Binary (data : list byte)
| Raw (m : OscMessage).
End OscEvents.
Export OscEvents(OscEvent).

Definition star : list byte := str "*".

Definition classify_event (msg : OscMessage) : OscEvent :=
  if bytes_eqb (addr msg) (str "/") then
    match args msg with
    | [OscArgs.Blob data] => OscEvents.Binary data
    | _ => OscEvents.Raw msg
    end
  else if ends_with (addr msg) star then OscEvents.Raw msg
  else
    match parse_param_reply msg with
    | Ok reply => OscEvents.Param reply
    | Err _ => OscEvents.Raw msg
    end.

Definition parse_node_error (s : list byte) : option OscNodeError :=
  if bytes_eqb s (str "NODE NOT FOUND") then Some OscNodeErrors.NodeNotFound
  else if bytes_eqb s (str "VALUE ERROR") then Some OscNodeErrors.ValueError
  else if bytes_eqb s (str "BUFFER OVERFLOW") then Some OscNodeErrors.BufferOverflow
  else if bytes_eqb s (str "NODE IS NOT PAR") then Some OscNodeErrors.NodeIsNotPar
  else if bytes_eqb s (str "INCOMPLETE DATA") then Some OscNodeErrors.IncompleteData
  else if bytes_eqb s (str "STACK EMPTY") then Some OscNodeErrors.StackEmpty
  else None.

Definition parse_node_ack (msg : OscMessage) : OscResult unit :=
  if ends_with (addr msg) star then
    match args msg with
    | [OscArgs.Str payload] =>
      if bytes_eqb payload (str "OK") then Ok tt
      else
        match parse_node_error payload with
        | Some e => Err (OscErrors.Node e)
        | None => malformed (str "unrecognized node ack payload")
        end
    | _ => malformed (str "node ack payload must be a single string")
    end
  else malformed (str "not a node-ack address (expected '/*' or '<node>*')").

Definition parse_node_dump (msg : OscMessage) : OscResult (list (list byte * list byte)) :=
  match args msg with
  | [OscArgs.Str payload] =>
    Ok (omap (split_once equals) (filter (λ kv, kv ≠ []) (split_on comma payload)))
  | _ => malformed (str "node dump payload must be a single string")
  end.

(** [DiscoveryInfo] and its [parse] are in [src/src/console.rs]; the datagram's source
    address is the environment's. *)
Record DiscoveryInfo := mk_discovery {
  ip : list byte; console_name : list byte; model : list byte; serial : list byte; firmware : list byte;
}.

(** [DiscoveryInfo::parse]. *)
Definition parse_discovery (reply : list byte) : option DiscoveryInfo :=
  match split_on comma reply with
  | head :: ip :: name :: model :: serial :: firmware :: _ =>
    if bytes_eqb head (str "WING") then Some (mk_discovery ip name model serial firmware) else None
  | _ => None
  end.

(** [DiscoveryInfo::from_datagram]: [from] is the source address as text. *)
Definition from_datagram (payload from : list byte) : option DiscoveryInfo :=
  if utf8_valid payload then
    info ← parse_discovery payload;
    Some (mk_discovery from (console_name info) (model info) (serial info) (firmware info))
  else None.

Definition parse_console_info (msg : OscMessage) : OscResult DiscoveryInfo :=
  match args msg with
  | [OscArgs.Str payload] =>
    ok_or (parse_discovery payload) (OscErrors.Malformed (str "unexpected console info payload"))
  | _ => malformed (str "console info payload must be a single string")
  end.

(** ** Matching replies to requests *)

Definition is_relative_write (msg : OscMessage) : bool :=
  match args msg with [OscArgs.Int v] => v =? -1 | _ => false end.

Definition is_digit (b : byte) : bool := (48 <=? u8 b) && (u8 b <=? 57).

(** [rest.bytes().take_while(u8::is_ascii_digit).count()]. *)
Fixpoint count_digits (s : list byte) : nat :=
  match s with b :: s => if is_digit b then S (count_digits s) else O | [] => O end.

Definition strip_reply_port (address : list byte) : list byte :=
  match strip_prefix address (str "/%") with
  | Some rest =>
    let digits := count_digits rest in
    if (0 <? digits)%nat && starts_with (drop digits rest) [slash] then drop digits rest else address
  | None => address
  end.

(** [reply.strip_suffix('*').unwrap_or(reply)]. *)
Definition without_star (reply : list byte) : list byte :=
  match strip_suffix reply star with Some r => r | None => reply end.

Section Match.
Context (id_to_names : Z → option (list (list byte))).

Definition reply_matches (request reply : list byte) : bool :=
  let request := strip_reply_port request in
  let reply := without_star reply in
  bytes_eqb reply request
  || match strip_prefix request (str "/#") with
     | Some digits =>
       match from_str_radix_16 digits with
       | Some id =>
         match id_to_names (wrap_signed 32 id) with
         | Some names => existsb (λ name, bytes_eqb name reply) names
         | None => false
         end
       | None => false
       end
     | None => false
     end.
End Match.

(** ** Well-formed messages *)

(** What Rust's types say of an argument. *)
Definition arg_ok (a : OscArg) : Prop :=
  match a with
  | OscArgs.Int v => in_i32 v
  | OscArgs.Float v => f32_ok v
  | OscArgs.Str v => utf8_valid v = true
  | OscArgs.Blob _ => True
  end.

Record message_ok (m : OscMessage) : Prop := {
  addr_utf8 : utf8_valid (addr m) = true;
  args_typed : Forall arg_ok (args m);
}.

(** No string of the message has a NUL inside. *)
Definition no_nuls (m : OscMessage) : Prop :=
  has_nul (addr m) = false ∧ existsb str_has_nul (args m) = false.

(** ** Encoded forms *)

Definition osc_string (s : list byte) : list byte := push_osc_string [] s.
Definition arg_bytes (a : OscArg) : list byte := push_arg [] a.

Definition message_bytes (m : OscMessage) : list byte :=
  osc_string (addr m) ++
  match args m with
  | [] => []
  | _ => osc_string (comma :: map type_tag (args m)) ++ concat (map arg_bytes (args m))
  end.

Lemma push_osc_string_eq buf s : push_osc_string buf s = buf ++ osc_string s.
Proof. done. Qed.

Lemma push_arg_eq buf a : push_arg buf a = buf ++ arg_bytes a.
Proof. by destruct a. Qed.

Lemma push_args_eq buf l : foldl push_arg buf l = buf ++ concat (map arg_bytes l).
Proof.
  revert buf. induction l as [|a l IH]; intros buf; cbn [foldl map concat]; [by rewrite app_nil_r|].
  by rewrite IH, push_arg_eq, <- (assoc_L (++)).
Qed.

Lemma encode_eq m :
  encode m =
    if has_nul (addr m) || existsb str_has_nul (args m) then
      malformed (str "OSC strings cannot contain embedded NULs")
    else if MAX_PACKET_BYTES <? Z.of_nat (length (message_bytes m)) then
      Err (OscErrors.TooLarge (Z.of_nat (length (message_bytes m))))
    else Ok (message_bytes m).
Proof.
  unfold encode, message_bytes. destruct (args m) as [|a l]; [by rewrite app_nil_r|].
  by rewrite push_args_eq, push_osc_string_eq, <- (assoc_L (++)).
Qed.

Lemma ceil4_bounds n : (n ≤ ceil4 n < n + 4)%nat.
Proof.
  unfold ceil4. pose proof (Nat.div_mod_eq (n + 3) 4). pose proof (Nat.mod_upper_bound (n + 3) 4). lia.
Qed.

Lemma ceil4_mod n : (ceil4 n `mod` 4 = 0)%nat.
Proof. unfold ceil4. by rewrite Nat.Div0.mod_mul. Qed.

Lemma osc_string_length s : length (osc_string s) = ceil4 (length s + 1).
Proof.
  unfold osc_string, push_osc_string. rewrite !length_app, length_replicate. simpl.
  pose proof (ceil4_bounds (length s + 1)). lia.
Qed.

(** How long an argument is on the wire. *)
Definition arg_size (a : OscArg) : nat :=
  match a with
  | OscArgs.Int _ | OscArgs.Float _ => 4
  | OscArgs.Str v => ceil4 (length v + 1)
  | OscArgs.Blob v => 4 + length v + blob_pad (length v)
  end.

Lemma arg_bytes_length a : length (arg_bytes a) = arg_size a.
Proof.
  destruct a; unfold arg_bytes; simpl; [done|done| |].
  - apply osc_string_length.
  - unfold push_osc_blob. cbn [app]. rewrite !length_app, length_replicate. lia.
Qed.

Lemma padded_mod n : ((n + blob_pad n) `mod` 4 = 0)%nat.
Proof.
  unfold blob_pad. rewrite Nat.Div0.add_mod, Nat.Div0.mod_mod.
  pose proof (Nat.mod_upper_bound n 4 ltac:(lia)) as Hr. revert Hr. generalize (n `mod` 4)%nat as r.
  intros r Hr. do 4 (destruct r as [|r]; [done|]). lia.
Qed.

Lemma arg_size_mod a : (arg_size a `mod` 4 = 0)%nat.
Proof.
  destruct a as [| |v|v]; [done|done|apply ceil4_mod|]. cbn [arg_size].
  rewrite <- Nat.add_assoc, Nat.Div0.add_mod, padded_mod. done.
Qed.

Lemma message_bytes_mod m : (length (message_bytes m) `mod` 4 = 0)%nat.
Proof.
  assert (Hargs : ∀ l, (length (concat (map arg_bytes l)) `mod` 4 = 0)%nat).
  { induction l as [|a l IH]; [done|]. cbn [map concat]. by rewrite length_app, Nat.Div0.add_mod, IH, arg_bytes_length, arg_size_mod. }
  unfold message_bytes. rewrite length_app, Nat.Div0.add_mod, osc_string_length, ceil4_mod.
  destruct (args m) as [|a l]; [done|].
  by rewrite length_app, (Nat.Div0.add_mod (length (osc_string _))), Hargs, osc_string_length, ceil4_mod.
Qed.

(** ** Reading back *)

Definition puts {A} (r : osc_reader A) (w : list byte) (a : A) : Prop :=
  ∀ pre post, r (pre ++ w ++ post) (length pre) = Ok (a, (length pre + length w)%nat).

Lemma has_nul_cons b s : has_nul (b :: s) = bool_decide (b ∈ [nul]) || has_nul s.
Proof. done. Qed.

Lemma nul_single b : bool_decide (b ∈ [nul]) = bool_decide (b = nul).
Proof. apply bool_decide_ext. by rewrite list_elem_of_singleton. Qed.

Lemma position_nul_app s rest : has_nul s = false → position_nul (s ++ nul :: rest) = Some (length s).
Proof.
  induction s as [|b s IH]; intros Hs; simpl; [done|]. rewrite has_nul_cons, nul_single in Hs.
  apply orb_false_iff in Hs as [-> Hs]. by rewrite IH.
Qed.

Lemma position_nul_Some l n :
  position_nul l = Some n → has_nul (take n l) = false ∧ (n < length l)%nat.
Proof.
  revert n. induction l as [|b l IH]; intros n H; [done|]. simpl in H. case_bool_decide as E.
  - simplify_eq. split; [done|simpl; lia].
  - apply fmap_Some in H as (k & Hk & ->). destruct (IH _ Hk). split; [|simpl; lia].
    simpl take. rewrite has_nul_cons, nul_single, bool_decide_eq_false_2 by done. done.
Qed.

Lemma puts_string s : utf8_valid s = true → has_nul s = false → puts read_osc_string (osc_string s) s.
Proof.
  intros Hu Hn pre post. unfold read_osc_string. rewrite drop_app_length.
  pose proof (ceil4_bounds (length s + 1)) as Hc.
  assert (Hw : osc_string s ++ post
    = s ++ nul :: (replicate (ceil4 (length s + 1) - length s - 1) nul ++ post)).
  { unfold osc_string, push_osc_string. simpl.
    replace (ceil4 (length s + 1) - length s)%nat with (S (ceil4 (length s + 1) - length s - 1)) at 1 by lia.
    simpl. by rewrite <- (assoc_L (++)). }
  assert (Hp : position_nul (osc_string s ++ post) = Some (length s)) by (by rewrite Hw, position_nul_app).
  assert (Ht : take (length s) (osc_string s ++ post) = s) by (by rewrite Hw, take_app_length).
  rewrite Hp, Ht, Hu.
  rewrite (proj2 (Nat.ltb_ge _ _)); [by rewrite osc_string_length|].
  rewrite !length_app, osc_string_length. lia.
Qed.

Lemma puts_i32 v : in_i32 v → puts read_osc_i32 (to_be 4 v) v.
Proof.
  intros Hv pre post. unfold read_osc_i32. pose proof (get_range_app pre (to_be 4 v) post) as H.
  rewrite to_be_length in H |- *. by rewrite H, i32_round.
Qed.

Lemma puts_f32 v : f32_ok v → puts read_osc_f32 (f32_to_be v) v.
Proof.
  intros Hv pre post. unfold read_osc_f32. pose proof (get_range_app pre (f32_to_be v) post) as H.
  unfold f32_to_be in *. rewrite to_be_length in H |- *. rewrite H. unfold f32_from_be.
  rewrite u32_round by done. by destruct v.
Qed.

Lemma puts_blob v :
  in_i32 (Z.of_nat (length v)) → puts read_osc_blob (push_osc_blob [] v) v.
Proof.
  intros Hv pre post. unfold read_osc_blob, push_osc_blob. rewrite app_nil_l.
  set (pad := replicate (blob_pad (length v)) nul).
  replace (pre ++ (to_be 4 (Z.of_nat (length v)) ++ v ++ pad) ++ post)
    with (pre ++ to_be 4 (Z.of_nat (length v)) ++ (v ++ pad ++ post)) by (by rewrite <- !(assoc_L (++))).
  rewrite (puts_i32 _ Hv), (proj2 (Z.ltb_ge _ _)), Nat2Z.id by lia.
  pose proof (get_range_app (pre ++ to_be 4 (Z.of_nat (length v))) v (pad ++ post)) as Hg.
  rewrite length_app, <- !(assoc_L (++)) in Hg. rewrite Hg.
  assert (Hpad : length pad = blob_pad (length v)) by apply length_replicate.
  rewrite (proj2 (Nat.ltb_ge _ _)); rewrite !length_app, ?Hpad, ?to_be_length; [|lia].
  do 2 f_equal. lia.
Qed.

Lemma read_arg_tag a bytes i :
  read_arg (type_tag a) bytes i =
    match a with
    | OscArgs.Int _ => let? (v, i) := read_osc_i32 bytes i in Ok (OscArgs.Int v, i)
    | OscArgs.Float _ => let? (v, i) := read_osc_f32 bytes i in Ok (OscArgs.Float v, i)
    | OscArgs.Str _ => let? (v, i) := read_osc_string bytes i in Ok (OscArgs.Str v, i)
    | OscArgs.Blob _ => let? (v, i) := read_osc_blob bytes i in Ok (OscArgs.Blob v, i)
    end.
Proof. by destruct a. Qed.

Lemma puts_arg a :
  arg_ok a → str_has_nul a = false → in_i32 (Z.of_nat (arg_size a)) →
  puts (read_arg (type_tag a)) (arg_bytes a) a.
Proof.
  intros Ha Hn Hs pre post. rewrite read_arg_tag. destruct a as [v|v|v|v]; cbn [arg_ok str_has_nul] in *.
  - by rewrite (puts_i32 v Ha).
  - by rewrite (puts_f32 v Ha).
  - change (arg_bytes (OscArgs.Str v)) with (osc_string v). by rewrite (puts_string v Ha Hn).
  - change (arg_bytes (OscArgs.Blob v)) with (push_osc_blob [] v).
    rewrite puts_blob; [done|]. simpl in Hs. width.
Qed.

Lemma puts_args l :
  Forall arg_ok l → existsb str_has_nul l = false →
  in_i32 (Z.of_nat (length (concat (map arg_bytes l)))) →
  puts (read_args (map type_tag l)) (concat (map arg_bytes l)) l.
Proof.
  induction l as [|a l IH]; intros Hl Hn Hs pre post; [simpl; by rewrite Nat.add_0_r|].
  apply Forall_cons_iff in Hl as [Ha Hl]. cbn [map concat existsb] in *.
  apply orb_false_iff in Hn as [Hna Hn]. rewrite length_app, arg_bytes_length in Hs.
  cbn [read_args]. rewrite <- (assoc_L (++)), puts_arg by (done || width).
  rewrite <- length_app, (assoc_L (++) pre), IH by (done || width).
  rewrite !length_app. do 2 f_equal. lia.
Qed.

Lemma has_nul_tags l : has_nul (comma :: map type_tag l) = false.
Proof. rewrite has_nul_cons. induction l as [|[] l IH]; [done|..]; exact IH. Qed.

Lemma utf8_tags l : utf8_valid (comma :: map type_tag l) = true.
Proof. apply utf8_valid_ascii. constructor; [done|]. induction l as [|[] l IH]; by constructor. Qed.

Lemma decode_message m :
  message_ok m → no_nuls m → starts_with (addr m) [slash] = true →
  Z.of_nat (length (message_bytes m)) ≤ MAX_PACKET_BYTES →
  decode (message_bytes m) = Ok m.
Proof.
  intros [Ha Hl] [Hna Hnl] Hs Hmax. unfold decode, message_bytes in *.
  destruct m as [address l]; cbn [addr args] in *.
  pose proof (puts_string address Ha Hna []) as Hr. cbn [app length Nat.add] in Hr. rewrite Hr, Hs. cbn [negb].
  destruct l as [|a l]; [by rewrite app_nil_r, (proj2 (Nat.leb_le _ _)) by lia|].
  set (tags := comma :: map type_tag (a :: l)) in *. rewrite !length_app in Hmax |- *.
  pose proof (osc_string_length tags). pose proof (ceil4_bounds (length tags + 1)).
  rewrite (proj2 (Nat.leb_gt _ _)) by lia.
  rewrite (puts_string tags (utf8_tags _) (has_nul_tags _)).
  unfold tags at 1. rewrite bool_decide_eq_true_2 by done. rewrite <- length_app.
  pose proof (puts_args (a :: l) Hl Hnl ltac:(unfold MAX_PACKET_BYTES in *; width)
    (osc_string address ++ osc_string tags) []) as Hg.
  rewrite app_nil_r, <- (assoc_L (++)) in Hg. rewrite Hg.
  rewrite (proj2 (Nat.eqb_eq _ _)); [done|]. rewrite !length_app. lia.
Qed.

(** A message whose address does not start with a slash is written, but never read back. *)
Lemma decode_no_slash m :
  message_ok m → no_nuls m → starts_with (addr m) [slash] = false →
  decode (message_bytes m) = malformed (str "address pattern must start with '/' (bundles are not supported)").
Proof.
  intros [Ha _] [Hna _] Hs. unfold decode, message_bytes.
  match goal with |- context [osc_string (addr m) ++ ?rest] =>
    pose proof (puts_string (addr m) Ha Hna [] rest) as Hr end.
  cbn [app] in Hr. change (length (@nil byte)) with 0%nat in Hr. by rewrite Hr, Hs.
Qed.

(** ** What the decoder accepts *)

Lemma read_osc_string_Ok bytes i s j :
  read_osc_string bytes i = Ok (s, j) →
  utf8_valid s = true ∧ has_nul s = false ∧ j = (i + ceil4 (length s + 1))%nat ∧ (j ≤ length bytes)%nat.
Proof.
  unfold read_osc_string. intros H. destruct (position_nul _) as [n|] eqn:Hp; [|done].
  apply position_nul_Some in Hp as [Hn Hlt]. destruct (utf8_valid _) eqn:Hu; [|done].
  case_match; [done|]. injection H as <- <-. bool_hyps.
  rewrite length_take, Nat.min_l by lia. done.
Qed.

Lemma read_osc_i32_Ok bytes i v j :
  read_osc_i32 bytes i = Ok (v, j) → in_i32 v ∧ j = (i + 4)%nat ∧ (j ≤ length bytes)%nat.
Proof.
  unfold read_osc_i32. destruct (get_range _ _ _) eqn:E; [|done]. intros [= <- <-].
  apply get_range_Some in E as [[] _]. auto using i32_from_be_bound.
Qed.

Lemma read_osc_f32_Ok bytes i v j :
  read_osc_f32 bytes i = Ok (v, j) → f32_ok v ∧ j = (i + 4)%nat ∧ (j ≤ length bytes)%nat.
Proof.
  unfold read_osc_f32. destruct (get_range _ _ _) eqn:E; [|done]. intros [= <- <-].
  pose proof (get_range_length _ _ _ _ E). apply get_range_Some in E as [[] _].
  split_and!; [|done|done]. apply from_be_u32_bound. lia.
Qed.

Lemma read_osc_blob_Ok bytes i v j :
  read_osc_blob bytes i = Ok (v, j) →
  j = (i + (4 + length v + blob_pad (length v)))%nat ∧ (j ≤ length bytes)%nat.
Proof.
  unfold read_osc_blob. intros H. destruct (read_osc_i32 bytes i) as [[size i1]|] eqn:E; [|done].
  apply read_osc_i32_Ok in E as (_ & -> & Hi). destruct (size <? 0); [done|].
  destruct (get_range _ _ _) eqn:Hg; [|done]. pose proof (get_range_length _ _ _ _ Hg) as Hl.
  case_match; [done|]. injection H as <- <-. bool_hyps.
  replace (length l) with (Z.to_nat size) by lia. split; lia.
Qed.

Lemma read_arg_Ok tag bytes i a j :
  read_arg tag bytes i = Ok (a, j) →
  type_tag a = tag ∧ arg_ok a ∧ str_has_nul a = false ∧ j = (i + arg_size a)%nat ∧ (j ≤ length bytes)%nat.
Proof.
  unfold read_arg. intros H. repeat (case_bool_decide; [subst tag|]); try done.
  - destruct (read_osc_i32 _ _) as [[v k]|] eqn:E; [|done]. injection H as <- <-.
    by apply read_osc_i32_Ok in E as (? & -> & ?).
  - destruct (read_osc_f32 _ _) as [[v k]|] eqn:E; [|done]. injection H as <- <-.
    by apply read_osc_f32_Ok in E as (? & -> & ?).
  - destruct (read_osc_string _ _) as [[v k]|] eqn:E; [|done]. injection H as <- <-.
    by apply read_osc_string_Ok in E as (? & ? & -> & ?).
  - destruct (read_osc_blob _ _) as [[v k]|] eqn:E; [|done]. injection H as <- <-.
    by apply read_osc_blob_Ok in E as (-> & ?).
Qed.

Lemma read_args_Ok tags bytes i l j :
  read_args tags bytes i = Ok (l, j) → (i ≤ length bytes)%nat →
  map type_tag l = tags ∧ Forall arg_ok l ∧ existsb str_has_nul l = false
  ∧ j = (i + length (concat (map arg_bytes l)))%nat ∧ (j ≤ length bytes)%nat.
Proof.
  revert i l. induction tags as [|tag tags IH]; intros i l H Hi; cbn [read_args] in H.
  - injection H as <- <-. split_and!; simpl; (done || lia).
  - destruct (read_arg tag bytes i) as [[a i1]|] eqn:Ha; [|done].
    destruct (read_args tags bytes i1) as [[l' i2]|] eqn:Hl; [|done]. injection H as <- <-.
    apply read_arg_Ok in Ha as (<- & Hok & Hn & -> & Hle).
    destruct (IH _ _ Hl Hle) as (<- & Hoks & Hns & -> & Hle2).
    cbn [map concat existsb]. rewrite length_app, arg_bytes_length, Hn. split_and!; [done|by constructor|done|lia|done].
Qed.

Lemma decode_Ok bytes m :
  decode bytes = Ok m →
  message_ok m ∧ no_nuls m ∧ starts_with (addr m) [slash] = true
  ∧ (length (message_bytes m) ≤ length bytes)%nat.
Proof.
  unfold decode. intros H. destruct (read_osc_string bytes 0%nat) as [[address i]|] eqn:Ha; [|done].
  apply read_osc_string_Ok in Ha as (Hu & Hn & -> & Hle).
  destruct (starts_with address [slash]) eqn:Hs; [|done]. simpl in H. case_match.
  { injection H as <-. bool_hyps. split_and!; [by split|by split|done|].
    unfold message_bytes. simpl. rewrite app_nil_r, osc_string_length. lia. }
  destruct (read_osc_string bytes _) as [[tag i]|] eqn:Ht; [|done].
  apply read_osc_string_Ok in Ht as (_ & _ & -> & Hle2).
  destruct tag as [|c tags]; [done|]. case_bool_decide as Hc; [|done]. subst c.
  destruct (read_args tags bytes _) as [[l j]|] eqn:Hl; [|done].
  apply read_args_Ok in Hl as (<- & Hoks & Hns & -> & Hle3); [|done].
  case_match; [|done]. injection H as <-. bool_hyps. split_and!; [by split|by split|done|].
  unfold message_bytes. cbn [addr args]. destruct l as [|a l].
  - rewrite app_nil_r, osc_string_length. lia.
  - rewrite !length_app, !osc_string_length. cbn [length] in *. lia.
Qed.

(** A datagram is only ever rejected as malformed. *)
Lemma read_arg_error tag bytes i e : read_arg tag bytes i = Err e → ∃ what, e = OscErrors.Malformed what.
Proof.
  unfold read_arg, read_osc_blob, read_osc_i32, read_osc_f32, read_osc_string, malformed. intros H.
  repeat split_match_in H; eauto.
Qed.

Lemma read_args_error tags bytes i e : read_args tags bytes i = Err e → ∃ what, e = OscErrors.Malformed what.
Proof.
  revert i. induction tags as [|tag tags IH]; intros i H; cbn [read_args] in H; [done|].
  destruct (read_arg tag bytes i) as [[a j]|] eqn:Ha.
  - destruct (read_args tags bytes j) as [[l k]|] eqn:Hl; simplify_eq. by eapply IH.
  - simplify_eq. by eapply read_arg_error.
Qed.

Lemma decode_error bytes e : decode bytes = Err e → ∃ what, e = OscErrors.Malformed what.
Proof.
  unfold decode. intros H.
  assert (Hs : ∀ i x, read_osc_string bytes i = Err x → ∃ what, x = OscErrors.Malformed what).
  { intros i x. unfold read_osc_string, malformed. intros Hx. repeat split_match_in Hx; eauto. }
  destruct (read_osc_string bytes 0%nat) as [[address i]|] eqn:E1; [|simplify_eq; by eapply Hs].
  unfold malformed in H. case_match; [simplify_eq; eauto|]. case_match; [done|].
  destruct (read_osc_string bytes i) as [[[|c tags] j]|] eqn:E2; [simplify_eq; eauto| |simplify_eq; by eapply Hs].
  case_match; [|simplify_eq; eauto].
  destruct (read_args tags bytes j) as [[l k]|] eqn:E3; [|simplify_eq; by eapply read_args_error].
  case_match; simplify_eq; eauto.
Qed.

(** ** Reply ports, hash addresses and pairs *)

Lemma digit_byte z : 0 ≤ z < 10 → is_digit (b8 (48 + z)) = true.
Proof. intros. unfold is_digit. rewrite u8_b8_small by lia. apply andb_true_iff. rewrite !Z.leb_le. lia. Qed.

Lemma decimal_digits fuel z : 0 ≤ z → Forall (λ b, is_digit b = true) (decimal_fuel fuel z).
Proof.
  revert z. induction fuel as [|fuel IH]; intros z Hz; [constructor|]. cbn [decimal_fuel].
  apply list.Forall_app. split.
  - destruct (z <? 10); [constructor|]. apply IH. apply Z.div_pos; lia.
  - constructor; [|constructor]. apply digit_byte. apply Z.mod_pos_bound. lia.
Qed.

Lemma decimal_nonempty z : (0 < length (decimal z))%nat.
Proof. unfold decimal. cbn [decimal_fuel]. rewrite length_app. simpl. lia. Qed.

Lemma count_digits_app ds b s :
  Forall (λ b, is_digit b = true) ds → is_digit b = false → count_digits (ds ++ b :: s) = length ds.
Proof. intros Hd Hb. induction Hd as [|d ds Hd Hds IH]; simpl; [by rewrite Hb|]. by rewrite Hd, IH. Qed.

Lemma starts_slash s : starts_with s [slash] = true → ∃ rest, s = slash :: rest.
Proof.
  destruct s as [|b s]; [done|]. simpl. intros [H _]%andb_true_iff.
  apply bool_decide_eq_true in H. subst. by exists s.
Qed.

Lemma strip_with_reply_port port m :
  0 ≤ port → starts_with (addr m) [slash] = true →
  strip_reply_port (addr (with_reply_port port m)) = addr m.
Proof.
  intros Hp [rest E]%starts_slash. unfold strip_reply_port, with_reply_port. cbn [addr].
  rewrite strip_prefix_app, E.
  rewrite count_digits_app by (done || by apply decimal_digits).
  rewrite drop_app_length. rewrite (proj2 (Nat.ltb_lt _ _) (decimal_nonempty port)). change (slash :: rest) with ([slash] ++ rest). by rewrite starts_with_app.
Qed.

Lemma hex_digit_value d : 0 ≤ d < 16 → hex_value (hex_digit d) = Some d.
Proof.
  intros Hd. assert (Z.to_nat d < 16)%nat as Hn by lia. rewrite <- (Z2Nat.id d) by lia.
  revert Hn. generalize (Z.to_nat d). intros n Hn. do 16 (destruct n as [|n]; [done|]). lia.
Qed.

Lemma nibble_range z : 0 ≤ Z.land z 0xf < 16.
Proof. change 0xf with (Z.ones 4). rewrite Z.land_ones by lia. by apply Z.mod_pos_bound. Qed.

Lemma hex_digits_app n z acc rest :
  0 ≤ acc → acc * 16 ^ Z.of_nat n + z mod 16 ^ Z.of_nat n < 2 ^ 32 →
  hex_digits (hex n z ++ rest) acc = hex_digits rest (acc * 16 ^ Z.of_nat n + z mod 16 ^ Z.of_nat n).
Proof.
  revert z rest. induction n as [|n IH]; intros z rest Ha Hb; cbn [hex].
  - change (16 ^ Z.of_nat 0) with 1. rewrite Z.mod_1_r, app_nil_l. f_equal. lia.
  - pose proof (nibble_range z) as Hn.
    assert (E : z mod 16 ^ Z.of_nat (S n) = (z ≫ 4) mod 16 ^ Z.of_nat n * 16 + Z.land z 0xf).
    { change 0xf with (Z.ones 4). rewrite Z.land_ones, Z.shiftr_div_pow2 by lia.
      rewrite Nat2Z.inj_succ, Z.pow_succ_r by lia.
      rewrite Z.rem_mul_r by (try apply Z.pow_nonzero; lia). change (2 ^ 4) with 16. lia. }
    assert (P : 16 ^ Z.of_nat (S n) = 16 * 16 ^ Z.of_nat n) by (rewrite Nat2Z.inj_succ, Z.pow_succ_r; lia).
    assert (0 < 16 ^ Z.of_nat n) by (apply Z.pow_pos_nonneg; lia).
    pose proof (Z.mod_pos_bound (z ≫ 4) (16 ^ Z.of_nat n) ltac:(done)).
    rewrite E, P in Hb |- *. rewrite <- (assoc_L (++)), IH by nia.
    cbn [app hex_digits]. rewrite hex_digit_value by done. cbn [mbind option_bind].
    rewrite (proj2 (Z.ltb_lt _ _)) by lia. f_equal. lia.
Qed.

Lemma hex_head n z : ∃ d s, 0 ≤ d < 16 ∧ hex (S n) z = hex_digit d :: s.
Proof.
  revert z. induction n as [|n IH]; intros z.
  - exists (Z.land z 0xf), []. split; [apply nibble_range|done].
  - destruct (IH (z ≫ 4)) as (d & s & Hd & E). exists d. eexists. split; [done|].
    change (hex (S (S n)) z) with (hex (S n) (z ≫ 4) ++ [hex_digit (Z.land z 15)]). rewrite E. done.
Qed.

Lemma radix_hex z : in_u32 z → from_str_radix_16 (hex 8 z) = Some z.
Proof.
  intros Hz. destruct (hex_head 7 z) as (d & s & Hd & E).
  assert (from_str_radix_16 (hex 8 z) = hex_digits (hex 8 z ++ []) 0) as ->.
  { rewrite app_nil_r, E. unfold from_str_radix_16. rewrite bool_decide_eq_false_2; [done|].
    intros H. pose proof (hex_digit_value d Hd) as Hv. by rewrite H in Hv. }
  rewrite hex_digits_app; rewrite ?Z.mod_small; simpl; try done; try width.
Qed.

(** ** Pairs and their grammar *)

Definition pair_text (p : list byte * list byte) : list byte := p.1 ++ [equals] ++ p.2.

(** What the checks leave of a pair. *)
Lemma format_pairs_Ok pairs l :
  format_pairs pairs = Ok l →
  l = map pair_text pairs
  ∧ Forall (λ p, contains_any [equals] p.1 = false ∧ contains_any [comma] (pair_text p) = false) pairs.
Proof.
  revert l. induction pairs as [|[name value] pairs IH]; intros l H; cbn [format_pairs] in H.
  - by injection H as <-.
  - destruct (bad_pair_name name) eqn:Hn; [done|]. destruct (bad_pair_value value) eqn:Hv; [done|].
    destruct (format_pairs pairs) as [rest|]; [|done]. injection H as <-.
    destruct (IH _ eq_refl) as [-> Hp]. split; [done|]. constructor; [|done]. cbn [fst].
    unfold bad_pair_name in Hn. rewrite !orb_false_iff in Hn. destruct Hn as [[[[_ Hn] _] _] _].
    unfold bad_pair_value in Hv. apply orb_false_iff in Hv as [Hv _].
    assert (equals ∈ str "/.,=" ∧ comma ∈ str "/.,=") as [? ?] by (split; apply (bool_decide_unpack _); done).
    split; [by eapply contains_sub|]. unfold pair_text. cbn [fst snd].
    rewrite !contains_any_app, Hv. by rewrite (contains_sub (str "/.,=") comma name).
Qed.

Lemma dump_pairs pairs :
  Forall (λ p, contains_any [equals] p.1 = false) pairs →
  omap (split_once equals) (filter (λ kv, kv ≠ []) (map pair_text pairs)) = pairs.
Proof.
  induction 1 as [|p pairs Hp Hps IH]; [done|]. cbn [map]. rewrite list.filter_cons, decide_True.
  - cbn [omap list_omap]. unfold pair_text at 1. cbn [app]. rewrite split_once_app by done. rewrite IH. by destruct p.
  - unfold pair_text. by destruct p.1.
Qed.

Lemma without_star_app s : without_star (s ++ star) = s.
Proof. unfold without_star. by rewrite strip_suffix_app. Qed.

Lemma without_star_none s : ends_with s star = false → without_star s = s.
Proof. unfold without_star, strip_suffix. by intros ->. Qed.

Lemma plain_address s : starts_with s (str "/%") = false → strip_reply_port s = s.
Proof. intros H. unfold strip_reply_port. by rewrite strip_prefix_none. Qed.

Lemma reply_matches_path names request reply :
  starts_with request (str "/%") = false → starts_with request (str "/#") = false →
  reply_matches names request reply = bytes_eqb (without_star reply) request.
Proof.
  intros H1 H2. unfold reply_matches. by rewrite plain_address, strip_prefix_none, orb_false_r.
Qed.

Lemma reply_matches_hash names id reply :
  in_i32 id →
  reply_matches names (addr (get_param_by_id id)) reply = true
  ↔ without_star reply = addr (get_param_by_id id)
    ∨ ∃ l, names id = Some l ∧ without_star reply ∈ l.
Proof.
  intros Hid. unfold reply_matches. rewrite plain_address by done. unfold get_param_by_id. cbn [addr].
  rewrite strip_prefix_app, radix_hex by (pose proof (Z.mod_pos_bound id (2 ^ 32) eq_refl); done).
  rewrite wrap_signed_mod, wrap_signed_id by width. rewrite orb_true_iff, bytes_eqb_eq.
  apply or_iff_compat_l. destruct (names id) as [l|]; [|by split; [|intros (? & ? & _)]].
  rewrite existsb_exists. setoid_rewrite bytes_eqb_eq. split.
  - intros (x & Hx & ->). exists l. split; [done|]. by apply list_elem_of_In.
  - intros (? & [= <-] & Hx). exists (without_star reply). split; [|done]. by apply list_elem_of_In.
Qed.

(** ** Properties *)

(** C20: [encode] either writes a whole number of 32-bit words within the packet limit, or
    refuses the message, exactly when a string has a NUL inside or the encoded message is
    over the limit.  What it writes [decode] reads back unchanged when the address starts
    with a slash; [encode] does not check that, and [decode] refuses every other message. *)
Theorem osc_roundtrip m :
  message_ok m →
  match encode m with
  | Ok b =>
      decode b = (if starts_with (addr m) [slash] then Ok m
        else malformed (str "address pattern must start with '/' (bundles are not supported)"))
      ∧ (length b `mod` 4 = 0)%nat ∧ Z.of_nat (length b) ≤ MAX_PACKET_BYTES
  | Err (OscErrors.Malformed _) => ¬ no_nuls m
  | Err (OscErrors.TooLarge n) => no_nuls m ∧ n = Z.of_nat (length (message_bytes m)) ∧ MAX_PACKET_BYTES < n
  | Err _ => False
  end.
Proof.
  intros Hm. rewrite encode_eq. destruct (has_nul (addr m) || existsb str_has_nul (args m)) eqn:E.
  - intros [H1 H2]. by rewrite H1, H2 in E.
  - apply orb_false_iff in E as Hn. destruct (Z.ltb_spec MAX_PACKET_BYTES (Z.of_nat (length (message_bytes m)))).
    + done.
    + split_and!; [|apply message_bytes_mod|done].
      destruct (starts_with _ _) eqn:Hs; [by apply decode_message|by apply decode_no_slash].
Qed.

(** Whatever datagram [decode] accepts is a well-formed message that [encode] can send
    again, in a form that is never longer and decodes to the same message: explicit empty
    tag strings and the content of padding bytes are all that is lost. *)
Theorem osc_resend bytes m :
  decode bytes = Ok m → Z.of_nat (length bytes) ≤ MAX_PACKET_BYTES →
  message_ok m ∧ ∃ b, encode m = Ok b ∧ decode b = Ok m ∧ (length b ≤ length bytes)%nat.
Proof.
  intros (Hm & [H1 H2] & Hs & Hle)%decode_Ok Hmax. split; [done|]. exists (message_bytes m).
  rewrite encode_eq, H1, H2, (proj2 (Z.ltb_ge _ _)) by lia. split_and!; [done| |done].
  apply decode_message; [done|done|done|lia].
Qed.

(** A reply answers a request by path exactly when its address is that path or its node
    acknowledgement, whatever reply port the request named; a request by hash is answered
    by the echo of its address and by every path the property map gives the hash. *)
Theorem reply_matches_exact names m port id reply :
  0 ≤ port → starts_with (addr m) (str "/") = true → starts_with (addr m) (str "/#") = false → in_i32 id →
  (reply_matches names (addr (with_reply_port port m)) reply = true ↔ without_star reply = addr m)
  ∧ (reply_matches names (addr (with_reply_port port (get_param_by_id id))) reply = true
     ↔ without_star reply = addr (get_param_by_id id) ∨ ∃ l, names id = Some l ∧ without_star reply ∈ l)
  ∧ without_star (addr m ++ star) = addr m
  ∧ (ends_with (addr m) star = false → without_star (addr m) = addr m).
Proof.
  intros Hp Hs Hh Hid. split_and!.
  - unfold reply_matches. by rewrite strip_with_reply_port, strip_prefix_none, orb_false_r, bytes_eqb_eq.
  - rewrite <- (reply_matches_hash names id reply) by done. unfold reply_matches.
    rewrite strip_with_reply_port by done. by rewrite (plain_address (addr (get_param_by_id id))) by done.
  - apply without_star_app.
  - apply without_star_none.
Qed.

(** The pairs of a node-set request survive the wire grammar: the parser of node dumps
    reads the same names and values, in order, from the payload, with or without the
    trailing comma the console adds. *)
Theorem node_pairs_roundtrip node_path pairs m :
  node_set_local node_path pairs = Ok m →
  addr m = node_path ∧ parse_node_dump m = Ok pairs
  ∧ ∀ payload, args m = [OscArgs.Str payload] → pairs ≠ [] →
      parse_node_dump (mk_message (addr m) [OscArgs.Str (payload ++ [comma])]) = Ok pairs.
Proof.
  unfold node_set_local, format_node_pairs. intros H.
  destruct (validate_address_path node_path); [|done]. destruct (format_pairs pairs) as [l|] eqn:Hf; [|done].
  injection H as <-. apply format_pairs_Ok in Hf as [-> Hp]. cbn [addr args].
  assert (Hcomma : Forall (λ s, contains_any [comma] s = false) (map pair_text pairs)).
  { apply list.Forall_fmap. eapply list.Forall_impl; [exact Hp|]. by intros p [_ ?]. }
  assert (Heq : Forall (λ p, contains_any [equals] p.1 = false) pairs).
  { eapply list.Forall_impl; [exact Hp|]. by intros p [? _]. }
  split_and!; [done| |].
  - unfold parse_node_dump. cbn [args]. destruct pairs as [|p pairs]; [done|].
    rewrite split_join by done. by rewrite dump_pairs.
  - intros payload [= <-] Hne. unfold parse_node_dump. cbn [args].
    rewrite split_join_trailing by (destruct pairs; done). rewrite list.filter_app.
    change (filter (λ kv : list byte, kv ≠ []) [[]]) with (@nil (list byte)).
    by rewrite app_nil_r, dump_pairs.
Qed.

(** *** Witnesses *)

Definition sample_message : OscMessage :=
  mk_message (str "/ch/1/fdr") [OscArgs.Str (str "-oo"); OscArgs.Float (F32 0x3f800000); OscArgs.Blob [b8 1; b8 0]].

Lemma osc_roundtrip_witness :
  ∃ b, encode sample_message = Ok b ∧ decode b = Ok sample_message.
Proof.
  assert (Hm : message_ok sample_message).
  { split; [reflexivity|]. cbn [args sample_message]. each_elem; cbn [arg_ok]; [reflexivity|vm_compute; split; [discriminate|reflexivity]|exact I]. }
  pose proof (osc_roundtrip sample_message Hm) as H.
  destruct (encode sample_message) as [b|e] eqn:E; [|vm_compute in E; discriminate E].
  exists b. split; [reflexivity|]. apply H.
Defined.

(** The form with an explicit empty tag string: eight bytes, sent again as four. *)
Definition sample_tagged : list byte := str "/?" ++ [nul; nul] ++ str "," ++ [nul; nul; nul].

Lemma osc_resend_witness :
  decode sample_tagged = Ok console_info ∧ ∃ b, encode console_info = Ok b ∧ decode b = Ok console_info.
Proof.
  assert (Hd : decode sample_tagged = Ok console_info) by (vm_compute; reflexivity).
  destruct (osc_resend sample_tagged console_info Hd) as (_ & b & H1 & H2 & _); [vm_compute; discriminate|].
  split; [exact Hd|]. exists b. split; [exact H1|exact H2].
Defined.

Lemma reply_matches_exact_witness :
  reply_matches (λ _, Some [str "/fx/1/HALL/pdel"]) (str "/%9001/#260fca55") (str "/fx/1/HALL/pdel") = true
  ∧ without_star (str "/*") = str "/".
Proof.
  assert (Hid : in_i32 638569045) by (vm_compute; split; [discriminate|reflexivity]).
  destruct (reply_matches_exact (λ _, Some [str "/fx/1/HALL/pdel"]) (mk_message (str "/") []) 9001 638569045
    (str "/fx/1/HALL/pdel") ltac:(lia) eq_refl eq_refl Hid) as (_ & H & Hstar & _).
  split; [|exact Hstar].
  replace (str "/%9001/#260fca55") with (addr (with_reply_port 9001 (get_param_by_id 638569045)))
    by (vm_compute; reflexivity).
  apply H. right. eexists. split; [reflexivity|]. vm_compute. left.
Defined.

Definition sample_pairs : list (list byte * list byte) :=
  [(str "fdr", str "4"); (str "name", str "a=b"); (str "mute", [])].

Lemma node_pairs_roundtrip_witness :
  ∃ m, node_set_local (str "/ch/1") sample_pairs = Ok m ∧ parse_node_dump m = Ok sample_pairs.
Proof.
  destruct (node_set_local (str "/ch/1") sample_pairs) as [m|e] eqn:E; [|vm_compute in E; discriminate E].
  destruct (node_pairs_roundtrip _ _ _ E) as (_ & H & _). exists m. split; [reflexivity|exact H].
Defined.
