(* ===== verification/OscClient.v ===== *)
(** The OSC client ([src/src/osc.rs], [WingOscClient]): requests with their retry policy,
    unsolicited traffic, and subscriptions that renew themselves while events are polled.

    The environment of a client is what its socket delivers and when: [incoming] lists the
    arrivals in order, each with its time, and [send_outcomes] says which sends fail (those
    past its end succeed).  Time is in microseconds and passes while a receive waits; [sent]
    records every datagram handed to the socket with the time of the send.  A loop of the
    source is a fuelled function that returns [None] out of fuel; the theorems show that the
    fuel chosen by the operation is enough. *)

From S2P Require Import Prelude Timer Text Bytes Lib Utf8 F32 Osc.
Local Open Scope Z_scope.
Local Open Scope rust_scope.

(** ** Data *)

Definition UNSOLICITED_CAP : nat := 1024.
Definition DUPLICATE_DRAIN_CAP : nat := 64.
Definition DUPLICATE_WAIT : Z := 200.
Definition SUBSCRIPTION_EXPIRY : Z := 10 * 1000 * MILLISECOND.
Definition SUBSCRIPTION_RENEW_MARGIN : Z := 5 * 1000 * MILLISECOND.

Record SubscriptionState := mk_subscription {
  sub_format : SubscriptionFormat;
  renew_interval : Z;
  next_renew : Z;
}.

Record RequestPolicy := mk_policy { attempts : Z; timeout_per_attempt : Z }.

(** [RequestPolicy::default]. *)
Definition default_policy : RequestPolicy := mk_policy 3 (500 * MILLISECOND).

(** What a receive may find: a datagram, or an error of the socket. *)
Inductive Arrival :=
| Datagram (bytes : list byte)
| SocketError (kind : ErrorKind).

Record OscClient := mk_client {
  reply_port : option Z;
  unsolicited : list OscMessage;
  unsolicited_dropped : Z;
  subscription : option SubscriptionState;
  now : Z;
  incoming : list (Z * Arrival);
  send_outcomes : list (option ErrorKind);
  sent : list (Z * list byte);
}.

Definition set_unsolicited (c : OscClient) (u : list OscMessage) (d : Z) : OscClient :=
  mk_client (reply_port c) u d (subscription c) (now c) (incoming c) (send_outcomes c) (sent c).
Definition set_subscription (c : OscClient) (s : option SubscriptionState) : OscClient :=
  mk_client (reply_port c) (unsolicited c) (unsolicited_dropped c) s (now c) (incoming c) (send_outcomes c) (sent c).
Definition set_now (c : OscClient) (t : Z) : OscClient :=
  mk_client (reply_port c) (unsolicited c) (unsolicited_dropped c) (subscription c) t (incoming c) (send_outcomes c) (sent c).
Definition set_incoming (c : OscClient) (l : list (Z * Arrival)) : OscClient :=
  mk_client (reply_port c) (unsolicited c) (unsolicited_dropped c) (subscription c) (now c) l (send_outcomes c) (sent c).
Definition set_sends (c : OscClient) (o : list (option ErrorKind)) (s : list (Z * list byte)) : OscClient :=
  mk_client (reply_port c) (unsolicited c) (unsolicited_dropped c) (subscription c) (now c) (incoming c) o s.

(** ** Sending and receiving *)

Definition send_ (msg : OscMessage) : M OscClient OscError unit := λ c,
  match encode msg with
  | Err e => (Err e, c)
  | Ok bytes =>
    match send_outcomes c with
    | Some kind :: later => (Err (OscErrors.Io kind), set_sends c later (sent c))
    | None :: later => (Ok tt, set_sends c later (sent c ++ [(now c, bytes)]))
    | [] => (Ok tt, set_sends c [] (sent c ++ [(now c, bytes)]))
    end
  end.

(** The buffer of a receive holds [MAX_PACKET_BYTES]; a longer datagram is cut. *)
Definition recv_buffer (bytes : list byte) : list byte :=
  if Z.of_nat (length bytes) <=? MAX_PACKET_BYTES then bytes else take (Z.to_nat MAX_PACKET_BYTES) bytes.

(** [sock.recv] under a read timeout, with the error kinds of [recv]. *)
Definition recv_datagram (timeout : Z) : M OscClient OscError (list byte) := λ c,
  let waited := (Err OscErrors.Timeout, set_now c (now c + timeout)) in
  match incoming c with
  | [] => waited
  | (at_, arrival) :: rest =>
    if at_ <=? now c + timeout then
      let c := set_incoming (set_now c (Z.max (now c) at_)) rest in
      match arrival with
      | Datagram bytes => (Ok (recv_buffer bytes), c)
      | SocketError WouldBlock | SocketError TimedOut => (Err OscErrors.Timeout, c)
      | SocketError kind => (Err (OscErrors.Io kind), c)
      end
    else waited
  end.

Definition recv (timeout : Z) : M OscClient OscError OscMessage :=
  let! bytes := recv_datagram timeout in lift (decode bytes).

Definition buffer_unsolicited (msg : OscMessage) (c : OscClient) : OscClient :=
  if (UNSOLICITED_CAP <=? length (unsolicited c))%nat then
    set_unsolicited c (tail (unsolicited c) ++ [msg]) ((unsolicited_dropped c + 1) mod 2 ^ 64)
  else set_unsolicited c (unsolicited c ++ [msg]) (unsolicited_dropped c).

(** ** Requests *)

Fixpoint drain_loop (n : nat) (matched : OscMessage) (deadline : Z) (c : OscClient) : OscClient :=
  match n with
  | O => c
  | S n =>
    if deadline <=? now c then c
    else
      match recv_datagram DUPLICATE_WAIT c with
      | (Err _, c) => c
      | (Ok bytes, c) =>
        match decode bytes with
        | Ok msg => if osc_message_eqb msg matched then drain_loop n matched deadline c else buffer_unsolicited msg c
        | Err (OscErrors.Malformed _) => drain_loop n matched deadline c
        | Err _ => c
        end
      end
  end.

Definition drain_duplicate_replies (matched : OscMessage) (deadline : Z) (c : OscClient) : OscClient :=
  drain_loop DUPLICATE_DRAIN_CAP matched deadline c.

Section Request.
Context (id_to_names : Z → option (list (list byte))).

Fixpoint request_loop (fuel : nat) (msg : OscMessage) (deadline : Z) (c : OscClient)
    : option (OscResult OscMessage * OscClient) :=
  match fuel with
  | O => None
  | S fuel =>
    let remaining := Z.max 0 (deadline - now c) in
    if remaining =? 0 then Some (Err OscErrors.Timeout, c)
    else
      match recv remaining c with
      | (Ok reply, c) =>
        if reply_matches id_to_names (addr msg) (addr reply) then
          Some (Ok reply, drain_duplicate_replies reply deadline c)
        else request_loop fuel msg deadline (buffer_unsolicited reply c)
      | (Err (OscErrors.Malformed _), c) => request_loop fuel msg deadline c
      | (Err e, c) => Some (Err e, c)
      end
  end.

(** A round that goes on has taken one arrival. *)
Definition request (msg : OscMessage) (timeout : Z) (c : OscClient)
    : option (OscResult OscMessage * OscClient) :=
  let deadline := now c + timeout in
  match send_ msg c with
  | (Err e, c) => Some (Err e, c)
  | (Ok _, c) => request_loop (S (length (incoming c))) msg deadline c
  end.

(** The attempts from [attempt] on; [n] of them are left. *)
Fixpoint retry_loop (n : nat) (attempt : Z) (msg : OscMessage) (policy : RequestPolicy) (c : OscClient)
    : option (OscResult OscMessage * OscClient) :=
  match n with
  | O => Some (Err (OscErrors.RetriesExhausted (attempts policy)), c)
  | S n =>
    match request msg (timeout_per_attempt policy) c with
    | None => None
    | Some (Ok reply, c) => Some (Ok reply, c)
    | Some (Err OscErrors.Timeout, c) =>
      if attempt <? attempts policy then retry_loop n (attempt + 1) msg policy c
      else Some (Err (OscErrors.RetriesExhausted attempt), c)
    | Some (Err e, c) => Some (Err e, c)
    end
  end.

Definition request_with_policy (msg : OscMessage) (policy : RequestPolicy) (c : OscClient)
    : option (OscResult OscMessage * OscClient) :=
  if is_relative_write msg then request msg (timeout_per_attempt policy) c
  else retry_loop (Z.to_nat (Z.max (attempts policy) 1)) 1 msg policy c.
End Request.

(** Drains the buffer, and the count of messages it had to drop. *)
Definition take_unsolicited (c : OscClient) : list OscMessage * OscClient :=
  (unsolicited c, set_unsolicited c [] (unsolicited_dropped c)).
Definition take_unsolicited_dropped (c : OscClient) : Z * OscClient :=
  (unsolicited_dropped c, set_unsolicited c (unsolicited c) 0).

(** ** Subscriptions *)

Definition subscription_message (format : SubscriptionFormat) (c : OscClient) : OscMessage :=
  match reply_port c with
  | Some port => with_reply_port port (Osc.subscribe format)
  | None => Osc.subscribe format
  end.

Definition subscribe_with_renewal (format : SubscriptionFormat) (interval : Z) : M OscClient OscError unit := λ c,
  match send_ (subscription_message format c) c with
  | (Ok _, c) => (Ok tt, set_subscription c (Some (mk_subscription format interval (now c + interval))))
  | (Err e, c) => (Err e, c)
  end.

Definition subscribe (format : SubscriptionFormat) : M OscClient OscError unit :=
  subscribe_with_renewal format SUBSCRIPTION_RENEW_MARGIN.

Definition renew_due (c : OscClient) : bool :=
  match subscription c with Some s => next_renew s <=? now c | None => false end.

Definition renew : M OscClient OscError unit := λ c,
  match subscription c with
  | None => (Ok tt, c)
  | Some s =>
    match send_ (subscription_message (sub_format s) c) c with
    | (Ok _, c) =>
      (Ok tt, set_subscription c (Some (mk_subscription (sub_format s) (renew_interval s) (now c + renew_interval s))))
    | (Err e, c) => (Err e, c)
    end
  end.

(** How long one receive of [poll_event] waits. *)
Definition poll_wait (deadline : Z) (c : OscClient) : Z :=
  let until_deadline := Z.max 0 (deadline - now c) in
  let until_renew :=
    match subscription c with Some s => Z.max 0 (next_renew s - now c) | None => until_deadline end in
  Z.max (Z.min until_deadline until_renew) MILLISECOND.

Fixpoint poll_loop (fuel : nat) (deadline : Z) (c : OscClient) : option (OscResult OscEvent * OscClient) :=
  match fuel with
  | O => None
  | S fuel =>
    match (if renew_due c then renew c else (Ok tt, c)) with
    | (Err e, c) => Some (Err e, c)
    | (Ok _, c) =>
      if Z.max 0 (deadline - now c) =? 0 then Some (Err OscErrors.Timeout, c)
      else
        match recv (poll_wait deadline c) c with
        | (Ok msg, c) => Some (Ok (classify_event msg), c)
        | (Err OscErrors.Timeout, c) => poll_loop fuel deadline c
        | (Err e, c) => Some (Err e, c)
        end
    end
  end.

(** A round that goes on has taken an arrival or let a millisecond pass. *)
Definition poll_fuel (timeout : Z) (c : OscClient) : nat :=
  length (incoming c) + Z.to_nat (timeout / MILLISECOND + 2).

Definition poll_event (timeout : Z) (c : OscClient) : option (OscResult OscEvent * OscClient) :=
  match subscription c with
  | None => Some (malformed (str "poll_event called with no active subscription"), c)
  | Some _ => poll_loop (poll_fuel timeout c) (now c + timeout) c
  end.

(** ** What a client has taken from its socket *)

Definition decoded1 (ev : Z * Arrival) : option OscMessage :=
  match ev.2 with
  | Datagram bytes => match decode (recv_buffer bytes) with Ok m => Some m | Err _ => None end
  | SocketError _ => None
  end.

(** The messages among the arrivals: what cannot be decoded is skipped. *)
Definition decoded (evs : list (Z * Arrival)) : list OscMessage := omap decoded1 evs.

(** Only the buffer of unsolicited messages may differ: [others] went into it, the oldest
    went out and were counted once it was full. *)
Record buffers (c c' : OscClient) (others : list OscMessage) : Prop := {
  buffers_lossless : ∃ evicted, evicted ++ unsolicited c' = unsolicited c ++ others
    ∧ unsolicited_dropped c' = (unsolicited_dropped c + Z.of_nat (length evicted)) mod 2 ^ 64
    ∧ (evicted = [] ∨ length (unsolicited c') = UNSOLICITED_CAP);
  buffers_cap : (length (unsolicited c') ≤ UNSOLICITED_CAP)%nat;
  buffers_rest : sent c' = sent c ∧ subscription c' = subscription c ∧ reply_port c' = reply_port c
    ∧ send_outcomes c' = send_outcomes c;
}.

(** A well-formed buffer: within its cap, its count within its width. *)
Definition client_ok (c : OscClient) : Prop :=
  (length (unsolicited c) ≤ UNSOLICITED_CAP)%nat ∧ 0 ≤ unsolicited_dropped c < 2 ^ 64.

Lemma buffers_ok c c' others : client_ok c → buffers c c' others → client_ok c'.
Proof.
  intros Hc [(ev & _ & Hd & _) Hcap _]. split; [done|]. rewrite Hd. by apply Z.mod_pos_bound.
Qed.

(** A step that leaves the buffer alone. *)
Lemma buffers_same c c' :
  client_ok c → unsolicited c' = unsolicited c → unsolicited_dropped c' = unsolicited_dropped c →
  sent c' = sent c → subscription c' = subscription c → reply_port c' = reply_port c →
  send_outcomes c' = send_outcomes c → buffers c c' [].
Proof.
  intros [Hcap Hd] Hu Hdr ? ? ? ?. split; [|by rewrite Hu|done]. exists [].
  rewrite Hu, Hdr, app_nil_r. split_and!; [done| |by left]. simpl. rewrite Z.add_0_r, Z.mod_small by lia. done.
Qed.

Lemma buffers_trans c1 c2 c3 o1 o2 :
  buffers c1 c2 o1 → buffers c2 c3 o2 → buffers c1 c3 (o1 ++ o2).
Proof.
  intros [(e1 & E1 & D1 & F1) _ (? & ? & ? & ?)] [(e2 & E2 & D2 & F2) Hcap (? & ? & ? & ?)].
  split; [|done|split_and!; congruence]. exists (e1 ++ e2). split_and!.
  - by rewrite <- (assoc_L (++)), E2, !(assoc_L (++)), E1.
  - rewrite D2, D1, length_app, Nat2Z.inj_add, Z.add_mod_idemp_l by done. f_equal. lia.
  - destruct F2 as [->|F2]; [|by right]. destruct F1 as [->|F1]; [by left|]. right.
    rewrite app_nil_l in E2. rewrite E2, length_app in Hcap. rewrite E2, length_app. lia.
Qed.

Lemma buffer_unsolicited_ok c msg : client_ok c → buffers c (buffer_unsolicited msg c) [msg].
Proof.
  intros [Hcap Hd]. unfold buffer_unsolicited. destruct (Nat.leb_spec UNSOLICITED_CAP (length (unsolicited c))) as [Hf|Hf].
  - split; [|simpl; rewrite length_app, length_tl; simpl; unfold UNSOLICITED_CAP in *; lia|done].
    destruct (unsolicited c) as [|old u] eqn:Hu; [simpl in Hf; unfold UNSOLICITED_CAP in *; lia|].
    exists [old]. simpl. split_and!; [done|done|]. right. rewrite length_app. simpl in *. lia.
  - split; [|simpl; rewrite length_app; simpl; lia|done].
    exists []. simpl. split_and!; [done| |by left]. rewrite Z.add_0_r, Z.mod_small by lia. done.
Qed.

Lemma now_buffer_unsolicited c msg : now (buffer_unsolicited msg c) = now c ∧ incoming (buffer_unsolicited msg c) = incoming c.
Proof. unfold buffer_unsolicited. by case_match. Qed.

(** What one receive does. *)
Record received (timeout : Z) (c c' : OscClient) (evs : list (Z * Arrival)) : Prop := {
  received_incoming : incoming c = evs ++ incoming c';
  received_same : unsolicited c' = unsolicited c ∧ unsolicited_dropped c' = unsolicited_dropped c ∧ sent c' = sent c
    ∧ subscription c' = subscription c ∧ reply_port c' = reply_port c ∧ send_outcomes c' = send_outcomes c;
  received_now : now c ≤ now c' ≤ now c + timeout;
}.

Lemma received_buffers timeout c c' evs : client_ok c → received timeout c c' evs → buffers c c' [].
Proof. intros Hc [_ (? & ? & ? & ? & ? & ?) _]. by apply buffers_same. Qed.

Lemma recv_datagram_spec timeout c r c' :
  0 ≤ timeout → recv_datagram timeout c = (r, c') →
  ∃ evs, received timeout c c' evs ∧
  match r with
  | Ok b => ∃ t bytes, evs = [(t, Datagram bytes)] ∧ b = recv_buffer bytes
  | Err OscErrors.Timeout =>
      (evs = [] ∧ now c' = now c + timeout ∧ (∀ ev rest, incoming c' = ev :: rest → now c + timeout < ev.1))
      ∨ ∃ t k, evs = [(t, SocketError k)]
  | Err e => (∃ k, e = OscErrors.Io k) ∧ ∃ t k, evs = [(t, SocketError k)]
  end.
Proof.
  intros Ht H. unfold recv_datagram in H. destruct (incoming c) as [|[t a] rest] eqn:Hi.
  - injection H as <- <-. exists []. split; [split; simpl; [done|done|lia]|]. left. split_and!; [done..|].
    simpl. by rewrite Hi.
  - destruct (Z.leb_spec t (now c + timeout)) as [Hle|Hgt].
    + assert (R : received timeout c (set_incoming (set_now c (now c `max` t)) rest) [(t, a)])
        by (split; simpl; [done|done|lia]).
      destruct a as [bytes|k]; [|destruct k]; injection H as <- <-; eexists; (split; [exact R|]); eauto.
    + injection H as <- <-. exists []. split; [split; simpl; [done|done|lia]|]. left.
      split_and!; [done..|]. simpl. rewrite Hi. by intros ev rest' [= <- <-].
Qed.

Lemma decoded_single ev : decoded [ev] = match decoded1 ev with Some m => [m] | None => [] end.
Proof. unfold decoded. simpl. by destruct (decoded1 ev). Qed.

Lemma decoded_app l1 l2 : decoded (l1 ++ l2) = decoded l1 ++ decoded l2.
Proof. apply omap_app. Qed.

Lemma recv_spec timeout c r c' :
  0 ≤ timeout → recv timeout c = (r, c') →
  ∃ evs, received timeout c c' evs ∧
  match r with
  | Ok m => (∃ t bytes, evs = [(t, Datagram bytes)]) ∧ decoded evs = [m]
  | Err (OscErrors.Malformed _) => (∃ t bytes, evs = [(t, Datagram bytes)]) ∧ decoded evs = []
  | Err OscErrors.Timeout => decoded evs = [] ∧
      ((evs = [] ∧ now c' = now c + timeout ∧ (∀ ev rest, incoming c' = ev :: rest → now c + timeout < ev.1))
       ∨ ∃ t k, evs = [(t, SocketError k)])
  | Err e => decoded evs = [] ∧ (∃ k, e = OscErrors.Io k) ∧ ∃ t k, evs = [(t, SocketError k)]
  end.
Proof.
  intros Ht H. unfold recv, bind, lift in H. destruct (recv_datagram timeout c) as [r0 c1] eqn:E.
  apply recv_datagram_spec in E as (evs & R & Hr); [|done]. destruct r0 as [b|e].
  - injection H as <- <-. exists evs. split; [done|]. destruct Hr as (t & bytes & -> & ->).
    assert (Hd : decoded [(t, Datagram bytes)] = match decode (recv_buffer bytes) with Ok m => [m] | Err _ => [] end).
    { rewrite decoded_single. unfold decoded1. cbn. by destruct (decode _). }
    rewrite Hd. pose proof (decode_error (recv_buffer bytes)) as He.
    destruct (decode (recv_buffer bytes)) as [m|e]; [eauto|]. destruct (He e eq_refl) as [what ->]. eauto.
  - injection H as <- <-. exists evs. split; [done|].
    destruct e; try (destruct Hr as [[k [=]] _]; done).
    + destruct Hr as [Hk (t & k & ->)]. eauto.
    + destruct Hr as [(-> & ? & ?)|(t & k & ->)]; (split; [done|]); [by left|right; eauto].
Qed.

(** ** Requests *)

Lemma drain_loop_spec n matched deadline c :
  client_ok c →
  let c' := drain_loop n matched deadline c in
  ∃ evs, incoming c = evs ++ incoming c' ∧ buffers c c' (filter (λ m, osc_message_eqb m matched = false) (decoded evs))
    ∧ now c ≤ now c' ≤ Z.max (now c) (deadline + DUPLICATE_WAIT).
Proof.
  revert c. induction n as [|n IH]; intros c Hc; cbn [drain_loop].
  { exists []. split_and!; [done|by apply buffers_same|lia|lia]. }
  destruct (Z.leb_spec deadline (now c)) as [|Hlt].
  { exists []. split_and!; [done|by apply buffers_same|lia|lia]. }
  destruct (recv_datagram DUPLICATE_WAIT c) as [r c1] eqn:E.
  apply recv_datagram_spec in E as (evs & R & Hr); [|done].
  pose proof (received_buffers _ _ _ _ Hc R) as B. pose proof (received_incoming _ _ _ _ R) as I.
  pose proof (received_now _ _ _ _ R) as T. pose proof (buffers_ok _ _ _ Hc B) as Hc1.
  destruct r as [b|e].
  - destruct Hr as (t & bytes & -> & ->).
    assert (Hd : decoded [(t, Datagram bytes)] = match decode (recv_buffer bytes) with Ok m => [m] | Err _ => [] end).
    { rewrite decoded_single. unfold decoded1. cbn. by destruct (decode _). }
    destruct (decode (recv_buffer bytes)) as [m|e] eqn:Em.
    + destruct (osc_message_eqb m matched) eqn:Hm.
      * destruct (IH c1 Hc1) as (evs & I2 & B2 & T2). exists ((t, Datagram bytes) :: evs).
        split_and!; [rewrite I; simpl; by rewrite <- I2| |lia|lia].
        change (?x :: evs) with ([x] ++ evs). rewrite decoded_app, Hd, list.filter_app.
        rewrite list.filter_cons, decide_False by congruence. by apply (buffers_trans _ _ _ _ _ B B2).
      * exists [(t, Datagram bytes)]. destruct (now_buffer_unsolicited c1 m) as [-> ->].
        split_and!; [done| |lia|lia].
        rewrite Hd, list.filter_cons, decide_True by done. apply (buffers_trans _ _ _ _ _ B).
        by apply buffer_unsolicited_ok.
    + apply decode_error in Em as [what ->].
      destruct (IH c1 Hc1) as (evs & I2 & B2 & T2). exists ((t, Datagram bytes) :: evs).
      split_and!; [rewrite I; simpl; by rewrite <- I2| |lia|lia].
      change (?x :: evs) with ([x] ++ evs). rewrite decoded_app, Hd. by apply (buffers_trans _ _ _ _ _ B B2).
  - exists evs. split_and!; [done| |lia|lia].
    assert (decoded evs = []) as ->; [|done].
    destruct e; try (destruct Hr as [_ (t & k & ->)]; done).
    by destruct Hr as [(-> & _ & _)|(t & k & ->)].
Qed.

Section RequestLemmas.
Context (id_to_names : Z → option (list (list byte))).

Abbreviation matches msg := (λ m : OscMessage, reply_matches id_to_names (addr msg) (addr m) = true).

(** What came of a request: the arrivals it took, and which of their messages it put aside. *)
Definition request_outcome (msg : OscMessage) (res : OscResult OscMessage) (msgs others : list OscMessage) : Prop :=
  match res with
  | Ok r => ∃ before after, msgs = before ++ r :: after ∧ Forall (λ m, ¬ matches msg m) before ∧ matches msg r
      ∧ others = before ++ filter (λ m, osc_message_eqb m r = false) after
  | Err e => others = msgs ∧ Forall (λ m, ¬ matches msg m) msgs ∧ (e = OscErrors.Timeout ∨ ∃ k, e = OscErrors.Io k)
  end.

Lemma outcome_cons msg res m msgs others :
  ¬ matches msg m → request_outcome msg res msgs others → request_outcome msg res (m :: msgs) (m :: others).
Proof.
  intros Hm. destruct res as [r|e]; simpl.
  - intros (before & after & -> & Hb & Hr & ->). exists (m :: before), after. split_and!; [done|by constructor|done..].
  - intros (-> & Hf & He). split_and!; [done|by constructor|done].
Qed.

Lemma request_loop_spec fuel msg deadline c :
  client_ok c → (length (incoming c) < fuel)%nat → now c ≤ deadline →
  ∃ res c' evs others, request_loop id_to_names fuel msg deadline c = Some (res, c')
    ∧ incoming c = evs ++ incoming c' ∧ buffers c c' others ∧ request_outcome msg res (decoded evs) others
    ∧ now c ≤ now c' ≤ deadline + DUPLICATE_WAIT.
Proof.
  revert c. induction fuel as [|fuel IH]; intros c Hc Hf Hdl; [lia|]. cbn [request_loop].
  destruct (Z.eqb_spec (Z.max 0 (deadline - now c)) 0) as [|Hrem].
  { exists (Err OscErrors.Timeout), c, [], []. split_and!; [done|done|by apply buffers_same| |lia|unfold DUPLICATE_WAIT; lia].
    split_and!; [done|constructor|by left]. }
  destruct (recv _ c) as [r c1] eqn:E. apply recv_spec in E as (evs & R & Hr); [|lia].
  pose proof (received_buffers _ _ _ _ Hc R) as B. pose proof (received_incoming _ _ _ _ R) as I.
  pose proof (received_now _ _ _ _ R) as T. pose proof (buffers_ok _ _ _ Hc B) as Hc1.
  destruct r as [m|e].
  - destruct Hr as [(t & bytes & ->) Hd]. destruct (reply_matches id_to_names (addr msg) (addr m)) eqn:Hm.
    + destruct (drain_loop_spec DUPLICATE_DRAIN_CAP m deadline c1 Hc1) as (evs2 & I2 & B2 & T2).
      eexists (Ok m), _, ((t, Datagram bytes) :: evs2), _. unfold drain_duplicate_replies.
      split; [reflexivity|]. revert I2 B2 T2. generalize (drain_loop DUPLICATE_DRAIN_CAP m deadline c1) as c2. intros c2 I2 B2 T2.
      split_and!; [ | | |lia|].
      * rewrite I. simpl. f_equal. exact I2.
      * apply (buffers_trans _ _ _ _ _ B B2).
      * cbn [request_outcome]. exists [], (decoded evs2). change (?x :: evs2) with ([x] ++ evs2). rewrite decoded_app, Hd.
        split_and!; [done|constructor|done|done].
      * unfold DUPLICATE_WAIT in *. lia.
    + destruct (now_buffer_unsolicited c1 m) as [Hn Hi].
      pose proof (buffer_unsolicited_ok c1 m Hc1) as B2.
      destruct (IH (buffer_unsolicited m c1)) as (res & c' & evs2 & others & E2 & I2 & B3 & O & T2).
      * by eapply buffers_ok.
      * rewrite Hi. rewrite I in Hf. simpl in Hf. lia.
      * lia.
      * exists res, c', ((t, Datagram bytes) :: evs2), ([m] ++ others). split_and!; [done| | | |lia|lia].
        -- rewrite I. simpl. f_equal. by rewrite <- Hi.
        -- apply (buffers_trans _ _ _ [] _ B). by apply (buffers_trans _ _ _ _ _ B2).
        -- change (?x :: evs2) with ([x] ++ evs2). rewrite decoded_app, Hd. apply outcome_cons; [by rewrite Hm|done].
  - destruct e.
    + destruct Hr as (Hd & Hk & _). eexists _, c1, evs, []. split_and!; [done|done|done| |lia|unfold DUPLICATE_WAIT; lia].
      rewrite Hd. split_and!; [done|constructor|eauto].
    + destruct Hr as [(t & bytes & ->) Hd].
      destruct (IH c1) as (res & c' & evs2 & others & E2 & I2 & B3 & O & T2); [done| |lia|].
      * rewrite I in Hf. simpl in Hf. lia.
      * exists res, c', ((t, Datagram bytes) :: evs2), others. split_and!; [done| | | |lia|lia].
        -- rewrite I. simpl. by f_equal.
        -- apply (buffers_trans _ _ _ _ _ B B3).
        -- change (?x :: evs2) with ([x] ++ evs2). by rewrite decoded_app, Hd.
    + by destruct Hr as (_ & [k [=]] & _).
    + destruct Hr as [Hd _]. eexists _, c1, evs, []. split_and!; [done|done|done| |lia|unfold DUPLICATE_WAIT; lia].
      rewrite Hd. split_and!; [done|constructor|by left].
    + by destruct Hr as (_ & [k [=]] & _).
    + by destruct Hr as (_ & [k [=]] & _).
Qed.
End RequestLemmas.

(** What a send leaves behind. *)
Lemma send_spec msg c r c' :
  send_ msg c = (r, c') →
  incoming c' = incoming c ∧ unsolicited c' = unsolicited c ∧ unsolicited_dropped c' = unsolicited_dropped c
  ∧ now c' = now c ∧ subscription c' = subscription c ∧ reply_port c' = reply_port c
  ∧ (send_outcomes c = [] → send_outcomes c' = [])
  ∧ match r with
    | Ok _ => ∃ b, encode msg = Ok b ∧ sent c' = sent c ++ [(now c, b)]
    | Err e => sent c' = sent c ∧ (encode msg = Err e ∨ ∃ k, e = OscErrors.Io k)
    end.
Proof.
  unfold send_. intros H. destruct (encode msg) as [b|e] eqn:E.
  - destruct (send_outcomes c) as [|[k|] later] eqn:Eo; injection H as <- <-; split_and!; eauto; done.
  - injection H as <- <-. split_and!; eauto.
Qed.

Lemma send_works msg c b :
  encode msg = Ok b → send_outcomes c = [] → send_ msg c = (Ok tt, set_sends c [] (sent c ++ [(now c, b)])).
Proof. unfold send_. by intros -> ->. Qed.

Lemma encode_error msg e : encode msg = Err e → (∃ what, e = OscErrors.Malformed what) ∨ ∃ n, e = OscErrors.TooLarge n.
Proof. rewrite encode_eq. unfold malformed. intros H. repeat case_match; simplify_eq; eauto. Qed.

Section RequestFacts.
Context (id_to_names : Z → option (list (list byte))).

Lemma request_spec msg timeout c :
  client_ok c → 0 ≤ timeout →
  ∃ res c' evs others times, request id_to_names msg timeout c = Some (res, c')
    ∧ incoming c = evs ++ incoming c'
    ∧ (∃ evicted, evicted ++ unsolicited c' = unsolicited c ++ others
       ∧ unsolicited_dropped c' = (unsolicited_dropped c + Z.of_nat (length evicted)) mod 2 ^ 64
       ∧ (evicted = [] ∨ length (unsolicited c') = UNSOLICITED_CAP))
    ∧ client_ok c' ∧ now c' ≤ now c + timeout + DUPLICATE_WAIT
    ∧ (times = [] ∧ evs = [] ∧ others = [] ∧ sent c' = sent c
         ∧ (∃ e, res = Err e ∧ (encode msg = Err e ∨ ∃ k, e = OscErrors.Io k))
       ∨ (∃ b, times = [now c] ∧ encode msg = Ok b ∧ sent c' = sent c ++ sends_of b times
            ∧ request_outcome id_to_names msg res (decoded evs) others)).
Proof.
  intros Hc Ht. unfold request. destruct (send_ msg c) as [r c1] eqn:Es.
  apply send_spec in Es as (Hi & Hu & Hd & Hn & _ & _ & _ & Hr). destruct r as [[]|e].
  - destruct Hr as (b & Hb & Hsent).
    assert (Hc1 : client_ok c1) by (unfold client_ok; by rewrite Hu, Hd).
    destruct (request_loop_spec id_to_names (S (length (incoming c1))) msg (now c + timeout) c1)
      as (res & c' & evs & others & E & I & B & O & T); [done|lia|lia|].
    exists res, c', evs, others, [now c]. destruct (buffers_rest _ _ _ B) as (Hs & _).
    destruct (buffers_lossless _ _ _ B) as (ev & E1 & E2 & E3).
    split_and!; [done|by rewrite <- Hi| | by eapply buffers_ok | lia |].
    + exists ev. rewrite <- Hu, <- Hd. done.
    + right. exists b. split_and!; [done|done| |done]. by rewrite Hs, Hsent.
  - destruct Hr as (Hsent & He). exists (Err e), c1, [], [], []. split_and!; [done|done| | |unfold DUPLICATE_WAIT; lia|].
    + exists []. rewrite Hu, Hd, app_nil_r. destruct Hc as [_ Hc]. simpl. rewrite Z.add_0_r, Z.mod_small by lia.
      split_and!; [done|done|by left].
    + unfold client_ok. by rewrite Hu, Hd.
    + left. split_and!; eauto.
Qed.

Lemma request_answered_loop msg deadline r t bytes rest before fuel c :
  decode (recv_buffer bytes) = Ok r → reply_matches id_to_names (addr msg) (addr r) = true → t ≤ deadline →
  incoming c = before ++ (t, Datagram bytes) :: rest → now c < deadline →
  Forall (λ ev, ev.1 < deadline ∧ ∃ d, ev.2 = Datagram d) before → (length before < fuel)%nat →
  ∃ r' c', request_loop id_to_names fuel msg deadline c = Some (Ok r', c')
    ∧ reply_matches id_to_names (addr msg) (addr r') = true.
Proof.
  intros Hd Hm Ht. revert fuel c. induction before as [|[t0 a] before IH]; intros [|fuel] c Hi Hn Hb Hf;
    cbn [length] in Hf; try lia; cbn [request_loop];
    rewrite (proj2 (Z.eqb_neq (Z.max 0 (deadline - now c)) 0)) by lia; unfold recv, bind, recv_datagram, lift; rewrite Hi; cbn [app].
  - rewrite (proj2 (Z.leb_le _ _)) by lia. rewrite Hd, Hm. eauto.
  - apply Forall_cons_iff in Hb as [[Ht0 [d Ha]] Hb]. cbn [fst snd] in *. subst a.
    rewrite (proj2 (Z.leb_le _ _)) by lia.
    set (c1 := set_incoming _ _).
    assert (N : now c1 < deadline) by (simpl; lia).
    destruct (decode (recv_buffer d)) as [m|e] eqn:Em.
    + destruct (reply_matches id_to_names (addr msg) (addr m)) eqn:Hmm; [eauto|].
      destruct (now_buffer_unsolicited c1 m) as [Hn1 Hi1]. apply IH; [by rewrite Hi1|by rewrite Hn1|done|lia].
    + apply decode_error in Em as [what ->]. apply IH; [done|done|done|lia].
Qed.

(** One request, as the retries see it. *)
Lemma request_once msg timeout c :
  client_ok c → 0 ≤ timeout →
  ∃ res c' b times, request id_to_names msg timeout c = Some (res, c') ∧ client_ok c'
    ∧ sent c' = sent c ++ sends_of b times ∧ (times = [] ∨ encode msg = Ok b)
    ∧ (length times ≤ 1)%nat ∧ (res = Err OscErrors.Timeout → length times = 1%nat)
    ∧ ∀ k, res ≠ Err (OscErrors.RetriesExhausted k).
Proof.
  intros Hc Ht. destruct (request_spec msg timeout c Hc Ht)
    as (res & c1 & evs & others & times & E & _ & _ & Hc1 & _ & Hr). exists res, c1.
  destruct Hr as [(-> & _ & _ & Hs & e & -> & He)|(b & -> & Hb & Hs & O)].
  - exists [], []. split_and!; [done|done|by rewrite app_nil_r|by left|simpl; lia| |].
    + intros [= ->]. by destruct He as [[[? ?]|[? ?]]%encode_error|[? ?]].
    + intros k [= ->]. by destruct He as [[[? ?]|[? ?]]%encode_error|[? ?]].
  - exists b, [now c]. split_and!; [done|done|done|by right|done|done|].
    intros k ->. by destruct O as (_ & _ & [?|[? ?]]).
Qed.

(** [n] requests in a row, each of them but the last ended by a timeout. *)
Inductive attempted (msg : OscMessage) (timeout : Z) :
    OscClient → nat → OscResult OscMessage → OscClient → Prop :=
| attempted_last c res c' :
    request id_to_names msg timeout c = Some (res, c') → attempted msg timeout c 1 res c'
| attempted_again c c1 n res c' :
    request id_to_names msg timeout c = Some (Err OscErrors.Timeout, c1) →
    attempted msg timeout c1 n res c' → attempted msg timeout c (S n) res c'.

(** What the retries report of the last request, the [n]-th of at most [total]. *)
Definition reported (total : Z) (n : nat) (last res : OscResult OscMessage) : Prop :=
  match last with
  | Err OscErrors.Timeout => Z.of_nat n = total ∧ res = Err (OscErrors.RetriesExhausted total)
  | _ => Z.of_nat n ≤ total ∧ res = last ∧ ∀ k, last ≠ Err (OscErrors.RetriesExhausted k)
  end.

Lemma retry_loop_spec n attempt msg policy c total :
  client_ok c → 0 ≤ timeout_per_attempt policy → total = Z.max (attempts policy) 1 →
  1 ≤ attempt → Z.of_nat n = total - attempt + 1 → (0 < n)%nat →
  ∃ res last k c' b times, retry_loop id_to_names n attempt msg policy c = Some (res, c') ∧ client_ok c'
    ∧ attempted msg (timeout_per_attempt policy) c k last c'
    ∧ sent c' = sent c ++ sends_of b times ∧ (times = [] ∨ encode msg = Ok b)
    ∧ (k ≤ S (length times))%nat ∧ (length times ≤ k)%nat
    ∧ (last = Err OscErrors.Timeout → length times = k)
    ∧ reported total (k + Z.to_nat (attempt - 1)) last res.
Proof.
  intros Hc Ht ->. revert attempt c Hc. induction n as [|n IH]; intros attempt c Hc Ha Hn Hpos; [lia|]. cbn [retry_loop].
  destruct (request_once msg (timeout_per_attempt policy) c Hc Ht)
    as (res & c1 & b & times & E & Hc1 & Hs & Hb & Hl & Hlt & Hk). rewrite E.
  assert (res = Err OscErrors.Timeout ∨ res ≠ Err OscErrors.Timeout) as [->|Hres]
    by (destruct res as [?|[]]; by auto).
  - specialize (Hlt eq_refl). destruct (Z.ltb_spec attempt (attempts policy)) as [Hlt2|Hge].
    + destruct (IH (attempt + 1) c1) as (res & last & k & c' & b2 & times2 & E2 & Hc2 & Htr & Hs2 & Hb2 & Hl1 & Hl2 & Hl3 & Hr);
        [done|lia|lia|lia|].
      exists res, last, (S k), c', b, (times ++ times2). rewrite length_app.
      assert (Hb1 : encode msg = Ok b) by (destruct Hb as [->|]; [done|done]).
      split_and!; [done|done|by eapply attempted_again| |by right|lia|lia| |].
      * rewrite Hs2, Hs. unfold sends_of. rewrite map_app, (assoc_L (++)). f_equal.
        destruct Hb2 as [->|Hb2]; [done|]. rewrite Hb1 in Hb2. by injection Hb2 as <-.
      * intros Hlast. rewrite (Hl3 Hlast). lia.
      * by replace (S k + Z.to_nat (attempt - 1))%nat with (k + Z.to_nat (attempt + 1 - 1))%nat by lia.
    + eexists _, _, 1%nat, c1, b, times.
      split_and!; [done|done|by apply attempted_last|done|done|lia|lia|done|].
      split; [lia|]. do 2 f_equal. lia.
  - exists res, res, 1%nat, c1, b, times.
    split_and!; [by destruct res as [?|[]]|done|by apply attempted_last|done|done|lia|lia|done|].
    assert (Z.of_nat (1 + Z.to_nat (attempt - 1)) ≤ Z.max (attempts policy) 1) by lia.
    by destruct res as [?|[]].
Qed.
End RequestFacts.

(** ** Polling *)

(** A client that holds a subscription [s], whose message is [b]. *)
Record subscribed (c : OscClient) (s : SubscriptionState) (b : list byte) : Prop := {
  subscribed_state : subscription c = Some s;
  subscribed_message : encode (subscription_message (sub_format s) c) = Ok b;
  subscribed_interval : 0 ≤ renew_interval s;
  subscribed_sends : send_outcomes c = [];
  subscribed_due : now c ≤ next_renew s + MILLISECOND;
}.

Lemma received_subscribed timeout c c' evs s b :
  subscribed c s b → received timeout c c' evs → now c' ≤ next_renew s + MILLISECOND → subscribed c' s b.
Proof.
  intros [H1 H2 H3 H4 _] [_ (_ & _ & _ & Hs & Hp & Ho) _] Hn. split; [congruence| |done|congruence|done].
  unfold subscription_message in *. by rewrite Hp.
Qed.

(** The renewal at the head of a round. *)
Lemma renew_step c s b :
  subscribed c s b →
  ∃ c1 s1 times, (if renew_due c then renew c else (Ok tt, c)) = (Ok tt, c1)
    ∧ incoming c1 = incoming c ∧ now c1 = now c ∧ sent c1 = sent c ++ sends_of b times
    ∧ on_time (next_renew s) (renew_interval s) times
    ∧ next_renew s1 = due_after (next_renew s) (renew_interval s) times
    ∧ sub_format s1 = sub_format s ∧ renew_interval s1 = renew_interval s
    ∧ subscribed c1 s1 b ∧ now c ≤ next_renew s1.
Proof.
  intros [H1 H2 H3 H4 H5]. unfold renew_due. rewrite H1. destruct (Z.leb_spec (next_renew s) (now c)) as [Hd|Hd].
  - unfold renew. rewrite H1, (send_works _ _ b) by done.
    eexists _, (mk_subscription (sub_format s) (renew_interval s) (now c + renew_interval s)), [now c].
    split_and!; [done..| |done|done|done| |cbn; lia].
    + by split.
    + split; [done|exact H2|done|done|]. cbn. unfold MILLISECOND. lia.
  - exists c, s, []. split_and!; [done|done|done|by rewrite app_nil_r|done|done|done|done|by split|lia].
Qed.

(** What a poll leaves of the subscription. *)
Definition renewed (c c' : OscClient) (s : SubscriptionState) (b : list byte) : Prop :=
  ∃ s' times, sent c' = sent c ++ sends_of b times ∧ on_time (next_renew s) (renew_interval s) times
    ∧ next_renew s' = due_after (next_renew s) (renew_interval s) times
    ∧ sub_format s' = sub_format s ∧ renew_interval s' = renew_interval s ∧ subscribed c' s' b.

Lemma renewed_trans c c1 c2 s s1 b times :
  sent c1 = sent c ++ sends_of b times → on_time (next_renew s) (renew_interval s) times →
  next_renew s1 = due_after (next_renew s) (renew_interval s) times → sub_format s1 = sub_format s →
  renew_interval s1 = renew_interval s → renewed c1 c2 s1 b → renewed c c2 s b.
Proof.
  intros Hs Ho Hn Hf Hi (s' & times2 & Hs2 & Ho2 & Hn2 & Hf2 & Hi2 & Hsub). exists s', (times ++ times2).
  rewrite Hi, Hn in *. split_and!; [|by apply on_time_app|by rewrite due_after_app|congruence|congruence|done].
  unfold sends_of in *. by rewrite Hs2, Hs, map_app, (assoc_L (++)).
Qed.

(** The rounds a poll can still make. *)
Definition poll_measure (deadline : Z) (c : OscClient) : nat :=
  length (incoming c) + rounds_left deadline (now c).

Lemma poll_measure_step deadline w c c1 evs :
  0 < deadline - now c → MILLISECOND ≤ w → received w c c1 evs →
  evs = [] ∧ now c1 = now c + w ∨ (∃ ev, evs = [ev]) →
  (poll_measure deadline c1 < poll_measure deadline c)%nat.
Proof.
  intros Hd Hw [Hi _ Hn] Hev. unfold poll_measure. rewrite Hi. destruct Hev as [[-> Hn1]|[ev ->]]; cbn [app length].
  - pose proof (rounds_left_step deadline (now c) (now c1)). lia.
  - pose proof (rounds_left_le deadline (now c) (now c1)). lia.
Qed.

Lemma poll_loop_spec fuel deadline c s b :
  subscribed c s b → (poll_measure deadline c < fuel)%nat →
  ∃ res c', poll_loop fuel deadline c = Some (res, c') ∧ renewed c c' s b
    ∧ (res = Err OscErrors.Timeout → deadline ≤ now c')
    ∧ (∀ e, res = Ok e → ∃ skipped m, incoming c = skipped ++ m ∧ ∃ ev msg, m = ev :: incoming c'
         ∧ decoded1 ev = Some msg ∧ e = classify_event msg ∧ decoded skipped = []).
Proof.
  revert c s. induction fuel as [|fuel IH]; intros c s Hsub Hf; [lia|]. cbn [poll_loop].
  destruct (renew_step c s b Hsub) as (c1 & s1 & times & -> & Hi & Hn & Hsent & Hon & Hdue & Hform & Hint & Hsub1 & Hnow).
  destruct (Z.eqb_spec (Z.max 0 (deadline - now c1)) 0) as [|Hrem].
  { eexists _, c1. split_and!; [done| |intros _; lia|done].
    exists s1, times. done. }
  pose proof (renewed_trans c c1) as Htrans.
  assert (Hwait : MILLISECOND ≤ poll_wait deadline c1 ∧ now c1 + poll_wait deadline c1 ≤ next_renew s1 + MILLISECOND).
  { unfold poll_wait. rewrite (subscribed_state _ _ _ Hsub1). unfold MILLISECOND. lia. }
  destruct (recv (poll_wait deadline c1) c1) as [r c2] eqn:E.
  apply recv_spec in E as (evs & R & Hr); [|unfold MILLISECOND in *; lia].
  pose proof (received_now _ _ _ _ R) as T. pose proof (received_incoming _ _ _ _ R) as I.
  assert (Hsub2 : subscribed c2 s1 b) by (eapply received_subscribed; [done|done|lia]).
  assert (Hren : renewed c1 c2 s1 b).
  { exists s1, []. destruct R as [_ (_ & _ & Hs & _) _]. rewrite app_nil_r. split_and!; done. }
  destruct r as [m|e].
  - eexists _, c2. split_and!; [done|by eapply Htrans|done|].
    intros e [= <-]. destruct Hr as [(t & bytes & ->) Hd]. exists [], (incoming c). split; [done|].
    exists (t, Datagram bytes), m. rewrite <- Hi. split_and!; [done| |done|done].
    rewrite decoded_single in Hd. destruct (decoded1 (t, Datagram bytes)); [|done]. by injection Hd as ->.
  - assert (Hstop : e ≠ OscErrors.Timeout → match e with OscErrors.Timeout => poll_loop fuel deadline c2 | e => Some (Err e, c2) end = Some (Err e, c2))
      by (by destruct e).
    destruct (decide (e = OscErrors.Timeout)) as [->|Hne].
    + destruct Hr as [Hd Hev].
      destruct (IH c2 s1 Hsub2) as (res & c' & E2 & Hren2 & Ht2 & Hok2).
      { eapply Nat.lt_le_trans; [eapply (poll_measure_step deadline _ c1 c2 evs)|].
        - lia.
        - apply Hwait.
        - exact R.
        - destruct Hev as [(-> & ? & _)|(t & k & ->)]; eauto.
        - unfold poll_measure in *. rewrite Hi, Hn. lia. }
      exists res, c'. split_and!; [done| |done|].
      * eapply Htrans; [done..|]. eapply (renewed_trans c1 c2 c' s1 s1 b []); try done.
        destruct R as [_ (_ & _ & Hs & _) _]. by rewrite app_nil_r.
      * intros e He. destruct (Hok2 e He) as (skipped & m & Hi2 & ev & msg & -> & Hdec & -> & Hsk).
        exists (evs ++ skipped), (ev :: incoming c'). rewrite <- (assoc_L (++)), <- Hi2, <- I, Hi. split; [done|].
        exists ev, msg. split_and!; [done..|]. by rewrite decoded_app, Hd, Hsk.
    + rewrite (Hstop Hne). eexists _, c2. split_and!; [done|by eapply Htrans|by intros [= ->]|done].
Qed.

(** A subscription message can always be sent. *)
Lemma decimal_length fuel z : (length (decimal_fuel fuel z) ≤ fuel)%nat.
Proof.
  revert z. induction fuel as [|fuel IH]; intros z; [done|]. cbn [decimal_fuel]. rewrite length_app.
  specialize (IH (z / 10)). case_match; simpl; lia.
Qed.

Lemma digits_no_nul ds : Forall (λ b, is_digit b = true) ds → has_nul ds = false.
Proof.
  induction 1 as [|d ds Hd Hds IH]; [done|]. rewrite has_nul_cons, nul_single, IH, bool_decide_eq_false_2; [done|].
  by intros ->.
Qed.

Lemma subscription_encodes format c :
  (∀ p, reply_port c = Some p → 0 ≤ p) → ∃ b, encode (subscription_message format c) = Ok b.
Proof.
  intros Hp. rewrite encode_eq. exists (message_bytes (subscription_message format c)).
  assert (args (subscription_message format c) = []) as Ha by (unfold subscription_message; by destruct (reply_port c)).
  assert (has_nul (addr (subscription_message format c)) = false
    ∧ (length (addr (subscription_message format c)) ≤ 10)%nat) as [Hn Hl].
  { unfold subscription_message. destruct (reply_port c) as [p|]; [|destruct format; cbn; split; (done || lia)].
    unfold with_reply_port. cbn [addr]. rewrite !length_app. pose proof (decimal_length 5 p).
    unfold decimal. unfold has_nul. rewrite !contains_any_app. fold (has_nul (decimal_fuel 5 p)).
    rewrite (digits_no_nul (decimal_fuel 5 p)) by (apply decimal_digits; auto).
    revert H. generalize (decimal_fuel 5 p) as ds. intros ds H. destruct format; cbn; split; (done || lia). }
  rewrite Hn, Ha. unfold message_bytes at 1. rewrite Ha, app_nil_r, osc_string_length.
  pose proof (ceil4_bounds (length (addr (subscription_message format c)) + 1)).
  cbn [existsb orb]. by rewrite (proj2 (Z.ltb_ge _ _)) by (unfold MAX_PACKET_BYTES; lia).
Qed.

(** ** Properties *)

(** C21: a request loses nothing: it returns, within its timeout and the wait for duplicates;
    it takes arrivals in order, and every message among them is the reply, a message equal
    to the reply behind it ([==] of the source: floats compare as numbers, so that a reply
    holding a NaN has no duplicate), or put aside in order of arrival, where only a full
    buffer drops, oldest first and counted; its reply is the first message that answers
    it. *)
Theorem request_lossless names msg timeout c :
  client_ok c → 0 ≤ timeout →
  ∃ res c' evs others evicted, request names msg timeout c = Some (res, c')
    ∧ incoming c = evs ++ incoming c' ∧ client_ok c' ∧ now c' ≤ now c + timeout + DUPLICATE_WAIT
    ∧ evicted ++ unsolicited c' = unsolicited c ++ others
    ∧ unsolicited_dropped c' = (unsolicited_dropped c + Z.of_nat (length evicted)) mod 2 ^ 64
    ∧ (evicted = [] ∨ length (unsolicited c') = UNSOLICITED_CAP)
    ∧ match res with
      | Ok r => ∃ before after, decoded evs = before ++ r :: after
          ∧ Forall (λ m, reply_matches names (addr msg) (addr m) ≠ true) before
          ∧ reply_matches names (addr msg) (addr r) = true
          ∧ others = before ++ filter (λ m, osc_message_eqb m r = false) after
      | Err _ => others = decoded evs ∧ Forall (λ m, reply_matches names (addr msg) (addr m) ≠ true) others
      end.
Proof.
  intros Hc Ht.
  destruct (request_spec names msg timeout c Hc Ht)
    as (res & c' & evs & others & times & E & I & (ev & E1 & E2 & E3) & Hc' & T & Hr).
  exists res, c', evs, others, ev. split_and!; [done..|].
  destruct Hr as [(_ & -> & -> & _ & e & -> & _)|(b & _ & _ & _ & O)]; [by split|].
  destruct res as [r|e]; [exact O|]. destruct O as (-> & O & _). by split.
Qed.

(** C22: a request is answered when its reply comes: if its message can be sent and a datagram
    that answers it arrives by the deadline, behind nothing but datagrams that arrive
    before the deadline, the request returns a message that answers it. *)
Theorem request_answered names msg timeout c b before t bytes rest r :
  encode msg = Ok b → send_outcomes c = [] → 0 < timeout →
  incoming c = before ++ (t, Datagram bytes) :: rest →
  Forall (λ ev, ev.1 < now c + timeout ∧ ∃ d, ev.2 = Datagram d) before →
  t ≤ now c + timeout → decode (recv_buffer bytes) = Ok r → reply_matches names (addr msg) (addr r) = true →
  ∃ r' c', request names msg timeout c = Some (Ok r', c') ∧ reply_matches names (addr msg) (addr r') = true.
Proof.
  intros Hb Ho Ht Hi Hbefore Htd Hd Hm. unfold request. rewrite (send_works msg c b) by done.
  eapply request_answered_loop; try done.
  - cbn. lia.
  - cbn [incoming set_sends]. rewrite Hi, length_app. simpl. lia.
Qed.

(** C23: the retry policy: a relative write is requested once, whatever comes of it.  Any
    other message is requested at most as often as the policy allows (at least once), a
    further time only after a request that timed out: a reply and every other error, of the
    socket or of the encoder, ends the attempts and is returned as it is; a timeout of the
    last attempt allowed, and nothing else, reports that the retries are exhausted, with
    the number of attempts made.  Every attempt sends the same bytes, at most once. *)
Theorem request_with_policy_exact names msg policy c :
  client_ok c → 0 ≤ timeout_per_attempt policy →
  ∃ res last n c' b times, request_with_policy names msg policy c = Some (res, c') ∧ client_ok c'
    ∧ attempted names msg (timeout_per_attempt policy) c n last c'
    ∧ sent c' = sent c ++ sends_of b times ∧ (times = [] ∨ encode msg = Ok b)
    ∧ (n ≤ S (length times))%nat ∧ (length times ≤ n)%nat
    ∧ (last = Err OscErrors.Timeout → length times = n)
    ∧ (is_relative_write msg = true →
         n = 1%nat ∧ res = last ∧ ∀ k, res ≠ Err (OscErrors.RetriesExhausted k))
    ∧ (is_relative_write msg = false → reported (Z.max (attempts policy) 1) n last res).
Proof.
  intros Hc Ht. unfold request_with_policy. destruct (is_relative_write msg) eqn:Hrel.
  - destruct (request_once names msg (timeout_per_attempt policy) c Hc Ht)
      as (res & c' & b & times & E & Hc' & Hs & Hb & Hl & Hlt & Hk).
    exists res, res, 1%nat, c', b, times.
    split_and!; [done|done|by apply attempted_last|done|done|lia|lia|done|done|done].
  - destruct (retry_loop_spec names (Z.to_nat (Z.max (attempts policy) 1)) 1 msg policy c (Z.max (attempts policy) 1))
      as (res & last & n & c' & b & times & E & Hc' & Htr & Hs & Hb & Hl1 & Hl2 & Hl3 & Hr); [done|done|done|lia|lia|lia|].
    exists res, last, n, c', b, times. rewrite Nat.add_0_r in Hr. by split_and!.
Qed.

(** A poll keeps its subscription alive: it returns, and while it waits the subscription
    message is sent again each time it is due, never early and at most a millisecond late,
    so that two sends are never as far apart as the console's expiry when the interval
    leaves that millisecond; a timeout is only reported once the time has passed, and an
    event is the first message to arrive. *)
Theorem poll_event_renews timeout c s :
  subscription c = Some s → 0 ≤ renew_interval s → send_outcomes c = [] →
  (∀ p, reply_port c = Some p → 0 ≤ p) → now c ≤ next_renew s + MILLISECOND → 0 ≤ timeout →
  ∃ res c' b times s', poll_event timeout c = Some (res, c')
    ∧ encode (subscription_message (sub_format s) c) = Ok b
    ∧ sent c' = sent c ++ sends_of b times ∧ on_time (next_renew s) (renew_interval s) times
    ∧ subscription c' = Some s' ∧ renew_interval s' = renew_interval s
    ∧ next_renew s' = due_after (next_renew s) (renew_interval s) times
    ∧ now c' ≤ next_renew s' + MILLISECOND
    ∧ (res = Err OscErrors.Timeout → now c + timeout ≤ now c')
    ∧ ∀ e, res = Ok e → ∃ skipped ev msg, incoming c = skipped ++ ev :: incoming c'
        ∧ decoded skipped = [] ∧ decoded1 ev = Some msg ∧ e = classify_event msg.
Proof.
  intros Hs Hi Ho Hp Hdue Ht. destruct (subscription_encodes (sub_format s) c Hp) as [b Hb].
  unfold poll_event. rewrite Hs.
  destruct (poll_loop_spec (poll_fuel timeout c) (now c + timeout) c s b)
    as (res & c' & E & (s' & times & H1 & H2 & H3 & _ & H4 & [H5 _ _ _ H6]) & Hto & Hok).
  - by split.
  - unfold poll_measure, rounds_left, poll_fuel. replace (now c + timeout - now c) with timeout by lia.
    assert (0 ≤ timeout / MILLISECOND) by (apply Z.div_pos; unfold MILLISECOND; lia). lia.
  - exists res, c', b, times, s'. split_and!; [done..|].
    intros e He. destruct (Hok e He) as (sk & m & -> & ev & msg & -> & ? & ? & ?). by exists sk, ev, msg.
Qed.

(** *** Witnesses *)

Definition sample_request : OscMessage := mk_message (str "/ch/1/fdr") [].

(** A stray event, a garbled datagram, the reply twice, and another event. *)
Definition sample_reply : OscMessage := mk_message (str "/ch/1/fdr") [OscArgs.Float (F32 0)].
Definition sample_stray : OscMessage := mk_message (str "/ch/2/fdr") [OscArgs.Int 1].

Definition datagram_of (m : OscMessage) : Arrival := Datagram (message_bytes m).

Definition sample_client : OscClient :=
  mk_client None [] 0 None 100
    [(110, datagram_of sample_stray); (115, Datagram [b8 255]); (120, datagram_of sample_reply);
     (121, datagram_of sample_reply); (122, datagram_of sample_stray); (900, datagram_of sample_reply)] [] [].

Lemma sample_client_ok : client_ok sample_client.
Proof. split; [simpl; lia|cbn; lia]. Qed.

Lemma request_lossless_witness :
  ∃ c', request (λ _, None) sample_request 5000 sample_client = Some (Ok sample_reply, c')
    ∧ unsolicited c' = [sample_stray; sample_stray].
Proof.
  destruct (request_lossless (λ _, None) sample_request 5000 sample_client sample_client_ok ltac:(lia))
    as (res & c' & evs & others & evicted & E & H). exists c'.
  assert (E2 := E). apply (f_equal (option_map fst)) in E2. vm_compute in E2. injection E2 as <-.
  split; [rewrite E; vm_compute; reflexivity|].
  apply (f_equal (option_map (λ p, unsolicited p.2))) in E. vm_compute in E. injection E as E.
  etransitivity; [symmetry; exact E|]. vm_compute. reflexivity.
Defined.

(** The other side of [==] on floats: a second copy of a reply that holds a NaN is no
    duplicate, while a reply that differs only in the sign of a zero is one. *)
Example nan_reply_put_aside :
  let answered bits := datagram_of (mk_message (str "/ch/1/fdr") [OscArgs.Float (F32 bits)]) in
  let client first second := mk_client None [] 0 None 100 [(110, answered first); (111, answered second)] [] [] in
  let aside first second := option_map (λ r, length (unsolicited r.2))
    (request (λ _, None) sample_request 5000 (client first second)) in
  aside 0x7fc00000 0x7fc00000 = Some 1%nat ∧ aside 0x80000000 0 = Some 0%nat.
Proof. vm_compute. split; reflexivity. Qed.

Lemma request_answered_witness :
  ∃ r' c', request (λ _, None) sample_request 5000 sample_client = Some (Ok r', c')
    ∧ reply_matches (λ _, None) (str "/ch/1/fdr") (addr r') = true.
Proof.
  apply (request_answered (λ _, None) sample_request 5000 sample_client (message_bytes sample_request)
    [(110, datagram_of sample_stray); (115, Datagram [b8 255])] 120 (message_bytes sample_reply)
    [(121, datagram_of sample_reply); (122, datagram_of sample_stray); (900, datagram_of sample_reply)] sample_reply).
  - vm_compute. reflexivity.
  - reflexivity.
  - lia.
  - reflexivity.
  - each_elem; (split; [cbn; lia|eexists; reflexivity]).
  - cbn. lia.
  - vm_compute. reflexivity.
  - vm_compute. reflexivity.
Defined.

Lemma request_with_policy_exact_witness :
  ∃ c' b times, request_with_policy (λ _, None) sample_request default_policy (mk_client None [] 0 None 0 [] [] [])
      = Some (Err (OscErrors.RetriesExhausted 3), c')
    ∧ sent c' = sends_of b times ∧ length times = 3%nat.
Proof.
  assert (Hc : client_ok (mk_client None [] 0 None 0 [] [] [])) by (split; [simpl; lia|cbn; lia]).
  assert (Ht : 0 ≤ timeout_per_attempt default_policy) by (vm_compute; discriminate).
  destruct (request_with_policy_exact (λ _, None) sample_request default_policy _ Hc Ht)
    as (res & last & n & c' & b & times & E & _ & _ & Hs & _ & _ & _ & Hl & _ & Hr).
  assert (E2 := E). apply (f_equal (option_map fst)) in E2. vm_compute in E2. injection E2 as <-.
  specialize (Hr eq_refl). exists c', b, times. split; [rewrite E; vm_compute; reflexivity|]. split; [exact Hs|].
  destruct last as [m|[]]; try (destruct Hr as (_ & Hr & Hk); by destruct (Hk 3)).
  destruct Hr as [Hr _]. specialize (Hl eq_refl). change (Z.max _ 1) with 3 in Hr. lia.
Defined.

(** A quiet subscription polled for 12 seconds: renewed at 5 and at 10 seconds. *)
Definition sample_subscriber : OscClient :=
  mk_client (Some 9001) [] 0 (Some (mk_subscription OscTriplet SUBSCRIPTION_RENEW_MARGIN SUBSCRIPTION_RENEW_MARGIN)) 0 [] [] [].

Lemma poll_event_renews_witness :
  ∃ c' b, poll_event (12 * 1000 * MILLISECOND) sample_subscriber = Some (Err OscErrors.Timeout, c')
    ∧ sent c' = sends_of b [5000000; 10000000] ∧ 12000000 ≤ now c'
    ∧ SUBSCRIPTION_RENEW_MARGIN + MILLISECOND < SUBSCRIPTION_EXPIRY.
Proof.
  assert (Hp : ∀ p, reply_port sample_subscriber = Some p → 0 ≤ p) by (intros p [= <-]; lia).
  destruct (poll_event_renews (12 * 1000 * MILLISECOND) sample_subscriber
    (mk_subscription OscTriplet SUBSCRIPTION_RENEW_MARGIN SUBSCRIPTION_RENEW_MARGIN))
    as (res & c' & b & times & s' & E & Hb & _ & _ & _ & _ & _ & _ & Ht & _);
    [reflexivity|vm_compute; discriminate|reflexivity|exact Hp|vm_compute; discriminate|vm_compute; discriminate|].
  assert (E2 := E). apply (f_equal (option_map fst)) in E2. vm_compute in E2. injection E2 as <-.
  exists c', b. split; [exact E|]. split; [|split; [exact (Ht eq_refl)|vm_compute; reflexivity]].
  vm_compute in Hb. injection Hb as <-.
  apply (f_equal (option_map (λ p, sent p.2))) in E. vm_compute in E. injection E as E.
  etransitivity; [symmetry; exact E|]. vm_compute. reflexivity.
Defined.
