(* ===== verification/Discovery.v ===== *)
(** Discovery and connecting ([src/src/console.rs], [scan_on], [connect], [connect_addr],
    [handshake_streams], [probe_firmware], [from_boxed]): the broadcast scan, the choice of an
    address, the handshake and the firmware probe.

    The network is an input.  [Network] is what the discovery socket answers: the outcome of
    its preparation and of the first probe, and at each turn of the loop the time since the
    scan began (in nanoseconds) and what was received.  A [Dial] is what each step of a
    handshake answers; a [Probe] is what the probe's socket answers.  The name service is the
    argument [resolve] of [connect]. *)

From S2P Require Import Prelude Bytes Lib Utf8 F32 Display Channel NodeDef NodeData.
From S2P Require Import Meter NativeRequest NativeResponse ClientMessages ResponseReader ClientReader Osc Reconnect.
From stdpp Require Import list.
Local Open Scope Z_scope.
Local Open Scope rust_scope.

(** ** Addresses *)

(** [IpAddr]: four bytes, or eight 16-bit segments. *)
Inductive IpAddr :=
| V4 (a b c d : byte)
| V6 (segments : list Z).

#[export] Instance IpAddr_eq_dec : EqDecision IpAddr.
Proof. solve_decision. Defined.

Definition SocketAddr : Type := IpAddr * Z.

Definition v4_text (a b c d : byte) : list byte :=
  dec (u8 a) ++ str "." ++ dec (u8 b) ++ str "." ++ dec (u8 c) ++ str "." ++ dec (u8 d).

Fixpoint segments_text (segments : list Z) : list byte :=
  match segments with
  | [] => []
  | [s] => lower_hex 4 s
  | s :: rest => lower_hex 4 s ++ str ":" ++ segments_text rest
  end.

(** The longest run of zero segments, the first of them: its start and its length. *)
Fixpoint longest_zeros (i : nat) (segments : list Z) (current longest : nat * nat) : nat * nat :=
  match segments with
  | [] => longest
  | s :: rest =>
    if s =? 0 then
      let current := (if (current.2 =? 0)%nat then i else current.1, S current.2) in
      longest_zeros (S i) rest current (if (longest.2 <? current.2)%nat then current else longest)
    else longest_zeros (S i) rest (0, 0)%nat longest
  end.

(** [Display] of an [Ipv6Addr]: IPv4-mapped, or with its longest run of zeros left out. *)
Definition v6_text (segments : list Z) : list byte :=
  match segments with
  | [0; 0; 0; 0; 0; 0xffff; ab; cd] =>
    str "::ffff:" ++ v4_text (b8 (ab / 256)) (b8 ab) (b8 (cd / 256)) (b8 cd)
  | _ =>
    let '(start, len) := longest_zeros 0 segments (0, 0)%nat (0, 0)%nat in
    if (1 <? len)%nat then segments_text (take start segments) ++ str "::" ++ segments_text (drop (start + len) segments)
    else segments_text segments
  end.

Definition to_string (ip : IpAddr) : list byte :=
  match ip with V4 a b c d => v4_text a b c d | V6 segments => v6_text segments end.

(** ** The scan *)

Definition WING_PROBE : list byte := str "WING?".
Definition DISCOVERY_PORT : Z := 2222.
Definition SCAN_WINDOW : Z := 5000 * MILLIS.

Inductive Received :=
| Datagram (payload : list byte) (from : IpAddr)
| ReceiveFailed.

Record Network := mk_network {
  read_timeout : option ErrorKind;
  first_probe : option ErrorKind;
  clock : nat → Z;
  received : nat → Received;
}.

(** [?] on the outcome of a call that returns nothing. *)
Definition outcome (failed : option ErrorKind) : Result unit :=
  match failed with None => Ok tt | Some kind => Err (Io kind) end.

(** What a datagram of the 1024-byte buffer says. *)
Definition reply (r : Received) : option DiscoveryInfo :=
  match r with
  | Datagram payload from => from_datagram (take 1024 payload) (to_string from)
  | ReceiveFailed => None
  end.

Definition same_console (a b : DiscoveryInfo) : bool :=
  bytes_eqb (ip a) (ip b) && bytes_eqb (serial a) (serial b).

Section Scan.
Context (net : Network) (stop_on_first : bool) (window : Z).

(** The loop: the consoles found and the probes sent. The fuel is never used up: there are at
    most 109 turns ([scan_exact]). *)
Fixpoint scan_loop (fuel turn attempts packets_seen probes : nat) (results : list DiscoveryInfo)
    : list DiscoveryInfo * nat :=
  match fuel with
  | O => (results, probes)
  | S fuel =>
    if (attempts <? 10)%nat && (packets_seen <? 100)%nat && (clock net turn <? window) then
      match received net turn with
      | Datagram payload from =>
        match from_datagram (take 1024 payload) (to_string from) with
        | None => scan_loop fuel (S turn) attempts (S packets_seen) probes results
        | Some info =>
          if negb (existsb (same_console info) results) then
            if stop_on_first then (results ++ [info], probes)
            else scan_loop fuel (S turn) attempts (S packets_seen) probes (results ++ [info])
          else scan_loop fuel (S turn) attempts (S packets_seen) probes results
        end
      | ReceiveFailed => scan_loop fuel (S turn) (S attempts) packets_seen (S probes) results
      end
    else (results, probes)
  end.

Definition scan_on : Result (list DiscoveryInfo * nat) :=
  let? _ := outcome (read_timeout net) in
  let? _ := outcome (first_probe net) in
  Ok (scan_loop 110 0 0 0 1 []).
End Scan.

(** [scan]: [bind] and [broadcast] are what preparing the socket answers. *)
Definition scan (bind broadcast : option ErrorKind) (net : Network) (stop_on_first : bool)
    : Result (list DiscoveryInfo * nat) :=
  let? _ := outcome bind in
  let? _ := outcome broadcast in
  scan_on net stop_on_first SCAN_WINDOW.

(** ** The firmware probe *)

(** What the probe's socket answers. [replies] are its turns: the time since the probe was
    sent, whether setting the timeout failed, and what arrived; after the last nothing does. *)
Record Probe := mk_probe {
  probe_bind : option ErrorKind;
  probe_send : option ErrorKind;
  replies : list (Z * option ErrorKind * Received);
}.

Definition PROBE_WINDOW : Z := 300 * MILLIS.

Fixpoint probe_loop (target : IpAddr) (turns : list (Z * option ErrorKind * Received)) : option (list byte) :=
  match turns with
  | [] => None
  | (now, timeout, r) :: turns =>
    if PROBE_WINDOW <? now then None
    else match timeout, r with
         | Some _, _ => None
         | None, ReceiveFailed => None
         | None, Datagram payload from =>
           if bool_decide (from = target) then
             Osc.firmware <$> from_datagram (take 1024 payload) (to_string target)
           else probe_loop target turns
         end
  end.

Definition probe_firmware (target : IpAddr) (p : Probe) : option (list byte) :=
  match probe_bind p, probe_send p with
  | None, None => probe_loop target (replies p)
  | _, _ => None
  end.

(** ** Connecting *)

(** What each step of a handshake answers, and what the new connection will meet. *)
Record Dial := mk_dial {
  dial_connect : option ErrorKind;
  dial_nodelay : option ErrorKind;
  dial_write_timeout : option ErrorKind;
  dial_write : option ErrorKind;
  dial_clone : option ErrorKind;
  dial_script : list Pass;
  dial_write_results : list (option ErrorKind);
}.

(** A pair of streams: what was written to them, what they will deliver and what their writes
    will answer. *)
Record Streams := mk_streams {
  stream_sent : list byte;
  stream_script : list Pass;
  stream_write_results : list (option ErrorKind);
}.

Definition handshake_streams (d : Dial) : Result Streams :=
  let? _ := outcome (dial_connect d) in
  let? _ := outcome (dial_nodelay d) in
  let? _ := outcome (dial_write_timeout d) in
  let? _ := outcome (dial_write d) in
  let? _ := outcome (dial_clone d) in
  Ok (mk_streams [b8 0xdf; b8 0xd1] (dial_script d) (dial_write_results d)).

(** A console with the peer it will reconnect to. *)
Record WingConsole := mk_wing {
  console : Console;
  peer_ip : IpAddr;
  peer_port : Z;
}.

(** The timers are inputs of the session; the parser starts on the Audio Engine channel, as
    after a reconnect. *)
Definition from_boxed (streams : Streams) (peer_ip : IpAddr) (peer_port : Z) (reconnectable : bool) : WingConsole :=
  mk_wing
    (mk_console
      (mk_session reset_main false None (stream_sent streams) (stream_script streams) (stream_write_results streams))
      (mk_meters None None 1) 0 0 None reconnectable)
    peer_ip peer_port.

Definition from_transports (streams : Streams) (peer_ip : IpAddr) : WingConsole := from_boxed streams peer_ip 0 false.

Definition from_streams (streams : Streams) (peer_ip : IpAddr) (peer_port : Z) : WingConsole :=
  from_boxed streams peer_ip peer_port true.

Definition set_firmware (f : option (list byte)) (w : WingConsole) : WingConsole :=
  let c := console w in
  mk_wing (mk_console (session c) (meters c) (pending_reconnects c) (session_generation c) f (reconnectable c))
    (peer_ip w) (peer_port w).

Section Connect.
Context (dial : SocketAddr → Dial) (probe : IpAddr → Probe).

Definition handshake (addr : SocketAddr) : Result WingConsole :=
  let? streams := handshake_streams (dial addr) in
  Ok (from_streams streams addr.1 addr.2).

Definition probed (ip : IpAddr) : option (list byte) := probe_firmware ip (probe ip).

Definition connect_addr (addr : SocketAddr) : Result WingConsole :=
  let? w := handshake addr in
  Ok (set_firmware (probed addr.1) w).

(** The addresses in turn, up to the first that answers. *)
Fixpoint connect_first (firmware_hint : option (list byte)) (addrs : list SocketAddr)
    (last_connect_error : option Error) : Result WingConsole :=
  match addrs with
  | [] => Err (default ConnectionError last_connect_error)
  | addr :: addrs =>
    match handshake addr with
    | Ok w => Ok (set_firmware (match firmware_hint with Some f => Some f | None => probed addr.1 end) w)
    | Err err => connect_first firmware_hint addrs (Some err)
    end
  end.

(** [scanned] is what [scan] answers, asked to stop at the first console. *)
Definition connect (resolve : list byte → Result (list SocketAddr)) (scanned : Result (list DiscoveryInfo * nat))
    (host_or_ip : option (list byte)) : Result WingConsole :=
  let? target :=
    match host_or_ip with
    | Some i => Ok (i, None)
    | None =>
      let? devices := scanned in
      match devices.1 with
      | device :: _ => Ok (ip device, Some (Osc.firmware device))
      | [] => Err DiscoveryError
      end
    end in
  let? addrs := resolve target.1 in
  connect_first target.2 addrs None.
End Connect.

(** ** The consoles of a list of replies *)

Definition key (info : DiscoveryInfo) : list byte * list byte := (ip info, serial info).

Lemma same_console_key a b : same_console a b = bool_decide (key a = key b).
Proof.
  apply eq_true_iff_eq. unfold same_console, key, bytes_eqb. rewrite andb_true_iff, !bool_decide_eq_true.
  split; [by intros [-> ->]|intros E; injection E; auto].
Qed.

(** Each console's first reply. *)
Fixpoint first_seen (l : list DiscoveryInfo) : list DiscoveryInfo :=
  match l with
  | [] => []
  | x :: l => x :: filter (λ y, key y ≠ key x) (first_seen l)
  end.

(** One reply added to the consoles found. *)
Definition add_reply (results : list DiscoveryInfo) (info : DiscoveryInfo) : list DiscoveryInfo :=
  if existsb (same_console info) results then results else results ++ [info].

Lemma existsb_key info results : existsb (same_console info) results = bool_decide (key info ∈ map key results).
Proof.
  induction results as [|x l IH]; cbn [existsb map].
  - by rewrite bool_decide_eq_false_2 by apply not_elem_of_nil.
  - rewrite IH, same_console_key. destruct (decide (key info = key x)) as [E|E].
    + rewrite (bool_decide_eq_true_2 (key info = key x)) by done.
      cbn [orb]. symmetry. apply bool_decide_eq_true. rewrite E. left.
    + rewrite (bool_decide_eq_false_2 (key info = key x)) by done. cbn.
      apply bool_decide_ext. rewrite elem_of_cons. tauto.
Qed.

Lemma add_replies l results :
  fold_left add_reply l results = results ++ filter (λ y, key y ∉ map key results) (first_seen l).
Proof.
  revert results. induction l as [|x l IH]; intros results; cbn [fold_left first_seen]; [by rewrite app_nil_r|].
  rewrite IH. unfold add_reply. rewrite existsb_key. rewrite filter_cons.
  case_bool_decide as Hin.
  - rewrite decide_False by tauto. f_equal. rewrite list_filter_filter. apply list_filter_iff.
    intros y. split; [|tauto]. intros Hy. split; [done|]. congruence.
  - rewrite decide_True by done. rewrite <- app_assoc. f_equal. cbn [app]. f_equal.
    rewrite list_filter_filter. apply list_filter_iff. intros y. rewrite map_app, elem_of_app. cbn [map].
    rewrite list_elem_of_singleton. tauto.
Qed.

Lemma first_seen_keys l : NoDup (map key (first_seen l)).
Proof.
  induction l as [|x l IH]; cbn [first_seen map]; [constructor|]. constructor.
  - intros (y & E & [Hne _]%list_elem_of_filter)%list_elem_of_fmap. by apply Hne.
  - eapply sublist_NoDup; [exact IH|]. by apply (fmap_sublist key), sublist_filter.
Qed.

Lemma first_seen_elem l info : info ∈ first_seen l → info ∈ l.
Proof.
  revert info. induction l as [|x l IH]; intros info; cbn [first_seen]; [done|].
  rewrite !elem_of_cons, list_elem_of_filter. naive_solver.
Qed.

Lemma filter_unseen l : [] ++ filter (λ y, key y ∉ map key []) l = l.
Proof.
  cbn [app map]. induction l as [|x l IH]; [done|]. rewrite filter_cons_True by apply not_elem_of_nil. by rewrite IH.
Qed.

(** ** The scan *)

Definition failed (r : Received) : Prop := match r with ReceiveFailed => True | Datagram _ _ => False end.
#[export] Instance failed_dec r : Decision (failed r).
Proof. destruct r; apply _. Defined.

(** The receives that timed out, and the datagrams, of a list of turns. *)
Definition timeouts (l : list Received) : nat := length (filter failed l).
Definition datagrams (l : list Received) : nat := (length l - timeouts l)%nat.

Section ScanLoop.
Context (net : Network) (stop_on_first : bool) (window : Z).

(** What the turns from [turn] on receive. *)
Definition turns (turn n : nat) : list Received := map (received net) (seq turn n).

Lemma turns_next turn n : turns turn (S n) = received net turn :: turns (S turn) n.
Proof. done. Qed.

(** What the loop makes of its turns, from a state with [attempts] and [packets]. *)
Definition scanned (turn attempts packets probes : nat) (results : list DiscoveryInfo)
    (o : list DiscoveryInfo * nat) (n : nat) : Prop :=
  let l := turns turn n in
  o = (fold_left add_reply (omap reply l) results, probes + timeouts l)%nat
  ∧ (attempts + timeouts l ≤ 10)%nat ∧ (packets + datagrams l ≤ 100)%nat
  ∧ (attempts + packets + n ≤ 109)%nat
  ∧ (∀ m, (turn ≤ m < turn + n)%nat → clock net m < window)
  ∧ ((attempts + timeouts l = 10)%nat ∨ (packets + datagrams l = 100)%nat ∨ window ≤ clock net (turn + n)
     ∨ (stop_on_first = true ∧ o.1 ≠ []))
  ∧ (stop_on_first = true → (length o.1 ≤ 1)%nat).

Lemma timeouts_le l : (timeouts l ≤ length l)%nat.
Proof. apply length_filter. Qed.

Lemma timeouts_datagram p f l : timeouts (Datagram p f :: l) = timeouts l.
Proof. unfold timeouts. by rewrite filter_cons_False by (cbn; tauto). Qed.

Lemma timeouts_failed l : timeouts (ReceiveFailed :: l) = S (timeouts l).
Proof. unfold timeouts. by rewrite filter_cons_True. Qed.

Lemma datagrams_datagram p f l : datagrams (Datagram p f :: l) = S (datagrams l).
Proof. unfold datagrams. rewrite timeouts_datagram. pose proof (timeouts_le l). cbn [length]. lia. Qed.

Lemma datagrams_failed l : datagrams (ReceiveFailed :: l) = datagrams l.
Proof. unfold datagrams. rewrite timeouts_failed. cbn [length]. lia. Qed.

Lemma scanned_step turn attempts packets probes results results' o n :
  clock net turn < window →
  results' = match reply (received net turn) with Some info => add_reply results info | None => results end →
  (let r := received net turn in
   scanned (S turn) (attempts + timeouts [r]) (packets + datagrams [r]) (probes + timeouts [r]) results' o n) →
  scanned turn attempts packets probes results o (S n).
Proof.
  intros Hc -> (Ho & Ha & Hp & Hn & Hw & Hstop & Hone). unfold scanned. rewrite turns_next.
  assert (∀ l, timeouts (received net turn :: l) = timeouts [received net turn] + timeouts l)%nat as Et.
  { intros l. unfold timeouts. rewrite !filter_cons. by case_decide. }
  assert (∀ l, datagrams (received net turn :: l) = datagrams [received net turn] + datagrams l)%nat as Ed.
  { intros l. unfold datagrams. rewrite (Et l). pose proof (timeouts_le l). pose proof (timeouts_le [received net turn]).
    cbn [length] in *. lia. }
  assert (timeouts [received net turn] + datagrams [received net turn] = 1)%nat as E1
    by (unfold datagrams; pose proof (timeouts_le [received net turn]); cbn [length] in *; lia).
  rewrite Et, Ed. split_and!; [|lia..| | |done].
  - rewrite Ho. cbn [omap list_omap]. destruct (reply (received net turn)); cbn [fold_left]; f_equal; lia.
  - intros m Hm. destruct (decide (m = turn)) as [->|]; [done|]. apply Hw. lia.
  - replace (turn + S n)%nat with (S turn + n)%nat by lia.
    destruct Hstop as [?|[?|[?|?]]]; [left; lia|right; left; lia|right; right; by left|by right; right; right].
Qed.

Lemma scan_loop_spec fuel turn attempts packets probes results :
  (110 ≤ fuel + attempts + packets)%nat → (attempts ≤ 10)%nat → (packets ≤ 100)%nat →
  (attempts + packets < 110)%nat → (stop_on_first = true → results = []) →
  ∃ n, scanned turn attempts packets probes results
         (scan_loop net stop_on_first window fuel turn attempts packets probes results) n.
Proof.
  revert turn attempts packets probes results. induction fuel as [|fuel IH];
    intros turn attempts packets probes results Hf Ha Hp Hap Hs; [lia|]. cbn [scan_loop].
  destruct ((attempts <? 10)%nat && (packets <? 100)%nat && (clock net turn <? window)) eqn:Eg.
  2:{ exists 0%nat. unfold scanned, timeouts, datagrams. cbn. split_and!; [f_equal; lia|lia..| |].
      - rewrite !andb_false_iff, !Nat.ltb_ge, Z.ltb_ge in Eg.
        destruct Eg as [[?|?]|?]; [left; lia|right; left; lia|right; right; left]. by rewrite Nat.add_0_r.
      - intros E. rewrite (Hs E). cbn. lia. }
  bool_hyps. destruct (received net turn) as [payload from|] eqn:Er.
  - assert (Hstep : ∀ results', (stop_on_first = true → results' = []) →
        results' = match reply (received net turn) with Some info => add_reply results info | None => results end →
        ∃ n, scanned turn attempts packets probes results
          (scan_loop net stop_on_first window fuel (S turn) attempts (S packets) probes results') n).
    { intros results' Hs' E. destruct (IH (S turn) attempts (S packets) probes results') as [n Hn]; try done; try lia.
      exists (S n). apply (scanned_step turn attempts packets probes results results'); [done..|].
      cbn zeta. rewrite Er. change (timeouts [Datagram payload from]) with 0%nat.
      change (datagrams [Datagram payload from]) with 1%nat. rewrite !Nat.add_0_r, Nat.add_1_r. exact Hn. }
    rewrite Er in Hstep. cbn [reply] in Hstep.
    destruct (from_datagram (take 1024 payload) (to_string from)) as [info|] eqn:Ei; [|by apply Hstep].
    unfold add_reply in Hstep. destruct (existsb (same_console info) results) eqn:Ee; cbn [negb]; [by apply Hstep|].
    destruct stop_on_first eqn:Es; [|by apply Hstep]. rewrite (Hs eq_refl).
    exists 1%nat. unfold scanned, turns. cbn [seq map]. rewrite Er. change (timeouts [Datagram payload from]) with 0%nat.
    change (datagrams [Datagram payload from]) with 1%nat. cbn [omap list_omap reply]. rewrite Ei. cbn.
    split_and!; [f_equal; lia|lia..| | |].
    + intros m Hm. by replace m with turn by lia.
    + right; right; right. done.
    + intros _. cbn. lia.
  - destruct (IH (S turn) (S attempts) packets (S probes) results) as [n Hn]; try done; try lia.
    exists (S n). apply (scanned_step turn attempts packets probes results results); [done|by rewrite Er|].
    cbn zeta. rewrite Er. change (timeouts [ReceiveFailed]) with 1%nat.
    change (datagrams [ReceiveFailed]) with 0%nat. rewrite !Nat.add_1_r, Nat.add_0_r. exact Hn.
Qed.
End ScanLoop.

Lemma from_datagram_ip payload from info : from_datagram payload from = Some info → ip info = from.
Proof.
  unfold from_datagram. destruct (utf8_valid _); [|done]. intros (i0 & _ & E)%bind_Some. by injection E as <-.
Qed.

(** The whole scan, its socket ready and its first probe sent. *)
Lemma scan_on_spec net stop_on_first window :
  read_timeout net = None → first_probe net = None →
  ∃ n o, scan_on net stop_on_first window = Ok o ∧ scanned net stop_on_first window 0 0 0 1 [] o n
    ∧ o.1 = first_seen (omap reply (turns net 0 n)).
Proof.
  intros Ht Hp. destruct (scan_loop_spec net stop_on_first window 110 0 0 0 1 []) as (n & Hs); [lia..|done|].
  eexists n, _. split_and!; [unfold scan_on; by rewrite Ht, Hp|exact Hs|].
  destruct Hs as (-> & _). cbn [fst]. rewrite add_replies. apply filter_unseen.
Qed.

(** C11: The discovery scan ends after at most 109 turns, all of them begun within its window,
    and lists each console that answered once, in the order of its first reply, under the
    address the reply came from and not the one it claims.  It stops because ten receives timed
    out, a hundred datagrams arrived, the window closed or, if asked to, at the first console
    found; and it has then probed once, and once more for each receive that timed out. *)
Theorem scan_exact net stop_on_first window :
  read_timeout net = None → first_probe net = None →
  ∃ n results,
    let l := map (received net) (seq 0 n) in
    scan_on net stop_on_first window = Ok (results, 1 + timeouts l)%nat
    ∧ results = first_seen (omap reply l) ∧ NoDup (map key results)
    ∧ (∀ info, info ∈ results → ∃ payload from, Datagram payload from ∈ l ∧ ip info = to_string from)
    ∧ (n ≤ 109)%nat ∧ (∀ m, (m < n)%nat → clock net m < window)
    ∧ (timeouts l ≤ 10)%nat ∧ (datagrams l ≤ 100)%nat
    ∧ (timeouts l = 10%nat ∨ datagrams l = 100%nat ∨ window ≤ clock net n ∨ (stop_on_first = true ∧ results ≠ []))
    ∧ (stop_on_first = true → (length results ≤ 1)%nat).
Proof.
  intros Ht Hp. destruct (scan_on_spec net stop_on_first window Ht Hp) as (n & o & Hso & Hs & Hr).
  destruct Hs as (Ho & Ha & Hd & Hn & Hw & Hstop & Hone). unfold turns in *.
  exists n, o.1. cbn zeta. split_and!; try done; try lia.
  - rewrite Hso, Ho at 1. cbn [fst]. by rewrite Ho.
  - rewrite Hr. apply first_seen_keys.
  - intros info Hin. rewrite Hr in Hin. apply first_seen_elem, list_elem_of_omap in Hin as (r & Hrl & Hi).
    destruct r as [payload from|]; [|done]. exists payload, from. split; [done|].
    by eapply from_datagram_ip.
  - intros m Hm. apply Hw. lia.
Qed.

(** ** The firmware probe *)

(** A datagram of another host, in time. *)
Definition stranger (target : IpAddr) (turn : Z * option ErrorKind * Received) : Prop :=
  ∃ now payload from, turn = (now, None, Datagram payload from) ∧ from ≠ target ∧ now ≤ PROBE_WINDOW.

Definition answers (target : IpAddr) (turn : Z * option ErrorKind * Received) (f : list byte) : Prop :=
  ∃ now payload info, turn = (now, None, Datagram payload target) ∧ now ≤ PROBE_WINDOW
    ∧ from_datagram (take 1024 payload) (to_string target) = Some info ∧ Osc.firmware info = f.

(** The first element with [Q], those before it with [P]. *)
Definition first_with {A} (P Q : A → Prop) (l : list A) : Prop :=
  ∃ pre x post, l = pre ++ x :: post ∧ Forall P pre ∧ Q x.

Lemma first_with_cons {A} (P Q : A → Prop) x l : first_with P Q (x :: l) ↔ Q x ∨ (P x ∧ first_with P Q l).
Proof.
  unfold first_with. split.
  - intros ([|y pre] & z & post & E & Hpre & Hz); simplify_eq/=; [by left|].
    right. apply Forall_cons in Hpre as [? ?]. split; [done|]. by exists pre, z, post.
  - intros [Hx|[Hx (pre & z & post & -> & Hpre & Hz)]]; [by exists [], x, l|].
    exists (x :: pre), z, post. by repeat split; [constructor|].
Qed.

Lemma first_with_nil {A} (P Q : A → Prop) : ¬ first_with P Q [].
Proof. unfold first_with. intros ([|? ?] & ? & ? & E & _); discriminate E. Qed.

Lemma probe_loop_spec target turns f :
  probe_loop target turns = Some f ↔ first_with (stranger target) (λ turn, answers target turn f) turns.
Proof.
  induction turns as [|[[now timeout] r] turns IH]; cbn [probe_loop]; [by split; [|intros ?%first_with_nil]|].
  rewrite first_with_cons, <- IH.
  destruct (Z.ltb_spec PROBE_WINDOW now) as [Hlate|Hnow].
  { split; [done|]. intros [(? & ? & ? & E & ? & _)|[(? & ? & ? & E & _ & ?) _]]; injection E; lia. }
  destruct timeout as [k|].
  { split; [done|]. by intros [(? & ? & ? & E & _)|[(? & ? & ? & E & _) _]]. }
  destruct r as [payload from|]; [|by split; [|intros [(? & ? & ? & E & _)|[(? & ? & ? & E & _) _]]]].
  case_bool_decide as Hfrom.
  - subst from. rewrite fmap_Some. split.
    + intros (info & Hi & ->). left. by exists now, payload, info.
    + intros [(? & ? & info & E & _ & Hi & <-)|[(? & ? & ? & E & Hne & _) _]]; [|by injection E as _ _ <-].
      injection E as _ <-. by exists info.
  - split.
    + intros H. right. split; [|done]. by exists now, payload, from.
    + intros [(? & ? & ? & E & _)|[_ H]]; [by injection E as _ _ ->|done].
Qed.

(** C12: The firmware probe reports a version exactly when, its socket ready and its query sent,
    the first datagram that came from the console itself arrived in time and is a reply that
    states that version: datagrams of other hosts before it neither answer nor end the probe. *)
Theorem probe_exact target p f :
  probe_firmware target p = Some f ↔
  probe_bind p = None ∧ probe_send p = None
  ∧ ∃ pre turn post, replies p = pre ++ turn :: post ∧ Forall (stranger target) pre ∧ answers target turn f.
Proof.
  unfold probe_firmware. destruct (probe_bind p), (probe_send p); try by split; [|intros (? & ? & _)].
  rewrite probe_loop_spec. unfold first_with. tauto.
Qed.

(** ** Connecting *)

(** A scan told to stop at the first console found it in the first reply. *)
Lemma first_reply l info rest : first_seen (omap reply l) = info :: rest →
  ∃ pre r post, l = pre ++ r :: post ∧ Forall (λ r, reply r = None) pre ∧ reply r = Some info.
Proof.
  intros H. cut (first_with (λ r, reply r = None) (λ r, reply r = Some info) l); [done|].
  revert H. induction l as [|r l IH]; cbn [omap list_omap]; [done|]. intros H. apply first_with_cons.
  destruct (reply r) as [i|] eqn:E.
  - left. by injection H as ->.
  - right. split; [done|]. by apply IH.
Qed.

Lemma scan_first bind broadcast net devices info rest probes :
  scan bind broadcast net true = Ok (devices, probes) → devices = info :: rest →
  ∃ turn payload from, received net turn = Datagram payload from
    ∧ from_datagram (take 1024 payload) (to_string from) = Some info
    ∧ (∀ m, (m < turn)%nat → reply (received net m) = None) ∧ ip info = to_string from.
Proof.
  intros H ->. unfold scan in H. destruct bind; [done|]. destruct broadcast; [done|]. cbn [outcome] in H.
  destruct (read_timeout net) eqn:E1; [by unfold scan_on in H; rewrite E1 in H|].
  destruct (first_probe net) eqn:E2; [by unfold scan_on in H; rewrite E1, E2 in H|].
  destruct (scan_on_spec net true SCAN_WINDOW E1 E2) as (n & o & Hso & _ & Hr).
  rewrite Hso in H. injection H as ->. cbn [fst] in Hr. symmetry in Hr.
  apply first_reply in Hr as (pre & r & post & Hl & Hpre & Hi).
  assert (Hnth : ∀ m, (m < n)%nat → turns net 0 n !! m = Some (received net m)).
  { intros m Hm. unfold turns. by rewrite list_lookup_fmap, lookup_seq_lt. }
  assert (Hlen : (length pre < n)%nat).
  { apply (f_equal length) in Hl. unfold turns in Hl. rewrite length_map, length_seq, length_app in Hl. cbn in Hl. lia. }
  assert (Hlast : received net (length pre) = r).
  { pose proof (Hnth (length pre) Hlen) as E. rewrite Hl, list_lookup_middle in E by done. by injection E. }
  destruct r as [payload from|]; [|done]. exists (length pre), payload, from. cbn [reply] in Hi. split_and!; [done|done| |].
  - intros m Hm. pose proof (Hnth m ltac:(lia)) as E. rewrite Hl, lookup_app_l in E by done.
    exact (proj1 (Forall_lookup _ _) Hpre m _ E).
  - by eapply from_datagram_ip.
Qed.

Section ConnectLemmas.
Context (dial : SocketAddr → Dial) (probe : IpAddr → Probe).

(** A handshake that failed with [e]. *)
Definition refused (e : Error) (addr : SocketAddr) : Prop := handshake_streams (dial addr) = Err e.

Definition connected (streams : Streams) (addr : SocketAddr) (f : option (list byte)) : WingConsole :=
  set_firmware f (from_streams streams addr.1 addr.2).

(** What trying a list of addresses comes to: the first that answers, or the last error. *)
Definition tried (hint : option (list byte)) (addrs : list SocketAddr) (last_error : option Error)
    (r : Result WingConsole) : Prop :=
  (∃ pre addr post streams, addrs = pre ++ addr :: post ∧ Forall (λ a, ∃ e, refused e a) pre
     ∧ handshake_streams (dial addr) = Ok streams
     ∧ r = Ok (connected streams addr (match hint with Some f => Some f | None => probed probe addr.1 end)))
  ∨ (Forall (λ a, ∃ e, refused e a) addrs
     ∧ match last addrs with
       | Some addr => ∃ e, refused e addr ∧ r = Err e
       | None => r = Err (default ConnectionError last_error)
       end).

Lemma connect_first_spec hint addrs last_error : tried hint addrs last_error (connect_first dial probe hint addrs last_error).
Proof.
  revert last_error. induction addrs as [|addr addrs IH]; intros last_error; cbn [connect_first]; [by right|].
  unfold handshake. destruct (handshake_streams (dial addr)) as [streams|e] eqn:E.
  { left. exists [], addr, addrs, streams. by split_and!. }
  destruct (IH (Some e)) as [(pre & a & post & streams & -> & Hpre & Ha & Hr)|[Hall Hlast]].
  - left. exists (addr :: pre), a, post, streams. split_and!; [done| |done|done]. constructor; [by exists e|done].
  - right. split; [constructor; [by exists e|done]|]. destruct addrs as [|a addrs]; [by exists e|].
    change (last (addr :: a :: addrs)) with (last (a :: addrs)).
    destruct (last (a :: addrs)) as [b|] eqn:El; [done|]. by apply last_None in El.
Qed.

Lemma handshake_sent d streams : handshake_streams d = Ok streams → stream_sent streams = keep_alive_bytes.
Proof. unfold handshake_streams, outcome. intros H. repeat split_match_in H; done. Qed.

(** C13: Connecting without an address connects to the console whose reply the scan received
    first, under the address the reply came from: to the first of its addresses whose handshake
    succeeds, on a fresh session that has selected the Native channel and nothing else, with
    the firmware that reply states. *)
Theorem connect_discovered resolve bind broadcast net w :
  connect dial probe resolve (scan bind broadcast net true) None = Ok w →
  ∃ turn payload from info pre addr post streams,
    received net turn = Datagram payload from
    ∧ from_datagram (take 1024 payload) (to_string from) = Some info
    ∧ (∀ m, (m < turn)%nat → reply (received net m) = None)
    ∧ resolve (to_string from) = Ok (pre ++ addr :: post)
    ∧ Forall (λ a, ∃ e, refused e a) pre
    ∧ handshake_streams (dial addr) = Ok streams ∧ stream_sent streams = keep_alive_bytes
    ∧ w = connected streams addr (Some (Osc.firmware info)).
Proof.
  intros H. unfold connect in H. destruct (scan bind broadcast net true) as [[devices probes]|e] eqn:Es; [|done].
  destruct devices as [|device devices]; [done|].
  apply (scan_first _ _ _ _ device devices) in Es as (turn & payload & from & Hr & Hd & Hm & Hip); [|done].
  destruct (resolve (ip device)) as [addrs|e] eqn:Er; cbn [fst snd] in H; rewrite Er in H; [|done].
  destruct (connect_first_spec (Some (Osc.firmware device)) addrs None)
    as [(pre & addr & post & streams & -> & Hpre & Ha & Hc)|[_ Hl]]; rewrite H in *.
  - exists turn, payload, from, device, pre, addr, post, streams. rewrite Hip in Er.
    split_and!; try done; [by eapply handshake_sent|]. by injection Hc.
  - by destruct (last addrs); [destruct Hl as (? & _ & ?)|].
Qed.
End ConnectLemmas.

(** A console over other transports never reconnects. *)
Lemma transports_never_reconnect streams peer streams_of policy others :
  reconnect streams_of policy others (console (from_transports streams peer))
  = (Err InvalidInput, [], console (from_transports streams peer)).
Proof. done. Qed.

(** What connecting to an explicit host comes to, and failing to. *)
Lemma connect_to_host dial probe resolve found host addrs :
  resolve host = Ok addrs → tried dial probe None addrs None (connect dial probe resolve found (Some host)).
Proof. intros H. unfold connect. cbn. rewrite H. apply connect_first_spec. Qed.

Lemma connect_nothing_found dial probe resolve probes :
  connect dial probe resolve (Ok ([], probes)) None = Err DiscoveryError.
Proof. done. Qed.

Lemma connect_no_address dial probe resolve found host :
  resolve host = Ok [] → connect dial probe resolve found (Some host) = Err ConnectionError.
Proof. intros H. unfold connect. cbn. by rewrite H. Qed.

(** ** Witnesses *)

Example loopback_text : to_string (V6 [0; 0; 0; 0; 0; 0; 0; 1]) = str "::1".
Proof. vm_compute. reflexivity. Qed.
Example documentation_text : to_string (V6 [0x2001; 0xdb8; 0; 1; 0; 0; 0; 0xa0]) = str "2001:db8:0:1::a0".
Proof. vm_compute. reflexivity. Qed.
Example mapped_text : to_string (V6 [0; 0; 0; 0; 0; 0xffff; 0xc0a8; 0x105]) = str "::ffff:192.168.1.5".
Proof. vm_compute. reflexivity. Qed.
Example full_text : to_string (V6 [1; 0; 3; 4; 0; 6; 7; 8]) = str "1:0:3:4:0:6:7:8".
Proof. vm_compute. reflexivity. Qed.

Definition rack_ip : IpAddr := V4 (b8 192) (b8 168) (b8 1) (b8 5).
Definition other_ip : IpAddr := V4 (b8 192) (b8 168) (b8 1) (b8 66).
Definition rack_reply : list byte := str "WING,10.9.9.9,Rack,wing-rack,S1,3.1.0".

(** Noise, the rack twice, then silence. *)
Definition sample_discovery : Network :=
  mk_network None None (λ n, Z.of_nat n * MILLIS)
    (λ n, match n with
          | 0%nat => Datagram (str "hello") other_ip
          | 1%nat | 3%nat => Datagram rack_reply rack_ip
          | 2%nat => Datagram (str "WING,192.168.1.5,Copy,wing-rack,S1,9.9.9") other_ip
          | _ => ReceiveFailed
          end).

Definition rack_info : DiscoveryInfo :=
  mk_discovery (str "192.168.1.5") (str "Rack") (str "wing-rack") (str "S1") (str "3.1.0").

Example scan_sample :
  scan_on sample_discovery false SCAN_WINDOW
  = Ok ([rack_info; mk_discovery (str "192.168.1.66") (str "Copy") (str "wing-rack") (str "S1") (str "9.9.9")], 11%nat).
Proof. vm_compute. reflexivity. Qed.

Lemma scan_exact_witness :
  ∃ n results,
    let l := map (received sample_discovery) (seq 0 n) in
    scan_on sample_discovery true SCAN_WINDOW = Ok (results, 1 + timeouts l)%nat
    ∧ results = first_seen (omap reply l) ∧ NoDup (map key results)
    ∧ (∀ info, info ∈ results → ∃ payload from, Datagram payload from ∈ l ∧ ip info = to_string from)
    ∧ (n ≤ 109)%nat ∧ (∀ m, (m < n)%nat → clock sample_discovery m < SCAN_WINDOW)
    ∧ (timeouts l ≤ 10)%nat ∧ (datagrams l ≤ 100)%nat
    ∧ (timeouts l = 10%nat ∨ datagrams l = 100%nat ∨ SCAN_WINDOW ≤ clock sample_discovery n
       ∨ (true = true ∧ results ≠ []))
    ∧ (true = true → (length results ≤ 1)%nat).
Proof. apply (scan_exact sample_discovery true SCAN_WINDOW); reflexivity. Defined.

Definition sample_dial (addr : SocketAddr) : Dial :=
  mk_dial (if addr.2 =? 1 then Some TimedOut else None) None None None None [] [].
Definition sample_probe (_ : IpAddr) : Probe := mk_probe None None [].
Definition sample_resolve (name : list byte) : Result (list SocketAddr) :=
  if bytes_eqb name (str "192.168.1.5") then Ok [(rack_ip, 1); (rack_ip, DISCOVERY_PORT)] else Err (Io OtherKind).

Definition rack_console : WingConsole :=
  connected (mk_streams [b8 0xdf; b8 0xd1] [] []) (rack_ip, DISCOVERY_PORT) (Some (str "3.1.0")).

Lemma connect_discovered_witness :
  ∃ turn payload from info pre addr post streams,
    received sample_discovery turn = Datagram payload from
    ∧ from_datagram (take 1024 payload) (to_string from) = Some info
    ∧ (∀ m, (m < turn)%nat → reply (received sample_discovery m) = None)
    ∧ sample_resolve (to_string from) = Ok (pre ++ addr :: post)
    ∧ Forall (λ a, ∃ e, refused sample_dial e a) pre
    ∧ handshake_streams (sample_dial addr) = Ok streams ∧ stream_sent streams = keep_alive_bytes
    ∧ rack_console = connected streams addr (Some (Osc.firmware info)).
Proof.
  apply (connect_discovered sample_dial sample_probe sample_resolve None None sample_discovery rack_console).
  vm_compute. reflexivity.
Defined.

(** A stranger's reply does not answer the probe, the console's does. *)
Definition sample_replies : Probe :=
  mk_probe None None
    [(0, None, Datagram (str "WING,192.168.1.5,Fake,wing-rack,S1,9.9.9") other_ip); (MILLIS, None, Datagram rack_reply rack_ip)].

Example probe_sample : probe_firmware rack_ip sample_replies = Some (str "3.1.0").
Proof. vm_compute. reflexivity. Qed.
Example probe_late :
  probe_firmware rack_ip (mk_probe None None [(301 * MILLIS, None, Datagram rack_reply rack_ip)]) = None.
Proof. vm_compute. reflexivity. Qed.
