(* ===== verification/Safety.v ===== *)
(** Risk classes and the confirmation guard ([src/src/safety.rs]), and the transports an
    operation is available on ([src/src/schema.rs], [transport_availability]). *)

From S2P Require Import Prelude.

(** ** Data *)

Module RiskClasses.
Inductive RiskClass :=
| ReadOnly | Transient | StateChanging | PersistentStorage | SnapshotRecall | Routing | GainPhantom
| Gpio | RecorderTransport | DestructiveSchemaCrawl.
End RiskClasses.
Export RiskClasses(RiskClass).

Module Operations.
Inductive Operation :=
| ReadNodeData | ReadNodeDefinition | Discover | Connect | SubscribeMeters | ReadMeters | KeepAlive
| SetNodeValue | SchemaCrawl.
End Operations.
Export Operations(Operation).

#[export] Instance RiskClass_eq_dec : EqDecision RiskClass.
Proof. solve_decision. Defined.
#[export] Instance Operation_eq_dec : EqDecision Operation.
Proof. solve_decision. Defined.

Record ConfirmationRequired := mk_required { operation : Operation; class : RiskClass }.

(** ** Operations *)

Definition requires_confirmation (c : RiskClass) : bool :=
  match c with RiskClasses.ReadOnly | RiskClasses.Transient => false | _ => true end.

(** [impl Display for RiskClass]. *)
Definition risk_class_name (c : RiskClass) : list byte :=
  match c with
  | RiskClasses.ReadOnly => str "read-only"
  | RiskClasses.Transient => str "transient"
  | RiskClasses.StateChanging => str "state-changing"
  | RiskClasses.PersistentStorage => str "persistent-storage"
  | RiskClasses.SnapshotRecall => str "snapshot-recall"
  | RiskClasses.Routing => str "routing"
  | RiskClasses.GainPhantom => str "gain-phantom"
  | RiskClasses.Gpio => str "gpio"
  | RiskClasses.RecorderTransport => str "recorder-transport"
  | RiskClasses.DestructiveSchemaCrawl => str "destructive-schema-crawl"
  end.

Definition risk_class (op : Operation) : RiskClass :=
  match op with
  | Operations.ReadNodeData => RiskClasses.ReadOnly
  | Operations.ReadNodeDefinition => RiskClasses.ReadOnly
  | Operations.Discover => RiskClasses.ReadOnly
  | Operations.Connect => RiskClasses.Transient
  | Operations.SubscribeMeters => RiskClasses.Transient
  | Operations.ReadMeters => RiskClasses.Transient
  | Operations.KeepAlive => RiskClasses.Transient
  | Operations.SetNodeValue => RiskClasses.StateChanging
  | Operations.SchemaCrawl => RiskClasses.DestructiveSchemaCrawl
  end.

(** A guard wraps a predicate; asking it may have effects (a prompt, a flag), so it runs in
    a state of the caller's. *)
Definition ensure_allowed {S} (confirm : Operation → S → bool * S) (op : Operation)
    : M S ConfirmationRequired unit := λ s,
  let c := risk_class op in
  if requires_confirmation c then
    let '(granted, s) := confirm op s in
    if negb granted then (Err (mk_required op c), s) else (Ok tt, s)
  else (Ok tt, s).

Inductive TransportAvailability := NativeOnly | OscOnly | Both | NonNetwork.

Definition transport_availability (op : Operation) : TransportAvailability :=
  match op with
  | Operations.ReadNodeData => Both
  | Operations.ReadNodeDefinition => Both
  | Operations.Discover => NativeOnly
  | Operations.Connect => NativeOnly
  | Operations.SubscribeMeters => NativeOnly
  | Operations.ReadMeters => NativeOnly
  | Operations.KeepAlive => NativeOnly
  | Operations.SetNodeValue => Both
  | Operations.SchemaCrawl => Both
  end.

(** ** Facts *)

(** The operations that change console state are the two the guard stops without a grant;
    for the others the predicate is not even asked. *)
Lemma guarded_operations op :
  requires_confirmation (risk_class op) = true ↔ op = Operations.SetNodeValue ∨ op = Operations.SchemaCrawl.
Proof. destruct op; simpl; split; intros H; try done; auto; by destruct H. Qed.

Lemma ensure_allowed_ok {S} (confirm : Operation → S → bool * S) op s :
  ensure_allowed confirm op s =
    if decide (op = Operations.SetNodeValue ∨ op = Operations.SchemaCrawl) then
      (if (confirm op s).1 then Ok tt else Err (mk_required op (risk_class op)), (confirm op s).2)
    else (Ok tt, s).
Proof.
  unfold ensure_allowed. case_decide as H.
  - rewrite (proj2 (guarded_operations op) H). by destruct (confirm op s) as [[] s'].
  - destruct (requires_confirmation _) eqn:E; [|done]. by apply guarded_operations in E.
Qed.
