(* ===== verification/Redact.v ===== *)
(** Redaction of captures ([src/tools/redact.rs]): finding serial numbers, IPv4 literals and
    MAC addresses in arbitrary bytes, rewriting them in place with text of the same length,
    and doing so across the chunks of a reassembled stream.

    The scanning loops run on the fuel of the bytes in front of them; [None] is a panic (a
    slice out of range, a negative length) or the end of the fuel, and the theorems show that
    neither is reached.  The text of an error is not modelled, only which one it is. *)

From S2P Require Import Prelude Text Decimal Bytes Utf8.
Local Open Scope Z_scope.

(** ** Data *)

Module Findings.
Inductive Finding := Serial (s : list byte) | Ip (s : list byte) | Mac (s : list byte).
End Findings.
Export Findings(Finding).

Record Match := mk_match { start : nat; end_ : nat; finding : Finding }.

(** The messages [redact_bytes] fails with. *)
Inductive RedactError :=
| NoSameLengthIp (ip : list byte)
| LengthMismatch (finding : Finding)
| NotFullyRedacted.

(** ** Bytes *)

Definition is_ascii_digit (b : byte) : bool := (48 <=? u8 b) && (u8 b <=? 57).

Definition is_ascii_hexdigit (b : byte) : bool :=
  is_ascii_digit b || ((65 <=? u8 b) && (u8 b <=? 70)) || ((97 <=? u8 b) && (u8 b <=? 102)).

Definition is_ip_body (b : byte) : bool := is_ascii_digit b || bool_decide (b = Byte.x2e).
Definition is_mac_body (b : byte) : bool := is_ascii_hexdigit b || bool_decide (b = Byte.x3a).

(** No byte of a longer token at [idx]; the index before the first is out of range. *)
Definition is_boundary (bytes : list byte) (idx : option nat) (is_body : byte → bool) : bool :=
  match (i ← idx; bytes !! i) with Some b => negb (is_body b) | None => true end.

(** [i as isize - 1]. *)
Definition before (i : nat) : option nat := match i with O => None | S i => Some i end.

Definition NGC : list byte := str "NGC".

(** ** Scanning *)

(** The index after the digits at [j]; [limit] is how many may be taken. *)
Fixpoint digits_end (limit : nat) (bytes : list byte) (j : nat) : nat :=
  match limit with
  | O => j
  | S limit => match bytes !! j with
               | Some b => if is_ascii_digit b then digits_end limit bytes (S j) else j
               | None => j
               end
  end.

(** The span of a match as text. *)
Definition lossy (bytes : list byte) (i j : nat) : option (list byte) := from_utf8_lossy <$> get_range bytes i j.

Fixpoint find_serials (fuel : nat) (bytes : list byte) (i : nat) (out : list Match) : option (list Match) :=
  match fuel with
  | O => None
  | S fuel =>
    if (i + 3 <=? length bytes)%nat then
      if bool_decide (get_range bytes i (i + 3) = Some NGC) then
        let digits_start := (i + 3)%nat in
        let j := digits_end (length bytes) bytes digits_start in
        digits ← get_range bytes digits_start j;
        let found := (digits_start <? j)%nat && existsb (λ b, negb (bool_decide (b = Byte.x30))) digits in
        s ← lossy bytes i j;
        find_serials fuel bytes (Nat.max j (i + 1))
          (if found then out ++ [mk_match i j (Findings.Serial s)] else out)
      else find_serials fuel bytes (i + 1) out
    else Some out
  end.

(** One of the four numbers of an address, at [pos]. *)
Definition parse_octet (bytes : list byte) (octet_idx pos : nat) : option nat :=
  let octet_start := pos in
  let pos := digits_end 3 bytes pos in
  if (pos =? octet_start)%nat then None
  else
    digits ← get_range bytes octet_start pos;
    value ← (if utf8_valid digits then parse_u32 digits else None);
    if 255 <? value then None
    else if (octet_idx <? 3)%nat then
      match bytes !! pos with
      | Some b => if bool_decide (b = Byte.x2e) then Some (pos + 1)%nat else None
      | None => None
      end
    else Some pos.

Definition parse_ipv4_end (bytes : list byte) (start : nat) : option nat :=
  pos ← parse_octet bytes 0 start; pos ← parse_octet bytes 1 pos;
  pos ← parse_octet bytes 2 pos; parse_octet bytes 3 pos.

Definition is_allowed_ip (ip : list byte) : bool :=
  bytes_eqb ip (str "0.0.0.0") || bytes_eqb ip (str "127.0.0.1")
  || match (rest ← strip_prefix ip (str "192.0.2."); parse_u32 rest) with Some n => n <=? 255 | None => false end.

Fixpoint find_ips (fuel : nat) (bytes : list byte) (i : nat) (out : list Match) : option (list Match) :=
  match fuel with
  | O => None
  | S fuel =>
    match bytes !! i with
    | None => Some out
    | Some b =>
      match (if is_ascii_digit b && is_boundary bytes (before i) is_ip_body then parse_ipv4_end bytes i else None) with
      | Some e =>
        out ← (if is_boundary bytes (Some e) is_ip_body then
                 ip ← lossy bytes i e;
                 Some (if is_allowed_ip ip then out else out ++ [mk_match i e (Findings.Ip ip)])
               else Some out);
        find_ips fuel bytes (Nat.max e (i + 1)) out
      | None => find_ips fuel bytes (i + 1) out
      end
    end
  end.

(** One of the six groups of an address, at [pos]. *)
Definition parse_group (bytes : list byte) (group pos : nat) : option nat :=
  a ← bytes !! pos; b ← bytes !! S pos;
  if is_ascii_hexdigit a && is_ascii_hexdigit b then
    let pos := (pos + 2)%nat in
    if (group <? 5)%nat then
      match bytes !! pos with
      | Some c => if bool_decide (c = Byte.x3a) then Some (pos + 1)%nat else None
      | None => None
      end
    else Some pos
  else None.

Definition parse_mac_end (bytes : list byte) (start : nat) : option nat :=
  pos ← parse_group bytes 0 start; pos ← parse_group bytes 1 pos; pos ← parse_group bytes 2 pos;
  pos ← parse_group bytes 3 pos; pos ← parse_group bytes 4 pos; parse_group bytes 5 pos.

Definition is_allowed_mac (mac : list byte) : bool :=
  match strip_prefix mac (str "02:00:00:00:00:") with
  | Some last => (length last =? 2)%nat && forallb is_ascii_hexdigit last
  | None => false
  end.

Fixpoint find_macs (fuel : nat) (bytes : list byte) (i : nat) (out : list Match) : option (list Match) :=
  match fuel with
  | O => None
  | S fuel =>
    match bytes !! i with
    | None => Some out
    | Some _ =>
      match parse_mac_end bytes i with
      | Some e =>
        out ← (if is_boundary bytes (before i) is_mac_body && is_boundary bytes (Some e) is_mac_body then
                 mac ← to_ascii_lowercase <$> lossy bytes i e;
                 Some (if is_allowed_mac mac then out else out ++ [mk_match i e (Findings.Mac mac)])
               else Some out);
        find_macs fuel bytes (Nat.max e (i + 1)) out
      | None => find_macs fuel bytes (i + 1) out
      end
    end
  end.

Definition find_matches (bytes : list byte) : option (list Match) :=
  let fuel := S (length bytes) in
  out ← find_serials fuel bytes 0 [];
  out ← find_ips fuel bytes 0 out;
  find_macs fuel bytes 0 out.

Definition scan (bytes : list byte) : option (list Finding) := map finding <$> find_matches bytes.

(** ** Rewriting *)

Definition fit_test_net_ip (len : nat) : option (list byte) :=
  find (λ s, (length s =? len)%nat) (map (λ n, str "192.0.2." ++ decimal_fuel 3 (Z.of_nat n)) (seq 0 256)).

(** [None] for the panic of [s.len() - 3]. *)
Definition replacement (f : Finding) : option (result RedactError (list byte)) :=
  match f with
  | Findings.Serial s => if (length s <? 3)%nat then None else Some (Ok (NGC ++ replicate (length s - 3) Byte.x30))
  | Findings.Mac _ => Some (Ok (str "02:00:00:00:00:00"))
  | Findings.Ip ip => Some (match fit_test_net_ip (length ip) with Some s => Ok s | None => Err (NoSameLengthIp ip) end)
  end.

(** [out[m.start..m.end].copy_from_slice(..)] for a replacement of that length. *)
Definition splice (out : list byte) (m : Match) (text : list byte) : option (list byte) :=
  if (start m <=? end_ m)%nat && (end_ m <=? length out)%nat
  then Some (take (start m) out ++ text ++ drop (end_ m) out) else None.

Fixpoint rewrite_matches (ms : list Match) (out : list byte) : option (result RedactError (list byte)) :=
  match ms with
  | [] => Some (Ok out)
  | m :: ms =>
    r ← replacement (finding m);
    match r with
    | Err e => Some (Err e)
    | Ok text =>
      if negb (length text =? end_ m - start m)%nat then Some (Err (LengthMismatch (finding m)))
      else out ← splice out m text; rewrite_matches ms out
    end
  end.

(** The passes that are left. *)
Fixpoint redact_passes (n : nat) (out : list byte) : option (result RedactError (list byte)) :=
  match n with
  | O => Some (Err NotFullyRedacted)
  | S n =>
    matches ← find_matches out;
    match matches with
    | [] => Some (Ok out)
    | _ =>
      r ← rewrite_matches matches out;
      match r with Ok out => redact_passes n out | Err e => Some (Err e) end
    end
  end.

Definition redact_bytes (bytes : list byte) : option (result RedactError (list byte)) := redact_passes 4 bytes.

(** ** Streams *)

Abbreviation CaptureEvent := (list byte * list byte)%type.

Record Grouping := mk_grouping { closed : list (list nat); incoming : list nat; outgoing : list nat }.

(** The open streams end: an empty one leaves no group. *)
Definition close_streams (g : Grouping) : list (list nat) :=
  closed g ++ match incoming g with [] => [] | is_ => [is_] end ++ match outgoing g with [] => [] | is_ => [is_] end.

Definition group_event (g : Grouping) (index : nat) (ev : CaptureEvent) : Grouping :=
  let '(channel, bytes) := ev in
  if bytes_eqb channel (str "N<") && (length bytes =? 0)%nat then mk_grouping (close_streams g) [] []
  else if bytes_eqb channel (str "N<") then mk_grouping (closed g) (incoming g ++ [index]) (outgoing g)
  else if bytes_eqb channel (str "N>") then mk_grouping (closed g) (incoming g) (outgoing g ++ [index])
  else mk_grouping (closed g ++ [[index]]) (incoming g) (outgoing g).

Fixpoint group_events (g : Grouping) (index : nat) (events : list CaptureEvent) : Grouping :=
  match events with
  | [] => g
  | ev :: events => group_events (group_event g index ev) (S index) events
  end.

Definition groups (events : list CaptureEvent) : list (list nat) :=
  close_streams (group_events (mk_grouping [] [] []) 0 events).

(** The bytes of a group, reassembled. *)
Definition gather (events : list CaptureEvent) (indices : list nat) : option (list byte) :=
  (λ l, concat l) <$> mapM (λ i, snd <$> events !! i) indices.

(** Scattered back into the events, each as many as it had. *)
Fixpoint scatter (events : list CaptureEvent) (indices : list nat) (redacted : list byte) : option (list CaptureEvent) :=
  match indices with
  | [] => Some events
  | i :: indices =>
    ev ← events !! i;
    let len := length ev.2 in
    if (len <=? length redacted)%nat
    then scatter (<[i := (ev.1, take len redacted)]> events) indices (drop len redacted) else None
  end.

Definition scan_events (events : list CaptureEvent) : option (list Finding) :=
  (λ l, concat l) <$> mapM (λ indices, bytes ← gather events indices; scan bytes) (groups events).

(** The events are changed in place: after an error those of the earlier groups stay
    redacted. *)
Fixpoint redact_groups (gs : list (list nat)) (events : list CaptureEvent)
    : option (result RedactError unit * list CaptureEvent) :=
  match gs with
  | [] => Some (Ok tt, events)
  | indices :: gs =>
    bytes ← gather events indices;
    r ← redact_bytes bytes;
    match r with
    | Err e => Some (Err e, events)
    | Ok redacted => events ← scatter events indices redacted; redact_groups gs events
    end
  end.

Definition redact_events (events : list CaptureEvent) : option (result RedactError unit * list CaptureEvent) :=
  redact_groups (groups events) events.

Example redact_tests :
  redact_bytes (str "WING,10.20.30.40,MixerRoomA,RACK,NGC1234567,1.9.9")
    = Some (Ok (str "WING,192.0.2.100,MixerRoomA,RACK,NGC0000000,1.9.9"))
  ∧ redact_bytes (str "resolver=8.8.8.8") = Some (Err (NoSameLengthIp (str "8.8.8.8")))
  ∧ scan (str "mac=aa:bb:cc:dd:ee:ff") = Some [Findings.Mac (str "aa:bb:cc:dd:ee:ff")]
  ∧ scan (str "V3.1.03 release 127.0.0.1 02:00:00:00:00:0a NGC0000000") = Some [].
Proof. by vm_compute. Qed.

(** Where a serial runs into an address each replacement is found by the other scan. *)
Example overlapping_identifiers : redact_bytes (str "NGC12.34.56.78") = Some (Err NotFullyRedacted).
Proof. vm_compute. reflexivity. Qed.

(** ** The bytes of identifiers *)

(** What serials, addresses and their replacements are made of. *)
Definition token (b : byte) : bool :=
  is_ip_body b || is_mac_body b || bool_decide (b ∈ NGC).

Lemma token_ascii b : token b = true → is_ascii b = true.
Proof. destruct b; vm_compute; done. Qed.

Lemma digit_token b : is_ascii_digit b = true → token b = true.
Proof. unfold token, is_ip_body. by intros ->. Qed.

Lemma hex_token b : is_ascii_hexdigit b = true → token b = true.
Proof. unfold token, is_mac_body. intros ->. by rewrite orb_true_r. Qed.

(** The bytes from [i] up to [j] exist and are token bytes. *)
Definition tokens (bytes : list byte) (i j : nat) : Prop :=
  (i ≤ j ≤ length bytes)%nat ∧ ∀ k b, (i ≤ k < j)%nat → bytes !! k = Some b → token b = true.

Lemma tokens_nil bytes i : (i ≤ length bytes)%nat → tokens bytes i i.
Proof. intros. split; [lia|]. intros; lia. Qed.

Lemma tokens_trans bytes i j k : tokens bytes i j → tokens bytes j k → tokens bytes i k.
Proof.
  intros [H1 T1] [H2 T2]. split; [lia|]. intros n b Hn. destruct (decide (n < j)%nat); [apply T1|apply T2]; lia.
Qed.

Lemma tokens_one bytes i b : bytes !! i = Some b → token b = true → tokens bytes i (S i).
Proof.
  intros Hb Ht. pose proof (lookup_lt_Some _ _ _ Hb). split; [lia|]. intros k c Hk Hc. assert (k = i) as -> by lia. congruence.
Qed.

Lemma tokens_slice bytes i j :
  tokens bytes i j → ∃ s, get_range bytes i j = Some s ∧ length s = (j - i)%nat ∧ Forall (λ b, token b = true) s.
Proof.
  intros [Hr Ht]. unfold get_range. rewrite (proj2 (Nat.leb_le i j)), (proj2 (Nat.leb_le j _)) by lia. cbn [andb].
  eexists. split; [done|]. split; [rewrite length_take, length_drop; lia|].
  apply list.Forall_lookup. intros k b Hk. apply lookup_take_Some in Hk as [Hk Hlt]. rewrite lookup_drop in Hk.
  apply (Ht (i + k)%nat); [lia|done].
Qed.

Lemma tokens_lossy bytes i j :
  tokens bytes i j → ∃ s, lossy bytes i j = Some s ∧ length s = (j - i)%nat ∧ get_range bytes i j = Some s.
Proof.
  intros (s & Hs & Hl & Ht)%tokens_slice. exists s. unfold lossy. rewrite Hs. cbn [fmap option_fmap option_map].
  rewrite from_utf8_lossy_valid; [done|]. apply utf8_valid_ascii. eapply list.Forall_impl; [exact Ht|]. apply token_ascii.
Qed.

Lemma digits_end_ok limit bytes j :
  (j ≤ length bytes)%nat →
  tokens bytes j (digits_end limit bytes j) ∧ (digits_end limit bytes j ≤ j + limit)%nat.
Proof.
  revert j. induction limit as [|limit IH]; intros j Hj; cbn [digits_end]; [split; [by apply tokens_nil|lia]|].
  destruct (bytes !! j) as [b|] eqn:Eb; [|split; [by apply tokens_nil|lia]].
  destruct (is_ascii_digit b) eqn:Ed; [|split; [by apply tokens_nil|lia]].
  pose proof (lookup_lt_Some _ _ _ Eb). destruct (IH (S j)) as [H1 H2]; [lia|]. split; [|lia].
  eapply tokens_trans; [by eapply tokens_one, digit_token|done].
Qed.

(** With a limit past the end the digits are all taken. *)
Lemma digits_end_stop limit bytes j :
  (length bytes ≤ j + limit)%nat →
  match bytes !! digits_end limit bytes j with Some b => is_ascii_digit b = false | None => True end.
Proof.
  revert j. induction limit as [|limit IH]; intros j Hj; cbn [digits_end].
  - by rewrite (proj2 (lookup_ge_None bytes j)) by lia.
  - destruct (bytes !! j) as [b|] eqn:Eb; [|by rewrite Eb].
    destruct (is_ascii_digit b) eqn:Ed; [apply IH; lia|by rewrite Eb].
Qed.

(** ** What a scan finds *)

(** A match lies in the buffer, on token bytes, and its replacement has its length or is
    refused. *)
Definition match_ok (bytes : list byte) (m : Match) : Prop :=
  tokens bytes (start m) (end_ m) ∧
  match finding m with
  | Findings.Serial s => length s = (end_ m - start m)%nat ∧ (3 ≤ length s)%nat
  | Findings.Ip s => length s = (end_ m - start m)%nat
  | Findings.Mac s => (end_ m - start m)%nat = 17%nat
  end.

(** A scanning loop went through and added good matches. *)
Definition found (bytes : list byte) (out : list Match) (r : option (list Match)) : Prop :=
  ∃ ms, r = Some (out ++ ms) ∧ Forall (match_ok bytes) ms.

Lemma found_none bytes out : found bytes out (Some out).
Proof. exists []. by rewrite app_nil_r. Qed.

Lemma found_more bytes out b m r :
  match_ok bytes m → found bytes (if b : bool then out ++ [m] else out) r → found bytes out r.
Proof.
  intros Hm (ms & -> & Hf). destruct b.
  - exists (m :: ms). rewrite <- (assoc_L (++)). split; [done|]. by constructor.
  - by exists ms.
Qed.

Lemma ngc_tokens bytes i : get_range bytes i (i + 3) = Some NGC → tokens bytes i (i + 3).
Proof.
  intros H. pose proof (proj1 (get_range_Some _ _ _ _) H) as [Hr He]. split; [done|]. intros k b Hk Hb.
  assert (Hn : NGC !! (k - i)%nat = Some b).
  { rewrite He, lookup_take_lt, lookup_drop by lia. by replace (i + (k - i))%nat with k by lia. }
  apply list_elem_of_lookup_2 in Hn. unfold token. rewrite (bool_decide_eq_true_2 (b ∈ NGC)) by done. apply orb_true_r.
Qed.

Lemma find_serials_ok fuel bytes i out :
  (i ≤ length bytes < fuel + i)%nat → found bytes out (find_serials fuel bytes i out).
Proof.
  revert i out. induction fuel as [|fuel IH]; intros i out Hf; [lia|]. cbn [find_serials].
  destruct (i + 3 <=? length bytes)%nat eqn:E3; [apply Nat.leb_le in E3|apply found_none].
  case_bool_decide as En; [|apply IH; lia].
  set (j := digits_end (length bytes) bytes (i + 3)).
  destruct (digits_end_ok (length bytes) bytes (i + 3)) as [Hd _]; [lia|]. fold j in Hd.
  pose proof (ngc_tokens bytes i En) as Hn. pose proof (tokens_trans _ _ _ _ Hn Hd) as Ht.
  destruct (tokens_slice _ _ _ Hd) as (digits & -> & _ & _). destruct (tokens_lossy _ _ _ Ht) as (s & -> & Hs & _).
  cbn [mbind option_bind]. destruct Hd as [Hd _].
  eapply (found_more _ _ _ (mk_match i j (Findings.Serial s))); [split; [done|cbn; lia]|]. apply IH. lia.
Qed.

Lemma parse_octet_ok bytes n pos e :
  (pos ≤ length bytes)%nat → parse_octet bytes n pos = Some e → tokens bytes pos e ∧ (pos < e)%nat.
Proof.
  intros Hp. unfold parse_octet. destruct (digits_end_ok 3 bytes pos Hp) as [Ht _].
  set (p := digits_end 3 bytes pos) in *. destruct (Nat.eqb_spec p pos) as [|Hne]; [done|].
  destruct (get_range bytes pos p) as [digits|]; [|done]. cbn [mbind option_bind].
  destruct (if utf8_valid digits then parse_u32 digits else None) as [v|]; [|done]. cbn [mbind option_bind].
  destruct (255 <? v); [done|]. destruct Ht as [Hr Ht]. destruct (n <? 3)%nat.
  - destruct (bytes !! p) as [b|] eqn:Eb; [|done]. case_bool_decide as Hb; [|done]. intros [= <-]. rewrite Nat.add_1_r.
    split; [|lia]. eapply tokens_trans; [by split|]. by apply (tokens_one _ _ b); [|subst b].
  - intros [= <-]. split; [by split|lia].
Qed.

Lemma parse_group_ok bytes n pos e :
  parse_group bytes n pos = Some e → tokens bytes pos e ∧ (e = pos + (if (n <? 5)%nat then 3 else 2))%nat.
Proof.
  unfold parse_group. destruct (bytes !! pos) as [a|] eqn:Ea; [|done]. cbn [mbind option_bind].
  destruct (bytes !! S pos) as [b|] eqn:Eb; [|done]. cbn [mbind option_bind].
  destruct (is_ascii_hexdigit a && is_ascii_hexdigit b) eqn:Eh; [|done]. apply andb_true_iff in Eh as [Ha Hb].
  assert (Ht : tokens bytes pos (pos + 2)).
  { rewrite Nat.add_comm. eapply tokens_trans; [by eapply tokens_one, hex_token|by eapply tokens_one, hex_token]. }
  destruct (n <? 5)%nat.
  - destruct (bytes !! (pos + 2)%nat) as [c|] eqn:Ec; [|done]. case_bool_decide as Hc; [|done]. intros [= <-].
    split; [|lia]. eapply tokens_trans; [exact Ht|]. replace (pos + 2 + 1)%nat with (S (pos + 2)) by lia.
    by apply (tokens_one _ _ c); [|subst c].
  - intros [= <-]. by split.
Qed.

Lemma parse_ipv4_end_ok bytes i e :
  (i ≤ length bytes)%nat → parse_ipv4_end bytes i = Some e → tokens bytes i e ∧ (i < e)%nat.
Proof.
  intros Hi. unfold parse_ipv4_end. intros (p1 & H1 & (p2 & H2 & (p3 & H3 & H4)%bind_Some)%bind_Some)%bind_Some.
  destruct (parse_octet_ok _ _ _ _ Hi H1) as [T1 L1].
  destruct (parse_octet_ok _ _ _ _ (proj2 (proj1 T1)) H2) as [T2 L2].
  destruct (parse_octet_ok _ _ _ _ (proj2 (proj1 T2)) H3) as [T3 L3].
  destruct (parse_octet_ok _ _ _ _ (proj2 (proj1 T3)) H4) as [T4 L4].
  split; [|lia]. eapply tokens_trans; [exact T1|]. eapply tokens_trans; [exact T2|]. by eapply tokens_trans.
Qed.

Lemma parse_mac_end_ok bytes i e : parse_mac_end bytes i = Some e → tokens bytes i e ∧ e = (i + 17)%nat.
Proof.
  unfold parse_mac_end.
  intros (p1 & H1 & (p2 & H2 & (p3 & H3 & (p4 & H4 & (p5 & H5 & H6)%bind_Some)%bind_Some)%bind_Some)%bind_Some)%bind_Some.
  apply parse_group_ok in H1 as [T1 ->], H2 as [T2 ->], H3 as [T3 ->], H4 as [T4 ->], H5 as [T5 ->], H6 as [T6 ->].
  cbn [Nat.ltb Nat.leb] in *. split; [|lia]. do 5 (eapply tokens_trans; [eassumption|]). exact T6.
Qed.

Lemma find_ips_ok fuel bytes i out :
  (i ≤ length bytes < fuel + i)%nat → found bytes out (find_ips fuel bytes i out).
Proof.
  revert i out. induction fuel as [|fuel IH]; intros i out Hf; [lia|]. cbn [find_ips].
  destruct (bytes !! i) as [b|] eqn:Eb; [|apply found_none]. pose proof (lookup_lt_Some _ _ _ Eb).
  destruct (is_ascii_digit b && _); [|apply IH; lia].
  destruct (parse_ipv4_end bytes i) as [e|] eqn:Ee; [|apply IH; lia].
  apply parse_ipv4_end_ok in Ee as [Ht Hlt]; [|lia]. destruct (is_boundary _ _ _).
  - destruct (tokens_lossy _ _ _ Ht) as (ip & -> & Hl & _). cbn [mbind option_bind].
    apply (found_more _ _ (negb (is_allowed_ip ip)) (mk_match i e (Findings.Ip ip))); [by split|].
    destruct Ht as [Hr _]. destruct (is_allowed_ip ip); apply IH; lia.
  - cbn [mbind option_bind]. destruct Ht as [Hr _]. apply IH. lia.
Qed.

Lemma find_macs_ok fuel bytes i out :
  (i ≤ length bytes < fuel + i)%nat → found bytes out (find_macs fuel bytes i out).
Proof.
  revert i out. induction fuel as [|fuel IH]; intros i out Hf; [lia|]. cbn [find_macs].
  destruct (bytes !! i) as [b|] eqn:Eb; [|apply found_none]. pose proof (lookup_lt_Some _ _ _ Eb).
  destruct (parse_mac_end bytes i) as [e|] eqn:Ee; [|apply IH; lia].
  apply parse_mac_end_ok in Ee as [Ht ->]. destruct (_ && _).
  - destruct (tokens_lossy _ _ _ Ht) as (mac & -> & _ & _). cbn [fmap option_fmap option_map mbind option_bind].
    apply (found_more _ _ (negb (is_allowed_mac (to_ascii_lowercase mac)))
      (mk_match i (i + 17) (Findings.Mac (to_ascii_lowercase mac)))); [split; [done|cbn; lia]|].
    destruct Ht as [Hr _]. destruct (is_allowed_mac _); apply IH; lia.
  - cbn [mbind option_bind]. destruct Ht as [Hr _]. apply IH. lia.
Qed.

Lemma find_matches_ok bytes : ∃ ms, find_matches bytes = Some ms ∧ Forall (match_ok bytes) ms.
Proof.
  unfold find_matches. destruct (find_serials_ok (S (length bytes)) bytes 0 []) as (m1 & -> & F1); [lia|].
  cbn [mbind option_bind app]. destruct (find_ips_ok (S (length bytes)) bytes 0 m1) as (m2 & -> & F2); [lia|].
  cbn [mbind option_bind]. destruct (find_macs_ok (S (length bytes)) bytes 0 (m1 ++ m2)) as (m3 & -> & F3); [lia|].
  eexists. split; [done|]. by repeat apply list.Forall_app_2.
Qed.

(** ** Rewriting *)

(** What a rewrite may do to a byte: nothing, or make a token byte another. *)
Definition retoken (a b : byte) : Prop := a = b ∨ token a = true ∧ token b = true.

#[export] Instance retoken_preorder : PreOrder retoken.
Proof.
  split; [by left|]. intros x y z [->|[? ?]] [->|[? ?]]; by (left + right).
Qed.

Lemma retoken_tokens l1 l2 i j : Forall2 retoken l1 l2 → tokens l1 i j → tokens l2 i j.
Proof.
  intros H [Hr Ht]. pose proof (list.Forall2_length _ _ _ H) as Hl. split; [lia|]. intros k b Hk Hb.
  destruct (list.Forall2_lookup_r _ _ _ _ _ H Hb) as (a & Ha & [->|[_ ?]]); [by eapply Ht|done].
Qed.

Lemma fit_test_net_ip_ok len :
  match fit_test_net_ip len with
  | Some s => length s = len ∧ Forall (λ b, token b = true) s
  | None => (len < 9 ∨ 11 < len)%nat
  end.
Proof.
  destruct (fit_test_net_ip len) as [s|] eqn:E.
  - unfold fit_test_net_ip in E. apply List.find_some in E as [Hin Hl%Nat.eqb_eq]. split; [done|].
    set (l := map _ _) in Hin.
    assert (Ht : forallb (forallb token) l = true) by (vm_compute; reflexivity).
    rewrite forallb_forall in Ht. specialize (Ht s Hin). rewrite forallb_forall in Ht.
    apply list.Forall_forall. intros b Hb. apply Ht. by apply list_elem_of_In.
  - destruct (decide (9 ≤ len ≤ 11)%nat) as [Hd|]; [|lia].
    assert (len = 9 ∨ len = 10 ∨ len = 11)%nat as Hc by lia. destruct Hc as [-> | [-> | ->]]; vm_compute in E; discriminate.
Qed.

Lemma replacement_ok bytes m :
  match_ok bytes m →
  ∃ r, replacement (finding m) = Some r ∧
    match r with
    | Ok text => length text = (end_ m - start m)%nat ∧ Forall (λ b, token b = true) text
    | Err e => ∃ ip, e = NoSameLengthIp ip ∧ (length ip < 9 ∨ 11 < length ip)%nat
    end.
Proof.
  intros [_ Hm]. unfold replacement. destruct (finding m) as [s|s|s].
  - destruct Hm as [Hl H3]. rewrite (proj2 (Nat.ltb_ge _ _)) by done. eexists. split; [done|]. cbn [length app].
    rewrite length_app, length_replicate. change (length NGC) with 3%nat. split; [lia|].
    apply list.Forall_app. split; [by repeat constructor|]. by apply Forall_replicate.
  - pose proof (fit_test_net_ip_ok (length s)) as Hf. destruct (fit_test_net_ip (length s)) as [t|].
    + eexists. split; [done|]. destruct Hf as [-> ?]. split; [by rewrite Hm|done].
    + eexists. split; [done|]. by exists s.
  - eexists. split; [done|]. rewrite Hm. split; [done|]. by repeat constructor.
Qed.

Lemma splice_ok out m text :
  tokens out (start m) (end_ m) → length text = (end_ m - start m)%nat → Forall (λ b, token b = true) text →
  ∃ out', splice out m text = Some out' ∧ Forall2 retoken out out'.
Proof.
  intros Ht Hl Htext. destruct (tokens_slice _ _ _ Ht) as (s & Hs & Hls & Hts). destruct Ht as [Hr _].
  unfold splice. rewrite (proj2 (Nat.leb_le _ _)), (proj2 (Nat.leb_le (end_ m) _)) by lia. cbn [andb].
  eexists. split; [done|]. apply get_range_Some in Hs as [_ ->].
  rewrite <- (take_drop (start m) out) at 1. apply Forall2_app; [reflexivity|].
  rewrite <- (take_drop (end_ m - start m) (drop (start m) out)) at 1. apply Forall2_app.
  - apply Forall2_same_length_lookup_2; [lia|]. intros k a b Ha Hb. right.
    split; [by eapply (list.Forall_lookup_1 _ _ _ _ Hts)|by eapply (list.Forall_lookup_1 _ _ _ _ Htext)].
  - rewrite drop_drop. replace (start m + (end_ m - start m))%nat with (end_ m) by lia. reflexivity.
Qed.

(** One pass: the matches were found in [bytes], which [out] is a rewriting of. *)
Lemma rewrite_matches_ok bytes ms out :
  Forall (match_ok bytes) ms → Forall2 retoken bytes out →
  ∃ r, rewrite_matches ms out = Some r ∧
    match r with
    | Ok out' => Forall2 retoken bytes out'
    | Err e => ∃ ip, e = NoSameLengthIp ip ∧ (length ip < 9 ∨ 11 < length ip)%nat
    end.
Proof.
  intros Hms. revert out. induction Hms as [|m ms Hm _ IH]; intros out Ho; cbn [rewrite_matches]; [by eexists|].
  destruct (replacement_ok bytes m Hm) as (r & -> & Hr). cbn [mbind option_bind]. destruct r as [text|e]; [|by eexists].
  destruct Hr as [Hl Ht]. rewrite (proj2 (Nat.eqb_eq _ _) Hl). cbn [negb].
  destruct (splice_ok out m text) as (out' & -> & Ho'); [|done|done|].
  - eapply retoken_tokens; [exact Ho|]. by apply Hm.
  - cbn [mbind option_bind]. apply IH. by etrans.
Qed.

Lemma redact_passes_ok n bytes :
  ∃ r, redact_passes n bytes = Some r ∧
    match r with
    | Ok out => find_matches out = Some [] ∧ Forall2 retoken bytes out
    | Err (NoSameLengthIp ip) => (length ip < 9 ∨ 11 < length ip)%nat
    | Err (LengthMismatch _) => False
    | Err NotFullyRedacted => True
    end.
Proof.
  revert bytes. induction n as [|n IH]; intros bytes; cbn [redact_passes]; [by eexists|].
  destruct (find_matches_ok bytes) as (ms & E & Hms). rewrite E. cbn [mbind option_bind].
  destruct ms as [|m ms]; [eexists; split; [done|]; split; [done|reflexivity]|].
  destruct (rewrite_matches_ok bytes (m :: ms) bytes Hms (reflexivity bytes)) as (r & -> & Hr). cbn [mbind option_bind].
  destruct r as [out|e]; [|destruct Hr as (ip & -> & Hip); by eexists].
  destruct (IH out) as (r & -> & H). eexists. split; [done|]. destruct r as [out'|[]]; try done.
  destruct H as [? ?]. split; [done|]. by etrans.
Qed.

Lemma redact_clean bytes : find_matches bytes = Some [] → redact_bytes bytes = Some (Ok bytes).
Proof. intros H. unfold redact_bytes. cbn [redact_passes]. by rewrite H. Qed.

(** ** Streams *)

(** The bytes of an event. *)
Definition bytes_at (events : list CaptureEvent) (i : nat) : list byte := from_option snd [] (events !! i).

(** Same channels, and chunks of the same lengths. *)
Definition same_shape (a b : CaptureEvent) : Prop := a.1 = b.1 ∧ length a.2 = length b.2.

#[export] Instance same_shape_preorder : PreOrder same_shape.
Proof. split; [done|]. intros x y z [? ?] [? ?]. split; congruence. Qed.

Lemma gather_bytes events is_ :
  Forall (λ i, (i < length events)%nat) is_ → gather events is_ = Some (concat (map (bytes_at events) is_)).
Proof.
  intros H. unfold gather.
  assert (mapM (λ i, snd <$> events !! i) is_ = Some (map (bytes_at events) is_)) as ->; [|done].
  induction H as [|i is_ Hi _ IH]; [done|]. cbn [mapM map]. unfold bytes_at at 1.
  destruct (lookup_lt_is_Some_2 events i Hi) as [ev ->]. cbn [fmap option_fmap option_map mbind option_bind]. by rewrite IH.
Qed.

Lemma shape_insert events i ev b :
  events !! i = Some ev → length b = length ev.2 → Forall2 same_shape events (<[i := (ev.1, b)]> events).
Proof.
  intros Hi Hb. apply Forall2_same_length_lookup_2; [by rewrite length_insert|]. intros k x y Hx Hy.
  destruct (decide (k = i)) as [->|Hk].
  - rewrite list_lookup_insert_eq in Hy by (by eapply lookup_lt_Some). assert (x = ev) as -> by congruence.
    injection Hy as <-. done.
  - rewrite list_lookup_insert_ne in Hy by done. assert (x = y) as -> by congruence. done.
Qed.

(** Scattering what was gathered back. *)
Lemma scatter_ok events is_ redacted :
  NoDup is_ → Forall (λ i, (i < length events)%nat) is_ →
  length redacted = length (concat (map (bytes_at events) is_)) →
  ∃ events', scatter events is_ redacted = Some events' ∧ Forall2 same_shape events events'
    ∧ concat (map (bytes_at events') is_) = redacted ∧ ∀ j, j ∉ is_ → events' !! j = events !! j.
Proof.
  revert events redacted. induction is_ as [|i is_ IH]; intros events redacted Hn Hv Hl; cbn [scatter].
  { exists events. split_and!; [done|reflexivity|by apply nil_length_inv in Hl|done]. }
  apply list.NoDup_cons in Hn as [Hi Hn]. apply list.Forall_cons in Hv as [Hlt Hv].
  destruct (lookup_lt_is_Some_2 events i Hlt) as [ev Hev]. rewrite Hev. cbn [mbind option_bind map concat] in *.
  assert (Hb : bytes_at events i = ev.2) by (unfold bytes_at; by rewrite Hev).
  rewrite length_app, Hb in Hl. rewrite (proj2 (Nat.leb_le _ _)) by lia.
  set (ev' := (ev.1, take (length ev.2) redacted)). set (events1 := <[i := ev']> events).
  assert (Ht : length (take (length ev.2) redacted) = length ev.2) by (rewrite length_take; lia).
  assert (Hsame : ∀ j, j ≠ i → events1 !! j = events !! j) by (intros j Hj; by apply list_lookup_insert_ne).
  assert (Hmap : map (bytes_at events1) is_ = map (bytes_at events) is_).
  { apply map_ext_in. intros j Hj. unfold bytes_at. rewrite Hsame; [done|]. intros ->. apply Hi. by apply list_elem_of_In. }
  destruct (IH events1 (drop (length ev.2) redacted)) as (events' & -> & Hshape & Hcat & Hrest).
  - done.
  - eapply list.Forall_impl; [exact Hv|]. intros j ?. unfold events1. by rewrite length_insert.
  - rewrite Hmap, length_drop. lia.
  - exists events'. split_and!; [done| | |].
    + etrans; [|exact Hshape]. by apply shape_insert.
    + rewrite Hcat. assert (bytes_at events' i = take (length ev.2) redacted) as ->; [|apply take_drop].
      unfold bytes_at. rewrite Hrest by done. unfold events1. by rewrite list_lookup_insert_eq.
    + intros j [Hj1 Hj2]%not_elem_of_cons. by rewrite Hrest, Hsame.
Qed.

(** The indices a grouping holds. *)
Definition indices_of (g : Grouping) : list nat := concat (closed g) ++ incoming g ++ outgoing g.

Lemma close_streams_indices g : concat (close_streams g) = indices_of g.
Proof.
  unfold close_streams, indices_of. rewrite !concat_app. by destruct (incoming g), (outgoing g); cbn; rewrite ?app_nil_r.
Qed.

Lemma group_event_indices g i ev :
  indices_of (group_event g i ev) ≡ₚ indices_of g ∨ indices_of (group_event g i ev) ≡ₚ i :: indices_of g.
Proof.
  destruct ev as [channel bytes]. unfold group_event. destruct (_ && _).
  { left. unfold indices_of at 1. cbn [closed incoming outgoing app]. by rewrite app_nil_r, close_streams_indices. }
  right. unfold indices_of. destruct (bytes_eqb channel _); [|destruct (bytes_eqb channel _)];
    cbn [closed incoming outgoing]; rewrite ?concat_app; cbn [concat]; rewrite ?app_nil_r; solve_Permutation.
Qed.

Lemma group_events_indices g i events :
  NoDup (indices_of g) → Forall (λ j, (j < i)%nat) (indices_of g) →
  NoDup (indices_of (group_events g i events))
  ∧ Forall (λ j, (j < i + length events)%nat) (indices_of (group_events g i events)).
Proof.
  revert g i. induction events as [|ev events IH]; intros g i Hn Hb; cbn [group_events length].
  { split; [done|]. by rewrite Nat.add_0_r. }
  rewrite <- Nat.add_succ_comm. apply IH; destruct (group_event_indices g i ev) as [E|E]; rewrite E; try done.
  - constructor; [|done]. intros Hi. rewrite list.Forall_forall in Hb. specialize (Hb i Hi). lia.
  - eapply list.Forall_impl; [exact Hb|]. cbn. lia.
  - constructor; [lia|]. eapply list.Forall_impl; [exact Hb|]. cbn. lia.
Qed.

Lemma groups_indices events :
  NoDup (concat (groups events)) ∧ Forall (λ j, (j < length events)%nat) (concat (groups events)).
Proof.
  unfold groups. rewrite close_streams_indices.
  apply (group_events_indices (mk_grouping [] [] []) 0 events); constructor.
Qed.

Lemma groups_shape events events' : Forall2 same_shape events events' → groups events' = groups events.
Proof.
  intros H. unfold groups. f_equal. generalize (mk_grouping [] [] []), 0%nat.
  induction H as [|[c b] [c' b'] l l' [Hc Hb] _ IH]; intros g i; [done|]. cbn [group_events].
  cbn [fst snd] in Hc, Hb. subst c'. assert (group_event g i (c, b') = group_event g i (c, b)) as ->; [|apply IH].
  unfold group_event. by rewrite Hb.
Qed.

(** The same event, with nothing but token bytes rewritten. *)
Definition rewritten (a b : CaptureEvent) : Prop := a.1 = b.1 ∧ Forall2 retoken a.2 b.2.

#[export] Instance rewritten_preorder : PreOrder rewritten.
Proof. split; [done|]. intros x y z [? H] [? H']. split; [congruence|]. etrans; [exact H|exact H']. Qed.

Lemma rewritten_shape events events' : Forall2 rewritten events events' → Forall2 same_shape events events'.
Proof. intros H. eapply list.Forall2_impl; [exact H|]. intros a b [? ?%list.Forall2_length]. done. Qed.

Lemma Forall2_concat_inv {A} (R : A → A → Prop) (ls ls' : list (list A)) :
  Forall2 (λ l l', length l = length l') ls ls' → Forall2 R (concat ls) (concat ls') → Forall2 (Forall2 R) ls ls'.
Proof.
  induction 1 as [|l l' ls ls' Hl _ IH]; [done|]. cbn [concat]. intros H.
  apply list.Forall2_app_inv in H as [H1 H2]; [|done]. constructor; [done|by apply IH].
Qed.

(** The bytes of a group. *)
Definition stream (events : list CaptureEvent) (is_ : list nat) : list byte := concat (map (bytes_at events) is_).

Lemma stream_ext events events' is_ :
  (∀ j, j ∈ is_ → events' !! j = events !! j) → stream events' is_ = stream events is_.
Proof.
  intros H. unfold stream. f_equal. apply map_ext_in. intros j Hj. unfold bytes_at.
  by rewrite H by (by apply list_elem_of_In).
Qed.

(** Rewriting one stream rewrites its events. *)
Lemma scattered_rewritten events events' is_ :
  Forall2 same_shape events events' → (∀ j, j ∉ is_ → events' !! j = events !! j) →
  Forall2 retoken (stream events is_) (stream events' is_) → Forall2 rewritten events events'.
Proof.
  intros Hs Ho Hre. apply Forall2_same_length_lookup_2; [by eapply list.Forall2_length|].
  intros k x y Hx Hy. destruct (Forall2_lookup_lr _ _ _ _ _ _ Hs Hx Hy) as [Hc Hl]. split; [done|].
  destruct (decide (k ∈ is_)) as [Hin|Hout]; [|rewrite Ho in Hy by done; assert (x = y) as -> by congruence; done].
  unfold stream in Hre. apply Forall2_concat_inv in Hre.
  - rewrite Forall2_fmap in Hre. apply Forall2_Forall in Hre.
    rewrite list.Forall_forall in Hre. specialize (Hre (k, k)).
    unfold bytes_at in Hre. cbn [uncurry] in Hre. rewrite Hx, Hy in Hre. apply Hre.
    apply list_elem_of_lookup in Hin as [n Hn]. apply list_elem_of_lookup. exists n.
    rewrite lookup_zip_with, Hn. done.
  - rewrite Forall2_fmap. apply Forall_Forall2_diag, Forall_forall. intros j _. unfold bytes_at.
    destruct (events !! j) as [a|] eqn:Ea.
    + destruct (Forall2_lookup_l _ _ _ _ _ Hs Ea) as (b & -> & _ & Hab). done.
    + apply lookup_ge_None in Ea. rewrite (lookup_ge_None_2 events'); [done|].
      by rewrite <- (list.Forall2_length _ _ _ Hs).
Qed.

Lemma redact_groups_ok gs events :
  NoDup (concat gs) → Forall (λ i, (i < length events)%nat) (concat gs) →
  ∃ r events', redact_groups gs events = Some (r, events') ∧ Forall2 rewritten events events'
    ∧ (∀ j, j ∉ concat gs → events' !! j = events !! j)
    ∧ match r with
      | Ok _ => Forall (λ is_, find_matches (stream events' is_) = Some []
                  ∧ Forall2 retoken (stream events is_) (stream events' is_)) gs
      | Err (NoSameLengthIp ip) => (length ip < 9 ∨ 11 < length ip)%nat
      | Err (LengthMismatch _) => False
      | Err NotFullyRedacted => True
      end.
Proof.
  revert events. induction gs as [|is_ gs IH]; intros events Hn Hv; cbn [redact_groups concat] in *.
  { eexists _, events. split_and!; [done|reflexivity|done|constructor]. }
  apply list.NoDup_app in Hn as (Hn1 & Hdis & Hn2). apply list.Forall_app in Hv as [Hv1 Hv2].
  rewrite gather_bytes by done. cbn [mbind option_bind].
  destruct (redact_passes_ok 4 (stream events is_)) as (r & Er & Hr). unfold redact_bytes. unfold stream in Er. rewrite Er.
  cbn [mbind option_bind]. destruct r as [redacted|e].
  2: { eexists _, events. split_and!; [done|reflexivity|done|by destruct e]. }
  destruct Hr as [Hclean Hre]. pose proof (list.Forall2_length _ _ _ Hre) as Hlen.
  destruct (scatter_ok events is_ redacted Hn1 Hv1) as (events1 & -> & Hs1 & Hc1 & Ho1); [done|].
  cbn [mbind option_bind]. pose proof (list.Forall2_length _ _ _ Hs1) as Hl1.
  assert (Hw1 : Forall2 rewritten events events1).
  { apply (scattered_rewritten _ _ is_); [done|done|]. unfold stream at 2. by rewrite Hc1. }
  destruct (IH events1 Hn2) as (r & events' & -> & Hs2 & Ho2 & H2); [by rewrite <- Hl1|].
  eexists _, events'. split_and!; [done|by etrans| |].
  - intros j [Hj1 Hj2]%not_elem_of_app. by rewrite Ho2, Ho1.
  - destruct r as [[]|e]; [|exact H2]. constructor.
    + assert (Es : stream events' is_ = redacted).
      { rewrite <- Hc1. apply stream_ext. intros j Hj. apply Ho2. by apply Hdis. }
      by rewrite Es.
    + rewrite list.Forall_forall in H2. apply list.Forall_forall. intros js Hjs. destruct (H2 js Hjs) as [Ha Hb].
      split; [done|]. rewrite <- (stream_ext events events1 js); [done|]. intros j Hj. apply Ho1. intros Hin.
      apply (Hdis j Hin). apply list_elem_of_In, in_concat. exists js. by rewrite <- !list_elem_of_In.
Qed.

(** ** The streams of a capture, apart from how the code groups them *)

(** An empty chunk from the console ends a connection. *)
Definition ends_connection (ev : CaptureEvent) : Prop := ev.1 = str "N<" ∧ ev.2 = [].

(** The events between two such marks, or the ends of the capture. *)
Definition connection (events conn : list CaptureEvent) : Prop :=
  ∃ pre post, events = pre ++ conn ++ post ∧ Forall (λ ev, ¬ ends_connection ev) conn
    ∧ (∀ ev, list.last pre = Some ev → ends_connection ev) ∧ (∀ ev, head post = Some ev → ends_connection ev).

(** What a connection carried in one direction. *)
Definition channel_bytes (channel : list byte) (conn : list CaptureEvent) : list byte :=
  concat (map snd (filter (λ ev, ev.1 = channel) conn)).

Fixpoint channel_indices (channel : list byte) (i : nat) (events : list CaptureEvent) : list nat :=
  match events with
  | [] => []
  | ev :: events => (if decide (ev.1 = channel) then [i] else []) ++ channel_indices channel (S i) events
  end.

Lemma channel_indices_stream channel pre conn post :
  stream (pre ++ conn ++ post) (channel_indices channel (length pre) conn) = channel_bytes channel conn.
Proof.
  unfold stream, channel_bytes. revert pre. induction conn as [|ev conn IH]; intros pre; [done|].
  cbn [channel_indices]. specialize (IH (pre ++ [ev])).
  rewrite length_app, Nat.add_1_r, <- (assoc_L (++)) in IH. cbn [app] in IH.
  rewrite map_app, concat_app. cbn [app]. rewrite IH, list.filter_cons. case_decide; [|done].
  cbn [map concat]. unfold bytes_at. rewrite lookup_app_r, Nat.sub_diag by done. cbn. by rewrite app_nil_r.
Qed.

Lemma group_event_end g i ev :
  ends_connection ev → group_event g i ev = mk_grouping (close_streams g) [] [].
Proof. destruct ev as [channel bytes]. by intros [[= ->] [= ->]]. Qed.

Lemma group_event_other g i ev :
  ¬ ends_connection ev →
  incoming (group_event g i ev) = incoming g ++ (if decide (ev.1 = str "N<") then [i] else [])
  ∧ outgoing (group_event g i ev) = outgoing g ++ (if decide (ev.1 = str "N>") then [i] else []).
Proof.
  destruct ev as [channel bytes]. unfold ends_connection, group_event. cbn [fst snd]. intros H.
  unfold bytes_eqb. destruct (decide (channel = str "N<")) as [->|Hc].
  - rewrite bool_decide_eq_true_2 by done. destruct (Nat.eqb_spec (length bytes) 0) as [Hl|Hl].
    + apply nil_length_inv in Hl. by destruct H.
    + rewrite decide_False by done. cbn. by rewrite app_nil_r.
  - rewrite bool_decide_eq_false_2 by done. cbn [andb]. destruct (decide (channel = str "N>")) as [->|Hc2].
    + rewrite bool_decide_eq_true_2 by done. cbn. by rewrite app_nil_r.
    + rewrite bool_decide_eq_false_2 by done. cbn. by rewrite !app_nil_r.
Qed.

Lemma group_event_closed g i ev is_ : is_ ∈ closed g → is_ ∈ closed (group_event g i ev).
Proof.
  intros H. destruct ev as [channel bytes]. unfold group_event, close_streams.
  repeat case_match; cbn [closed]; rewrite ?elem_of_app; auto.
Qed.

Lemma group_events_closed g i events is_ : is_ ∈ closed g → is_ ∈ closed (group_events g i events).
Proof.
  revert g i. induction events as [|ev events IH]; intros g i H; [done|].
  cbn [group_events]. by apply IH, group_event_closed.
Qed.

Lemma group_events_app g i l l' :
  group_events g i (l ++ l') = group_events (group_events g i l) (i + length l) l'.
Proof.
  revert g i. induction l as [|ev l IH]; intros g i; cbn [app group_events length].
  - by rewrite Nat.add_0_r.
  - by rewrite IH, <- Nat.add_succ_comm.
Qed.

Lemma group_events_connection g i conn :
  Forall (λ ev, ¬ ends_connection ev) conn →
  incoming (group_events g i conn) = incoming g ++ channel_indices (str "N<") i conn
  ∧ outgoing (group_events g i conn) = outgoing g ++ channel_indices (str "N>") i conn.
Proof.
  intros H. revert g i. induction H as [|ev conn Hev _ IH]; intros g i; cbn [group_events channel_indices].
  { by rewrite !app_nil_r. }
  destruct (IH (group_event g i ev) (S i)) as [-> ->].
  destruct (group_event_other g i ev Hev) as [-> ->]. by rewrite <- !(assoc_L (++)).
Qed.

Lemma close_streams_streams g :
  (incoming g = [] ∨ incoming g ∈ close_streams g) ∧ (outgoing g = [] ∨ outgoing g ∈ close_streams g).
Proof.
  unfold close_streams. rewrite !elem_of_app.
  destruct (incoming g), (outgoing g); rewrite ?list_elem_of_singleton; auto.
Qed.

Lemma close_streams_closed g is_ : is_ ∈ closed g → is_ ∈ close_streams g.
Proof. intros H. unfold close_streams. rewrite !elem_of_app. auto. Qed.

Lemma scan_events_clean events :
  Forall (λ is_, find_matches (stream events is_) = Some []) (groups events) → scan_events events = Some [].
Proof.
  intros H. destruct (groups_indices events) as [_ Hv]. unfold scan_events. revert Hv.
  induction H as [|is_ gs Hf _ IH]; [done|]. cbn [concat mapM]. intros [H1 H2]%list.Forall_app.
  rewrite gather_bytes by done. cbn [mbind option_bind]. unfold scan. unfold stream in Hf. rewrite Hf.
  cbn [fmap option_fmap option_map mbind option_bind map]. specialize (IH H2).
  destruct (mapM _ gs) as [l|]; [|done]. cbn [fmap option_fmap option_map] in IH. injection IH as IH.
  cbn [mbind option_bind fmap option_fmap option_map mret option_ret concat app]. by rewrite IH.
Qed.

(** Both directions of a connection are groups of the code, unless they are empty. *)
Lemma connection_groups pre conn post channel :
  Forall (λ ev, ¬ ends_connection ev) conn →
  (∀ ev, list.last pre = Some ev → ends_connection ev) → (∀ ev, head post = Some ev → ends_connection ev) →
  channel = str "N<" ∨ channel = str "N>" →
  channel_indices channel (length pre) conn = []
  ∨ channel_indices channel (length pre) conn ∈ groups (pre ++ conn ++ post).
Proof.
  intros Hconn Hpre Hpost Hch. unfold groups. rewrite !group_events_app. cbn [Nat.add].
  set (g := group_events _ 0 pre).
  assert (incoming g = [] ∧ outgoing g = []) as [Hi Ho].
  { subst g. destruct pre as [|ev pre _] using rev_ind; [done|]. rewrite group_events_app. cbn [group_events].
    by rewrite group_event_end by (apply Hpre; by rewrite last_snoc). }
  destruct (group_events_connection g (length pre) conn Hconn) as [Ei Eo]. rewrite Hi, Ho in *.
  cbn [app] in Ei, Eo. set (g' := group_events g _ conn) in *.
  assert (∀ is_, is_ ∈ close_streams g' → is_ ∈ close_streams (group_events g' (length pre + length conn) post)) as Hin.
  { intros is_ H. destruct post as [|ev post]; [done|]. cbn [group_events].
    apply close_streams_closed, group_events_closed. by rewrite group_event_end by by apply Hpost. }
  destruct (close_streams_streams g') as [Ci Co]. rewrite Ei in Ci. rewrite Eo in Co.
  destruct Hch as [-> | ->]; [destruct Ci|destruct Co]; auto.
Qed.

Lemma other_group g i events k ev :
  events !! k = Some ev → ev.1 ≠ str "N<" → ev.1 ≠ str "N>" → [(i + k)%nat] ∈ closed (group_events g i events).
Proof.
  intros Hk H1 H2. revert g i k Hk. induction events as [|ev' events IH]; intros g i [|k] Hk; [done..| |].
  - injection Hk as ->. cbn [group_events]. apply group_events_closed. destruct ev as [channel bytes].
    cbn [fst] in H1, H2. unfold group_event, bytes_eqb.
    rewrite bool_decide_eq_false_2, bool_decide_eq_false_2 by done. cbn [andb closed].
    rewrite Nat.add_0_r, elem_of_app, list_elem_of_singleton. by right.
  - cbn [group_events]. rewrite <- Nat.add_succ_comm. by apply IH.
Qed.

Lemma groups_clean events :
  Forall (λ is_, find_matches (stream events is_) = Some []) (groups events) →
  (∀ conn channel, connection events conn → channel = str "N<" ∨ channel = str "N>" →
     scan (channel_bytes channel conn) = Some [])
  ∧ (∀ ev, ev ∈ events → ev.1 ≠ str "N<" → ev.1 ≠ str "N>" → scan ev.2 = Some []).
Proof.
  rewrite list.Forall_forall. intros H. split.
  - intros conn channel (pre & post & -> & Hconn & Hpre & Hpost) Hch.
    rewrite <- (channel_indices_stream channel pre conn post). unfold scan.
    destruct (connection_groups pre conn post channel Hconn Hpre Hpost Hch) as [-> | Hin]; [done|].
    by rewrite (H _ Hin).
  - intros ev [k Hk]%list_elem_of_lookup H1 H2.
    pose proof (other_group (mk_grouping [] [] []) 0 events k ev Hk H1 H2) as Hin.
    apply close_streams_closed in Hin. specialize (H _ Hin). unfold stream, bytes_at in H.
    cbn [Nat.add map concat] in H. rewrite Hk in H. cbn [from_option] in H. rewrite app_nil_r in H.
    unfold scan. by rewrite H.
Qed.

(** *** Properties *)

(** C38: redaction is total, keeps the length and leaves nothing to find. Neither scanning nor
    rewriting arbitrary bytes panics or fails to end; a redacted buffer has no finding, has
    the same length, and differs only where both the old byte and the new are ones that
    serials and addresses are made of; a buffer without findings is left alone; the errors
    are an address that no test address has the length of, or four passes that were not
    enough, never a replacement of the wrong length. *)
Theorem redact_bytes_exact bytes :
  (∃ found, scan bytes = Some found ∧ (found = [] → redact_bytes bytes = Some (Ok bytes)))
  ∧ ∃ r, redact_bytes bytes = Some r ∧
    match r with
    | Ok out => scan out = Some [] ∧ length out = length bytes
        ∧ ∀ k a b, bytes !! k = Some a → out !! k = Some b → a ≠ b → token a = true ∧ token b = true
    | Err (NoSameLengthIp ip) => (length ip < 9 ∨ 11 < length ip)%nat
    | Err (LengthMismatch _) => False
    | Err NotFullyRedacted => True
    end.
Proof.
  split.
  - destruct (find_matches_ok bytes) as (ms & E & _). exists (map finding ms). unfold scan. rewrite E. split; [done|].
    intros Hnil. apply redact_clean. by destruct ms.
  - destruct (redact_passes_ok 4 bytes) as (r & E & H). exists r. split; [done|]. destruct r as [out|[]]; try done.
    destruct H as [Hc Hr]. unfold scan. rewrite Hc. split_and!; [done|by rewrite (list.Forall2_length _ _ _ Hr)|].
    intros k a b Ha Hb Hne. by destruct (Forall2_lookup_lr _ _ _ _ _ _ Hr Ha Hb) as [|].
Qed.

(** C37: redacting a capture redacts its streams, not its chunks. It is total; every event
    keeps its channel and its length and changes only in bytes that serials and addresses
    are made of; after a success nothing is found in what any connection of the capture
    carried in either direction, put together from its chunks, so wherever an identifier
    was cut, nor in any event of another channel, and the tool's own scan agrees; a
    connection is what lies between empty chunks from the console.  An error is one of
    those of [redact_bytes_exact]. *)
Theorem redact_events_clean events :
  ∃ r events', redact_events events = Some (r, events')
    ∧ map fst events' = map fst events ∧ map (λ ev, length ev.2) events' = map (λ ev, length ev.2) events
    ∧ Forall2 rewritten events events'
    ∧ match r with
      | Ok _ =>
          (∀ conn channel, connection events' conn → channel = str "N<" ∨ channel = str "N>" →
             scan (channel_bytes channel conn) = Some [])
          ∧ (∀ ev, ev ∈ events' → ev.1 ≠ str "N<" → ev.1 ≠ str "N>" → scan ev.2 = Some [])
          ∧ scan_events events' = Some []
      | Err (NoSameLengthIp ip) => (length ip < 9 ∨ 11 < length ip)%nat
      | Err (LengthMismatch _) => False
      | Err NotFullyRedacted => True
      end.
Proof.
  destruct (groups_indices events) as [Hn Hv].
  destruct (redact_groups_ok (groups events) events Hn Hv) as (r & events' & E & Hw & _ & H).
  pose proof (rewritten_shape _ _ Hw) as Hs. exists r, events'. split; [exact E|]. split_and!.
  - clear -Hs. induction Hs as [|a b l l' [Hc _] _ IH]; [done|]. cbn [map]. by rewrite IH, Hc.
  - clear -Hs. induction Hs as [|a b l l' [_ Hl] _ IH]; [done|]. cbn [map]. by rewrite IH, Hl.
  - exact Hw.
  - destruct r as [[]|e]; [|exact H].
    assert (Hc : Forall (λ is_, find_matches (stream events' is_) = Some []) (groups events')).
    { rewrite (groups_shape _ _ Hs). eapply list.Forall_impl; [exact H|]. by intros is_ [? _]. }
    destruct (groups_clean events' Hc). split_and!; [done..|]. by apply scan_events_clean.
Qed.
