(* ===== verification/Icons.v ===== *)
(** Icons ([src/src/icons.rs]): the tables of strip icons, their aliases and categories, and
    the lookups by index and by name. *)

From S2P Require Import Prelude Text Bytes Utf8 Words.
Local Open Scope Z_scope.

(** ** Data *)

Definition ICONS : list (Z * list byte) :=
  [(0, str "none"); (2, str "jack-plug"); (3, str "jack-trs"); (4, str "jack-mini");
   (5, str "fader"); (6, str "fx"); (7, str "routing"); (8, str "bass-clef");
   (9, str "treble-clef"); (10, str "matrix"); (11, str "layers"); (12, str "list");
   (13, str "smiley"); (14, str "wing-logo"); (100, str "mic-handheld-dynamic"); (101, str "mic-handheld");
   (102, str "mic-wireless-handheld"); (103, str "mic-lavalier"); (104, str "mic-broadcast-round"); (105, str "mic-desk-boundary");
   (106, str "mic-podium"); (107, str "headset-boom"); (108, str "headphones"); (109, str "mic-studio-condenser");
   (110, str "mic-ribbon"); (111, str "mic-vintage"); (112, str "singers-group"); (113, str "singer-headset");
   (114, str "singer"); (200, str "kick-drum"); (201, str "bass-drum"); (202, str "snare-drum");
   (203, str "tom"); (204, str "drum"); (205, str "hi-hat"); (206, str "tom-high");
   (207, str "tom-mid"); (208, str "tom-low"); (209, str "tom-floor"); (210, str "drum-kit");
   (211, str "cymbal-crash"); (212, str "cymbal-ride"); (213, str "claves"); (214, str "tambourine");
   (215, str "bongos"); (216, str "congas"); (217, str "timbale"); (218, str "cajon");
   (219, str "maracas"); (220, str "xylophone"); (221, str "handpan"); (222, str "triangle");
   (223, str "drum-machine"); (224, str "clap"); (300, str "guitar-electric"); (301, str "guitar-acoustic");
   (302, str "violin"); (303, str "banjo"); (304, str "guitar-classical"); (305, str "guitar-lespaul");
   (306, str "guitar-explorer"); (307, str "guitar-flying-v"); (308, str "cello-bowed"); (309, str "guitar-electric-2");
   (310, str "violin-bow"); (311, str "clarinet-oboe"); (312, str "saxophone"); (313, str "trombone");
   (314, str "trumpet"); (315, str "harp"); (316, str "accordion"); (317, str "harmonica");
   (318, str "flute"); (319, str "clarinet"); (400, str "grand-piano"); (401, str "upright-piano");
   (402, str "synthesizer"); (403, str "keyboard"); (404, str "synth"); (405, str "organ");
   (406, str "synth-module"); (407, str "stage-piano"); (408, str "keyboard-stand"); (409, str "piano-keys");
   (500, str "amp-combo"); (501, str "cabinet-4x"); (502, str "cabinet"); (503, str "monitor");
   (504, str "speakers-pair"); (505, str "speaker-pole"); (506, str "subwoofer"); (507, str "monitor-ported");
   (508, str "monitors-pair"); (509, str "speakers-on-stands"); (510, str "line-array"); (511, str "pa-speaker");
   (512, str "speaker-mic"); (513, str "speakers-stands"); (514, str "delay-speaker"); (515, str "speaker-h");
   (516, str "speaker-small"); (517, str "speaker-pair-h"); (518, str "cabinet-v"); (519, str "speaker-stack");
   (520, str "stage-wedge"); (521, str "wedge"); (522, str "speaker-upright"); (523, str "line-array-curved");
   (524, str "subwoofer-round"); (600, str "rock-hand"); (601, str "ear"); (602, str "headphones-2");
   (603, str "talkback-a"); (604, str "talkback-b"); (605, str "laptop"); (606, str "media-player");
   (607, str "phone"); (608, str "usb-stick"); (609, str "sd-card"); (610, str "cd");
   (611, str "turntable"); (612, str "tape-machine"); (613, str "cassette"); (614, str "rack")].

Definition CATEGORIES : list (list byte * Z * Z) :=
  [(str "general", 0, 14); (str "vocals_mics", 100, 114); (str "drums_percussion", 200, 224); (str "strings_winds", 300, 319);
   (str "keys", 400, 409); (str "speakers", 500, 524); (str "specials", 600, 614)].

Definition ALIASES : list (list byte * Z) :=
  [(str "guitar", 304); (str "acoustic-guitar", 301); (str "electric-guitar", 300); (str "bass", 301);
   (str "vihuela", 303); (str "fiddle", 310); (str "cello", 308); (str "viola", 310);
   (str "harp", 315); (str "trumpet", 314); (str "trombone", 313); (str "sax", 312);
   (str "saxophone", 312); (str "flute", 318); (str "clarinet", 319); (str "accordion", 316);
   (str "harmonica", 317); (str "piano", 400); (str "keys", 403); (str "organ", 405);
   (str "vocal", 100); (str "vocal-lead", 100); (str "voice", 100); (str "mic", 100);
   (str "microphone", 100); (str "studio-mic", 109); (str "kick", 200); (str "snare", 202);
   (str "drums", 210); (str "percussion", 219); (str "maracas", 219); (str "congas", 216);
   (str "speaker", 503); (str "wedge", 520); (str "sub", 506)].

(** ** Lookups *)

Definition icon_name (index : Z) : option (list byte) := snd <$> find (λ e, e.1 =? index) ICONS.

Definition icon_index (name : list byte) : option Z :=
  let n := to_ascii_lowercase (trim name) in
  match find (λ e, bytes_eqb e.2 n) ICONS with
  | Some e => Some e.1
  | None => snd <$> find (λ e, bytes_eqb e.1 n) ALIASES
  end.

Definition icon_category (index : Z) : option (list byte) :=
  (λ c, c.1.1) <$> find (λ c, (c.1.2 <=? index) && (index <=? c.2)) CATEGORIES.

(** The tests of the source. *)
Example icon_tests :
  map icon_index [str "trumpet"; str "Violin"; str "fiddle"; str "harp"; str "guitar-lespaul"; str "nope"]
    = [Some 314; Some 302; Some 310; Some 315; Some 305; None]
  ∧ map icon_name [314; 315; 1] = [Some (str "trumpet"); Some (str "harp"); None]
  ∧ map icon_category [310; 100; 50] = [Some (str "strings_winds"); Some (str "vocals_mics"); None].
Proof. by vm_compute. Qed.

(** ** The tables *)

(** What slugs are made of. *)
Definition slug_byte (b : byte) : bool :=
  let c := u8 b in ((97 <=? c) && (c <=? 122)) || ((48 <=? c) && (c <=? 57)) || (c =? 45).

Lemma slug_source b :
  slug_byte (lowercase_byte b) = true → scan_char [b] = ScanChar [b] [] ∧ is_whitespace [b] = false.
Proof. destruct b; vm_compute; intros; by split. Qed.

Lemma slugs_ok i s : (i, s) ∈ ICONS → s ≠ [] ∧ Forall (λ b, slug_byte b = true) s.
Proof.
  intros Hin. assert (H : forallb (λ e, negb (bytes_eqb e.2 []) && forallb slug_byte e.2) ICONS = true)
    by (vm_compute; reflexivity).
  rewrite forallb_forall in H. apply list_elem_of_In in Hin. specialize (H _ Hin). cbn [snd] in H.
  apply andb_true_iff in H as [H1 H2]. split; [by intros ->|]. apply list.Forall_forall. intros b Hb.
  rewrite forallb_forall in H2. apply H2. by apply list_elem_of_In.
Qed.

Lemma icons_distinct : NoDup (map fst ICONS) ∧ NoDup (map snd ICONS).
Proof. split; apply (bool_decide_unpack _); vm_compute; exact I. Qed.

Lemma find_unique {A} (f : A → bool) l x :
  x ∈ l → f x = true → (∀ y, y ∈ l → f y = true → y = x) → find f l = Some x.
Proof.
  intros Hin Hx Hu. destruct (find f l) as [y|] eqn:E.
  - apply List.find_some in E as [Hy Hf]. f_equal. apply Hu; [by apply list_elem_of_In|done].
  - apply list_elem_of_In in Hin. pose proof (List.find_none _ _ E x Hin). congruence.
Qed.

Lemma distinct_eq {A B} (f : A → B) l x y : NoDup (map f l) → x ∈ l → y ∈ l → f x = f y → x = y.
Proof.
  intros Hn [i Hi]%list_elem_of_lookup_1 [j Hj]%list_elem_of_lookup_1 E.
  assert (i = j) as ->; [|congruence]. eapply (NoDup_lookup (map f l)); [done|by rewrite list_lookup_fmap, Hi|].
  by rewrite list_lookup_fmap, Hj, E.
Qed.

Lemma singletons (s : list byte) : s = concat (map (λ b, [b]) s).
Proof. induction s as [|b s IH]; [done|]. cbn [map concat app]. by rewrite <- IH. Qed.

(** A documented icon is found by its index, and by its slug in any case, between any white
    space; it has a category; and an alias names a documented icon. *)
Theorem icons_exact i s :
  (i, s) ∈ ICONS →
  icon_name i = Some s ∧ is_Some (icon_category i)
  ∧ (∀ name pre post, to_ascii_lowercase name = s →
       Forall (λ c, is_whitespace c = true) pre → Forall (λ c, is_whitespace c = true) post →
       icon_index (concat pre ++ name ++ concat post) = Some i).
Proof.
  intros Hin. destruct icons_distinct as [Hi Hs]. split_and!.
  - unfold icon_name. erewrite (find_unique _ _ (i, s)); [done|done|by apply Z.eqb_eq|].
    intros y Hy E%Z.eqb_eq. by apply (distinct_eq fst ICONS).
  - assert (H : forallb (λ e, bool_decide (is_Some (icon_category e.1))) ICONS = true) by (vm_compute; reflexivity).
    rewrite forallb_forall in H. apply list_elem_of_In in Hin. specialize (H _ Hin). by apply bool_decide_eq_true in H.
  - intros name pre post Hname Hpre Hpost. destruct (slugs_ok i s Hin) as [Hne Hslug].
    rewrite (singletons name). unfold icon_index. rewrite trim_around; [|done|done| |].
    + rewrite <- singletons, Hname. erewrite (find_unique _ _ (i, s)); [done|done|by apply bytes_eqb_eq|].
      intros y Hy E%bytes_eqb_eq. by apply (distinct_eq snd ICONS).
    + apply list.Forall_fmap. apply list.Forall_forall. intros b Hb. apply slug_source.
      rewrite list.Forall_forall in Hslug. apply Hslug. rewrite <- Hname. apply list_elem_of_fmap. by exists b.
    + destruct name; [by subst s|done].
Qed.

Lemma aliases_documented a i : (a, i) ∈ ALIASES → is_Some (icon_name i) ∧ is_Some (icon_index a).
Proof.
  intros Hin. assert (H : forallb (λ e, bool_decide (is_Some (icon_name e.2) ∧ is_Some (icon_index e.1))) ALIASES = true)
    by (vm_compute; reflexivity).
  rewrite forallb_forall in H. apply list_elem_of_In in Hin. specialize (H _ Hin). by apply bool_decide_eq_true in H.
Qed.

(** The alias [wedge] is a canonical slug as well, of another icon, and never applies. *)
Lemma wedge_shadowed : (str "wedge", 520) ∈ ALIASES ∧ icon_index (str "wedge") = Some 521.
Proof. split; [|by vm_compute]. apply (bool_decide_unpack _). vm_compute. exact I. Qed.
