(* ===== verification/Schema.v ===== *)
(** Model-aware resolution ([src/src/schema.rs]): picking, among the definitions that share
    an id, the one of the live model; firmware versions; and the overlay of definitions read
    from a live console, over the embedded map's interface. *)

From stdpp Require Import gmap strings.
From S2P Require Import Prelude Sort Text Decimal Bytes Lib Utf8 F32 Cursor NodeDef.
From S2P Require Import NodeData Channel Meter NativeRequest NativeResponse ClientMessages ResponseReader.
From S2P Require Import ClientReader Attended PropIndex PropMap EmbeddedMap.
Local Open Scope Z_scope.
Local Open Scope rust_scope.

(** ** Data *)

Definition FIRMWARE_BASELINE : list byte := str "3.1".

Inductive Provenance := Embedded | Live.

Abbreviation Candidate := (list byte * WingNodeDef)%type.

Inductive Resolution :=
| Confirmed (fullname : list byte) (def : WingNodeDef) (provenance : Provenance)
| Unknown (id : Z) (model : option (list byte)).

Record MapMetadata := mk_metadata { firmware_baseline : list byte; map_source : list byte; entry_count : nat }.

Module Stalenesses.
Inductive Staleness := Current | MapOlder | MapNewer | Unknown.
End Stalenesses.
Export Stalenesses(Staleness).

(** ** Versions *)

Definition dot : byte := Byte.x2e.

(** [segment.chars().take_while(|c| c.is_ascii_digit())]. *)
Fixpoint leading_digits (s : list byte) : list byte :=
  match s with
  | b :: s => match decimal_value b with Some _ => b :: leading_digits s | None => [] end
  | [] => []
  end.

Definition parse_segment (segment : list byte) : option Z :=
  match leading_digits segment with [] => None | digits => u32_digits digits 0 end.

(** The check for no parts is dead, as in the source: [split] yields at least one. *)
Definition parse_version (s : list byte) : option (list Z) :=
  parts ← mapM parse_segment (split_on dot s);
  match parts with [] => None | _ => Some parts end.

Definition segment (v : list Z) (i : nat) : Z := default 0 (v !! i).

(** The loop over [i..max(a.len(), b.len())]. *)
Fixpoint compare_from (n i : nat) (a b : list Z) : comparison :=
  match n with
  | O => Eq
  | S n => match segment a i ?= segment b i with Eq => compare_from n (S i) a b | ord => ord end
  end.

Definition compare_versions (a b : list Z) : comparison := compare_from (length a `max` length b) 0 a b.

Definition staleness (console_firmware : list byte) : Staleness :=
  match parse_version FIRMWARE_BASELINE, parse_version console_firmware with
  | Some baseline, Some console =>
    match compare_versions console baseline with
    | Gt => Stalenesses.MapOlder
    | Lt => Stalenesses.MapNewer
    | Eq => Stalenesses.Current
    end
  | _, _ => Stalenesses.Unknown
  end.

(** ** Candidates *)

(** [format!("/{model}/")]. *)
Definition needle (model : list byte) : list byte := [slash] ++ model ++ [slash].

Definition resolve_candidates (id : Z) (model : option (list byte)) (candidates : list Candidate)
    (provenance : Provenance) : Resolution :=
  match candidates with
  | [] => Unknown id model
  | [(fullname, def)] => Confirmed fullname def provenance
  | _ =>
    match model with
    | None => Unknown id None
    | Some model =>
      match filter (λ c, contains c.1 (needle model) = true) candidates with
      | [(fullname, def)] => Confirmed fullname def provenance
      | _ => Unknown id (Some model)
      end
    end
  end.

Definition single_path (candidates : list Candidate) : option (list byte) :=
  match candidates with [(name, _)] => Some name | _ => None end.

(** ** The overlay *)

Record LiveSchema := mk_live {
  live_by_id : gmap Z (list Candidate);
  live_by_path : gmap (list byte) Z;
}.

Definition new_live : LiveSchema := mk_live ∅ ∅.

(** [format!("#{}", id)] of an [i32]. *)
Definition decimal_i32 (z : Z) : list byte :=
  if z <? 0 then str "-" ++ decimal_fuel 10 (- z) else decimal_fuel 10 z.

Definition placeholder (id : Z) : list byte := str "#" ++ decimal_i32 id.

(** Replaces the definition of the first candidate of this name, or adds it. *)
Fixpoint put_candidate (l : list Candidate) (key : list byte) (def : WingNodeDef) : list Candidate :=
  match l with
  | [] => [(key, def)]
  | (name, d) :: l => if bool_decide (name = key) then (name, def) :: l else (name, d) :: put_candidate l key def
  end.

Section Overlay.
Context `{EmbeddedMap}.

Definition resolve_id (id : Z) (model : option (list byte)) : option Resolution :=
  candidates ← id_to_defs_iter id; Some (resolve_candidates id model candidates Embedded).

Definition resolve_path (fullname : list byte) (model : option (list byte)) : option Resolution :=
  id ← name_to_id fullname; resolve_id id model.

Definition metadata : MapMetadata :=
  mk_metadata FIRMWARE_BASELINE (str "full per-model sweep (propmap.jsonl), embedded at build time") propmap_len.

Definition synthesize_fullname (live : LiveSchema) (def : WingNodeDef) : option (list byte) :=
  parent_path ←
    match (candidates ← live_by_id live !! def_parent_id def; single_path candidates) with
    | Some path => Some path
    | None =>
      candidates ← id_to_defs_iter (def_parent_id def);
      match candidates with [(path, _)] => Some path | _ => None end
    end;
  let fullname := parent_path ++ [slash] ++ def_name def in
  let suffix := [slash] ++ def_name def in
  let is_unqualified_model_child :=
    match id_to_defs_iter (def_id def) with
    | Some defs => existsb (λ c, negb (bytes_eqb c.1 fullname) && ends_with c.1 suffix) defs
    | None => false
    end in
  if is_unqualified_model_child then None else Some fullname.

Definition apply_node_def (live : LiveSchema) (def : WingNodeDef) (fullname : option (list byte)) : LiveSchema :=
  let resolved := match fullname with Some s => Some s | None => synthesize_fullname live def end in
  let key := default (placeholder (def_id def)) resolved in
  let candidates := default [] (live_by_id live !! def_id def) in
  let candidates :=
    match resolved with
    | Some _ => filter (λ c, c.1 ≠ placeholder (def_id def)) candidates
    | None => candidates
    end in
  mk_live (<[def_id def := put_candidate candidates key def]> (live_by_id live))
    (match resolved with
     | Some fullname => <[fullname := def_id def]> (live_by_path live)
     | None => live_by_path live
     end).

Definition live_resolve_id (live : LiveSchema) (id : Z) (model : option (list byte)) : option Resolution :=
  match live_by_id live !! id with
  | Some candidates =>
    let confirmed := Some (resolve_candidates id model candidates Live) in
    match model with
    | Some m =>
      let live_has_model := existsb (λ c, contains c.1 (needle m)) candidates in
      let unplaced_live := existsb (λ c, starts_with c.1 (str "#")) candidates in
      if negb live_has_model && negb unplaced_live then
        match resolve_id id (Some m) with
        | Some (Confirmed fullname _ _ as embedded) =>
          if contains fullname (needle m) then Some embedded else confirmed
        | _ => confirmed
        end
      else confirmed
    | None => confirmed
    end
  | None => resolve_id id model
  end.

Definition live_resolve_path (live : LiveSchema) (fullname : list byte) (model : option (list byte))
    : option Resolution :=
  match live_by_path live !! fullname with
  | Some id => live_resolve_id live id model
  | None => resolve_path fullname model
  end.

(** The count of definitions ingested, and the overlay with them. *)
Definition refresh_subtree (live : LiveSchema) (subtree_root_id : Z) (timeout : Deadline) : Read (nat * LiveSchema) :=
  let! definitions := get_node_definitions subtree_root_id timeout in
  ret (length definitions, foldl (λ live def, apply_node_def live def None) live definitions).
End Overlay.

(** ** Versions *)

Lemma compare_from_spec n i a b :
  match compare_from n i a b with
  | Eq => ∀ j, (i ≤ j < i + n)%nat → segment a j = segment b j
  | Lt => ∃ j, (i ≤ j < i + n)%nat ∧ (∀ k, (i ≤ k < j)%nat → segment a k = segment b k) ∧ segment a j < segment b j
  | Gt => ∃ j, (i ≤ j < i + n)%nat ∧ (∀ k, (i ≤ k < j)%nat → segment a k = segment b k) ∧ segment b j < segment a j
  end.
Proof.
  revert i. induction n as [|n IH]; intros i; cbn [compare_from]; [intros j ?; lia|].
  destruct (Z.compare_spec (segment a i) (segment b i)) as [He|Hl|Hg].
  - specialize (IH (S i)). destruct (compare_from n (S i) a b).
    + intros j Hj. destruct (decide (j = i)) as [->|]; [done|]. apply IH. lia.
    + destruct IH as (j & Hj & Hk & Hlt). exists j. split_and!; [lia|lia| |done].
      intros k Hki. destruct (decide (k = i)) as [->|]; [done|]. apply Hk. lia.
    + destruct IH as (j & Hj & Hk & Hlt). exists j. split_and!; [lia|lia| |done].
      intros k Hki. destruct (decide (k = i)) as [->|]; [done|]. apply Hk. lia.
  - exists i. split_and!; [lia|lia|intros; lia|done].
  - exists i. split_and!; [lia|lia|intros; lia|done].
Qed.

Lemma segment_beyond v i : (length v ≤ i)%nat → segment v i = 0.
Proof. intros Hi. unfold segment. by rewrite (proj2 (lookup_ge_None v i) Hi). Qed.

Lemma compare_versions_spec a b :
  match compare_versions a b with
  | Eq => ∀ j, segment a j = segment b j
  | Lt => ∃ j, (∀ k, (k < j)%nat → segment a k = segment b k) ∧ segment a j < segment b j
  | Gt => ∃ j, (∀ k, (k < j)%nat → segment a k = segment b k) ∧ segment b j < segment a j
  end.
Proof.
  unfold compare_versions. pose proof (compare_from_spec (length a `max` length b) 0 a b) as H.
  destruct (compare_from _ _ _ _).
  - intros j. destruct (decide (j < length a `max` length b)%nat); [apply H; lia|].
    by rewrite !segment_beyond by lia.
  - destruct H as (j & _ & Hk & Hl). exists j. split; [intros; apply Hk; lia|done].
  - destruct H as (j & _ & Hk & Hl). exists j. split; [intros; apply Hk; lia|done].
Qed.

(** ** Candidates *)

(** The path has the model as a run of its segments, between a slot and a parameter. *)
Definition under_model (model fullname : list byte) : Prop :=
  ∃ pre post, pre ≠ [] ∧ post ≠ [] ∧ split_on slash fullname = pre ++ split_on slash model ++ post.

Lemma needle_model model fullname : contains fullname (needle model) = true ↔ under_model model fullname.
Proof. apply contains_segments. Qed.

Lemma filter_single {A} (P : A → Prop) `{∀ x, Decision (P x)} l x :
  filter P l = [x] ↔ ∃ l1 l2, l = l1 ++ x :: l2 ∧ P x ∧ Forall (λ y, ¬ P y) (l1 ++ l2).
Proof.
  split.
  - induction l as [|y l IH]; [done|]. rewrite list.filter_cons. case_decide as Hy; intros E.
    + injection E as -> E. exists [], l. split_and!; [done|done|]. apply list.Forall_forall. intros z Hz HP.
      assert (z ∈ filter P l) as Hin by (by apply list_elem_of_filter). rewrite E in Hin. by apply elem_of_nil in Hin.
    + destruct (IH E) as (l1 & l2 & -> & Hx & Hf). exists (y :: l1), l2. split_and!; [done|done|by constructor].
  - intros (l1 & l2 & -> & Hx & [H1 H2]%list.Forall_app). rewrite list.filter_app, list.filter_cons, decide_True by done.
    assert (Hnil : ∀ l', Forall (λ y, ¬ P y) l' → filter P l' = []).
    { intros l'. induction 1; [done|]. by rewrite list.filter_cons, decide_False. }
    by rewrite !Hnil.
Qed.

Lemma resolve_candidates_ok id model candidates prov r :
  resolve_candidates id model candidates prov = r →
  match r with
  | Confirmed name d p => p = prov ∧
      (candidates = [(name, d)] ∨
       ∃ m l1 l2, model = Some m ∧ candidates = l1 ++ (name, d) :: l2 ∧ under_model m name
         ∧ Forall (λ c, ¬ under_model m c.1) (l1 ++ l2))
  | Unknown i mo => i = id ∧ mo = model ∧ length candidates ≠ 1%nat ∧
      ∀ m, model = Some m → ¬ ∃ name d l1 l2, candidates = l1 ++ (name, d) :: l2 ∧ under_model m name
         ∧ Forall (λ c, ¬ under_model m c.1) (l1 ++ l2)
  end.
Proof.
  unfold resolve_candidates. intros <-. destruct candidates as [|[n1 d1] [|c2 rest]].
  - split_and!; [done..|]. by intros m _ (? & ? & [|] & ? & ? & _).
  - split; [done|by left].
  - set (cs := (n1, d1) :: c2 :: rest). destruct model as [m|]; [|split_and!; done].
    assert (Hsingle : ∀ name d, filter (λ c, contains c.1 (needle m) = true) cs = [(name, d)]
        ↔ ∃ l1 l2, cs = l1 ++ (name, d) :: l2 ∧ under_model m name ∧ Forall (λ c, ¬ under_model m c.1) (l1 ++ l2)).
    { intros name d. rewrite filter_single. setoid_rewrite needle_model. done. }
    destruct (filter _ cs) as [|[name d] [|c3 fs]] eqn:E.
    + split_and!; [done..|]. intros m' [= <-] (name & d & Hex). by apply Hsingle in Hex.
    + split; [done|]. right. destruct (proj1 (Hsingle name d) eq_refl) as (l1 & l2 & Hx). by exists m, l1, l2.
    + split_and!; [done..|]. intros m' [= <-] (name' & d' & Hex). by apply Hsingle in Hex.
Qed.

(** ** The overlay *)

Lemma put_candidate_Forall (P : Candidate → Prop) l key def :
  Forall P l → P (key, def) → Forall P (put_candidate l key def).
Proof.
  intros Hl Hk. induction Hl as [|[name d] l Hd Hl IH]; [by repeat constructor|]. cbn [put_candidate].
  case_bool_decide; [subst; by constructor|by constructor].
Qed.

Lemma put_candidate_in l key def : (key, def) ∈ put_candidate l key def.
Proof.
  induction l as [|[name d] l IH]; cbn [put_candidate]; [left|]. case_bool_decide; [subst; left|by right].
Qed.

Lemma put_candidate_other l key def c : c.1 ≠ key → c ∈ put_candidate l key def ↔ c ∈ l.
Proof.
  intros Hc. induction l as [|[name d] l IH]; cbn [put_candidate].
  - rewrite list_elem_of_singleton. split; [by intros ->|by intros ?%elem_of_nil].
  - case_bool_decide; rewrite !elem_of_cons; [subst|by rewrite IH].
    split; (intros [->|?]; [done|by right]).
Qed.

Lemma put_candidate_names l key def :
  map fst (put_candidate l key def) = map fst l ∧ key ∈ map fst l
  ∨ map fst (put_candidate l key def) = map fst l ++ [key] ∧ key ∉ map fst l.
Proof.
  induction l as [|[name d] l IH]; cbn [put_candidate map].
  - right. split; [done|by intros ?%elem_of_nil].
  - case_bool_decide as E; [subst; left; split; [done|left]|]. cbn [map fst].
    destruct IH as [[-> ?]|[-> ?]]; [left; split; [done|by right]|right; split; [done|]].
    rewrite elem_of_cons. intros [Hk|Hk]; [congruence|contradiction].
Qed.

Lemma put_candidate_distinct l key def : NoDup (map fst l) → NoDup (map fst (put_candidate l key def)).
Proof.
  intros Hn. destruct (put_candidate_names l key def) as [[-> _]|[-> Hk]]; [done|].
  apply list.NoDup_app. split_and!; [done| |by apply NoDup_singleton].
  intros x Hx ->%list_elem_of_singleton. done.
Qed.

Lemma filter_names (P : Candidate → Prop) `{∀ c, Decision (P c)} l : NoDup (map fst l) → NoDup (map fst (filter P l)).
Proof.
  induction l as [|c l IH]; [done|]. cbn [map]. intros [Hc Hn]%list.NoDup_cons. rewrite list.filter_cons.
  case_decide; [|by apply IH]. cbn [map]. constructor; [|by apply IH].
  intros (y & Hy & [_ Hin]%list_elem_of_filter)%list_elem_of_fmap. apply Hc. rewrite Hy. by apply list_elem_of_fmap_2.
Qed.

Section OverlayFacts.
Context {m : EmbeddedMap} `{!EmbeddedMapLaws m}.

(** The definitions an overlay was given, each with the path the caller knew. *)
Abbreviation Updates := (list (WingNodeDef * option (list byte))).

Definition overlay (us : Updates) : LiveSchema := foldl (λ live u, apply_node_def live u.1 u.2) new_live us.

Definition given (us : Updates) (c : Candidate) : Prop := ∃ fn, (c.2, fn) ∈ us ∧ (fn = Some c.1 ∨ fn = None).

Definition candidates_ok (us : Updates) (id : Z) (l : list Candidate) : Prop :=
  l ≠ [] ∧ NoDup (map fst l) ∧ Forall (λ c, def_id c.2 = id ∧ given us c) l.

Definition live_ok (us : Updates) (live : LiveSchema) : Prop :=
  (∀ id l, live_by_id live !! id = Some l → candidates_ok us id l)
  ∧ (∀ n id, live_by_path live !! n = Some id →
       ∃ l, live_by_id live !! id = Some l ∧ (n ∈ map fst l ∨ n = placeholder id)).

Lemma given_more us us' c : given us c → given (us ++ us') c.
Proof. intros (fn & Hin & Hn). exists fn. split; [|done]. apply elem_of_app. by left. Qed.

Lemma candidates_more us us' id l : candidates_ok us id l → candidates_ok (us ++ us') id l.
Proof.
  intros (H1 & H2 & H3). split_and!; [done|done|]. eapply list.Forall_impl; [exact H3|].
  intros c [? ?]. split; [done|]. by apply given_more.
Qed.

Lemma put_nonempty l key def : put_candidate l key def ≠ [].
Proof. destruct l as [|[n d] l]; cbn [put_candidate]; [done|]. by case_bool_decide. Qed.

Lemma apply_ok us live def fn : live_ok us live → live_ok (us ++ [(def, fn)]) (apply_node_def live def fn).
Proof.
  intros [Hid Hpath]. unfold apply_node_def.
  set (resolved := match fn with Some s => Some s | None => synthesize_fullname live def end).
  set (old := default [] (live_by_id live !! def_id def)).
  assert (Hold : NoDup (map fst old) ∧ Forall (λ c, def_id c.2 = def_id def ∧ given us c) old).
  { unfold old. destruct (live_by_id live !! def_id def) as [l|] eqn:E; [by apply Hid in E as (_ & ? & ?)|].
    split; [constructor|constructor]. }
  destruct Hold as [Hnd Hall].
  set (kept := match resolved with Some _ => filter (λ c, c.1 ≠ placeholder (def_id def)) old | None => old end).
  assert (Hkept : NoDup (map fst kept) ∧ Forall (λ c, def_id c.2 = def_id def ∧ given us c) kept).
  { unfold kept. destruct resolved; [|done]. split; [by apply filter_names|].
    apply list.Forall_forall. intros c [_ Hc]%list_elem_of_filter. rewrite list.Forall_forall in Hall. by apply Hall. }
  set (key := default (placeholder (def_id def)) resolved).
  assert (Hgiven : given (us ++ [(def, fn)]) (key, def)).
  { exists fn. split; [apply elem_of_app; right; left|]. unfold key, resolved. destruct fn; [by left|by right]. }
  split.
  - intros id l. cbn [live_by_id]. rewrite lookup_insert. case_decide as E.
    + intros [= <-]. subst id. split_and!; [apply put_nonempty|apply put_candidate_distinct, Hkept|].
      apply put_candidate_Forall; [|done]. eapply list.Forall_impl; [apply Hkept|].
      intros c [? ?]. split; [done|by apply given_more].
    + intros Hl. apply candidates_more. by apply Hid.
  - intros n id. cbn [live_by_path live_by_id]. intros Hn.
    assert (Hcase : (resolved = Some n ∧ id = def_id def) ∨ live_by_path live !! n = Some id).
    { destruct resolved as [s|]; [|by right]. rewrite lookup_insert in Hn. case_decide; [|by right].
      subst. injection Hn as <-. by left. }
    rewrite lookup_insert. destruct Hcase as [[Hr ->]|Hold].
    + rewrite decide_True by done. eexists. split; [done|]. left. unfold key. rewrite Hr. cbn [default].
      apply list_elem_of_fmap. exists (n, def). split; [done|]. apply put_candidate_in.
    + destruct (Hpath n id Hold) as (l & Hl & Hin). case_decide as E; [|by exists l]. subst id.
      eexists. split; [done|]. destruct Hin as [Hin|Hin]; [|by right].
      destruct (decide (n = placeholder (def_id def))) as [|Hne]; [by right|]. left.
      apply list_elem_of_fmap in Hin as (c & -> & Hc).
      destruct (decide (c.1 = key)) as [Ek|Ek].
      * rewrite Ek. apply list_elem_of_fmap. exists (key, def). split; [done|]. apply put_candidate_in.
      * apply list_elem_of_fmap. exists c. split; [done|]. apply put_candidate_other; [done|].
        unfold kept, old. rewrite Hl. cbn [default]. destruct resolved; [|done]. by apply list_elem_of_filter.
Qed.

Lemma overlay_ok us : live_ok us (overlay us).
Proof.
  induction us as [|[def fn] us IH] using rev_ind.
  - split; [intros id l H|intros n id H]; cbn in H; by rewrite lookup_empty in H.
  - unfold overlay. rewrite foldl_app. by apply apply_ok.
Qed.

(** Where a confirmed candidate comes from, and why it was picked. *)
Definition picked (model : option (list byte)) (l : list Candidate) (n : list byte) (d : WingNodeDef) : Prop :=
  (n, d) ∈ l ∧ (l = [(n, d)] ∨ ∃ mo, model = Some mo ∧ under_model mo n
    ∧ ∀ c, c ∈ l → under_model mo c.1 → c = (n, d)).

Lemma resolve_picked id model l prov n d p :
  resolve_candidates id model l prov = Confirmed n d p → p = prov ∧ picked model l n d.
Proof.
  intros H%resolve_candidates_ok. destruct H as [-> [->|(mo & l1 & l2 & -> & -> & Hu & Hf)]].
  - split; [done|]. split; [left|by left].
  - split; [done|]. split; [apply elem_of_app; right; left|]. right. exists mo. split_and!; [done..|].
    intros c Hc Huc. rewrite list.Forall_forall in Hf. apply elem_of_app in Hc.
    rewrite elem_of_cons in Hc. destruct Hc as [Hc|[Hc|Hc]]; [|done|].
    + destruct (Hf c); [apply elem_of_app; by left|done].
    + destruct (Hf c); [apply elem_of_app; by right|done].
Qed.
End OverlayFacts.

(** ** Properties *)

(** Resolution picks a definition only when the live model identifies it: the sole
    candidate, or the only one whose path has the model as a run of whole segments between
    the slot and the parameter; in every other case it reports the id and the model as
    unknown and never falls back to a default. *)
Theorem resolve_candidates_exact id model candidates prov :
  match resolve_candidates id model candidates prov with
  | Confirmed name d p => p = prov ∧
      (candidates = [(name, d)] ∨
       ∃ m l1 l2, model = Some m ∧ candidates = l1 ++ (name, d) :: l2 ∧ under_model m name
         ∧ Forall (λ c, ¬ under_model m c.1) (l1 ++ l2))
  | Unknown i mo => i = id ∧ mo = model ∧ length candidates ≠ 1%nat ∧
      ∀ m, model = Some m → ¬ ∃ name d l1 l2, candidates = l1 ++ (name, d) :: l2 ∧ under_model m name
         ∧ Forall (λ c, ¬ under_model m c.1) (l1 ++ l2)
  end.
Proof. by apply resolve_candidates_ok. Qed.

(** C18: the overlay resolves soundly: after any sequence of ingested definitions, a
    definition it confirms has the id asked for and was either ingested, under the path its
    update named if it named one, or is an entry of the embedded map; and it was picked as
    the sole candidate of its source or the only one under the live model. *)
Theorem live_resolution_sound (m : EmbeddedMap) us id model n d p :
  EmbeddedMapLaws m →
  live_resolve_id (overlay us) id model = Some (Confirmed n d p) →
  def_id d = id ∧
  match p with
  | Live => given us (n, d) ∧ ∃ l, live_by_id (overlay us) !! id = Some l ∧ picked model l n d
  | Embedded => (n, d) ∈ map_entries ∧ ∃ l, defs_by_id id = Some l ∧ picked model l n d
  end.
Proof.
  intros Hm. destruct (overlay_ok us) as [Hid _]. unfold live_resolve_id. intros H.
  assert (Hemb : ∀ x y z, resolve_id id model = Some (Confirmed x y z) →
    z = Embedded ∧ def_id y = id ∧ (x, y) ∈ map_entries ∧ ∃ l, defs_by_id id = Some l ∧ picked model l x y).
  { intros x y z. unfold resolve_id, id_to_defs_iter. destruct (defs_by_id id) as [l|] eqn:El; [|done].
    intros [= E]. apply resolve_picked in E as [-> Hp]. destruct Hp as [Hin Hp].
    destruct (defs_by_id_in id l x y El Hin) as [H1 H2]. split_and!; [done..|]. by exists l. }
  destruct (live_by_id (overlay us) !! id) as [l|] eqn:El.
  - assert (Hlive : resolve_candidates id model l Live = Confirmed n d p →
      def_id d = id ∧ p = Live ∧ given us (n, d) ∧ picked model l n d).
    { intros [-> Hp]%resolve_picked. destruct (Hid id l El) as (_ & _ & Hall). rewrite list.Forall_forall in Hall.
      destruct Hp as [Hin Hp]. by destruct (Hall _ Hin). }
    destruct model as [mo|].
    + destruct (negb _ && negb _); [|injection H as H; destruct (Hlive H) as (? & -> & ? & ?); by eauto].
      destruct (resolve_id id (Some mo)) as [[x y z|]|] eqn:Er.
      * destruct (contains x (needle mo)).
        -- injection H as -> -> ->. destruct (Hemb n d p eq_refl) as (-> & ? & ? & ?). done.
        -- injection H as H. destruct (Hlive H) as (? & -> & ? & ?). by eauto.
      * injection H as H. destruct (Hlive H) as (? & -> & ? & ?). by eauto.
      * injection H as H. destruct (Hlive H) as (? & -> & ? & ?). by eauto.
    + injection H as H. destruct (Hlive H) as (? & -> & ? & ?). by eauto.
  - destruct (Hemb n d p H) as (-> & ? & ? & ?). done.
Qed.

(** Firmware versions compare as sequences of numbers with missing segments zero: the map
    is older, newer or current as the first segment that differs decides, and a version
    with a segment that does not start with a number is unknown, never current. *)
Theorem staleness_exact firmware :
  match parse_version firmware with
  | None => staleness firmware = Stalenesses.Unknown
  | Some v =>
    match staleness firmware with
    | Stalenesses.Current => ∀ i, segment v i = segment [3; 1] i
    | Stalenesses.MapOlder =>
        ∃ i, (∀ k, (k < i)%nat → segment v k = segment [3; 1] k) ∧ segment [3; 1] i < segment v i
    | Stalenesses.MapNewer =>
        ∃ i, (∀ k, (k < i)%nat → segment v k = segment [3; 1] k) ∧ segment v i < segment [3; 1] i
    | Stalenesses.Unknown => False
    end
  end.
Proof.
  unfold staleness. change (parse_version FIRMWARE_BASELINE) with (Some [3; 1]).
  destruct (parse_version firmware) as [v|]; [|done].
  pose proof (compare_versions_spec v [3; 1]) as H. by destruct (compare_versions v [3; 1]).
Qed.

(** *** Witnesses *)

(** Two models of one slot share an id; the live model picks one, and an ingested definition
    takes precedence over the embedded map. *)
Definition sample_map : PropIndex := mk_index [] [] [] [] 0.

Lemma sample_map_laws : EmbeddedMapLaws (index_map sample_map).
Proof.
  assert (Hl : entries_ok []) by (split; [constructor|constructor|vm_compute; reflexivity]).
  apply (generated_map_laws [] [] sample_map Hl); try reflexivity.
  - constructor.
  - intros e d H. by apply elem_of_nil in H.
  - intros nm _. split; reflexivity.
Qed.

Definition sample_updates : list (WingNodeDef * option (list byte)) :=
  [(sample_def, Some (str "/fx/1/HALL/pdel")); (sample_def, Some (str "/fx/1/DEL/REV/time"))].

Lemma live_resolution_sound_witness :
  let _ := index_map sample_map in
  live_resolve_id (overlay sample_updates) (def_id sample_def) (Some (str "DEL/REV"))
    = Some (Confirmed (str "/fx/1/DEL/REV/time") sample_def Live)
  ∧ given sample_updates (str "/fx/1/DEL/REV/time", sample_def).
Proof.
  assert (E : @live_resolve_id (index_map sample_map) (@overlay (index_map sample_map) sample_updates)
    (def_id sample_def) (Some (str "DEL/REV")) = Some (Confirmed (str "/fx/1/DEL/REV/time") sample_def Live))
    by (vm_compute; reflexivity).
  destruct (live_resolution_sound (index_map sample_map) _ _ _ _ _ _ sample_map_laws E) as (_ & Hg & _).
  split; [exact E|exact Hg].
Defined.
