(* ===== verification/SweepRows.v ===== *)
(** The rows of a schema sweep ([src/src/node.rs], [to_json]; [src/tools/wingschema.rs],
    [parent_id_for], [def_from_sweep_row], [embed_from_sweep_to]): a definition written as a
    JSON object, and the offline regeneration that reads such rows back and packs them into
    the embedded map.

    JSON belongs to the [jzon] crate: [Jzon] is its values and objects with the operations
    the code uses, [JzonLaws] what the code relies on (an object's keys are found as they were
    inserted, a value is read as what it was made from).  [None] is a panic. *)

From stdpp Require Import gmap.
From S2P Require Import Prelude Text Bytes Lib Utf8 F32 NodeDef PropIndex PropMap.
Local Open Scope Z_scope.

(** ** JSON *)

Class Jzon := {
  JsonValue : Type;
  Object : Type;
  null : JsonValue;
  of_int : Z → JsonValue;
  of_f32 : f32 → JsonValue;
  of_str : list byte → JsonValue;
  of_bool : bool → JsonValue;
  of_array : list JsonValue → JsonValue;
  of_object : Object → JsonValue;
  as_i32 : JsonValue → option Z;
  as_u16 : JsonValue → option Z;
  as_str : JsonValue → option (list byte);
  as_bool : JsonValue → option bool;
  members : JsonValue → list JsonValue;
  as_object : JsonValue → Object;
  (** [v.dump().parse::<f32>().ok()] *)
  dump_f32 : JsonValue → option f32;
  new_object : Object;
  insert : list byte → JsonValue → Object → Object;
  get_key : Object → list byte → option JsonValue;
}.

(** Neither infinite nor NaN: a float JSON has a number for. *)
Definition f32_finite (x : f32) : Prop := f32_exp x ≠ 255.

Class JzonLaws (J : Jzon) : Prop := {
  get_new k : get_key new_object k = None;
  get_insert k k' v o : get_key (insert k v o) k' = if bytes_eqb k k' then Some v else get_key o k';
  as_i32_int z : in_i32 z → as_i32 (of_int z) = Some z;
  as_u16_int z : in_u16 z → as_u16 (of_int z) = Some z;
  as_str_str s : as_str (of_str s) = Some s;
  as_bool_bool b : as_bool (of_bool b) = Some b;
  members_array l : members (of_array l) = l;
  object_object o : as_object (of_object o) = o;
  f32_exact x : f32_ok x → f32_finite x → dump_f32 (of_f32 x) = Some x;
  as_u16_null : as_u16 null = None;
  as_str_null : as_str null = None;
  as_bool_null : as_bool null = None;
}.

Section Rows.
Context {J : Jzon}.

(** [row[key]]: null where there is no such key. *)
Definition json_index (o : Object) (key : list byte) : JsonValue := default null (get_key o key).
Definition has_key (o : Object) (key : list byte) : bool := bool_decide (is_Some (get_key o key)).

Definition json_f32 (v : JsonValue) : f32 := default f32_zero (dump_f32 v).

(** ** A definition as a row *)

Definition insert_some {A} (key : list byte) (f : A → JsonValue) (v : option A) (o : Object) : Object :=
  match v with Some a => insert key (f a) o | None => o end.

Definition insert_text (key s : list byte) (o : Object) : Object :=
  match s with [] => o | _ => insert key (of_str s) o end.

Definition type_name (t : NodeType) : list byte :=
  match t with
  | NodeTypes.Node => str "node"
  | NodeTypes.LinearFloat => str "linear float"
  | NodeTypes.LogarithmicFloat => str "log float"
  | NodeTypes.Integer => str "integer"
  | NodeTypes.String => str "string"
  | NodeTypes.FaderLevel => str "fader level"
  | NodeTypes.StringEnum => str "string enum"
  | NodeTypes.FloatEnum => str "float enum"
  | NodeTypes.Unknown _ => str "unknown"
  end.

Definition unit_name (u : NodeUnit) : option (list byte) :=
  match u with
  | NodeUnits.None => None
  | NodeUnits.Unknown _ => Some (str "unknown")
  | NodeUnits.Db => Some (str "dB")
  | NodeUnits.Percent => Some (str "%")
  | NodeUnits.Milliseconds => Some (str "ms")
  | NodeUnits.Hertz => Some (str "Hz")
  | NodeUnits.Meters => Some (str "meters")
  | NodeUnits.Seconds => Some (str "seconds")
  | NodeUnits.Octaves => Some (str "octaves")
  end.

Definition string_item_json (it : StringEnumItem) : JsonValue :=
  of_object (insert_text (str "longitem") (si_long_item it) (insert (str "item") (of_str (si_item it)) new_object)).

Definition float_item_json (it : FloatEnumItem) : JsonValue :=
  of_object (insert_text (str "longitem") (fi_long_item it) (insert (str "item") (of_f32 (fi_item it)) new_object)).

(** The fields of the node's type. *)
Definition insert_fields (d : WingNodeDef) (o : Object) : Object :=
  match def_node_type d with
  | NodeTypes.LinearFloat | NodeTypes.LogarithmicFloat | NodeTypes.FaderLevel =>
    insert_some (str "steps") of_int (def_steps d)
      (insert_some (str "maxfloat") of_f32 (def_max_float d)
        (insert_some (str "minfloat") of_f32 (def_min_float d) o))
  | NodeTypes.Integer =>
    insert_some (str "maxint") of_int (def_max_int d) (insert_some (str "minint") of_int (def_min_int d) o)
  | NodeTypes.String => insert_some (str "maxstringlen") of_int (def_max_string_len d) o
  | NodeTypes.StringEnum =>
    insert_some (str "items") (λ l, of_array (map string_item_json l)) (def_string_enum d) o
  | NodeTypes.FloatEnum =>
    insert_some (str "items") (λ l, of_array (map float_item_json l)) (def_float_enum d) o
  | NodeTypes.Node | NodeTypes.Unknown _ => o
  end.

(** The keys every definition has. *)
Definition header_json (d : WingNodeDef) : Object :=
  let json := insert (str "id") (of_int (def_id d)) new_object in
  let json := if def_index d =? 0 then json else insert (str "index") (of_int (def_index d)) json in
  let json := insert_text (str "name") (def_name d) json in
  let json := insert_text (str "longname") (def_long_name d) json in
  let json := insert (str "type") (of_str (type_name (def_node_type d))) json in
  let json := match def_node_type d with
              | NodeTypes.Unknown n => insert (str "type_raw") (of_int n) json | _ => json end in
  let json := insert_some (str "unit") of_str (unit_name (def_unit d)) json in
  let json := match def_unit d with
              | NodeUnits.Unknown n => insert (str "unit_raw") (of_int n) json | _ => json end in
  if def_read_only d then insert (str "read_only") (of_bool true) json else json.

Definition to_json (d : WingNodeDef) : Object := insert_fields d (header_json d).

(** The row the sweep writes for a definition at a path. *)
Definition sweep_row (fullname : list byte) (d : WingNodeDef) : Object :=
  insert (str "fullname") (of_str fullname) (to_json d).

(** ** A row as a definition *)

Definition row_type (row : Object) : option NodeType :=
  s ← as_str (json_index row (str "type"));
  if bytes_eqb s (str "node") then Some NodeTypes.Node
  else if bytes_eqb s (str "linear float") then Some NodeTypes.LinearFloat
  else if bytes_eqb s (str "log float") then Some NodeTypes.LogarithmicFloat
  else if bytes_eqb s (str "fader level") then Some NodeTypes.FaderLevel
  else if bytes_eqb s (str "integer") then Some NodeTypes.Integer
  else if bytes_eqb s (str "string enum") then Some NodeTypes.StringEnum
  else if bytes_eqb s (str "float enum") then Some NodeTypes.FloatEnum
  else if bytes_eqb s (str "string") then Some NodeTypes.String
  else None.

Definition row_unit (row : Object) : option NodeUnit :=
  match as_str (json_index row (str "unit")) with
  | None => Some NodeUnits.None
  | Some s =>
    if bytes_eqb s (str "dB") then Some NodeUnits.Db
    else if bytes_eqb s (str "%") then Some NodeUnits.Percent
    else if bytes_eqb s (str "ms") then Some NodeUnits.Milliseconds
    else if bytes_eqb s (str "Hz") then Some NodeUnits.Hertz
    else if bytes_eqb s (str "meters") then Some NodeUnits.Meters
    else if bytes_eqb s (str "seconds") then Some NodeUnits.Seconds
    else if bytes_eqb s (str "octaves") then Some NodeUnits.Octaves
    else None
  end.

Definition row_string_item (j : JsonValue) : StringEnumItem :=
  let item := as_object j in
  mk_string_item (default [] (as_str (json_index item (str "item")))) (default [] (as_str (json_index item (str "longitem")))).

Definition row_float_item (j : JsonValue) : FloatEnumItem :=
  let item := as_object j in
  mk_float_item (json_f32 (json_index item (str "item"))) (default [] (as_str (json_index item (str "longitem")))).

(** [b.then(|| a)]. *)
Definition when {A} (b : bool) (a : A) : option A := if b then Some a else None.

Definition is_type (t u : NodeType) : bool := bool_decide (t = u).

Definition def_from_sweep_row (row : Object) (parent_id : Z) : option WingNodeDef :=
  node_type ← row_type row;
  unit ← row_unit row;
  let has_float_range := has_key row (str "minfloat") in
  let float_range_required := is_type node_type NodeTypes.LinearFloat || is_type node_type NodeTypes.LogarithmicFloat in
  let ranged := float_range_required || has_float_range in
  id ← as_i32 (json_index row (str "id"));
  Some {|
    def_parent_id := parent_id;
    def_id := id;
    def_index := default 0 (as_u16 (json_index row (str "index")));
    def_name := default [] (as_str (json_index row (str "name")));
    def_long_name := default [] (as_str (json_index row (str "longname")));
    def_node_type := node_type;
    def_unit := unit;
    def_read_only := default false (as_bool (json_index row (str "read_only")));
    def_min_float := when ranged (json_f32 (json_index row (str "minfloat")));
    def_max_float := when ranged (json_f32 (json_index row (str "maxfloat")));
    def_steps := when ranged (default 0 (as_i32 (json_index row (str "steps"))));
    def_min_int := when (is_type node_type NodeTypes.Integer) (default 0 (as_i32 (json_index row (str "minint"))));
    def_max_int := when (is_type node_type NodeTypes.Integer) (default 0 (as_i32 (json_index row (str "maxint"))));
    def_max_string_len :=
      when (is_type node_type NodeTypes.String) (default 0 (as_u16 (json_index row (str "maxstringlen"))));
    def_string_enum :=
      when (is_type node_type NodeTypes.StringEnum) (map row_string_item (members (json_index row (str "items"))));
    def_float_enum :=
      when (is_type node_type NodeTypes.FloatEnum) (map row_float_item (members (json_index row (str "items"))));
    def_raw := [];
  |}.

(** ** Regenerating the map offline *)

(** [cur.rfind('/')], with the text before it. *)
Fixpoint before_last (sep : byte) (s : list byte) : option (list byte) :=
  match s with
  | [] => None
  | b :: s =>
    match before_last sep s with
    | Some p => Some (b :: p)
    | None => if bool_decide (b = sep) then Some [] else None
    end
  end.

(** Each turn shortens the path. *)
Fixpoint parent_id_loop (fuel : nat) (cur : list byte) (id_by_fullname : gmap (list byte) Z) : Z :=
  match fuel with
  | O => 0
  | S fuel =>
    match before_last slash cur with
    | None | Some [] => 0
    | Some cur =>
      match id_by_fullname !! cur with Some id => id | None => parent_id_loop fuel cur id_by_fullname end
    end
  end.

Definition parent_id_for (fullname : list byte) (id_by_fullname : gmap (list byte) Z) : Z :=
  parent_id_loop (S (length fullname)) fullname id_by_fullname.

(** The first pass: every row's path and id, with no path twice. *)
Fixpoint index_rows (rows : list Object) (id_by_fullname : gmap (list byte) Z)
    : option (list (list byte * Object) * gmap (list byte) Z) :=
  match rows with
  | [] => Some ([], id_by_fullname)
  | row :: rows =>
    fullname ← as_str (json_index row (str "fullname"));
    id ← as_i32 (json_index row (str "id"));
    match id_by_fullname !! fullname with
    | Some _ => None
    | None =>
      r ← index_rows rows (<[fullname := id]> id_by_fullname);
      Some ((fullname, row) :: r.1, r.2)
    end
  end.

(** The second pass. *)
Fixpoint embed_rows (rows : list (list byte * Object)) (id_by_fullname : gmap (list byte) Z) (raw : list byte)
    : option (list byte) :=
  match rows with
  | [] => Some raw
  | (fullname, row) :: rows =>
    let parent_id := parent_id_for fullname id_by_fullname in
    def ← def_from_sweep_row row parent_id;
    match to_wire_bytes def with
    | Err _ => None
    | Ok def_bytes => embed_rows rows id_by_fullname (push_entry raw (b8 0) fullname def_bytes)
    end
  end.

(** [embed_from_sweep_to], from the parsed rows to the bytes of [propmap.bin]. *)
Definition embed_from_sweep (rows : list Object) : option (list byte) :=
  r ← index_rows rows ∅;
  raw ← embed_rows r.1 r.2 [];
  write_propmap_bin raw.

(** ** Lemmas: keys *)

Context `{!JzonLaws J}.

Lemma get_text k k' s o :
  get_key (insert_text k' s o) k
  = if bytes_eqb k' k then match s with [] => get_key o k | _ => Some (of_str s) end else get_key o k.
Proof. destruct s; cbn [insert_text]; [by destruct (bytes_eqb k' k)|]. apply get_insert. Qed.

Lemma get_some {A} k k' (f : A → JsonValue) v o :
  get_key (insert_some k' f v o) k
  = if bytes_eqb k' k then match v with None => get_key o k | Some a => Some (f a) end else get_key o k.
Proof. destruct v; cbn [insert_some]; [|by destruct (bytes_eqb k' k)]. apply get_insert. Qed.

Lemma get_if (b : bool) k (o1 o2 : Object) :
  get_key (if b then o1 else o2) k = if b then get_key o1 k else get_key o2 k.
Proof. by destruct b. Qed.

(** The value of a key of a row, whatever the insertions around it. *)
Ltac key_values :=
  repeat first
    [ rewrite get_insert | rewrite get_text | rewrite get_some | rewrite get_if
    | rewrite get_new
    | match goal with |- context [bytes_eqb (str ?a) (str ?b)] =>
        let r := eval vm_compute in (bytes_eqb (str a) (str b)) in
        change (bytes_eqb (str a) (str b)) with r; cbv iota
      end ].

(** Reading a value back. *)
Ltac json_values :=
  cbn [from_option id];
  rewrite ?object_object, ?members_array, ?as_str_str, ?as_str_null, ?as_bool_bool, ?as_bool_null, ?as_u16_null;
  cbn [from_option id].

(** What the sweep writes but the file cannot hold: kinds of node and unit it has no name
    for, and floats JSON has no number for. *)
Definition item_finite (it : FloatEnumItem) : Prop := f32_finite (fi_item it).

Record storable (d : WingNodeDef) : Prop := {
  type_named : ∀ n, def_node_type d ≠ NodeTypes.Unknown n;
  unit_named : ∀ n, def_unit d ≠ NodeUnits.Unknown n;
  bounds_finite x : def_min_float d = Some x ∨ def_max_float d = Some x → f32_finite x;
  items_finite l : def_float_enum d = Some l → Forall item_finite l;
}.

(** [d] below another parent, without its bytes. *)
Definition placed_under (parent_id : Z) (d : WingNodeDef) : WingNodeDef :=
  {| def_parent_id := parent_id; def_id := def_id d; def_index := def_index d; def_name := def_name d;
     def_long_name := def_long_name d; def_node_type := def_node_type d; def_unit := def_unit d;
     def_read_only := def_read_only d; def_min_float := def_min_float d; def_max_float := def_max_float d;
     def_steps := def_steps d; def_min_int := def_min_int d; def_max_int := def_max_int d;
     def_max_string_len := def_max_string_len d; def_string_enum := def_string_enum d;
     def_float_enum := def_float_enum d; def_raw := [] |}.

Lemma string_items_back l : map row_string_item (map string_item_json l) = l.
Proof.
  induction l as [|[item long] l IH]; [done|]. cbn [map]. f_equal; [|done].
  unfold row_string_item, string_item_json, json_index. cbn [si_item si_long_item]. json_values. key_values.
  destruct long; by json_values.
Qed.

Lemma float_items_back l :
  Forall float_item_ok l → Forall item_finite l → map row_float_item (map float_item_json l) = l.
Proof.
  intros H1 H2. induction l as [|[item long] l IH]; [done|].
  apply Forall_cons_iff in H1 as [[Ho _] H1]. apply Forall_cons_iff in H2 as [Hf H2].
  cbn [map]. f_equal; [|by apply IH].
  unfold row_float_item, float_item_json, json_index, json_f32. cbn [fi_item fi_long_item]. json_values. key_values.
  cbn [from_option id]. rewrite f32_exact by done. destruct long; by json_values.
Qed.

(** ** Lemmas: the keys of a row *)

(** The header of a storable definition, without the keys of the unknown kinds. *)
Definition plain_header (d : WingNodeDef) : Object :=
  let json := if def_index d =? 0 then insert (str "id") (of_int (def_id d)) new_object
              else insert (str "index") (of_int (def_index d)) (insert (str "id") (of_int (def_id d)) new_object) in
  let json := insert_text (str "longname") (def_long_name d) (insert_text (str "name") (def_name d) json) in
  let json := insert (str "type") (of_str (type_name (def_node_type d))) json in
  let json := insert_some (str "unit") of_str (unit_name (def_unit d)) json in
  if def_read_only d then insert (str "read_only") (of_bool true) json else json.

Lemma header_storable d : storable d → header_json d = plain_header d.
Proof.
  intros [Ht Hu _ _]. unfold header_json, plain_header.
  destruct (def_node_type d) eqn:Et; try (by edestruct Ht);
    destruct (def_unit d) eqn:Eu; try (by edestruct Hu); reflexivity.
Qed.

Definition field_keys : list (list byte) :=
  map str ["minfloat"; "maxfloat"; "steps"; "minint"; "maxint"; "maxstringlen"; "items"]%string.

(** The fields touch no key of the header. *)
Lemma fields_key key d o : key ∉ field_keys → get_key (insert_fields d o) key = get_key o key.
Proof.
  intros Hk. assert (∀ k', k' ∈ field_keys → bytes_eqb k' key = false) as Hne.
  { intros k' Hk'. apply bool_decide_eq_false. by intros ->. }
  unfold insert_fields. destruct (def_node_type d); rewrite ?get_some;
    rewrite ?Hne by (unfold field_keys; set_solver); done.
Qed.

(** A header key of a row. *)
Lemma header_key fullname d key :
  bytes_eqb (str "fullname") key = false → key ∉ field_keys →
  json_index (sweep_row fullname d) key = json_index (header_json d) key.
Proof.
  intros H1 H2. unfold json_index, sweep_row, to_json. rewrite get_insert, H1. by rewrite fields_key.
Qed.

Ltac not_a_field := unfold field_keys; cbn [map]; rewrite ?not_elem_of_cons; repeat split; try done; apply not_elem_of_nil.

Ltac header_value :=
  rewrite header_key by (first [reflexivity | not_a_field]);
  rewrite header_storable by done; unfold json_index, plain_header; key_values.

Lemma row_type_back fullname d :
  storable d → row_type (sweep_row fullname d) = Some (def_node_type d).
Proof.
  intros Hs. unfold row_type. header_value. pose proof (type_named d Hs) as Ht.
  destruct (def_read_only d), (def_node_type d); json_values; try done; by edestruct Ht.
Qed.

Lemma row_unit_back fullname d :
  storable d → row_unit (sweep_row fullname d) = Some (def_unit d).
Proof.
  intros Hs. unfold row_unit. header_value. pose proof (unit_named d Hs) as Hu.
  destruct (def_read_only d), (def_unit d), (def_long_name d), (def_name d), (def_index d =? 0);
    cbn [unit_name]; json_values; try done; by edestruct Hu.
Qed.

Lemma row_scalars_back fullname d :
  storable d → wf_def d →
  as_i32 (json_index (sweep_row fullname d) (str "id")) = Some (def_id d) ∧
  default 0 (as_u16 (json_index (sweep_row fullname d) (str "index"))) = def_index d ∧
  default [] (as_str (json_index (sweep_row fullname d) (str "name"))) = def_name d ∧
  default [] (as_str (json_index (sweep_row fullname d) (str "longname"))) = def_long_name d ∧
  default false (as_bool (json_index (sweep_row fullname d) (str "read_only"))) = def_read_only d.
Proof.
  intros Hs Hw. pose proof (wf_id d Hw) as Hi. pose proof (wf_index d Hw) as Hx.
  split_and!; header_value; destruct (def_read_only d); cbn iota.
  1,2: destruct (def_index d =? 0); by apply as_i32_int.
  1,2: destruct (Z.eqb_spec (def_index d) 0) as [->|];
    json_values; [done|by rewrite as_u16_int].
  1,2: destruct (def_name d), (def_index d =? 0); by json_values.
  1,2: destruct (def_long_name d), (def_name d), (def_index d =? 0); by json_values.
  all: destruct (def_unit d), (def_long_name d), (def_name d), (def_index d =? 0); by json_values.
Qed.

(** A field key of a row. *)
Lemma field_key fullname d key :
  bytes_eqb (str "fullname") key = false →
  json_index (sweep_row fullname d) key = default null (get_key (insert_fields d (header_json d)) key).
Proof. intros H1. unfold json_index, sweep_row, to_json. by rewrite get_insert, H1. Qed.

Lemma header_no_field d key :
  storable d → key ∈ field_keys → get_key (header_json d) key = None.
Proof.
  intros Hs Hk. rewrite header_storable by done. unfold plain_header.
  unfold field_keys in Hk. cbn [map] in Hk. repeat (apply elem_of_cons in Hk as [->|Hk]); [..|by apply not_elem_of_nil in Hk].
  all: key_values; by destruct (def_read_only d), (def_index d =? 0), (def_unit d), (def_name d), (def_long_name d).
Qed.

(** The type's fields of a row, as the reader collects them. *)
Definition row_fields (t : NodeType) (row : Object) : TypeFields :=
  let ranged := is_type t NodeTypes.LinearFloat || is_type t NodeTypes.LogarithmicFloat || has_key row (str "minfloat") in
  mk_fields
    (when ranged (json_f32 (json_index row (str "minfloat")))) (when ranged (json_f32 (json_index row (str "maxfloat"))))
    (when ranged (default 0 (as_i32 (json_index row (str "steps")))))
    (when (is_type t NodeTypes.Integer) (default 0 (as_i32 (json_index row (str "minint")))))
    (when (is_type t NodeTypes.Integer) (default 0 (as_i32 (json_index row (str "maxint")))))
    (when (is_type t NodeTypes.String) (default 0 (as_u16 (json_index row (str "maxstringlen")))))
    (when (is_type t NodeTypes.StringEnum) (map row_string_item (members (json_index row (str "items")))))
    (when (is_type t NodeTypes.FloatEnum) (map row_float_item (members (json_index row (str "items"))))).

(** [insert_fields] of given fields. *)
Definition json_of_fields (t : NodeType) (f : TypeFields) (o : Object) : Object :=
  match t with
  | NodeTypes.LinearFloat | NodeTypes.LogarithmicFloat | NodeTypes.FaderLevel =>
    insert_some (str "steps") of_int (f_steps f)
      (insert_some (str "maxfloat") of_f32 (f_max_float f) (insert_some (str "minfloat") of_f32 (f_min_float f) o))
  | NodeTypes.Integer =>
    insert_some (str "maxint") of_int (f_max_int f) (insert_some (str "minint") of_int (f_min_int f) o)
  | NodeTypes.String => insert_some (str "maxstringlen") of_int (f_max_string_len f) o
  | NodeTypes.StringEnum => insert_some (str "items") (λ l, of_array (map string_item_json l)) (f_string_enum f) o
  | NodeTypes.FloatEnum => insert_some (str "items") (λ l, of_array (map float_item_json l)) (f_float_enum f) o
  | NodeTypes.Node | NodeTypes.Unknown _ => o
  end.

Lemma insert_fields_eq d o : insert_fields d o = json_of_fields (def_node_type d) (fields_of d) o.
Proof. done. Qed.

(** The floats of some fields have JSON numbers. *)
Definition fields_finite (f : TypeFields) : Prop :=
  (∀ x, f_min_float f = Some x ∨ f_max_float f = Some x → f32_finite x) ∧
  (∀ l, f_float_enum f = Some l → Forall item_finite l).

Lemma range_fields_back t fullname f o :
  is_type t NodeTypes.LinearFloat || is_type t NodeTypes.LogarithmicFloat || is_type t NodeTypes.FaderLevel = true →
  range_ok f → fields_finite f → row_fields t (insert (str "fullname") fullname (json_of_fields t f o)) = f.
Proof.
  intros Ht (lo & hi & st & Hlo & Hhi & Hst & ->) [Hb _].
  pose proof (Hb lo (or_introl eq_refl)) as Flo. pose proof (Hb hi (or_intror eq_refl)) as Fhi.
  assert (json_of_fields t (range_fields lo hi st) o = insert (str "steps") (of_int st)
    (insert (str "maxfloat") (of_f32 hi) (insert (str "minfloat") (of_f32 lo) o))) as -> by by destruct t.
  unfold row_fields, has_key, json_index, json_f32. key_values. cbn [from_option id].
  rewrite as_i32_int, !f32_exact by done. by destruct t.
Qed.

Ltac read_fields Ho :=
  unfold row_fields, has_key, json_index, json_of_fields; key_values; rewrite Ho;
  json_values; cbn [f_min_float f_max_float f_steps f_min_int f_max_int f_max_string_len f_string_enum f_float_enum]; json_values.

(** The reader finds the fields the row was written with. *)
Lemma row_fields_back t fullname f o :
  fields_ok t f → fields_finite f → (∀ n, t ≠ NodeTypes.Unknown n) → get_key o (str "minfloat") = None →
  row_fields t (insert (str "fullname") fullname (json_of_fields t f o)) = f.
Proof.
  intros Hf Hfin Ht Ho.
  destruct t; try (by edestruct Ht); cbn [fields_ok] in Hf; try by apply range_fields_back.
  - subst f. read_fields Ho. done.
  - destruct Hf as [->|Hf]; [|by apply range_fields_back]. read_fields Ho. done.
  - destruct Hf as (lo & hi & Hlo & Hhi & ->). read_fields Ho. by rewrite !as_i32_int.
  - destruct Hf as (items & _ & _ & ->). read_fields Ho. by rewrite string_items_back.
  - destruct Hf as (items & _ & Hok & ->). read_fields Ho. rewrite float_items_back; [done|done|by apply (proj2 Hfin)].
  - destruct Hf as (n & Hn & ->). read_fields Ho. by rewrite as_u16_int.
Qed.

(** The row's definition is read back whole. *)
Lemma sweep_row_back fullname d parent_id :
  storable d → wf_def d → def_from_sweep_row (sweep_row fullname d) parent_id = Some (placed_under parent_id d).
Proof.
  intros Hs Hw. destruct (row_scalars_back fullname d Hs Hw) as (Hid & Hx & Hn & Hl & Hr).
  assert (row_fields (def_node_type d) (sweep_row fullname d) = fields_of d) as Hf.
  { unfold sweep_row, to_json. rewrite insert_fields_eq. apply row_fields_back; [apply Hw|split; apply Hs|apply Hs|].
    apply header_no_field; [done|]. left. }
  unfold def_from_sweep_row. rewrite row_type_back by done. cbn [mbind option_bind].
  rewrite row_unit_back by done. cbn [mbind option_bind]. rewrite Hid. cbn [mbind option_bind].
  unfold row_fields, fields_of in Hf. injection Hf as E1 E2 E3 E4 E5 E6 E7 E8.
  unfold placed_under. rewrite Hx, Hn, Hl, Hr. by rewrite E1, E2, E3, E4, E5, E6, E7, E8.
Qed.

(** ** Lemmas: the passes *)

Abbreviation Swept := (list (list byte * WingNodeDef)).

Definition row_of (p : list byte * WingNodeDef) : Object := sweep_row p.1 p.2.

Definition ids_of (l : Swept) : gmap (list byte) Z := list_to_map (map (λ p, (p.1, def_id p.2)) l).

Lemma row_fullname n d : as_str (json_index (sweep_row n d) (str "fullname")) = Some n.
Proof. unfold json_index, sweep_row. key_values. by json_values. Qed.

Lemma index_rows_swept l m :
  Forall (λ p, storable p.2 ∧ wf_def p.2) l → NoDup (map fst l) → (∀ p, p ∈ l → m !! p.1 = None) →
  ∃ m', index_rows (map row_of l) m = Some (map (λ p, (p.1, row_of p)) l, m') ∧
    ∀ k, m' !! k = match ids_of l !! k with Some id => Some id | None => m !! k end.
Proof.
  revert m. induction l as [|[n d] l IH]; intros m Hl Hn Hm.
  { eexists. split; [done|]. intros k. by rewrite (lookup_empty k : ids_of [] !! k = None). }
  apply Forall_cons_iff in Hl as [[Hs Hw] Hl]. cbn [map] in Hn; apply list.NoDup_cons in Hn as [Hnin Hn].
  cbn [map index_rows fst snd]. change (row_of (n, d)) with (sweep_row n d).
  rewrite row_fullname. cbn [mbind option_bind].
  rewrite (proj1 (row_scalars_back n d Hs Hw)). cbn [mbind option_bind].
  rewrite (Hm (n, d) (list_elem_of_here _ _) : m !! n = None).
  destruct (IH (<[n := def_id d]> m) Hl Hn) as (m' & E & Hm').
  { intros p Hp. rewrite lookup_insert_ne; [apply Hm; by right|]. intros ->. apply Hnin.
    exact (list_elem_of_fmap_2 fst l _ Hp). }
  rewrite E. cbn [mbind option_bind fst snd]. exists m'. split; [done|]. intros k. rewrite Hm'.
  unfold ids_of. cbn [map list_to_map foldr]. cbn [fst snd].
  destruct (decide (k = n)) as [->|Hk].
  - rewrite !lookup_insert_eq. destruct (_ !! n) eqn:El; [|done].
    apply elem_of_list_to_map_2, list_elem_of_fmap in El as ([k' d'] & [= -> _] & Hp).
    destruct Hnin. by apply (list_elem_of_fmap_2 fst) in Hp.
  - by rewrite !lookup_insert_ne.
Qed.

Lemma placed_under_wf parent_id d : in_i32 parent_id → wf_def d → wf_def (placed_under parent_id d).
Proof. intros Hp []. by split. Qed.

(** The entries the generator is given. *)
Definition embedded_entry (ids : gmap (list byte) Z) (p : list byte * WingNodeDef) : Entry :=
  mk_swept (b8 0) p.1 (wire_bytes (placed_under (parent_id_for p.1 ids) p.2)).

Definition embedded (l : Swept) : list Entry := map (embedded_entry (ids_of l)) l.

Lemma embed_rows_swept ids l raw :
  Forall (λ p, storable p.2 ∧ wf_def p.2) l → (∀ n, in_i32 (parent_id_for n ids)) →
  embed_rows (map (λ p, (p.1, row_of p)) l) ids raw
  = Some (foldl (λ raw e, push_entry raw (flag e) (full_name e) (def_bytes e)) raw (map (embedded_entry ids) l)).
Proof.
  intros Hl Hi. revert raw. induction l as [|[n d] l IH]; intros raw; [done|].
  apply Forall_cons_iff in Hl as [[Hs Hw] Hl]. cbn [map embed_rows fst]. change (row_of (n, d)) with (sweep_row n d).
  rewrite sweep_row_back by done. cbn [mbind option_bind].
  rewrite to_wire_bytes_wf by (apply placed_under_wf; [apply Hi|done]). by rewrite IH.
Qed.

(** ** Lemmas: parents *)

Lemma before_last_Some sep s p :
  before_last sep s = Some p ↔ ∃ rest, s = p ++ sep :: rest ∧ sep ∉ rest.
Proof.
  split.
  - revert p. induction s as [|b s IH]; intros p; [done|]. cbn [before_last].
    destruct (before_last sep s) as [q|] eqn:E.
    + intros [= <-]. destruct (IH q eq_refl) as (rest & -> & Hr). by exists rest.
    + case_bool_decide; [|done]. intros [= <-]. subst. exists s. split; [done|]. clear IH.
      induction s as [|c s IHs]; [set_solver|]. cbn [before_last] in E.
      destruct (before_last sep s); [done|]. case_bool_decide; [done|]. specialize (IHs eq_refl). set_solver.
  - intros (rest & -> & Hr). induction p as [|b p IH]; cbn [app before_last]; [|by rewrite IH].
    assert (before_last sep rest = None) as ->.
    { induction rest as [|c rest IH]; [done|]. cbn [before_last]. rewrite IH by set_solver.
      rewrite bool_decide_eq_false_2; [done|]. set_solver. }
    by rewrite bool_decide_eq_true_2.
Qed.

(** [p] is a proper ancestor of a path. *)
Definition ancestor (p path : list byte) : Prop := p ≠ [] ∧ ∃ rest, path = p ++ slash :: rest.

(** The ancestors of a path are the parts before its last slash and its ancestors. *)
Lemma ancestor_step path p :
  ancestor p path ↔ ∃ q, before_last slash path = Some q ∧ p ≠ [] ∧ (p = q ∨ ancestor p q).
Proof.
  split.
  - intros (Hp & rest & ->). destruct (before_last slash (p ++ slash :: rest)) as [q|] eqn:E.
    + exists q. split; [done|]. split; [done|]. apply before_last_Some in E as (tl & E & Ht).
      destruct (decide (p = q)) as [|Hne]; [by left|]. right. split; [done|].
      apply app_eq_inv in E as [(k & E1 & E2)|(k & E1 & E2)].
      * destruct k as [|b k]; [rewrite app_nil_r in E1; by subst|]. injection E2 as <- E2.
        destruct Ht. rewrite E2. set_solver.
      * destruct k as [|b k]; [rewrite app_nil_r in E1; by subst|]. injection E2 as <- E2. by exists k.
    + exfalso. revert E. clear. intros E. induction p as [|b p IH]; cbn [app before_last] in E.
      * destruct (before_last slash rest); [done|]. by rewrite bool_decide_eq_true_2 in E.
      * destruct (before_last slash (p ++ slash :: rest)); [done|]. by apply IH.
  - intros (q & (rest & -> & _)%before_last_Some & Hp & [->|(_ & r & ->)]); (split; [done|]).
    + by exists rest.
    + exists (r ++ slash :: rest). by rewrite <- (assoc_L (++)).
Qed.

Lemma before_last_shorter sep s p : before_last sep s = Some p → (length p < length s)%nat.
Proof. intros (rest & -> & _)%before_last_Some. rewrite length_app. simpl. lia. Qed.

(** What [parent_id_for] finds: the id of the nearest ancestor that has a row, or 0. *)
Definition nearest (path : list byte) (ids : gmap (list byte) Z) (id : Z) : Prop :=
  (∃ p, ancestor p path ∧ ids !! p = Some id ∧
     ∀ q, ancestor q path → (length p < length q)%nat → ids !! q = None)
  ∨ id = 0 ∧ ∀ q, ancestor q path → ids !! q = None.

Lemma parent_id_nearest fuel path ids :
  (length path < fuel)%nat → nearest path ids (parent_id_loop fuel path ids).
Proof.
  revert path. induction fuel as [|fuel IH]; intros path Hf; [lia|]. cbn [parent_id_loop].
  destruct (before_last slash path) as [q|] eqn:E.
  2:{ right. split; [done|]. intros p (q & E' & _)%ancestor_step. congruence. }
  pose proof (before_last_shorter _ _ _ E) as Hlt.
  destruct q as [|b q'].
  { right. split; [done|]. intros p (q & E' & Hp & Hq)%ancestor_step. rewrite E in E'. injection E' as <-.
    destruct Hq as [->|(_ & rest & Hq)]; [done|]. by destruct p. }
  set (q := b :: q') in *.
  assert (ancestor q path) as Ha by (apply ancestor_step; exists q; auto).
  assert (∀ p, ancestor p path → p = q ∨ ancestor p q) as Hcase.
  { intros p (q1 & E' & _ & Hq)%ancestor_step. rewrite E in E'. by injection E' as <-. }
  destruct (ids !! q) as [id|] eqn:Eid.
  - left. exists q. split; [done|]. split; [done|]. intros p Hp Hl.
    destruct (Hcase p Hp) as [->|(_ & rest & ->)]; [lia|]. rewrite length_app in Hl. lia.
  - destruct (IH q ltac:(lia)) as [(p & (Hp & rest & Hq) & Hid & Hmin)|[-> Hnone]].
    + left. exists p. split; [apply ancestor_step; exists q; split_and!; [done|done|by right; split; [|exists rest]]|].
      split; [done|]. intros r Hr Hl. destruct (Hcase r Hr) as [->|Hr']; [done|by apply Hmin].
    + right. split; [done|]. intros r Hr. destruct (Hcase r Hr) as [->|Hr']; [done|by apply Hnone].
Qed.

Lemma parent_id_for_nearest path ids : nearest path ids (parent_id_for path ids).
Proof. apply parent_id_nearest. lia. Qed.

Lemma parent_id_range path l :
  Forall (λ p, storable p.2 ∧ wf_def p.2) l → in_i32 (parent_id_for path (ids_of l)).
Proof.
  intros Hl. destruct (parent_id_for_nearest path (ids_of l)) as [(p & _ & Hid & _)|[H0 _]].
  - apply elem_of_list_to_map_2, list_elem_of_fmap in Hid as ([n d] & [= -> ->] & Hin).
    rewrite list.Forall_forall in Hl. by apply (Hl (n, d) Hin).
  - rewrite H0. width.
Qed.

Lemma placed_under_read parent_id d :
  in_i32 parent_id → wf_def d →
  from_bytes_without_raw (wire_bytes (placed_under parent_id d)) = Ok (placed_under parent_id d).
Proof.
  intros Hp Hw. pose proof (placed_under_wf parent_id d Hp Hw) as Hw'.
  unfold from_bytes_without_raw, from_bytes_inner. rewrite <- (app_nil_r (wire_bytes _)).
  rewrite read_def_wire by (done || (intros ? ?; simpl; lia)). cbn [map_ok fst].
  reflexivity.
Qed.

Lemma index_rows_distinct rows ids r :
  index_rows rows ids = Some r →
  NoDup (map fst r.1) ∧ (∀ n, n ∈ map fst r.1 → ids !! n = None) ∧ length r.1 = length rows.
Proof.
  revert ids r. induction rows as [|row rows IH]; intros ids r; cbn [index_rows].
  { intros [= <-]. split_and!; [apply NoDup_nil_2|by intros n ?%not_elem_of_nil|done]. }
  destruct (as_str _) as [n|]; [|done]. cbn [mbind option_bind].
  destruct (as_i32 _) as [id|]; [|done]. cbn [mbind option_bind].
  destruct (ids !! n) eqn:En; [done|]. destruct (index_rows rows _) as [r'|] eqn:E; [|done].
  cbn [mbind option_bind]. intros [= <-]. destruct (IH _ _ E) as (Hn & Hf & Hlen). cbn [fst map].
  split_and!.
  - apply list.NoDup_cons. split; [|done]. intros Hin. specialize (Hf n Hin). by rewrite lookup_insert_eq in Hf.
  - intros m [->|Hin]%elem_of_cons; [done|]. specialize (Hf m Hin).
    destruct (decide (m = n)) as [->|Hne]; [done|]. by rewrite lookup_insert_ne in Hf.
  - simpl. by rewrite Hlen.
Qed.

(** ** Properties *)

(** A path that occurs twice stops the regeneration: nothing is dropped silently. *)
Theorem embed_from_sweep_distinct rows blob :
  embed_from_sweep rows = Some blob →
  ∃ names, NoDup names ∧ Forall2 (λ n row, as_str (json_index row (str "fullname")) = Some n) names rows.
Proof.
  unfold embed_from_sweep. destruct (index_rows rows ∅) as [r|] eqn:E; [|done]. intros _.
  exists (map fst r.1). split; [by apply (index_rows_distinct _ _ _ E)|].
  revert r E. generalize (∅ : gmap (list byte) Z). induction rows as [|row rows IH]; intros ids r; cbn [index_rows].
  { intros [= <-]. constructor. }
  destruct (as_str _) as [n|] eqn:En; [|done]. cbn [mbind option_bind].
  destruct (as_i32 _) as [id|]; [|done]. cbn [mbind option_bind].
  destruct (ids !! n); [done|]. destruct (index_rows rows _) as [r'|] eqn:E; [|done].
  intros [= <-]. cbn [fst map]. constructor; [done|]. by eapply IH.
Qed.

(** C36: a sweep regenerates the map offline.  The rows a sweep wrote of storable definitions,
    at distinct paths and within the map's size limits, are embedded without a panic, and
    the library finds each path's definition in the blob as it was swept, below the nearest
    ancestor that was swept too (a model's name in a path has no row), or below the root;
    and it finds nothing else. *)
Theorem embed_regenerates l :
  Forall (λ p, storable p.2 ∧ wf_def p.2) l → entries_ok (embedded l) →
  ∃ blob ix, embed_from_sweep (map row_of l) = Some blob ∧ new blob = Some ix ∧ len ix = length l
  ∧ (∀ n d, (n, d) ∈ l → ∃ parent, nearest n (ids_of l) parent ∧ get ix n = Some (Some (placed_under parent d)))
  ∧ (∀ n, n ∉ map fst l → get ix n = Some None).
Proof.
  intros Hl He. assert (Hnames : map full_name (embedded l) = map fst l) by (unfold embedded; by rewrite map_map).
  assert (NoDup (map fst l)) as Hn by (rewrite <- Hnames; apply He).
  destruct (index_rows_swept l ∅ Hl Hn ltac:(done)) as (ids & Ei & Hids).
  assert (ids = ids_of l) as ->.
  { apply map_eq. intros k. rewrite Hids. by destruct (ids_of l !! k). }
  destruct (generated _ He) as (table & blob & Hw & Hnew & Hu & Hlen & Hk).
  exists blob, (index (embedded l) table). split_and!; [|done|unfold embedded; by rewrite <- (length_map (embedded_entry (ids_of l)))| |].
  - unfold embed_from_sweep. rewrite Ei. cbn [mbind option_bind fst snd].
    rewrite embed_rows_swept by (done || intros; by apply parent_id_range). exact Hw.
  - intros n d Hin. exists (parent_id_for n (ids_of l)). split; [apply parent_id_for_nearest|].
    apply (get_index _ He table (embedded_entry (ids_of l) (n, d))); [done..| |].
    + unfold embedded. by apply (list_elem_of_fmap_2 (embedded_entry (ids_of l)) l (n, d)).
    + apply placed_under_read; [by apply parent_id_range|]. rewrite list.Forall_forall in Hl. by apply (Hl (n, d)).
  - intros n Hnin. destruct (find_index _ He table Hu Hlen Hk) as [_ Hm]. unfold get.
    rewrite (Hm n); [done|]. by rewrite Hnames.
Qed.
End Rows.

(** *** Witnesses *)

(** Values as they were made, objects as lists. *)
Inductive PlainJson :=
| PNull | PInt (z : Z) | PFloat (x : f32) | PStr (s : list byte) | PBool (b : bool) | PArray (l : list PlainJson)
| PObject (l : list (list byte * PlainJson)).

Fixpoint plain_get (o : list (list byte * PlainJson)) (key : list byte) : option PlainJson :=
  match o with
  | [] => None
  | (k, v) :: o => if bytes_eqb k key then Some v else plain_get o key
  end.

#[local] Instance plain_json : Jzon := {|
  JsonValue := PlainJson;
  Object := list (list byte * PlainJson);
  null := PNull; of_int := PInt; of_f32 := PFloat; of_str := PStr; of_bool := PBool; of_array := PArray;
  of_object := PObject;
  as_i32 v := match v with PInt z => if bool_decide (in_i32 z) then Some z else None | _ => None end;
  as_u16 v := match v with PInt z => if (0 <=? z) && (z <? 2 ^ 16) then Some z else None | _ => None end;
  as_str v := match v with PStr s => Some s | _ => None end;
  as_bool v := match v with PBool b => Some b | _ => None end;
  members v := match v with PArray l => l | _ => [] end;
  as_object v := match v with PObject o => o | _ => [] end;
  dump_f32 v := match v with PFloat x => Some x | PInt z => Some (f32_of_int z) | _ => None end;
  new_object := [];
  insert k v o := (k, v) :: o;
  get_key := plain_get;
|}.

#[local] Instance plain_json_laws : JzonLaws plain_json.
Proof.
  split; try done.
  - intros z Hz. cbn. by rewrite bool_decide_eq_true_2.
  - intros z [H1 H2]. cbn. by rewrite (proj2 (Z.leb_le 0 z)), (proj2 (Z.ltb_lt z _)).
Qed.

Definition swept_enum : WingNodeDef :=
  mk_def 12 3 0 (str "mdl") (str "Model") NodeTypes.StringEnum NodeUnits.None true None None None None None None
    (Some [mk_string_item (str "EXT") (str "External"); mk_string_item (str "HALL") []]) None [].

Definition swept_slot : WingNodeDef :=
  mk_def 3 1 2 [] [] NodeTypes.Node NodeUnits.None false None None None None None None None None [].

(** A slot, its selector, and a fader below one of its models. *)
Definition sample_sweep : list (list byte * WingNodeDef) :=
  [(str "/fx/1", swept_slot); (str "/fx/1/mdl", swept_enum); (str "/fx/1/HALL/fdr", sample_fader)].

Lemma swept_enum_wf : wf_def swept_enum.
Proof.
  split; try (unfold in_i32, in_u16; simpl; lia); try (split; [reflexivity|simpl; lia]); try (simpl; lia); [exact I..|].
  eexists. split; [|split; [|reflexivity]]; [simpl; lia|]. repeat constructor; simpl; lia.
Qed.

Lemma swept_slot_wf : wf_def swept_slot.
Proof. split; try (unfold in_i32, in_u16; simpl; lia); try (split; [reflexivity|simpl; lia]); done. Qed.

Lemma sample_sweep_storable : Forall (λ p, storable p.2 ∧ wf_def p.2) sample_sweep.
Proof.
  each_elem; cbn [snd]; split; try (split; [done..| |by intros ? [=]]; intros x [Hx|Hx]; vm_compute in Hx; simplify_eq; by vm_compute).
  - apply swept_slot_wf.
  - apply swept_enum_wf.
  - apply sample_fader_wf.
Qed.

Lemma sample_sweep_ok : entries_ok (embedded sample_sweep).
Proof.
  split.
  - each_elem; split; vm_compute; split || reflexivity; discriminate || reflexivity.
  - apply (bool_decide_unpack _). vm_compute. exact I.
  - vm_compute. reflexivity.
Qed.

Lemma embed_regenerates_witness :
  ∃ blob ix, embed_from_sweep (map row_of sample_sweep) = Some blob ∧ new blob = Some ix
  ∧ (∃ parent, nearest (str "/fx/1/HALL/fdr") (ids_of sample_sweep) parent
       ∧ get ix (str "/fx/1/HALL/fdr") = Some (Some (placed_under parent sample_fader)))
  ∧ get ix (str "/fx/1/HALL") = Some None
  ∧ parent_id_for (str "/fx/1/HALL/fdr") (ids_of sample_sweep) = def_id swept_slot.
Proof.
  destruct (embed_regenerates sample_sweep sample_sweep_storable sample_sweep_ok) as (blob & ix & H1 & H2 & _ & H3 & H4).
  exists blob, ix. split; [exact H1|]. split; [exact H2|]. split_and!.
  - apply H3. right. right. left.
  - apply H4. apply (bool_decide_unpack _). vm_compute. exact I.
  - vm_compute. reflexivity.
Defined.

(** What regeneration cannot do: a kind of node the file has no name for. *)
Example unknown_kind_panics :
  embed_from_sweep [sweep_row (str "/x") (make_def (mk_header 0 1 0 [] [] (Z.shiftl 9 4)) no_fields [])] = None.
Proof. vm_compute. reflexivity. Qed.

Example same_path_panics :
  embed_from_sweep (map row_of [(str "/a", swept_slot); (str "/a", swept_enum)]) = None.
Proof. vm_compute. reflexivity. Qed.
