(* ===== verification/Crawl.v ===== *)
(** The schema crawl ([src/tools/wingschema.rs]: [read_node_data], [selector_snapshot],
    [plan_restore], [restore_selectors], [get_node_def], [add] and the part of [main] that
    runs them): a tool that walks a console's tree of definitions and, where it finds a model
    selector, flips it through every model to see the nodes below each; it has to leave the
    console as it found it.

    A crawl changes a console through a session, its two outputs and the list of selectors it
    has recorded.  The disk is the environment: [file_calls] says whether each use of the staged
    file works, in order: the write of each row, and after a completed walk the flush, the
    read of the file and the publication of the outputs, whose own steps are [AtomicWrite]'s
    (all work once the list is used up).  A panic keeps the state it leaves behind, as
    [catch_unwind] finds it; [Waiting] is a crawl that still waits for the console.  What is
    printed on the way is not modelled.

    [Act] is what a crawl does as the outside sees it: the messages it sends and the selectors
    it records, in order. *)

From stdpp Require Import gmap.
From S2P Require Import Prelude Text Bytes Lib Utf8 F32 Channel NodeDef NodeData.
From S2P Require Import Meter NativeRequest NativeResponse ClientMessages ResponseReader ClientReader.
From S2P Require Import Attended PropIndex PropMap SweepRows.
Local Open Scope Z_scope.
Local Open Scope rust_scope.

(** ** Data *)

Record SelectorSnapshot := mk_selector {
  sel_id : Z;
  sel_fullname : list byte;
  sel_value : list byte;
  sel_def : WingNodeDef;
}.

Record RestoreOutcome := mk_restored { out_id : Z; out_fullname : list byte; restored : bool }.

Record RestoreReport := mk_report { attempted : nat; failed : list (Z * list byte) }.

(** Why a crawl stops early. *)
Inductive Halt := Panicked | Waiting.

(** ** Selectors *)

(** [wing.set_string]. *)
Definition set_string (id : Z) (value : list byte) : Read unit :=
  let! _ := ensure_stream_usable in
  let! buf := fallible (set_string_message id value) in
  write_all buf.

(** A call whose error is a value. *)
Definition attempt {A} (m : Read A) : M Session Stop (result Error A) := λ s,
  match m s with
  | (Ok a, s) => (Ok (Ok a), s)
  | (Err (Fail e), s) => (Ok (Err e), s)
  | (Err Blocked, s) => (Err Blocked, s)
  end.

Fixpoint data_loop (fuel : nat) (id : Z) (found : option WingNodeData) : Read (option WingNodeData) :=
  match fuel with
  | O => throw Blocked
  | S fuel =>
    let! r := attempt read in
    match r with
    | Err _ => ret None
    | Ok (WingResponses.NodeData rid data) => data_loop fuel id (if rid =? id then Some data else found)
    | Ok (WingResponses.NodeDef _) => data_loop fuel id found
    | Ok WingResponses.RequestEnd => ret found
    end
  end.

Definition read_node_data (id : Z) : Read (option WingNodeData) :=
  let! r := attempt (send_request (request_node_data id)) in
  match r with
  | Err _ => ret None
  | Ok _ => λ s, data_loop (S (work s)) id None s
  end.

(** [filter(|entry| seen.insert(entry.id))]. *)
Fixpoint plan_from (seen : gset Z) (snapshot : list SelectorSnapshot) : list SelectorSnapshot :=
  match snapshot with
  | [] => []
  | e :: snapshot =>
    if bool_decide (sel_id e ∈ seen) then plan_from seen snapshot
    else e :: plan_from ({[sel_id e]} ∪ seen) snapshot
  end.

Definition plan_restore (snapshot : list SelectorSnapshot) : list SelectorSnapshot := plan_from ∅ snapshot.

Definition selector_value (data : WingNodeData) (def : WingNodeDef) : list byte := display_string data def.

(** [None] for each of the two refusals. *)
Definition selector_snapshot (fullname : list byte) (def : WingNodeDef) (data : option WingNodeData)
    : option SelectorSnapshot :=
  data ← data;
  value ← (if bool_decide (def_node_type def = NodeTypes.StringEnum) then string_enum_item data def
           else Some (selector_value data def));
  Some (mk_selector (def_id def) fullname value def).

(** ** Restoring *)

Definition from_outcomes (outcomes : list RestoreOutcome) : RestoreReport :=
  mk_report (length outcomes)
    (map (λ o, (out_id o, out_fullname o)) (filter (λ o, restored o = false) outcomes)).

Definition is_degraded (r : RestoreReport) : bool := match failed r with [] => false | _ => true end.

Definition restore_outcome_from_readback (id : Z) (fullname expected : list byte)
    (write_result : result Error unit) (readback : option (list byte)) : RestoreOutcome :=
  mk_restored id fullname
    (match write_result with Ok _ => bool_decide (readback = Some expected) | Err _ => false end).

Definition restore_selector (e : SelectorSnapshot) : Read RestoreOutcome :=
  let! write_result := attempt (set_string (sel_id e) (sel_value e)) in
  let! readback :=
    match write_result with
    | Ok _ => let! data := read_node_data (sel_id e) in ret ((λ d, selector_value d (sel_def e)) <$> data)
    | Err _ => ret None
    end in
  ret (restore_outcome_from_readback (sel_id e) (sel_fullname e) (sel_value e) write_result readback).

Fixpoint restore_plan (plan : list SelectorSnapshot) : Read (list RestoreOutcome) :=
  match plan with
  | [] => ret []
  | e :: plan =>
    let! o := restore_selector e in
    let! os := restore_plan plan in
    ret (o :: os)
  end.

Definition restore_selectors (snapshot : list SelectorSnapshot) : Read RestoreReport :=
  let! outcomes := restore_plan (plan_restore snapshot) in
  ret (from_outcomes outcomes).

(** ** The walk *)

Section Walk.
Context {J : Jzon}.

Record Crawl := mk_crawl {
  console : Session;
  json_file : list Object;
  crawled_raw : list byte;
  snapshot : list SelectorSnapshot;
  file_calls : list bool;
}.

Abbreviation Crawling A := (M Crawl Halt A).

Definition set_console (s : Session) (c : Crawl) : Crawl :=
  mk_crawl s (json_file c) (crawled_raw c) (snapshot c) (file_calls c).

(** A call on the console: [m.unwrap()]. *)
Definition unwrap {A} (m : Read A) : Crawling A := λ c,
  match m (console c) with
  | (Ok a, s) => (Ok a, set_console s c)
  | (Err (Fail _), s) => (Err Panicked, set_console s c)
  | (Err Blocked, s) => (Err Waiting, set_console s c)
  end.

Fixpoint request_all (parents : list Z) : Read unit :=
  match parents with
  | [] => ret tt
  | parent :: parents =>
    let! _ := send_request (request_node_definition parent) in request_all parents
  end.

Fixpoint children_loop (fuel : nat) (parent : Z) (ret2 : list WingNodeDef) : Read (list WingNodeDef) :=
  match fuel with
  | O => throw Blocked
  | S fuel =>
    let! r := read in
    match r with
    | WingResponses.NodeData _ _ => children_loop fuel parent ret2
    | WingResponses.NodeDef def =>
      children_loop fuel parent (if def_parent_id def =? parent then ret2 ++ [def] else ret2)
    | WingResponses.RequestEnd => ret ret2
    end
  end.

Fixpoint collect_all (parents : list Z) : Read (list (list WingNodeDef)) :=
  match parents with
  | [] => ret []
  | parent :: parents =>
    let! ret2 := (λ s, children_loop (S (work s)) parent [] s) in
    let! rest := collect_all parents in
    ret (ret2 :: rest)
  end.

Definition get_node_def (parents : list Z) : Crawling (list (list WingNodeDef)) :=
  unwrap (let! _ := request_all parents in collect_all parents).

(** [parent_fullname + "/" + name], an unnamed node by its index. *)
Definition child_fullname (parent_fullname : list byte) (def : WingNodeDef) : list byte :=
  parent_fullname ++ [slash] ++ match def_name def with [] => decimal_fuel 5 (def_index def) | name => name end.

(** [writeln!(json_file, ..).unwrap()] and [push_entry]. *)
Definition emit_row (flag : byte) (fullname : list byte) (def : WingNodeDef) : Crawling unit := λ c,
  match file_calls c with
  | false :: later =>
    (Err Panicked, mk_crawl (console c) (json_file c) (crawled_raw c) (snapshot c) later)
  | _ =>
    (Ok tt, mk_crawl (console c) (json_file c ++ [sweep_row fullname def])
              (push_entry (crawled_raw c) flag fullname (def_raw def)) (snapshot c) (tail (file_calls c)))
  end.

Definition record (e : SelectorSnapshot) : Crawling unit :=
  modify (λ c, mk_crawl (console c) (json_file c) (crawled_raw c) (snapshot c ++ [e]) (file_calls c)).

Definition is_mdl (x : WingNodeDef) : bool :=
  bytes_eqb (def_name x) (str "mdl") && bool_decide (def_node_type x = NodeTypes.StringEnum).

(** [for (i, def) in nodes.iter().enumerate()], with the count. *)
Fixpoint each_node (visit : nat → WingNodeDef → nat → Crawling nat) (i : nat) (nodes : list WingNodeDef)
    (cnt : nat) : Crawling nat :=
  match nodes with
  | [] => ret cnt
  | def :: nodes => let! cnt := visit i def cnt in each_node visit (S i) nodes cnt
  end.

Fixpoint each_item (visit : StringEnumItem → nat → Crawling nat) (items : list StringEnumItem) (cnt : nat)
    : Crawling nat :=
  match items with
  | [] => ret cnt
  | item :: items => let! cnt := visit item cnt in each_item visit items cnt
  end.

(** Indexing and [unwrap] of an option. *)
Definition expect {A} (o : option A) : Crawling A :=
  match o with Some a => ret a | None => throw Panicked end.

(** What is done before a selector is first flipped. *)
Definition capture_selector (parent_fullname : list byte) (mdl_def : WingNodeDef) : Crawling unit :=
  let! data := unwrap (read_node_data (def_id mdl_def)) in
  let! captured := expect (selector_snapshot (parent_fullname ++ str "/mdl") mdl_def data) in
  record captured.

(** The recursive call. *)
Abbreviation Walk := (nat → list byte → list WingNodeDef → bool → Crawling nat).

(** One node: its row, its record, and what is below it. *)
Definition visit_child (walk : Walk) (parent_fullname : list byte) (children : list (list WingNodeDef))
    (flag : byte) (i : nat) (def : WingNodeDef) (cnt : nat) : Crawling nat :=
  let fullname := child_fullname parent_fullname def in
  let! _ := emit_row flag fullname def in
  let! below := expect (children !! i) in
  walk cnt fullname below false.

(** One model: the flip, and what is below it. *)
Definition visit_model (walk : Walk) (parent_fullname : list byte) (mdl_def : WingNodeDef)
    (item : StringEnumItem) (cnt : nat) : Crawling nat :=
  let! _ := unwrap (set_string (def_id mdl_def) (si_item item)) in
  let! children := get_node_def [def_parent_id mdl_def] in
  let! below := expect (children !! 0%nat) in
  walk cnt (parent_fullname ++ [slash] ++ si_item item) below true.

Fixpoint add (fuel : nat) (cnt : nat) (parent_fullname : list byte) (nodes : list WingNodeDef) (ignore : bool)
    : Crawling nat :=
  match fuel with
  | O => throw Waiting
  | S fuel =>
    match (if ignore then None else find_item is_mdl nodes) with
    | Some mdl_def =>
      let! children := get_node_def (map def_id nodes) in
      let! cnt := each_node (λ i def cnt,
        if negb (def_index def =? 0) then ret cnt
        else visit_child (add fuel) parent_fullname children (b8 0) i def cnt)
        0 nodes (cnt + length children)%nat in
      let! _ := capture_selector parent_fullname mdl_def in
      let! items := expect (def_string_enum mdl_def) in
      each_item (visit_model (add fuel) parent_fullname mdl_def) items cnt
    | None =>
      let! children := get_node_def (map def_id nodes) in
      each_node (λ i def cnt,
        if negb ignore || negb (def_index def =? 0)
        then visit_child (add fuel) parent_fullname children (if ignore then b8 (def_index def) else b8 0) i def cnt
        else ret cnt) 0 nodes (cnt + length children)%nat
    end
  end.

(** ** The tool *)

Record Finished := mk_finished {
  completed : bool;
  report : RestoreReport;
  published : option (list Object * list byte);
  exit_status : Z;
}.

(** [json_file.flush().unwrap()], [std::fs::read(..).unwrap()], [publish_outputs(..).unwrap()]. *)
Definition file_call : Crawling unit := λ c,
  (match file_calls c with false :: _ => Err Panicked | _ => Ok tt end,
   mk_crawl (console c) (json_file c) (crawled_raw c) (snapshot c) (tail (file_calls c))).

(** The outputs of a completed walk. *)
Definition publish_crawl (crawl_result : result Halt nat) : Crawling (option (list Object * list byte)) :=
  if is_ok crawl_result then
    let! _ := file_call in
    let! _ := file_call in
    let! raw := gets crawled_raw in
    let! json := gets json_file in
    let! bin := expect (write_propmap_bin raw) in
    let! _ := file_call in
    ret (Some (json, bin))
  else ret None.

(** What [main] does once the walk is over, whether it returned or panicked. *)
Definition finish_crawl (crawl_result : result Halt nat) : Crawling Finished := λ c,
  (let! report := unwrap (restore_selectors (snapshot c)) in
   let! published := publish_crawl crawl_result in
   ret (mk_finished (is_ok crawl_result) report published
          (if is_degraded report || negb (is_ok crawl_result) then 1 else 0))) c.

(** [main] from the first request on; the work left bounds the depth of the walk. *)
Definition crawl : Crawling Finished :=
  let! children := get_node_def [0] in
  let! root := expect (children !! 0%nat) in
  λ c,
  match add (S (work (console c))) 1 [] root false c with
  | (Err Waiting, c) => (Err Waiting, c)
  | (crawl_result, c) => finish_crawl crawl_result c
  end.
End Walk.

(** ** What a crawl does *)

Inductive Act :=
| KeptAlive
| Described (id : Z)
| Asked (id : Z)
| Assigned (id : Z) (value : list byte)
| Recorded (e : SelectorSnapshot)
| Emitted (flag : byte) (fullname : list byte) (def : WingNodeDef).

(** The bytes on the wire. *)
Definition act_wire (a : Act) : list byte :=
  match a with
  | KeptAlive => keep_alive_bytes
  | Described id => request_node_definition id
  | Asked id => request_node_data id
  | Assigned id value => match set_string_message id value with Ok m => m | Err _ => [] end
  | Recorded _ | Emitted _ _ _ => []
  end.

Definition wires (acts : list Act) : list byte := concat (map act_wire acts).

Definition recorded (a : Act) : option SelectorSnapshot := match a with Recorded e => Some e | _ => None end.
Definition assigned (a : Act) : option (Z * list byte) := match a with Assigned id v => Some (id, v) | _ => None end.

Definition emitted (a : Act) : option (byte * list byte * WingNodeDef) :=
  match a with Emitted f n d => Some (f, n, d) | _ => None end.

Lemma wires_app l1 l2 : wires (l1 ++ l2) = wires l1 ++ wires l2.
Proof. unfold wires. by rewrite map_app, concat_app. Qed.

(** A message that changes nothing on the console. *)
Definition harmless (a : Act) : Prop := match a with KeptAlive | Described _ | Asked _ => True | _ => False end.

(** The session sent these messages, all of a kind. *)
Definition says (P : Act → Prop) (s s' : Session) : Prop :=
  ∃ acts, sent s' = sent s ++ wires acts ∧ Forall P acts.

#[export] Instance says_preorder P : PreOrder (says P).
Proof.
  split; [intros s; exists []; by rewrite app_nil_r|].
  intros s1 s2 s3 (a1 & E1 & H1) (a2 & E2 & H2). exists (a1 ++ a2).
  rewrite E2, E1, wires_app, <- (assoc_L (++)). split; [done|]. by apply Forall_app.
Qed.

Lemma says_same P s s' : sent s' = sent s → says P s s'.
Proof. intros E. exists []. by rewrite E, app_nil_r. Qed.

Lemma says_weaken (P Q : Act → Prop) s s' : (∀ a, P a → Q a) → says P s s' → says Q s s'.
Proof. intros H (acts & E & Ha). exists acts. split; [done|]. by eapply list.Forall_impl. Qed.

(** A call says something of a kind whatever comes of it. *)
Abbreviation Says P m := (Preserves (λ _, True) (says P) m).

Lemma says_ret P {A} (a : A) : Says P (ret a).
Proof. apply (preserves_ret _ _). Qed.

Lemma says_throw P {A} (e : Stop) : Says P (throw (A := A) e).
Proof. apply (preserves_throw _ _). Qed.

Lemma says_gets P {A} (f : Session → A) : Says P (gets f).
Proof. apply (preserves_gets _ _). Qed.

Lemma says_bind P {A B} (m : Read A) (k : A → Read B) :
  Says P m → (∀ a, Says P (k a)) → Says P (bind m k).
Proof. apply (preserves_bind _ _). Qed.

Lemma says_modify P f : (∀ s, sent (f s) = sent s) → Says P (modify f).
Proof. intros Hf s. by apply says_same. Qed.

Lemma says_fallible P {A} (r : Result A) : Says P (fallible r).
Proof. intros s. destruct r; cbn; [|intros _]; by apply says_same. Qed.

Lemma says_load_reconnecting P : Says P load_reconnecting.
Proof. intros s. unfold load_reconnecting. destruct (look _). by apply says_same. Qed.

Lemma says_deadline_passed P : Says P deadline_passed.
Proof.
  intros s. unfold deadline_passed. destruct (op_deadline _) as [d|]; [destruct (look d)|]; by apply says_same.
Qed.

Lemma says_keep_alive due : Says harmless (keep_alive due).
Proof.
  intros s. destruct due as [[k|]|]; cbn; [intros _; by apply says_same| |by apply says_same].
  exists [KeptAlive]. split; [done|]. by repeat constructor.
Qed.

#[local] Hint Resolve says_fallible says_load_reconnecting says_deadline_passed says_keep_alive : says.

Ltac say := repeat first
  [ apply says_ret | apply says_throw | apply says_gets | (apply says_modify; done)
  | solve [auto with says] | apply says_bind; [|intros ?] | progress cbv beta zeta | case_match ].

Lemma says_refill : Says harmless refill.
Proof. unfold refill. say. Qed.

Lemma says_deliver_byte x : Says harmless (deliver_byte x).
Proof. unfold deliver_byte. say. Qed.

#[local] Hint Resolve says_refill says_deliver_byte : says.

Lemma says_decode_buffered b rest : Says harmless (decode_buffered b rest).
Proof. unfold decode_buffered. say. Qed.

#[local] Hint Resolve says_decode_buffered : says.

Lemma says_decode_turn : Says harmless decode_turn.
Proof. unfold decode_turn. say. Qed.

#[local] Hint Resolve says_decode_turn : says.

Lemma says_decode_loop fuel : Says harmless (decode_loop fuel).
Proof. induction fuel; cbn [decode_loop]; say. Qed.

Lemma says_next_byte : Says harmless (next_byte (S := Session)).
Proof.
  cbn [next_byte session_source]. unfold decode_next. apply says_bind; [|intros; say].
  apply says_bind; [|intros; say]. intros s. apply says_decode_loop.
Qed.

Lemma says_read : Says harmless read.
Proof.
  unfold read, read_locked. apply says_bind; [say|]. intros []; [say|].
  apply says_bind; [say|]. intros []; [say|]. apply says_bind; [say|]. intros m.
  destruct (pending m) as [|r rest]; [|say]. intros s.
  pose proof (preserves_read_inner (λ _, True) (says harmless) says_next_byte
    (λ i s, says_same harmless s (set_current_node i s) eq_refl) (on_main (set_read_capture []) s)) as H.
  assert (∀ k s1, says harmless (on_main (set_read_capture []) s) s1 →
    match (let! flagged := load_reconnecting in throw (A := WingResponse) (Fail (if flagged : bool then Reconnecting else k))) s1 with
    | (Ok _, s') => says harmless s s' | (Err _, s') => True → says harmless s s' end) as Hl.
  { intros k s1 H1. pose proof (says_load_reconnecting harmless s1) as H2. unfold bind.
    destruct (load_reconnecting s1) as [[b|e] s2]; intros _; (etransitivity; [exact H1|by apply H2]). }
  destruct (read_inner (on_main (set_read_capture []) s)) as [[r|[e|]] s1]; cbn [finish_read].
  - exact H.
  - specialize (H I). destruct e; cbn [severed]; try (intros _; exact H); by apply Hl.
  - exact H.
Qed.

(** ** Lemmas: what the calls on the console say *)

Lemma write_all_sent buf s :
  match write_all buf s with
  | (Ok _, s') => sent s' = sent s ++ buf
  | (Err _, s') => sent s' = sent s
  end.
Proof. unfold write_all. by destruct (write_results s) as [|[k|] later]. Qed.

Lemma send_request_sent buf s :
  match send_request buf s with
  | (Ok _, s') => sent s' = sent s ++ buf
  | (Err _, s') => sent s' = sent s
  end.
Proof.
  unfold send_request, ensure_stream_usable, bind, gets. cbv beta iota.
  destruct (stream_tainted s); [done|]. apply write_all_sent.
Qed.

Lemma says_send_request P a : P a → Says P (send_request (act_wire a)).
Proof.
  intros Ha s. pose proof (send_request_sent (act_wire a) s) as H. destruct (send_request _ s) as [[[]|e] s'].
  - exists [a]. unfold wires. cbn. rewrite app_nil_r. split; [done|]. by apply Forall_singleton.
  - intros _. by apply says_same.
Qed.

Lemma says_attempt P {A} (m : Read A) : Says P m → Says P (attempt m).
Proof. intros Hm s. specialize (Hm s). unfold attempt. destruct (m s) as [[a|[e|]] s']; auto. Qed.

#[local] Hint Resolve says_read says_attempt : says.

Lemma says_data_loop fuel id found : Says harmless (data_loop fuel id found).
Proof. revert found. induction fuel; intros found; cbn [data_loop]; say. Qed.

Lemma says_read_node_data id : Says harmless (read_node_data id).
Proof.
  unfold read_node_data. apply says_bind; [apply says_attempt, (says_send_request _ (Asked id) I)|].
  intros [[]|e]; [intros s; apply says_data_loop|say].
Qed.

Lemma says_children_loop fuel parent ret2 : Says harmless (children_loop fuel parent ret2).
Proof. revert ret2. induction fuel; intros ret2; cbn [children_loop]; say. Qed.

Lemma says_request_all parents : Says harmless (request_all parents).
Proof.
  induction parents as [|id parents IH]; cbn [request_all]; [say|].
  apply says_bind; [apply (says_send_request _ (Described id) I)|by intros _].
Qed.

Lemma says_collect_all parents : Says harmless (collect_all parents).
Proof.
  induction parents as [|id parents IH]; cbn [collect_all]; [say|].
  apply says_bind; [intros s; apply says_children_loop|]. intros l. apply says_bind; [done|]. intros rest. say.
Qed.

(** An assignment is sent whole or not at all. *)
Lemma set_string_sent id v s :
  match set_string id v s with
  | (Ok _, s') => sent s' = sent s ++ act_wire (Assigned id v)
  | (Err _, s') => sent s' = sent s
  end.
Proof.
  unfold set_string, ensure_stream_usable, bind, gets. cbv beta iota.
  destruct (stream_tainted s); [done|]. cbn [ret act_wire]. destruct (set_string_message id v); [|done].
  apply write_all_sent.
Qed.

(** ** Lemmas: what they take from the console *)

Section Safe.
Context {J : Jzon} (D : list WingResponse) (W : nat).

(** A usable session, with [D] the responses from the start of the crawl and at most [W]
    work left. *)
Definition along (s : Session) : Prop := session_ok s ∧ (∃ taken, D = taken ++ deliver s) ∧ (work s ≤ W)%nat.

(** A call that returns does so in such a session, having taken only from [D]. *)
Definition Draws {A} (m : Read A) (Q : A → Prop) : Prop :=
  ∀ s, along s → match m s with (Ok a, s') => along s' ∧ Q a | (Err _, _) => True end.

Lemma draws_ret {A} (a : A) (Q : A → Prop) : Q a → Draws (ret a) Q.
Proof. by intros HQ s Hs. Qed.

Lemma draws_bind {A B} (m : Read A) (k : A → Read B) P Q :
  Draws m P → (∀ a, P a → Draws (k a) Q) → Draws (bind m k) Q.
Proof.
  intros Hm Hk s Hs. specialize (Hm s Hs). unfold bind. destruct (m s) as [[a|e] s1]; [|done].
  destruct Hm as [Hs1 HP]. by apply Hk.
Qed.

Lemma draws_read : Draws read (λ r, r ∈ D).
Proof.
  intros s (Hs & [taken Ht] & Hw). pose proof (read_locked_ok s Hs) as H. unfold read.
  destruct (read_locked s) as [[r|e] s'] eqn:Er; [|done]. pose proof (read_locked_less _ _ _ Hs Er). destruct H as [[Hs' Hd] _].
  assert (D = (taken ++ [r]) ++ deliver s') as E by (by rewrite Ht, Hd, <- (assoc_L (++))).
  split; [split; [done|split; [by eexists|lia]]|]. rewrite E. set_solver.
Qed.

Lemma along_same s s' : main s' = main s → script s' = script s → along s → along s'.
Proof.
  intros H1 H2 (Hs & [taken Ht] & Hw). destruct (same_main_session s s' H1 H2) as (Hd & _ & Hok).
  split; [by apply Hok|]. split; [exists taken; by rewrite Hd|].
  rewrite work_eq in *. unfold backlog in *. by rewrite H1, H2.
Qed.

Lemma draws_send_request buf : Draws (send_request buf) (λ _, True).
Proof.
  intros s Hs. pose proof (send_request_session buf s) as H. destruct (send_request buf s) as [[[]|e] s']; [|done].
  destruct H as (H1 & H2 & _). split; [|done]. by apply (along_same s).
Qed.

Lemma draws_set_string id v : Draws (set_string id v) (λ _, True).
Proof.
  intros s Hs. pose proof (send_request_session (act_wire (Assigned id v)) s) as H.
  unfold set_string, send_request, ensure_stream_usable, bind, gets in *. cbv beta iota in *.
  destruct (stream_tainted s); [done|]. cbn [ret act_wire] in *. destruct (set_string_message id v); [|done]. cbn in *.
  destruct (write_all a s) as [[[]|e] s']; [|done]. destruct H as (H1 & H2 & _). split; [|done]. by apply (along_same s).
Qed.

Lemma draws_children_loop fuel parent ret2 : Draws (children_loop fuel parent ret2) (λ _, True).
Proof.
  revert ret2. induction fuel as [|fuel IH]; intros ret2; [by intros s Hs|]. cbn [children_loop].
  eapply draws_bind; [apply draws_read|]. intros [] _; auto using draws_ret.
Qed.

Lemma draws_request_all parents : Draws (request_all parents) (λ _, True).
Proof.
  induction parents; cbn [request_all]; [by apply draws_ret|].
  eapply draws_bind; [apply draws_send_request|]. auto.
Qed.

Lemma draws_collect_all parents : Draws (collect_all parents) (λ l, length l = length parents).
Proof.
  induction parents as [|id parents IH]; cbn [collect_all]; [by apply draws_ret|].
  eapply draws_bind; [intros s Hs; by apply draws_children_loop|]. intros l _.
  eapply draws_bind; [apply IH|]. intros rest Hr. apply draws_ret. simpl. by rewrite Hr.
Qed.

(** What [read_node_data] finds came from the console; finding nothing says nothing. *)
Lemma data_loop_draws fuel id found s :
  along s → (∀ d, found = Some d → WingResponses.NodeData id d ∈ D) →
  match data_loop fuel id found s with
  | (Ok (Some d), s') => along s' ∧ WingResponses.NodeData id d ∈ D
  | _ => True
  end.
Proof.
  revert found s. induction fuel as [|fuel IH]; intros found s Hs Hf; [done|]. cbn [data_loop].
  pose proof (draws_read s Hs) as H. unfold bind, attempt. destruct (read s) as [[r|[e|]] s1]; [|done..].
  destruct H as [Hs1 Hr]. destruct r as [|def|rid data]; cbn.
  - by destruct found; [split; [|apply Hf]|].
  - by apply IH.
  - apply IH; [done|]. destruct (Z.eqb_spec rid id) as [->|]; [|done]. by intros d [= ->].
Qed.

Lemma read_node_data_draws id s :
  along s →
  match read_node_data id s with
  | (Ok (Some d), s') => along s' ∧ WingResponses.NodeData id d ∈ D
  | _ => True
  end.
Proof.
  intros Hs. unfold read_node_data, bind, attempt. pose proof (draws_send_request (request_node_data id) s Hs) as H.
  destruct (send_request (request_node_data id) s) as [[[]|[e|]] s1]; [|done..].
  destruct H as [Hs1 _]. by apply data_loop_draws.
Qed.

(** ** Every flip is covered *)

(** The value recorded for a selector is one the console gave for it, by the name its
    definition gives it. *)
Definition read_from (e : SelectorSnapshot) : Prop :=
  sel_id e = def_id (sel_def e) ∧ def_node_type (sel_def e) = NodeTypes.StringEnum ∧
  ∃ data, WingResponses.NodeData (sel_id e) data ∈ D ∧ string_enum_item data (sel_def e) = Some (sel_value e).

(** A selector is only flipped once it is recorded, and only to one of its own models. *)
Definition act_ok (known : list SelectorSnapshot) (a : Act) : Prop :=
  match a with
  | Assigned id v =>
    ∃ e items, e ∈ known ∧ sel_id e = id ∧ def_string_enum (sel_def e) = Some items ∧ v ∈ map si_item items
  | Recorded e => read_from e
  | _ => True
  end.

Fixpoint covered (known : list SelectorSnapshot) (acts : list Act) : Prop :=
  match acts with
  | [] => True
  | a :: acts => act_ok known a ∧ covered (known ++ option_list (recorded a)) acts
  end.

Lemma covered_app known l1 l2 :
  covered known (l1 ++ l2) ↔ covered known l1 ∧ covered (known ++ omap recorded l1) l2.
Proof.
  revert known. induction l1 as [|a l1 IH]; intros known; cbn [app covered].
  { change (omap recorded []) with (@nil SelectorSnapshot). rewrite app_nil_r. tauto. }
  rewrite IH. change (omap recorded (a :: l1)) with (match recorded a with Some e => e :: omap recorded l1 | None => omap recorded l1 end).
  destruct (recorded a); cbn [option_list]; rewrite <- (assoc_L (++)); [|rewrite app_nil_l]; tauto.
Qed.

Lemma harmless_covered known acts : Forall harmless acts → covered known acts ∧ omap recorded acts = [] ∧ omap emitted acts = [].
Proof.
  intros H. revert known. induction H as [|a acts Ha H IH]; intros known; [done|].
  destruct (IH known) as (H1 & H2 & H3). destruct a; try done; cbn; rewrite ?app_nil_r; auto.
Qed.

Definition emitted_row (x : byte * list byte * WingNodeDef) : Object := sweep_row x.1.2 x.2.
Definition emitted_entry (x : byte * list byte * WingNodeDef) : Entry := mk_swept x.1.1 x.1.2 (def_raw x.2).

(** The acts account for the crawl's four outputs. *)
Record follows (acts : list Act) (c c' : Crawl) : Prop := {
  follows_sent : sent (console c') = sent (console c) ++ wires acts;
  follows_snapshot : snapshot c' = snapshot c ++ omap recorded acts;
  follows_json : json_file c' = json_file c ++ map emitted_row (omap emitted acts);
  follows_raw : crawled_raw c' = crawled_raw c ++ records_bytes (map emitted_entry (omap emitted acts));
}.

Lemma follows_nil c c' :
  sent (console c') = sent (console c) → snapshot c' = snapshot c → json_file c' = json_file c →
  crawled_raw c' = crawled_raw c → follows [] c c'.
Proof. intros. by split; rewrite app_nil_r. Qed.

Lemma follows_trans l1 l2 c1 c2 c3 : follows l1 c1 c2 → follows l2 c2 c3 → follows (l1 ++ l2) c1 c3.
Proof.
  intros [] []. split.
  - by rewrite follows_sent1, follows_sent0, wires_app, (assoc_L (++)).
  - by rewrite follows_snapshot1, follows_snapshot0, omap_app, (assoc_L (++)).
  - by rewrite follows_json1, follows_json0, omap_app, map_app, (assoc_L (++)).
  - rewrite follows_raw1, follows_raw0, omap_app, map_app. unfold records_bytes.
    by rewrite map_app, concat_app, (assoc_L (++)).
Qed.

(** With the selectors [K] recorded, [m] only does what is covered, whatever comes of it. *)
Definition Safe (K : list SelectorSnapshot) {A} (m : M Crawl Halt A) (Q : A → Prop) : Prop :=
  ∀ c, along (console c) → K ⊆ snapshot c →
  ∃ acts, follows acts c (m c).2 ∧ covered (snapshot c) acts ∧
    match m c with (Ok a, c') => along (console c') ∧ Q a | (Err _, _) => True end.

Lemma safe_ret K {A} (a : A) (Q : A → Prop) : Q a → Safe K (ret a) Q.
Proof. intros HQ c Hc _. exists []. by split; [apply follows_nil|]. Qed.

Lemma safe_throw K {A} e (Q : A → Prop) : Safe K (throw e) Q.
Proof. intros c Hc _. exists []. by split; [apply follows_nil|]. Qed.

Lemma safe_bind K {A B} (m : M Crawl Halt A) (k : A → M Crawl Halt B) P Q :
  Safe K m P → (∀ a, P a → Safe K (k a) Q) → Safe K (bind m k) Q.
Proof.
  intros Hm Hk c Hc HK. destruct (Hm c Hc HK) as (l1 & F1 & C1 & H1). unfold bind.
  destruct (m c) as [[a|e] c1]; [|by exists l1]. destruct H1 as [Hc1 HP]. cbn [snd] in F1.
  assert (K ⊆ snapshot c1) as HK1 by (rewrite (follows_snapshot _ _ _ F1); set_solver).
  destruct (Hk a HP c1 Hc1 HK1) as (l2 & F2 & C2 & H2). exists (l1 ++ l2).
  split; [by eapply follows_trans|]. split; [|done]. apply covered_app. split; [done|].
  by rewrite <- (follows_snapshot _ _ _ F1).
Qed.

Lemma safe_weaken K {A} (m : M Crawl Halt A) (P Q : A → Prop) : (∀ a, P a → Q a) → Safe K m P → Safe K m Q.
Proof.
  intros H Hm c Hc HK. destruct (Hm c Hc HK) as (acts & F & C & Hr). exists acts. split; [done|]. split; [done|].
  destruct (m c) as [[a|e] c1]; [|done]. destruct Hr. auto.
Qed.

Lemma safe_known K {A} (m : M Crawl Halt A) Q : Safe [] m Q → Safe K m Q.
Proof. intros Hm c Hc _. apply Hm; [done|]. set_solver. Qed.

Lemma safe_expect K {A} (o : option A) : Safe K (expect o) (λ a, o = Some a).
Proof. destruct o; [by apply safe_ret|apply safe_throw]. Qed.

(** A read. *)
Lemma safe_unwrap K {A} (m : Read A) Q : Says harmless m → Draws m Q → Safe K (unwrap m) Q.
Proof.
  intros Hs Hd c Hc _. specialize (Hs (console c)). specialize (Hd (console c) Hc). unfold unwrap.
  assert (∀ s', says harmless (console c) s' → ∃ acts, follows acts c (set_console s' c) ∧ covered (snapshot c) acts) as H.
  { intros s' (acts & E & Ha). destruct (harmless_covered (snapshot c) acts Ha) as (H1 & H2 & H3).
    exists acts. split; [|done]. split; cbn; rewrite ?H2, ?H3, ?app_nil_r; done. }
  destruct (m (console c)) as [[a|[e|]] s']; [destruct (H s' Hs) as (acts & F & C)
    |destruct (H s' (Hs I)) as (acts & F & C)..]; exists acts; (split; [exact F|]); (split; [exact C|]); done.
Qed.

(** A flip of a recorded selector. *)
Lemma safe_set_string e items item :
  def_string_enum (sel_def e) = Some items → item ∈ items →
  Safe [e] (unwrap (set_string (sel_id e) (si_item item))) (λ _, True).
Proof.
  intros He Hin c Hc HK. pose proof (set_string_sent (sel_id e) (si_item item) (console c)) as Hs.
  pose proof (draws_set_string (sel_id e) (si_item item) (console c) Hc) as Hd. unfold unwrap.
  assert (∀ s', sent s' = sent (console c) → follows [] c (set_console s' c)) as Hnil
    by (intros s' E; by apply follows_nil).
  destruct (set_string _ _ (console c)) as [[[]|[k|]] s']; [|exists []; (split; [by apply Hnil|done])..].
  exists [Assigned (sel_id e) (si_item item)]. split; [|split; [|done]].
  - split; cbn [console set_console snapshot json_file crawled_raw]; rewrite ?app_nil_r; try done.
    unfold wires. cbn [map concat]. by rewrite app_nil_r.
  - split; [|done]. exists e, items. split; [set_solver|]. split; [done|]. split; [done|].
    by apply (list_elem_of_fmap_2 si_item).
Qed.

Lemma safe_emit K flag fullname def : Safe K (emit_row flag fullname def) (λ _, True).
Proof.
  intros c Hc _. unfold emit_row. destruct (file_calls c) as [|[] later]; [|
    |exists []; by split; [apply follows_nil|]];
    (exists [Emitted flag fullname def]; split; [|done]);
    (split; cbn [fst snd console snapshot json_file crawled_raw omap list_omap emitted recorded map]; [by rewrite app_nil_r..| |]);
    try done; unfold records_bytes; cbn [map concat]; by rewrite app_nil_r.
Qed.

(** Recording a selector before it is flipped. *)
Lemma safe_capture parent_fullname mdl_def {B} (k : unit → M Crawl Halt B) Q :
  def_node_type mdl_def = NodeTypes.StringEnum →
  (∀ e, sel_def e = mdl_def → sel_id e = def_id mdl_def → Safe [e] (k tt) Q) →
  Safe [] (bind (capture_selector parent_fullname mdl_def) k) Q.
Proof.
  intros Ht Hk c Hc _. pose proof (says_read_node_data (def_id mdl_def) (console c)) as Hs.
  pose proof (read_node_data_draws (def_id mdl_def) (console c) Hc) as Hd.
  unfold capture_selector, bind, unwrap, expect.
  assert (∀ s', says harmless (console c) s' → ∃ acts, follows acts c (set_console s' c) ∧ covered (snapshot c) acts
    ∧ omap recorded acts = []) as H.
  { intros s' (acts & E & Ha). destruct (harmless_covered (snapshot c) acts Ha) as (H1 & H2 & H3).
    exists acts. split; [|done]. split; cbn; rewrite ?H2, ?H3, ?app_nil_r; done. }
  destruct (read_node_data (def_id mdl_def) (console c)) as [[found|[e|]] s'];
    [destruct (H s' Hs) as (acts & F & C & R)|destruct (H s' (Hs I)) as (acts & F & C & _)..];
    [|by exists acts..].
  destruct found as [data|]; [|by exists acts]. destruct Hd as [Hs' Hin].
  unfold selector_snapshot. cbn [mbind option_bind]. rewrite bool_decide_eq_true_2 by done.
  destruct (string_enum_item data mdl_def) as [value|] eqn:Ev; cbn [mbind option_bind]; [|by exists acts].
  set (e := mk_selector (def_id mdl_def) (parent_fullname ++ str "/mdl") value mdl_def).
  cbn [ret record modify]. set (c2 := mk_crawl _ _ _ _ _).
  assert (follows (acts ++ [Recorded e]) c c2) as F2.
  { eapply follows_trans; [exact F|]. split; unfold wires; cbn; by rewrite ?app_nil_r. }
  destruct (Hk e eq_refl eq_refl c2 Hs') as (l2 & F3 & C3 & H3); [set_solver|].
  exists ((acts ++ [Recorded e]) ++ l2). split; [by eapply follows_trans|]. split; [|done].
  apply covered_app. split; [|by rewrite <- (follows_snapshot _ _ _ F2)].
  apply covered_app. split; [done|]. split; [|done]. split; [done|]. split; [done|]. by exists data.
Qed.

Lemma safe_get_node_def K parents : Safe K (get_node_def parents) (λ _, True).
Proof.
  apply safe_unwrap.
  - apply says_bind; [apply says_request_all|]. intros _. apply says_collect_all.
  - eapply draws_bind; [apply draws_request_all|]. intros _ _ s Hs. pose proof (draws_collect_all parents s Hs) as H.
    destruct (collect_all parents s) as [[l|e] s']; [|done]. by destruct H.
Qed.

Lemma safe_each_node K visit i nodes cnt :
  (∀ i def cnt, Safe K (visit i def cnt) (λ _, True)) → Safe K (each_node visit i nodes cnt) (λ _, True).
Proof.
  intros Hv. revert i cnt. induction nodes as [|def nodes IH]; intros i cnt; cbn [each_node]; [by apply safe_ret|].
  eapply safe_bind; [apply Hv|]. auto.
Qed.

Lemma safe_each_item K visit items cnt :
  (∀ item cnt, item ∈ items → Safe K (visit item cnt) (λ _, True)) → Safe K (each_item visit items cnt) (λ _, True).
Proof.
  revert cnt. induction items as [|item items IH]; intros cnt Hv; cbn [each_item]; [by apply safe_ret|].
  eapply safe_bind; [apply Hv; left|]. intros cnt' _. apply IH. intros it n Hin. apply Hv. by right.
Qed.

Lemma is_mdl_enum nodes mdl_def : find_item is_mdl nodes = Some mdl_def → def_node_type mdl_def = NodeTypes.StringEnum.
Proof.
  intros [_ Hp]%find_item_Some. unfold is_mdl in Hp. apply andb_true_iff in Hp as [_ Hp]. by apply bool_decide_eq_true in Hp.
Qed.

(** The recursive call, if it is safe. *)
Abbreviation safe_walk K walk := (∀ cnt p nodes ignore, Safe K (walk cnt p nodes ignore : M Crawl Halt nat) (λ _, True)).

Lemma safe_visit_child K walk parent_fullname children flag i def cnt :
  safe_walk K walk → Safe K (visit_child walk parent_fullname children flag i def cnt) (λ _, True).
Proof.
  intros Hw. eapply safe_bind; [apply safe_emit|]. intros _ _. eapply safe_bind; [apply safe_expect|]. auto.
Qed.

Lemma safe_visit_model walk parent_fullname e items item cnt :
  safe_walk [e] walk → sel_id e = def_id (sel_def e) → def_string_enum (sel_def e) = Some items → item ∈ items →
  Safe [e] (visit_model walk parent_fullname (sel_def e) item cnt) (λ _, True).
Proof.
  intros Hw Hid Hi Hin. unfold visit_model. rewrite <- Hid. eapply safe_bind; [by eapply safe_set_string|].
  intros _ _. eapply safe_bind; [apply safe_get_node_def|]. intros children _.
  eapply safe_bind; [apply safe_expect|]. auto.
Qed.

(** The whole walk. *)
Lemma safe_add fuel cnt parent_fullname nodes ignore : Safe [] (add fuel cnt parent_fullname nodes ignore) (λ _, True).
Proof.
  revert cnt parent_fullname nodes ignore.
  induction fuel as [|fuel IH]; intros cnt parent_fullname nodes ignore; [apply safe_throw|]. cbn [add].
  destruct (if ignore then None else find_item is_mdl nodes) as [mdl_def|] eqn:Em;
    (eapply safe_bind; [apply safe_get_node_def|]; intros children _).
  - assert (def_node_type mdl_def = NodeTypes.StringEnum) as Ht
      by (destruct ignore; [done|by eapply is_mdl_enum]).
    eapply safe_bind.
    { apply safe_each_node. intros i def n. destruct (negb _); [by apply safe_ret|by apply safe_visit_child]. }
    intros n _. apply safe_capture; [done|]. intros e <- Hid.
    eapply safe_bind; [apply safe_expect|]. intros items Hitems. apply safe_each_item. intros item m Hin.
    apply (safe_visit_model _ _ _ items); try done. intros. apply safe_known, IH.
  - apply safe_each_node. intros i def n. destruct (_ || _); [by apply safe_visit_child|by apply safe_ret].
Qed.

(** ** Restoring *)

Lemma read_node_data_blocked id s x s' : read_node_data id s = (Err x, s') → x = Blocked.
Proof.
  assert (∀ fuel found s, data_loop fuel id found s = (Err x, s') → x = Blocked) as Hl.
  { induction fuel as [|fuel IH]; intros found s1; [by intros [= <- <-]|]. cbn [data_loop].
    unfold bind, attempt. destruct (read s1) as [[[]|[e|]] s2]; cbn [ret]; first [apply IH|by intros [= <- <-]|done]. }
  unfold read_node_data, bind, attempt. destruct (send_request _ s) as [[[]|[e|]] s1]; [apply Hl|done|].
  by intros [= <- <-].
Qed.

Definition target (e : SelectorSnapshot) : Z * list byte := (sel_id e, sel_value e).

(** A restore of [plan] sends at most its assignments, in order, among harmless messages. *)
Record restoring (plan : list SelectorSnapshot) (acts : list Act) (s s' : Session) : Prop := {
  restoring_sent : sent s' = sent s ++ wires acts;
  restoring_targets : omap assigned acts `sublist_of` map target plan;
  restoring_kinds : Forall (λ a, harmless a ∨ ∃ e, e ∈ plan ∧ a = Assigned (sel_id e) (sel_value e)) acts;
}.

Lemma restoring_nil plan s s' : sent s' = sent s → restoring plan [] s s'.
Proof. intros E. split; [by rewrite E, app_nil_r|apply sublist_nil_l|done]. Qed.

Lemma restoring_harmless plan acts s s' : sent s' = sent s ++ wires acts → Forall harmless acts → restoring plan acts s s'.
Proof.
  intros E Ha. split; [done| |by eapply list.Forall_impl; [|intros a; left]].
  assert (omap assigned acts = []) as -> by (clear -Ha; induction Ha as [|a acts H]; [done|by destruct a]).
  apply sublist_nil_l.
Qed.

Lemma restoring_app p1 p2 l1 l2 s1 s2 s3 :
  restoring p1 l1 s1 s2 → restoring p2 l2 s2 s3 → restoring (p1 ++ p2) (l1 ++ l2) s1 s3.
Proof.
  intros [] []. split.
  - by rewrite restoring_sent1, restoring_sent0, wires_app, (assoc_L (++)).
  - rewrite omap_app, map_app. by apply sublist_app.
  - apply Forall_app. split; (eapply list.Forall_impl; [eassumption|]); intros a [?|(e & ? & ?)]; auto; right;
      exists e; split; try done; apply elem_of_app; auto.
Qed.

(** One selector: what is sent, and what the outcome means. *)
Lemma restore_selector_spec e s :
  ∃ acts, restoring [e] acts s (restore_selector e s).2 ∧
  match restore_selector e s with
  | (Ok o, s') =>
      out_id o = sel_id e ∧ out_fullname o = sel_fullname e ∧
      (restored o = true ↔ ∃ s1 s2 data, set_string (sel_id e) (sel_value e) s = (Ok tt, s1) ∧
         read_node_data (sel_id e) s1 = (Ok (Some data), s2) ∧ display_string data (sel_def e) = sel_value e) ∧
      (restored o = true → target e ∈ omap assigned acts)
  | (Err x, _) => x = Blocked
  end.
Proof.
  unfold restore_selector, bind, attempt. pose proof (set_string_sent (sel_id e) (sel_value e) s) as Hs.
  destruct (set_string (sel_id e) (sel_value e) s) as [[[]|[k|]] s1].
  - assert (restoring [e] [Assigned (sel_id e) (sel_value e)] s s1) as H1.
    { split; [unfold wires; cbn [map concat]; by rewrite app_nil_r|done|]. apply Forall_singleton. right. exists e.
      by split; [left|]. }
    assert (∀ s2, says harmless s1 s2 → ∃ acts, restoring [e] acts s s2 ∧ target e ∈ omap assigned acts) as H2.
    { intros s2 (acts & E & Ha). exists ([Assigned (sel_id e) (sel_value e)] ++ acts).
      split; [|rewrite omap_app; left]. change [e] with ([e] ++ []).
      eapply restoring_app; [exact H1|]. by apply restoring_harmless. }
    pose proof (says_read_node_data (sel_id e) s1) as Hr.
    destruct (read_node_data (sel_id e) s1) as [[found|x] s2] eqn:Er.
    + destruct (H2 s2 Hr) as (acts & Ha & Ht). exists acts. split; [exact Ha|]. cbn [ret].
      split_and!; [done|done| |done].
      cbn [restored restore_outcome_from_readback]. rewrite bool_decide_eq_true. split.
      * destruct found as [data|]; [|done]. intros [= H]. by exists s1, s2, data.
      * intros (s1' & s2' & data & [= <-] & E' & H). rewrite Er in E'. injection E' as -> <-. by rewrite <- H.
    + destruct (H2 s2 (Hr I)) as (acts & Ha & Ht). exists acts. split; [exact Ha|]. by eapply read_node_data_blocked.
  - exists []. split; [by apply restoring_nil|]. cbn. split_and!; try done. split; [done|]. by intros (? & ? & ? & [=] & _).
  - exists []. split; [by apply restoring_nil|done].
Qed.

(** The selectors confirmed: written, and read back as recorded, at their turn. *)
Definition confirmed (plan : list SelectorSnapshot) (s : Session) (i : nat) (e : SelectorSnapshot) : Prop :=
  ∃ outs s1 s2 s3 data, restore_plan (take i plan) s = (Ok outs, s1) ∧
    set_string (sel_id e) (sel_value e) s1 = (Ok tt, s2) ∧
    read_node_data (sel_id e) s2 = (Ok (Some data), s3) ∧ display_string data (sel_def e) = sel_value e.

Lemma confirmed_cons e0 o0 plan s s1 i e :
  restore_selector e0 s = (Ok o0, s1) → confirmed (e0 :: plan) s (S i) e ↔ confirmed plan s1 i e.
Proof.
  intros E. unfold confirmed. cbn [take restore_plan]. unfold bind at 1. rewrite E. split.
  - intros (outs & s2 & s3 & s4 & data & H & ?). unfold bind in H.
    destruct (restore_plan (take i plan) s1) as [[os|x] s5]; [|done]. injection H as <- <-. by exists os, s5, s3, s4, data.
  - intros (outs & s2 & s3 & s4 & data & H & ?). exists (o0 :: outs), s2, s3, s4, data. unfold bind. by rewrite H.
Qed.

Lemma restore_plan_spec plan s :
  ∃ acts, restoring plan acts s (restore_plan plan s).2 ∧
  match restore_plan plan s with
  | (Ok os, s') =>
      map (λ o, (out_id o, out_fullname o)) os = map (λ e, (sel_id e, sel_fullname e)) plan ∧
      ∀ i e o, plan !! i = Some e → os !! i = Some o →
        (restored o = true ↔ confirmed plan s i e) ∧ (restored o = true → target e ∈ omap assigned acts)
  | (Err x, s') => x = Blocked
  end.
Proof.
  revert s. induction plan as [|e plan IH]; intros s.
  { exists []. split; [by apply restoring_nil|]. split; [done|]. intros i e o H. by rewrite lookup_nil in H. }
  cbn [restore_plan]. unfold bind at 1 3. destruct (restore_selector_spec e s) as (l1 & R1 & H1).
  destruct (restore_selector e s) as [[o|x] s1] eqn:E; cbn [snd] in R1.
  2:{ exists l1. split; [|done]. cbn [snd]. rewrite <- (app_nil_r l1). change (e :: plan) with ([e] ++ plan).
      eapply restoring_app; [exact R1|by apply restoring_nil]. }
  destruct (IH s1) as (l2 & R2 & H2). exists (l1 ++ l2). unfold bind.
  destruct (restore_plan plan s1) as [[os|x] s2]; (split; [change (e :: plan) with ([e] ++ plan); by eapply restoring_app|]); [|done].
  destruct H1 as (Hid & Hn & Hok & Ht), H2 as (Hm & Hi). cbn [ret map]. split; [by rewrite Hid, Hn, Hm|].
  intros [|i] e' o' He Ho; cbn in He, Ho; rewrite omap_app.
  - injection He as <-. injection Ho as <-. split; [|intros; apply elem_of_app; left; auto].
    rewrite Hok. unfold confirmed. cbn [take restore_plan ret]. split.
    + intros (t1 & t2 & data & ?). by exists [], s, t1, t2, data.
    + intros (outs & t0 & t1 & t2 & data & [= <- <-] & ?). by exists t1, t2, data.
  - destruct (Hi i e' o' He Ho) as [Hc Hin]. rewrite (confirmed_cons e o plan s s1 i e' E).
    split; [done|]. intros. apply elem_of_app. auto.
Qed.

(** ** The plan *)

Lemma plan_from_spec seen l :
  NoDup (map sel_id (plan_from seen l)) ∧
  ∀ e, e ∈ plan_from seen l ↔
    sel_id e ∉ seen ∧ ∃ pre post, l = pre ++ e :: post ∧ Forall (λ e', sel_id e' ≠ sel_id e) pre.
Proof.
  revert seen. induction l as [|x l IH]; intros seen; cbn [plan_from].
  { split; [apply NoDup_nil_2|]. intros e. split; [by intros ?%not_elem_of_nil|]. by intros (_ & [] & post & [=] & _). }
  destruct (IH seen) as [Hn1 He1], (IH ({[sel_id x]} ∪ seen)) as [Hn2 He2]. case_bool_decide as Hx.
  - split; [done|]. intros e. rewrite He1. split; intros (Hs & pre & post & E & Hp); (split; [done|]).
    + exists (x :: pre), post. rewrite E. split; [done|]. constructor; [|done]. by intros Hex; rewrite Hex in Hx.
    + destruct pre as [|y pre]; injection E as -> E; [by destruct Hs|]. apply Forall_cons_iff in Hp as [_ Hp]. eauto.
  - split.
    + cbn [map]. apply list.NoDup_cons. split; [|done]. intros (e & Hid & Hin)%list_elem_of_fmap.
      apply He2 in Hin as [Hs _]. set_solver.
    + intros e. rewrite elem_of_cons, He2. split.
      * intros [->|(Hs & pre & post & E & Hp)]; [split; [done|]; by exists [], l|].
        split; [set_solver|]. exists (x :: pre), post. rewrite E. split; [done|]. constructor; [set_solver|done].
      * intros (Hs & pre & post & E & Hp). destruct pre as [|y pre]; injection E as -> E; [by left|].
        apply Forall_cons_iff in Hp as [Hy Hp]. right. split; [set_solver|]. eauto.
Qed.

(** What the session ends up with for a node. *)
Definition final_value (id : Z) (acts : list Act) : option (list byte) :=
  list.last (map snd (filter (λ p : Z * list byte, p.1 = id) (omap assigned acts))).

Lemma filter_unique (l : list (Z * list byte)) id v :
  NoDup (map fst l) → (id, v) ∈ l → filter (λ p, p.1 = id) l = [(id, v)].
Proof.
  induction l as [|[i w] l IH]; intros Hn Hin; [by apply not_elem_of_nil in Hin|].
  cbn [map] in Hn. apply list.NoDup_cons in Hn as [Hni Hn]. apply elem_of_cons in Hin as [[= <- <-]|Hin].
  - rewrite list.filter_cons_True by done. f_equal. apply filter_none. intros [j u] Hj <-.
    apply Hni. by apply (list_elem_of_fmap_2 fst) in Hj.
  - rewrite list.filter_cons_False; [by apply IH|]. intros Hi. apply Hni. cbn in Hi. subst i.
    by apply (list_elem_of_fmap_2 fst) in Hin.
Qed.

Lemma restored_last plan racts s s' acts e :
  restoring plan racts s s' → NoDup (map sel_id plan) → target e ∈ omap assigned racts →
  final_value (sel_id e) (acts ++ racts) = Some (sel_value e).
Proof.
  intros Hr Hn Ht. unfold final_value. rewrite omap_app, list.filter_app.
  rewrite (filter_unique (omap assigned racts) (sel_id e) (sel_value e)).
  - rewrite map_app. apply list.last_snoc.
  - eapply (sublist_NoDup _ (map fst (map target plan))); [by rewrite map_map|].
    apply (fmap_sublist fst), (restoring_targets _ _ _ _ Hr).
  - done.
Qed.

Lemma covered_recorded known acts : covered known acts → Forall read_from (omap recorded acts).
Proof.
  revert known. induction acts as [|a acts IH]; intros known; [constructor|]. intros [Ha Hc]. specialize (IH _ Hc).
  destruct a; try exact IH. by constructor.
Qed.

Lemma covered_assigned known acts id v :
  covered known acts → Assigned id v ∈ acts → id ∈ map sel_id (known ++ omap recorded acts).
Proof.
  revert known. induction acts as [|a acts IH]; intros known; [by intros _ ?%not_elem_of_nil|].
  intros [Ha Hc] [<-|Hin]%elem_of_cons.
  - destruct Ha as (e & items & Hin & <- & _). apply (list_elem_of_fmap_2 sel_id), elem_of_app. by left.
  - specialize (IH _ Hc Hin). by destruct a; cbn in *; rewrite ?app_nil_r, <- ?(assoc_L (++)) in IH.
Qed.

(** The report lists the outcomes that failed. *)
Lemma failed_outcomes plan os i e o :
  NoDup (map sel_id plan) → map (λ o, (out_id o, out_fullname o)) os = map (λ e, (sel_id e, sel_fullname e)) plan →
  plan !! i = Some e → os !! i = Some o →
  (sel_id e, sel_fullname e) ∈ failed (from_outcomes os) ↔ restored o = false.
Proof.
  intros Hn Hm He Ho. cbn [from_outcomes failed]. rewrite list_elem_of_fmap.
  assert (∀ j o', os !! j = Some o' → ∃ e', plan !! j = Some e' ∧ out_id o' = sel_id e' ∧ out_fullname o' = sel_fullname e') as Hat.
  { intros j o' Hj. pose proof (f_equal (λ l, l !! j) Hm) as E. cbn beta in E.
    change map with (@fmap list list_fmap) in E. rewrite !list_lookup_fmap, Hj in E. cbn in E.
    destruct (plan !! j) as [e'|]; [|done]. injection E as ??. by exists e'. }
  split.
  - intros (o' & [= E1 E2] & [Hf Hin]%list_elem_of_filter). apply list_elem_of_lookup_1 in Hin as [j Hj].
    destruct (Hat j o' Hj) as (e' & He' & E3 & _).
    assert (i = j) as <-; [|congruence].
    eapply (NoDup_lookup (map sel_id plan) i j (sel_id e)); [done|by rewrite list_lookup_fmap, He|].
    rewrite list_lookup_fmap, He'. cbn. congruence.
  - intros Hf. destruct (Hat i o Ho) as (e' & He' & E3 & E4). assert (e' = e) as -> by congruence.
    exists o. rewrite E3, E4. split; [done|]. apply list_elem_of_filter. split; [done|]. by eapply list_elem_of_lookup_2.
Qed.

(** The report: exactly the selectors that could not be confirmed; the others were written. *)
Lemma restore_selectors_spec l s :
  ∃ acts, restoring (plan_restore l) acts s (restore_selectors l s).2 ∧
  match restore_selectors l s with
  | (Ok rep, s') => attempted rep = length (plan_restore l) ∧
      ∀ i e, plan_restore l !! i = Some e →
        ((sel_id e, sel_fullname e) ∈ failed rep ↔ ¬ confirmed (plan_restore l) s i e) ∧
        ((sel_id e, sel_fullname e) ∈ failed rep ∨ confirmed (plan_restore l) s i e ∧ target e ∈ omap assigned acts)
  | (Err x, _) => x = Blocked
  end.
Proof.
  destruct (plan_from_spec ∅ l) as [Hn _]. fold (plan_restore l) in Hn.
  destruct (restore_plan_spec (plan_restore l) s) as (acts & R & H). exists acts.
  unfold restore_selectors, bind. destruct (restore_plan (plan_restore l) s) as [[os|x] s']; (split; [exact R|]); [|done].
  destruct H as [Hm H]. cbn [ret]. assert (length os = length (plan_restore l)) as Hlen
    by (rewrite <- (length_map (λ o, (out_id o, out_fullname o)) os), Hm; apply length_map).
  split; [done|]. intros i e He.
  destruct (lookup_lt_is_Some_2 os i) as [o Ho]; [rewrite Hlen; by eapply lookup_lt_Some|].
  destruct (H i e o He Ho) as [Hc Ht]. rewrite (failed_outcomes (plan_restore l) os i e o) by done.
  rewrite <- Hc. destruct (restored o); intuition congruence.
Qed.

(** A restore of what was recorded flips nothing that was not. *)
Lemma restoring_covered known plan acts s s' :
  restoring plan acts s s' → plan ⊆ known → Forall read_from known →
  covered known acts ∧ omap recorded acts = [] ∧ omap emitted acts = [].
Proof.
  intros [_ _ Hk] Hp Hr. induction Hk as [|a acts Ha Hk IH]; [done|].
  destruct IH as (H1 & H2 & H3).
  destruct Ha as [Ha|(e & He & ->)]; [by destruct a; try done; cbn; rewrite app_nil_r|].
  cbn [covered recorded option_list act_ok]. rewrite app_nil_r. split; [|done]. split; [|done].
  rewrite list.Forall_forall in Hr. destruct (Hr e (Hp e He)) as (_ & _ & data & _ & Hv).
  unfold string_enum_item in Hv. destruct (def_string_enum (sel_def e)) as [items|] eqn:Ei; [|done].
  exists e, items. split; [auto|]. split; [done|]. split; [done|].
  apply fmap_Some in Hv as (it & Hit & ->). apply (list_elem_of_fmap_2 si_item).
  destruct (has_int data); [destruct (usize_of_i32 _); [by eapply list_elem_of_lookup_2|done]|].
  destruct (has_string data); [|done]. by apply find_item_Some in Hit as [? _].
Qed.

(** Every id has its first entry in the plan. *)
Lemma plan_covers l id :
  id ∈ map sel_id l →
  ∃ pre e post, l = pre ++ e :: post ∧ sel_id e = id ∧ Forall (λ e', sel_id e' ≠ id) pre
    ∧ ∃ i, plan_restore l !! i = Some e.
Proof.
  intros Hin. assert (∃ pre e post, l = pre ++ e :: post ∧ sel_id e = id ∧ Forall (λ e', sel_id e' ≠ id) pre)
    as (pre & e & post & E & Hid & Hp).
  { induction l as [|x l IH]; [by apply not_elem_of_nil in Hin|]. destruct (decide (sel_id x = id)) as [Hx|Hx]; [by exists [], x, l|].
    cbn [map] in Hin. apply elem_of_cons in Hin as [->|Hin]; [done|].
    destruct (IH Hin) as (pre & e & post & -> & Hid & Hp). exists (x :: pre), e, post. by split_and!; [..|constructor]. }
  exists pre, e, post. split_and!; [done..|]. apply list_elem_of_lookup_1.
  apply (proj2 (proj2 (plan_from_spec ∅ l) e)). split; [set_solver|]. exists pre, post. by rewrite Hid.
Qed.

Lemma plan_subset l : plan_restore l ⊆ l.
Proof. intros e (_ & pre & post & -> & _)%plan_from_spec. set_solver. Qed.

(** Publishing changes the file calls only, and waits for nothing. *)
Lemma publish_crawl_spec (crawl_result : result Halt nat) c :
  ∃ calls, let c' := mk_crawl (console c) (json_file c) (crawled_raw c) (snapshot c) calls in
  match publish_crawl crawl_result c with
  | (Ok (Some (json, bin)), d) => d = c' ∧ is_ok crawl_result = true ∧ json = json_file c ∧ write_propmap_bin (crawled_raw c) = Some bin
  | (Ok None, d) => d = c' ∧ is_ok crawl_result = false
  | (Err e, d) => d = c' ∧ e = Panicked ∧ is_ok crawl_result = true
  end.
Proof.
  unfold publish_crawl. destruct (is_ok crawl_result); [|exists (file_calls c); by destruct c].
  unfold bind, file_call, gets, ret, expect. cbn [file_calls crawled_raw json_file].
  destruct (file_calls c) as [|[] calls]; [|destruct calls as [|[] calls]|]; cbn [tail]; try (by eexists);
    destruct (write_propmap_bin (crawled_raw c)) eqn:Ew; cbn [throw file_calls tail]; try (by eexists);
    try destruct calls as [|[] calls]; by eexists.
Qed.

(** The end of a run, from the state the walk left: whatever it comes to, but for one that
    still waits, the selectors were restored, with a report. *)
Lemma finish_crawl_spec r c :
  Forall read_from (snapshot c) →
  ∃ racts, follows racts c (finish_crawl r c).2 ∧ covered (snapshot c) racts ∧
  let '(o, c') := finish_crawl r c in
  o = Err Waiting ∨ ∃ rep,
    restoring (plan_restore (snapshot c)) racts (console c) (console c') ∧
    (∀ i e, plan_restore (snapshot c) !! i = Some e →
       (sel_id e, sel_fullname e) ∈ failed rep ∨
       confirmed (plan_restore (snapshot c)) (console c) i e ∧ target e ∈ omap assigned racts) ∧
    restore_selectors (snapshot c) (console c) = (Ok rep, console c') ∧
    match o with
    | Ok f => report f = rep ∧
        completed f = is_ok r ∧ (exit_status f = 0 ↔ is_ok r = true ∧ failed (report f) = []) ∧
        match published f with
        | Some (json, bin) => is_ok r = true ∧ json = json_file c ∧ write_propmap_bin (crawled_raw c) = Some bin
        | None => is_ok r = false
        end
    | Err _ => is_ok r = true
    end.
Proof.
  intros Hr.
  destruct (restore_selectors_spec (snapshot c) (console c)) as (acts & Ha & Hrep).
  destruct (restoring_covered (snapshot c) _ acts _ _ Ha (plan_subset _) Hr) as (Hc & H1 & H2).
  assert (∀ s' calls, (restore_selectors (snapshot c) (console c)).2 = s' →
    follows acts c (mk_crawl s' (json_file c) (crawled_raw c) (snapshot c) calls)) as Hf.
  { intros s' calls <-. destruct Ha. split; cbn [console snapshot json_file crawled_raw];
      rewrite ?H1, ?H2, ?app_nil_r; done. }
  exists acts. destruct (finish_crawl r c) as [o c'] eqn:Eo. unfold finish_crawl, unwrap in Eo. unfold bind at 1 in Eo.
  destruct (restore_selectors (snapshot c) (console c)) as [[rep|x] s'] eqn:E; cbn [snd] in Ha |- *.
  2: { subst x. injection Eo as <- <-. split; [by apply Hf|]. split; [done|by left]. }
  unfold bind at 1 in Eo. destruct (publish_crawl_spec r (set_console s' c)) as [calls Hp].
  cbn [set_console console json_file crawled_raw snapshot] in Hp.
  specialize (Hf s' calls eq_refl). destruct Hrep as [_ Hrep].
  assert (Hplan : ∀ i e, plan_restore (snapshot c) !! i = Some e →
    (sel_id e, sel_fullname e) ∈ failed rep ∨
    confirmed (plan_restore (snapshot c)) (console c) i e ∧ target e ∈ omap assigned acts) by (intros i e He; by apply Hrep).
  assert (∀ b : bool, (if is_degraded rep || negb b then 1 else 0) = 0 ↔ b = true ∧ failed rep = []) as Hx.
  { intros b. unfold is_degraded. destruct (failed rep), b; cbn; intuition congruence. }
  destruct (publish_crawl r (set_console s' c)) as [[[[json bin]|]|e] d].
  - destruct Hp as (-> & Ho & Hj & Hw). injection Eo as <- <-. split; [done|]. split; [done|]. right. exists rep.
    split_and!; [done..|apply Hx|done].
  - destruct Hp as (-> & Ho). injection Eo as <- <-. split; [done|]. split; [done|]. right. exists rep.
    split_and!; [done..|apply Hx|done].
  - destruct Hp as (-> & -> & Ho). injection Eo as <- <-. split; [done|]. split; [done|]. right. by exists rep.
Qed.

Lemma get_node_def_snapshot parents c : snapshot (get_node_def parents c).2 = snapshot c.
Proof. unfold get_node_def, unwrap. by destruct (bind _ _ (console c)) as [[a|[e|]] s]. Qed.

(** A run from the first request: the walk, and the end of it. *)
Lemma crawl_spec c :
  along (console c) → snapshot c = [] →
  ∃ acts c1, follows acts c c1 ∧ covered [] acts ∧
    ((crawl c).2 = c1 ∧ ((crawl c).1 = Err Waiting ∨ (crawl c).1 = Err Panicked ∧ snapshot c1 = [])
     ∨ ∃ r, crawl c = finish_crawl r c1).
Proof.
  intros Hc Hs. unfold crawl, bind. pose proof (get_node_def_snapshot [0] c) as Hs1. rewrite Hs in Hs1.
  destruct (safe_get_node_def [] [0] c Hc) as (l1 & F1 & C1 & H1); [set_solver|]. rewrite Hs in C1.
  destruct (get_node_def [0] c) as [[children|e] c1]; cbn [snd] in F1, Hs1.
  2: { exists l1, c1. split_and!; [done..|]. left. split; [done|]. destruct e; auto. }
  destruct (children !! 0%nat) as [root|]; cbn [expect ret throw].
  2: { exists l1, c1. split_and!; [done..|]. left. split; [done|]. auto. }
  destruct H1 as [Hc1 _].
  destruct (safe_add (S (work (console c1))) 1 [] root false c1 Hc1) as (l2 & F2 & C2 & _); [set_solver|].
  rewrite (follows_snapshot _ _ _ F1), Hs in C2.
  assert (covered [] (l1 ++ l2)) as C by by apply covered_app.
  destruct (add _ _ _ _ _ c1) as [r c2]; cbn [snd] in F2.
  exists (l1 ++ l2), c2. split; [by eapply follows_trans|]. split; [done|].
  destruct r as [n|[]]; [right; by eexists|right; by eexists|left; split; [done|by left]].
Qed.
End Safe.

(** ** Fuel *)

Section Fuel.
Context {J : Jzon} (D : list WingResponse).

(** [m] leaves a usable session with no more work than before. *)
Definition Keeps (W : nat) {A} (m : M Crawl Halt A) : Prop :=
  ∀ c, along D W (console c) → match m c with (Ok _, c') => along D W (console c') | (Err _, _) => True end.

(** Two calls agree on every session with at most [W] work left. *)
Definition Same (W : nat) {A} (m m' : M Crawl Halt A) : Prop := ∀ c, along D W (console c) → m c = m' c.

Lemma along_le W W' s : (W ≤ W')%nat → along D W s → along D W' s.
Proof. intros Hle (H1 & H2 & H3). split_and!; [done|done|lia]. Qed.

Lemma keeps_safe W {A} (m : M Crawl Halt A) Q : Safe D W [] m Q → Keeps W m.
Proof.
  intros Hm c Hc. destruct (Hm c Hc) as (_ & _ & _ & H); [set_solver|]. by destruct (m c) as [[a|e] c']; [apply H|].
Qed.

Lemma keeps_unwrap W {A} (m : Read A) Q : Draws D W m Q → Keeps W (unwrap m).
Proof.
  intros Hm c Hc. specialize (Hm (console c) Hc). unfold unwrap.
  by destruct (m (console c)) as [[a|[e|]] s]; [apply Hm|..].
Qed.

Lemma same_refl W {A} (m : M Crawl Halt A) : Same W m m.
Proof. by intros c _. Qed.

Lemma same_bind_both W {A B} (m m' : M Crawl Halt A) (k k' : A → M Crawl Halt B) :
  Same W m m' → Keeps W m → (∀ a, Same W (k a) (k' a)) → Same W (bind m k) (bind m' k').
Proof.
  intros Hs Hm Hk c Hc. specialize (Hm c Hc). unfold bind. rewrite <- (Hs c Hc).
  destruct (m c) as [[a|e] c1]; [|done]. by apply Hk.
Qed.

Lemma same_bind W {A B} (m : M Crawl Halt A) (k k' : A → M Crawl Halt B) :
  Keeps W m → (∀ a, Same W (k a) (k' a)) → Same W (bind m k) (bind m k').
Proof. apply same_bind_both, same_refl. Qed.

Lemma same_each_node W visit visit' i nodes cnt :
  (∀ i def cnt, Same W (visit i def cnt) (visit' i def cnt)) → (∀ i def cnt, Keeps W (visit i def cnt)) →
  Same W (each_node visit i nodes cnt) (each_node visit' i nodes cnt).
Proof.
  intros Hs Hk. revert i cnt. induction nodes as [|def nodes IH]; intros i cnt; cbn [each_node]; [apply same_refl|].
  by apply same_bind_both.
Qed.

Lemma same_each_item W visit visit' items cnt :
  (∀ it cnt, Same W (visit it cnt) (visit' it cnt)) → (∀ it cnt, Keeps W (visit it cnt)) →
  Same W (each_item visit items cnt) (each_item visit' items cnt).
Proof.
  intros Hs Hk. revert cnt. induction items as [|it items IH]; intros cnt; cbn [each_item]; [apply same_refl|].
  by apply same_bind_both.
Qed.

Lemma keeps_then W {A B} (m : M Crawl Halt A) (k : A → M Crawl Halt B) :
  Keeps W m → (∀ a, Keeps W (k a)) → Keeps W (bind m k).
Proof.
  intros Hm Hk c Hc. specialize (Hm c Hc). unfold bind. destruct (m c) as [[a|e] c1]; [|done]. by apply Hk.
Qed.

Lemma keeps_expect W {A} (o : option A) : Keeps W (expect o).
Proof. by destruct o; intros c Hc. Qed.

Lemma keeps_get_node_def W parents : Keeps W (get_node_def parents).
Proof. apply (keeps_safe W _ (λ _, True)), safe_get_node_def. Qed.

(** A call that returns took a response. *)
Definition Less (W : nat) {A} (m : Read A) : Prop :=
  ∀ s, along D W s → match m s with (Ok _, s') => (0 < W)%nat ∧ along D (pred W) s' | (Err _, _) => True end.

Lemma less_bind W {A B} (m : Read A) (k : A → Read B) :
  Less W m → (∀ a, Draws D (pred W) (k a) (λ _, True)) → Less W (bind m k).
Proof.
  intros Hm Hk s Hs. specialize (Hm s Hs). unfold bind. destruct (m s) as [[a|e] s1]; [|done].
  destruct Hm as [HW Hs1]. specialize (Hk a s1 Hs1). destruct (k a s1) as [[b|e] s2]; [|done]. by destruct Hk.
Qed.

Lemma less_draws_bind W {A B} (m : Read A) (k : A → Read B) Q :
  Draws D W m Q → (∀ a, Less W (k a)) → Less W (bind m k).
Proof.
  intros Hm Hk s Hs. specialize (Hm s Hs). unfold bind. destruct (m s) as [[a|e] s1]; [|done].
  destruct Hm as [Hs1 _]. by apply Hk.
Qed.

Lemma less_read W : Less W read.
Proof.
  intros s Hs. pose proof (draws_read D W s Hs) as H. destruct (read s) as [[r|e] s1] eqn:E; [|done].
  destruct H as [(H2 & H3 & _) _], Hs as (H4 & _ & H5). pose proof (read_locked_less _ _ _ H4 E).
  split; [lia|]. split_and!; [done|done|lia].
Qed.

Lemma less_children_loop W fuel parent ret2 : Less W (children_loop fuel parent ret2).
Proof.
  destruct fuel as [|fuel]; [by intros s Hs|]. apply less_bind; [apply less_read|].
  intros []; auto using draws_children_loop, draws_ret.
Qed.

(** Asking for the children of at least one node takes a response. *)
Lemma get_node_def_less W parent parents c :
  along D W (console c) →
  match get_node_def (parent :: parents) c with
  | (Ok _, c') => (0 < W)%nat ∧ along D (pred W) (console c')
  | (Err _, _) => True
  end.
Proof.
  intros Hc. assert (Less W (let! _ := request_all (parent :: parents) in collect_all (parent :: parents))) as H.
  { eapply less_draws_bind; [apply draws_request_all|]. intros _. cbn [collect_all].
    apply less_bind; [intros s; apply less_children_loop|]. intros l. eapply draws_bind; [apply draws_collect_all|].
    intros. by apply draws_ret. }
  specialize (H (console c) Hc). unfold get_node_def, unwrap. by destruct (bind _ _ (console c)) as [[a|[e|]] s].
Qed.

Lemma keeps_add W fuel cnt p nodes ignore : Keeps W (add fuel cnt p nodes ignore).
Proof. eapply keeps_safe, safe_add. Qed.

Lemma keeps_capture W p mdl_def : def_node_type mdl_def = NodeTypes.StringEnum → Keeps W (capture_selector p mdl_def).
Proof.
  intros Ht c Hc. destruct (safe_capture D W p mdl_def ret (λ _, True) Ht) with (c := c) as (acts & _ & _ & H);
    [by intros; apply safe_ret|done|set_solver|].
  unfold bind in H. destruct (capture_selector p mdl_def c) as [[a|e] c1]; [by apply H|done].
Qed.

Lemma keeps_visit_child W fuel p children flag i def cnt : Keeps W (visit_child (add fuel) p children flag i def cnt).
Proof. eapply keeps_safe, safe_visit_child. intros. apply safe_add. Qed.

Lemma keeps_visit_model W fuel p mdl_def item cnt : Keeps W (visit_model (add fuel) p mdl_def item cnt).
Proof.
  apply keeps_then; [eapply keeps_unwrap, draws_set_string|]. intros _.
  apply keeps_then; [apply keeps_get_node_def|]. intros children.
  apply keeps_then; [apply keeps_expect|]. intros. apply keeps_add.
Qed.

Abbreviation same_walk W walk walk' := (∀ cnt p nodes ignore, Same W (walk cnt p nodes ignore : M Crawl Halt nat) (walk' cnt p nodes ignore)).

Lemma same_visit_child W walk walk' p children flag i def cnt :
  same_walk W walk walk' → Same W (visit_child walk p children flag i def cnt) (visit_child walk' p children flag i def cnt).
Proof.
  intros Hw. apply same_bind; [eapply keeps_safe, safe_emit|]. intros _. apply same_bind; [apply keeps_expect|]. auto.
Qed.

Lemma same_visit_model W walk walk' p mdl_def item cnt :
  same_walk W walk walk' → Same W (visit_model walk p mdl_def item cnt) (visit_model walk' p mdl_def item cnt).
Proof.
  intros Hw. apply same_bind; [eapply keeps_unwrap, draws_set_string|]. intros _.
  apply same_bind; [apply keeps_get_node_def|]. intros children. apply same_bind; [apply keeps_expect|]. auto.
Qed.

Lemma keeps_each_node W visit i nodes cnt :
  (∀ i def cnt, Keeps W (visit i def cnt)) → Keeps W (each_node visit i nodes cnt).
Proof.
  intros Hv. revert i cnt. induction nodes as [|def nodes IH]; intros i cnt; cbn [each_node]; [by intros c Hc|].
  apply keeps_then; auto.
Qed.

(** The walk is the recursion of the source: any fuel beyond the work left gives the same. *)
Lemma add_same W n m cnt p nodes ignore :
  (W < n)%nat → (W < m)%nat → Same W (add n cnt p nodes ignore) (add m cnt p nodes ignore).
Proof.
  revert W m cnt p nodes ignore.
  induction n as [|n IH]; intros W [|m] cnt p nodes ignore Hn Hm; [lia..|]. cbn [add].
  destruct nodes as [|node nodes]; [by destruct ignore|].
  assert (0 < W → same_walk (pred W) (add n) (add m))%nat as Hwalk by (intros; apply IH; lia).
  assert (∀ k k' : list (list WingNodeDef) → M Crawl Halt nat,
    (∀ children, (0 < W)%nat → Same (pred W) (k children) (k' children)) →
    Same W (bind (get_node_def (map def_id (node :: nodes))) k) (bind (get_node_def (map def_id (node :: nodes))) k')) as Hless.
  { intros k k' Hk c Hc. pose proof (get_node_def_less W (def_id node) (map def_id nodes) c Hc) as H.
    unfold bind. change (map def_id (node :: nodes)) with (def_id node :: map def_id nodes).
    destruct (get_node_def _ c) as [[children|e] c1]; [|done]. destruct H as [HW Hc1]. by apply Hk. }
  destruct (if ignore then None else find_item is_mdl (node :: nodes)) as [mdl_def|] eqn:Em;
    apply Hless; intros children HW; specialize (Hwalk HW).
  - assert (def_node_type mdl_def = NodeTypes.StringEnum) as Ht
      by (destruct ignore; [done|by eapply is_mdl_enum]).
    apply same_bind_both.
    + apply same_each_node; intros i def k; destruct (negb _); auto using same_refl, same_visit_child, keeps_visit_child.
      by intros c Hc.
    + apply keeps_each_node. intros i def k. destruct (negb _); [by intros c Hc|apply keeps_visit_child].
    + intros k. apply same_bind; [by apply keeps_capture|]. intros _. apply same_bind; [apply keeps_expect|].
      intros items. apply same_each_item; auto using same_visit_model, keeps_visit_model.
  - apply same_each_node; intros i def k; destruct (_ || _); auto using same_refl, same_visit_child, keeps_visit_child.
    by intros c Hc.
Qed.
End Fuel.

(** ** Properties *)

Section Properties.
Context {J : Jzon}.

(** C35: a crawl records before it flips.  However a run ends (finished, a panic anywhere, or
    still waiting), what it sent and kept is a sequence of acts in which every assignment,
    those of the restore included, is to a selector recorded earlier and to one of that
    selector's own models, and every recorded value is one the console gave for the selector,
    by its name in the definition. *)
Theorem crawl_covered c :
  session_ok (console c) → snapshot c = [] →
  ∃ acts, follows acts c (crawl c).2 ∧ covered (deliver (console c)) [] acts.
Proof.
  intros Hc Hs. destruct (crawl_spec (deliver (console c)) (work (console c)) c) as (l1 & c1 & F1 & C1 & H); [split_and!; [done|by exists []|done]|done|].
  destruct H as [[-> _]|[r ->]]; [by exists l1|].
  pose proof (follows_snapshot _ _ _ F1) as Hs1. rewrite Hs in Hs1. cbn [app] in Hs1.
  destruct (finish_crawl_spec (deliver (console c)) r c1) as (l2 & F2 & C2 & _).
  { rewrite Hs1. by eapply covered_recorded. }
  exists (l1 ++ l2). split; [by eapply follows_trans|]. apply covered_app. split; [done|]. by rewrite Hs1 in C2.
Qed.

(** C34: a crawl that ends leaves the console as it found it, or knows where it did not.
    Whether the walk completed or panicked, and whether or not publishing its outputs then
    panics (a failed flush, read or publication), each selector it assigned is either on the
    report as not restored, or was set last to the value first recorded for it and read back
    so.  Of a run that finishes, the exit status is 0 exactly when the walk completed and
    nothing is reported; the outputs are published exactly when it completed, and hold the
    same entries in the same order.  A run that publishes and panics reports nothing. *)
Theorem crawl_restores c o c' :
  session_ok (console c) → snapshot c = [] → json_file c = [] → crawled_raw c = [] →
  crawl c = (o, c') → o ≠ Err Waiting →
  ∃ acts racts s1 rep, let recs := omap recorded acts in
    sent s1 = sent (console c) ++ wires acts ∧ sent (console c') = sent s1 ++ wires racts ∧
    restore_selectors recs s1 = (Ok rep, console c') ∧
    (∀ id v, Assigned id v ∈ acts → ∃ pre e post,
       recs = pre ++ e :: post ∧ sel_id e = id ∧ Forall (λ e', sel_id e' ≠ id) pre ∧
       ((id, sel_fullname e) ∈ failed rep ∨
        final_value id (acts ++ racts) = Some (sel_value e) ∧ ∃ i, confirmed (plan_restore recs) s1 i e)) ∧
    match o with
    | Ok f => report f = rep ∧ (exit_status f = 0 ↔ completed f = true ∧ failed (report f) = []) ∧
        match published f with
        | Some (json, bin) => completed f = true ∧ json = map emitted_row (omap emitted acts) ∧
            write_propmap_bin (push_entries (map emitted_entry (omap emitted acts))) = Some bin
        | None => completed f = false
        end
    | Err e => e = Panicked
    end.
Proof.
  intros Hc Hs Hj Hraw E Ho. destruct (crawl_spec (deliver (console c)) (work (console c)) c) as (l1 & c1 & F1 & C1 & H); [split_and!; [done|by exists []|done]|done|].
  pose proof (follows_snapshot _ _ _ F1) as Hs1. rewrite Hs in Hs1. cbn [app] in Hs1.
  destruct H as [[H1 [H|[H Hn]]]|[r H]]; rewrite E in *; cbn [fst snd] in *; [done| |].
  { subst o c'. rewrite Hn in Hs1. exists l1, [], (console c1), (from_outcomes []). cbv zeta. rewrite <- Hs1.
    split_and!; [apply F1|by rewrite app_nil_r|done| |done].
    intros id v Hin. pose proof (covered_assigned _ _ _ _ _ C1 Hin) as Hid. rewrite <- Hs1 in Hid.
    by apply not_elem_of_nil in Hid. }
  pose proof (covered_recorded _ _ _ C1) as Hrec.
  destruct (finish_crawl_spec (deliver (console c)) r c1) as (l2 & F2 & C2 & Hf); [by rewrite Hs1|].
  rewrite <- H in F2, Hf. cbn [snd] in F2. destruct Hf as [?|(rep & Hr & Hplan & Hsel & Hd)]; [done|].
  rewrite Hs1 in Hr, Hplan, Hsel.
  exists l1, l2, (console c1), rep. cbv zeta. split_and!; [apply F1|apply F2|exact Hsel| |].
  - intros id v Hin. pose proof (covered_assigned _ _ _ _ _ C1 Hin) as Hid. cbn [app] in Hid.
    destruct (plan_from_spec ∅ (omap recorded l1)) as [Hn _]. fold (plan_restore (omap recorded l1)) in Hn.
    destruct (plan_covers (omap recorded l1) id Hid) as (pre & e & post & Hrecs & He & Hpre & i & Hi).
    exists pre, e, post. split_and!; [done..|]. destruct (Hplan i e Hi) as [Hfail|[Hconf Ht]]; [left; by rewrite <- He|].
    right. split; [|by exists i]. rewrite <- He. by eapply restored_last.
  - destruct o as [f|[]]; [|done..]. destruct Hd as (Hrep & Hd & Hx & Hp). split; [done|]. split; [by rewrite Hd|].
    destruct (published f) as [[json bin]|]; [|congruence]. destruct Hp as (Hok & -> & Hw). rewrite Hd.
    rewrite (follows_json _ _ _ F1), Hj. rewrite (follows_raw _ _ _ F1), Hraw in Hw. cbn [app] in *.
    by rewrite push_entries_eq.
Qed.

(** The fuel of the walk never runs out: with more than the work left in the session, every
    amount gives the same outcome. *)
Theorem add_terminates fuel cnt parent_fullname nodes ignore c :
  session_ok (console c) → (work (console c) < fuel)%nat →
  add fuel cnt parent_fullname nodes ignore c = add (S (work (console c))) cnt parent_fullname nodes ignore c.
Proof.
  intros Hs Hf. apply (add_same (deliver (console c)) (work (console c))); [done|lia|].
  split_and!; [done|by exists []|done].
Qed.
End Properties.

(** *** Witnesses *)

Definition plain_node (id parent_id index : Z) (name : list byte) : WingNodeDef :=
  mk_def id parent_id index name [] NodeTypes.Node NodeUnits.None false None None None None None None None None [].

Definition slot_selector : WingNodeDef :=
  mk_def 11 10 0 (str "mdl") [] NodeTypes.StringEnum NodeUnits.None false None None None None None None
    (Some [mk_string_item (str "HALL") []; mk_string_item (str "PLATE") []]) None [].

Definition answers_below (defs : list WingNodeDef) : list NativeResponse :=
  map NativeResponses.NodeDef defs ++ [NativeResponses.RequestEnd].

(** A console with one slot, set to its second model; [last] is what it answers when the
    slot is read back. *)
Definition slot_answers (last_value : Z) : list NativeResponse :=
  answers_below [plain_node 10 0 0 (str "fx")] ++ answers_below [slot_selector] ++ answers_below []
  ++ [NativeResponses.NodeData 11 (NativeValues.Integer 1); NativeResponses.RequestEnd]
  ++ answers_below [slot_selector; plain_node 12 10 1 []] ++ answers_below [] ++ answers_below []
  ++ answers_below [slot_selector; plain_node 13 10 1 (str "t")] ++ answers_below [] ++ answers_below []
  ++ [NativeResponses.NodeData 11 (NativeValues.Integer last_value); NativeResponses.RequestEnd].

Definition slot_crawl (last_value : Z) (file_calls : list bool) : Crawl (J := plain_json) :=
  mk_crawl (new_session [mk_pass None None
    (Received (match encode_all (slot_answers last_value) with Ok p => batch_frame p | Err _ => [] end))])
    [] [] [] file_calls.

Definition status_of {J : Jzon} (o : result Halt (Finished (J := J)) * Crawl (J := J)) : option (bool * nat * Z) :=
  match o.1 with Ok f => Some (completed f, length (failed (report f)), exit_status f) | Err _ => None end.

Example slot_crawled : status_of (crawl (slot_crawl 1 [])) = Some (true, 0%nat, 0).
Proof. vm_compute. reflexivity. Qed.

(** The console answers the readback with another model. *)
Example slot_degraded : status_of (crawl (slot_crawl 0 [])) = Some (true, 1%nat, 1).
Proof. vm_compute. reflexivity. Qed.

(** The disk fills up halfway through the models: the slot is restored all the same. *)
Example slot_panicked : status_of (crawl (slot_crawl 1 [true; true; true; false])) = Some (false, 0%nat, 1).
Proof. vm_compute. reflexivity. Qed.

(** The publication fails: the panic comes after the restore, and hides its report. *)
Definition panics {J : Jzon} (o : result Halt (Finished (J := J)) * Crawl (J := J)) : bool :=
  match o.1 with Err Panicked => true | _ => false end.

Example slot_not_published :
  let failing k := crawl (slot_crawl 0 (repeat true (length (json_file (crawl (slot_crawl 0 [])).2) + k) ++ [false])) in
  map (λ k, panics (failing k)) [0; 1; 2; 3]%nat = [true; true; true; false]
  ∧ status_of (failing 3%nat) = Some (true, 1%nat, 1).
Proof. vm_compute. split; reflexivity. Qed.

Lemma slot_session_ok last_value writes : last_value = 1 → session_ok (console (slot_crawl last_value writes)).
Proof. intros ->. split; [by eexists|]. split; [vm_compute; discriminate|done]. Qed.

Lemma crawl_covered_witness :
  ∃ acts, follows acts (slot_crawl 1 []) (crawl (slot_crawl 1 [])).2 ∧ covered (deliver (console (slot_crawl 1 []))) [] acts
    ∧ omap recorded acts = [mk_selector 11 (str "/fx/mdl") (str "PLATE") (with_raw (wire_bytes slot_selector) slot_selector)].
Proof.
  destruct (crawl_covered (slot_crawl 1 []) (slot_session_ok 1 [] eq_refl) eq_refl) as (acts & F & C).
  exists acts. split; [exact F|]. split; [exact C|].
  transitivity (snapshot (crawl (slot_crawl 1 [])).2); [symmetry; apply (follows_snapshot _ _ _ F)|].
  vm_compute. reflexivity.
Defined.

Lemma crawl_restores_witness :
  let c' := (crawl (slot_crawl 1 [])).2 in
  ∃ acts racts, sent (console c') = wires acts ++ wires racts
    ∧ (∀ id v, Assigned id v ∈ acts → ∃ e, sel_id e = id ∧ final_value id (acts ++ racts) = Some (sel_value e)).
Proof.
  pose proof (crawl_restores (slot_crawl 1 [])) as H.
  assert (status_of (crawl (slot_crawl 1 [])) = Some (true, 0%nat, 0)) as Hst by (vm_compute; reflexivity).
  destruct (crawl (slot_crawl 1 [])) as [[f|e] c'] eqn:E; [|discriminate Hst]. cbv zeta. cbn [snd].
  unfold status_of in Hst. cbn [fst] in Hst. injection Hst as _ Hf _.
  destruct (H (Ok f) c' (slot_session_ok 1 [] eq_refl) eq_refl eq_refl eq_refl eq_refl ltac:(discriminate))
    as (acts & racts & s1 & rep & H1 & H2 & _ & H3 & <- & _).
  change (sent (console (slot_crawl 1 []))) with (@nil byte) in H1. cbn [app] in H1.
  exists acts, racts. split; [by rewrite H2, H1|]. intros id v Hin.
  destruct (H3 id v Hin) as (pre & e & post & _ & Hid & _ & [Hfail|[Hfin _]]); 
    [|exists e; split; [exact Hid|exact Hfin]].
  exfalso. destruct (failed (report f)); [exact (not_elem_of_nil _ Hfail)|discriminate Hf].
Defined.

Lemma add_terminates_witness :
  add 1000 1 [] [] false (slot_crawl 1 []) = add (S (work (console (slot_crawl 1 [])))) 1 [] [] false (slot_crawl 1 []).
Proof.
  apply (add_terminates 1000); [apply (slot_session_ok 1 [] eq_refl)|]. apply Nat.ltb_lt. vm_compute. reflexivity.
Defined.
