(* ===== verification/SchemaLookup.v ===== *)
(** The offline lookup of the schema tool ([src/tools/wingschema.rs], [lookup_matches]): an id,
    a path or a piece of one, looked up in the embedded map. *)

From stdpp Require Import sorting.
From S2P Require Import Prelude Sort Text Decimal Bytes Lib Utf8 F32 NodeDef PropIndex PropMap EmbeddedMap.
Local Open Scope Z_scope.

(** ** The lookup *)

Definition hex_part (query : list byte) : option (list byte) :=
  match strip_prefix query (str "0x") with Some hex => Some hex | None => strip_prefix query (str "0X") end.

(** The id a query names, [n as i32] of a hexadecimal one. *)
Definition query_id (query : list byte) : option Z :=
  match hex_part query with
  | Some hex => wrap_signed 32 <$> from_str_radix_16 hex
  | None => parse_i32 query
  end.

Section Lookup.
Context `{EmbeddedMap}.

Definition lookup_matches (query : list byte) : list (list byte * WingNodeDef) :=
  match query_id query with
  | Some id => default [] (id_to_defs_iter id)
  | None =>
    match name_to_def query with
    | Some def => [(query, def)]
    | None => filter (λ p, contains p.1 query = true) propmap_iter
    end
  end.
End Lookup.

(** ** Properties *)

Section Laws.
Context {m : EmbeddedMap} `{!EmbeddedMapLaws m}.

(** Every match is an entry of the map, in the map's order and once; the matches of an id are
    exactly its entries, a path's match is its entry alone, and the matches of any other text
    are exactly the entries whose path contains it. *)
Theorem lookup_matches_exact query :
  lookup_matches query `sublist_of` map_entries ∧
  ∀ name d, (name, d) ∈ lookup_matches query ↔ (name, d) ∈ map_entries ∧
    match query_id query with
    | Some id => def_id d = id
    | None => name = query ∨ query ∉ map fst map_entries ∧ contains name query = true
    end.
Proof.
  unfold lookup_matches, id_to_defs_iter, name_to_def, propmap_iter. destruct (query_id query) as [id|].
  - rewrite defs_by_id_law.
    assert (default [] match filter (λ p, def_id p.2 = id) map_entries with [] => None | ps => Some ps end
      = filter (λ p, def_id p.2 = id) map_entries) as ->
      by by destruct (filter _ map_entries).
    split; [apply sublist_filter|]. intros name d. rewrite list_elem_of_filter. cbn [snd]. tauto.
  - destruct (def_by_name query) as [def|] eqn:E.
    + apply def_by_name_law in E. split; [by apply singleton_sublist_l|]. intros name d.
      rewrite list_elem_of_singleton. split; [intros [= -> ->]; auto|]. intros [Hin [->|[Hn _]]].
      * f_equal. apply def_by_name_law in E, Hin. congruence.
      * destruct Hn. by apply (list_elem_of_fmap_2 fst) in E.
    + assert (query ∉ map fst map_entries) as Hn.
      { intros ([n d] & -> & Hin)%list_elem_of_fmap. apply def_by_name_law in Hin. cbn in E. congruence. }
      split; [apply sublist_filter|]. intros name d. rewrite list_elem_of_filter. cbn [fst]. split.
      * intros [Hc Hin]. auto.
      * intros [Hin [->|[_ Hc]]]; [|done]. destruct Hn. by apply (list_elem_of_fmap_2 fst) in Hin.
Qed.
End Laws.

(** The two spellings of an id agree. *)
Example hex_query : query_id (str "0xFFFFFFFE") = Some (-2) ∧ query_id (str "-2") = Some (-2)
  ∧ query_id (str "0x1FFFFFFFF") = None ∧ query_id (str "/ch/1") = None.
Proof. vm_compute. done. Qed.
