(* ===== verification/AtomicWrite.v ===== *)
(** [src/tools/atomic_write.rs]: several output files published together.  Every output is
    staged beside its destination, the existing ones are moved to backups, and the staged
    files are renamed into place; a failure part-way puts the backups back.

    The file system is a finite map from paths to entries, changed only by these operations.
    Whether an operation fails, and with what, is an input: [faults] holds the outcome of
    each mutating call in order ([None] once it runs out: the call does what it can in the
    present state), [stat_faults] whether a metadata query fails.  Contents of a hard link
    are shared with the original, but no file is written after it has been linked, so an
    entry carries its contents. *)

From S2P Require Import Prelude Text Lib Utf8.
From stdpp Require Import gmap.
Local Open Scope Z_scope.
Local Open Scope rust_scope.

(** ** The file system *)

(** A path: everything up to its last separator, and the file name when it has one (a path
    that ends in [..] or is a root has none). *)
Abbreviation Path := (list byte * option (list byte))%type.

Module Entries.
Inductive Entry := Regular (contents : list byte) | Symlink (target : Path) | Directory.
End Entries.
Export Entries.

(** [std::io::Error]: its kind and the text it displays. *)
Record IoError := mk_io { kind : ErrorKind; text : list byte }.

(** A call that fails; a failing write leaves the first [written] bytes in the file. *)
Record Fault := mk_fault { error : IoError; written : nat }.

Record World := mk_world {
  files : gmap Path Entry;
  next_staged_path : Z;
  process_id : Z;
  faults : list (option Fault);
  stat_faults : list bool;
  warnings : list (list byte);
}.

#[export] Instance Entry_eq_dec : EqDecision Entry.
Proof. solve_decision. Defined.
#[export] Instance IoError_eq_dec : EqDecision IoError.
Proof. solve_decision. Defined.
#[export] Instance Fault_eq_dec : EqDecision Fault.
Proof. solve_decision. Defined.
#[export] Instance World_eq_dec : EqDecision World.
Proof. solve_decision. Defined.
#[export] Instance outcome_eq_dec : EqDecision (result IoError unit).
Proof. solve_decision. Defined.

Definition set_files (m : gmap Path Entry) (w : World) : World :=
  mk_world m (next_staged_path w) (process_id w) (faults w) (stat_faults w) (warnings w).
Definition set_faults (l : list (option Fault)) (w : World) : World :=
  mk_world (files w) (next_staged_path w) (process_id w) l (stat_faults w) (warnings w).

Abbreviation Io A := (M World IoError A).

(** The calls' own errors. *)
Definition no_entry : IoError := mk_io OtherKind (str "No such file or directory (os error 2)").
Definition file_exists : IoError := mk_io OtherKind (str "File exists (os error 17)").
Definition is_directory : IoError := mk_io OtherKind (str "Is a directory (os error 21)").

(** A mutating call: the environment's failure, or its effect on the entries. *)
Definition os (call : gmap Path Entry → result IoError (gmap Path Entry)) : Io unit := λ w,
  match faults w with
  | Some f :: fs => (Err (error f), set_faults fs w)
  | l => match call (files w) with
         | Ok m => (Ok tt, set_files m (set_faults (tail l) w))
         | Err e => (Err e, set_faults (tail l) w)
         end
  end.

Definition remove_file (p : Path) : Io unit := os (λ m,
  match m !! p with
  | None => Err no_entry
  | Some Directory => Err is_directory
  | Some _ => Ok (delete p m)
  end).

Definition hard_link (original link : Path) : Io unit := os (λ m,
  match m !! original, m !! link with
  | None, _ => Err no_entry
  | Some Directory, _ => Err is_directory
  | Some _, Some _ => Err file_exists
  | Some e, None => Ok (<[link := e]> m)
  end).

Definition rename (from to : Path) : Io unit := os (λ m,
  match m !! from, m !! to with
  | None, _ => Err no_entry
  | Some Directory, _ | _, Some Directory => Err is_directory
  | Some e, _ => Ok (<[to := e]> (delete from m))
  end).

(** [OpenOptions::new().write(true).create_new(true).open(p)]. *)
Definition open_new (p : Path) : Io unit := os (λ m,
  match m !! p with Some _ => Err file_exists | None => Ok (<[p := Regular []]> m) end).

(** [file.write_all(contents)] on the file just created at [p]. *)
Definition write_all (p : Path) (contents : list byte) : Io unit := λ w,
  match faults w with
  | Some f :: fs => (Err (error f), set_files (<[p := Regular (take (written f) contents)]> (files w)) (set_faults fs w))
  | l => (Ok tt, set_files (<[p := Regular contents]> (files w)) (set_faults (tail l) w))
  end.

Definition sync_all : Io unit := os Ok.

(** [let _ = call;]. *)
Definition ignore {A} (call : Io A) : Io unit := λ w, (Ok tt, (call w).2).

(** A metadata query: what it found, unless it failed. *)
Definition query {A} (found : gmap Path Entry → option A) : Io (option A) := λ w,
  let w' := mk_world (files w) (next_staged_path w) (process_id w) (faults w) (tail (stat_faults w)) (warnings w) in
  (Ok (match stat_faults w with true :: _ => None | _ => found (files w) end), w').

Definition symlink_metadata (p : Path) : Io (option Entry) := query (λ m, m !! p).

(** Links are followed, at most forty of them. *)
Fixpoint resolve (fuel : nat) (m : gmap Path Entry) (p : Path) : option Entry :=
  match fuel with
  | O => None
  | S fuel => match m !! p with Some (Symlink t) => resolve fuel m t | e => e end
  end.

Definition path_exists (p : Path) : Io bool :=
  let! e := query (λ m, resolve 41 m p) in ret (bool_decide (is_Some e)).

Definition eprintln (line : list byte) : Io unit := modify (λ w,
  mk_world (files w) (next_staged_path w) (process_id w) (faults w) (stat_faults w) (warnings w ++ [line])).

(** ** Publication *)

(** [path.display()]. *)
Definition display (p : Path) : list byte := from_utf8_lossy (p.1 ++ default [] p.2).

Definition staged_path (path : Path) (suffix : list byte) : Io Path := λ w,
  let name := from_utf8_lossy (default [] path.2) in
  let sequence := next_staged_path w in
  (Ok (path.1, Some (str "." ++ name ++ str "." ++ decimal_fuel 10 (process_id w) ++ str "."
                     ++ decimal_fuel 20 sequence ++ str "." ++ suffix)),
   mk_world (files w) ((sequence + 1) mod 2 ^ 64) (process_id w) (faults w) (stat_faults w) (warnings w)).

(** [errors.join("; ")]. *)
Fixpoint join_errors (errors : list (list byte)) : list byte :=
  match errors with [] => [] | [e] => e | e :: es => e ++ str "; " ++ join_errors es end.

Definition publication_error (primary : IoError) (rollback_errors : list (list byte)) : IoError :=
  match rollback_errors with
  | [] => primary
  | _ => mk_io (kind primary) (text primary ++ str "; rollback also failed: " ++ join_errors rollback_errors)
  end.

Abbreviation Output := (Path * list byte)%type.

(** The first loop: nothing but a regular file is replaced. *)
Fixpoint check_outputs (outputs : list Output) : Io unit :=
  match outputs with
  | [] => ret tt
  | (path, _) :: outputs =>
    let! metadata := symlink_metadata path in
    match metadata with
    | Some (Symlink _) | Some Directory =>
      throw (mk_io OtherKind (str "refusing to replace non-regular output " ++ display path))
    | _ => check_outputs outputs
    end
  end.

Fixpoint remove_all (paths : list Path) : Io unit :=
  match paths with
  | [] => ret tt
  | p :: paths => ignore (remove_file p) ;;! remove_all paths
  end.

Definition write_staged (temp : Path) (contents : list byte) : Io unit :=
  open_new temp ;;! write_all temp contents ;;! sync_all.

(** The second loop; [staged] are the files written so far. *)
Fixpoint stage_outputs (outputs : list Output) (staged : list Path) : Io (list Path) :=
  match outputs with
  | [] => ret staged
  | (path, contents) :: outputs =>
    let! temp := staged_path path (str "tmp") in
    λ w, match write_staged temp contents w with
         | (Ok _, w) => stage_outputs outputs (staged ++ [temp]) w
         | (Err e, w) => (remove_all staged ;;! throw e) w
         end
  end.

Definition restore_message (original saved : Path) (e : IoError) : list byte :=
  str "restore " ++ display original ++ str " from " ++ display saved ++ str ": " ++ text e.

(** A rollback loop over [backups], already in the order it takes them; its result are the
    errors it collects. *)
Fixpoint restore_backups (backups : list (Path * Path)) : Io (list (list byte)) :=
  match backups with
  | [] => ret []
  | (original, saved) :: backups => λ w,
    match rename saved original w with
    | (Ok _, w) => restore_backups backups w
    | (Err e, w) => (let! errors := restore_backups backups in ret (restore_message original saved e :: errors)) w
    end
  end.

Definition backup_output (path backup : Path) : Io unit :=
  hard_link path backup ;;! λ w,
  match remove_file path w with
  | (Ok _, w) => (Ok tt, w)
  | (Err e, w) => (ignore (remove_file backup) ;;! throw e) w
  end.

(** The third loop. *)
Fixpoint backup_outputs (outputs : list Output) (staged : list Path) (backups : list (Path * Path))
    : Io (list (Path * Path)) :=
  match outputs with
  | [] => ret backups
  | (path, _) :: outputs =>
    let! present := path_exists path in
    if (present : bool) then
      let! backup := staged_path path (str "bak") in
      λ w, match backup_output path backup w with
           | (Ok _, w) => backup_outputs outputs staged (backups ++ [(path, backup)]) w
           | (Err e, w) => (let! errors := restore_backups (rev backups) in
                            remove_all staged ;;! throw (publication_error e errors)) w
           end
    else backup_outputs outputs staged backups
  end.

(** The removal of what was published before a failure. *)
Fixpoint remove_published (published : list Path) : Io (list (list byte)) :=
  match published with
  | [] => ret []
  | p :: published => λ w,
    match remove_file p w with
    | (Ok _, w) => remove_published published w
    | (Err e, w) => (let! errors := remove_published published in
                     ret ((str "remove partially published " ++ display p ++ str ": " ++ text e) :: errors)) w
    end
  end.

(** The fourth loop, over the outputs and their staged files; [published] are the outputs
    before them. *)
Fixpoint rename_outputs (outputs : list (Path * Path)) (published : list Path) (backups : list (Path * Path))
    : Io unit :=
  match outputs with
  | [] => ret tt
  | (path, temp) :: rest => λ w,
    match rename temp path w with
    | (Ok _, w) => rename_outputs rest (published ++ [path]) backups w
    | (Err e, w) =>
      (let! removing := remove_published published in
       let! restoring := restore_backups (rev backups) in
       remove_all (map snd outputs) ;;! throw (publication_error e (removing ++ restoring))) w
    end
  end.

(** The last loop. *)
Fixpoint drop_backups (backups : list (Path * Path)) : Io unit :=
  match backups with
  | [] => ret tt
  | (_, backup) :: backups => λ w,
    match remove_file backup w with
    | (Ok _, w) => drop_backups backups w
    | (Err e, w) => (eprintln (str "warning: could not remove backup " ++ display backup ++ str ": " ++ text e)
                     ;;! drop_backups backups) w
    end
  end.

Definition publish_outputs (outputs : list Output) : Io unit :=
  check_outputs outputs ;;!
  let! staged := stage_outputs outputs [] in
  let! backups := backup_outputs outputs staged [] in
  rename_outputs (zip (map fst outputs) staged) [] backups ;;!
  drop_backups backups.

(** ** What the calls change *)

(** Staged files and backups carry a name that starts with a dot. *)
Definition dotted (p : Path) : Prop := ∃ rest, p.2 = Some (Byte.x2e :: rest).

#[export] Instance dotted_dec p : Decision (dotted p).
Proof.
  destruct p as [d [[|b rest]|]]; [right; by intros [? ?] | | right; by intros [? ?]].
  destruct (decide (b = Byte.x2e)) as [->|]; [left; by eexists | right; intros [? [=]]; done].
Defined.

(** No metadata query fails. *)
Definition reliable (w : World) : Prop := Forall (λ b, b = false) (stat_faults w).

(** [call] leaves the entry of every path outside [P] alone, and the outcome of the metadata
    queries. *)
Definition touches {A} (P : Path → Prop) (call : Io A) : Prop := ∀ w,
  (∀ q, ¬ P q → files (call w).2 !! q = files w !! q) ∧ (reliable w → reliable (call w).2).

Section Touches.
Context (P : Path → Prop).

Lemma touches_ret {A} (a : A) : touches P (ret a).
Proof. done. Qed.

Lemma touches_throw {A} e : touches P (throw (A := A) e).
Proof. done. Qed.

Lemma touches_bind {A B} (m : Io A) (k : A → Io B) :
  touches P m → (∀ a, touches P (k a)) → touches P (bind m k).
Proof.
  intros Hm Hk w. unfold bind. destruct (Hm w) as [Hm1 Hm2].
  destruct (m w) as [[a|e] w'] eqn:E; [|done]. simpl in *. destruct (Hk a w') as [Hk1 Hk2].
  split; [intros q Hq; rewrite Hk1, Hm1; done | auto].
Qed.

Lemma touches_try {A B} (m : Io A) (k : A → Io B) (h : IoError → Io B) :
  touches P m → (∀ a, touches P (k a)) → (∀ e, touches P (h e)) →
  touches P (λ w, match m w with (Ok a, w) => k a w | (Err e, w) => h e w end).
Proof.
  intros Hm Hk Hh w. destruct (Hm w) as [Hm1 Hm2]. destruct (m w) as [[a|e] w'] eqn:E; simpl in *.
  - destruct (Hk a w') as [H1 H2]. split; [intros q Hq; rewrite H1, Hm1; done | auto].
  - destruct (Hh e w') as [H1 H2]. split; [intros q Hq; rewrite H1, Hm1; done | auto].
Qed.

Lemma touches_ignore {A} (m : Io A) : touches P m → touches P (ignore m).
Proof. intros Hm w. exact (Hm w). Qed.

Lemma touches_os call :
  (∀ m m' q, call m = Ok m' → ¬ P q → m' !! q = m !! q) → touches P (os call).
Proof.
  intros H w. unfold os. destruct (faults w) as [|[f|] fs]; simpl; [|done|];
    destruct (call (files w)) eqn:E; simpl; split; try done; intros q Hq; by apply (H _ _ q E).
Qed.

Lemma touches_remove p : P p → touches P (remove_file p).
Proof.
  intros Hp. apply touches_os. intros m m' q H Hq.
  repeat split_match_in H; apply lookup_delete_ne; naive_solver.
Qed.

Lemma touches_link p s : P s → touches P (hard_link p s).
Proof.
  intros Hs. apply touches_os. intros m m' q H Hq.
  repeat split_match_in H; apply lookup_insert_ne; naive_solver.
Qed.

Lemma touches_rename p s : P p → P s → touches P (rename p s).
Proof.
  intros Hp Hs. apply touches_os. intros m m' q H Hq.
  repeat split_match_in H; rewrite lookup_insert_ne by naive_solver; apply lookup_delete_ne; naive_solver.
Qed.

Lemma touches_write p c : P p → touches P (write_staged p c).
Proof.
  intros Hp. apply touches_bind.
  - apply touches_os. intros m m' q H Hq. repeat split_match_in H; apply lookup_insert_ne; naive_solver.
  - intros _. apply touches_bind; [|intros _; apply touches_os; naive_solver]. intros w. unfold write_all.
    destruct (faults w) as [|[f|] fs]; simpl; (split; [intros q Hq; apply lookup_insert_ne; naive_solver | done]).
Qed.

Lemma touches_query {A} (f : gmap Path Entry → option A) : touches P (query f).
Proof. intros w. split; [done|]. unfold reliable. simpl. destruct (stat_faults w); simpl; [done|]. by intros [? ?]%Forall_cons. Qed.

Lemma touches_staged p s : touches P (staged_path p s).
Proof. done. Qed.

Lemma touches_exists p : touches P (path_exists p).
Proof. apply touches_bind; [apply touches_query | intros; apply touches_ret]. Qed.

Lemma touches_remove_all ps : Forall P ps → touches P (remove_all ps).
Proof.
  induction 1; [apply touches_ret|]. apply touches_bind; [by apply touches_ignore, touches_remove | done].
Qed.

Lemma touches_check outputs : touches P (check_outputs outputs).
Proof.
  induction outputs as [|[p c] outputs IH]; [apply touches_ret|]. apply touches_bind; [apply touches_query|].
  intros [[]|]; done || apply touches_throw.
Qed.

Lemma touches_restore bs : Forall (λ b, P b.1 ∧ P b.2) bs → touches P (restore_backups bs).
Proof.
  induction 1 as [|[p s] bs [Hp Hs] _ IH]; [apply touches_ret|]. apply touches_try; [by apply touches_rename | done |].
  intros e. apply touches_bind; [done | intros; apply touches_ret].
Qed.

Lemma touches_published ps : Forall P ps → touches P (remove_published ps).
Proof.
  induction 1 as [|p ps Hp _ IH]; [apply touches_ret|]. apply touches_try; [by apply touches_remove | done |].
  intros e. apply touches_bind; [done | intros; apply touches_ret].
Qed.

Lemma touches_drop bs : Forall (λ b, P b.2) bs → touches P (drop_backups bs).
Proof.
  induction 1 as [|[p s] bs Hs _ IH]; [apply touches_ret|]. apply touches_try; [by apply touches_remove | done |].
  intros e. apply touches_bind; [intros w; by split | done].
Qed.

Lemma touches_rename_outputs outs published bs :
  Forall (λ o, P o.1 ∧ P o.2) outs → Forall P published → Forall (λ b, P b.1 ∧ P b.2) bs →
  touches P (rename_outputs outs published bs).
Proof.
  intros Ho Hp Hb. revert published Hp. induction Ho as [|[p t] outs [H1 H2] Ho IH]; intros published Hp; [apply touches_ret|].
  apply touches_try; [by apply touches_rename | intros _; apply IH, Forall_app; auto |]. intros e.
  apply touches_bind; [by apply touches_published|]. intros removing.
  apply touches_bind; [by apply touches_restore, Forall_rev|]. intros restoring.
  apply touches_bind; [|intros; apply touches_throw]. apply touches_remove_all.
  apply Forall_map, Forall_cons. split; [done|]. eapply Forall_impl; [done|]. by intros ? [].
Qed.
End Touches.

(** ** The phases *)

Lemma os_effect call w r w' :
  os call w = (r, w') → match r with Ok _ => call (files w) = Ok (files w') | Err _ => files w' = files w end.
Proof. unfold os. destruct (faults w) as [|[f|] fs]; [|by intros [= <- <-]|]; case_match; by intros [= <- <-]. Qed.

Lemma staged_path_dotted p s w : ∃ t w', staged_path p s w = (Ok t, w') ∧ dotted t ∧ files w' = files w ∧ (reliable w → reliable w').
Proof. eexists _, _. split; [reflexivity|]. split; [by eexists | done]. Qed.

Lemma remove_all_ok ps w : (remove_all ps w).1 = Ok tt.
Proof.
  revert w. induction ps as [|p ps IH]; intros w; [done|]. simpl. unfold bind, ignore at 1. apply IH.
Qed.

(** What fails after clearing up fails with the error given. *)
Lemma remove_all_throw {A} ps e w :
  (remove_all ps ;;! throw (A := A) e) w = (Err e, (remove_all ps w).2).
Proof. unfold bind. pose proof (remove_all_ok ps w). destruct (remove_all ps w) as [[[]|e'] w']; naive_solver. Qed.

Lemma check_outputs_ok outs w w' :
  reliable w → check_outputs outs w = (Ok tt, w') →
  Forall (λ o, files w !! o.1 = None ∨ ∃ c, files w !! o.1 = Some (Regular c)) outs.
Proof.
  revert w w'. induction outs as [|[p c] outs IH]; intros w w' Hr H; [done|].
  simpl in H. unfold bind, symlink_metadata, query in H.
  assert (match stat_faults w with true :: _ => None | _ => files w !! p end = files w !! p) as Hq.
  { unfold reliable in Hr. destruct (stat_faults w) as [|b l]; [done|]. by apply Forall_cons in Hr as [-> _]. }
  rewrite Hq in H. assert (reliable (query (λ m, m !! p) w).2) as Hr' by by apply (touches_query (λ _, True)).
  destruct (files w !! p) as [[c'|t|]|] eqn:E; try done; apply IH in H; try done; constructor; simpl; eauto.
Qed.

Definition contents_at (m : gmap Path Entry) (t : Path) (c : list byte) : Prop := m !! t = Some (Regular c).

Lemma contents_step m m' temps cs :
  (∀ t, t ∈ temps → m' !! t = m !! t) → Forall2 (contents_at m) temps cs → Forall2 (contents_at m') temps cs.
Proof.
  intros Hm. induction 1 as [|t c temps cs Ht _ IH]; constructor.
  - unfold contents_at. rewrite Hm; [done | set_solver].
  - apply IH. set_solver.
Qed.

Lemma write_staged_ok t c w w' :
  write_staged t c w = (Ok tt, w') → files w !! t = None ∧ files w' = <[t := Regular c]> (files w).
Proof.
  unfold write_staged, bind. destruct (open_new t w) as [[[]|] w1] eqn:E1; [|done].
  apply os_effect in E1. destruct (files w !! t) eqn:Et; simplify_eq.
  destruct (write_all t c w1) as [[[]|] w2] eqn:E2; [|done]. intros E3. apply os_effect in E3. injection E3 as <-.
  split; [done|]. unfold write_all in E2.
  assert (files w2 = <[t := Regular c]> (files w1)) as ->.
  { destruct (faults w1) as [|[f|] fs]; simplify_eq/=; done. }
  rewrite <- E1. apply insert_insert_eq.
Qed.

(** The state between staging and renaming: the staged files, in the outputs' order. *)
Record staging (m : gmap Path Entry) (temps : list Path) (cs : list (list byte)) : Prop := {
  stg_contents : Forall2 (contents_at m) temps cs;
  stg_dotted : Forall dotted temps;
  stg_nodup : NoDup temps;
}.

Definition plain_eq (m m' : gmap Path Entry) : Prop := ∀ q, ¬ dotted q → m' !! q = m !! q.

Lemma stage_outputs_spec outs : ∀ staged cs w r w',
  reliable w → staging (files w) staged cs → stage_outputs outs staged w = (r, w') →
  plain_eq (files w) (files w') ∧ reliable w' ∧
  ∀ temps, r = Ok temps → staging (files w') temps (cs ++ map snd outs).
Proof.
  induction outs as [|[p c] outs IH]; intros staged cs w r w' Hr Hst H.
  { injection H as <- <-. split_and!; [done..|]. intros ? [= <-]. simpl. by rewrite app_nil_r. }
  simpl in H. destruct (staged_path_dotted p (str "tmp") w) as (t & w1 & Hs & Ht & Hf & Hr1).
  unfold bind in H at 1. rewrite Hs in H.
  pose proof (touches_write dotted t c Ht w1) as [Hw1 Hw2].
  destruct (write_staged t c w1) as [[[]|e] w2] eqn:E; simpl in *.
  - apply write_staged_ok in E as [Hn E]. destruct Hst as [Hc Hd Hnd].
    apply (IH _ (cs ++ [c])) in H as (Hp & Hrel & Hok); [|auto|].
    + split; [intros q Hq; rewrite Hp, Hw1, Hf; done|]. split; [done|].
      intros temps ->. by rewrite <- app_assoc in Hok; apply Hok.
    + assert (t ∉ staged) as Hni.
      { intros Hin. apply list_elem_of_lookup in Hin as [i Hi].
        destruct (Forall2_lookup_l _ _ _ _ _ Hc Hi) as (c' & _ & Hc'). unfold contents_at in Hc'. congruence. }
      split; [|by apply Forall_app; auto | apply NoDup_app; split_and!; [done| set_solver | apply NoDup_singleton]].
      rewrite E, Hf. apply Forall2_app; [|constructor; [apply lookup_insert_eq | done]].
      revert Hc. apply contents_step. intros t' Hin. rewrite lookup_insert_ne; [done | by intros ->].
  - rewrite remove_all_throw in H. injection H as <- <-.
    pose proof (touches_remove_all dotted staged (stg_dotted _ _ _ Hst) w2) as [Hw3 Hw4].
    split; [intros q Hq; rewrite Hw3, Hw1, Hf; done|]. split; [auto | done].
Qed.

(** ** Backups *)

(** [bs] are the backups of [m0]'s files in [m]; of the plain paths only theirs and those of
    [published], all absent from [m0] if they have no backup, have changed. *)
Record saved (m0 m : gmap Path Entry) (bs : list (Path * Path)) (published : list Path) : Prop := {
  sv_originals : NoDup bs.*1;
  sv_backups : NoDup bs.*2;
  sv_names : Forall (λ b, ¬ dotted b.1 ∧ dotted b.2) bs;
  sv_contents p s : (p, s) ∈ bs → m !! s = m0 !! p ∧ is_Some (m0 !! p);
  sv_others q : ¬ dotted q → q ∉ bs.*1 → q ∉ published → m !! q = m0 !! q;
  sv_new q : q ∈ published → q ∉ bs.*1 → m0 !! q = None;
}.

Lemma saved_perm m0 m bs bs' ps : bs ≡ₚ bs' → saved m0 m bs ps → saved m0 m bs' ps.
Proof.
  intros Hp [H1 H2 H3 H4 H5 H6]. split; intros *; try rewrite <- Hp; auto.
Qed.

Lemma saved_names m0 m bs ps p s : saved m0 m bs ps → (p, s) ∈ bs → ¬ dotted p ∧ dotted s.
Proof. intros Hs Hin. exact (proj1 (Forall_forall _ _) (sv_names _ _ _ _ Hs) _ Hin). Qed.

(** A dotted path that is no backup may change. *)
Lemma saved_touch m0 m m' bs ps t :
  dotted t → t ∉ bs.*2 → (∀ q, q ≠ t → m' !! q = m !! q) → saved m0 m bs ps → saved m0 m' bs ps.
Proof.
  intros Ht Hb Hm [H1 H2 H3 H4 H5 H6]. split; try done.
  - intros p s Hin. rewrite Hm; [by apply H4|]. intros ->. apply Hb. by apply (list_elem_of_fmap_2 snd) in Hin.
  - intros q Hq Hn Hp. rewrite Hm; [auto | by intros ->].
Qed.

Lemma restore_backups_spec m0 bs : ∀ w w',
  saved m0 (files w) bs [] → restore_backups bs w = (Ok [], w') → plain_eq m0 (files w').
Proof.
  induction bs as [|[p s] bs IH]; intros w w' Hs H.
  { injection H as <-. intros q Hq. apply (sv_others _ _ _ _ Hs); set_solver. }
  simpl in H. destruct (rename s p w) as [[[]|e] w1] eqn:E.
  2: { unfold bind in H. destruct (restore_backups bs w1) as [[]]; done. }
  apply (IH w1); [|done]. apply os_effect in E.
  destruct (sv_contents _ _ _ _ Hs p s) as [Hc [e He]]; [set_solver|]. rewrite Hc, He in E.
  destruct (saved_names _ _ _ _ p s Hs) as [Hp Hd]; [set_solver|].
  assert (files w1 = <[p := e]> (delete s (files w))) as ->.
  { destruct e; try done; destruct (files w !! p) as [[]|]; congruence. }
  destruct Hs as [H1 H2 H3 H4 H5 H6]. simpl in *.
  apply NoDup_cons in H1 as [Hn1 H1], H2 as [Hn2 H2]. apply Forall_cons in H3 as [_ H3].
  split; try done.
  - intros q t Hin. destruct (H4 q t) as [<- ?]; [set_solver|]. split; [|done].
    rewrite lookup_insert_ne, lookup_delete_ne; [done | |].
    + intros ->. apply Hn2. by apply (list_elem_of_fmap_2 snd) in Hin.
    + intros ->. apply Hp. exact (proj2 (proj1 (Forall_forall _ _) H3 _ Hin)).
  - intros q Hq Hn _. destruct (decide (q = p)) as [->|Hne]; [by rewrite lookup_insert_eq|].
    rewrite lookup_insert_ne, lookup_delete_ne; [apply H5; set_solver | by intros -> | done].
  - intros q Hin. set_solver.
Qed.

Lemma remove_published_spec m0 bs ps : ∀ w w',
  saved m0 (files w) bs ps → Forall (λ p, ¬ dotted p) ps →
  remove_published ps w = (Ok [], w') → saved m0 (files w') bs [].
Proof.
  induction ps as [|p ps IH]; intros w w' Hs Hp H; [by injection H as <-|].
  apply Forall_cons in Hp as [Hp Hps]. simpl in H.
  destruct (remove_file p w) as [[[]|e] w1] eqn:E.
  2: { unfold bind in H. destruct (remove_published ps w1) as [[]]; done. }
  apply (IH w1); [|done..]. apply os_effect in E.
  assert (files w1 = delete p (files w)) as -> by by repeat split_match_in E.
  destruct Hs as [H1 H2 H3 H4 H5 H6]. split; try done.
  - intros q t Hin. rewrite lookup_delete_ne; [by apply H4|]. intros ->. apply Hp.
    exact (proj2 (proj1 (Forall_forall _ _) H3 _ Hin)).
  - intros q Hq Hn Hnp. destruct (decide (q = p)) as [->|Hne].
    + rewrite lookup_delete_eq. symmetry. apply H6; set_solver.
    + rewrite lookup_delete_ne by done. apply H5; set_solver.
  - intros q Hin. apply H6. set_solver.
Qed.

Lemma path_exists_spec p w :
  reliable w → files w !! p = None ∨ (∃ c, files w !! p = Some (Regular c)) →
  ∃ w1, path_exists p w = (Ok (bool_decide (is_Some (files w !! p))), w1) ∧ files w1 = files w ∧ reliable w1.
Proof.
  intros Hr Hp. exists (path_exists p w).2. split; [|split; [reflexivity | exact (proj2 (touches_exists (λ _, True) p w) Hr)]].
  assert (resolve 41 (files w) p = files w !! p) as Hres by by simpl; destruct Hp as [->|[c ->]].
  unfold path_exists, bind, query, ret. cbn [fst snd]. rewrite Hres. do 2 f_equal. apply bool_decide_ext.
  unfold reliable in Hr. destruct (stat_faults w) as [|b l]; [done|]. by apply Forall_cons in Hr as [-> _].
Qed.

Lemma backup_output_spec p b w r w' :
  backup_output p b w = (r, w') →
  match r with
  | Ok _ => ∃ e, files w !! p = Some e ∧ files w !! b = None ∧ files w' = delete p (<[b := e]> (files w))
  | Err _ => files w' = files w ∨ files w !! b = None ∧ ∀ q, q ≠ b → files w' !! q = files w !! q
  end.
Proof.
  unfold backup_output, bind at 1. destruct (hard_link p b w) as [[[]|e] w1] eqn:E1; apply os_effect in E1.
  2: { intros [= <- <-]. by left. }
  assert (∃ e, files w !! p = Some e ∧ files w !! b = None ∧ files w1 = <[b := e]> (files w)) as (e & He & Hb & Hw1).
  { repeat split_match_in E1; eexists; repeat split; congruence. }
  destruct (remove_file p w1) as [[[]|e'] w2] eqn:E2; apply os_effect in E2.
  - intros [= <- <-]. exists e. split_and!; [done..|]. rewrite <- Hw1. by repeat split_match_in E2.
  - unfold bind, ignore, throw. intros [= <- <-]. right. split; [done|]. intros q Hq.
    rewrite (proj1 (touches_remove (λ x, x = b) b eq_refl w2) q Hq), E2, Hw1. by apply lookup_insert_ne.
Qed.

Definition rollback_marker : list byte := str "; rollback also failed: ".

Lemma publication_error_clean e errors :
  contains (text (publication_error e errors)) rollback_marker = false → errors = [].
Proof.
  destruct errors as [|m errors]; [done|]. intros H.
  assert (contains (text (publication_error e (m :: errors))) rollback_marker = true); [|congruence].
  apply contains_iff. by eexists _, _.
Qed.

(** A new backup extends the saved files. *)
Lemma saved_more m0 m bs p b e :
  saved m0 m bs [] → ¬ dotted p → dotted b → p ∉ bs.*1 → m !! p = Some e → m !! b = None →
  saved m0 (delete p (<[b := e]> m)) (bs ++ [(p, b)]) [].
Proof.
  intros Hs Hp Hb Hn He Hnb. pose proof (sv_others _ _ _ _ Hs p Hp Hn ltac:(set_solver)) as Hm0.
  assert (b ∉ bs.*2) as Hbb.
  { intros Hin. apply list_elem_of_fmap in Hin as ([q s] & -> & Hin). simpl in *.
    destruct (sv_contents _ _ _ _ Hs q s Hin) as [Hc [x Hx]]. congruence. }
  pose proof (λ q s, saved_names m0 m bs [] q s Hs) as Hnames. destruct Hs as [H1 H2 H3 H4 H5 H6].
  split.
  - rewrite fmap_app. apply NoDup_app. split_and!; [done | set_solver | apply NoDup_singleton].
  - rewrite fmap_app. apply NoDup_app. split_and!; [done | set_solver | apply NoDup_singleton].
  - apply Forall_app. auto.
  - intros q s [Hin|[= -> ->]%list_elem_of_singleton]%elem_of_app.
    + destruct (Hnames q s Hin) as [_ Hds]. rewrite lookup_delete_ne by naive_solver.
      rewrite lookup_insert_ne; [by apply H4|]. intros ->. apply Hbb. by apply (list_elem_of_fmap_2 snd) in Hin.
    + rewrite lookup_delete_ne, lookup_insert_eq by naive_solver. split; [congruence | by rewrite <- Hm0, He].
  - intros q Hq Hnq _. rewrite fmap_app in Hnq.
    rewrite lookup_delete_ne, lookup_insert_ne by (intros ->; set_solver). apply H5; set_solver.
  - intros q Hin. set_solver.
Qed.

(** What the third loop needs of an output. *)
Definition replaceable (m0 : gmap Path Entry) (p : Path) : Prop :=
  ¬ dotted p ∧ (m0 !! p = None ∨ ∃ c, m0 !! p = Some (Regular c)).

Lemma staging_step m m' temps cs :
  (∀ t, t ∈ temps → m' !! t = m !! t) → staging m temps cs → staging m' temps cs.
Proof. intros Hm [H1 H2 H3]. split; [by eapply contents_step | done..]. Qed.

Lemma staged_present m temps cs t : staging m temps cs → t ∈ temps → is_Some (m !! t).
Proof.
  intros [Hc _ _] [i Hi]%list_elem_of_lookup. destruct (Forall2_lookup_l _ _ _ _ _ Hc Hi) as (c & _ & Hm).
  rewrite Hm. by eexists.
Qed.

Lemma restore_backups_ok bs w : ∃ errors, (restore_backups bs w).1 = Ok errors.
Proof.
  revert w. induction bs as [|[p s] bs IH]; intros w; [by eexists|]. simpl.
  destruct (rename s p w) as [[[]|?] w2]; [apply IH|]. unfold bind. destruct (IH w2) as [es E].
  destruct (restore_backups bs w2) as [[]]; naive_solver.
Qed.

(** A rollback that reports no failure has put every plain path back. *)
Lemma rollback_backups m0 bs w temps {A} e r w' :
  saved m0 (files w) bs [] → Forall dotted temps →
  (let! errors := restore_backups (rev bs) in remove_all temps ;;! throw (A := A) (publication_error e errors)) w = (r, w') →
  match r with
  | Ok _ => False
  | Err e' => contains (text e') rollback_marker = false → plain_eq m0 (files w')
  end.
Proof.
  intros Hs Ht H. unfold bind at 1 in H. destruct (restore_backups_ok (rev bs) w) as [errors E].
  destruct (restore_backups (rev bs) w) as [[|] w1] eqn:E1; simplify_eq/=. rewrite remove_all_throw in H.
  injection H as <- <-. intros ->%publication_error_clean.
  eapply restore_backups_spec in E1; [|eapply saved_perm; [apply Permutation_rev | exact Hs]].
  intros q Hq. rewrite (proj1 (touches_remove_all dotted temps Ht w1) q Hq). by apply E1.
Qed.

Definition disjoint_names (bs : list (Path * Path)) (temps : list Path) : Prop := ∀ s, s ∈ bs.*2 → s ∉ temps.

Record backed (m0 : gmap Path Entry) (w : World) (bs : list (Path * Path)) (temps : list Path) (cs : list (list byte)) : Prop := {
  bk_reliable : reliable w;
  bk_staging : staging (files w) temps cs;
  bk_saved : saved m0 (files w) bs [];
  bk_disjoint : disjoint_names bs temps;
}.

(** One output is backed up. *)
Lemma backed_more m0 w w1 w2 bs temps cs p b e :
  backed m0 w bs temps cs → ¬ dotted p → dotted b → p ∉ bs.*1 → files w1 = files w → reliable w2 →
  files w1 !! p = Some e → files w1 !! b = None → files w2 = delete p (<[b := e]> (files w1)) →
  backed m0 w2 (bs ++ [(p, b)]) temps cs.
Proof.
  intros [Hr Hst Hs Hd] Hp Hb Hn Hf Hr2 He Hnb Hw2. rewrite Hf in *.
  assert (b ∉ temps) as Hbt by (intros Hin; destruct (staged_present _ _ _ _ Hst Hin); congruence).
  split; [done | | rewrite Hw2; by apply saved_more |].
  - eapply staging_step; [|exact Hst]. intros t Hin. rewrite Hw2, lookup_delete_ne, lookup_insert_ne; [done | |].
    + by intros ->.
    + intros ->. apply Hp. exact (proj1 (Forall_forall _ _) (stg_dotted _ _ _ Hst) _ Hin).
  - intros s. rewrite fmap_app. intros [Hin|Hin]%elem_of_app; [by apply Hd|]. simpl in Hin. set_solver.
Qed.

Lemma backup_outputs_spec m0 outs temps cs : ∀ bs w r w',
  backed m0 w bs temps cs → NoDup outs.*1 → Forall (λ o, replaceable m0 o.1 ∧ o.1 ∉ bs.*1) outs →
  backup_outputs outs temps bs w = (r, w') →
  match r with
  | Ok bs' => backed m0 w' bs' temps cs ∧ bs.*1 ⊆ bs'.*1 ∧ bs'.*1 ⊆ bs.*1 ++ outs.*1
              ∧ Forall (λ o, o.1 ∈ bs'.*1 ∨ m0 !! o.1 = None) outs
  | Err e => contains (text e) rollback_marker = false → plain_eq m0 (files w')
  end.
Proof.
  induction outs as [|[p c] outs IH]; intros bs w r w' Hb Hnd Ho H.
  { injection H as <- <-. split_and!; [done | done | set_solver | done]. }
  apply NoDup_cons in Hnd as [Hni Hnd]. apply Forall_cons in Ho as [[[Hpl Hp] Hnb] Ho]. simpl in Hni, Hpl, Hp, Hnb.
  assert (files w !! p = m0 !! p) as Hwp by (apply (sv_others _ _ _ _ (bk_saved _ _ _ _ _ Hb)); set_solver).
  destruct (path_exists_spec p w (bk_reliable _ _ _ _ _ Hb)) as (w1 & Hex & Hf1 & Hr1); [by rewrite Hwp|].
  simpl in H. unfold bind at 1 in H. rewrite Hex in H.
  assert (backed m0 w1 bs temps cs) as Hb1 by (destruct Hb; split; rewrite ?Hf1; done).
  case_bool_decide as Hsome; simpl in H.
  - destruct (staged_path_dotted p (str "bak") w1) as (b & w2 & Hs & Hd & Hf2 & Hr2). unfold bind at 1 in H. rewrite Hs in H.
    destruct (backup_output p b w2) as [[[]|e] w3] eqn:E.
    + assert (reliable w3) as Hr3.
      { assert (touches (λ _, True) (backup_output p b)) as Ht; [|specialize (Ht w2) as [_ Ht]; rewrite E in Ht; auto].
        apply touches_bind; [by apply touches_link|]. intros _. apply touches_try; [by apply touches_remove | done |].
        intros e. apply touches_bind; [by apply touches_ignore, touches_remove | done]. }
      apply backup_output_spec in E as (e & He & Hnone & Hw3).
      apply (IH (bs ++ [(p, b)])) in H.
      * destruct r as [bs'|]; [|done]. rewrite fmap_app in H. destruct H as (H1 & H2 & H3 & H4). simpl in *.
        split_and!; [done | clear -H2; set_solver | clear -H3; set_solver |].
        constructor; [left; clear -H2; set_solver | done].
      * eapply (backed_more m0 w1 w2); eauto.
      * done.
      * apply Forall_forall. intros o Hin. destruct (proj1 (Forall_forall _ _) Ho o Hin) as [? Hno]. split; [done|].
        rewrite fmap_app. apply (list_elem_of_fmap_2 fst) in Hin. clear -Hin Hno Hni. set_solver.
    + eapply rollback_backups in H; [by destruct r| |exact (stg_dotted _ _ _ (bk_staging _ _ _ _ _ Hb))].
      apply backup_output_spec in E. rewrite Hf2 in E. destruct Hb1 as [_ _ Hs1 _].
      destruct E as [-> | [Hnone Hoth]]; [done|]. eapply saved_touch; [exact Hd | | exact Hoth | exact Hs1].
      intros Hin. apply list_elem_of_fmap in Hin as ([q s] & -> & Hin). simpl in *.
      destruct (sv_contents _ _ _ _ Hs1 q s Hin) as [Hc [x Hx]]. congruence.
  - apply (IH bs) in H; [|done..|].
    + destruct r as [bs'|]; [|done]. destruct H as (H1 & H2 & H3 & H4). simpl. split_and!; [done | done | clear -H3; set_solver |].
      constructor; [right; simpl|done]. rewrite <- Hwp. by apply eq_None_not_Some.
    + eapply Forall_impl; [exact Ho|]. done.
Qed.

(** The fourth loop: [published] hold their new contents, the rest is still staged. *)
Record publishing (m0 : gmap Path Entry) (w : World) (bs : list (Path * Path)) (published : list Output)
    (temps : list Path) (cs : list (list byte)) : Prop := {
  pb_staging : staging (files w) temps cs;
  pb_saved : saved m0 (files w) bs (published.*1);
  pb_plain : Forall (λ p, ¬ dotted p) (published.*1);
  pb_done : Forall (λ o, contents_at (files w) o.1 o.2) published;
  pb_disjoint : disjoint_names bs temps;
}.

(** One output is renamed into place. *)
Lemma publishing_more m0 w w' bs published p c t temps cs :
  publishing m0 w bs published (t :: temps) (c :: cs) → ¬ dotted p → p ∉ published.*1 →
  p ∈ bs.*1 ∨ m0 !! p = None → rename t p w = (Ok tt, w') →
  publishing m0 w' bs (published ++ [(p, c)]) temps cs.
Proof.
  intros [[Hc Hd Hn] Hs Hpl Hdn Hdj] Hp Hnp Hb E. apply os_effect in E.
  inversion Hc as [|? ? ? ? Ht Hc']; subst. unfold contents_at in Ht. rewrite Ht in E.
  assert (files w' = <[p := Regular c]> (delete t (files w))) as Hw' by (destruct (files w !! p) as [[]|]; congruence).
  apply NoDup_cons in Hn as [Hnt Hn]. apply Forall_cons in Hd as [Hdt Hd].
  assert (∀ q, q ≠ p → q ≠ t → files w' !! q = files w !! q) as Hsame.
  { intros q H1 H2. by rewrite Hw', lookup_insert_ne, lookup_delete_ne. }
  assert (t ∉ bs.*2) as Htb by (intros Hin; apply (Hdj t Hin); set_solver).
  pose proof (λ q s, saved_names m0 (files w) bs _ q s Hs) as Hnames.
  split.
  - split; [|done..]. eapply contents_step; [|exact Hc']. intros q Hin. apply Hsame; [|by intros ->].
    intros ->. apply Hp. exact (proj1 (Forall_forall _ _) Hd _ Hin).
  - destruct Hs as [H1 H2 H3 H4 H5 H6]. rewrite fmap_app. split; try done.
    + intros q s Hin. rewrite Hsame; [by apply H4 | |]; intros ->.
      * by apply Hp, (Hnames q p).
      * apply Htb. by apply (list_elem_of_fmap_2 snd) in Hin.
    + intros q Hq Hnb Hnq. rewrite Hsame; [apply H5; [done..|] | |]; [set_solver | set_solver | by intros ->].
    + intros q [Hq|Hq]%elem_of_app Hnb; [by apply H6|]. simpl in Hq. destruct Hb; set_solver.
  - rewrite fmap_app. apply Forall_app. split; [done | by constructor].
  - apply Forall_app. split; [|by constructor; [unfold contents_at; rewrite Hw'; apply lookup_insert_eq|]].
    apply Forall_forall. intros o Hin. pose proof (proj1 (Forall_forall _ _) Hdn _ Hin) as Ho. unfold contents_at in *.
    apply (list_elem_of_fmap_2 fst) in Hin. rewrite Hsame; [done | by intros <- |]. intros Heq.
    apply (proj1 (Forall_forall _ _) Hpl _ Hin). by rewrite Heq.
  - intros s Hs' Hin. apply (Hdj s Hs'). set_solver.
Qed.

Lemma remove_published_ok ps w : ∃ errors, (remove_published ps w).1 = Ok errors.
Proof.
  revert w. induction ps as [|p ps IH]; intros w; [by eexists|]. simpl.
  destruct (remove_file p w) as [[[]|?] w2]; [apply IH|]. unfold bind. destruct (IH w2) as [es E].
  destruct (remove_published ps w2) as [[]]; naive_solver.
Qed.

Lemma app_nil_both {A} (l k : list A) : l ++ k = [] → l = [] ∧ k = [].
Proof. by destruct l. Qed.

Lemma rollback_published m0 bs ps w temps {A} e r w' :
  saved m0 (files w) bs ps → Forall (λ p, ¬ dotted p) ps → Forall dotted temps →
  (let! removing := remove_published ps in
   let! restoring := restore_backups (rev bs) in
   remove_all temps ;;! throw (A := A) (publication_error e (removing ++ restoring))) w = (r, w') →
  match r with
  | Ok _ => False
  | Err e' => contains (text e') rollback_marker = false → plain_eq m0 (files w')
  end.
Proof.
  intros Hs Hp Ht H. unfold bind at 1 in H. destruct (remove_published_ok ps w) as [removing E1].
  destruct (remove_published ps w) as [[x|] w2] eqn:E2; [injection E1 as ->|done].
  unfold bind at 1 in H. destruct (restore_backups_ok (rev bs) w2) as [restoring E3].
  destruct (restore_backups (rev bs) w2) as [[x|] w3] eqn:E4; [injection E3 as ->|done].
  rewrite remove_all_throw in H. injection H as <- <-. intros [-> ->]%publication_error_clean%app_nil_both.
  apply (remove_published_spec m0 bs) in E2; [|done..].
  eapply restore_backups_spec in E4; [|eapply saved_perm; [apply Permutation_rev | exact E2]].
  intros q Hq. rewrite (proj1 (touches_remove_all dotted temps Ht w3) q Hq). by apply E4.
Qed.

Lemma rename_outputs_spec m0 bs outs : ∀ published temps cs w r w',
  publishing m0 w bs published temps cs → length temps = length outs → cs = outs.*2 →
  NoDup (published.*1 ++ outs.*1) → Forall (λ o, ¬ dotted o.1 ∧ (o.1 ∈ bs.*1 ∨ m0 !! o.1 = None)) outs →
  rename_outputs (zip (outs.*1) temps) (published.*1) bs w = (r, w') →
  match r with
  | Ok _ => publishing m0 w' bs (published ++ outs) [] []
  | Err e => contains (text e) rollback_marker = false → plain_eq m0 (files w')
  end.
Proof.
  induction outs as [|[p c] outs IH]; intros published temps cs w r w' Hpb Hlen -> Hnd Ho H.
  { destruct temps; [|done]. injection H as <- <-. by rewrite app_nil_r. }
  destruct temps as [|t temps]; [done|]. apply Forall_cons in Ho as [[Hp Hb] Ho]. simpl in H, Hp, Hb.
  assert (p ∉ published.*1) as Hnp.
  { apply NoDup_app in Hnd as (_ & Hd & _). intros Hin. apply (Hd p Hin). simpl. set_solver. }
  destruct (rename t p w) as [[[]|e] w1] eqn:E.
  - change [p] with ([(p, c)].*1) in H. rewrite <- fmap_app in H.
    apply (IH (published ++ [(p, c)]) temps (outs.*2)) in H.
    + by rewrite <- app_assoc in H.
    + by eapply publishing_more.
    + by injection Hlen.
    + done.
    + by rewrite fmap_app, <- app_assoc.
    + done.
  - apply os_effect in E. destruct Hpb as [Hst Hs Hpl _ _]. rewrite <- E in Hs.
    eapply (rollback_published m0 bs (published.*1) w1 (t :: map snd (zip (outs.*1) temps))) in H; [by destruct r | exact Hs | exact Hpl |].
    apply Forall_forall. intros x Hin. apply (proj1 (Forall_forall _ _) (stg_dotted _ _ _ Hst)).
    apply elem_of_cons in Hin as [->|Hin]; [set_solver|]. rewrite snd_zip in Hin; [set_solver|]. simpl in Hlen.
    rewrite length_fmap. lia.
Qed.

Lemma touches_staged_bind {A} (P : Path → Prop) p s (k : Path → Io A) :
  (∀ t, dotted t → touches P (k t)) → touches P (bind (staged_path p s) k).
Proof.
  intros Hk w. destruct (staged_path_dotted p s w) as (t & w1 & Hs & Ht & Hf & Hr). unfold bind. rewrite Hs.
  destruct (Hk t Ht w1) as [H1 H2]. split; [intros q Hq; by rewrite H1, Hf | auto].
Qed.

Lemma touches_backup_outputs (P : Path → Prop) outs temps : ∀ bs,
  (∀ q, dotted q → P q) → Forall P (outs.*1) → Forall P temps → Forall (λ b, P b.1 ∧ P b.2) bs →
  touches P (backup_outputs outs temps bs).
Proof.
  induction outs as [|[p c] outs IH]; intros bs Hd Ho Ht Hb; [apply touches_ret|].
  apply Forall_cons in Ho as [Hp Ho]. apply touches_bind; [apply touches_exists|].
  intros [|]; [|by apply IH]. apply touches_staged_bind. intros b Hdb. apply touches_try.
  - apply touches_bind; [by apply touches_link, Hd|]. intros _. apply touches_try; [by apply touches_remove | done |].
    intros e. apply touches_bind; [by apply touches_ignore, touches_remove, Hd | done].
  - intros _. apply IH; [done..|]. apply Forall_app. auto.
  - intros e. apply touches_bind; [by apply touches_restore, Forall_rev|]. intros errors.
    apply touches_bind; [by apply touches_remove_all | intros; apply touches_throw].
Qed.

Lemma drop_backups_ok bs w : (drop_backups bs w).1 = Ok tt.
Proof.
  revert w. induction bs as [|[p s] bs IH]; intros w; [done|]. simpl.
  destruct (remove_file s w) as [[[]|e] w1]; apply IH.
Qed.

Lemma saved_start m : saved m m [] [].
Proof. split; simpl; [apply NoDup_nil_2 | apply NoDup_nil_2 | done | set_solver..]. Qed.

Lemma staging_start m : staging m [] [].
Proof. split; constructor. Qed.

(** What the last two loops do once the backups are made. *)
Lemma publish_backed m0 w bs temps outs r w' :
  backed m0 w bs temps (outs.*2) → NoDup (outs.*1) → Forall (λ o, ¬ dotted o.1) outs → bs.*1 ⊆ outs.*1 →
  Forall (λ o, o.1 ∈ bs.*1 ∨ m0 !! o.1 = None) outs →
  (rename_outputs (zip (outs.*1) temps) [] bs ;;! drop_backups bs) w = (r, w') →
  (∀ q, ¬ dotted q → q ∉ outs.*1 → files w' !! q = m0 !! q) ∧
  match r with
  | Ok _ => Forall (λ o, contents_at (files w') o.1 o.2) outs
  | Err e => contains (text e) rollback_marker = false → plain_eq m0 (files w')
  end.
Proof.
  intros [Hr Hst Hs Hdj] Hnd Hpl Hsub Hb H.
  assert (Forall (λ b, dotted b.2) bs) as Hdb by (eapply Forall_impl; [exact (sv_names _ _ _ _ Hs)|]; by intros ? []).
  assert (∀ q, q ∈ bs.*1 → q ∈ outs.*1) as Hin by done.
  assert (length temps = length outs) as Hlen.
  { pose proof (Forall2_length _ _ _ (stg_contents _ _ _ Hst)) as Hl. by rewrite length_fmap in Hl. }
  unfold bind in H. destruct (rename_outputs (zip (outs.*1) temps) [] bs w) as [r1 w1] eqn:E.
  pose proof (touches_rename_outputs (λ q, dotted q ∨ q ∈ outs.*1) (zip (outs.*1) temps) [] bs) as Ht.
  destruct Ht with (w := w) as [Hframe _].
  { apply Forall_forall. intros [p t] Hz. apply elem_of_zip_l in Hz as Hz1. apply elem_of_zip_r in Hz. simpl.
    split; [by right | left; exact (proj1 (Forall_forall _ _) (stg_dotted _ _ _ Hst) _ Hz)]. }
  { done. }
  { apply Forall_forall. intros [p s] Hz. split; [right; apply Hin; by apply (list_elem_of_fmap_2 fst) in Hz|].
    left. exact (proj1 (Forall_forall _ _) Hdb _ Hz). }
  rewrite E in Hframe. simpl in Hframe.
  assert (∀ q, ¬ dotted q → q ∉ outs.*1 → files w1 !! q = m0 !! q) as Hother.
  { intros q Hq Hn. rewrite Hframe by naive_solver. apply (sv_others _ _ _ _ Hs); [done | auto | set_solver]. }
  apply (rename_outputs_spec m0 bs outs [] temps (outs.*2)) in E; [|by split | done | done | done |].
  - destruct r1 as [[]|e]; [|by injection H as <- <-].
    pose proof (touches_drop dotted bs Hdb w1) as [Hd _]. pose proof (drop_backups_ok bs w1) as Hok.
    rewrite H in Hd, Hok. simpl in Hd, Hok. subst r. split; [intros q Hq Hn; rewrite Hd; auto|].
    apply Forall_forall. intros o Ho. unfold contents_at. rewrite Hd.
    + exact (proj1 (Forall_forall _ _) (pb_done _ _ _ _ _ _ E) _ Ho).
    + exact (proj1 (Forall_forall _ _) Hpl _ Ho).
  - apply Forall_and. done.
Qed.

(** ** Publication is all or nothing *)

Lemma publish_outputs_spec outs w r w' :
  reliable w → NoDup (outs.*1) → Forall (λ o, ¬ dotted o.1) outs → publish_outputs outs w = (r, w') →
  (∀ q, ¬ dotted q → q ∉ outs.*1 → files w' !! q = files w !! q) ∧
  match r with
  | Ok _ => Forall (λ o, files w' !! o.1 = Some (Regular o.2)) outs
  | Err e => contains (text e) rollback_marker = false → ∀ q, ¬ dotted q → files w' !! q = files w !! q
  end.
Proof.
  intros Hr Hnd Hpl H. unfold publish_outputs in H. unfold bind at 1 in H.
  pose proof (touches_check (λ _, False) outs w) as [Hc1 Hc2]. pose proof (check_outputs_ok outs w) as Hchk.
  destruct (check_outputs outs w) as [[[]|e] w1]; simpl in Hc1, Hc2.
  2: { injection H as <- <-. naive_solver. }
  assert (plain_eq (files w) (files w1)) as Heq1 by (intros q _; apply Hc1; by intros []).
  unfold bind at 1 in H. destruct (stage_outputs outs [] w1) as [r2 w2] eqn:E2.
  apply (stage_outputs_spec outs [] []) in E2 as (Heq2 & Hr2 & Hok2); [|auto | apply staging_start].
  assert (plain_eq (files w) (files w2)) as Heq by (intros q Hq; rewrite Heq2, Heq1; done).
  destruct r2 as [temps|e]; [|injection H as <- <-; by split; [intros q Hq _; apply Heq|]].
  specialize (Hok2 temps eq_refl). simpl in Hok2. unfold bind at 1 in H.
  destruct (backup_outputs outs temps [] w2) as [r3 w3] eqn:E3.
  pose proof (touches_backup_outputs (λ q, dotted q ∨ q ∈ outs.*1) outs temps []) as Ht.
  destruct Ht with (w := w2) as [Hframe _]; [by left | | | done |].
  { apply Forall_forall. by right. }
  { eapply Forall_impl; [exact (stg_dotted _ _ _ Hok2)|]. by left. }
  rewrite E3 in Hframe. simpl in Hframe.
  apply (backup_outputs_spec (files w2) outs temps (outs.*2)) in E3; [| |done|].
  - destruct r3 as [bs|e].
    + destruct E3 as (Hb & _ & Hsub & Hnew). rewrite app_nil_l in Hsub.
      apply (publish_backed (files w2)) in H as [H1 H2]; [|done..]. split; [intros q Hq Hn; rewrite H1, Heq; done|].
      destruct r; [done|]. intros Hc q Hq. rewrite (H2 Hc q Hq). by apply Heq.
    + injection H as <- <-. split; [intros q Hq Hn; rewrite Hframe, Heq by naive_solver; done|].
      intros Hc q Hq. rewrite (E3 Hc q Hq). by apply Heq.
  - split; [done | done | apply saved_start |]. intros s Hs. inversion Hs.
  - apply Forall_forall. intros o Ho. split; [|set_solver]. pose proof (proj1 (Forall_forall _ _) Hpl o Ho) as Hp.
    split; [done|]. rewrite (Heq _ Hp). exact (proj1 (Forall_forall _ _) (Hchk w1 Hr eq_refl) o Ho).
Qed.

(** C24: Whatever fails and when, as long as metadata queries do not: [publish_outputs] of
    distinct destinations, none named like a staged file, either succeeds with every output
    holding exactly its new contents, or fails; and a failure whose text does not report a
    failed rollback leaves every destination, indeed every path but its own staged and
    backup names, as it was.  Paths that are neither never change, whatever happens. *)
Theorem publish_outputs_atomic outs w r w' :
  reliable w → NoDup (outs.*1) → Forall (λ o, ¬ dotted o.1) outs → publish_outputs outs w = (r, w') →
  (∀ q, ¬ dotted q → q ∉ outs.*1 → files w' !! q = files w !! q) ∧
  match r with
  | Ok _ => Forall (λ o, files w' !! o.1 = Some (Regular o.2)) outs
  | Err e => contains (text e) rollback_marker = false → ∀ q, ¬ dotted q → files w' !! q = files w !! q
  end.
Proof. apply publish_outputs_spec. Qed.

(** ** Runs *)

Ltac decided := apply (bool_decide_unpack _); vm_compute; exact I.

Definition file (name : list byte) : Path := (str "out/", Some name).
Definition full : IoError := mk_io OtherKind (str "No space left on device (os error 28)").

Definition before : gmap Path Entry := <[file (str "a") := Regular (str "old a")]> (<[file (str "b") := Regular (str "old b")]> ∅).
Definition run_on (m : gmap Path Entry) (fs : list (option Fault)) (stats : list bool) : result IoError unit * World :=
  publish_outputs [(file (str "a"), str "new a"); (file (str "c"), str "new c")] (mk_world m 7 42 fs stats []).

(** Without failures: the new contents and nothing else. *)
Example published : run_on before [] [] = (Ok tt, mk_world
  (<[file (str "c") := Regular (str "new c")]> (<[file (str "a") := Regular (str "new a")]> before)) 10 42 [] [] []).
Proof. decided. Qed.

(** The rename of the second output fails (after two staged files of three calls each and a
    backup of two, the tenth call): the first is put back. *)
Example rolled_back :
  run_on before (repeat None 9 ++ [Some (mk_fault full 0)]) [] = (Err full, mk_world before 10 42 [] [] []).
Proof. decided. Qed.

(** A symlink is refused before anything is written. *)
Example refused : let m := <[file (str "c") := Symlink (file (str "b"))]> before in
  run_on m [] [] = (Err (mk_io OtherKind (str "refusing to replace non-regular output out/c")), mk_world m 7 42 [] [] []).
Proof. decided. Qed.

(** A write that fails leaves its own staged file behind: only the earlier ones are removed. *)
Example staged_left_behind :
  run_on before [None; Some (mk_fault full 2)] []
  = (Err full, mk_world (<[file (str ".a.42.7.tmp") := Regular (str "ne")]> before) 8 42 [] [] []).
Proof. decided. Qed.

(** Where a metadata query fails the destination is taken to be absent: it gets no backup,
    and a later failure loses it without a word about a rollback. *)
Example query_failure_loses_output :
  let o := run_on before (repeat None 7 ++ [Some (mk_fault full 0)]) [false; false; true] in
  o.1 = Err full ∧ files o.2 !! file (str "a") = None.
Proof. split; decided. Qed.

Definition failing : World := mk_world before 7 42 (repeat None 9 ++ [Some (mk_fault full 0)]) [] [].
Definition two_outputs : list Output := [(file (str "a"), str "new a"); (file (str "c"), str "new c")].

Lemma publish_outputs_atomic_witness :
  is_ok (publish_outputs two_outputs failing).1 = false
  ∧ ∀ q, ¬ dotted q → files (publish_outputs two_outputs failing).2 !! q = before !! q.
Proof.
  assert ((publish_outputs two_outputs failing).1 = Err full) as Herr by decided.
  destruct (publish_outputs two_outputs failing) as [r w'] eqn:E. simpl in Herr. subst r. split; [reflexivity|].
  refine (proj2 (publish_outputs_atomic two_outputs failing _ _ _ _ _ E) _).
  - apply List.Forall_nil.
  - decided.
  - decided.
  - decided.
Defined.
