(* ===== verification/Capture.v ===== *)
(** The capture text format of [src/tools/wingcapture.rs]: hexadecimal, event lines, the
    strict parser of version 2 captures with its promotion policy, and the writer.

    A text is the bytes of a [&str].  Slicing a string off a character boundary panics:
    those functions return an [option], [None] for the panic.  Error messages that quote a
    line with [Debug] formatting keep the line instead of its quoted form. *)

From stdpp Require Import gmap.
From S2P Require Import Prelude Text Decimal Bytes Lib Utf8 Words Channel NativeRequest Redact.
Local Open Scope Z_scope.

(** ** Errors *)

Inductive HexError := OddLength | InvalidDigit.

Module CaptureErrors.
Inductive CaptureError :=
| Message (text : list byte)
| Quoting (text quoted : list byte)
| HexAt (line : list byte) (e : HexError)
| Hex (e : HexError)
| Native (text : list byte) (e : Error)
| Sensitive (line : list byte) (findings : list Finding)
| Redaction (e : RedactError).
End CaptureErrors.
Export CaptureErrors.

(** A result that a panic may replace. *)
Definition Try (A : Type) : Type := option (result CaptureError A).

Definition fine {A} (a : A) : Try A := Some (Ok a).
Definition fail {A} (e : CaptureError) : Try A := Some (Err e).
Definition and_then {A B} (m : Try A) (k : A → Try B) : Try B :=
  match m with Some (Ok a) => k a | Some (Err e) => Some (Err e) | None => None end.

Declare Scope capture_scope.
Delimit Scope capture_scope with capture.
Notation "'let*' x ':=' m 'in' k" := (and_then m (λ x, k))
  (at level 10, x binder, m at level 100, k at level 200, only parsing) : capture_scope.
Local Open Scope capture_scope.

(** [o.ok_or(e)?]. *)
Definition expect_some {A} (o : option A) (e : CaptureError) : Try A :=
  match o with Some a => fine a | None => fail e end.

(** ** Lines and hexadecimal *)

(** The two-character prefix of an untimed data line. *)
Definition split_prefix (line : list byte) : option (list byte * list byte) :=
  let prefixes := [str "N>"; str "N<"; str "M<"; str "O<"; str "O>"; str "D<"] in
  prefix ← find (starts_with line) prefixes;
  Some (prefix, drop (length prefix) line).

Definition space : byte := Byte.x20.

Definition split_capture_line (line : list byte) : option (list byte * list byte) :=
  if starts_with line (str "@") then
    match splitn_whitespace 4 line with
    | ordinal :: offset :: channel :: rest =>
      Some (ordinal ++ [space] ++ offset ++ [space] ++ channel, trim (default [] (head rest)))
    | _ => None
    end
  else split_prefix line.

(** The pairs of digits; [compact[i..i + 2]] panics unless both ends are character
    boundaries. *)
Fixpoint hex_pairs (s : list byte) : option (result HexError (list byte)) :=
  match s with
  | a :: b :: rest =>
    if is_cont a || match rest with c :: _ => is_cont c | [] => false end then None
    else match from_str_radix_16 [a; b] with
         | None => Some (Err InvalidDigit)
         | Some v => r ← hex_pairs rest; Some (map_ok (cons (b8 v)) r)
         end
  | _ => Some (Ok [])
  end.

Definition decode_hex (s : list byte) : option (result HexError (list byte)) :=
  let compact := concat (List.filter (λ c, negb (is_whitespace c)) (chars s)) in
  if Nat.even (length compact) then hex_pairs compact else Some (Err OddLength).

Definition HEX : list byte := str "0123456789abcdef".
Definition hex_digit (v : Z) : byte := nth (Z.to_nat v) HEX Byte.x00.

Fixpoint encode_hex (bytes : list byte) : list byte :=
  match bytes with
  | [] => []
  | b :: bytes => hex_digit (Z.shiftr (u8 b) 4) :: hex_digit (Z.land (u8 b) 15) :: encode_hex bytes
  end.

(** [decode_hex(hex).map_err(...)?]. *)
Definition decode_or (s : list byte) (error : HexError → CaptureError) : Try (list byte) :=
  match decode_hex s with
  | None => None
  | Some (Ok bytes) => fine bytes
  | Some (Err e) => fail (error e)
  end.

Example hex_tests :
  encode_hex [b8 0xdf; b8 0x0a] = str "df0a"
  ∧ decode_hex (str " Df 0A ") = Some (Ok [b8 0xdf; b8 0x0a])
  ∧ decode_hex (str "abc") = Some (Err OddLength)
  ∧ decode_hex (str "zz") = Some (Err InvalidDigit).
Proof. by vm_compute. Qed.

(** A sign is accepted in the place of the first digit of a byte. *)
Example signed_pair : decode_hex (str "+f") = Some (Ok [b8 15]).
Proof. by vm_compute. Qed.

(** A character of three bytes next to a digit is cut in the middle. *)
Example hex_panics : decode_hex (map b8 [0xe2; 0x82; 0xac; 0x41]) = None.
Proof. by vm_compute. Qed.

Example line_tests :
  split_capture_line (str "@12 +34us N< 00 11") = Some (str "@12 +34us N<", str "00 11")
  ∧ split_capture_line (str "@1 +0us N<") = Some (str "@1 +0us N<", [])
  ∧ split_capture_line (str "@1 +0us") = None
  ∧ split_capture_line (str "O>2f") = Some (str "O>", str "2f")
  ∧ split_capture_line (str "D>2f") = None.
Proof. by vm_compute. Qed.

(** ** The hardware matrix *)

Abbreviation Headers := (gmap (list byte) (list byte)).

Record MatrixEvidence := mk_evidence {
  discovery_request : bool;
  discovery_reply : bool;
  native_in : list byte;
  native_out : list byte;
  meter_frames : nat;
  meter_tokens : gset Z;
  disconnect : bool;
}.

Definition no_evidence : MatrixEvidence := mk_evidence false false [] [] 0 ∅ false.

Definition HARDWARE_MATRIX : list byte := str "wing-rack-3.1-v1".

Definition require_true (headers : Headers) (key : list byte) : Try unit :=
  if decide (headers !! key = Some (str "true")) then fine tt
  else fail (Message (str "hardware matrix requires " ++ key ++ str ": true")).

(** [headers.get(key)] is one of [values]. *)
Definition require_one_of (headers : Headers) (key : list byte) (values : list (list byte)) (error : list byte) : Try unit :=
  match headers !! key with
  | Some v => if decide (v ∈ values) then fine tt else fail (Message error)
  | None => fail (Message error)
  end.

Definition require (condition : bool) (error : list byte) : Try unit :=
  if condition then fine tt else fail (Message error).

(** What the requests of the capture show. *)
Record Requested := mk_requested {
  saw_get : bool;
  saw_definition : bool;
  saw_set : bool;
  subscribed : gset Z;
  renewed : gset Z;
  saw_keepalive : bool;
}.

Definition note_request (r : Requested) (request : NativeRequest) : Requested :=
  let '(mk_requested g d s sub ren k) := r in
  match request with
  | NativeRequests.Get _ | NativeRequests.BulkData _ => mk_requested true d s sub ren k
  | NativeRequests.Definition_ _ | NativeRequests.BulkDefinition _ => mk_requested g true s sub ren k
  | NativeRequests.Set_ _ _ | NativeRequests.Toggle _ | NativeRequests.Step _ _ => mk_requested g d true sub ren k
  | NativeRequests.MeterSubscribe _ report_id _ => mk_requested g d s ({[report_id]} ∪ sub) ren k
  | NativeRequests.MeterRenew report_id => mk_requested g d s sub ({[report_id]} ∪ ren) k
  | NativeRequests.KeepAlive channel => if channel =? 1 then mk_requested g d s sub ren true else r
  | _ => r
  end.

Definition note_requests : list NativeRequest → Requested :=
  foldl note_request (mk_requested false false false ∅ ∅ false).

(** The labels of what is missing, in the order they are checked. *)
Definition missing (r : Requested) (tokens : gset Z) : list (list byte) :=
  map snd (List.filter fst
    [(negb (saw_get r), str "get/data");
     (negb (saw_definition r), str "definition");
     (negb (saw_set r), str "state-changing write");
     ((size (subscribed r) <? 2)%nat, str "two distinct meter subscriptions");
     ((size (renewed r) <? 2)%nat, str "renewals for two distinct meter reports");
     (negb (bool_decide (set_Forall (λ id, id ∈ renewed r) (subscribed r))), str "a renewal for every subscribed meter report");
     (negb (bool_decide (set_Forall (λ id, Z.land id 0xffff0000 ∈ tokens) (subscribed r))),
      str "a raw frame for every subscribed meter report");
     (negb (saw_keepalive r), str "Native keepalive/handshake")]).

(** [labels.join(", ")]. *)
Fixpoint join_comma (l : list (list byte)) : list byte :=
  match l with [] => [] | [s] => s | s :: l => s ++ str ", " ++ join_comma l end.

(** [f(..).map_err(|error| format!("{text}: {error}"))?]. *)
Definition native {A} (r : Result A) (text : list byte) : Try A :=
  match r with Ok a => fine a | Err e => fail (Native text e) end.

Definition validate_headers (headers : Headers) : Try unit :=
  let* _ := (if decide (headers !! str "matrix_contract" = Some HARDWARE_MATRIX) then fine tt
             else fail (Message (str "hardware capture requires matrix_contract: " ++ HARDWARE_MATRIX))) in
  let* _ := require_true headers (str "state_changing_write_approved") in
  let* _ := require_one_of headers (str "destructive_write_approved") [str "true"; str "false"]
              (str "hardware matrix requires explicit destructive_write_approved: true|false") in
  let* _ := require_true headers (str "restore_verified") in
  let* _ := require_true headers (str "concurrent_definition_write_observed") in
  let* _ := require_true headers (str "disconnect_observed") in
  require_one_of headers (str "meter_cardinality_verdict") [str "replaces"; str "concurrent"; str "ambiguous"]
    (str "hardware matrix requires meter_cardinality_verdict: replaces|concurrent|ambiguous").

Definition validate_hardware_matrix (headers : Headers) (evidence : MatrixEvidence) : Try unit :=
  let* _ := validate_headers headers in
  let* _ := require (discovery_request evidence && discovery_reply evidence)
              (str "hardware matrix is missing discovery request/reply") in
  let* _ := require (negb (length (native_in evidence) =? 0)%nat)
              (str "hardware matrix is missing console-to-client Native traffic") in
  let* _ := require (2 <=? meter_frames evidence)%nat (str "hardware matrix requires at least two raw meter frames") in
  let* _ := require (disconnect evidence) (str "hardware matrix is missing an explicit empty N< disconnect event") in
  let '(pushed, response_framing) := push default_channels (native_in evidence) in
  let* _ := native pushed (str "invalid Native response framing") in
  let* _ := native (finish response_framing) (str "incomplete Native response framing") in
  let '(decoded, decoder) := decoder_push (native_out evidence) (decoder_new default_limits) in
  let* requests := native decoded (str "invalid Native request stream") in
  let* _ := native (decoder_finish decoder) (str "incomplete Native request stream") in
  match missing (note_requests requests) (meter_tokens evidence) with
  | [] => fine tt
  | labels => fail (Message (str "hardware matrix is missing " ++ join_comma labels))
  end.

(** ** The parser *)

Definition REQUIRED_V2_HEADERS : list (list byte) :=
  [str "scenario"; str "source"; str "console_model"; str "firmware"; str "capture_date";
   str "sanitizer"; str "manual_redaction_attested"; str "expected_behavior"].

Record CaptureSummary := mk_summary { version : Z; event_count : nat; summary_headers : Headers }.

Record Parser := mk_parser {
  headers : Headers;
  channels_seen : gset (list byte);
  expected_ordinal : Z;
  previous_offset : Z;
  events_read : nat;
  matrix : MatrixEvidence;
  redaction_events : list CaptureEvent;
  declared_version : option (list byte);
  saw_data : bool;
}.

Definition new_parser : Parser := mk_parser ∅ ∅ 1 0 0 no_evidence [] None false.

Definition insert_header (key value : list byte) (p : Parser) : Parser :=
  mk_parser (<[key := value]> (headers p)) (channels_seen p) (expected_ordinal p) (previous_offset p) (events_read p)
    (matrix p) (redaction_events p)
    (if bytes_eqb key (str "wingcap_version") then Some value else declared_version p) (saw_data p).

(** A metadata line, after its [#]. *)
Definition parse_metadata (promotion : bool) (line rest : list byte) (p : Parser) : Try Parser :=
  let* _ := (if promotion then
               match scan rest with
               | None => None
               | Some [] => fine tt
               | Some _ => fail (Quoting (str "sensitive identifier in metadata") line)
               end
             else fine tt) in
  match split_once (b8 58) (trim rest) with
  | None => fine p
  | Some (key, value) =>
    let key := to_ascii_lowercase (trim key) in
    let value := trim value in
    if decide (is_Some (headers p !! key)) then fail (Message (str "duplicate capture metadata key: " ++ key))
    else if bytes_eqb key (str "wingcap_version") then
      if saw_data p then fail (Message (str "wingcap_version must precede data"))
      else if negb (bytes_eqb value (str "2")) then fail (Message (str "unsupported wingcap_version"))
      else fine (insert_header key value p)
    else fine (insert_header key value p)
  end.

(** What an event adds to the evidence. *)
Definition note_event (channel bytes : list byte) (m : MatrixEvidence) : MatrixEvidence :=
  let '(mk_evidence req rep nin nout frames tokens disc) := m in
  if bytes_eqb channel (str "D>") then mk_evidence (req || starts_with bytes (str "WING?")) rep nin nout frames tokens disc
  else if bytes_eqb channel (str "D<") then mk_evidence req (rep || starts_with bytes (str "WING,")) nin nout frames tokens disc
  else if bytes_eqb channel (str "N>") then mk_evidence req rep nin (nout ++ bytes) frames tokens disc
  else if bytes_eqb channel (str "N<") then
    mk_evidence req rep (nin ++ bytes) nout frames tokens (disc || (length bytes =? 0)%nat)
  else if bytes_eqb channel (str "M>") then mk_evidence req rep nin (nout ++ bytes) frames tokens disc
  else if bytes_eqb channel (str "M<") then
    mk_evidence req rep nin nout (S frames) ({[from_be (take 4 bytes)]} ∪ tokens) disc
  else m.

Definition CHANNELS : list (list byte) :=
  [str "D>"; str "D<"; str "N>"; str "N<"; str "M>"; str "M<"; str "O>"; str "O<"].

Definition event_ordinal (field : option (list byte)) : option Z :=
  value ← field; digits ← strip_prefix value (str "@"); parse_u64 digits.

Definition event_offset (field : option (list byte)) : option Z :=
  value ← field; unsigned ← strip_prefix value (str "+"); digits ← strip_suffix unsigned (str "us"); parse_u64 digits.

Definition push_event (promotion : bool) (offset : Z) (channel bytes : list byte) (p : Parser) : Parser :=
  mk_parser (headers p) ({[channel]} ∪ channels_seen p) (expected_ordinal p + 1) offset (S (events_read p))
    (note_event channel bytes (matrix p))
    (if promotion then redaction_events p ++ [(channel, bytes)] else redaction_events p)
    (declared_version p) true.

(** A data line. *)
Definition parse_event (promotion : bool) (line : list byte) (p : Parser) : Try Parser :=
  let* '(prefix, hex) := expect_some (split_capture_line line) (Quoting (str "unrecognized capture line") line) in
  if negb (starts_with prefix (str "@")) then fail (Quoting (str "V2 data lines must use timed @ events") line) else
  let fields := split_whitespace prefix in
  let* ordinal := expect_some (event_ordinal (fields !! 0%nat)) (Quoting (str "invalid event ordinal in") line) in
  if negb (ordinal =? expected_ordinal p) then
    fail (Message (str "event ordinal " ++ decimal_fuel 20 ordinal ++ str " is not the expected "
                   ++ decimal_fuel 20 (expected_ordinal p)))
  else
  let* offset := expect_some (event_offset (fields !! 1%nat)) (Quoting (str "invalid event offset in") line) in
  if offset <? previous_offset p then fail (Quoting (str "event offsets are not monotonic in") line) else
  let* channel := expect_some (fields !! 2%nat) (Quoting (str "missing event channel in") line) in
  if negb (bool_decide (channel ∈ CHANNELS)) then fail (Quoting (str "unknown event channel") channel) else
  let* bytes := decode_or hex (HexAt line) in
  if bytes_eqb channel (str "M<") && (length bytes <? 4)%nat
  then fail (Message (str "V2 meter input omits the four-byte report token"))
  else fine (push_event promotion offset channel bytes p).

Definition parse_line (promotion : bool) (raw : list byte) (p : Parser) : Try Parser :=
  let line := trim_end raw in
  match line with
  | [] => fine p
  | _ => match strip_prefix line (str "#") with
         | Some rest => parse_metadata promotion line rest p
         | None => parse_event promotion line p
         end
  end.

Fixpoint parse_lines (promotion : bool) (ls : list (list byte)) (p : Parser) : Try Parser :=
  match ls with
  | [] => fine p
  | raw :: ls => let* p := parse_line promotion raw p in parse_lines promotion ls p
  end.

Fixpoint require_headers (promotion : bool) (keys : list (list byte)) (hs : Headers) : Try unit :=
  match keys with
  | [] => fine tt
  | key :: keys =>
    let* value := expect_some (value ← hs !! key;
                               if negb (bytes_eqb value []) && negb (contains value (str "FILL-ME-IN"))
                               then Some value else None)
                    (Message (str "missing required V2 metadata: " ++ key)) in
    if promotion && bytes_eqb key (str "manual_redaction_attested") && negb (bytes_eqb value (str "true"))
    then fail (Message (str "manual free-text redaction attestation must be true"))
    else require_headers promotion keys hs
  end.

Fixpoint require_channels (channels : list (list byte)) (seen : gset (list byte)) : Try unit :=
  match channels with
  | [] => fine tt
  | channel :: channels =>
    if decide (channel ∈ seen) then require_channels channels seen
    else fail (Message (str "complete V2 capture is missing " ++ channel ++ str " events"))
  end.

(** The demands of a promotion that are not about the headers' presence. *)
Definition check_promotion (p : Parser) : Try unit :=
  let* _ := require_channels [str "D>"; str "D<"; str "N>"; str "N<"; str "M>"; str "M<"] (channels_seen p) in
  let source := headers p !! str "source" in
  let hardware := bool_decide (source = Some (str "hardware")) in
  let* _ := require (bool_decide (source = Some (str "synthetic")) || hardware)
              (str "capture source must be exactly synthetic or hardware") in
  let* _ := (if hardware then
               match headers p !! str "sanitizer" with
               | Some v => require (negb (bytes_eqb v (str "n/a") || bytes_eqb v []))
                             (str "hardware capture is missing a sanitizer version")
               | None => fail (Message (str "hardware capture is missing a sanitizer version"))
               end
             else fine tt) in
  if hardware then validate_hardware_matrix (headers p) (matrix p) else fine tt.

Definition parse_capture_with_policy (text : list byte) (promotion : bool) : Try CaptureSummary :=
  let* p := parse_lines promotion (lines text) new_parser in
  let* _ := (if promotion then
               match scan_events (redaction_events p) with
               | None => None
               | Some [] => fine tt
               | Some _ => fail (Message (str "sensitive identifier in capture streams"))
               end
             else fine tt) in
  let* declared := expect_some (declared_version p) (Message (str "promotion requires wingcap_version: 2")) in
  let* version := expect_some (parse_u8 declared) (Message (str "invalid wingcap_version")) in
  if negb (version =? 2) then fail (Message (str "promotion requires wingcap_version: 2")) else
  let* _ := require_headers promotion REQUIRED_V2_HEADERS (headers p) in
  let* _ := (if promotion then check_promotion p else fine tt) in
  fine (mk_summary version (events_read p) (headers p)).

Definition parse_capture (text : list byte) : Try CaptureSummary := parse_capture_with_policy text true.
Definition parse_capture_structure (text : list byte) : Try CaptureSummary := parse_capture_with_policy text false.

Definition preflight_text (text : list byte) : Try CaptureSummary :=
  let lower := to_ascii_lowercase text in
  if contains lower (str "wingemul") || contains lower (str "wapi")
  then fail (Message (str "capture references a prohibited vendor-derived source"))
  else parse_capture text.

(** ** Events *)

Definition contract_event (line : list byte) : Try CaptureEvent :=
  let* '(prefix, hex) := expect_some (split_capture_line line) (Quoting (str "unrecognized capture event") line) in
  let* channel := expect_some (split_whitespace prefix !! 2%nat) (Quoting (str "missing channel in") line) in
  let* bytes := decode_or hex Hex in
  fine (channel, bytes).

Fixpoint collect {A B} (f : A → Try B) (l : list A) : Try (list B) :=
  match l with
  | [] => fine []
  | a :: l => let* b := f a in let* bs := collect f l in fine (b :: bs)
  end.

(** The data lines of a text. *)
Definition event_lines (text : list byte) : list (list byte) :=
  List.filter (λ line, starts_with line (str "@")) (lines text).

Definition contract_events (text : list byte) : Try (list CaptureEvent) :=
  let* _ := parse_capture_structure text in collect contract_event (event_lines text).

(** ** The writer *)

(** An event as recorded: the microseconds since the start, the channel, the bytes. *)
Abbreviation CapturedEvent := (Z * list byte * list byte)%type.

Definition PROXY_MAX_EVENTS : nat := Z.to_nat 100000.
Definition PROXY_MAX_BYTES : Z := 16 * 1024 * 1024.

(** [bytes] is bounded by [PROXY_MAX_BYTES], so that its sums stay within [usize]. *)
Record ProxyRecorder := mk_recorder { recorded : list CapturedEvent; recorded_bytes : Z }.

Definition new_recorder : ProxyRecorder := mk_recorder [] 0.

(** [elapsed] is what the clock shows, in microseconds. *)
Definition record (elapsed : Z) (channel bytes : list byte) (r : ProxyRecorder) : result (list byte) unit * ProxyRecorder :=
  if (PROXY_MAX_EVENTS <=? length (recorded r))%nat || (PROXY_MAX_BYTES <? recorded_bytes r + Z.of_nat (length bytes))
  then (Err (str "Native proxy capture exceeded 100000 events or 16777216 bytes"), r)
  else (Ok tt, mk_recorder (recorded r ++ [(Z.min elapsed (2 ^ 64 - 1), channel, bytes)])
                 (recorded_bytes r + Z.of_nat (length bytes))).

(** Lines, each with its line feed. *)
Definition text_of (ls : list (list byte)) : list byte := concat (map (λ l, l ++ [newline]) ls).

Definition v2_headers (scenario expected_behavior : list byte) : list (list byte * list byte) :=
  [(str "wingcap_version", str "2"); (str "scenario", scenario); (str "source", str "hardware");
   (str "console_model", str "pending-manual-entry"); (str "firmware", str "pending-manual-entry");
   (str "capture_date", str "pending-manual-entry"); (str "sanitizer", str "pending");
   (str "manual_redaction_attested", str "false"); (str "expected_behavior", expected_behavior);
   (str "state_changing_write_approved", str "true"); (str "destructive_write_approved", str "false")].

Definition header_line (h : list byte * list byte) : list byte := str "# " ++ h.1 ++ str ": " ++ h.2.

Definition event_line (ordinal : Z) (e : CapturedEvent) : list byte :=
  let '(offset, channel, bytes) := e in
  str "@" ++ decimal_fuel 20 ordinal ++ str " +" ++ decimal_fuel 20 offset ++ str "us " ++ channel ++ [space] ++ encode_hex bytes.

Fixpoint numbered (ordinal : Z) (events : list CapturedEvent) : list (list byte) :=
  match events with
  | [] => []
  | e :: events => event_line ordinal e :: numbered (ordinal + 1) events
  end.

Definition events_to_v2 (scenario expected_behavior : list byte) (events : list CapturedEvent) : list byte :=
  text_of (map header_line (v2_headers scenario expected_behavior)) ++ text_of (numbered 1 events).

Definition into_v2 (r : ProxyRecorder) : list byte :=
  events_to_v2 (str "native_proxy_raw") (str "bounded transparent Native proxy transcript") (recorded r).

(** ** Hexadecimal *)

Lemma hex_pair b :
  graphic (hex_digit (Z.shiftr (u8 b) 4)) = true ∧ graphic (hex_digit (Z.land (u8 b) 15)) = true
  ∧ from_str_radix_16 [hex_digit (Z.shiftr (u8 b) 4); hex_digit (Z.land (u8 b) 15)] = Some (u8 b)
  ∧ is_cont (hex_digit (Z.shiftr (u8 b) 4)) = false.
Proof. destruct b; vm_compute; done. Qed.

Lemma encode_hex_solid bytes : solid (encode_hex bytes).
Proof.
  induction bytes as [|b bytes IH]; [constructor|]. destruct (hex_pair b) as (H1 & H2 & _).
  by repeat constructor.
Qed.

Lemma encode_hex_length bytes : length (encode_hex bytes) = (2 * length bytes)%nat.
Proof. induction bytes as [|b bytes IH]; [done|]. simpl in *. lia. Qed.

Lemma encode_hex_cont bytes : match encode_hex bytes with c :: _ => is_cont c | [] => false end = false.
Proof. destruct bytes as [|b bytes]; [done|]. apply (hex_pair b). Qed.

Lemma hex_pairs_encode bytes : hex_pairs (encode_hex bytes) = Some (Ok bytes).
Proof.
  induction bytes as [|b bytes IH]; [done|]. destruct (hex_pair b) as (_ & _ & H3 & H4). cbn [encode_hex hex_pairs].
  rewrite H4, encode_hex_cont, H3, IH. simpl. by rewrite b8_u8.
Qed.

Lemma decode_encode_hex bytes : decode_hex (encode_hex bytes) = Some (Ok bytes).
Proof.
  unfold decode_hex. pose proof (encode_hex_solid bytes) as Hs.
  rewrite chars_ascii_nil by auto using solid_ascii.
  assert (∀ s, solid s → List.filter (λ c, negb (is_whitespace c)) (map (λ b, [b]) s) = map (λ b, [b]) s) as Hall.
  { induction 1 as [|b s Hb _ IH]; [done|]. cbn [map List.filter]. by rewrite graphic_solid, IH. }
  rewrite Hall, concat_singletons, encode_hex_length, Nat.even_mul by done. apply hex_pairs_encode.
Qed.

(** ** Event lines *)

Lemma digit_graphic b : digit b = true → graphic b = true.
Proof. destruct b; vm_compute; done. Qed.

Lemma decimal_solid z : 0 ≤ z < 2 ^ 64 → solid (decimal_fuel 20 z).
Proof.
  intros Hz. destruct (decimal_spec 20 (2 ^ 64) z) as (_ & Hd & _); [lia.. |].
  eapply list.Forall_impl; [exact Hd|]. apply digit_graphic.
Qed.

Definition ordinal_word (z : Z) : list byte := str "@" ++ decimal_fuel 20 z.
Definition offset_word (z : Z) : list byte := str "+" ++ decimal_fuel 20 z ++ str "us".

Lemma ordinal_word_solid z : 0 ≤ z < 2 ^ 64 → solid (ordinal_word z) ∧ ordinal_word z ≠ [].
Proof. intros Hz. split; [|done]. constructor; [done|]. by apply decimal_solid. Qed.

Lemma offset_word_solid z : 0 ≤ z < 2 ^ 64 → solid (offset_word z) ∧ offset_word z ≠ [].
Proof.
  intros Hz. split; [|done]. constructor; [done|]. apply list.Forall_app. split; [by apply decimal_solid|]. apply list.Forall_forall. intros b Hb. cbn in Hb. set_solver.
Qed.

Lemma channel_solid c : c ∈ CHANNELS → solid c ∧ c ≠ [].
Proof.
  intros Hc. assert (Forall (λ c, forallb graphic c && negb (bytes_eqb c []) = true) CHANNELS) as H by (vm_compute; repeat constructor).
  pose proof (proj1 (list.Forall_forall _ _) H _ Hc) as [H1 H2]%andb_true_iff. split; [|by intros ->].
  apply list.Forall_forall. intros b Hb. rewrite forallb_forall in H1. apply H1. by apply list_elem_of_In.
Qed.

Lemma event_ordinal_word z : 0 ≤ z < 2 ^ 64 → event_ordinal (Some (ordinal_word z)) = Some z.
Proof.
  intros Hz. unfold event_ordinal, ordinal_word. cbn [mbind option_bind]. rewrite strip_prefix_app. by apply parse_u64_decimal.
Qed.

Lemma event_offset_word z : 0 ≤ z < 2 ^ 64 → event_offset (Some (offset_word z)) = Some z.
Proof.
  intros Hz. unfold event_offset, offset_word. cbn [mbind option_bind]. rewrite strip_prefix_app. cbn [mbind option_bind].
  rewrite strip_suffix_app. by apply parse_u64_decimal.
Qed.

(** An event that a writer may record after one at [prev]. *)
Definition event_ok (prev : Z) (e : CapturedEvent) : Prop :=
  let '(offset, channel, bytes) := e in
  prev ≤ offset < 2 ^ 64 ∧ channel ∈ CHANNELS ∧ (channel = str "M<" → (4 ≤ length bytes)%nat).

Fixpoint events_ok (prev : Z) (events : list CapturedEvent) : Prop :=
  match events with
  | [] => True
  | e :: events => event_ok prev e ∧ events_ok e.1.1 events
  end.

Lemma event_line_words o e :
  event_line o e = ordinal_word o ++ space :: offset_word e.1.1 ++ space :: e.1.2 ++ space :: encode_hex e.2.
Proof. destruct e as [[off ch] bytes]. unfold event_line, ordinal_word, offset_word. cbn [fst snd str]. by rewrite <- !app_assoc. Qed.

Lemma join_words a b c : a ++ [space] ++ b ++ [space] ++ c = a ++ space :: b ++ space :: c.
Proof. done. Qed.

(** What the reader makes of the words of an event line, its bytes on the line or, when
    there are none, trimmed away with the space before them. *)
Lemma split_event_words w1 w2 w3 hex :
  solid w1 → solid w2 → solid w3 → solid hex → starts_with w1 (str "@") = true →
  split_capture_line (w1 ++ space :: w2 ++ space :: w3 ++ space :: hex) = Some (w1 ++ space :: w2 ++ space :: w3, hex)
  ∧ split_capture_line (w1 ++ space :: w2 ++ space :: w3) = Some (w1 ++ space :: w2 ++ space :: w3, []).
Proof.
  intros H1 H2 H3 H4 Hat.
  assert (∀ s, starts_with (w1 ++ s) (str "@") = true) as Hstart.
  { intros s. apply starts_with_iff in Hat as [t ->]. rewrite <- app_assoc. apply starts_with_app. }
  assert (Forall (λ b, is_ascii b = true) hex) as A4 by by apply solid_ascii.
  assert (Forall (λ b, is_ascii b = true) w3) as A3 by by apply solid_ascii.
  assert (Forall (λ b, is_ascii b = true) (w3 ++ space :: hex)) as A34 by (apply list.Forall_app; split; [done | by constructor]).
  assert (∀ s, Forall (λ b, is_ascii b = true) s → Forall (λ b, is_ascii b = true) (w2 ++ space :: s)) as A2.
  { intros s Hs. apply list.Forall_app. split; [by apply solid_ascii | by constructor]. }
  unfold split_capture_line. rewrite !Hstart. split.
  - rewrite (splitn_cons 2), (splitn_cons 1), (splitn_cons 0), splitn_last by auto. cbn [head default]. rewrite join_words.
    assert (trim hex = hex) as Htr; [|by rewrite <- Htr at 2]. destruct hex as [|b hex]; [done|].
    pose proof (trim_plain [] (b :: hex) []) as Ht. rewrite app_nil_r in Ht. apply Ht; [|constructor..].
    unfold plain_text. apply andb_true_iff. split; [apply andb_true_iff; split|].
    + apply forallb_forall. intros x Hx. apply graphic_printable. apply list_elem_of_In in Hx.
      exact (proj1 (list.Forall_forall _ _) H4 _ Hx).
    + by apply list.Forall_cons in H4 as [? _].
    + destruct (rev (b :: hex)) as [|x r] eqn:E; [by apply (f_equal (@length byte)) in E; rewrite length_rev in E|].
      apply Forall_rev in H4. rewrite E in H4. by apply list.Forall_cons in H4 as [? _].
  - rewrite (splitn_cons 2), (splitn_cons 1), (splitn_end 0) by auto. cbn [head default]. by rewrite join_words.
Qed.

Lemma event_prefix_ascii w1 w2 s :
  solid w1 → solid w2 → Forall (λ b, is_ascii b = true) s → Forall (λ b, is_ascii b = true) (w1 ++ space :: w2 ++ space :: s).
Proof.
  intros H1 H2 Hs. apply list.Forall_app. split; [by apply solid_ascii|]. constructor; [done|].
  apply list.Forall_app. split; [by apply solid_ascii|]. by constructor.
Qed.

(** A line without bytes ends in a space, which is trimmed. *)
Lemma trim_event_words w1 w2 w3 bytes :
  solid w1 → solid w2 → solid w3 → w3 ≠ [] →
  trim_end (w1 ++ space :: w2 ++ space :: w3 ++ space :: encode_hex bytes)
  = match bytes with
    | [] => w1 ++ space :: w2 ++ space :: w3
    | _ => w1 ++ space :: w2 ++ space :: w3 ++ space :: encode_hex bytes
    end.
Proof.
  intros H1 H2 H3 N3. destruct bytes as [|b bytes].
  - pose proof (trim_end_solid (w1 ++ space :: w2 ++ [space]) w3 [space]) as Ht.
    cbn [encode_hex]. repeat (rewrite <- !app_assoc in Ht; cbn [app] in Ht).
    apply Ht; [by apply event_prefix_ascii | done | done | by repeat constructor].
  - pose proof (trim_end_solid (w1 ++ space :: w2 ++ space :: w3 ++ [space]) (encode_hex (b :: bytes)) []) as Ht.
    rewrite app_nil_r in Ht. repeat (rewrite <- !app_assoc in Ht; cbn [app] in Ht).
    apply Ht; [|apply encode_hex_solid | done | constructor]. apply event_prefix_ascii; [done..|].
    apply list.Forall_app. split; [by apply solid_ascii | by repeat constructor].
Qed.

(** Reading an event line back, with or without its trailing white space. *)
Lemma read_event_line o e prev :
  0 ≤ o < 2 ^ 64 → 0 ≤ prev → event_ok prev e →
  let prefix := ordinal_word o ++ space :: offset_word e.1.1 ++ space :: e.1.2 in
  split_capture_line (trim_end (event_line o e)) = Some (prefix, encode_hex e.2)
  ∧ split_capture_line (event_line o e) = Some (prefix, encode_hex e.2)
  ∧ (∃ rest, trim_end (event_line o e) = Byte.x40 :: rest)
  ∧ split_whitespace prefix = [ordinal_word o; offset_word e.1.1; e.1.2].
Proof.
  intros Ho Hp He prefix. rewrite !event_line_words. destruct e as [[off ch] bytes]. unfold prefix. clear prefix.
  cbn [fst snd] in *. destruct He as ([Hlo Hhi] & Hch & _).
  destruct (ordinal_word_solid o Ho) as [H1 N1]. destruct (offset_word_solid off ltac:(lia)) as [H2 N2].
  destruct (channel_solid ch Hch) as [H3 N3]. pose proof (encode_hex_solid bytes) as H4.
  destruct (split_event_words (ordinal_word o) (offset_word off) ch (encode_hex bytes) H1 H2 H3 H4 (starts_with_app _ _)) as [Hw Hwo].
  rewrite trim_event_words by done. split_and!; [by destruct bytes | done | destruct bytes; by eexists |].
  rewrite !split_whitespace_cons, split_whitespace_one; try done.
  - by apply solid_ascii.
  - apply list.Forall_app. split; [by apply solid_ascii|]. constructor; [done | by apply solid_ascii].
Qed.

Lemma parse_event_line promotion o e p :
  0 ≤ o < 2 ^ 64 → o = expected_ordinal p → 0 ≤ previous_offset p → event_ok (previous_offset p) e →
  parse_line promotion (event_line o e) p = fine (push_event promotion e.1.1 e.1.2 e.2 p).
Proof.
  intros Ho Heq Hp He. destruct (read_event_line o e _ Ho Hp He) as (Hsplit & _ & (rest & Hat) & Hwords).
  unfold parse_line. rewrite Hat in *.
  rewrite (strip_prefix_none (Byte.x40 :: rest) (str "#")) by reflexivity.
  unfold parse_event. rewrite Hsplit. cbn [expect_some fine and_then]. rewrite Hwords.
  unfold ordinal_word at 1. rewrite <- app_assoc, starts_with_app. cbn [negb list_lookup lookup].
  rewrite event_ordinal_word by done. cbn [expect_some fine and_then]. rewrite Heq, Z.eqb_refl. cbn [negb].
  destruct e as [[off ch] bytes]. cbn [fst snd] in *. destruct He as ([Hlo Hhi] & Hch & Hm).
  rewrite event_offset_word by lia. cbn [expect_some fine and_then].
  rewrite (proj2 (Z.ltb_ge _ _)) by done. cbn [expect_some fine and_then].
  rewrite bool_decide_eq_true_2 by done. cbn [negb]. unfold decode_or. rewrite decode_encode_hex. cbn [and_then fine].
  destruct (bytes_eqb ch (str "M<")) eqn:Em; [|done]. apply bytes_eqb_eq in Em. specialize (Hm Em).
  cbn [andb]. by rewrite (proj2 (Nat.ltb_ge _ _)).
Qed.

Lemma contract_event_line o e prev :
  0 ≤ o < 2 ^ 64 → 0 ≤ prev → event_ok prev e → contract_event (event_line o e) = fine (e.1.2, e.2).
Proof.
  intros Ho Hp He. destruct (read_event_line o e _ Ho Hp He) as (_ & Hsplit & _ & Hwords).
  unfold contract_event. rewrite Hsplit. cbn [expect_some fine and_then]. rewrite Hwords. cbn [list_lookup lookup expect_some fine and_then].
  unfold decode_or. by rewrite decode_encode_hex.
Qed.

(** ** Metadata lines *)

Definition colon : byte := b8 58.

(** A header that is read back as it was written. *)
Definition header_ok (h : list byte * list byte) : bool :=
  plain_text h.1 && negb (contains_any [colon] h.1) && bytes_eqb (to_ascii_lowercase h.1) h.1 && plain_text h.2.

Lemma header_ok_inv h :
  header_ok h = true → plain_text h.1 = true ∧ contains_any [colon] h.1 = false ∧ to_ascii_lowercase h.1 = h.1 ∧ plain_text h.2 = true.
Proof.
  unfold header_ok. intros [[[H1 H2]%andb_true_iff H3]%andb_true_iff H4]%andb_true_iff.
  apply negb_true_iff in H2. by apply bytes_eqb_eq in H3.
Qed.

Lemma header_text k v : plain_text k = true → plain_text v = true → plain_text (k ++ str ": " ++ v) = true.
Proof.
  intros (Hp & (b & t & -> & Hb) & _)%plain_text_inv Hv. apply list.Forall_cons in Hp as [_ Hp].
  cbn [app]. rewrite app_assoc. apply plain_text_intro; [done | | done]. apply list.Forall_app. split; [done | by repeat constructor].
Qed.

Lemma header_line_plain h : header_ok h = true → plain_text (header_line h) = true.
Proof.
  intros (Hk & _ & _ & Hv)%header_ok_inv.
  apply (plain_text_intro Byte.x23 [Byte.x20]); [done | by repeat constructor | by apply header_text].
Qed.

Lemma parse_header_line h p :
  header_ok h = true → headers p !! h.1 = None →
  (h.1 = str "wingcap_version" → h.2 = str "2" ∧ saw_data p = false) →
  parse_line false (header_line h) p = fine (insert_header h.1 h.2 p).
Proof.
  intros Hok Hnew Hver. pose proof (header_line_plain h Hok) as Hpl. apply header_ok_inv in Hok as (Hk & Hc & Hl & Hv).
  unfold parse_line. rewrite trim_end_plain by done. unfold header_line.
  change (str "# " ++ h.1 ++ str ": " ++ h.2) with (str "#" ++ Byte.x20 :: (h.1 ++ str ": " ++ h.2)).
  rewrite strip_prefix_app. unfold parse_metadata. cbn [and_then fine app str]. rewrite trim_space_plain by by apply header_text.
  change (h.1 ++ str ": " ++ h.2) with (h.1 ++ colon :: Byte.x20 :: h.2). unfold colon. rewrite split_once_app by done.
  rewrite trim_plain_id, trim_space_plain, Hl by done. rewrite decide_False by (rewrite Hnew; by intros [? ?]).
  destruct (bytes_eqb h.1 (str "wingcap_version")) eqn:E; [|done]. apply bytes_eqb_eq in E.
  destruct (Hver E) as [-> ->]. done.
Qed.

(** ** Whole texts *)

Definition insert_all (hs : list (list byte * list byte)) (m : Headers) : Headers := foldl (λ m h, <[h.1 := h.2]> m) m hs.

Lemma insert_all_other hs k m : k ∉ hs.*1 → insert_all hs m !! k = m !! k.
Proof.
  revert m. induction hs as [|h hs IH]; intros m Hk; [done|]. cbn [insert_all foldl]. fold (insert_all hs (<[h.1:=h.2]> m)).
  rewrite IH by set_solver. apply lookup_insert_ne. set_solver.
Qed.

Lemma insert_all_lookup hs k v m : NoDup (hs.*1) → (k, v) ∈ hs → insert_all hs m !! k = Some v.
Proof.
  revert m. induction hs as [|h hs IH]; intros m Hn Hin; [by apply not_elem_of_nil in Hin|].
  apply list.NoDup_cons in Hn as [Hh Hn]. cbn [insert_all foldl]. fold (insert_all hs (<[h.1:=h.2]> m)).
  apply elem_of_cons in Hin as [<-|Hin]; [|by apply IH]. rewrite insert_all_other by done. apply lookup_insert_eq.
Qed.

(** The metadata of a text that the structural parser accepts. *)
Record metadata_ok (hs : list (list byte * list byte)) : Prop := {
  md_headers : Forall (λ h, header_ok h = true) hs;
  md_distinct : NoDup (hs.*1);
  md_version : (str "wingcap_version", str "2") ∈ hs;
  md_required : Forall (λ key, ∃ v, (key, v) ∈ hs ∧ contains v (str "FILL-ME-IN") = false) REQUIRED_V2_HEADERS;
}.

Definition add_headers (hs : list (list byte * list byte)) (p : Parser) : Parser :=
  foldl (λ p h, insert_header h.1 h.2 p) p hs.

Lemma parse_headers hs rest : ∀ p,
  Forall (λ h, header_ok h = true) hs → NoDup (hs.*1) → Forall (λ h, headers p !! h.1 = None) hs →
  Forall (λ h, h.1 = str "wingcap_version" → h.2 = str "2") hs → saw_data p = false →
  parse_lines false (map header_line hs ++ rest) p = parse_lines false rest (add_headers hs p).
Proof.
  induction hs as [|h hs IH]; intros p Hok Hn Hnew Hver Hd; [done|].
  apply list.Forall_cons in Hok as [Ho Hok], Hnew as [Hh Hnew], Hver as [Hv Hver]. apply list.NoDup_cons in Hn as [Hnh Hn].
  cbn [map app parse_lines]. rewrite parse_header_line by auto. cbn [and_then fine].
  rewrite IH; [done | done | done | | done | done].
  apply list.Forall_forall. intros x Hx. cbn [insert_header headers]. rewrite lookup_insert_ne.
  - exact (proj1 (list.Forall_forall _ _) Hnew _ Hx).
  - intros Heq. apply Hnh. rewrite Heq. by apply (list_elem_of_fmap_2 fst).
Qed.

Lemma add_headers_spec hs : ∀ p,
  headers (add_headers hs p) = insert_all hs (headers p) ∧ expected_ordinal (add_headers hs p) = expected_ordinal p
  ∧ previous_offset (add_headers hs p) = previous_offset p ∧ events_read (add_headers hs p) = events_read p
  ∧ (str "wingcap_version" ∉ hs.*1 → declared_version (add_headers hs p) = declared_version p)
  ∧ (NoDup (hs.*1) → (str "wingcap_version", str "2") ∈ hs → declared_version (add_headers hs p) = Some (str "2")).
Proof.
  induction hs as [|h hs IH]; intros p.
  { split_and!; try done. intros _ Hin. by apply not_elem_of_nil in Hin. }
  destruct (IH (insert_header h.1 h.2 p)) as (H1 & H2 & H3 & H4 & H5 & H6). split_and!; [done..| |].
  - intros Hn. cbn [add_headers foldl]. fold (add_headers hs (insert_header h.1 h.2 p)). rewrite H5 by set_solver.
    cbn [insert_header declared_version]. destruct (bytes_eqb h.1 (str "wingcap_version")) eqn:E; [|done].
    apply bytes_eqb_eq in E. exfalso. apply Hn. rewrite <- E. apply (list_elem_of_fmap_2 fst). set_solver.
  - intros [Hh Hn]%list.NoDup_cons Hin. cbn [add_headers foldl]. fold (add_headers hs (insert_header h.1 h.2 p)).
    apply elem_of_cons in Hin as [<-|Hin]; [|by apply H6]. by rewrite H5.
Qed.

Definition add_events (promotion : bool) (events : list CapturedEvent) (p : Parser) : Parser :=
  foldl (λ p e, push_event promotion e.1.1 e.1.2 e.2 p) p events.

Lemma parse_events promotion events : ∀ p,
  events_ok (previous_offset p) events → 0 ≤ previous_offset p → 0 ≤ expected_ordinal p →
  expected_ordinal p + Z.of_nat (length events) ≤ 2 ^ 64 →
  parse_lines promotion (numbered (expected_ordinal p) events) p = fine (add_events promotion events p).
Proof.
  induction events as [|e events IH]; intros p He Hp Ho Hlen; [done|]. destruct He as [He Hes].
  cbn [numbered parse_lines length] in *. rewrite parse_event_line by (done || lia). cbn [and_then fine].
  change (expected_ordinal p + 1) with (expected_ordinal (push_event promotion e.1.1 e.1.2 e.2 p)).
  destruct e as [[off ch] bytes]. destruct He as ([? ?] & _). rewrite IH; cbn; (done || lia).
Qed.

Lemma add_events_spec promotion events : ∀ p,
  headers (add_events promotion events p) = headers p ∧ declared_version (add_events promotion events p) = declared_version p
  ∧ events_read (add_events promotion events p) = (events_read p + length events)%nat.
Proof.
  induction events as [|e events IH]; intros p; [cbn; split_and!; (done || lia)|].
  destruct (IH (push_event promotion e.1.1 e.1.2 e.2 p)) as (H1 & H2 & H3).
  cbn [add_events foldl]. fold (add_events promotion events (push_event promotion e.1.1 e.1.2 e.2 p)).
  rewrite H1, H2, H3. cbn. split_and!; (done || lia).
Qed.

Lemma require_headers_ok keys hs :
  Forall (λ key, ∃ v, hs !! key = Some v ∧ v ≠ [] ∧ contains v (str "FILL-ME-IN") = false) keys →
  require_headers false keys hs = fine tt.
Proof.
  induction 1 as [|key keys (v & Hv & Hne & Hc) _ IH]; [done|]. cbn [require_headers]. rewrite Hv. simpl.
  rewrite Hc. destruct (bytes_eqb v []) eqn:E; [by apply bytes_eqb_eq in E|]. done.
Qed.

Lemma event_line_ok o e prev :
  0 ≤ o < 2 ^ 64 → 0 ≤ prev → event_ok prev e → line_ok (event_line o e) ∧ starts_with (event_line o e) (str "@") = true.
Proof.
  intros Ho Hp He. rewrite event_line_words. destruct e as [[off ch] bytes]. destruct He as ([? ?] & Hch & _). cbn [fst snd].
  split; [|unfold ordinal_word; rewrite <- app_assoc; apply starts_with_app].
  apply printable_line. assert (∀ w, solid w → Forall (λ b, printable b = true) w) as Hw.
  { intros w Hw. eapply list.Forall_impl; [exact Hw|]. apply graphic_printable. }
  assert (∀ w s, solid w → Forall (λ b, printable b = true) s → Forall (λ b, printable b = true) (w ++ space :: s)) as Hws.
  { intros w s Hsw Hs. apply list.Forall_app. split; [auto | by constructor]. }
  apply Hws; [by apply ordinal_word_solid|]. apply Hws; [apply offset_word_solid; lia|].
  apply Hws; [by apply channel_solid | apply Hw, encode_hex_solid].
Qed.

Lemma header_line_ok h : header_ok h = true → line_ok (header_line h) ∧ starts_with (header_line h) (str "@") = false.
Proof. intros H. split; [|done]. apply header_line_plain, plain_text_inv in H as [? _]. by apply printable_line. Qed.

Lemma numbered_ok events : ∀ o prev,
  events_ok prev events → 0 ≤ prev → 0 ≤ o → o + Z.of_nat (length events) ≤ 2 ^ 64 →
  Forall (λ l, line_ok l ∧ starts_with l (str "@") = true) (numbered o events)
  ∧ collect contract_event (numbered o events) = fine (map (λ e, (e.1.2, e.2)) events).
Proof.
  induction events as [|e events IH]; intros o prev He Hp Ho Hlen; [by split|]. destruct He as [He Hes].
  cbn [numbered length] in *. destruct (IH (o + 1) e.1.1) as [H1 H2]; [done | | lia.. |].
  { destruct e as [[off ch] bytes]. destruct He as ([? ?] & _). cbn. lia. }
  split; [constructor; [by apply (event_line_ok o e prev); [lia|..] | done]|].
  cbn [collect map]. rewrite (contract_event_line o e prev) by (done || lia). cbn [and_then fine]. by rewrite H2.
Qed.

Lemma text_lines hs evs :
  Forall line_ok (hs ++ evs) → lines (text_of hs ++ text_of evs) = hs ++ evs.
Proof.
  intros H. unfold text_of. rewrite <- concat_app, <- map_app, <- (app_nil_r (concat _)), lines_text by done. by rewrite app_nil_r.
Qed.

(** Text that the writers produce, as the structural parser and the comparison read it. *)
Lemma capture_text_read hs events :
  metadata_ok hs → events_ok 0 events → Z.of_nat (length events) < 2 ^ 64 →
  let text := text_of (map header_line hs) ++ text_of (numbered 1 events) in
  parse_capture_structure text = fine (mk_summary 2 (length events) (insert_all hs ∅))
  ∧ contract_events text = fine (map (λ e, (e.1.2, e.2)) events).
Proof.
  intros [Hok Hn Hv Hreq] He Hlen text. destruct (numbered_ok events 1 0) as [Hl Hc]; [done | lia.. |].
  assert (Forall (λ l, line_ok l ∧ starts_with l (str "@") = false) (map header_line hs)) as Hh.
  { apply List.Forall_map. eapply list.Forall_impl; [exact Hok|]. apply header_line_ok. }
  assert (lines text = map header_line hs ++ numbered 1 events) as Hlines.
  { apply text_lines, list.Forall_app. split; (eapply list.Forall_impl; [done|]); by intros ? []. }
  assert (parse_capture_structure text = fine (mk_summary 2 (length events) (insert_all hs ∅))) as Hparse.
  - unfold parse_capture_structure, parse_capture_with_policy. rewrite Hlines.
    rewrite parse_headers; [| done | done | by apply list.Forall_forall | | done].
    + destruct (add_headers_spec hs new_parser) as (H1 & H2 & H3 & H4 & _ & H6).
      change 1 with (expected_ordinal new_parser). rewrite <- H2, parse_events; rewrite ?H2, ?H3; [|done || cbn; lia..].
      destruct (add_events_spec false events (add_headers hs new_parser)) as (E1 & E2 & E3).
      cbn [and_then fine]. rewrite E2, H6 by done. cbn [expect_some fine and_then].
      rewrite E1, H1, E3, H4. change (parse_u8 (str "2")) with (Some 2). cbn [expect_some fine and_then].
      change (negb (2 =? 2)) with false. cbn iota. rewrite require_headers_ok; [done|].
      eapply list.Forall_impl; [exact Hreq|]. intros key (v & Hin & Hf). exists v. split_and!; [by apply insert_all_lookup | | done].
      pose proof (proj1 (list.Forall_forall _ _) Hok _ Hin) as (_ & _ & _ & Hpl)%header_ok_inv. intros ->. done.
    + apply list.Forall_forall. intros [k v] Hin Hk. cbn [fst snd] in *. subst k.
      pose proof (insert_all_lookup hs _ _ ∅ Hn Hin). pose proof (insert_all_lookup hs _ _ ∅ Hn Hv). congruence.
  - split; [done|]. unfold contract_events. rewrite Hparse. cbn [and_then fine]. unfold event_lines. rewrite Hlines.
    rewrite List.filter_app. assert (List.filter (λ line, starts_with line (str "@")) (map header_line hs) = []) as ->.
    { clear -Hh. induction Hh as [|l ls [_ Hl] _ IH]; [done|]. cbn [List.filter]. by rewrite Hl. }
    assert (List.filter (λ line, starts_with line (str "@")) (numbered 1 events) = numbered 1 events) as ->; [|done].
    clear -Hl. induction Hl as [|l ls [_ Hl] _ IH]; [done|]. cbn [List.filter]. by rewrite Hl, IH.
Qed.

(** ** The second reading of a line *)

Lemma decode_hex_solid s t : solid_chars s = solid_chars t → decode_hex s = decode_hex t.
Proof. unfold decode_hex, solid_chars. by intros ->. Qed.

(** The strict parser reads the trimmed line, the others the line: the fields are the same,
    and so is what the digits decode to. *)
Lemma split_untrimmed raw prefix hex :
  starts_with raw (str "@") = true → split_capture_line (trim_end raw) = Some (prefix, hex) →
  ∃ hex', split_capture_line raw = Some (prefix, hex') ∧ decode_hex hex' = decode_hex hex.
Proof.
  intros Hat. assert (starts_with (trim_end raw) (str "@") = true) as Hat' by by apply (starts_trim Byte.x40).
  unfold split_capture_line. rewrite Hat, Hat'.
  destruct (splitn_whitespace 4 (trim_end raw)) as [|a [|b [|c rest]]] eqn:E; try done. intros [= <- <-].
  assert (3 ≤ length (splitn_whitespace 4 (trim_end raw)))%nat as Hlen by (rewrite E; simpl; lia).
  pose proof (splitn_trim 3 raw Hlen) as Ht. rewrite E in Ht. simpl in Ht.
  destruct (splitn_whitespace 4 raw) as [|a' [|b' [|c' rest']]] eqn:E'; try done. injection Ht as -> -> ->.
  eexists. split; [done|]. apply decode_hex_solid. rewrite !solid_chars_trim.
  assert (∀ s a b c rest, splitn_whitespace 4 s = a :: b :: c :: rest → default [] (head rest) = concat (drop 3 (splitn_whitespace 4 s))) as Hrest.
  { intros s x y z r Es. rewrite Es. cbn [drop]. unfold splitn_whitespace in Es.
    pose proof (fields_length 4 (chars s) []) as Hl. rewrite Es in Hl. destruct r as [|h [|? ?]]; cbn in *; [done | by rewrite app_nil_r | lia]. }
  rewrite (Hrest raw _ _ _ _ E'), (Hrest (trim_end raw) _ _ _ _ E).
  unfold splitn_whitespace in *. destruct (chars_trim_end raw) as (ws & Hw & ->).
  apply fields_rest; [apply chars_scalars | done | done | done].
Qed.

Lemma unsigned_digits_bound bound s : ∀ acc z,
  0 ≤ acc < bound → unsigned_digits bound s acc = Some z → 0 ≤ z < bound.
Proof.
  induction s as [|b s IH]; intros acc z Ha; cbn [unsigned_digits]; [by intros [= <-]|].
  destruct (decimal_value b) as [d|] eqn:E; [simpl|done].
  assert (0 ≤ d) by (unfold decimal_value in E; destruct ((48 <=? u8 b) && (u8 b <=? 57)) eqn:Ed; bool_hyps; simplify_eq; lia).
  destruct (acc * 10 + d <? bound) eqn:Eb; bool_hyps; [|done]. apply IH. lia.
Qed.

Lemma event_offset_bound field z : event_offset field = Some z → 0 ≤ z < 2 ^ 64.
Proof.
  unfold event_offset. destruct field as [v|]; [simpl|done]. destruct (strip_prefix v _); [simpl|done].
  destruct (strip_suffix _ _) as [digits|]; [simpl|done]. unfold parse_u64, parse_unsigned. destruct digits as [|b rest]; [done|].
  case_bool_decide; [destruct rest; [done|]|]; apply unsigned_digits_bound; lia.
Qed.

(** A data line holds the event [e], its fields read without trimming the line. *)
Definition reads (raw : list byte) (e : CapturedEvent) : Prop :=
  ∃ prefix hex, split_capture_line raw = Some (prefix, hex) ∧ decode_hex hex = Some (Ok e.2)
    ∧ event_offset (split_whitespace prefix !! 1%nat) = Some e.1.1 ∧ split_whitespace prefix !! 2%nat = Some e.1.2.

Lemma reads_contract raw e : reads raw e → contract_event raw = fine (e.1.2, e.2).
Proof.
  intros (prefix & hex & Hs & Hd & _ & Hc). unfold contract_event. rewrite Hs. cbn [expect_some fine and_then].
  rewrite Hc. cbn [expect_some fine and_then]. unfold decode_or. by rewrite Hd.
Qed.

Lemma collect_map {A B C} (f : A → Try B) (g : C → B) l k :
  Forall2 (λ a c, f a = fine (g c)) l k → collect f l = fine (map g k).
Proof. induction 1 as [|a c l k H _ IH]; [done|]. cbn [collect map]. rewrite H. cbn [and_then fine]. by rewrite IH. Qed.

Lemma collect_contract ls events :
  Forall2 reads ls events → collect contract_event ls = fine (map (λ e, (e.1.2, e.2)) events).
Proof. intros H. apply collect_map. eapply list.Forall2_impl; [exact H|]. apply reads_contract. Qed.

(** An event that the strict parser took from a data line, which reads the same untrimmed. *)
Definition reread (promotion : bool) (raw : list byte) (p p' : Parser) (e : CapturedEvent) : Prop :=
  starts_with raw (str "@") = true ∧ p' = push_event promotion e.1.1 e.1.2 e.2 p
  ∧ event_ok (previous_offset p) e ∧ reads raw e.

Lemma parse_event_rereads promotion raw p p' :
  parse_event promotion (trim_end raw) p = fine p' → ∃ e, reread promotion raw p p' e.
Proof.
  unfold parse_event. destruct (split_capture_line (trim_end raw)) as [[prefix hex]|] eqn:Es; [|done].
  cbn [expect_some fine and_then]. destruct (starts_with prefix (str "@")) eqn:Eat; [|done]. cbn [negb].
  destruct (event_ordinal _) as [o|]; [|done]. cbn [expect_some fine and_then]. destruct (o =? expected_ordinal p); [|done]. cbn [negb].
  destruct (event_offset _) as [off|] eqn:Eo; [|done]. cbn [expect_some fine and_then]. destruct (off <? previous_offset p) eqn:El; [done|].
  destruct (split_whitespace prefix !! 2%nat) as [ch|] eqn:Ec; [|done]. cbn [expect_some fine and_then].
  case_bool_decide as Hch; [|done]. cbn [negb]. unfold decode_or. destruct (decode_hex hex) as [[bytes|]|] eqn:Ed; [|done..].
  cbn [and_then fine]. destruct (bytes_eqb ch (str "M<") && (length bytes <? 4)%nat) eqn:Em; [done|]. intros [= <-].
  assert (starts_with raw (str "@") = true) as Hat.
  { apply (proj1 (starts_trim Byte.x40 raw eq_refl)). unfold split_capture_line in Es.
    destruct (starts_with (trim_end raw) (str "@")) eqn:E; [done|]. exfalso. unfold split_prefix in Es.
    destruct (find _ _) as [q|] eqn:Ef; [|done]. apply List.find_some in Ef as [Hin _]. simpl in Es. injection Es as <- <-.
    by repeat (destruct Hin as [<-|Hin]; [done|]). }
  destruct (split_untrimmed raw prefix hex Hat Es) as (hex' & Es' & Ed'). rewrite Ed in Ed'.
  bool_hyps. pose proof (event_offset_bound _ _ Eo). exists (off, ch, bytes). cbn [fst snd]. split_and!; try done.
  - split; [lia|]. split; [done|]. intros ->. change (bytes_eqb (str "M<") (str "M<")) with true in Em. cbn [andb] in Em. by apply Nat.ltb_ge in Em.
  - by exists prefix, hex'.
Qed.

Definition evidence_of (events : list CapturedEvent) (m : MatrixEvidence) : MatrixEvidence :=
  foldl (λ m e, note_event e.1.2 e.2 m) m events.

(** What a parse has seen of its lines: the events, in order. *)
Record parsed (promotion : bool) (ls : list (list byte)) (p p' : Parser) (events : list CapturedEvent) : Prop := {
  pd_events : events_ok (previous_offset p) events;
  pd_reads : Forall2 reads (List.filter (λ l, starts_with l (str "@")) ls) events;
  pd_count : events_read p' = (events_read p + length events)%nat;
  pd_channels : channels_seen p' = list_to_set (map (λ e, e.1.2) events) ∪ channels_seen p;
  pd_redaction : promotion = true → redaction_events p' = redaction_events p ++ map (λ e, (e.1.2, e.2)) events;
  pd_matrix : matrix p' = evidence_of events (matrix p);
}.

Lemma parse_metadata_keeps promotion line rest p p' :
  parse_metadata promotion line rest p = fine p' →
  previous_offset p' = previous_offset p ∧ events_read p' = events_read p ∧ channels_seen p' = channels_seen p
  ∧ redaction_events p' = redaction_events p ∧ matrix p' = matrix p.
Proof.
  unfold parse_metadata. intros H. destruct promotion; cbn [and_then fine] in H.
  1: destruct (scan rest) as [[|]|]; try done; cbn [and_then fine] in H.
  all: unfold fine, fail in H; repeat split_match_in H; done.
Qed.

Lemma starts_hash raw rest : strip_prefix (trim_end raw) (str "#") = Some rest → starts_with raw (str "@") = false.
Proof.
  unfold strip_prefix. destruct (starts_with (trim_end raw) (str "#")) eqn:E; [|done]. intros _.
  apply (proj1 (starts_trim Byte.x23 raw eq_refl)) in E. apply starts_with_iff in E as [t ->]. done.
Qed.

Lemma parse_lines_parsed promotion ls : ∀ p p',
  parse_lines promotion ls p = fine p' → ∃ events, parsed promotion ls p p' events.
Proof.
  induction ls as [|raw ls IH]; intros p p' H.
  { injection H as <-. exists []. split; [done | done | cbn; lia | set_solver | by rewrite app_nil_r | done]. }
  cbn [parse_lines] in H. destruct (parse_line promotion raw p) as [[p1|]|] eqn:E; try done. cbn [and_then] in H.
  destruct (IH _ _ H) as (events & [H1 H2 H3 H4 H5 H6]). unfold parse_line in E.
  assert (starts_with raw (str "@") = false → previous_offset p1 = previous_offset p → events_read p1 = events_read p →
    channels_seen p1 = channels_seen p → redaction_events p1 = redaction_events p → matrix p1 = matrix p → ∃ events, parsed promotion (raw :: ls) p p' events) as Hskip.
  { intros Hat E1 E2 E3 E4 E5. exists events. rewrite E1 in H1. rewrite E2 in H3. rewrite E3 in H4. rewrite E4 in H5. rewrite E5 in H6.
    split; try done. cbn [List.filter]. by rewrite Hat. }
  destruct (trim_end raw) as [|b line] eqn:Et.
  { injection E as <-. apply Hskip; [|done..]. destruct (starts_with raw (str "@")) eqn:Ea; [|done].
    apply (proj2 (starts_trim Byte.x40 raw eq_refl)) in Ea. by rewrite Et in Ea. }
  rewrite <- Et in E. destruct (strip_prefix (trim_end raw) (str "#")) as [rest|] eqn:Es.
  - apply parse_metadata_keeps in E as (? & ? & ? & ? & ?). apply Hskip; [by eapply starts_hash | done..].
  - apply parse_event_rereads in E as (e & Hat & -> & Hok & Hc). exists (e :: events). split.
    + split; [done|]. by destruct e as [[? ?] ?].
    + cbn [List.filter]. rewrite Hat. by constructor.
    + rewrite H3. cbn. lia.
    + rewrite H4. cbn [push_event channels_seen map list_to_set]. set_solver.
    + intros ->. rewrite H5 by done. cbn [push_event redaction_events map]. by rewrite <- app_assoc.
    + rewrite H6. done.
Qed.

(** ** Properties *)

Ltac member := solve [repeat first [apply list_elem_of_here | apply list_elem_of_further]].

Lemma v2_metadata scenario behavior :
  plain_text scenario = true → contains scenario (str "FILL-ME-IN") = false →
  plain_text behavior = true → contains behavior (str "FILL-ME-IN") = false → metadata_ok (v2_headers scenario behavior).
Proof.
  intros Hs Hsf Hb Hbf. split; unfold v2_headers.
  - each_elem; unfold header_ok; cbn [fst snd]; rewrite ?Hs, ?Hb; vm_compute; reflexivity.
  - cbn. apply (bool_decide_unpack _). vm_compute. exact I.
  - member.
  - unfold REQUIRED_V2_HEADERS. each_elem; (eexists; split; [member | done]).
Qed.

(** C25: Captures round-trip: the text written for events with nondecreasing offsets on the
    known channels (meter frames with their token), under a scenario and a description of
    plain text, is accepted by the strict structural parser, and read for comparison it
    gives back the channel and the bytes of every event, in order. *)
Theorem events_to_v2_roundtrip scenario behavior events :
  plain_text scenario = true → contains scenario (str "FILL-ME-IN") = false →
  plain_text behavior = true → contains behavior (str "FILL-ME-IN") = false →
  events_ok 0 events → Z.of_nat (length events) < 2 ^ 64 →
  contract_events (events_to_v2 scenario behavior events) = fine (map (λ e, (e.1.2, e.2)) events)
  ∧ ∃ hs, parse_capture_structure (events_to_v2 scenario behavior events) = fine (mk_summary 2 (length events) hs)
          ∧ hs !! str "scenario" = Some scenario ∧ hs !! str "expected_behavior" = Some behavior.
Proof.
  intros Hs Hsf Hb Hbf He Hlen. unfold events_to_v2.
  destruct (capture_text_read (v2_headers scenario behavior) events) as [Hp Hc]; [by apply v2_metadata|done..|].
  split; [done|]. eexists. split; [exact Hp|]. unfold v2_headers.
  split; apply insert_all_lookup.
  1,3: apply (bool_decide_unpack _); vm_compute; exact I.
  all: member.
Qed.

(** What the structural parser accepts, it has read. *)
Lemma structure_parsed text s :
  parse_capture_structure text = fine s →
  ∃ p events, parsed false (lines text) new_parser p events ∧ length events = event_count s ∧ version s = 2.
Proof.
  unfold parse_capture_structure, parse_capture_with_policy. intros H.
  destruct (parse_lines false (lines text) new_parser) as [[p|]|] eqn:E; [|done..]. cbn [and_then fine] in H.
  apply parse_lines_parsed in E as (events & Hp). exists p, events. split; [done|]. pose proof (pd_count _ _ _ _ _ Hp) as Hn.
  destruct (declared_version p) as [d|]; [|done]. cbn [expect_some and_then fine] in H.
  destruct (parse_u8 d) as [v|]; [|done]. cbn [expect_some and_then fine] in H. destruct (v =? 2) eqn:Ev; [|done]. cbn [negb] in H.
  destruct (require_headers _ _ _) as [[[]|]|]; [|done..]. cbn [and_then fine] in H. injection H as <-.
  bool_hyps. by subst v.
Qed.

(** The two readers of a capture agree: once the strict parser has accepted a text's
    structure, reading its events for comparison or merging neither fails nor panics, though
    it splits the lines again without trimming them; it finds as many events as the parser
    counted, on the known channels, meter frames with their token. *)
Theorem structure_rereads text s :
  parse_capture_structure text = fine s →
  ∃ events, contract_events text = fine (map (λ e, (e.1.2, e.2)) events)
            ∧ length events = event_count s ∧ events_ok 0 events ∧ version s = 2.
Proof.
  intros H. destruct (structure_parsed text s H) as (p & events & Hp & Hn & Hv). exists events.
  unfold contract_events. rewrite H. cbn [and_then fine]. split_and!; [|done| |done].
  - apply collect_contract, (pd_reads _ _ _ _ _ Hp).
  - exact (pd_events _ _ _ _ _ Hp).
Qed.

Lemma require_headers_inv promotion keys hs :
  require_headers promotion keys hs = fine tt →
  Forall (λ key, ∃ v, hs !! key = Some v ∧ v ≠ [] ∧ contains v (str "FILL-ME-IN") = false
                 ∧ (promotion = true → key = str "manual_redaction_attested" → v = str "true")) keys.
Proof.
  induction keys as [|key keys IH]; intros H; [constructor|]. cbn [require_headers] in H.
  destruct (hs !! key) as [v|] eqn:E; [simpl in H|done]. destruct (bytes_eqb v []) eqn:Ev; [done|].
  destruct (contains v (str "FILL-ME-IN")) eqn:Ec; [done|]. cbn [negb andb expect_some and_then fine] in H.
  destruct (promotion && bytes_eqb key (str "manual_redaction_attested") && negb (bytes_eqb v (str "true"))) eqn:Ea; [done|].
  constructor; [|by apply IH]. exists v. split_and!; try done.
  - intros ->. by vm_compute in Ev.
  - intros -> ->. cbn [andb] in Ea. change (bytes_eqb (str "manual_redaction_attested") (str "manual_redaction_attested")) with true in Ea.
    apply negb_false_iff in Ea. by apply bytes_eqb_eq.
Qed.

Lemma require_channels_inv channels seen : require_channels channels seen = fine tt → Forall (λ c, c ∈ seen) channels.
Proof.
  induction channels as [|c channels IH]; intros H; [constructor|]. cbn [require_channels] in H.
  case_decide; [|done]. constructor; auto.
Qed.

Lemma check_promotion_inv p :
  check_promotion p = fine tt →
  Forall (λ c, c ∈ channels_seen p) [str "D>"; str "D<"; str "N>"; str "N<"; str "M>"; str "M<"]
  ∧ (headers p !! str "source" = Some (str "synthetic")
     ∨ headers p !! str "source" = Some (str "hardware") ∧ validate_hardware_matrix (headers p) (matrix p) = fine tt).
Proof.
  unfold check_promotion. destruct (require_channels _ _) as [[[]|]|] eqn:Ec; try done. cbn [and_then].
  apply require_channels_inv in Ec. intros H. split; [done|]. revert H.
  case_bool_decide as Hs; case_bool_decide as Hh; cbn [orb require fine and_then]; intros H; try done; [by left|by left|].
  right. split; [done|]. destruct (headers p !! str "sanitizer") as [v|]; [|done].
  destruct (negb _); [|done]. exact H.
Qed.

(** C26: What promotion accepts is safe to check in: the streams of its events, reassembled
    per connection and direction, hold no serial number, address or hardware address; every
    required header is filled in and the manual redaction attested; discovery, control and
    meter traffic is there in both directions; and the source is synthetic or a hardware
    session that passed the whole matrix, judged on exactly the capture's events. *)
Theorem promotion_guards text s :
  parse_capture text = fine s →
  ∃ events, collect contract_event (event_lines text) = fine (map (λ e, (e.1.2, e.2)) events)
  ∧ length events = event_count s ∧ events_ok 0 events
  ∧ scan_events (map (λ e, (e.1.2, e.2)) events) = Some []
  ∧ Forall (λ key, ∃ v, summary_headers s !! key = Some v ∧ v ≠ [] ∧ contains v (str "FILL-ME-IN") = false) REQUIRED_V2_HEADERS
  ∧ summary_headers s !! str "manual_redaction_attested" = Some (str "true")
  ∧ (∀ c, c ∈ [str "D>"; str "D<"; str "N>"; str "N<"; str "M>"; str "M<"] → ∃ e, e ∈ events ∧ e.1.2 = c)
  ∧ (summary_headers s !! str "source" = Some (str "synthetic")
     ∨ summary_headers s !! str "source" = Some (str "hardware")
       ∧ validate_hardware_matrix (summary_headers s) (evidence_of events no_evidence) = fine tt).
Proof.
  intros H. unfold parse_capture, parse_capture_with_policy in H.
  destruct (parse_lines true (lines text) new_parser) as [[p|]|] eqn:E; [|done..]. cbn [and_then fine] in H.
  apply parse_lines_parsed in E as (events & [H1 H2 H3 H4 H5 H6]). specialize (H5 eq_refl). exists events.
  destruct (scan_events (redaction_events p)) as [[|]|] eqn:Es; [|done..]. cbn [and_then fine] in H.
  destruct (declared_version p) as [d|]; [|done]. cbn [expect_some and_then fine] in H.
  destruct (parse_u8 d) as [v|]; [|done]. cbn [expect_some and_then fine] in H. destruct (v =? 2) eqn:Ev; [|done]. cbn [negb] in H.
  destruct (require_headers _ _ _) as [[[]|]|] eqn:Er; [|done..]. cbn [and_then fine] in H.
  destruct (check_promotion p) as [[[]|]|] eqn:Ep; [|done..]. cbn [and_then fine] in H. injection H as <-.
  apply require_headers_inv in Er. apply check_promotion_inv in Ep as [Hch Hsrc]. cbn [summary_headers event_count].
  rewrite H5 in Es. rewrite H6 in Hsrc. split_and!; try done.
  - by apply collect_contract.
  - eapply list.Forall_impl; [exact Er|]. intros key (w & ? & ? & ? & _). by exists w.
  - pose proof (proj1 (list.Forall_forall _ _) Er (str "manual_redaction_attested") ltac:(unfold REQUIRED_V2_HEADERS; member)) as (w & Hw & _ & _ & Hv).
    by rewrite Hv in Hw.
  - intros c Hc. pose proof (proj1 (list.Forall_forall _ _) Hch c Hc) as Hin. rewrite H4 in Hin.
    apply elem_of_union in Hin as [Hin|Hin]; [|set_solver]. apply elem_of_list_to_set in Hin.
    apply list_elem_of_In, in_map_iff in Hin as (e & <- & He). exists e. split; [by apply list_elem_of_In | done].
Qed.

(** ** The proxy's transcript *)

(** The calls of [record], each with what the clock showed. *)
Definition record_all (calls : list CapturedEvent) (r : ProxyRecorder) : ProxyRecorder :=
  foldl (λ r c, (record c.1.1 c.1.2 c.2 r).2) r calls.

Definition bytes_of (events : list CapturedEvent) : Z := foldr (λ e n, Z.of_nat (length e.2) + n) 0 events.

Definition last_offset (events : list CapturedEvent) : Z := foldl (λ _ e, e.1.1) 0 events.

Record recorder_inv (now : Z) (r : ProxyRecorder) : Prop := {
  ri_count : (length (recorded r) ≤ PROXY_MAX_EVENTS)%nat;
  ri_bytes : recorded_bytes r = bytes_of (recorded r) ∧ recorded_bytes r ≤ PROXY_MAX_BYTES;
  ri_events : events_ok 0 (recorded r);
  ri_last : last_offset (recorded r) ≤ now;
}.

Lemma bytes_of_app a b : bytes_of (a ++ b) = bytes_of a + bytes_of b.
Proof. unfold bytes_of. induction a as [|e a IH]; cbn [app foldr]; [|rewrite IH]; lia. Qed.

Lemma events_ok_app a b : ∀ prev,
  events_ok prev (a ++ b) ↔ events_ok prev a ∧ events_ok (foldl (λ _ e, e.1.1) prev a) b.
Proof. induction a as [|e a IH]; intros prev; cbn [app events_ok foldl]; [naive_solver|]. rewrite IH. naive_solver. Qed.

Lemma last_offset_bound l : ∀ prev,
  events_ok prev l → prev < 2 ^ 64 → foldl (λ (_ : Z) (e : CapturedEvent), e.1.1) prev l < 2 ^ 64.
Proof.
  induction l as [|[[o c] b] l IH]; intros prev H Hp; [done|]. destruct H as (([_ Ho] & _) & H). exact (IH o H Ho).
Qed.

Lemma record_inv now elapsed channel bytes r :
  recorder_inv now r → 0 ≤ now ≤ elapsed → channel ∈ [str "N>"; str "N<"] → recorder_inv elapsed (record elapsed channel bytes r).2.
Proof.
  intros [H1 [H2 H3] H4 H5] Hnow Hch. unfold record.
  destruct ((PROXY_MAX_EVENTS <=? length (recorded r))%nat || (PROXY_MAX_BYTES <? recorded_bytes r + Z.of_nat (length bytes))) eqn:E.
  { split; [done | done | done | cbn; lia]. }
  bool_hyps. cbn [snd]. split; cbn [recorded recorded_bytes].
  - rewrite length_app. cbn. lia.
  - rewrite bytes_of_app. cbn. lia.
  - apply events_ok_app. split; [done|]. cbn [events_ok event_ok]. fold (last_offset (recorded r)).
    pose proof (last_offset_bound _ 0 H4 eq_refl : last_offset (recorded r) < 2 ^ 64).
    split; [|done]. split; [lia|]. split; [set_solver|]. intros ->. set_solver.
  - unfold last_offset. rewrite foldl_app. cbn. lia.
Qed.

(** The clock does not go back. *)
Fixpoint clock (now : Z) (calls : list CapturedEvent) : Prop :=
  match calls with [] => True | c :: calls => now ≤ c.1.1 ∧ clock c.1.1 calls end.

Lemma record_all_inv calls : ∀ now r,
  recorder_inv now r → 0 ≤ now → clock now calls → Forall (λ c, c.1.2 ∈ [str "N>"; str "N<"]) calls →
  ∃ now, recorder_inv now (record_all calls r).
Proof.
  induction calls as [|c calls IH]; intros now r Hi Hn Hc Hch; [by exists now|].
  destruct Hc as [Hc Hcs]. apply list.Forall_cons in Hch as [H Hch]. cbn [record_all foldl].
  apply (IH c.1.1); [by apply record_inv with (now := now) | lia | done..].
Qed.

(** What a recorder kept is accepted and reads back. *)
Lemma recorder_read now r :
  recorder_inv now r →
  contract_events (into_v2 r) = fine (map (λ e, (e.1.2, e.2)) (recorded r))
  ∧ ∃ hs, parse_capture_structure (into_v2 r) = fine (mk_summary 2 (length (recorded r)) hs).
Proof.
  intros [H1 _ H4 _]. unfold into_v2, events_to_v2.
  destruct (capture_text_read (v2_headers (str "native_proxy_raw") (str "bounded transparent Native proxy transcript"))
    (recorded r)) as [Hp Hc]; [by apply v2_metadata|done| |split; [done|by eexists]].
  unfold PROXY_MAX_EVENTS in H1. lia.
Qed.

Lemma new_recorder_inv : recorder_inv 0 new_recorder.
Proof. split; cbn; [lia | split; [done | vm_compute; discriminate] | done | lia]. Qed.

(** Whatever the proxy is offered, as long as the clock does not go back: it keeps at most
    its bounds, and its transcript is accepted and reads back as the events it kept. *)
Theorem recorder_reads_back calls :
  clock 0 calls → Forall (λ c, c.1.2 ∈ [str "N>"; str "N<"]) calls →
  let r := record_all calls new_recorder in
  (length (recorded r) ≤ PROXY_MAX_EVENTS)%nat ∧ bytes_of (recorded r) ≤ PROXY_MAX_BYTES
  ∧ contract_events (into_v2 r) = fine (map (λ e, (e.1.2, e.2)) (recorded r)).
Proof.
  intros Hc Hch r. destruct (record_all_inv calls 0 new_recorder) as [now Hi]; [apply new_recorder_inv|done..|].
  pose proof Hi as [H1 [H2 H3] _ _]. split; [done|]. split; [subst r; lia|]. by apply (recorder_read now).
Qed.

(** ** Runs *)

Definition complete_v2 (attested : list byte) : list byte := text_of
  [str "# wingcap_version: 2"; str "# scenario: test"; str "# source: synthetic"; str "# console_model: RACK";
   str "# firmware: 3.1"; str "# capture_date: 2026-07-12"; str "# sanitizer: wingcapture/3";
   str "# manual_redaction_attested: " ++ attested; str "# expected_behavior: complete synthetic exchange";
   str "@1 +0us D> 2f3f"; str "@2 +1us D< 57494e47"; str "@3 +2us N> df0100df"; str "@4 +3us N< df0100df";
   str "@5 +4us M> dfd3"; str "@6 +5us M< 000100000001"].

Definition count_of (r : Try CaptureSummary) : option nat :=
  match r with Some (Ok s) => Some (event_count s) | _ => None end.

Definition error_of {A} (r : Try A) : option CaptureError :=
  match r with Some (Err e) => Some e | _ => None end.

Example preflight_complete : count_of (preflight_text (complete_v2 (str "true"))) = Some 6%nat.
Proof. vm_compute. reflexivity. Qed.

Example preflight_unattested :
  error_of (preflight_text (complete_v2 (str "false"))) = Some (Message (str "manual free-text redaction attestation must be true")).
Proof. vm_compute. reflexivity. Qed.

Example structure_rejects :
  map (λ ls, error_of (parse_capture_structure (text_of ls)))
    [[str "# wingcap_version: 2"; str "# wingcap_version: 2"; str "@1 +0us N> dfd1"];
     [str "@1 +0us N> dfd1"; str "# wingcap_version: 2"];
     [str "# wingcap_version: 2"; str "N> dfd1"];
     [str "# wingcap_version: 2"; str "@2 +0us N> dfd1"];
     [str "# wingcap_version: 2"; str "@1 +0us M< dfd1"];
     [str "# wingcap_version: 2"; str "@1 +5us N< dfd1"; str "@2 +4us N< dfd1"]]
  = [Some (Message (str "duplicate capture metadata key: wingcap_version"));
     Some (Message (str "wingcap_version must precede data"));
     Some (Quoting (str "V2 data lines must use timed @ events") (str "N> dfd1"));
     Some (Message (str "event ordinal 2 is not the expected 1"));
     Some (Message (str "V2 meter input omits the four-byte report token"));
     Some (Quoting (str "event offsets are not monotonic in") (str "@2 +4us N< dfd1"))].
Proof. vm_compute. reflexivity. Qed.

Definition sample_events : list CapturedEvent :=
  [(0, str "N>", [b8 0xdf; b8 0xd1]); (7, str "N<", [b8 0xdf; b8 0xd1; b8 5]); (7, str "M<", map b8 [0; 1; 0; 0; 9]); (9, str "N<", [])].

Example sample_text : event_line 3 (7, str "M<", map b8 [0; 1; 0; 0; 9]) = str "@3 +7us M< 0001000009".
Proof. vm_compute. reflexivity. Qed.

Lemma events_to_v2_roundtrip_witness :
  contract_events (events_to_v2 (str "sample") (str "a short session") sample_events)
  = fine [(str "N>", [b8 0xdf; b8 0xd1]); (str "N<", [b8 0xdf; b8 0xd1; b8 5]); (str "M<", map b8 [0; 1; 0; 0; 9]); (str "N<", [])].
Proof.
  refine (proj1 (events_to_v2_roundtrip (str "sample") (str "a short session") sample_events _ _ _ _ _ _)).
  1-4: vm_compute; reflexivity.
  - cbn. repeat split; try lia; (vm_compute; member) || (intros; lia) || done.
  - vm_compute. reflexivity.
Defined.

Lemma structure_rereads_witness :
  ∃ events : list CapturedEvent, contract_events (complete_v2 (str "false")) = fine (map (λ e, (e.1.2, e.2)) events) ∧ length (events : list CapturedEvent) = 6%nat.
Proof.
  assert (count_of (parse_capture_structure (complete_v2 (str "false"))) = Some 6%nat) as Hc by (vm_compute; reflexivity).
  destruct (parse_capture_structure (complete_v2 (str "false"))) as [[s|]|] eqn:E; [|discriminate..].
  destruct (structure_rereads (complete_v2 (str "false")) s E) as (events & H1 & H2 & _).
  exists events. split; [exact H1|]. injection Hc as Hc. congruence.
Defined.

Lemma promotion_guards_witness :
  ∃ events : list CapturedEvent, collect contract_event (event_lines (complete_v2 (str "true"))) = fine (map (λ e, (e.1.2, e.2)) events)
            ∧ length events = 6%nat ∧ scan_events (map (λ e, (e.1.2, e.2)) events) = Some [].
Proof.
  assert (count_of (parse_capture (complete_v2 (str "true"))) = Some 6%nat) as Hc by (vm_compute; reflexivity).
  destruct (parse_capture (complete_v2 (str "true"))) as [[s|]|] eqn:E; [|discriminate..].
  destruct (promotion_guards (complete_v2 (str "true")) s E) as (events & H1 & H2 & _ & H3 & _).
  exists events. split; [exact H1|]. injection Hc as Hc. split; [congruence | exact H3].
Defined.
