(* ===== verification/CaptureTools.v ===== *)
(** What [src/tools/wingcapture.rs] does with captures: merging partial recordings into the
    hardware matrix, comparing two captures event by event, sanitizing a raw one, and
    checking a provenance entry. *)

From stdpp Require Import gmap.
From S2P Require Import Prelude Text Decimal Bytes Lib Utf8 Words Channel NativeRequest Redact Capture.
Local Open Scope Z_scope.
Local Open Scope capture_scope.

(** ** Merging *)

Definition U64_MAX : Z := 2 ^ 64 - 1.

(** [a.saturating_add(b)] on [u64]. *)
Definition saturating_add (a b : Z) : Z := Z.min (a + b) U64_MAX.

Definition MERGE_CHANNELS : list (list byte) := [str "D>"; str "D<"; str "N>"; str "N<"; str "M>"; str "M<"].

Definition merge_event (base : Z) (line : list byte) : Try CapturedEvent :=
  let* '(prefix, hex) := expect_some (split_capture_line line) (Quoting (str "unrecognized partial event:") line) in
  let fields := split_whitespace prefix in
  let* offset := expect_some (event_offset (fields !! 1%nat)) (Quoting (str "invalid partial offset:") line) in
  let* channel := (match fields !! 2%nat with
                   | Some c => if decide (c ∈ MERGE_CHANNELS) then fine c
                               else fail (Quoting (str "unsupported merge channel") c)
                   | None => fail (Message (str "unsupported merge channel None"))
                   end) in
  let* bytes := decode_or hex Hex in
  fine (saturating_add base offset, channel, bytes).

Definition merge_partial_events (text : list byte) (base : Z) : Try (list CapturedEvent) :=
  let* _ := parse_capture_structure text in collect (merge_event base) (event_lines text).

(** [capture.insert_str(capture.find('@').unwrap_or(capture.len()), ins)]. *)
Fixpoint insert_before_events (ins capture : list byte) : list byte :=
  match capture with
  | [] => ins
  | b :: rest => if bool_decide (b = Byte.x40) then ins ++ capture else b :: insert_before_events ins rest
  end.

(** [s.replace(from, to)] for a [from] that is not empty; the length of [s] is enough fuel. *)
Fixpoint replace_fuel (fuel : nat) (from to s : list byte) : list byte :=
  match fuel, s with
  | O, _ | _, [] => []
  | S fuel, b :: rest =>
    if starts_with s from then to ++ replace_fuel fuel from to (drop (length from) s)
    else b :: replace_fuel fuel from to rest
  end.
Definition replace (from to s : list byte) : list byte := replace_fuel (length s) from to s.

Definition bool_text (b : bool) : list byte := if b then str "true" else str "false".

Definition matrix_headers : list (list byte * list byte) :=
  [(str "matrix_contract", HARDWARE_MATRIX); (str "restore_verified", str "true");
   (str "concurrent_definition_write_observed", str "true"); (str "meter_cardinality_verdict", str "ambiguous")].

Definition is_disconnect (e : CapturedEvent) : bool := bytes_eqb e.1.2 (str "N<") && (length e.2 =? 0)%nat.

Definition build_merged_matrix (events : list CapturedEvent) (destructive : bool) : list byte :=
  let disconnect := existsb is_disconnect events in
  let capture := events_to_v2 (str "hardware_matrix_raw") (str "merged direct discovery, Native proxy, and raw meter evidence") events in
  let capture := insert_before_events (text_of (map header_line matrix_headers)) capture in
  let capture := insert_before_events (text_of [header_line (str "disconnect_observed", bool_text disconnect)]) capture in
  if destructive
  then replace (str "# destructive_write_approved: false") (str "# destructive_write_approved: true") capture
  else capture.

(** The loop over the partial captures: each is rebased past the last event before it. *)
Fixpoint merge_partials (texts : list (list byte)) (base : Z) (events : list CapturedEvent) : Try (list CapturedEvent) :=
  match texts with
  | [] => fine events
  | text :: texts =>
    let* next := merge_partial_events text base in
    let base := match list.last next with Some e => saturating_add e.1.1 1 | None => base end in
    merge_partials texts base (events ++ next)
  end.

Definition merge_v2 (texts : list (list byte)) (destructive : bool) : Try (list byte) :=
  let* events := merge_partials texts 0 [] in
  match events with
  | [] => fail (Message (str "matrix merge requires at least one partial capture"))
  | _ =>
    let capture := build_merged_matrix events destructive in
    let* _ := parse_capture_structure capture in
    fine capture
  end.

(** The headers of the merged capture. *)
Definition merged_headers (disconnect destructive : bool) : list (list byte * list byte) :=
  take 10 (v2_headers (str "hardware_matrix_raw") (str "merged direct discovery, Native proxy, and raw meter evidence"))
  ++ [(str "destructive_write_approved", bool_text destructive)]
  ++ matrix_headers ++ [(str "disconnect_observed", bool_text disconnect)].

(** ** The text of the merged capture *)

(** A character is in its own set. *)
Ltac in_itself H := rewrite bool_decide_eq_true_2 in H by set_solver; discriminate.

Lemma insert_before_app ins h t :
  contains_any [Byte.x40] h = false → match t with b :: _ => b = Byte.x40 | [] => True end →
  insert_before_events ins (h ++ t) = h ++ ins ++ t.
Proof.
  induction h as [|b h IH]; intros Hh Ht.
  - destruct t as [|b t]; [cbn; by rewrite app_nil_r|]. subst b. reflexivity.
  - cbn [contains_any existsb] in Hh. apply orb_false_iff in Hh as [Hb Hh]. cbn [app insert_before_events].
    rewrite bool_decide_eq_false_2; [by rewrite IH|]. intros ->. in_itself Hb.
Qed.

Lemma replace_fuel_enough from to s : from ≠ [] → ∀ n m,
  (length s ≤ n)%nat → (length s ≤ m)%nat → replace_fuel n from to s = replace_fuel m from to s.
Proof.
  intros Hf. induction s as [s IH] using (induction_ltof1 _ (@length byte)); unfold ltof in IH. intros [|n] [|m] Hn Hm.
  1-3: destruct s; [done | simpl in *; lia].
  destruct s as [|b s]; [done|]. cbn [replace_fuel]. cbn [length] in *. destruct (starts_with (b :: s) from).
  - f_equal. assert (length (drop (length from) (b :: s)) ≤ length s)%nat.
    { rewrite length_drop. destruct from; [done|]. cbn [length]. lia. }
    apply IH; cbn [length]; lia.
  - f_equal. apply IH; cbn [length]; lia.
Qed.

Lemma replace_cons from to b s :
  from ≠ [] → replace from to (b :: s)
  = if starts_with (b :: s) from then to ++ replace from to (drop (length from) (b :: s)) else b :: replace from to s.
Proof.
  intros Hf. unfold replace. cbn [length replace_fuel]. destruct (starts_with (b :: s) from); [|done].
  f_equal. apply replace_fuel_enough; [done | | done]. rewrite length_drop. destruct from; [done|]. cbn [length]. lia.
Qed.

Lemma replace_absent c from to s : contains_any [c] s = false → replace (c :: from) to s = s.
Proof.
  induction s as [|b s IH]; intros H; [done|]. cbn [contains_any existsb] in H. apply orb_false_iff in H as [Hb H].
  rewrite replace_cons by done. cbn [starts_with]. rewrite bool_decide_eq_false_2; [cbn [andb]; by rewrite IH|].
  intros <-. in_itself Hb.
Qed.

(** A pattern without line feed is found in the lines before one, or after it. *)
Lemma starts_with_line h t p :
  contains_any [newline] p = false → starts_with ((h ++ [newline]) ++ t) p = starts_with (h ++ [newline]) p.
Proof.
  revert p. induction h as [|b h IH]; intros [|c p] Hp; [done| |done|].
  - cbn [app starts_with] in *. cbn [contains_any existsb] in Hp. apply orb_false_iff in Hp as [Hc _].
    rewrite bool_decide_eq_false_2; [done|]. intros ->. in_itself Hc.
  - cbn [contains_any existsb] in Hp. apply orb_false_iff in Hp as [_ Hp]. cbn [app starts_with]. f_equal. by apply IH.
Qed.

Lemma replace_lines from to h t :
  from ≠ [] → contains_any [newline] from = false → replace from to t = t →
  replace from to ((h ++ [newline]) ++ t) = replace from to (h ++ [newline]) ++ t.
Proof.
  intros Hf Hn Ht. induction h as [h IH] using (induction_ltof1 _ (@length byte)); unfold ltof in IH.
  pose proof (starts_with_line h t from Hn) as Hs.
  destruct h as [|b h].
  - cbn [app] in *. rewrite !replace_cons by done. rewrite Hs.
    assert (starts_with [newline] from = false) as ->; [|cbn [app]; by rewrite Ht].
    destruct from as [|c from]; [done|]. cbn [starts_with contains_any existsb] in *. apply orb_false_iff in Hn as [Hc _].
    rewrite bool_decide_eq_false_2; [done|]. intros ->. in_itself Hc.
  - cbn [app] in *. rewrite !replace_cons by done. rewrite Hs.
    destruct (starts_with (b :: h ++ [newline]) from) eqn:E; [|cbn [app]; f_equal; apply IH; cbn [length]; lia].
    apply starts_with_iff in E as [rest E].
    assert (∃ h', rest = h' ++ [newline] ∧ (length h' < length (b :: h))%nat) as (h' & -> & Hlen).
    { assert (rest ≠ []) as Hne.
      { intros ->. rewrite app_nil_r in E. rewrite <- E in Hn. rewrite app_comm_cons, contains_any_app in Hn.
        apply orb_false_iff in Hn as [_ Hn]. done. }
      destruct (exists_last Hne) as (h' & x & ->). exists h'. rewrite app_comm_cons, app_assoc in E.
      apply app_inj_tail in E as [E <-]. split; [done|]. rewrite E, length_app. destruct from; [done|]. cbn. lia. }
    rewrite (app_comm_cons (h ++ [newline]) t b), E, <- !app_assoc, !drop_app_length. f_equal.
    change (h' ++ [newline] ++ t) with (h' ++ ([newline] ++ t)). rewrite app_assoc. by apply IH.
Qed.

Lemma event_line_clean o e prev :
  0 ≤ o < 2 ^ 64 → 0 ≤ prev → event_ok prev e → contains_any [Byte.x23] (event_line o e) = false.
Proof.
  intros Ho Hp He. rewrite event_line_words. destruct e as [[off ch] bytes]. destruct He as ([? ?] & Hch & _). cbn [fst snd].
  assert (∀ w, Forall (λ b, digit b = true) w → contains_any [Byte.x23] w = false) as Hd.
  { induction 1 as [|b w Hb _ IH]; [done|]. cbn [contains_any existsb]. rewrite bool_decide_eq_false_2; [done|].
    intros ->%list_elem_of_singleton. by vm_compute in Hb. }
  assert (∀ z, 0 ≤ z < 2 ^ 64 → contains_any [Byte.x23] (decimal_fuel 20 z) = false) as Hdec.
  { intros z Hz. apply Hd. apply (decimal_spec 20 (2 ^ 64) z); lia. }
  assert (contains_any [Byte.x23] (encode_hex bytes) = false) as Hhex.
  { clear. induction bytes as [|b bytes IH]; [done|]. cbn [encode_hex]. unfold contains_any in *. cbn [existsb]. rewrite IH.
    by destruct b. }
  unfold ordinal_word, offset_word. rewrite !contains_any_app.
  change (space :: ?s) with ([space] ++ s).
  repeat (rewrite !contains_any_app; change (contains_any [Byte.x23] (space :: ?s)) with (contains_any [Byte.x23] s)).
  rewrite !Hdec, Hhex by lia. assert (contains_any [Byte.x23] ch = false) as ->; [|done].
  unfold CHANNELS in Hch. clear -Hch. repeat (apply elem_of_cons in Hch as [->|Hch]; [done|]). by apply not_elem_of_nil in Hch.
Qed.

Lemma numbered_clean events : ∀ o prev,
  events_ok prev events → 0 ≤ prev → 0 ≤ o → o + Z.of_nat (length events) ≤ 2 ^ 64 →
  contains_any [Byte.x23] (text_of (numbered o events)) = false
  ∧ match text_of (numbered o events) with b :: _ => b = Byte.x40 | [] => True end.
Proof.
  induction events as [|e events IH]; intros o prev He Hp Ho Hlen; [done|]. destruct He as [He Hes].
  cbn [numbered length] in *. split; [|by destruct e as [[off ch] bytes]].
  unfold text_of. cbn [map concat]. rewrite !contains_any_app, (event_line_clean o e prev) by (done || lia).
  cbn [orb contains_any existsb]. destruct e as [[off ch] bytes]. apply (IH (o + 1) off); [done | destruct He; lia | lia..].
Qed.

Lemma text_of_app a b : text_of (a ++ b) = text_of a ++ text_of b.
Proof. unfold text_of. by rewrite map_app, concat_app. Qed.

(** The edits of the text come to a text with the merged headers. *)
Lemma build_merged_text events destructive :
  events_ok 0 events → Z.of_nat (length events) < 2 ^ 64 →
  build_merged_matrix events destructive
  = text_of (map header_line (merged_headers (existsb is_disconnect events) destructive)) ++ text_of (numbered 1 events).
Proof.
  intros He Hlen. destruct (numbered_clean events 1 0 He ltac:(lia) ltac:(lia) ltac:(lia)) as [Hno Hat].
  unfold build_merged_matrix, events_to_v2. generalize dependent (text_of (numbered 1 events)). intros t Hno Hat.
  generalize (existsb is_disconnect events) as disc. intros disc.
  rewrite insert_before_app by (done || vm_compute; reflexivity). rewrite (app_assoc (text_of (map header_line (v2_headers _ _)))).
  rewrite insert_before_app by (done || vm_compute; reflexivity).
  destruct destructive.
  - rewrite !app_assoc. set (h := (_ ++ text_of (map header_line matrix_headers)) ++ _).
    assert (∃ h0, h = h0 ++ [newline]) as [h0 Hh0].
    { subst h. exists (take (Nat.pred (length ((text_of (map header_line (v2_headers (str "hardware_matrix_raw") (str "merged direct discovery, Native proxy, and raw meter evidence"))) ++ text_of (map header_line matrix_headers)) ++ text_of [header_line (str "disconnect_observed", bool_text disc)])))
       ((text_of (map header_line (v2_headers (str "hardware_matrix_raw") (str "merged direct discovery, Native proxy, and raw meter evidence"))) ++ text_of (map header_line matrix_headers)) ++ text_of [header_line (str "disconnect_observed", bool_text disc)])).
      by destruct disc; vm_compute. }
    rewrite Hh0, replace_lines; [|done | by vm_compute | by apply replace_absent]. rewrite <- Hh0. subst h.
    f_equal; by destruct disc; vm_compute.
  - rewrite !app_assoc. f_equal; by destruct disc; vm_compute.
Qed.

Lemma merged_metadata disconnect destructive : metadata_ok (merged_headers disconnect destructive).
Proof.
  split.
  - apply list.Forall_forall. intros h Hh.
    assert (forallb header_ok (merged_headers disconnect destructive) = true) as H by by destruct disconnect, destructive; vm_compute.
    rewrite forallb_forall in H. apply H. by apply list_elem_of_In.
  - apply (bool_decide_unpack _). by destruct disconnect, destructive; vm_compute.
  - unfold merged_headers, v2_headers. cbn [take app]. member.
  - unfold REQUIRED_V2_HEADERS, merged_headers, v2_headers. cbn [take app].
    each_elem; (eexists; split; [member | done]).
Qed.

(** ** Rebasing *)

Definition rebase (base : Z) (events : list CapturedEvent) : list CapturedEvent :=
  map (λ e, (saturating_add base e.1.1, e.1.2, e.2)) events.

Definition pairs (events : list CapturedEvent) : list CaptureEvent := map (λ e, (e.1.2, e.2)) events.

Lemma pairs_rebase base events : pairs (rebase base events) = pairs events.
Proof. unfold pairs, rebase. rewrite map_map. done. Qed.

Lemma merge_events_spec base ls events :
  Forall2 reads ls events → Forall (λ e, e.1.2 ∈ MERGE_CHANNELS) events →
  collect (merge_event base) ls = fine (rebase base events).
Proof.
  intros Hr Hm. apply collect_map. revert Hm. induction Hr as [|l e ls events H _ IH]; intros Hm; [constructor|].
  apply list.Forall_cons in Hm as [He Hm]. constructor; [|by apply IH].
  destruct H as (prefix & hex & Hs & Hd & Ho & Hc). unfold merge_event. rewrite Hs. cbn [expect_some fine and_then].
  rewrite Ho. cbn [expect_some fine and_then]. rewrite Hc. rewrite decide_True by done. cbn [and_then fine].
  unfold decode_or. by rewrite Hd.
Qed.

Lemma rebase_ok base events : 0 ≤ base → ∀ prev,
  0 ≤ prev → events_ok prev events → events_ok (saturating_add base prev) (rebase base events).
Proof.
  intros Hb. induction events as [|[[off ch] bytes] events IH]; intros prev Hp He; [done|].
  destruct He as [([Hlo Hhi] & Hch & Hm) Hes]. cbn [rebase map events_ok event_ok fst snd] in *.
  split; [|apply IH; [lia | done]]. split; [|done]. unfold saturating_add, U64_MAX. lia.
Qed.

Lemma events_ok_weaken prev prev' events : prev' ≤ prev → events_ok prev events → events_ok prev' events.
Proof. intros Hle. destruct events as [|[[off ch] bytes] events]; [done|]. intros [([? ?] & ?) ?]. split; [split; [lia|done]|done]. Qed.

Lemma last_offset_last prev (events : list CapturedEvent) :
  foldl (λ (_ : Z) (e : CapturedEvent), e.1.1) prev events = match list.last events with Some e => e.1.1 | None => prev end.
Proof.
  revert prev. induction events as [|e events IH]; intros prev; [done|]. cbn [foldl]. rewrite IH.
  rewrite last_cons. by destruct (list.last events).
Qed.

Lemma events_ok_nonneg prev events : events_ok prev events → 0 ≤ prev → ∀ i (e : CapturedEvent), events !! i = Some e → 0 ≤ e.1.1.
Proof.
  revert prev. induction events as [|[[off ch] bytes] events IH]; intros prev He Hp [|i] e Hi; try done.
  - injection Hi as <-. destruct He as [([? ?] & _) _]. cbn. lia.
  - destruct He as [([? ?] & _) He]. apply (IH off He ltac:(lia) i e Hi).
Qed.

Lemma contract_parsed text evs :
  contract_events text = fine evs →
  ∃ events, Forall2 reads (event_lines text) events ∧ events_ok 0 events ∧ pairs events = evs ∧ ∃ s, parse_capture_structure text = fine s.
Proof.
  unfold contract_events. destruct (parse_capture_structure text) as [[s|]|] eqn:E; [|done..]. cbn [and_then fine]. intros H.
  destruct (structure_parsed text s E) as (p & events & Hp & _). exists events.
  pose proof (pd_reads _ _ _ _ _ Hp) as Hr. split_and!; [exact Hr | exact (pd_events _ _ _ _ _ Hp) | | by exists s].
  pose proof (collect_contract _ _ Hr) as Hc. unfold event_lines in H. rewrite Hc in H. by injection H.
Qed.

(** A partial capture that a comparison can read, without OSC events. *)
Definition partial_ok (text : list byte) (evs : list CaptureEvent) : Prop :=
  contract_events text = fine evs ∧ Forall (λ e, e.1 ∈ MERGE_CHANNELS) evs.

Lemma merge_partials_spec texts evss : Forall2 partial_ok texts evss → ∀ base acc,
  events_ok 0 acc → last_offset acc ≤ base ≤ U64_MAX → 0 ≤ base →
  ∃ events, merge_partials texts base acc = fine events ∧ events_ok 0 events ∧ pairs events = pairs acc ++ concat evss.
Proof.
  induction 1 as [|text evs texts evss [Hc Hm] _ IH]; intros base acc Hacc Hbase H0.
  { exists acc. split_and!; [done | done | by rewrite app_nil_r]. }
  destruct (contract_parsed text evs Hc) as (events & Hr & He & Hev & s & Hs).
  assert (Forall (λ e, e.1.2 ∈ MERGE_CHANNELS) events) as Hm'.
  { rewrite <- Hev in Hm. unfold pairs in Hm. by apply List.Forall_map in Hm. }
  cbn [merge_partials]. unfold merge_partial_events. rewrite Hs. cbn [and_then fine].
  rewrite (merge_events_spec base _ events) by done. cbn [and_then fine].
  pose proof (rebase_ok base events H0 0 ltac:(lia) He) as Hrb.
  assert (saturating_add base 0 = base) as Hb0 by (unfold saturating_add; lia). rewrite Hb0 in Hrb.
  assert (events_ok 0 (acc ++ rebase base events)) as Hacc'.
  { apply events_ok_app. split; [done|]. eapply events_ok_weaken; [|exact Hrb]. exact (proj1 Hbase). }
  destruct (IH (match list.last (rebase base events) with Some e => saturating_add e.1.1 1 | None => base end) (acc ++ rebase base events))
    as (out & H1 & H2 & H3).
  - done.
  - unfold last_offset. rewrite foldl_app, last_offset_last.
    destruct (list.last (rebase base events)) as [e|] eqn:El; [|exact Hbase].
    assert (e.1.1 ≤ U64_MAX) by (apply last_Some_elem_of, list_elem_of_In, in_map_iff in El as (x & <- & _); cbn; unfold saturating_add; lia).
    unfold saturating_add. lia.
  - destruct (list.last (rebase base events)) as [e|] eqn:El; [|done].
    apply last_Some_elem_of, list_elem_of_lookup_1 in El as [i Hi]. pose proof Hi as Hin.
    assert (0 ≤ e.1.1); [|unfold saturating_add, U64_MAX; lia]. clear -Hrb H0 Hi. revert base i Hrb H0 Hi.
    intros base i Hrb H0 Hi. eapply events_ok_nonneg; [exact Hrb | done | exact Hi].
  - exists out. split; [exact H1|]. split; [exact H2|]. rewrite H3. unfold pairs at 1. rewrite map_app. fold (pairs acc). fold (pairs (rebase base events)).
    rewrite pairs_rebase, Hev. cbn [concat]. by rewrite app_assoc.
Qed.

(** ** Comparison *)

Definition MAX_COMPARISON_EVENTS : nat := Z.to_nat 100000.
Definition MAX_REPORTED_DEVIATIONS : nat := Z.to_nat 1024.

Definition describe_event (event : option CaptureEvent) : list byte :=
  match event with
  | None => str "<missing>"
  | Some (channel, bytes) => channel ++ str ":" ++ encode_hex bytes
  end.

(** [{n}] of a [usize]. *)
Definition decimal_usize (n : nat) : list byte := decimal_fuel 20 (Z.of_nat n).

Definition deviation_line (hardware emulator : list CaptureEvent) (index : nat) : list byte :=
  str "event " ++ decimal_usize (index + 1) ++ str " hardware=" ++ describe_event (hardware !! index)
  ++ str " emulator=" ++ describe_event (emulator !! index).

(** One turn of the loop: the lines so far and the number of deviations. *)
Definition compare_index (hardware emulator : list CaptureEvent) (s : list (list byte) * nat) (index : nat) : list (list byte) * nat :=
  let '(deviations, deviation_count) := s in
  let differs :=
    match hardware !! index, emulator !! index with
    | Some (hardware_channel, hardware_bytes), Some (emulator_channel, emulator_bytes) =>
      negb (bytes_eqb hardware_channel emulator_channel && bytes_eqb hardware_bytes emulator_bytes)
    | _, _ => true
    end in
  if differs then
    (if (length deviations <? MAX_REPORTED_DEVIATIONS)%nat then deviations ++ [deviation_line hardware emulator index]
     else deviations, S deviation_count)
  else s.

(** [compare_v2] between the reading of the two captures, with the names of their files,
    and the writing of the report. *)
Definition compare_events (hardware_name emulator_name : list byte) (hardware emulator : list CaptureEvent) : Try (nat * list byte) :=
  let count := Nat.max (length hardware) (length emulator) in
  if (MAX_COMPARISON_EVENTS <? count)%nat then
    fail (Message (str "comparison has " ++ decimal_usize count ++ str " events, exceeding limit 100000"))
  else
    let '(deviations, deviation_count) := foldl (compare_index hardware emulator) ([], 0%nat) (seq 0 count) in
    let output := text_of ([str "# WING capture deviation report"; str "# hardware: " ++ hardware_name;
                            str "# emulator: " ++ emulator_name; str "# deviations: " ++ decimal_usize deviation_count]
                           ++ deviations) in
    fine (deviation_count,
          if (length deviations <? deviation_count)%nat
          then output ++ str "truncated: " ++ decimal_usize (deviation_count - length deviations) ++ str " additional deviation(s)" ++ [newline]
          else output).

Definition compare_v2 (hardware_name emulator_name hardware_text emulator_text : list byte) : Try (nat * list byte) :=
  let* hardware := contract_events hardware_text in
  let* emulator := contract_events emulator_text in
  compare_events hardware_name emulator_name hardware emulator.

(** The indexes at which two captures differ. *)
Definition differing (hardware emulator : list CaptureEvent) : list nat :=
  List.filter (λ i, negb (bool_decide (hardware !! i = emulator !! i)))
    (seq 0 (Nat.max (length hardware) (length emulator))).

Lemma compare_index_differs hardware emulator s i :
  (i < Nat.max (length hardware) (length emulator))%nat →
  compare_index hardware emulator s i
  = if bool_decide (hardware !! i = emulator !! i) then s
    else (if (length s.1 <? MAX_REPORTED_DEVIATIONS)%nat then s.1 ++ [deviation_line hardware emulator i] else s.1, S s.2).
Proof.
  intros Hi. destruct s as [ds n]. unfold compare_index.
  destruct (hardware !! i) as [[hc hb]|] eqn:Eh, (emulator !! i) as [[ec eb]|] eqn:Ee.
  - destruct (bytes_eqb hc ec) eqn:Ec; [apply bytes_eqb_eq in Ec as ->; destruct (bytes_eqb hb eb) eqn:Eb|].
    + apply bytes_eqb_eq in Eb as ->. by rewrite bool_decide_eq_true_2.
    + rewrite bool_decide_eq_false_2; [done|]. intros [= ->]. by rewrite (proj2 (bytes_eqb_eq _ _) eq_refl) in Eb.
    + rewrite bool_decide_eq_false_2; [done|]. intros [= -> _]. by rewrite (proj2 (bytes_eqb_eq _ _) eq_refl) in Ec.
  - by rewrite bool_decide_eq_false_2.
  - by rewrite bool_decide_eq_false_2.
  - apply lookup_ge_None in Eh, Ee. lia.
Qed.

Lemma compare_loop hardware emulator is_ : ∀ ds n,
  Forall (λ i, (i < Nat.max (length hardware) (length emulator))%nat) is_ → length ds = Nat.min n MAX_REPORTED_DEVIATIONS →
  let found := List.filter (λ i, negb (bool_decide (hardware !! i = emulator !! i))) is_ in
  foldl (compare_index hardware emulator) (ds, n) is_
  = (ds ++ map (deviation_line hardware emulator) (take (MAX_REPORTED_DEVIATIONS - length ds) found), (n + length found)%nat).
Proof.
  induction is_ as [|i is_ IH]; intros ds n His Hn; cbn [foldl List.filter].
  { by rewrite take_nil, app_nil_r, Nat.add_0_r. }
  apply list.Forall_cons in His as [Hi His]. rewrite compare_index_differs by done.
  case_bool_decide as He; cbn [negb]; [by apply IH|]. cbn [fst snd length].
  destruct (length ds <? MAX_REPORTED_DEVIATIONS)%nat eqn:El; bool_hyps.
  - rewrite IH; [|done | rewrite length_app; cbn [length]; lia]. rewrite length_app. cbn [length].
    replace (MAX_REPORTED_DEVIATIONS - length ds)%nat with (S (MAX_REPORTED_DEVIATIONS - (length ds + 1))) by lia.
    cbn [take map]. rewrite <- app_assoc. f_equal. lia.
  - rewrite IH; [|done | lia]. replace (MAX_REPORTED_DEVIATIONS - length ds)%nat with 0%nat by lia. cbn [take]. f_equal. lia.
Qed.

Lemma differing_nil hardware emulator : differing hardware emulator = [] ↔ hardware = emulator.
Proof.
  split.
  - intros H. apply list_eq. intros i. destruct (decide (i < Nat.max (length hardware) (length emulator))%nat) as [Hi|Hi].
    + destruct (bool_decide (hardware !! i = emulator !! i)) eqn:E; [by apply bool_decide_eq_true in E|]. exfalso.
      assert (In i (differing hardware emulator)) as Hin; [|rewrite H in Hin; done].
      apply List.filter_In. split; [apply in_seq; lia | by rewrite E].
    + rewrite !lookup_ge_None_2 by lia. done.
  - intros ->. unfold differing. rewrite <- (app_nil_r (List.filter _ _)). induction (seq 0 _) as [|i l IH]; [done|].
    cbn [List.filter]. by rewrite bool_decide_eq_true_2.
Qed.

(** ** Provenance *)

Record Provenance := mk_provenance { entries : nat; in_entry : bool; fields_seen : Headers }.

(** One line of the provenance file, for the entry under [heading]. *)
Definition provenance_line (heading : list byte) (line : list byte) (p : Provenance) : Try Provenance :=
  if starts_with line (str "- **`") then
    let here := bytes_eqb (trim_end line) heading in
    fine (mk_provenance (if here then S (entries p) else entries p) here (fields_seen p))
  else if negb (in_entry p) then fine p
  else
    match strip_prefix line (str "  - ") with
    | None =>
      if negb (bytes_eqb (trim line) []) && negb (starts_with line (str "    "))
      then fine (mk_provenance (entries p) false (fields_seen p)) else fine p
    | Some field =>
      match split_once colon field with
      | None => fine p
      | Some (key, value) =>
        let key := to_ascii_lowercase (trim key) in
        if decide (is_Some (fields_seen p !! key)) then fail (Quoting (str "duplicate provenance field") key)
        else fine (mk_provenance (entries p) (in_entry p) (<[key := trim value]> (fields_seen p)))
      end
    end.

Fixpoint provenance_lines (heading : list byte) (ls : list (list byte)) (p : Provenance) : Try Provenance :=
  match ls with
  | [] => fine p
  | line :: ls => let* p := provenance_line heading line p in provenance_lines heading ls p
  end.

Fixpoint require_fields (name : list byte) (expected : list (list byte * list byte)) (seen : Headers) : Try unit :=
  match expected with
  | [] => fine tt
  | (key, wanted) :: expected =>
    let* actual := expect_some (v ← seen !! key; if negb (bytes_eqb v []) then Some v else None)
                     (Message (str "provenance entry for " ++ name ++ str " is missing " ++ key)) in
    if negb (bytes_eqb actual wanted)
    then fail (Quoting (str "provenance " ++ key ++ str " for " ++ name ++ str " is not as expected") actual)
    else require_fields name expected seen
  end.

(** [capture.get(key)], which must be there. *)
Definition metadata (capture : Headers) (key : list byte) : Try (list byte) :=
  expect_some (capture !! key) (Message (str "capture is missing " ++ key ++ str " metadata")).

Definition validate_provenance_entry (text name : list byte) (capture : Headers) : Try unit :=
  let heading := str "- **`" ++ name ++ str "`**" in
  let* p := provenance_lines heading (lines text) (mk_provenance 0 false ∅) in
  if negb (entries p =? 1)%nat then fail (Message (str "provenance must contain exactly one canonical entry for " ++ name)) else
  let* source := metadata capture (str "source") in
  let* expected_evidence :=
    (if bytes_eqb source (str "synthetic") then fine (str "synthetic")
     else if bytes_eqb source (str "hardware") then fine (str "hardware-captured")
     else fail (Message (str "capture source is not promotion-eligible"))) in
  let* console_model := metadata capture (str "console_model") in
  let* firmware := metadata capture (str "firmware") in
  let* capture_date := metadata capture (str "capture_date") in
  let* sanitizer := metadata capture (str "sanitizer") in
  require_fields name
    [(str "evidence class", expected_evidence); (str "source", source); (str "review status", str "reviewed");
     (str "console model", console_model); (str "firmware", firmware); (str "capture date", capture_date);
     (str "sanitizer", sanitizer)] (fields_seen p).

(** [preflight] on the contents of the two files. *)
Definition preflight (text provenance_text name : list byte) : Try unit :=
  let* capture := preflight_text text in
  validate_provenance_entry provenance_text name (summary_headers capture).

(** ** Sanitizing *)

(** A line of the output: a comment, or the place of a data line with its prefix. *)
Inductive OutLine := Comment (line : list byte) | Data (prefix : list byte).

Definition SANITIZER_VERSION : list byte := str "wingcapture/3".
Definition sanitizer_line : list byte := str "# sanitizer: " ++ SANITIZER_VERSION.

Record Sanitizer := mk_sanitizer { out_lines : list OutLine; saw_sanitizer_header : bool; raw_events : list CaptureEvent }.

(** One line of the input. *)
Definition sanitize_line (raw : list byte) (s : Sanitizer) : Try Sanitizer :=
  let line := trim_end raw in
  match line with
  | [] => fine s
  | _ =>
    match strip_prefix line (str "#") with
    | Some rest =>
      match scan rest with
      | None => None
      | Some (f :: fs) => fail (Sensitive line (f :: fs))
      | Some [] =>
        if starts_with (trim_start rest) (str "sanitizer:")
        then fine (mk_sanitizer (out_lines s ++ [Comment sanitizer_line]) true (raw_events s))
        else fine (mk_sanitizer (out_lines s ++ [Comment line]) (saw_sanitizer_header s) (raw_events s))
      end
    | None =>
      let* '(prefix, hex) := expect_some (split_capture_line line) (Quoting (str "unrecognized fixture line:") line) in
      let* bytes := decode_or (trim hex) (HexAt line) in
      match list.last (split_whitespace prefix) with
      | None => None
      | Some channel =>
        fine (mk_sanitizer (out_lines s ++ [Data prefix]) (saw_sanitizer_header s) (raw_events s ++ [(channel, bytes)]))
      end
    end
  end.

Fixpoint sanitize_lines (ls : list (list byte)) (s : Sanitizer) : Try Sanitizer :=
  match ls with
  | [] => fine s
  | raw :: ls => let* s := sanitize_line raw s in sanitize_lines ls s
  end.

(** The data lines filled in with the redacted events, in order. *)
Fixpoint fill_lines (ls : list OutLine) (events : list CaptureEvent) : list (list byte) :=
  match ls with
  | [] => []
  | Comment line :: ls => line :: fill_lines ls events
  | Data prefix :: ls =>
    match events with
    | (_, bytes) :: events => (prefix ++ [space] ++ encode_hex bytes) :: fill_lines ls events
    | [] => [] :: fill_lines ls []
    end
  end.

(** The last scan over the comment lines. *)
Fixpoint rescan (ls : list (list byte)) : Try unit :=
  match ls with
  | [] => fine tt
  | line :: ls =>
    match strip_prefix line (str "#") with
    | Some rest =>
      match scan rest with
      | None => None
      | Some [] => rescan ls
      | Some _ => fail (Quoting (str "sanitized output still fails the scan:") line)
      end
    | None => rescan ls
    end
  end.

(** [sanitize_file] between the reading of its input and the publication of its output. *)
Definition sanitize_text (text : list byte) : Try (list byte) :=
  let* s := sanitize_lines (lines text) (mk_sanitizer [] false []) in
  match redact_events (raw_events s) with
  | None => None
  | Some (Err e, _) => fail (Redaction e)
  | Some (Ok _, events) =>
    match scan_events events with
    | None => None
    | Some (_ :: _) => fail (Message (str "sanitized streams still contain sensitive identifiers"))
    | Some [] =>
      let ls := fill_lines (out_lines s) events in
      let ls := if saw_sanitizer_header s then ls else sanitizer_line :: ls in
      let* _ := rescan ls in
      fine (text_of ls)
    end
  end.

(** The events whose lines an input has, as [sanitize_line] reads them. *)
Definition data_count (ls : list OutLine) : nat :=
  length (List.filter (λ l, match l with Data _ => true | _ => false end) ls).

(** Comment lines scan clean. *)
Definition comments_clean (ls : list OutLine) : Prop :=
  Forall (λ l, match l with
               | Comment line => ∃ rest, strip_prefix line (str "#") = Some rest ∧ scan rest = Some []
               | Data _ => True
               end) ls.

Lemma sanitize_line_spec raw s s' :
  sanitize_line raw s = fine s' → comments_clean (out_lines s) → data_count (out_lines s) = length (raw_events s) →
  comments_clean (out_lines s') ∧ data_count (out_lines s') = length (raw_events s').
Proof.
  intros H Hc Hd. unfold sanitize_line in H. destruct (trim_end raw) as [|b line] eqn:Et; [by injection H as <-|].
  assert (∀ l s0, comments_clean (out_lines s0 ++ [Comment l]) ↔ comments_clean (out_lines s0) ∧ ∃ rest, strip_prefix l (str "#") = Some rest ∧ scan rest = Some []) as Hcc.
  { intros l s0. unfold comments_clean. rewrite list.Forall_app, list.Forall_cons, list.Forall_nil. naive_solver. }
  destruct (strip_prefix (b :: line) (str "#")) as [rest|] eqn:Es.
  - destruct (scan rest) as [[|]|] eqn:Esc; [|done..].
    assert (∀ l, data_count (out_lines s ++ [Comment l]) = length (raw_events s)) as Hdc.
    { intros l. unfold data_count in *. rewrite List.filter_app, length_app. simpl. lia. }
    destruct (starts_with (trim_start rest) (str "sanitizer:")); injection H as <-; cbn [out_lines raw_events].
    + split; [|by apply Hdc]. apply Hcc. split; [done|]. eexists. split; [by vm_compute | by vm_compute].
    + split; [|by apply Hdc]. apply Hcc. split; [done|]. by exists rest.
  - destruct (split_capture_line (b :: line)) as [[prefix hex]|]; [|done]. cbn [expect_some fine and_then] in H.
    unfold decode_or in H. destruct (decode_hex (trim hex)) as [[bytes|]|]; [|done..]. cbn [and_then fine] in H.
    destruct (list.last (split_whitespace prefix)) as [ch|]; [|done]. injection H as <-. cbn [out_lines raw_events].
    split; [apply list.Forall_app; split; [done | by repeat constructor]|].
    unfold data_count in *. rewrite List.filter_app, !length_app. simpl. lia.
Qed.

Lemma sanitize_lines_spec ls : ∀ s s',
  sanitize_lines ls s = fine s' → comments_clean (out_lines s) → data_count (out_lines s) = length (raw_events s) →
  comments_clean (out_lines s') ∧ data_count (out_lines s') = length (raw_events s').
Proof.
  induction ls as [|raw ls IH]; intros s s' H Hc Hd; [by injection H as <-|]. cbn [sanitize_lines] in H.
  destruct (sanitize_line raw s) as [[s1|]|] eqn:E; [|done..]. cbn [and_then] in H.
  destruct (sanitize_line_spec raw s s1 E Hc Hd). by eapply IH.
Qed.

Lemma rescan_ok ls : rescan ls = fine tt → Forall (λ l, ∀ rest, strip_prefix l (str "#") = Some rest → scan rest = Some []) ls.
Proof.
  induction ls as [|l ls IH]; intros H; [constructor|]. cbn [rescan] in H.
  destruct (strip_prefix l (str "#")) as [rest|] eqn:E.
  - destruct (scan rest) as [[|]|] eqn:Es; [|done..]. constructor; [intros r; rewrite E; by intros [= <-] | auto].
  - constructor; [intros r; rewrite E; done | auto].
Qed.

Lemma redact_events_shape events r events' :
  redact_events events = Some (r, events') → Forall2 same_shape events events'.
Proof.
  unfold redact_events. destruct (groups_indices events) as [Hn Hv].
  destruct (redact_groups_ok (groups events) events Hn Hv) as (r' & out & -> & Hs & _).
  intros [= <- <-]. by apply rewritten_shape.
Qed.

(** ** Properties *)

(** Merging partial captures always succeeds and loses nothing: for texts that a
    comparison can read, without OSC events and not all empty, the merge produces a capture
    that its own structural check accepts, whose events are those of the partial captures
    one after the other with their channels and bytes, and whose headers tell whether a
    disconnect was seen and whether destructive writes were approved. *)
Theorem merge_v2_exact texts evss destructive :
  Forall2 partial_ok texts evss → concat evss ≠ [] → Z.of_nat (length (concat evss)) < 2 ^ 64 →
  ∃ capture s, merge_v2 texts destructive = fine capture ∧ contract_events capture = fine (concat evss)
  ∧ parse_capture_structure capture = fine s ∧ event_count s = length (concat evss)
  ∧ summary_headers s !! str "destructive_write_approved" = Some (bool_text destructive)
  ∧ summary_headers s !! str "disconnect_observed"
    = Some (bool_text (existsb (λ e, bytes_eqb e.1 (str "N<") && (length e.2 =? 0)%nat) (concat evss))).
Proof.
  intros Ht Hne Hlen. destruct (merge_partials_spec texts evss Ht 0 []) as (events & Hm & He & Hp); [done | done | done |].
  cbn [pairs map app] in Hp. rewrite <- Hp in *. unfold pairs in Hlen, Hne. rewrite length_map in Hlen.
  destruct (capture_text_read (merged_headers (existsb is_disconnect events) destructive) events) as [Hs Hc];
    [apply merged_metadata | done | done |]. rewrite <- build_merged_text in Hs, Hc by done.
  exists (build_merged_matrix events destructive). eexists. unfold merge_v2. rewrite Hm. cbn [and_then fine].
  split; [|split; [exact Hc | split; [exact Hs|]]].
  - destruct events as [|e events]; [done|]. by rewrite Hs.
  - cbn [event_count summary_headers]. split; [unfold pairs; by rewrite length_map|].
    pose proof (md_distinct _ (merged_metadata (existsb is_disconnect events) destructive)) as Hd.
    split; apply insert_all_lookup; try exact Hd; unfold merged_headers, v2_headers; cbn [take app]; [member|].
    assert (existsb (λ e, bytes_eqb e.1 (str "N<") && (length e.2 =? 0)%nat) (pairs events) = existsb is_disconnect events) as ->; [|member].
    clear. unfold pairs. induction events as [|e events IH]; [done|]. cbn [map existsb]. by rewrite IH.
Qed.

(** The event comparison is exact: for two captures within the limit the number it
    returns is the number of positions at which they differ in channel or bytes, or at which
    one has ended; the report lists the first 1024 of them in order and says how many it left
    out; and the number is zero exactly when the captures have the same events. *)
Theorem compare_events_exact hardware_name emulator_name hardware emulator :
  (length hardware ≤ MAX_COMPARISON_EVENTS)%nat → (length emulator ≤ MAX_COMPARISON_EVENTS)%nat →
  ∃ n report, compare_events hardware_name emulator_name hardware emulator = fine (n, report)
  ∧ n = length (differing hardware emulator) ∧ (n = 0%nat ↔ hardware = emulator)
  ∧ ∃ more, report = text_of ([str "# WING capture deviation report"; str "# hardware: " ++ hardware_name;
                               str "# emulator: " ++ emulator_name; str "# deviations: " ++ decimal_usize n]
                              ++ map (deviation_line hardware emulator) (take MAX_REPORTED_DEVIATIONS (differing hardware emulator))
                              ++ more)
            ∧ more = if (n <=? MAX_REPORTED_DEVIATIONS)%nat then []
                     else [str "truncated: " ++ decimal_usize (n - MAX_REPORTED_DEVIATIONS) ++ str " additional deviation(s)"].
Proof.
  intros Hh He. unfold compare_events. rewrite (proj2 (Nat.ltb_ge _ _)) by lia.
  rewrite compare_loop; [|by apply list.Forall_forall; intros i Hi%elem_of_seq; lia | done].
  cbn [length app]. rewrite Nat.sub_0_r, Nat.add_0_l. fold (differing hardware emulator).
  eexists _, _. split; [reflexivity|]. split; [done|]. split.
  - rewrite <- differing_nil. by destruct (differing hardware emulator).
  - eexists. split; [|reflexivity]. rewrite length_map, length_take.
    destruct (length (differing hardware emulator) <=? MAX_REPORTED_DEVIATIONS)%nat eqn:El; bool_hyps.
    + rewrite (proj2 (Nat.ltb_ge _ _)) by lia. by rewrite app_nil_r.
    + rewrite (proj2 (Nat.ltb_lt _ _)) by lia. rewrite Nat.min_l by lia. cbn [app].
      match goal with |- _ = text_of (?a :: ?b :: ?c :: ?d :: ?m ++ ?x) =>
        change (a :: b :: c :: d :: m ++ x) with ((a :: b :: c :: d :: m) ++ x) end.
      rewrite text_of_app. f_equal. unfold text_of. cbn [map concat].
      by rewrite app_nil_r, <- !app_assoc.
Qed.

(** What the sanitizer writes is clean: its output consists of the comment lines of the
    input and its data lines, each under its own prefix with as many bytes as it had; no
    line that reads as metadata holds a serial, an address or a hardware address, and
    neither does any stream of the events, reassembled. *)
Theorem sanitize_text_clean text output :
  sanitize_text text = fine output →
  ∃ s events, sanitize_lines (lines text) (mk_sanitizer [] false []) = fine s
  ∧ output = text_of ((if saw_sanitizer_header s then [] else [sanitizer_line]) ++ fill_lines (out_lines s) events)
  ∧ comments_clean (out_lines s) ∧ data_count (out_lines s) = length events
  ∧ Forall2 (λ a b, a.1 = b.1 ∧ length a.2 = length b.2) (raw_events s) events
  ∧ scan_events events = Some []
  ∧ Forall (λ l, ∀ rest, strip_prefix l (str "#") = Some rest → scan rest = Some []) (fill_lines (out_lines s) events).
Proof.
  unfold sanitize_text. intros H. destruct (sanitize_lines _ _) as [[s|]|] eqn:E; [|done..]. cbn [and_then fine] in H.
  apply sanitize_lines_spec in E as Hs; [|by constructor|done]. destruct Hs as [Hc Hd].
  destruct (redact_events (raw_events s)) as [[[[]|] events]|] eqn:Er; [|done..]. apply redact_events_shape in Er.
  destruct (scan_events events) as [[|]|] eqn:Es; [|done..]. exists s, events.
  destruct (rescan _) as [[[]|]|] eqn:Ers; [|done..]. cbn [and_then fine] in H. injection H as <-. apply rescan_ok in Ers.
  split; [done|]. rewrite <- (list.Forall2_length _ _ _ Er). split_and!; try done; destruct (saw_sanitizer_header s); try done.
  by apply list.Forall_cons in Ers as [_ ?].
Qed.

(** ** Runs *)

Definition provenance_text (model : list byte) : list byte := text_of
  [str "# Provenance"; str "- **`other.wingcap`**"; str "  - source: synthetic"; []; str "- **`x.wingcap`**  ";
   str "  - Evidence class: synthetic"; str "  - Source: synthetic"; str "  - review status: reviewed";
   str "  - console model: " ++ model; str "    continued"; str "  - firmware: 3.1"; str "  - capture date: 2026-07-12";
   str "  - sanitizer: wingcapture/3"; str "Elsewhere"; str "  - source: hardware"].

Example preflight_matches : preflight (complete_v2 (str "true")) (provenance_text (str "RACK")) (str "x.wingcap") = fine tt.
Proof. vm_compute. reflexivity. Qed.

Example preflight_mismatch :
  error_of (preflight (complete_v2 (str "true")) (provenance_text (str "COMPACT")) (str "x.wingcap"))
  = Some (Quoting (str "provenance console model for x.wingcap is not as expected") (str "COMPACT"))
  ∧ error_of (preflight (complete_v2 (str "true")) (provenance_text (str "RACK")) (str "y.wingcap"))
  = Some (Message (str "provenance must contain exactly one canonical entry for y.wingcap")).
Proof. split; vm_compute; reflexivity. Qed.

(** A serial cut between two events is redacted in both. *)
Example sanitize_split_serial :
  sanitize_text (text_of [str "# note: x"; str "@1 +0us N< 4e4743"; str "@2 +1us N< 3132333435 "; str "N> df"])
  = fine (text_of [sanitizer_line; str "# note: x"; str "@1 +0us N< 4e4743"; str "@2 +1us N< 3030303030"; str "N> df"]).
Proof. vm_compute. reflexivity. Qed.

(** The parser folds the case of keys, the sanitizer does not: a capture whose header is
    [Sanitizer] is given a second one, and what was accepted before is rejected after. *)
Example sanitizer_key_case :
  let text := text_of (map header_line (v2_headers (str "s") (str "b"))) in
  let odd := replace (str "# sanitizer:") (str "# Sanitizer:") text in
  count_of (parse_capture_structure odd) = Some 0%nat
  ∧ match sanitize_text odd with
    | Some (Ok out) => error_of (parse_capture_structure out) = Some (Message (str "duplicate capture metadata key: sanitizer"))
    | _ => False
    end.
Proof. split; vm_compute; reflexivity. Qed.

Definition partial_a : list byte := events_to_v2 (str "d") (str "d") [(0, str "D>", str "WING?"); (8, str "D<", str "WING,")].
Definition partial_b : list byte := events_to_v2 (str "n") (str "n") [(0, str "N>", [b8 0xdf; b8 0xd1]); (3, str "N<", [b8 0xdf; b8 0xd1]); (4, str "N<", [])].
Definition events_a : list CaptureEvent := [(str "D>", str "WING?"); (str "D<", str "WING,")].
Definition events_b : list CaptureEvent := [(str "N>", [b8 0xdf; b8 0xd1]); (str "N<", [b8 0xdf; b8 0xd1]); (str "N<", [])].

Example merge_rebases :
  match merge_v2 [partial_a; partial_b] true with
  | Some (Ok capture) => list.last (event_lines capture) = Some (str "@5 +13us N< ")
  | _ => False
  end.
Proof. vm_compute. reflexivity. Qed.

Lemma partial_ok_decide text evs :
  match contract_events text with Some (Ok l) => bool_decide (l = evs ∧ Forall (λ e, e.1 ∈ MERGE_CHANNELS) l) | _ => false end = true →
  partial_ok text evs.
Proof.
  unfold partial_ok. destruct (contract_events text) as [[l|]|]; [|done..]. intros [-> H]%bool_decide_eq_true. done.
Qed.

Lemma merge_v2_exact_witness :
  ∃ capture, merge_v2 [partial_a; partial_b] true = fine capture ∧ contract_events capture = fine (events_a ++ events_b).
Proof.
  destruct (merge_v2_exact [partial_a; partial_b] [events_a; events_b] true) as (capture & s & H1 & H2 & _).
  - repeat constructor; apply partial_ok_decide; vm_compute; reflexivity.
  - discriminate.
  - vm_compute. reflexivity.
  - exists capture. split; [exact H1 | exact H2].
Defined.

Lemma compare_events_exact_witness :
  ∃ report, compare_events (str "h") (str "e") events_a events_b = fine (3%nat, report).
Proof.
  destruct (compare_events_exact (str "h") (str "e") events_a events_b) as (n & report & H & Hn & _).
  - apply Nat.leb_le. vm_compute. reflexivity.
  - apply Nat.leb_le. vm_compute. reflexivity.
  - assert (n = 3%nat) as -> by (rewrite Hn; vm_compute; reflexivity). exists report. exact H.
Defined.

Lemma sanitize_text_clean_witness :
  match sanitize_text (text_of [str "@1 +0us N< 4e4743"; str "@2 +1us N< 3132333435"]) with
  | Some (Ok output) => ∃ events, scan_events events = Some [] ∧ length events = 2%nat
  | _ => False
  end.
Proof.
  destruct (sanitize_text (text_of [str "@1 +0us N< 4e4743"; str "@2 +1us N< 3132333435"])) as [[output|]|] eqn:E.
  - destruct (sanitize_text_clean _ output E) as (s & events & Hs & _ & _ & Hd & _ & Hc & _). exists events. split; [exact Hc|].
    assert (fine s = sanitize_lines (lines (text_of [str "@1 +0us N< 4e4743"; str "@2 +1us N< 3132333435"])) (mk_sanitizer [] false [])) as Hs' by exact (eq_sym Hs).
    vm_compute in Hs'. injection Hs' as ->. vm_compute in Hd. exact (eq_sym Hd).
  - vm_compute in E. discriminate.
  - vm_compute in E. discriminate.
Defined.
