(* ===== verification/CaptureSessions.v ===== *)
(** The live sessions of the capture tool ([src/tools/wingcapture.rs],
    [capture_discovery_session], [capture_meter_session], [proxy_direction],
    [run_native_proxy]).

    What the sockets and the clock answer is an input: a [Turn] for each datagram of a
    discovery or meter session; for the proxy a schedule, the steps of its two threads in the
    order in which they ran, each with what its thread was answered.  A thread's step is what
    it does between two points at which the other can be seen: it looks at the stop flag and
    the clock, it reads and records under the recorder's lock, it forwards.  Offsets are
    microseconds, as the transcript has them. *)

From S2P Require Import Prelude Sort Text Decimal Bytes Lib Utf8 F32 Words Channel Meter NativeRequest ClientMessages.
From S2P Require Import NodeDef NodeData Redact Capture Discovery.
From stdpp Require Import list.
Local Open Scope Z_scope.
Local Open Scope rust_scope.

(** ** Data *)

(** Why a session ended without a transcript: a call failed at a step, or a limit. *)
Inductive SessionFault :=
| StepFailed (step : list byte) (kind : ErrorKind)
| DeadlineExpired
| TooManyDatagrams
| NotEncoded (e : Error)
| NotLoopback
| ForwardFault (message : list byte).

Definition step_outcome (step : list byte) (failed : option ErrorKind) : result SessionFault unit :=
  match failed with None => Ok tt | Some kind => Err (StepFailed step kind) end.

(** One turn of a receive loop: the time left to the deadline, whether setting the timeout
    failed, what was received and what the clock showed then. *)
Record Turn := mk_turn {
  remaining : Z;
  set_timeout : option ErrorKind;
  receipt : result ErrorKind (list byte * SocketAddr);
  offset : Z;
}.

(** [u64::try_from(micros).unwrap_or(u64::MAX)]. *)
Definition micros (elapsed : Z) : Z := Z.min elapsed (2 ^ 64 - 1).

(** ** Discovery *)

(** The turns left of the hundred. *)
Fixpoint discovery_turns (budget : nat) (turns : nat → Turn) (target : SocketAddr) : result SessionFault (Z * list byte) :=
  match budget with
  | O => Err TooManyDatagrams
  | S budget =>
    let turn := turns (100 - S budget)%nat in
    if remaining turn <=? 0 then Err DeadlineExpired
    else
      let? _ := step_outcome (str "setting discovery timeout") (set_timeout turn) in
      match receipt turn with
      | Err kind => Err (StepFailed (str "receiving discovery reply") kind)
      | Ok (payload, source) =>
        if negb (bool_decide (source = target)) then discovery_turns budget turns target
        else Ok (micros (offset turn), take 2048 payload)
      end
  end.

Definition capture_discovery_session (send : option ErrorKind) (turns : nat → Turn) (target : SocketAddr)
    : result SessionFault (list byte) :=
  let? _ := step_outcome (str "sending discovery request") send in
  let? answer := discovery_turns 100 turns target in
  Ok (events_to_v2 (str "discovery_raw") (str "direct WING discovery request and reply")
        [(0, str "D>", WING_PROBE); (answer.1, str "D<", answer.2)]).

(** ** Meters *)

Definition encoded (r : Result (list byte)) : result SessionFault (list byte) :=
  match r with Ok wire => Ok wire | Err e => Err (NotEncoded e) end.

Definition meter_subscribe_wire (port report_id : Z) (meter : list byte) : result SessionFault (list byte) :=
  encoded (encode_channel 3
    ([b8 0xd3] ++ to_be 2 port ++ [b8 0xd4] ++ to_be 4 report_id ++ [b8 0xdc] ++ meter ++ [b8 0xde])).

Definition meter_renew_wire (report_id : Z) : result SessionFault (list byte) :=
  let? wire := encoded (encode_channel 3 ([b8 0xd4] ++ to_be 4 report_id)) in
  let? flush := encoded (encode_channel 1 []) in
  Ok (wire ++ flush).

(** A report for [token] from the console. *)
Definition is_report (expected_source : IpAddr) (token : Z) (payload : list byte) (source : SocketAddr) : bool :=
  bool_decide (source.1 = expected_source) && (4 <=? length payload)%nat
  && (from_be (take 2 payload) =? token) && bytes_eqb (take 2 (drop 2 payload)) [b8 0; b8 0].

(** The datagrams left of the session's hundred, [n] of them behind it. *)
Fixpoint await_report (budget n : nat) (turns : nat → Turn) (expected_source : IpAddr) (token : Z)
    : result SessionFault (list byte * nat * nat) :=
  match budget with
  | O => Err TooManyDatagrams
  | S budget =>
    if remaining (turns n) <=? 0 then Err DeadlineExpired
    else
      let? _ := step_outcome (str "setting meter timeout") (set_timeout (turns n)) in
      match receipt (turns n) with
      | Err kind => Err (StepFailed (str "receiving meter report") kind)
      | Ok (payload, source) =>
        if is_report expected_source token (take 8192 payload) source then Ok (take 8192 payload, budget, S n)
        else await_report budget (S n) turns expected_source token
      end
  end.

Section MeterSession.
Context (write : nat → option ErrorKind) (clock : nat → Z) (turns : nat → Turn).
Context (port : Z) (expected_source : IpAddr).

(** [u32::from(token) << 16 | u32::from(port)]. *)
Definition session_report_id (token : Z) : Z := Z.lor (Z.shiftl token 16) port.

(** One meter: subscribed, reported, renewed. [k] counts the meters; a meter writes twice and
    looks at the clock three times. *)
Definition capture_meter (k : nat) (token : Z) (meter : list byte) (budget n : nat)
    : result SessionFault (list CapturedEvent * nat * nat) :=
  let report_id := session_report_id token in
  let? subscribe := meter_subscribe_wire port report_id meter in
  let? _ := step_outcome (str "sending meter subscription") (write (2 * k + 1)%nat) in
  let? report := await_report budget n turns expected_source token in
  let '(frame, budget, n) := report in
  let? renew := meter_renew_wire report_id in
  let? _ := step_outcome (str "sending meter renewal") (write (2 * k + 2)%nat) in
  Ok ([(micros (clock (3 * k)%nat), str "M>", subscribe); (micros (clock (3 * k + 1)%nat), str "M<", frame);
       (micros (clock (3 * k + 2)%nat), str "M>", renew)], budget, n).

Definition capture_meter_events : result SessionFault (list CapturedEvent) :=
  let? handshake := encoded (encode_channel 1 []) in
  let? _ := step_outcome (str "sending Native handshake") (write 0%nat) in
  let? first := capture_meter 0 1 [b8 0xa0; b8 0x00] 100 0 in
  let '(events1, budget, n) := first in
  let? second := capture_meter 1 2 [b8 0xaa] budget n in
  let '(events2, _, _) := second in
  Ok ((0, str "N>", handshake) :: events1 ++ events2).

Definition capture_meter_session (local_port : option ErrorKind) : result SessionFault (list byte) :=
  let? _ := step_outcome (str "reading meter socket") local_port in
  let? events := capture_meter_events in
  Ok (events_to_v2 (str "meter_matrix_raw")
        (str "two Native meter subscriptions, token-bearing reports, and renewals") events).
End MeterSession.

(** ** The proxy *)

(** Where a direction's thread is: at the loop's condition, about to read, about to forward a
    chunk it has recorded, or finished. *)
Inductive Phase :=
| Looping
| Reading
| Forwarding (chunk : list byte)
| Finished (r : result SessionFault unit).

(** One direction: its phase and what it has sent to its destination. *)
Record Direction := mk_direction { phase : Phase; forwarded : list byte }.

Inductive Side := ClientToConsole | ConsoleToClient.

Definition side_channel (side : Side) : list byte :=
  match side with ClientToConsole => str "N>" | ConsoleToClient => str "N<" end.

(** What the two threads share, and each of them. *)
Record Proxy := mk_proxy {
  recorder : ProxyRecorder;
  stop : bool;
  client_to_console : Direction;
  console_to_client : Direction;
}.

(** What a step is answered. A write that fails may have sent the first [sent] bytes. *)
Inductive Answer :=
| Clock (deadline_passed : bool)
| Read (elapsed : Z) (bytes : list byte)
| ReadFailed (kind : ErrorKind)
| Written
| WriteFailed (sent : nat) (kind : ErrorKind).

Definition direction (side : Side) (p : Proxy) : Direction :=
  match side with ClientToConsole => client_to_console p | ConsoleToClient => console_to_client p end.

Definition set_direction (side : Side) (d : Direction) (p : Proxy) : Proxy :=
  match side with
  | ClientToConsole => mk_proxy (recorder p) (stop p) d (console_to_client p)
  | ConsoleToClient => mk_proxy (recorder p) (stop p) (client_to_console p) d
  end.

Definition set_recorder (r : ProxyRecorder) (p : Proxy) : Proxy :=
  mk_proxy r (stop p) (client_to_console p) (console_to_client p).

Definition set_phase (side : Side) (ph : Phase) (p : Proxy) : Proxy :=
  set_direction side (mk_direction ph (forwarded (direction side p))) p.

(** The end of a direction, which stops the other. *)
Definition finish (side : Side) (r : result SessionFault unit) (p : Proxy) : Proxy :=
  let p := set_phase side (Finished r) p in
  mk_proxy (recorder p) true (client_to_console p) (console_to_client p).

Definition send (side : Side) (bytes : list byte) (p : Proxy) : Proxy :=
  set_direction side (mk_direction (phase (direction side p)) (forwarded (direction side p) ++ bytes)) p.

(** A step of [proxy_direction]; an answer that is not for the phase changes nothing. *)
Definition proxy_step (side : Side) (answer : Answer) (p : Proxy) : Proxy :=
  match phase (direction side p), answer with
  | Looping, Clock deadline_passed =>
    if negb (stop p) && negb deadline_passed then set_phase side Reading p else finish side (Ok tt) p
  | Reading, Read elapsed bytes =>
    let chunk := take 8192 bytes in
    let '(recorded, r) := record elapsed (side_channel side) chunk (recorder p) in
    let p := set_recorder r p in
    match chunk, recorded with
    | [], Ok _ => finish side (Ok tt) p
    | [], Err message => finish side (Err (ForwardFault message)) p
    | _ :: _, Ok _ => set_phase side (Forwarding chunk) p
    | _ :: _, Err message => finish side (Err (ForwardFault message)) p
    end
  | Reading, ReadFailed (WouldBlock | TimedOut) => set_phase side Looping p
  | Reading, ReadFailed kind =>
    if stop p then set_phase side (Finished (Ok tt)) p
    else finish side (Err (StepFailed (str "reading " ++ side_channel side) kind)) p
  | Forwarding chunk, Written => set_phase side Looping (send side chunk p)
  | Forwarding chunk, WriteFailed sent kind =>
    let p := send side (take sent chunk) p in
    if stop p then set_phase side (Finished (Ok tt)) p
    else finish side (Err (StepFailed (str "forwarding " ++ side_channel side) kind)) p
  | _, _ => p
  end.

Definition proxy_run (schedule : list (Side * Answer)) (p : Proxy) : Proxy :=
  foldl (λ p s, proxy_step s.1 s.2 p) p schedule.

Definition new_proxy : Proxy :=
  mk_proxy new_recorder false (mk_direction Looping []) (mk_direction Looping []).

(** Joining the threads: the first one's error before the second's. [None]: one still runs. *)
Definition joined (p : Proxy) : option (result SessionFault (list byte)) :=
  match phase (client_to_console p), phase (console_to_client p) with
  | Finished a, Finished b =>
    Some (let? _ := a in let? _ := b in Ok (into_v2 (recorder p)))
  | _, _ => None
  end.

Definition is_loopback (ip : IpAddr) : bool :=
  match ip with
  | V4 a _ _ _ => u8 a =? 127
  | V6 segments => bool_decide (segments = [0; 0; 0; 0; 0; 0; 0; 1])
  end.

(** The turns of the accept loop: its outcome and whether the deadline has passed; after the
    last it has. *)
Fixpoint accept_client (turns : list (option ErrorKind * bool)) : result SessionFault unit :=
  match turns with
  | [] => Err DeadlineExpired
  | (None, _) :: _ => Ok tt
  | (Some WouldBlock, expired) :: turns => if expired then Err DeadlineExpired else accept_client turns
  | (Some kind, _) :: _ => Err (StepFailed (str "accepting Native proxy client") kind)
  end.

(** [run_native_proxy]; the clones of the two sockets are not told apart. *)
Definition run_native_proxy (local_addr : result ErrorKind IpAddr) (nonblocking : option ErrorKind)
    (accepts : list (option ErrorKind * bool)) (upstream clones : option ErrorKind) (schedule : list (Side * Answer))
    : option (result SessionFault (list byte)) :=
  match local_addr with
  | Err kind => Some (Err (StepFailed (str "reading proxy listener") kind))
  | Ok ip =>
    if negb (is_loopback ip) then Some (Err NotLoopback)
    else
      match (let? _ := step_outcome (str "configuring proxy listener") nonblocking in
             let? _ := accept_client accepts in
             let? _ := step_outcome (str "connecting Native proxy upstream") upstream in
             step_outcome (str "cloning proxy client") clones) with
      | Err e => Some (Err e)
      | Ok _ => joined (proxy_run schedule new_proxy)
      end
  end.

(** ** The proxy forwards what it records *)

#[export] Instance Side_eq_dec : EqDecision Side.
Proof. solve_decision. Defined.

(** What a transcript says was sent on a side. *)
Definition transcript (side : Side) (r : ProxyRecorder) : list byte :=
  concat (map snd (filter (λ e, e.1.2 = side_channel side) (recorded r))).

Lemma side_channel_inj a b : side_channel a = side_channel b → a = b.
Proof. by destruct a, b. Qed.

Lemma record_transcript elapsed side side' bytes r o r' :
  record elapsed (side_channel side) bytes r = (o, r') →
  transcript side' r'
  = transcript side' r ++ (if decide (side' = side) then match o with Ok _ => bytes | Err _ => [] end else []).
Proof.
  unfold record. destruct (_ || _); intros H; injection H as <- <-; [by case_decide; rewrite app_nil_r|].
  unfold transcript. cbn [recorded]. rewrite filter_app, map_app, concat_app. f_equal. rewrite filter_cons, filter_nil.
  cbn [fst snd]. case_decide as H1; case_decide as H2; try done.
  - cbn. apply app_nil_r.
  - symmetry in H1. by apply side_channel_inj in H1.
  - by subst side'.
Qed.

(** A direction against the transcript of its side. *)
Definition direction_ok (side : Side) (p : Proxy) : Prop :=
  match phase (direction side p) with
  | Looping | Reading => transcript side (recorder p) = forwarded (direction side p)
  | Forwarding chunk =>
    transcript side (recorder p) = forwarded (direction side p) ++ chunk ∧ (length chunk ≤ 8192)%nat
  | Finished _ =>
    stop p = true
    ∧ ∃ rest, transcript side (recorder p) = forwarded (direction side p) ++ rest ∧ (length rest ≤ 8192)%nat
  end.

Definition proxy_ok (p : Proxy) : Prop := ∀ side, direction_ok side p.

Lemma direction_set side side' d p :
  direction side' (set_direction side d p) = if decide (side' = side) then d else direction side' p.
Proof. by destruct side, side'. Qed.

Lemma recorder_set side d p : recorder (set_direction side d p) = recorder p.
Proof. by destruct side. Qed.

Lemma stop_set side d p : stop (set_direction side d p) = stop p.
Proof. by destruct side. Qed.

(** A step of one side keeps the other: its transcript, and the stop flag once set. *)
Lemma direction_ok_other side p p' :
  direction side p' = direction side p → transcript side (recorder p') = transcript side (recorder p) →
  (stop p = true → stop p' = true) → direction_ok side p → direction_ok side p'.
Proof. unfold direction_ok. intros -> -> Hs. destruct (phase (direction side p)); naive_solver. Qed.

Lemma direction_finish side side' r p :
  direction side' (finish side r p)
  = if decide (side' = side) then mk_direction (Finished r) (forwarded (direction side p)) else direction side' p.
Proof. by destruct side, side'. Qed.

Lemma recorder_finish side r p : recorder (finish side r p) = recorder p.
Proof. by destruct side. Qed.

Lemma stop_finish side r p : stop (finish side r p) = true.
Proof. by destruct side. Qed.

Lemma direction_recorder side r p : direction side (set_recorder r p) = direction side p.
Proof. by destruct side. Qed.

Create Rewrite HintDb proxy.
#[local] Hint Rewrite direction_set recorder_set stop_set direction_finish recorder_finish stop_finish direction_recorder : proxy.

(** Reads a state that a step built. *)
Ltac proxy_simpl := unfold set_phase, send in *; autorewrite with proxy; cbn [recorder stop set_recorder phase forwarded].

Lemma step_other side side' answer p :
  side' ≠ side →
  direction side' (proxy_step side answer p) = direction side' p
  ∧ transcript side' (recorder (proxy_step side answer p)) = transcript side' (recorder p)
  ∧ (stop p = true → stop (proxy_step side answer p) = true).
Proof.
  intros Hne. unfold proxy_step. destruct (phase (direction side p)), answer; try done.
  - destruct (_ && _); proxy_simpl; by rewrite ?decide_False by done.
  - destruct (record elapsed (side_channel side) (take 8192 bytes) (recorder p)) as [o r] eqn:E.
    apply record_transcript with (side' := side') in E. rewrite decide_False, app_nil_r in E by done.
    destruct (take 8192 bytes), o; proxy_simpl; by rewrite ?decide_False by done.
  - destruct kind; try destruct (stop p) eqn:Es; proxy_simpl; rewrite ?decide_False by done; by rewrite ?Es.
  - proxy_simpl. by rewrite !decide_False by done.
  - unfold send. rewrite stop_set. destruct (stop p) eqn:Es; proxy_simpl; rewrite ?decide_False by done; by rewrite ?Es.
Qed.

Lemma nothing_left (t : list byte) : ∃ rest, t = t ++ rest ∧ (length rest ≤ 8192)%nat.
Proof. exists []. rewrite app_nil_r. split; [done|cbn; lia]. Qed.

Lemma step_same side answer p : direction_ok side p → direction_ok side (proxy_step side answer p).
Proof.
  intros Hd. pose proof Hd as Hp. unfold direction_ok in Hd. unfold proxy_step.
  destruct (phase (direction side p)) as [| |chunk|res] eqn:Ep; destruct answer; try done.
  - destruct (_ && _); unfold direction_ok; proxy_simpl; rewrite ?decide_True by done; cbn [phase forwarded]; [done|].
    split; [done|]. rewrite Hd. apply nothing_left.
  - destruct (record elapsed (side_channel side) (take 8192 bytes) (recorder p)) as [o r] eqn:E.
    apply record_transcript with (side' := side) in E. rewrite decide_True in E by done.
    pose proof (firstn_le_length 8192 bytes) as Hl.
    destruct (take 8192 bytes) as [|b chunk] eqn:Ec, o; unfold direction_ok; proxy_simpl; rewrite ?decide_True by done;
      cbn [phase forwarded]; rewrite E, Hd, ?app_nil_r.
    1-2: split; [done|]; apply nothing_left.
    + split; [done|]. rewrite <- Ec, length_take. lia.
    + split; [done|]. apply nothing_left.
  - destruct kind; try destruct (stop p) eqn:Es; unfold direction_ok; proxy_simpl; rewrite ?decide_True by done;
      cbn [phase forwarded]; try done; (split; [done|]); rewrite Hd; apply nothing_left.
  - unfold direction_ok. proxy_simpl. rewrite !decide_True by done. cbn [phase forwarded]. by destruct Hd.
  - destruct Hd as [Ht Hl]. unfold send. rewrite stop_set.
    destruct (stop p) eqn:Es; unfold direction_ok; proxy_simpl; rewrite ?decide_True by done; cbn [phase forwarded];
      (split; [done|]; exists (drop sent chunk); split; [by rewrite <- app_assoc, take_drop|rewrite length_drop; lia]).
Qed.

Lemma proxy_step_ok side answer p : proxy_ok p → proxy_ok (proxy_step side answer p).
Proof.
  intros H side'. destruct (decide (side' = side)) as [->|Hne]; [by apply step_same|].
  destruct (step_other side side' answer p Hne) as (H1 & H2 & H3). by eapply direction_ok_other.
Qed.

(** The clock of the reads does not go back. *)
Definition answer_time (now : Z) (answer : Answer) : Z := match answer with Read elapsed _ => elapsed | _ => now end.

Fixpoint schedule_clock (now : Z) (schedule : list (Side * Answer)) : Prop :=
  match schedule with
  | [] => True
  | s :: schedule => now ≤ answer_time now s.2 ∧ schedule_clock (answer_time now s.2) schedule
  end.

Lemma recorder_inv_later now now' r : recorder_inv now r → now ≤ now' → recorder_inv now' r.
Proof. intros [] ?. split; try done. lia. Qed.

Lemma step_recorder side answer p now :
  0 ≤ now ≤ answer_time now answer → recorder_inv now (recorder p) →
  recorder_inv (answer_time now answer) (recorder (proxy_step side answer p)).
Proof.
  intros Hnow Hr. unfold proxy_step.
  destruct (phase (direction side p)), answer; cbn [answer_time] in *; try (by eapply recorder_inv_later; [exact Hr|lia]).
  - destruct (_ && _); by proxy_simpl.
  - pose proof (record_inv now elapsed (side_channel side) (take 8192 bytes) (recorder p) Hr ltac:(lia)
      ltac:(destruct side; [left|right; left])) as Hi.
    destruct (record _ _ _ _) as [o r]. cbn [snd] in Hi. by destruct (take 8192 bytes), o; proxy_simpl.
  - by destruct kind; try destruct (stop p); proxy_simpl.
  - by proxy_simpl.
  - unfold send. rewrite stop_set. by destruct (stop p); proxy_simpl.
Qed.

Lemma proxy_run_ok schedule : ∀ p now,
  proxy_ok p → 0 ≤ now → recorder_inv now (recorder p) → schedule_clock now schedule →
  proxy_ok (proxy_run schedule p) ∧ ∃ now', recorder_inv now' (recorder (proxy_run schedule p)).
Proof.
  induction schedule as [|[side answer] schedule IH]; intros p now Hp Hn Hr Hc; [split; [done|by exists now]|].
  destruct Hc as [H1 H2]. cbn [proxy_run foldl fst snd] in *.
  apply (IH _ (answer_time now answer)); [by apply proxy_step_ok|lia| |done]. by apply step_recorder.
Qed.

(** C29: The proxy is transparent and its transcript is true.  However its two threads
    interleave, as long as the clock does not go back: each side has sent exactly what the
    transcript says was sent there, but for at most the one chunk (of at most 8192 bytes) it
    had recorded and is about to send, or could not send before it ended; once
    one thread is finished the other is told to stop; and the
    transcript a session returns reads back as the events recorded, within its bounds. *)
Theorem proxy_transparent schedule :
  schedule_clock 0 schedule →
  let p := proxy_run schedule new_proxy in
  (∀ side, ∃ rest,
     transcript side (recorder p) = forwarded (direction side p) ++ rest ∧ (length rest ≤ 8192)%nat
     ∧ (phase (direction side p) = Looping ∨ phase (direction side p) = Reading → rest = []))
  ∧ ((∃ side r, phase (direction side p) = Finished r) → stop p = true)
  ∧ bytes_of (recorded (recorder p)) ≤ PROXY_MAX_BYTES
  ∧ (∀ text, joined p = Some (Ok text) →
       contract_events text = fine (map (λ e, (e.1.2, e.2)) (recorded (recorder p)))).
Proof.
  intros Hc p. assert (proxy_ok new_proxy) as H0 by (by intros []).
  destruct (proxy_run_ok schedule new_proxy 0 H0 ltac:(lia) new_recorder_inv Hc) as [Hp [now Hr]]. fold p in Hp, Hr.
  split_and!.
  - intros side. specialize (Hp side). unfold direction_ok in Hp. destruct (phase (direction side p)) as [| |chunk|r] eqn:E.
    + exists []. rewrite app_nil_r. split_and!; [done|cbn; lia|done].
    + exists []. rewrite app_nil_r. split_and!; [done|cbn; lia|done].
    + exists chunk. destruct Hp as [? ?]. split_and!; [done..|]. by intros [?|?].
    + destruct Hp as (_ & rest & ? & ?). exists rest. split_and!; [done..|]. by intros [?|?].
  - intros (side & r & E). specialize (Hp side). unfold direction_ok in Hp. rewrite E in Hp. by destruct Hp.
  - destruct Hr as [_ [<- ?] _ _]. done.
  - intros text Hj. unfold joined in Hj. destruct (phase (client_to_console p)) as [| | |[[]|]], (phase (console_to_client p)) as [| | |[[]|]];
      try done. injection Hj as <-. by apply (recorder_read now).
Qed.

(** Once told to stop, a thread at its loop's condition finishes. *)
Lemma stop_finishes side deadline_passed p :
  stop p = true → phase (direction side p) = Looping →
  phase (direction side (proxy_step side (Clock deadline_passed) p)) = Finished (Ok tt).
Proof. intros Hs Hp. unfold proxy_step. rewrite Hp, Hs. cbn [negb andb]. proxy_simpl. by rewrite decide_True. Qed.

(** Only a listener on the loopback interface is served. *)
Lemma proxy_only_loopback ip nonblocking accepts upstream clones schedule text :
  run_native_proxy (Ok ip) nonblocking accepts upstream clones schedule = Some (Ok text) → is_loopback ip = true.
Proof. unfold run_native_proxy. by destruct (is_loopback ip). Qed.

(** ** What the sessions record *)

(** A session's text is read back as its events. *)
Lemma session_read scenario behavior events :
  metadata_ok (v2_headers scenario behavior) → events_ok 0 events → (length events ≤ 100)%nat →
  contract_events (events_to_v2 scenario behavior events) = fine (map (λ e, (e.1.2, e.2)) events).
Proof.
  intros Hm He Hl. unfold events_to_v2. apply (capture_text_read _ _ Hm He). lia.
Qed.

(** A turn that is skipped, and the one that answers. *)
Definition in_time (turn : Turn) : Prop := 0 < remaining turn ∧ set_timeout turn = None.

Lemma discovery_turns_inv budget turns target o b :
  (budget ≤ 100)%nat → discovery_turns budget turns target = Ok (o, b) →
  ∃ n payload, (100 - budget ≤ n < 100)%nat ∧ in_time (turns n) ∧ receipt (turns n) = Ok (payload, target)
    ∧ o = micros (offset (turns n)) ∧ b = take 2048 payload
    ∧ ∀ m, (100 - budget ≤ m < n)%nat → in_time (turns m) ∧ ∃ p source, receipt (turns m) = Ok (p, source) ∧ source ≠ target.
Proof.
  induction budget as [|budget IH]; intros Hb H; [done|]. cbn [discovery_turns] in H.
  set (k := (100 - S budget)%nat) in *. destruct (Z.leb_spec (remaining (turns k)) 0) as [|Hrem]; [done|].
  destruct (set_timeout (turns k)) eqn:Et; cbn [step_outcome] in H; [done|].
  destruct (receipt (turns k)) as [[payload source]|] eqn:Er; [|done].
  case_bool_decide as Hs; cbn [negb] in H.
  - injection H as <- <-. subst source. exists k, payload. split_and!; try done; try lia.
  - destruct (IH ltac:(lia) H) as (n & p & Hn & Hin & Hr & -> & -> & Hbefore). exists n, p. split_and!; try done; try lia.
    intros m Hm. destruct (decide (m = k)) as [->|]; [|apply Hbefore; lia]. split; [by split|]. by exists payload, source.
Qed.

(** A discovery session's transcript is read back as the probe it sent and the first
    datagram that came from the console it asked, one of the first hundred received before the
    deadline; datagrams from anywhere else are not in it. *)
Theorem discovery_session_exact send turns target text :
  (∀ n, 0 ≤ offset (turns n)) →
  capture_discovery_session send turns target = Ok text →
  send = None
  ∧ ∃ n payload, (n < 100)%nat ∧ in_time (turns n) ∧ receipt (turns n) = Ok (payload, target)
    ∧ (∀ m, (m < n)%nat → in_time (turns m) ∧ ∃ p source, receipt (turns m) = Ok (p, source) ∧ source ≠ target)
    ∧ contract_events text = fine [(str "D>", WING_PROBE); (str "D<", take 2048 payload)].
Proof.
  intros Ho H. unfold capture_discovery_session in H. destruct send; [done|]. cbn [step_outcome] in H.
  destruct (discovery_turns 100 turns target) as [[o b]|] eqn:E; [|done]. cbn [fst snd] in H. injection H as <-.
  apply discovery_turns_inv in E as (n & payload & Hn & Hin & Hr & -> & -> & Hbefore); [|done].
  split; [done|]. exists n, payload. split_and!; [lia|done|done|intros m Hm; apply Hbefore; lia|].
  apply session_read; [by apply v2_metadata| |cbn; lia]. specialize (Ho n). unfold micros.
  cbn [events_ok event_ok fst]. split_and!; try done; try lia; apply (bool_decide_unpack _); vm_compute; exact I.
Qed.

Section MeterSessionLemmas.
Context (write : nat → option ErrorKind) (clock : nat → Z) (turns : nat → Turn).
Context (port : Z) (expected_source : IpAddr).

(** The payloads on the meter channel. *)
Definition subscribe_payload (token : Z) (meter : list byte) : list byte :=
  ([b8 0xd3] ++ to_be 2 port) ++ ([b8 0xd4] ++ to_be 2 token ++ to_be 2 port) ++ [b8 0xdc] ++ meter ++ [b8 0xde].
Definition renew_payload (token : Z) : list byte := [b8 0xd4] ++ to_be 2 token ++ to_be 2 port.

Definition subscribe_bytes (token : Z) (meter : list byte) : list byte :=
  [b8 0xdf; b8 0xd3] ++ escape (subscribe_payload token meter).
Definition renew_bytes (token : Z) : list byte := ([b8 0xdf; b8 0xd3] ++ escape (renew_payload token)) ++ [b8 0xdf; b8 0xd1].

Lemma session_report_id_bytes token :
  in_u16 token → in_u16 port → to_be 4 (session_report_id port token) = to_be 2 token ++ to_be 2 port.
Proof.
  intros Ht Hp. rewrite <- (to_from_be (to_be 2 token ++ to_be 2 port)), length_app, !to_be_length, report_id_bytes by done.
  f_equal. unfold session_report_id, report_id. rewrite <- Z.shiftl_mul_pow2 by lia. symmetry. apply Z.add_nocarry_lor.
  apply Z.bits_inj'. intros i Hi. rewrite Z.land_spec, Z.bits_0. destruct (Z.ltb_spec i 16) as [Hlt|Hge].
  - by rewrite Z.shiftl_spec_low.
  - rewrite andb_comm. rewrite <- (Z.mod_small port (2 ^ 16)) by width. by rewrite Z.mod_pow2_bits_high by lia.
Qed.

Lemma channel_ok_small c : 0 ≤ c < 14 → channel_ok c.
Proof. unfold channel_ok, CHANNEL_COUNT. lia. Qed.

Lemma meter_subscribe_wire_eq token meter :
  in_u16 token → in_u16 port →
  meter_subscribe_wire port (session_report_id port token) meter = Ok (subscribe_bytes token meter).
Proof.
  intros Ht Hp. unfold meter_subscribe_wire. rewrite encode_channel_eq by (apply channel_ok_small; lia).
  rewrite session_report_id_bytes by done. unfold subscribe_bytes, subscribe_payload. by rewrite <- !app_assoc.
Qed.

Lemma meter_renew_wire_eq token :
  in_u16 token → in_u16 port → meter_renew_wire (session_report_id port token) = Ok (renew_bytes token).
Proof.
  intros Ht Hp. unfold meter_renew_wire. rewrite !encode_channel_eq by (apply channel_ok_small; lia).
  rewrite session_report_id_bytes by done. cbn [encoded]. reflexivity.
Qed.

(** A turn that is not a report for [token]. *)
Definition skipped (token : Z) (turn : Turn) : Prop :=
  in_time turn ∧ ∃ p source, receipt turn = Ok (p, source) ∧ is_report expected_source token (take 8192 p) source = false.

(** The turn that is. *)
Definition reports (token : Z) (turn : Turn) (frame : list byte) : Prop :=
  in_time turn ∧ ∃ p source, receipt turn = Ok (p, source) ∧ frame = take 8192 p
    ∧ is_report expected_source token frame source = true.

Lemma await_report_inv budget n token frame budget' n' :
  await_report budget n turns expected_source token = Ok (frame, budget', n') →
  ∃ i, (n ≤ i)%nat ∧ n' = S i ∧ (budget' + n' = budget + n)%nat ∧ reports token (turns i) frame
    ∧ ∀ m, (n ≤ m < i)%nat → skipped token (turns m).
Proof.
  revert n. induction budget as [|budget IH]; intros n H; [done|]. cbn [await_report] in H.
  destruct (Z.leb_spec (remaining (turns n)) 0) as [|Hrem]; [done|].
  destruct (set_timeout (turns n)) eqn:Et; cbn [step_outcome] in H; [done|].
  destruct (receipt (turns n)) as [[payload source]|] eqn:Er; [|done].
  destruct (is_report expected_source token (take 8192 payload) source) eqn:Ei.
  - injection H as <- <- <-. exists n. split_and!; try done; try lia.
    split; [by split|]. by exists payload, source.
  - apply IH in H as (i & Hi & -> & Hb & Hr & Hbefore). exists i. split_and!; try done; try lia.
    intros m Hm. destruct (decide (m = n)) as [->|]; [|apply Hbefore; lia]. split; [by split|]. by exists payload, source.
Qed.

Definition meter_events (k : nat) (token : Z) (meter frame : list byte) : list CapturedEvent :=
  [(micros (clock (3 * k)%nat), str "M>", subscribe_bytes token meter); (micros (clock (3 * k + 1)%nat), str "M<", frame);
   (micros (clock (3 * k + 2)%nat), str "M>", renew_bytes token)].

Lemma capture_meter_inv k token meter budget n events budget' n' :
  in_u16 token → in_u16 port →
  capture_meter write clock turns port expected_source k token meter budget n = Ok (events, budget', n') →
  ∃ i frame, events = meter_events k token meter frame ∧ (n ≤ i)%nat ∧ n' = S i ∧ (budget' + n' = budget + n)%nat
    ∧ reports token (turns i) frame ∧ (∀ m, (n ≤ m < i)%nat → skipped token (turns m)).
Proof.
  intros Ht Hp H. unfold capture_meter in H. rewrite meter_subscribe_wire_eq, meter_renew_wire_eq in H by done.
  destruct (write (2 * k + 1)%nat); [done|]. cbn [step_outcome] in H.
  destruct (await_report _ _ _ _ _) as [[[frame b] m]|] eqn:E; [|done].
  destruct (write (2 * k + 2)%nat); [done|]. cbn [step_outcome] in H. injection H as <- <- <-.
  apply await_report_inv in E as (i & H1 & H2 & H3 & H4 & H5). exists i, frame. by split_and!.
Qed.

(** What the session writes on the Native connection. *)
Definition native_wire (events : list CapturedEvent) : list byte :=
  concat (map snd (filter (λ e, e.1.2 ∈ [str "N>"; str "M>"]) events)).

Lemma native_wire_cons o c b events :
  native_wire ((o, c, b) :: events) = (if bool_decide (c ∈ [str "N>"; str "M>"]) then b else []) ++ native_wire events.
Proof. unfold native_wire. rewrite filter_cons. cbn [fst snd]. rewrite <- decide_bool_decide. by case_decide. Qed.

Lemma report_long token turn frame : reports token turn frame → (4 ≤ length frame)%nat.
Proof.
  intros (_ & p & source & _ & _ & H). unfold is_report in H. bool_hyps. done.
Qed.

(** A meter subscribed and renewed, on a connection that is ready. *)
Definition meter_requests (token : Z) (meters : list Meter) : list NativeRequest :=
  [NativeRequests.KeepAlive 3; NativeRequests.MeterPort port; NativeRequests.MeterSubscribe port (report_id token port) meters;
   NativeRequests.KeepAlive 3; NativeRequests.MeterRenew (report_id token port); NativeRequests.KeepAlive 1].

Lemma push_meter_wire c token meter :
  escaped c = false →
  Channel.push c (subscribe_bytes token meter ++ renew_bytes token)
  = (Ok ((Selected 3 :: map (Data 3) (subscribe_payload token meter))
         ++ (Selected 3 :: map (Data 3) (renew_payload token)) ++ [Selected 1]), on_channel 1).
Proof.
  intros Hc. erewrite push_app_ok by (apply (push_channel_body c 3); [done|apply channel_ok_small; lia]).
  unfold renew_bytes. by rewrite push_meter_message.
Qed.

Lemma events_meter token meters d :
  in_u16 token → in_u16 port → Forall meter_ok meters → (length meters ≤ max_meter_entries (limits d))%nat →
  (length (audio d) + 2 * length meters + 8 ≤ max_buffered_bytes (limits d))%nat → meter d = [] →
  events_spec d ((Selected 3 :: map (Data 3) (subscribe_payload token (concat (map meter_bytes meters))))
                 ++ (Selected 3 :: map (Data 3) (renew_payload token)) ++ [Selected 1])
  = Ok (meter_requests token meters, meter_at [] (Some port) d).
Proof.
  intros Ht Hp Hm Hl Hroom Hd. set (d1 := meter_at [] (Some port) d).
  assert (events_spec d (Selected 3 :: map (Data 3) (subscribe_payload token (concat (map meter_bytes meters))))
    = Ok ([NativeRequests.KeepAlive 3; NativeRequests.MeterPort port;
           NativeRequests.MeterSubscribe port (report_id token port) meters], d1)) as E.
  { cbn [events_spec event_spec]. rewrite Hd. cbn [renew_spec fst snd].
    replace (set_meter [] d) with d by (rewrite <- Hd; by destruct d).
    unfold subscribe_payload. by rewrite events_subscribe. }
  rewrite events_spec_app, E. cbn [fst snd].
  rewrite (events_switched d1 (renew_payload token) [] (set_meter (renew_payload token) d1)
             [NativeRequests.MeterRenew (report_id token port)] []).
  - done.
  - done.
  - unfold renew_payload. apply events_renew; try done. cbn. lia.
  - cbn [meter set_meter]. unfold renew_payload. cbn [app renew_spec]. rewrite length_app, !to_be_length.
    change ((u8 (b8 0xd4) =? 0xd4) && (2 + 2 =? 4)%nat) with true. cbv iota. by rewrite report_id_bytes.
Qed.
End MeterSessionLemmas.

(** The events of a whole meter session. *)
Definition meter_session_events (clock : nat → Z) (port : Z) (frame1 frame2 : list byte) : list CapturedEvent :=
  (0, str "N>", [b8 0xdf; b8 0xd1])
  :: meter_events clock port 0 1 [b8 0xa0; b8 0x00] frame1 ++ meter_events clock port 1 2 [b8 0xaa] frame2.

Lemma micros_le a b : a ≤ b → micros a ≤ micros b.
Proof. unfold micros. lia. Qed.

Lemma meter_session_events_ok clock port frame1 frame2 :
  0 ≤ clock 0%nat → (∀ n, clock n ≤ clock (S n)) → (4 ≤ length frame1)%nat → (4 ≤ length frame2)%nat →
  events_ok 0 (meter_session_events clock port frame1 frame2).
Proof.
  intros H0 Hc Hf1 Hf2. assert (0 ≤ micros (clock 0%nat)) by (unfold micros; lia).
  assert (∀ n, micros (clock n) ≤ micros (clock (S n)) < 2 ^ 64) as Hm.
  { intros n. split; [by apply micros_le|unfold micros; lia]. }
  assert (∀ c, c ∈ [str "N>"; str "M>"; str "M<"] → c ∈ CHANNELS) as Hch.
  { intros c. rewrite !elem_of_cons. intros [->|[->|[->|[]%not_elem_of_nil]]]; apply (bool_decide_unpack _); vm_compute; exact I. }
  pose proof (Hm 0%nat). pose proof (Hm 1%nat). pose proof (Hm 2%nat). pose proof (Hm 3%nat). pose proof (Hm 4%nat).
  assert (micros (clock 0%nat) < 2 ^ 64) by (unfold micros; lia).
  assert (str "M<" = str "N>" → False) by (intros E; vm_compute in E; discriminate).
  unfold meter_session_events, meter_events. cbn [app events_ok event_ok fst Nat.mul Nat.add].
  split_and!; try lia; try (apply Hch; apply (bool_decide_unpack _); vm_compute; exact I);
    try (intros E; vm_compute in E; discriminate E); done.
Qed.

Lemma meter_session_delivered clock port frame1 frame2 d :
  server_ready d → in_u16 port → (13 ≤ max_batch_requests (limits d))%nat → (1 ≤ max_meter_entries (limits d))%nat →
  decoder_push (native_wire (meter_session_events clock port frame1 frame2)) d
  = (Ok (NativeRequests.KeepAlive 1 :: meter_requests port 1 [Meters.Channel 1] ++ meter_requests port 2 [Meters.Rta]),
     meter_at [] (Some port) d).
Proof.
  intros [Hi Hc Ha Hm Hr Hb] Hp Hbatch Hentries.
  assert (native_wire (meter_session_events clock port frame1 frame2)
    = [b8 0xdf; b8 0xd1] ++ (subscribe_bytes port 1 [b8 0xa0; b8 0x00] ++ renew_bytes port 1)
      ++ (subscribe_bytes port 2 [b8 0xaa] ++ renew_bytes port 2)) as ->.
  { unfold meter_session_events, meter_events. cbn [app]. rewrite !native_wire_cons. cbn [app native_wire].
    change (bool_decide (str "M<" ∈ [str "N>"; str "M>"])) with false.
    change (bool_decide (str "M>" ∈ [str "N>"; str "M>"])) with true.
    change (bool_decide (str "N>" ∈ [str "N>"; str "M>"])) with true. cbn [app].
    change (native_wire []) with (@nil byte). by rewrite <- !app_assoc, app_nil_r. }
  rewrite decoder_push_spec by done. rewrite Hc.
  erewrite push_app_ok by (instantiate (2 := [Selected 1]); reflexivity).
  erewrite push_app_ok by by apply push_meter_wire. rewrite push_meter_wire by done.
  assert (set_channels (on_channel 1) d = d) as -> by (rewrite <- Hc; by destruct d).
  change ([b8 0xa0; b8 0x00]) with (concat (map meter_bytes [Meters.Channel 1])).
  change ([b8 0xaa]) with (concat (map meter_bytes [Meters.Rta])).
  rewrite (events_spec_app d [Selected 1]).
  assert (events_spec d [Selected 1] = Ok ([NativeRequests.KeepAlive 1], d)) as ->.
  { cbn [events_spec event_spec]. rewrite Hm. cbn [renew_spec fst snd app].
    by replace (set_meter [] d) with d by (rewrite <- Hm; by destruct d). }
  cbn [fst snd].
  rewrite events_spec_app, events_meter; try done; try (cbn; lia); try (by repeat constructor).
  2:{ rewrite Ha. cbn. lia. }
  cbn [fst snd]. rewrite events_meter; try done; try (cbn; lia); try (by repeat constructor).
  2:{ cbn. rewrite Ha. cbn. lia. }
  cbn [fst snd]. rewrite decide_True by (cbn; lia). done.
Qed.

(** C30: A meter session's transcript is read back as what happened: the handshake, and for each
    of the two meters its subscription, the report that came from the console with its token,
    received in time and among the first hundred datagrams, and its renewal.  What the session
    wrote, a server reads as the two subscriptions and their renewals under report ids made of
    the token and the port. *)
Theorem meter_session_exact write clock turns port expected_source local_port text :
  in_u16 port → 0 ≤ clock 0%nat → (∀ n, clock n ≤ clock (S n)) →
  capture_meter_session write clock turns port expected_source local_port = Ok text →
  ∃ i j frame1 frame2,
    let events := meter_session_events clock port frame1 frame2 in
    (i < j < 100)%nat
    ∧ reports expected_source 1 (turns i) frame1 ∧ (∀ m, (m < i)%nat → skipped expected_source 1 (turns m))
    ∧ reports expected_source 2 (turns j) frame2 ∧ (∀ m, (i < m < j)%nat → skipped expected_source 2 (turns m))
    ∧ contract_events text = fine (map (λ e, (e.1.2, e.2)) events)
    ∧ ∀ d, server_ready d → (13 ≤ max_batch_requests (limits d))%nat → (1 ≤ max_meter_entries (limits d))%nat →
        decoder_push (native_wire events) d
        = (Ok (NativeRequests.KeepAlive 1 :: meter_requests port 1 [Meters.Channel 1] ++ meter_requests port 2 [Meters.Rta]),
           meter_at [] (Some port) d).
Proof.
  intros Hp H0 Hc H. unfold capture_meter_session in H. destruct local_port; [done|]. cbn [step_outcome] in H.
  unfold capture_meter_events in H. rewrite encode_channel_eq in H by (apply channel_ok_small; lia).
  cbn [encoded] in H. destruct (write 0%nat); [done|]. cbn [step_outcome] in H.
  destruct (capture_meter _ _ _ _ _ 0 _ _ _ _) as [[[events1 b1] n1]|] eqn:E1; [|done].
  destruct (capture_meter _ _ _ _ _ 1 _ _ _ _) as [[[events2 b2] n2]|] eqn:E2; [|done]. injection H as <-.
  apply capture_meter_inv in E1 as (i & frame1 & -> & Hi & -> & Hb1 & Hr1 & Hs1); [|width|done].
  apply capture_meter_inv in E2 as (j & frame2 & -> & Hj & -> & Hb2 & Hr2 & Hs2); [|width|done].
  exists i, j, frame1, frame2. cbn zeta. split_and!; try done; try lia.
  - intros m Hm. apply Hs1. lia.
  - change ((0, str "N>", [b8 ESCAPE; b8 (CHANNEL_BASE + 1)] ++ escape []) :: ?l ++ ?r)
      with (meter_session_events clock port frame1 frame2).
    apply session_read; [by apply v2_metadata| |cbn; lia].
    apply meter_session_events_ok; [done..|by eapply report_long|by eapply report_long].
  - intros d Hd Hbatch Hentries. by apply meter_session_delivered.
Qed.

(** ** Witnesses *)

Definition sample_target : SocketAddr := (rack_ip, DISCOVERY_PORT).

Definition sample_turns (n : nat) : Turn :=
  match n with
  | 0%nat => mk_turn 500 None (Ok (str "noise", (other_ip, 5))) 10
  | _ => mk_turn 400 None (Ok (rack_reply, sample_target)) 1234
  end.

Definition sample_discovery_text : list byte :=
  match capture_discovery_session None sample_turns sample_target with Ok text => text | Err _ => [] end.

Lemma discovery_session_exact_witness :
  (None : option ErrorKind) = None
  ∧ ∃ n payload, (n < 100)%nat ∧ in_time (sample_turns n) ∧ receipt (sample_turns n) = Ok (payload, sample_target)
    ∧ (∀ m, (m < n)%nat → in_time (sample_turns m)
         ∧ ∃ p source, receipt (sample_turns m) = Ok (p, source) ∧ source ≠ sample_target)
    ∧ contract_events sample_discovery_text = fine [(str "D>", WING_PROBE); (str "D<", take 2048 payload)].
Proof.
  apply (discovery_session_exact None sample_turns sample_target sample_discovery_text).
  - intros [|n]; vm_compute; discriminate.
  - vm_compute. reflexivity.
Defined.

Definition sample_reports (n : nat) : Turn :=
  mk_turn 400 None
    (Ok (match n with
         | 0%nat => [b8 0; b8 1; b8 0; b8 0; b8 9]
         | 1%nat => [b8 0; b8 1; b8 0; b8 0; b8 8]
         | _ => [b8 0; b8 2; b8 0; b8 0; b8 7]
         end, (rack_ip, 9))) 0.

Definition sample_meter_text : list byte :=
  match capture_meter_session (λ _, None) Z.of_nat sample_reports 0x1234 rack_ip None with Ok text => text | Err _ => [] end.

Lemma meter_session_exact_witness :
  ∃ i j frame1 frame2,
    let events := meter_session_events Z.of_nat 0x1234 frame1 frame2 in
    (i < j < 100)%nat
    ∧ reports rack_ip 1 (sample_reports i) frame1
    ∧ (∀ m, (m < i)%nat → skipped rack_ip 1 (sample_reports m))
    ∧ reports rack_ip 2 (sample_reports j) frame2
    ∧ (∀ m, (i < m < j)%nat → skipped rack_ip 2 (sample_reports m))
    ∧ contract_events sample_meter_text = fine (map (λ e, (e.1.2, e.2)) events)
    ∧ ∀ d, server_ready d → (13 ≤ max_batch_requests (limits d))%nat → (1 ≤ max_meter_entries (limits d))%nat →
        decoder_push (native_wire events) d
        = (Ok (NativeRequests.KeepAlive 1 :: meter_requests 0x1234 1 [Meters.Channel 1] ++ meter_requests 0x1234 2 [Meters.Rta]),
           meter_at [] (Some 0x1234) d).
Proof.
  apply (meter_session_exact (λ _, None) Z.of_nat sample_reports 0x1234 rack_ip None sample_meter_text).
  - unfold in_u16. lia.
  - lia.
  - intros n. lia.
  - vm_compute. reflexivity.
Defined.

(** The client says something, the console answers and hangs up while the client's second
    chunk is under way. *)
Definition sample_schedule : list (Side * Answer) :=
  [(ClientToConsole, Clock false); (ConsoleToClient, Clock false);
   (ClientToConsole, Read 5 [b8 0xdf; b8 0xd1]); (ClientToConsole, Written); (ClientToConsole, Clock false);
   (ConsoleToClient, ReadFailed TimedOut); (ConsoleToClient, Clock false); (ConsoleToClient, Read 9 [b8 1]);
   (ClientToConsole, Read 11 [b8 2; b8 3]); (ConsoleToClient, Written); (ConsoleToClient, Clock false);
   (ConsoleToClient, Read 12 []); (ClientToConsole, WriteFailed 1 OtherKind)].

Lemma proxy_transparent_witness :
  (let p := proxy_run sample_schedule new_proxy in
   (∀ side, ∃ rest,
     transcript side (recorder p) = forwarded (direction side p) ++ rest ∧ (length rest ≤ 8192)%nat
     ∧ (phase (direction side p) = Looping ∨ phase (direction side p) = Reading → rest = []))
  ∧ ((∃ side r, phase (direction side p) = Finished r) → stop p = true)
  ∧ bytes_of (recorded (recorder p)) ≤ PROXY_MAX_BYTES
  ∧ (∀ text, joined p = Some (Ok text) →
       contract_events text = fine (map (λ e, (e.1.2, e.2)) (recorded (recorder p)))))
  ∧ transcript ClientToConsole (recorder (proxy_run sample_schedule new_proxy)) = [b8 0xdf; b8 0xd1; b8 2; b8 3].
Proof.
  split; [|vm_compute; reflexivity]. apply (proxy_transparent sample_schedule). cbn. lia.
Defined.

Example proxy_sample :
  let p := proxy_run sample_schedule new_proxy in
  forwarded (client_to_console p) = [b8 0xdf; b8 0xd1; b8 2] ∧ forwarded (console_to_client p) = [b8 1]
  ∧ match joined p with Some (Ok _) => True | _ => False end.
Proof. vm_compute. repeat split. Qed.
