(* ===== verification/Quarantine.v ===== *)
(** The quarantine of the capture tool ([src/tools/wingcapture.rs], [prepare_quarantine],
    [quarantine_output], [write_private], [record_script], [validate_review_candidate],
    [purge_expired]): raw captures are kept in an owner-only directory outside the repository
    and outside synchronized folders, and are deleted when they expire.

    The file system is a finite map from real paths (the names from the root) to entries, and
    paths are resolved in it, symbolic links and [..] included, as the system calls behind
    [std::fs] resolve them.  Any call may fail with an error, as the input [fault] decides call
    by call; a write that fails leaves nothing of its bytes.  Nothing else changes the file
    system meanwhile. *)

From S2P Require Import Prelude Text Lib Utf8 Icons Decimal Words Capture.
From stdpp Require Import list gmap.
Local Open Scope Z_scope.
Local Open Scope rust_scope.

(** ** The file system *)

(** Permission bits: 0o777, 0o666, 0o700, 0o600, 0o077. *)
Definition MODE_ALL : Z := 0x1ff.
Definition MODE_FILE : Z := 0x1b6.
Definition MODE_PRIVATE_DIR : Z := 0x1c0.
Definition MODE_PRIVATE_FILE : Z := 0x180.
Definition MODE_OTHERS : Z := 0x3f.

Abbreviation name := (list byte).
Abbreviation RealPath := (list name).

Inductive Component := Normal (n : name) | ParentDir | CurDir.

#[export] Instance Component_eq_dec : EqDecision Component.
Proof. solve_decision. Defined.

Record Path := mk_path { is_absolute : bool; components : list Component }.

(** [Special] is a socket, a pipe or a device. *)
Inductive Entry :=
| File (mode modified : Z) (contents : list byte)
| Dir (mode : Z)
| Symlink (target : Path)
| Special (mode : Z).

Abbreviation Files := (gmap RealPath Entry).

Inductive IoKind := NotFound | OtherIo.

(** The real path [r] as a path. *)
Definition absolute (r : RealPath) : Path := mk_path true (map Normal r).

(** From the directory [cur], through [comps]; at most [links] symbolic links. *)
Fixpoint walk (links : nat) (fs : Files) : RealPath → list Component → result IoKind RealPath :=
  fix go cur comps :=
    match comps with
    | [] => Ok cur
    | CurDir :: comps => go cur comps
    | ParentDir :: comps => go (removelast cur) comps
    | Normal n :: comps =>
      match fs !! (cur ++ [n]) with
      | None => Err NotFound
      | Some (Dir _) => go (cur ++ [n]) comps
      | Some (Symlink target) =>
        match links with
        | O => Err OtherIo
        | S links => walk links fs (if is_absolute target then [] else cur) (components target ++ comps)
        end
      | Some (File _ _ _ | Special _) =>
        match comps with [] => Ok (cur ++ [n]) | _ :: _ => Err OtherIo end
      end
    end.

Definition MAX_LINKS : nat := 40.

(** Where a path starts. *)
Definition base (cwd : RealPath) (p : Path) : RealPath := if is_absolute p then [] else cwd.

(** [fs::canonicalize]. *)
Definition resolve (cwd : RealPath) (p : Path) (fs : Files) : result IoKind RealPath :=
  walk MAX_LINKS fs (base cwd p) (components p).

Definition dir_at (r : RealPath) (fs : Files) : bool :=
  match r with [] => true | _ => match fs !! r with Some (Dir _) => true | _ => false end end.

(** A path's last name in the directory it is in: no link is followed for the name. *)
Definition locate (cwd : RealPath) (p : Path) (fs : Files) : result IoKind RealPath :=
  match last (components p) with
  | Some (Normal n) =>
    let? dir := walk MAX_LINKS fs (base cwd p) (removelast (components p)) in
    if dir_at dir fs then Ok (dir ++ [n]) else Err OtherIo
  | _ => resolve cwd p fs
  end.

Definition entry_at (r : RealPath) (fs : Files) : result IoKind Entry :=
  match fs !! r with Some e => Ok e | None => Err NotFound end.

(** The permission bits of an entry. A link's own are never asked for. *)
Definition mode_of (e : Entry) : Z :=
  match e with File mode _ _ | Dir mode | Special mode => mode | Symlink _ => MODE_ALL end.

Definition with_mode (mode : Z) (e : Entry) : Entry :=
  match e with
  | File _ modified contents => File mode modified contents
  | Dir _ => Dir mode
  | Special _ => Special mode
  | Symlink t => Symlink t
  end.

(** ** Calls *)

Record World := mk_world { files : Files; calls : nat }.

(** Why an operation of the quarantine failed: a call, or a rule. *)
Inductive QuarantineError :=
| CallFailed (doing : list byte) (kind : IoKind)
| Refused (why : list byte)
| OutOfFuel
| Rejected (e : option CaptureError).

Abbreviation Q A := (M World QuarantineError A).

Section Quarantine.
Context (fault : nat → option IoKind) (cwd : RealPath) (umask : Z).

(** A system call: it fails as the input decides, or does what it does. *)
Definition syscall {A} (op : Files → result IoKind (A * Files)) (w : World) : result IoKind A * World :=
  match fault (calls w) with
  | Some kind => (Err kind, mk_world (files w) (S (calls w)))
  | None =>
    match op (files w) with
    | Ok (a, fs) => (Ok a, mk_world fs (S (calls w)))
    | Err kind => (Err kind, mk_world (files w) (S (calls w)))
    end
  end.

(** With [map_err] and [?]. *)
Definition call {A} (doing : list byte) (op : Files → result IoKind (A * Files)) : Q A :=
  λ w, match syscall op w with
       | (Ok a, w) => (Ok a, w)
       | (Err kind, w) => (Err (CallFailed doing kind), w)
       end.

(** A query: it changes nothing. *)
Definition query {A} (op : Files → result IoKind A) (fs : Files) : result IoKind (A * Files) :=
  let? a := op fs in Ok (a, fs).

(** [is_ok_and]: a query whose failure is the answer no. *)
Definition holds {A} (op : Files → result IoKind A) (P : A → bool) : Q bool :=
  λ w, match syscall (query op) w with
       | (Ok a, w) => (Ok (P a), w)
       | (Err _, w) => (Ok false, w)
       end.

Definition refuse {A} (why : list byte) : Q A := throw (Refused why).

Definition require (b : bool) (why : list byte) : Q unit := if b then ret tt else refuse why.

Definition metadata (p : Path) (fs : Files) : result IoKind Entry :=
  let? r := resolve cwd p fs in entry_at r fs.

Definition symlink_metadata (p : Path) (fs : Files) : result IoKind Entry :=
  let? r := locate cwd p fs in entry_at r fs.

Definition is_symlink (e : Entry) : bool := match e with Symlink _ => true | _ => false end.
Definition is_dir (e : Entry) : bool := match e with Dir _ => true | _ => false end.

Definition exists_ (p : Path) : Q bool := holds (metadata p) (λ _, true).

(** [mkdir] with the default mode. *)
Definition mkdir (p : Path) (fs : Files) : result IoKind (unit * Files) :=
  let? r := locate cwd p fs in
  match fs !! r with
  | Some _ => Err OtherIo
  | None => Ok (tt, <[r := Dir (Z.ldiff MODE_ALL umask)]> fs)
  end.

Definition set_permissions (p : Path) (mode : Z) (fs : Files) : result IoKind (unit * Files) :=
  let? r := resolve cwd p fs in
  let? e := entry_at r fs in
  Ok (tt, <[r := with_mode mode e]> fs).

(** [OpenOptions::create_new]: the real path of the new file, with the default mode. *)
Definition create_new (p : Path) (now : Z) (fs : Files) : result IoKind (RealPath * Files) :=
  let? r := locate cwd p fs in
  match fs !! r with
  | Some _ => Err OtherIo
  | None => Ok (r, <[r := File (Z.ldiff MODE_FILE umask) now []]> fs)
  end.

Definition change (r : RealPath) (f : Entry → Entry) (fs : Files) : result IoKind (unit * Files) :=
  let? e := entry_at r fs in Ok (tt, <[r := f e]> fs).

Definition append_contents (bytes : list byte) (e : Entry) : Entry :=
  match e with File mode modified contents => File mode modified (contents ++ bytes) | e => e end.

Definition remove_file (p : Path) (fs : Files) : result IoKind (unit * Files) :=
  let? r := locate cwd p fs in
  let? e := entry_at r fs in
  if is_dir e then Err OtherIo else Ok (tt, delete r fs).

(** ** Operations *)

Definition NAMES : list (list byte) :=
  [str "dropbox"; str "onedrive"; str "google drive"; str "googledrive"; str "icloud drive"; str "mobile documents";
   str "syncthing"; str "box sync"].

(** Of the other components none contains one of the names. *)
Definition synchronized_component (c : Component) : bool :=
  match c with
  | Normal n => existsb (contains (to_ascii_lowercase (from_utf8_lossy n))) NAMES
  | _ => false
  end.

Definition is_synchronized (p : Path) : bool := existsb synchronized_component (components p).

(** [Path::starts_with], of a path and of a real one. *)
Definition path_starts_with (p : Path) (r : RealPath) : bool :=
  is_absolute p && bool_decide (map Normal r `prefix_of` components p).
Definition starts_with_real (p r : RealPath) : bool := bool_decide (r `prefix_of` p).

Definition validate_private_permissions (p : Path) : Q unit :=
  let! e := call (str "reading permissions") (query (metadata p)) in
  require (Z.land (Z.land (mode_of e) MODE_ALL) MODE_OTHERS =? 0) (str "is not owner-only").

(** [create_dir_all]; a path has one parent for each of its components. *)
Fixpoint create_dir_all (depth : nat) (p : Path) (w : World) : result IoKind unit * World :=
  match components p with
  | [] => (if is_absolute p then Err OtherIo else Ok tt, w)
  | _ =>
    match syscall (mkdir p) w with
    | (Ok _, w) => (Ok tt, w)
    | (Err NotFound, w) =>
      match depth with
      | O => (Err OtherIo, w)
      | S depth =>
        match create_dir_all depth (mk_path (is_absolute p) (removelast (components p))) w with
        | (Err kind, w) => (Err kind, w)
        | (Ok _, w) =>
          match syscall (mkdir p) w with
          | (Ok _, w) => (Ok tt, w)
          | (Err kind, w) =>
            match holds (metadata p) is_dir w with
            | (Ok true, w) => (Ok tt, w)
            | (_, w) => (Err kind, w)
            end
          end
        end
      end
    | (Err kind, w) =>
      match holds (metadata p) is_dir w with
      | (Ok true, w) => (Ok tt, w)
      | (_, w) => (Err kind, w)
      end
    end
  end.

Definition create_dir_all_q (p : Path) : Q unit :=
  λ w, match create_dir_all (length (components p)) p w with
       | (Ok a, w) => (Ok a, w)
       | (Err kind, w) => (Err (CallFailed (str "creating quarantine") kind), w)
       end.

Definition canonicalize (doing : list byte) (p : Path) : Q RealPath := call doing (query (resolve cwd p)).

Definition prepare_quarantine (root repository : Path) : Q RealPath :=
  require (negb (is_synchronized root)) (str "quarantine cannot use a known synchronized destination") ;;!
  let! repository := canonicalize (str "resolving repository") repository in
  require (negb (path_starts_with root repository)) (str "quarantine must be outside the repository") ;;!
  let! there := exists_ root in
  let! link := (if there then holds (symlink_metadata root) is_symlink else ret false) in
  require (negb link) (str "quarantine root cannot be a symlink") ;;!
  create_dir_all_q root ;;!
  let! root := canonicalize (str "resolving quarantine") root in
  require (negb (is_synchronized (absolute root)))
    (str "quarantine cannot resolve into a synchronized destination") ;;!
  require (negb (starts_with_real root repository || starts_with_real repository root))
    (str "quarantine must be outside the repository") ;;!
  call (str "securing quarantine") (set_permissions (absolute root) MODE_PRIVATE_DIR) ;;!
  validate_private_permissions (absolute root) ;;!
  ret root.

Definition normal_name (c : Component) : option name := match c with Normal n => Some n | _ => None end.

(** The directories of a capture, from [parent] down. *)
Fixpoint secure_parents (root parent : RealPath) (names : list name) : Q unit :=
  match names with
  | [] => ret tt
  | n :: names =>
    let parent := parent ++ [n] in
    let! there := exists_ (absolute parent) in
    (if there then
       let! e := call (str "reading capture directory") (query (symlink_metadata (absolute parent))) in
       require (negb (is_symlink e || negb (is_dir e))) (str "capture path escapes quarantine through an unsafe entry")
     else call (str "creating capture directory") (mkdir (absolute parent))) ;;!
    call (str "securing capture directory") (set_permissions (absolute parent) MODE_PRIVATE_DIR) ;;!
    validate_private_permissions (absolute parent) ;;!
    let! resolved := canonicalize (str "resolving capture directory") (absolute parent) in
    require (starts_with_real resolved root) (str "capture path escapes quarantine through a symlink") ;;!
    secure_parents root parent names
  end.

Definition quarantine_output (root relative : Path) : Q RealPath :=
  require (negb (is_absolute relative || existsb (λ c, match normal_name c with Some _ => false | None => true end) (components relative)))
    (str "capture path must be a plain relative path without traversal") ;;!
  let! root := canonicalize (str "resolving quarantine") root in
  validate_private_permissions (absolute root) ;;!
  let names := omap normal_name (components relative) in
  let candidate := root ++ names in
  require (negb (bool_decide (names = []))) (str "capture path has no parent") ;;!
  secure_parents root root (removelast names) ;;!
  let! there := exists_ (absolute candidate) in
  (if there then
     let! link := holds (symlink_metadata (absolute candidate)) is_symlink in
     require (negb link) (str "capture path cannot be a symlink") ;;!
     let! resolved := canonicalize (str "resolving capture path") (absolute candidate) in
     require (starts_with_real resolved root) (str "capture path escapes quarantine")
   else ret tt) ;;!
  ret candidate.

(** The new file is written through its handle: [r]. [now] is its time of modification. *)
Definition write_private (root relative : Path) (now : Z) (bytes : list byte) : Q RealPath :=
  let! path := quarantine_output root relative in
  let! r := call (str "creating private capture") (create_new (absolute path) now) in
  call (str "securing capture") (change r (with_mode MODE_PRIVATE_FILE)) ;;!
  call (str "writing capture") (change r (append_contents bytes)) ;;!
  call (str "syncing capture") (query (λ _, Ok tt)) ;;!
  ret path.

(** [fs::read_to_string]. *)
Definition read_to_string (p : Path) (fs : Files) : result IoKind (list byte) :=
  let? e := metadata p fs in
  match e with
  | File _ _ contents => if utf8_valid contents then Ok contents else Err OtherIo
  | _ => Err OtherIo
  end.

(** [manifest_dir] is the repository the tool was built from. *)
Definition record_script (manifest_dir script quarantine output : Path) (now : Z) : Q RealPath :=
  let! text := call (str "reading script") (query (read_to_string script)) in
  let! _ := match parse_capture_structure text with
            | Some (Ok summary) => ret summary
            | Some (Err e) => throw (Rejected (Some e))
            | None => throw (Rejected None)
            end in
  let! quarantine := prepare_quarantine quarantine manifest_dir in
  write_private (absolute quarantine) output now text.

Definition validate_review_candidate (manifest_dir candidate : Path) : Q unit :=
  require (negb (is_synchronized candidate)) (str "sanitized candidate cannot use a known synchronized destination") ;;!
  let! link := (λ w, match syscall (query (symlink_metadata candidate)) w with
                     | (Ok e, w) => (Ok (is_symlink e), w)
                     | (Err NotFound, w) => (Ok false, w)
                     | (Err kind, w) => (Err (CallFailed (str "inspecting sanitized candidate") kind), w)
                     end) in
  require (negb link) (str "sanitized candidate cannot be a symlink") ;;!
  let! repository := canonicalize (str "resolving repository") manifest_dir in
  let! base := (if is_absolute candidate then ret [] else call (str "resolving current directory") (query (λ _, Ok cwd))) in
  let path := map Normal base ++ components candidate in
  require (negb (bool_decide (path = []))) (str "sanitized candidate has no parent directory") ;;!
  let! parent := canonicalize (str "resolving sanitized review directory") (mk_path true (removelast path)) in
  require (negb (starts_with_real parent repository || starts_with_real repository parent))
    (str "sanitized candidate must remain outside the repository until review").

(** ** Expiry *)

(** The names in a directory, in the order the system lists them. *)
Context (listing : list name → list name).

Definition children (dir : RealPath) (fs : Files) : list name :=
  omap (λ r, match last r with Some n => if bool_decide (r = dir ++ [n]) then Some n else None | None => None end)
       (map_to_list fs).*1.

(** [fs::read_dir]. *)
Definition read_dir (dir : RealPath) (fs : Files) : result IoKind (list name) :=
  if dir_at dir fs then Ok (listing (children dir fs)) else Err OtherIo.

Definition cleanup_raw (p : Path) : Q unit := call (str "deleting raw capture") (remove_file p).

(** [duration_since], or zero for a time in the future. *)
Definition age_of (now modified : Z) : Z := Z.max 0 (now - modified).

(** The entries of a directory; [purge] is what a directory among them comes to. *)
Fixpoint purge_entries (purge : RealPath → list RealPath → Q (list RealPath)) (root dir : RealPath) (retention now : Z)
    (names : list name) (deleted : list RealPath) : Q (list RealPath) :=
  match names with
  | [] => ret deleted
  | n :: names =>
    call (str "reading quarantine entry") (query (λ _, Ok tt)) ;;!
    let path := dir ++ [n] in
    let! e := call (str "reading metadata") (query (symlink_metadata (absolute path))) in
    let! deleted :=
      match e with
      | Symlink _ => refuse (str "unsafe symlink in quarantine")
      | Dir _ => purge path deleted
      | Special _ => refuse (str "unsafe non-file entry in quarantine")
      | File _ modified _ =>
        validate_private_permissions (absolute path) ;;!
        let! resolved := canonicalize (str "resolving") (absolute path) in
        require (starts_with_real resolved root) (str "escapes quarantine") ;;!
        if retention <=? age_of now modified then
          cleanup_raw (absolute path) ;;! ret (deleted ++ [path])
        else ret deleted
      end in
    purge_entries purge root dir retention now names deleted
  end.

Fixpoint purge_directory (fuel : nat) (root : RealPath) (retention now : Z) (dir : RealPath) (deleted : list RealPath)
    : Q (list RealPath) :=
  match fuel with
  | O => throw OutOfFuel
  | S fuel =>
    validate_private_permissions (absolute dir) ;;!
    let! resolved := canonicalize (str "resolving") (absolute dir) in
    require (starts_with_real resolved root) (str "escapes quarantine") ;;!
    let! names := call (str "reading quarantine") (query (read_dir dir)) in
    purge_entries (λ path deleted, purge_directory fuel root retention now path deleted) root dir retention now names deleted
  end.

(** The length of the longest path: deeper than that no directory is. *)
Definition depth (fs : Files) : nat := max_list (map length (map_to_list fs).*1).

(** [purge_expired]: a directory below another is one name longer, so the fuel is enough
    ([purge_expired_exact]). [now] is what the clock shows. *)
Definition purge_expired (root : Path) (retention now : Z) : Q (list RealPath) :=
  let! link := holds (symlink_metadata root) is_symlink in
  require (negb link) (str "quarantine root cannot be a symlink") ;;!
  let! root := canonicalize (str "resolving quarantine") root in
  validate_private_permissions (absolute root) ;;!
  λ w, purge_directory (S (S (depth (files w)))) root retention now root [] w.
End Quarantine.

(** ** Resolving real paths *)

(** All of [r] is directories. *)
Definition all_dirs (fs : Files) (r : RealPath) : Prop := ∀ p, p `prefix_of` r → dir_at p fs = true.

(** [r] is what a path can resolve to: an entry that is not a link, below directories. *)
Definition real (fs : Files) (r : RealPath) : Prop :=
  (∀ p, p `prefix_of` r → p ≠ r → dir_at p fs = true) ∧ (r = [] ∨ ∃ e, fs !! r = Some e ∧ is_symlink e = false).

Lemma prefix_snoc_inv {A} (p l : list A) x : p `prefix_of` l ++ [x] → p = l ++ [x] ∨ p `prefix_of` l.
Proof.
  intros [t E]. destruct t as [|y t _] using rev_ind; [left; by rewrite app_nil_r in E|].
  right. rewrite app_assoc in E. apply app_inj_tail in E as [-> _]. by exists t.
Qed.

Lemma dir_at_snoc r n fs : dir_at (r ++ [n]) fs = match fs !! (r ++ [n]) with Some (Dir _) => true | _ => false end.
Proof. unfold dir_at. destruct (r ++ [n]) eqn:E; [by apply app_nil in E as [_ ?]|done]. Qed.

Lemma all_dirs_snoc fs r n : all_dirs fs r → dir_at (r ++ [n]) fs = true → all_dirs fs (r ++ [n]).
Proof. intros H Hn p [->|Hp]%prefix_snoc_inv; [done|by apply H]. Qed.

Lemma all_dirs_up fs r : all_dirs fs r → all_dirs fs (removelast r).
Proof.
  intros H p Hp. apply H. destruct r as [|x r _] using rev_ind; [done|].
  rewrite removelast_last in Hp. by apply prefix_app_r.
Qed.

Lemma all_dirs_nil fs : all_dirs fs [].
Proof. intros p Hp. by apply prefix_nil_inv in Hp as ->. Qed.

Lemma all_dirs_real fs r : all_dirs fs r → real fs r.
Proof.
  intros H. split; [intros p Hp _; by apply H|]. destruct r as [|x r _] using rev_ind; [by left|]. right.
  pose proof (H (r ++ [x]) ltac:(done)) as Hd. rewrite dir_at_snoc in Hd.
  destruct (fs !! (r ++ [x])) as [[| | |]|]; try done. by eexists.
Qed.

Lemma real_dir fs r : real fs r → dir_at r fs = true → all_dirs fs r.
Proof. intros [H _] Hd p Hp. destruct (decide (p = r)) as [->|]; [done|]. by apply H. Qed.

Lemma walk_normal links fs cur n comps :
  walk links fs cur (Normal n :: comps) =
  match fs !! (cur ++ [n]) with
  | None => Err NotFound
  | Some (Dir _) => walk links fs (cur ++ [n]) comps
  | Some (Symlink target) =>
    match links with
    | O => Err OtherIo
    | S links => walk links fs (if is_absolute target then [] else cur) (components target ++ comps)
    end
  | Some (File _ _ _ | Special _) => match comps with [] => Ok (cur ++ [n]) | _ :: _ => Err OtherIo end
  end.
Proof. by destruct links. Qed.

Lemma walk_nil links fs cur : walk links fs cur [] = Ok cur.
Proof. by destruct links. Qed.

Lemma walk_cur links fs cur comps : walk links fs cur (CurDir :: comps) = walk links fs cur comps.
Proof. by destruct links. Qed.

Lemma walk_parent links fs cur comps : walk links fs cur (ParentDir :: comps) = walk links fs (removelast cur) comps.
Proof. by destruct links. Qed.

Lemma walk_real fs links : ∀ comps cur r, all_dirs fs cur → walk links fs cur comps = Ok r → real fs r.
Proof.
  induction links as [|links IHl]; induction comps as [|[n| |] comps IH]; intros cur r Hd H;
    rewrite ?walk_nil, ?walk_cur, ?walk_parent, ?walk_normal in H.
  1,5: by injection H as <-; apply all_dirs_real.
  2,5: by eapply IH; [|exact H]; apply all_dirs_up.
  2,4: by eapply IH.
  all: destruct (fs !! (cur ++ [n])) as [[m t c|m|target|m]|] eqn:E; try done.
  all: try (destruct comps; [|done]; injection H as <-; split; [|right; by eexists];
    intros p [->|Hp]%prefix_snoc_inv Hne; [done|by apply Hd]).
  all: try (eapply IH; [|exact H]; apply all_dirs_snoc; [done|]; by rewrite dir_at_snoc, E).
  eapply IHl; [|exact H]. destruct (is_absolute target); [apply all_dirs_nil|done].
Qed.

Lemma walk_under_real links fs post : ∀ pre, real fs (pre ++ post) → walk links fs pre (map Normal post) = Ok (pre ++ post).
Proof.
  induction post as [|n post IH]; intros pre H; [by rewrite walk_nil, app_nil_r|]. cbn [map]. rewrite walk_normal.
  destruct post as [|n' post].
  - destruct H as [_ [[_ ?]%app_nil|(e & -> & He)]]; [done|]. destruct e; cbn [map]; rewrite ?walk_nil; done.
  - pose proof (proj1 H (pre ++ [n])) as Hd. rewrite dir_at_snoc in Hd.
    specialize (Hd ltac:(exists (n' :: post); by rewrite <- app_assoc)).
    assert (pre ++ [n] ≠ pre ++ n :: n' :: post) as Hne by (intros [=]%(inj (app pre))). specialize (Hd Hne).
    destruct (fs !! (pre ++ [n])) as [[| | |]|]; try done.
    rewrite IH by (by rewrite <- app_assoc). by rewrite <- app_assoc.
Qed.

Lemma resolve_real cwd fs r : real fs r → resolve cwd (absolute r) fs = Ok r.
Proof. intros H. by apply (walk_under_real MAX_LINKS fs r []). Qed.

Lemma resolved_real cwd fs p r : all_dirs fs cwd → resolve cwd p fs = Ok r → real fs r.
Proof. intros Hc. apply walk_real. unfold base. destruct (is_absolute p); [apply all_dirs_nil|done]. Qed.

Lemma locate_real cwd fs r n :
  real fs r → locate cwd (absolute (r ++ [n])) fs = if dir_at r fs then Ok (r ++ [n]) else Err OtherIo.
Proof.
  intros H. unfold locate, absolute. cbn [components]. rewrite map_app. cbn [map].
  rewrite last_snoc, removelast_last. change (base cwd _) with (@nil name).
  by rewrite (walk_under_real MAX_LINKS fs r []).
Qed.

(** ** Calls that succeed *)

Section Calls.
Context (fault : nat → option IoKind) (cwd : RealPath) (umask : Z).

Lemma call_ok {A} (doing : list byte) (op : Files → result IoKind (A * Files)) (w : World) (a : A) (w' : World) :
  call fault doing op w = (Ok a, w') → op (files w) = Ok (a, files w').
Proof.
  unfold call, syscall. destruct (fault (calls w)); [done|]. destruct (op (files w)) as [[b fs]|]; [|done].
  intros H. by injection H as -> <-.
Qed.

Lemma query_ok {A} (doing : list byte) (op : Files → result IoKind A) (w : World) (a : A) (w' : World) :
  call fault doing (query op) w = (Ok a, w') → op (files w) = Ok a ∧ files w' = files w.
Proof.
  intros H%call_ok. unfold query in H. destruct (op (files w)) as [b|]; [|done]. by injection H as -> <-.
Qed.

Lemma holds_ok {A} (op : Files → result IoKind A) (P : A → bool) (w : World) (b : bool) (w' : World) :
  holds fault op P w = (Ok b, w') → files w' = files w ∧ (b = true → ∃ a, op (files w) = Ok a ∧ P a = true).
Proof.
  unfold holds, syscall, query. destruct (fault (calls w)); [by intros [= <- <-]|].
  destruct (op (files w)) as [a|]; intros [= <- <-]; (split; [done|]); [|done]. intros H. by exists a.
Qed.

Lemma require_ok (b : bool) (why : list byte) (w : World) (a : unit) (w' : World) : require b why w = (Ok a, w') → b = true ∧ w' = w.
Proof. unfold require, refuse. destruct b; [|done]. by intros [= _ ->]. Qed.

(** Owner-only: no bit of the group's or the others'. *)
Definition private (e : Entry) : Prop := Z.land (Z.land (mode_of e) MODE_ALL) MODE_OTHERS = 0.

Lemma validate_ok (p : Path) (w : World) (a : unit) (w' : World) :
  validate_private_permissions fault cwd p w = (Ok a, w') →
  files w' = files w ∧ ∃ e, metadata cwd p (files w) = Ok e ∧ private e.
Proof.
  intros (e & w1 & [He Hw]%query_ok & [Hp ->]%require_ok)%bind_ok. split; [done|]. exists e. split; [done|].
  by apply Z.eqb_eq.
Qed.

(** Directories made private or made, and nothing else. *)
Definition only_dirs (P : RealPath → Prop) (fs fs' : Files) : Prop :=
  ∀ p, fs' !! p = fs !! p
    ∨ (P p ∧ fs' !! p = Some (Dir MODE_PRIVATE_DIR) ∧ (fs !! p = None ∨ ∃ m, fs !! p = Some (Dir m))).

Lemma all_dirs_insert fs r n m : all_dirs fs r → all_dirs (<[r ++ [n] := Dir m]> fs) (r ++ [n]).
Proof.
  intros H. apply all_dirs_snoc; [|by rewrite dir_at_snoc, lookup_insert_eq].
  intros p Hp. pose proof (H p Hp) as Hd. unfold dir_at in *. destruct p as [|x p]; [done|].
  rewrite lookup_insert_ne; [done|]. intros E. apply prefix_length in Hp. rewrite <- E, length_app in Hp. cbn in Hp. lia.
Qed.

Lemma secure_parents_ok (root : RealPath) (names : list name) : ∀ (parent : RealPath) (w : World) (a : unit) (w' : World),
  real (files w) parent → secure_parents fault cwd umask root parent names w = (Ok a, w') →
  real (files w') (parent ++ names)
  ∧ only_dirs (λ p, ∃ k, (0 < k ≤ length names)%nat ∧ p = parent ++ take k names) (files w) (files w')
  ∧ (∀ k, (0 < k ≤ length names)%nat → files w' !! (parent ++ take k names) = Some (Dir MODE_PRIVATE_DIR)).
Proof.
  induction names as [|n names IH]; intros parent w a w' Hp H; cbn [secure_parents] in H.
  { injection H as _ <-. rewrite app_nil_r. split_and!; [done|by left|cbn; lia]. }
  apply bind_ok in H as (there & w1 & [Hw1 _]%holds_ok & H).
  apply bind_ok in H as (u & w2 & Hdir & H).
  assert (∃ m fs1, fs1 = <[parent ++ [n] := Dir m]> (files w) ∧ all_dirs (files w) parent ∧ files w2 = fs1
    ∧ (files w !! (parent ++ [n]) = None ∨ ∃ m, files w !! (parent ++ [n]) = Some (Dir m))) as (m & fs1 & Hfs1 & Had & Hw2 & Hold).
  { destruct there.
    - apply bind_ok in Hdir as (e & w3 & [He Hw3]%query_ok & [Hk ->]%require_ok).
      unfold symlink_metadata in He. rewrite Hw1, locate_real in He by done.
      destruct (dir_at parent (files w)) eqn:Ed; [|done]. unfold entry_at in He.
      destruct (files w !! (parent ++ [n])) as [e'|] eqn:Ee; [|done]. injection He as ->.
      destruct e as [|m| |]; try done. exists m, (files w). split_and!; [by rewrite insert_id|by apply real_dir|congruence|].
      right. by exists m.
    - apply call_ok in Hdir. unfold mkdir in Hdir. rewrite Hw1, locate_real in Hdir by done.
      destruct (dir_at parent (files w)) eqn:Ed; [|done].
      destruct (files w !! (parent ++ [n])) eqn:Ee; [done|]. injection Hdir as Hdir.
      eexists _, _. split_and!; [reflexivity|by apply real_dir|done|by left]. }
  assert (Hall : ∀ m', all_dirs (<[parent ++ [n] := Dir m']> (files w)) (parent ++ [n])) by (intros m'; by apply all_dirs_insert).
  apply bind_ok in H as (u1 & w3 & Hset%call_ok & H). unfold set_permissions in Hset.
  rewrite Hw2, Hfs1, resolve_real in Hset by (by apply all_dirs_real). unfold entry_at in Hset.
  rewrite lookup_insert_eq in Hset. cbn [with_mode] in Hset. rewrite insert_insert_eq in Hset. injection Hset as _ Hw3.
  apply bind_ok in H as (u2 & w4 & [Hw4 _]%validate_ok & H).
  apply bind_ok in H as (resolved & w5 & [_ Hw5]%query_ok & H).
  apply bind_ok in H as (u3 & w6 & [_ ->]%require_ok & H).
  assert (Hw : files w5 = <[parent ++ [n] := Dir MODE_PRIVATE_DIR]> (files w)) by congruence.
  apply IH in H as (Hr & Honly & Hk); [|rewrite Hw; apply all_dirs_real, Hall].
  rewrite <- app_assoc in Hr. split_and!; [done| |].
  - intros p. destruct (Honly p) as [E|((k & Hkl & ->) & E & Hbefore)].
    + rewrite Hw in E. destruct (decide (p = parent ++ [n])) as [->|Hne]; [|left; by rewrite lookup_insert_ne in E].
      rewrite lookup_insert_eq in E. right. split_and!; [|done|done]. exists 1%nat. split; [cbn; lia|done].
    + right. split_and!; [|done|].
      * exists (S k). split; [cbn; lia|]. cbn [take]. by rewrite <- app_assoc.
      * rewrite Hw, lookup_insert_ne in Hbefore; [done|]. intros E'%(f_equal length).
        rewrite !length_app, length_take in E'. cbn in E'. lia.
  - intros k Hkl. destruct k as [|k]; [lia|]. destruct (decide (k = 0%nat)) as [->|].
    + destruct (Honly (parent ++ [n])) as [E|(_ & E & _)]; [|done]. rewrite Hw, lookup_insert_eq in E. done.
    + specialize (Hk k). rewrite <- app_assoc in Hk. apply Hk. cbn in Hkl. lia.
Qed.
End Calls.

(** ** Captures are written inside *)

Section Writing.
Context (fault : nat → option IoKind) (cwd : RealPath) (umask : Z).

(** The directories between a root and a capture below it. *)
Definition between (root : RealPath) (names : list name) (p : RealPath) : Prop :=
  ∃ k, (0 < k < length names)%nat ∧ p = root ++ take k names.

Lemma normal_components comps :
  existsb (λ c, match normal_name c with Some _ => false | None => true end) comps = false →
  comps = map Normal (omap normal_name comps).
Proof.
  induction comps as [|[n| |] comps IH]; cbn; [done| |done..]. intros H. cbn in H. f_equal. by apply IH.
Qed.

Lemma quarantine_output_ok (root relative : Path) (w : World) (r : RealPath) (w' : World) :
  all_dirs (files w) cwd → quarantine_output fault cwd umask root relative w = (Ok r, w') →
  ∃ real_root names e,
    resolve cwd root (files w) = Ok real_root ∧ entry_at real_root (files w) = Ok e ∧ private e
    ∧ is_absolute relative = false ∧ components relative = map Normal names ∧ names ≠ [] ∧ r = real_root ++ names
    ∧ real (files w') (real_root ++ removelast names)
    ∧ only_dirs (between real_root names) (files w) (files w')
    ∧ (∀ p, between real_root names p → files w' !! p = Some (Dir MODE_PRIVATE_DIR)).
Proof.
  intros Hcwd H. unfold quarantine_output in H.
  apply bind_ok in H as (u & w1 & [Hc ->]%require_ok & H). apply negb_true_iff, orb_false_iff in Hc as [Habs Hn%normal_components].
  apply bind_ok in H as (real_root & w2 & [Hroot Hw2]%query_ok & H).
  assert (Hreal : real (files w) real_root) by by eapply resolved_real.
  apply bind_ok in H as (u1 & w3 & [Hw3 (e & He & Hpriv)]%validate_ok & H).
  set (names := omap normal_name (components relative)) in *.
  apply bind_ok in H as (u2 & w4 & [Hne ->]%require_ok & H). apply negb_true_iff, bool_decide_eq_false in Hne.
  apply bind_ok in H as (u3 & w5 & Hs & H).
  apply secure_parents_ok in Hs as (Hr & Honly & Hk); [|by rewrite Hw3, Hw2].
  apply bind_ok in H as (there & w6 & [Hw6 _]%holds_ok & H).
  apply bind_ok in H as (u4 & w7 & Hlast & H). injection H as <- <-.
  assert (Hw7 : files w7 = files w5).
  { rewrite <- Hw6. destruct there; [|by injection Hlast as _ <-].
    apply bind_ok in Hlast as (link & w8 & [Hw8 _]%holds_ok & Hlast).
    apply bind_ok in Hlast as (u5 & w9 & [_ ->]%require_ok & Hlast).
    apply bind_ok in Hlast as (resolved & w10 & [_ Hw10]%query_ok & [_ ->]%require_ok). congruence. }
  assert (Hbetween : ∀ k, (0 < k ≤ length (removelast names))%nat ↔ (0 < k < length names)%nat).
  { intros k. destruct names as [|x l _] using rev_ind; [done|]. rewrite removelast_last, length_app. cbn. lia. }
  assert (Htake : ∀ k, (k < length names)%nat → take k (removelast names) = take k names).
  { intros k Hk'. destruct names as [|x l _] using rev_ind; [done|]. rewrite removelast_last.
    rewrite length_app in Hk'. cbn in Hk'. by rewrite take_app_le by lia. }
  exists real_root, names, e. unfold metadata in He. rewrite Hw2, resolve_real in He by done.
  rewrite Hw7. rewrite Hw3, Hw2 in Honly. split_and!; try done.
  - intros p. destruct (Honly p) as [E|((k & Hkl & ->) & E & Hb)]; [by left|]. right. split_and!; [|done|done].
    apply Hbetween in Hkl. exists k. split; [done|]. by rewrite Htake by lia.
  - intros p (k & Hkl & ->). rewrite <- Htake by lia. by apply Hk, Hbetween.
Qed.

(** C27: A raw capture can only be written inside the quarantine, and only new.  When writing one
    succeeds, on a file system with any symbolic links and whatever permissions, the root
    resolved to an entry that only its owner can use, the path given was a plain relative one
    that names something, and the file it made is at exactly those names below the root: it
    did not exist, it is readable and writable by its owner only and holds exactly the bytes.
    Every directory on the way is real, owner-only, and was a directory or did not exist;
    nothing else in the file system changed. *)
Theorem write_private_exact root relative now bytes w r w' :
  all_dirs (files w) cwd → write_private fault cwd umask root relative now bytes w = (Ok r, w') →
  ∃ real_root names e,
    resolve cwd root (files w) = Ok real_root ∧ entry_at real_root (files w) = Ok e ∧ private e
    ∧ is_absolute relative = false ∧ components relative = map Normal names ∧ names ≠ []
    ∧ r = real_root ++ names ∧ files w !! r = None
    ∧ files w' !! r = Some (File MODE_PRIVATE_FILE now bytes)
    ∧ (∀ p, between real_root names p → files w' !! p = Some (Dir MODE_PRIVATE_DIR))
    ∧ (∀ p, p ≠ r → files w' !! p = files w !! p
         ∨ (between real_root names p ∧ (files w !! p = None ∨ ∃ m, files w !! p = Some (Dir m)))).
Proof.
  intros Hcwd H. unfold write_private in H. apply bind_ok in H as (path & w1 & Hq & H).
  apply quarantine_output_ok in Hq as (real_root & names & e & Hroot & He & Hpriv & Habs & Hcomp & Hne & -> & Hreal & Honly & Hdirs);
    [|done].
  apply bind_ok in H as (r1 & w2 & Hnew%call_ok & H). apply bind_ok in H as (u1 & w3 & Hmode%call_ok & H).
  apply bind_ok in H as (u2 & w4 & Hwrite%call_ok & H). apply bind_ok in H as (u3 & w5 & [_ Hw5]%query_ok & H).
  injection H as <- <-.
  assert (Hlen : ∀ p, between real_root names p → p ≠ real_root ++ names).
  { intros p (k & Hk & ->) E%(f_equal length). rewrite !length_app, length_take in E. lia. }
  unfold create_new in Hnew. destruct names as [|n names _] using rev_ind; [done|]. rewrite removelast_last in Hreal.
  rewrite app_assoc in Hnew, Hlen |- *. rewrite locate_real in Hnew by done.
  destruct (dir_at (real_root ++ names) (files w1)) eqn:Ed; [|done].
  destruct (files w1 !! ((real_root ++ names) ++ [n])) eqn:En; [done|]. injection Hnew as <- Hw2.
  unfold change, entry_at in Hmode, Hwrite. rewrite <- Hw2, lookup_insert_eq in Hmode. cbn [with_mode] in Hmode.
  rewrite insert_insert_eq in Hmode. injection Hmode as _ Hw3.
  rewrite <- Hw3, lookup_insert_eq in Hwrite. cbn [append_contents app] in Hwrite. rewrite insert_insert_eq in Hwrite.
  injection Hwrite as _ Hw4. rewrite Hw5, <- Hw4.
  exists real_root, (names ++ [n]), e. rewrite !app_assoc. split_and!; try done.
  - destruct (Honly ((real_root ++ names) ++ [n])) as [E|(Hb & _)]; [congruence|]. by apply Hlen in Hb.
  - by rewrite lookup_insert_eq.
  - intros p Hp. rewrite lookup_insert_ne; [by apply Hdirs|]. intros E. by apply (Hlen p Hp).
  - intros p Hp. rewrite lookup_insert_ne by congruence. destruct (Honly p) as [E|(Hb & _ & Hold)]; [by left|by right].
Qed.
End Writing.

(** ** The root is private and apart *)

(** What preparing a quarantine promises: it is owner-only, real, not in a folder that is
    synchronized, and neither inside the repository nor around it. *)
Theorem prepare_quarantine_apart fault cwd umask root repository w r w' :
  prepare_quarantine fault cwd umask root repository w = (Ok r, w') →
  ∃ real_repository e,
    resolve cwd repository (files w) = Ok real_repository
    ∧ ¬ real_repository `prefix_of` r ∧ ¬ r `prefix_of` real_repository
    ∧ is_synchronized root = false ∧ is_synchronized (absolute r) = false
    ∧ metadata cwd (absolute r) (files w') = Ok e ∧ private e.
Proof.
  intros H. unfold prepare_quarantine in H.
  apply bind_ok in H as (u1 & w1 & [H1%negb_true_iff ->]%require_ok & H).
  apply bind_ok in H as (real_repository & w2 & [Hrepo Hw2]%query_ok & H).
  apply bind_ok in H as (u3 & w3 & [_ ->]%require_ok & H).
  apply bind_ok in H as (there & w4 & _ & H). apply bind_ok in H as (link & w5 & _ & H).
  apply bind_ok in H as (u6 & w6 & _ & H). apply bind_ok in H as (u7 & w7 & _ & H).
  apply bind_ok in H as (real_root & w8 & _ & H).
  apply bind_ok in H as (u9 & w9 & [Hsync%negb_true_iff ->]%require_ok & H).
  apply bind_ok in H as (u10 & w10 & [Happ%negb_true_iff ->]%require_ok & H).
  apply bind_ok in H as (u11 & w11 & _ & H). apply bind_ok in H as (u12 & w12 & [Hw12 (e & He & Hp)]%validate_ok & H).
  injection H as <- <-. apply orb_false_iff in Happ as [Ha Hb]. unfold starts_with_real in *.
  apply bool_decide_eq_false in Ha, Hb. exists real_repository, e. rewrite Hw12. by split_and!.
Qed.

(** ** What a purge deletes *)

Section Purge.
Context (fault : nat → option IoKind) (cwd : RealPath) (listing : list name → list name).
Context (retention now : Z).

(** In a file system every entry is in a directory, and its root is one. *)
Definition tree (fs : Files) : Prop :=
  (∀ r n, is_Some (fs !! (r ++ [n])) → dir_at r fs = true) ∧ ∀ e, fs !! [] = Some e → is_dir e = true.

Definition removed (fs : Files) (gone : list RealPath) : Files := foldr delete fs gone.

Lemma lookup_removed fs gone p : removed fs gone !! p = if decide (p ∈ gone) then None else fs !! p.
Proof.
  induction gone as [|q gone IH]; cbn [removed foldr]; [by rewrite decide_False by apply not_elem_of_nil|].
  fold (removed fs gone). destruct (decide (p = q)) as [->|Hne].
  - rewrite lookup_delete_eq, decide_True; [done|left].
  - rewrite lookup_delete_ne, IH by congruence.
    destruct (decide (p ∈ gone)); [by rewrite decide_True by by right|].
    rewrite decide_False; [done|]. by intros [?|?]%elem_of_cons.
Qed.

Lemma removed_removed fs g1 g2 : removed (removed fs g1) g2 = removed fs (g1 ++ g2).
Proof.
  apply map_eq. intros p. rewrite !lookup_removed.
  destruct (decide (p ∈ g2)), (decide (p ∈ g1)), (decide (p ∈ g1 ++ g2)) as [Hin|Hout]; try done;
    rewrite elem_of_app in *; naive_solver.
Qed.

(** A file whose time has come. *)
Definition expired (fs : Files) (p : RealPath) : Prop :=
  ∃ mode modified contents, fs !! p = Some (File mode modified contents) ∧ retention ≤ age_of now modified.

(** An entry a purge has passed: owner-only, a directory or a file, and gone if expired. *)
Definition passed (fs : Files) (gone : list RealPath) (p : RealPath) : Prop :=
  match fs !! p with
  | None => True
  | Some e => private e ∧ match e with
                          | Dir _ => True
                          | File _ modified _ => retention ≤ age_of now modified → p ∈ gone
                          | Symlink _ | Special _ => False
                          end
  end.

(** What a purge of the entries [below] comes to. *)
Definition purged (below : RealPath → Prop) (fs : Files) (deleted : list RealPath)
    (o : result QuarantineError (list RealPath)) (fs' : Files) : Prop :=
  ∃ gone, fs' = removed fs gone ∧ Forall (λ p, below p ∧ expired fs p) gone ∧
    match o with
    | Ok deleted' => deleted' = deleted ++ gone ∧ ∀ p, below p → passed fs gone p
    | Err e => e ≠ OutOfFuel
    end.

(** A step that changes no file and does not run out of fuel. *)
Definition quiet {A} (m : Q A) : Prop := ∀ w, files (m w).2 = files w ∧ (m w).1 ≠ Err OutOfFuel.

Lemma quiet_query {A} (doing : list byte) (op : Files → result IoKind A) : quiet (call fault doing (query op)).
Proof. intros w. unfold call, syscall, query. destruct (fault (calls w)); [done|]. by destruct (op (files w)). Qed.

Lemma quiet_require b why : quiet (require b why).
Proof. intros w. by destruct b. Qed.

Lemma quiet_bind {A B} (m : Q A) (k : A → Q B) : quiet m → (∀ a, quiet (k a)) → quiet (bind m k).
Proof.
  intros Hm Hk w. unfold bind. destruct (Hm w) as [E Ne]. destruct (m w) as [[a|e] w1]; cbn [fst snd] in *.
  - destruct (Hk a w1) as [E' Ne']. split; [congruence|done].
  - split; [done|]. intros [= ->]. by apply Ne.
Qed.

Lemma quiet_validate p : quiet (validate_private_permissions fault cwd p).
Proof. apply quiet_bind; [apply quiet_query|]. intros e. apply quiet_require. Qed.

Lemma purged_bind {A} below (m : Q A) (k : A → Q (list RealPath)) (w : World) deleted :
  quiet m →
  (∀ a w1, m w = (Ok a, w1) → files w1 = files w → purged below (files w) deleted (k a w1).1 (files (k a w1).2)) →
  purged below (files w) deleted (bind m k w).1 (files (bind m k w).2).
Proof.
  intros Hm Hk. unfold bind. destruct (Hm w) as [E Ne]. destruct (m w) as [[a|e] w1]; cbn [fst snd] in *; [by apply Hk|].
  exists []. split_and!; [done|constructor|]. intros ->. by apply Ne.
Qed.

Lemma purged_err below fs deleted e : e ≠ OutOfFuel → purged below fs deleted (Err e) fs.
Proof. intros He. exists []. by split_and!; [|constructor|]. Qed.

(** One after the other. *)
Lemma purged_then below1 below2 (m : Q (list RealPath)) (k : list RealPath → Q (list RealPath)) (w : World) deleted :
  purged below1 (files w) deleted (m w).1 (files (m w).2) →
  (∀ deleted' w1 gone, m w = (Ok deleted', w1) → files w1 = removed (files w) gone →
     Forall (λ p, below1 p ∧ expired (files w) p) gone →
     purged below2 (files w1) deleted' (k deleted' w1).1 (files (k deleted' w1).2)) →
  purged (λ p, below1 p ∨ below2 p) (files w) deleted (bind m k w).1 (files (bind m k w).2).
Proof.
  intros (g1 & Hf1 & Hg1 & Ho1) Hk. unfold bind. destruct (m w) as [[deleted'|e] w1] eqn:Em; cbn [fst snd] in *.
  2:{ exists g1. split_and!; [done| |done]. eapply Forall_impl; [exact Hg1|]. intros p [? ?]. split; [by left|done]. }
  destruct Ho1 as [-> Hp1]. destruct (Hk _ w1 g1 eq_refl Hf1 Hg1) as (g2 & Hf2 & Hg2 & Ho2).
  rewrite Hf1 in Hf2, Hg2, Ho2. rewrite removed_removed in Hf2. exists (g1 ++ g2).
  assert (Hback : ∀ p e, removed (files w) g1 !! p = Some e → files w !! p = Some e).
  { intros p e. rewrite lookup_removed. by case_decide. }
  split_and!; [done| |].
  - apply Forall_app. split; (eapply Forall_impl; [eassumption|]); intros p [Hb (m1 & m2 & c & E & Hage)].
    + split; [by left|]. by exists m1, m2, c.
    + split; [by right|]. exists m1, m2, c. split; [by apply Hback|done].
  - destruct (k _ w1) as [[deleted2|e2] w2]; cbn [fst snd] in *; [|done]. destruct Ho2 as [-> Hp2].
    split; [by rewrite app_assoc|]. intros p [Hb|Hb].
    + specialize (Hp1 p Hb). unfold passed in *. destruct (files w !! p) as [[| | |]|]; try done.
      destruct Hp1 as [? Hp1]. split; [done|]. intros Hage. apply elem_of_app. left. by apply Hp1.
    + specialize (Hp2 p Hb). unfold passed in *. rewrite lookup_removed in Hp2. case_decide as Hin.
      * pose proof (proj1 (Forall_forall _ _) Hg1 _ Hin) as [Hb1 _]. specialize (Hp1 p Hb1).
        destruct (files w !! p) as [[| | |]|]; try done. destruct Hp1 as [? Hp1]. split; [done|]. intros _.
        apply elem_of_app. by left.
      * destruct (files w !! p) as [[| | |]|]; try done. destruct Hp2 as [? Hp2]. split; [done|]. intros Hage.
        apply elem_of_app. right. by apply Hp2.
Qed.

Lemma purged_iff below below' fs deleted o fs' :
  (∀ p, below p ↔ below' p) → purged below fs deleted o fs' → purged below' fs deleted o fs'.
Proof.
  intros H (gone & Hf & Hg & Ho). exists gone. split_and!; [done| |].
  - eapply Forall_impl; [exact Hg|]. intros p [? ?]. split; [by apply H|done].
  - destruct o; [|done]. destruct Ho as [? Hp]. split; [done|]. intros p Hb. by apply Hp, H.
Qed.

Lemma tree_up fs t : ∀ q, tree fs → is_Some (fs !! (q ++ t)) → t ≠ [] → dir_at q fs = true.
Proof.
  induction t as [|x t IH] using rev_ind; intros q Ht Hp Hne; [done|]. rewrite app_assoc in Hp. apply Ht in Hp.
  destruct (decide (t = [])) as [->|Hne']; [by rewrite app_nil_r in Hp|].
  apply IH; [done| |done]. unfold dir_at in Hp. destruct (q ++ t) eqn:E; [by apply app_nil in E as [_ ?]|].
  by destruct (fs !! _) as [[| | |]|].
Qed.

(** Below what is not a directory there is nothing. *)
Lemma nothing_below fs q e p :
  tree fs → fs !! q = Some e → is_dir e = false → q `prefix_of` p → is_Some (fs !! p) → p = q.
Proof.
  intros Ht Hq He [t ->] Hp. destruct (decide (t = [])) as [->|Hne]; [by rewrite app_nil_r|].
  pose proof (tree_up fs t q Ht Hp Hne) as Hd. unfold dir_at in Hd. destruct q as [|x q].
  - apply Ht in Hq. congruence.
  - rewrite Hq in Hd. by destruct e.
Qed.

Lemma children_spec dir fs n : n ∈ children dir fs ↔ is_Some (fs !! (dir ++ [n])).
Proof.
  unfold children. rewrite list_elem_of_omap. split.
  - intros (r & Hr & Hn). destruct (last r) as [n'|]; [|done]. case_bool_decide as Er; [|done]. injection Hn as ->.
    apply list_elem_of_fmap in Hr as ([r' e] & -> & He%elem_of_map_to_list). cbn [fst] in Er. rewrite <- Er. by exists e.
  - intros [e He]. exists (dir ++ [n]). split.
    + apply list_elem_of_fmap. exists (dir ++ [n], e). split; [done|by apply elem_of_map_to_list].
    + by rewrite last_snoc, bool_decide_eq_true_2.
Qed.

(** A state in which [dir] can be purged; no path is longer than [limit]. *)
Record ready (limit : nat) (fs : Files) (dir : RealPath) : Prop := {
  ready_tree : tree fs;
  ready_dirs : all_dirs fs dir;
  ready_limit : ∀ p, is_Some (fs !! p) → (length p ≤ limit)%nat;
}.

Lemma removed_dirs fs gone p : Forall (expired fs) gone → dir_at p (removed fs gone) = dir_at p fs.
Proof.
  intros H. unfold dir_at. destruct p as [|x p]; [done|]. rewrite lookup_removed. case_decide as Hin; [|done].
  apply (proj1 (Forall_forall _ _) H) in Hin as (m & md & c & -> & _). done.
Qed.

Lemma ready_removed limit fs gone dir : Forall (expired fs) gone → ready limit fs dir → ready limit (removed fs gone) dir.
Proof.
  intros Hg [Ht Hd Hl].
  assert (∀ p e, removed fs gone !! p = Some e → fs !! p = Some e) as Hback by (intros p e; rewrite lookup_removed; by case_decide).
  split.
  - split.
    + intros r n [e He%Hback]. rewrite removed_dirs by done. apply (proj1 Ht r n). by exists e.
    + intros e He%Hback. by apply (proj2 Ht).
  - intros p Hp. rewrite removed_dirs by done. by apply Hd.
  - intros p [e He%Hback]. apply Hl. by exists e.
Qed.

(** The entry [n] of a directory and everything below it. *)
Definition under (dir : RealPath) (n : name) (p : RealPath) : Prop := dir ++ [n] `prefix_of` p.

(** A file, kept or deleted. *)
Lemma file_purged limit root dir n mode modified contents deleted w :
  ready limit (files w) dir → files w !! (dir ++ [n]) = Some (File mode modified contents) →
  let path := dir ++ [n] in
  let m := (validate_private_permissions fault cwd (absolute path) ;;!
            let! resolved := canonicalize fault cwd (str "resolving") (absolute path) in
            require (starts_with_real resolved root) (str "escapes quarantine") ;;!
            if retention <=? age_of now modified then
              cleanup_raw fault cwd (absolute path) ;;! ret (deleted ++ [path])
            else ret deleted) in
  purged (under dir n) (files w) deleted (m w).1 (files (m w).2).
Proof.
  intros [Ht Hd _] He path m. subst m.
  assert (Hdir : dir_at dir (files w) = true) by (apply Hd; done).
  assert (Hreal : real (files w) path).
  { split; [|right; by eexists]. intros p [->|Hp]%prefix_snoc_inv Hne; [done|by apply Hd]. }
  assert (Honly : ∀ p, under dir n p → is_Some (files w !! p) → p = path) by (intros p Hp Hs; by eapply nothing_below).
  apply purged_bind; [apply quiet_validate|]. intros u w1 [_ (e & Hm & Hp)]%validate_ok Hw1.
  unfold metadata in Hm. rewrite resolve_real in Hm by done. unfold entry_at, path in Hm. rewrite He in Hm. injection Hm as <-.
  rewrite <- Hw1. apply purged_bind; [apply quiet_query|]. intros resolved w2 _ Hw2.
  rewrite <- Hw2. apply purged_bind; [apply quiet_require|]. intros u2 w3 _ Hw3. rewrite Hw2, Hw1.
  destruct (Z.leb_spec retention (age_of now modified)) as [Hage|Hage].
  - unfold bind, cleanup_raw, call, syscall. destruct (fault (calls w3)); [cbn [fst snd files]; rewrite Hw3, Hw2, Hw1; by apply purged_err|].
    assert (Hloc : locate cwd (absolute path) (files w) = Ok path)
      by (unfold path; rewrite locate_real by (by apply all_dirs_real); by rewrite Hdir).
    unfold remove_file. rewrite Hw3, Hw2, Hw1, Hloc. unfold entry_at. change (dir ++ [n]) with path in He. rewrite He.
    cbn [is_dir ret fst snd files].
    exists [path]. split_and!; [done| |done|].
    + apply Forall_singleton. split; [exists []; by rewrite app_nil_r|]. by exists mode, modified, contents.
    + intros p Hb. unfold passed. destruct (files w !! p) as [e|] eqn:Ep; [|done].
      assert (p = path) as -> by (apply Honly; [done|by exists e]). rewrite He in Ep. injection Ep as <-.
      split; [done|]. intros _. left.
  - exists []. cbn [ret fst snd]. rewrite Hw3, Hw2, Hw1. split_and!; [done|constructor|by rewrite app_nil_r|].
    intros p Hb. unfold passed. destruct (files w !! p) as [e|] eqn:Ep; [|done].
    assert (p = path) as -> by (apply Honly; [done|by exists e]). change path with (dir ++ [n]) in Ep. rewrite He in Ep. injection Ep as <-.
    split; [done|]. lia.
Qed.

Abbreviation purge_dir fuel root dir deleted := (purge_directory fault cwd listing fuel root retention now dir deleted).
Abbreviation purge_list purge root dir names deleted := (purge_entries fault cwd purge root dir retention now names deleted).

(** A directory purged: everything from it down. *)
Definition purges (limit : nat) (purge : RealPath → list RealPath → Q (list RealPath)) (dir : RealPath) : Prop :=
  ∀ w deleted, ready limit (files w) dir →
    purged (λ p, dir `prefix_of` p) (files w) deleted (purge dir deleted w).1 (files (purge dir deleted w).2).

Lemma purge_entries_purged limit purge root dir names : ∀ w deleted,
  ready limit (files w) dir → (∀ n, (length dir < limit)%nat → purges limit purge (dir ++ [n])) →
  purged (λ p, ∃ n, n ∈ names ∧ under dir n p) (files w) deleted
    (purge_list purge root dir names deleted w).1 (files (purge_list purge root dir names deleted w).2).
Proof.
  induction names as [|n names IH]; intros w deleted Hr Hpurge; cbn [purge_entries].
  { exists []. cbn [ret fst snd]. split_and!; [done|constructor|by rewrite app_nil_r|]. by intros p (n & ?%not_elem_of_nil & _). }
  pose proof Hr as [Ht Hd Hl].
  apply purged_bind; [apply quiet_query|]. intros u w1 _ Hw1. rewrite <- Hw1.
  apply purged_bind; [apply quiet_query|]. intros e w2 [He _]%query_ok Hw2. rewrite <- Hw2.
  assert (Hfs : files w2 = files w) by congruence.
  unfold symlink_metadata in He. rewrite Hw1, locate_real in He by by apply all_dirs_real.
  rewrite (Hd dir) in He by done. unfold entry_at in He. destruct (files w !! (dir ++ [n])) as [e'|] eqn:Ee; [|done].
  injection He as ->.
  apply (purged_iff (λ p, under dir n p ∨ ∃ n', n' ∈ names ∧ under dir n' p)).
  { intros p. split.
    - intros [Hb|(n' & Hin & Hb)]; [exists n|exists n']; (split; [|done]); [left|by right].
    - intros (n' & [->|Hin]%elem_of_cons & Hb); [by left|right; by exists n']. }
  apply purged_then.
  - rewrite Hfs. destruct e as [mode modified contents|mode|target|mode].
    + rewrite <- Hfs. eapply (file_purged limit); [by rewrite Hfs|by rewrite Hfs].
    + rewrite <- Hfs. apply Hpurge.
      * assert (length (dir ++ [n]) ≤ limit)%nat as Hlen by (apply Hl; by eexists). rewrite length_app in Hlen. cbn in Hlen. lia.
      * rewrite Hfs. split; [done| |done]. apply all_dirs_snoc; [done|]. by rewrite dir_at_snoc, Ee.
    + cbn [refuse throw fst snd]. rewrite Hfs. by apply purged_err.
    + cbn [refuse throw fst snd]. rewrite Hfs. by apply purged_err.
  - intros deleted' w3 gone _ Hw3 Hgone. apply IH; [|done]. rewrite Hw3, Hfs. apply ready_removed; [|done].
    rewrite Hfs in Hgone. eapply Forall_impl; [exact Hgone|]. by intros p [_ ?].
Qed.

Lemma purge_directory_purged limit root fuel : ∀ dir,
  (∀ l, listing l ≡ₚ l) → (limit + 2 ≤ fuel + length dir)%nat → (length dir ≤ limit)%nat →
  purges limit (λ dir deleted, purge_dir fuel root dir deleted) dir.
Proof.
  induction fuel as [|fuel IH]; intros dir Hperm Hfuel Hlen w deleted Hr; [lia|]. cbn [purge_directory].
  pose proof Hr as [Ht Hd Hl]. assert (Hreal : real (files w) dir) by by apply all_dirs_real.
  apply purged_bind; [apply quiet_validate|]. intros u w1 [_ (e & He & Hpriv)]%validate_ok Hw1. rewrite <- Hw1.
  unfold metadata in He. rewrite resolve_real in He by done. unfold entry_at in He.
  destruct (files w !! dir) as [e'|] eqn:Ee; [|done]. injection He as ->.
  apply purged_bind; [apply quiet_query|]. intros resolved w2 _ Hw2. rewrite <- Hw2.
  apply purged_bind; [apply quiet_require|]. intros u2 w3 _ Hw3. rewrite <- Hw3.
  apply purged_bind; [apply quiet_query|]. intros names w4 [Hn _]%query_ok Hw4. rewrite <- Hw4.
  assert (Hfs : files w4 = files w) by congruence. unfold read_dir in Hn.
  rewrite Hw3, Hw2, Hw1, (Hd dir) in Hn by done. injection Hn as <-.
  assert (Hready : ready limit (files w4) dir) by (by rewrite Hfs).
  destruct (purge_entries_purged limit (λ path deleted, purge_dir fuel root path deleted) root dir
    (listing (children dir (files w))) w4 deleted Hready) as (gone & Hf & Hg & Ho).
  { intros n Hlt. apply IH; [done|rewrite length_app; cbn; lia|rewrite length_app; cbn; lia]. }
  exists gone. split_and!; [done| |].
  - eapply Forall_impl; [exact Hg|]. intros p [(n & _ & Hb) ?]. split; [|done].
    etrans; [|exact Hb]. by apply prefix_app_r.
  - destruct (purge_list _ _ _ _ _ w4) as [[deleted'|e'] w5]; cbn [fst snd] in *; [|done]. destruct Ho as [-> Hp].
    split; [done|]. intros p [t ->]. unfold passed. destruct (files w4 !! (dir ++ t)) as [e'|] eqn:Ep; [|done].
    destruct t as [|n t].
    + rewrite app_nil_r in *. rewrite Hfs, Ee in Ep. injection Ep as <-. split; [done|].
      pose proof (Hd dir ltac:(done)) as Hdir. unfold dir_at in Hdir. destruct dir as [|x dir].
      * apply (proj2 Ht) in Ee. by destruct e.
      * rewrite Ee in Hdir. by destruct e.
    + assert (Hu : under dir n (dir ++ n :: t)) by (exists t; by rewrite <- app_assoc).
      assert (n ∈ listing (children dir (files w))) as Hin.
      { rewrite Hperm, children_spec. rewrite Hfs in Ep. destruct t as [|n' t]; [by eexists|].
        assert (dir_at (dir ++ [n]) (files w) = true) as Hdn.
        { apply (tree_up (files w) (n' :: t)); [done|rewrite <- app_assoc; by eexists|done]. }
        rewrite dir_at_snoc in Hdn. by destruct (files w !! (dir ++ [n])). }
      specialize (Hp _ (ex_intro _ n (conj Hin Hu))). unfold passed in Hp. by rewrite Ep in Hp.
Qed.
End Purge.

Lemma depth_bound fs p : is_Some (fs !! p) → (length p ≤ depth fs)%nat.
Proof.
  intros [e He]. unfold depth. apply max_list_elem_of_le. apply list_elem_of_In, in_map, list_elem_of_In.
  apply list_elem_of_fmap. exists (p, e). split; [done|by apply elem_of_map_to_list].
Qed.

(** C28: A purge deletes what has expired in the quarantine, and nothing else.  Whatever it comes
    to, on any tree of entries and in whatever order directories are listed, the files that are
    gone were regular files below the resolved root whose time had come, everything else is as it
    was, and the recursion is deep enough.  When it succeeds it has passed everything from the
    root down: all of it owner-only directories and files, the expired files exactly those it
    deleted and reports. *)
Theorem purge_expired_exact fault cwd listing root retention now w :
  all_dirs (files w) cwd → tree (files w) → (∀ l, listing l ≡ₚ l) →
  let r := purge_expired fault cwd listing root retention now w in
  r.1 ≠ Err OutOfFuel
  ∧ ∃ gone, files r.2 = removed (files w) gone
    ∧ (∀ p, p ∈ gone → ∃ real_root, resolve cwd root (files w) = Ok real_root ∧ real_root `prefix_of` p
                                  ∧ expired retention now (files w) p)
    ∧ (∀ deleted, r.1 = Ok deleted → deleted = gone
         ∧ ∃ real_root, resolve cwd root (files w) = Ok real_root
             ∧ ∀ p, real_root `prefix_of` p → passed retention now (files w) gone p).
Proof.
  intros Hcwd Ht Hperm r.
  cut (∃ below, (∀ p, below p → ∃ real_root, resolve cwd root (files w) = Ok real_root ∧ real_root `prefix_of` p)
    ∧ ((∃ d, r.1 = Ok d) → ∃ real_root, resolve cwd root (files w) = Ok real_root ∧ ∀ p, real_root `prefix_of` p → below p)
    ∧ purged retention now below (files w) [] r.1 (files r.2)).
  { intros (below & Hb & Hroot & gone & Hf & Hg & Ho). split; [by destruct r.1; [|intros [= ->]]|].
    exists gone. split_and!; [done| |].
    - intros p [Hp He]%(proj1 (Forall_forall _ _) Hg). destruct (Hb p Hp) as (rr & ? & ?). by exists rr.
    - intros deleted E. rewrite E in Ho, Hroot. destruct Ho as [-> Hp]. split; [done|].
      destruct (Hroot (ex_intro _ _ eq_refl)) as (rr & ? & Hrr). exists rr. split; [done|]. intros p Hpre. by apply Hp, Hrr. }
  destruct (resolve cwd root (files w)) as [real_root|kind] eqn:Eroot.
  2:{ exists (λ _, False). split_and!; [done| |].
      - intros [d Hd]. unfold r, purge_expired in Hd.
        destruct (bind _ _ w) as [o w'] eqn:E in Hd. cbn [fst] in Hd. subst o.
        apply bind_ok in E as (link & w1 & [Hw1 _]%holds_ok & E). apply bind_ok in E as (u & w2 & [_ ->]%require_ok & E).
        apply bind_ok in E as (rr & w3 & [Hrr _]%query_ok & _). rewrite Hw1, Eroot in Hrr. done.
      - unfold r, purge_expired. apply purged_bind; [intros w0; unfold holds, syscall, query; destruct (fault (calls w0)); [done|];
          by destruct (symlink_metadata _ _ _)|].
        intros link w1 [Hw1 _]%holds_ok _. rewrite <- Hw1. apply purged_bind; [apply quiet_require|].
        intros u w2 [_ ->]%require_ok _. apply purged_bind; [apply quiet_query|].
        intros rr w3 [Hrr _]%query_ok _. rewrite Hw1, Eroot in Hrr. done. }
  exists (λ p, real_root `prefix_of` p). split_and!; [intros p Hp; by exists real_root|by intros _; exists real_root|].
  assert (Hreal : real (files w) real_root) by by eapply resolved_real.
  unfold r, purge_expired. apply purged_bind; [intros w0; unfold holds, syscall, query; destruct (fault (calls w0)); [done|];
    by destruct (symlink_metadata _ _ _)|].
  intros link w1 [Hw1 _]%holds_ok _. rewrite <- Hw1. apply purged_bind; [apply quiet_require|].
  intros u w2 [_ ->]%require_ok _. apply purged_bind; [apply quiet_query|].
  intros rr w3 [Hrr Hw3]%query_ok _. rewrite Hw1, Eroot in Hrr. injection Hrr as <-. rewrite <- Hw3.
  apply purged_bind; [apply quiet_validate|]. intros u2 w4 [Hw4 _]%validate_ok _.
  assert (Hfs : files w4 = files w) by congruence. rewrite <- Hw4.
  destruct (dir_at real_root (files w)) eqn:Ed.
  - eapply (purge_directory_purged fault cwd listing retention now (depth (files w4))); [done|lia| |].
    + destruct real_root as [|x l]; [cbn; lia|]. apply depth_bound. rewrite Hfs. unfold dir_at in Ed.
      by destruct (files w !! (x :: l)).
    + rewrite Hfs. split; [done|by apply real_dir|apply depth_bound].
  - cbn [purge_directory]. apply purged_bind; [apply quiet_validate|]. intros u3 w5 [Hw5 _]%validate_ok _. rewrite <- Hw5.
    apply purged_bind; [apply quiet_query|]. intros rr w6 [_ Hw6]%query_ok _. rewrite <- Hw6.
    apply purged_bind; [apply quiet_require|]. intros u4 w7 [_ ->]%require_ok _.
    apply purged_bind; [apply quiet_query|]. intros names w8 [Hn _]%query_ok _. unfold read_dir in Hn.
    by rewrite Hw6, Hw5, Hfs, Ed in Hn.
Qed.

(** ** Witnesses *)

(** A file system checked for being a tree. *)
Definition tree_check (fs : Files) : bool :=
  forallb (λ kv, match kv.1 with [] => is_dir kv.2 | _ => dir_at (removelast kv.1) fs end) (map_to_list fs).

Lemma tree_check_ok fs : tree_check fs = true → tree fs.
Proof.
  intros H. assert (∀ k e, fs !! k = Some e → match k with [] => is_dir e = true | _ => dir_at (removelast k) fs = true end) as Hk.
  { intros k e He. unfold tree_check in H. rewrite forallb_forall in H. specialize (H (k, e)).
    rewrite <- list_elem_of_In, elem_of_map_to_list in H. specialize (H He). by destruct k. }
  split.
  - intros r n [e He]. apply Hk in He. rewrite removelast_last in He. destruct (r ++ [n]) eqn:E; [by apply app_nil in E as [_ ?]|done].
  - intros e He. by apply Hk in He.
Qed.

Definition no_fault (_ : nat) : option IoKind := None.

(** /q is the quarantine, /l a link to it, /repo the repository; one capture is old, one new. *)
Definition sample_files : Files :=
  list_to_map
    [([str "q"], Dir 0x1c0); ([str "l"], Symlink (absolute [str "q"])); ([str "repo"], Dir 0x1ed);
     ([str "q"; str "old"], File 0x180 10 [b8 1]); ([str "q"; str "new"], File 0x180 90 [b8 2]);
     ([str "q"; str "s"], Dir 0x1c0); ([str "q"; str "s"; str "older"], File 0x180 5 [])].

Definition sample_world : World := mk_world sample_files 0.

Definition sample_write : result QuarantineError RealPath * World :=
  write_private no_fault [] 0x12 (absolute [str "l"]) (mk_path false [Normal (str "a"); Normal (str "b")]) 100 [b8 7] sample_world.

Lemma write_private_exact_witness :
  ∃ real_root names e,
    resolve [] (absolute [str "l"]) sample_files = Ok real_root ∧ entry_at real_root sample_files = Ok e ∧ private e
    ∧ is_absolute (mk_path false [Normal (str "a"); Normal (str "b")]) = false
    ∧ components (mk_path false [Normal (str "a"); Normal (str "b")]) = map Normal names ∧ names ≠ []
    ∧ [str "q"; str "a"; str "b"] = real_root ++ names ∧ sample_files !! [str "q"; str "a"; str "b"] = None
    ∧ files sample_write.2 !! [str "q"; str "a"; str "b"] = Some (File MODE_PRIVATE_FILE 100 [b8 7])
    ∧ (∀ p, between real_root names p → files sample_write.2 !! p = Some (Dir MODE_PRIVATE_DIR))
    ∧ (∀ p, p ≠ [str "q"; str "a"; str "b"] → files sample_write.2 !! p = sample_files !! p
         ∨ (between real_root names p ∧ (sample_files !! p = None ∨ ∃ m, sample_files !! p = Some (Dir m)))).
Proof.
  apply (write_private_exact no_fault [] 0x12 (absolute [str "l"]) (mk_path false [Normal (str "a"); Normal (str "b")]) 100 [b8 7]
    sample_world [str "q"; str "a"; str "b"] sample_write.2).
  - apply all_dirs_nil.
  - vm_compute. reflexivity.
Defined.

Definition sample_purge : result QuarantineError (list RealPath) * World :=
  purge_expired no_fault [] id (absolute [str "q"]) 50 100 sample_world.

Lemma purge_expired_exact_witness :
  (sample_purge.1 ≠ Err OutOfFuel
   ∧ ∃ gone, files sample_purge.2 = removed sample_files gone
     ∧ (∀ p, p ∈ gone → ∃ real_root, resolve [] (absolute [str "q"]) sample_files = Ok real_root ∧ real_root `prefix_of` p
                                   ∧ expired 50 100 sample_files p)
     ∧ (∀ deleted, sample_purge.1 = Ok deleted → deleted = gone
          ∧ ∃ real_root, resolve [] (absolute [str "q"]) sample_files = Ok real_root
              ∧ ∀ p, real_root `prefix_of` p → passed 50 100 sample_files gone p))
  ∧ match sample_purge.1 with Ok deleted => length deleted = 2%nat | Err _ => False end.
Proof.
  split; [|vm_compute; reflexivity].
  apply (purge_expired_exact no_fault [] id (absolute [str "q"]) 50 100 sample_world).
  - apply all_dirs_nil.
  - apply tree_check_ok. vm_compute. reflexivity.
  - intros l. reflexivity.
Defined.

(** The link itself is refused as a root to purge, and a traversal as a path to write. *)
Example purge_refuses_link :
  (purge_expired no_fault [] id (absolute [str "l"]) 50 100 sample_world).1 = Err (Refused (str "quarantine root cannot be a symlink")).
Proof. vm_compute. reflexivity. Qed.
Example write_refuses_traversal :
  (write_private no_fault [] 0x12 (absolute [str "q"]) (mk_path false [ParentDir; Normal (str "b")]) 100 [b8 7] sample_world).1
  = Err (Refused (str "capture path must be a plain relative path without traversal")).
Proof. vm_compute. reflexivity. Qed.

Example prepare_sample :
  (prepare_quarantine no_fault [] 0x12 (absolute [str "q"; str "deep"]) (absolute [str "repo"]) sample_world).1
  = Ok [str "q"; str "deep"].
Proof. vm_compute. reflexivity. Qed.
