(* ===== verification/Compare.v ===== *)
(** The fidelity comparison ([src/tools/compare.rs]): two captures are decoded by the crate's
    own readers, the console's answers through a session over the recorded bytes
    ([MemoryTransport], one byte a read) and the client's requests by the request decoder,
    and compared by meaning: values and definitions per node, request ends, meter frames.

    When keep-alives fall due and when a read's deadline passes are inputs.  A deviation is
    data; of its text the labels of ids are modelled, not the quoting of strings. *)

From stdpp Require Import gmap sets.
From S2P Require Import Prelude Sort Text Bytes Lib F32 Redact Channel NodeDef NodeData Meter NativeRequest NativeResponse ResponseReader ClientReader EmbeddedMap.
Local Open Scope Z_scope.
Local Open Scope rust_scope.

(** ** What a capture's answers say *)

Module Values.
Inductive Value := Integer (v : Z) | Float (bits : Z) | String (s : list byte).
End Values.
Abbreviation Value := Values.Value.

#[export] Instance Value_eq_dec : EqDecision Value.
Proof. solve_decision. Defined.

Definition from_node (data : WingNodeData) : Value :=
  if has_string data then Values.String (get_string data)
  else if has_float data then Values.Float (f32_bits (get_float data))
  else Values.Integer (get_int data).

Record Control := mk_control {
  values : gmap Z (list Value);
  definitions : gmap Z (gset (list byte));
  request_ends : nat;
}.

#[export] Instance Control_eq_dec : EqDecision Control.
Proof. solve_decision. Defined.

Definition no_control : Control := mk_control ∅ ∅ 0.

(** The arms of the loop for a response that was read. *)
Definition note_response (control : Control) (response : WingResponse) : Result Control :=
  match response with
  | WingResponses.NodeData id data =>
    Ok (mk_control (<[id := default [] (values control !! id) ++ [from_node data]]> (values control))
          (definitions control) (request_ends control))
  | WingResponses.NodeDef def =>
    let? wire := to_wire_bytes def in
    Ok (mk_control (values control)
          (<[def_id def := {[wire]} ∪ default ∅ (definitions control !! def_id def)]> (definitions control))
          (request_ends control))
  | WingResponses.RequestEnd =>
    Ok (mk_control (values control) (definitions control) (S (request_ends control)))
  end.

Inductive DecodeError := Truncated | Failed (e : Error).

#[export] Instance DecodeError_eq_dec : EqDecision DecodeError.
Proof. solve_decision. Defined.

(** The payloads of the events on a channel. *)
Definition payloads (channel : list byte) (events : list CaptureEvent) : list (list byte) :=
  map snd (filter (λ e, e.1 = channel) events).

Section Decode.

(** Whether a keep-alive is due before the [i]-th socket read, and the deadline of the
    [i]-th call of [read_timeout]. *)
Context (due : nat → bool) (deadlines : nat → Deadline).

(** [MemoryTransport]: a read takes one byte, and fails when there is none. *)
Definition keep_alive_at (i : nat) : option (option ErrorKind) := if due i then Some None else None.

Definition memory_passes (bytes : list byte) : list Pass :=
  imap (λ i b, mk_pass (keep_alive_at i) None (Received [b])) bytes
  ++ [mk_pass (keep_alive_at (length bytes)) None (ReadFailed OtherKind)].

(** [bytes_read]. *)
Definition bytes_read (total : nat) (s : Session) : nat := total - length (incoming s).

Fixpoint control_loop (fuel i total : nat) (control : Control) (s : Session)
    : option (result DecodeError Control) :=
  match fuel with
  | O => None
  | S fuel =>
    match read_timeout (deadlines i) s with
    | (Ok response, s') =>
      match note_response control response with
      | Ok control => control_loop fuel (S i) total control s'
      | Err e => Some (Err (Failed e))
      end
    | (Err (Fail (Io OtherKind)), s') =>
      if (bytes_read total s' =? bytes_read total s)%nat then Some (Ok control) else Some (Err Truncated)
    | (Err (Fail e), _) => Some (Err (Failed e))
    | (Err Blocked, _) => None
    end
  end.

(** A wire byte decodes to two bytes at most, and every response takes one. *)
Definition decode_control (events : list CaptureEvent) : option (result DecodeError Control) :=
  let bytes := concat (payloads (str "N<") events) in
  control_loop (2 + 2 * length bytes) 0 (length bytes) no_control (new_session (memory_passes bytes)).

End Decode.

(** ** What its requests say *)

Fixpoint push_chunks (chunks : list (list byte)) : DM (list NativeRequest) :=
  match chunks with
  | [] => ret []
  | bytes :: chunks =>
    let! requests := decoder_push bytes in
    let! more := push_chunks chunks in
    ret (requests ++ more)
  end.

Definition is_keep_alive (request : NativeRequest) : bool :=
  match request with NativeRequests.KeepAlive _ => true | _ => false end.

Definition decode_requests (events : list CaptureEvent) (channel : list byte) : Result (list NativeRequest) :=
  match push_chunks (payloads channel events) (decoder_new default_limits) with
  | (Err e, _) => Err e
  | (Ok pushed, decoder) =>
    match flush decoder with
    | (Err e, _) => Err e
    | (Ok flushed, decoder) =>
      let? _ := decoder_finish decoder in
      Ok (List.filter (λ r, negb (is_keep_alive r)) (pushed ++ flushed))
    end
  end.

(** ** Meters *)

Record MeterShape := mk_shape { report_token : bool; payload_bytes : nat }.

#[export] Instance MeterShape_eq_dec : EqDecision MeterShape.
Proof. solve_decision. Defined.

Definition shape_words (s : MeterShape) : option nat :=
  if Nat.even (payload_bytes s) then Some (Nat.div2 (payload_bytes s)) else None.

Inductive MeterCardinality := Replaces | Concurrent | Ambiguous.

#[export] Instance MeterCardinality_eq_dec : EqDecision MeterCardinality.
Proof. solve_decision. Defined.

Record MeterEvidence := mk_meter_evidence { shapes : list MeterShape; cardinality : MeterCardinality }.

Definition meter_shape (bytes : list byte) : MeterShape :=
  let report_token := (4 <=? length bytes)%nat in
  mk_shape report_token (length bytes - (if report_token then 4 else 0)).

(** The report ids subscribed to, in order. *)
Definition subscribed_ids (requests : list NativeRequest) : list Z :=
  omap (λ r, match r with
             | NativeRequests.MeterSubscribe _ report_id _ => Some (Z.land report_id 0xffff0000)
             | _ => None
             end) requests.

Definition frame_token (bytes : list byte) : option Z :=
  if (4 <=? length bytes)%nat then Some (from_be (take 4 bytes)) else None.

Definition cardinality_of (subscribed : list Z) (tokens : gset Z) : MeterCardinality :=
  let distinct : gset Z := list_to_set subscribed in
  if (size distinct <? 2)%nat then Ambiguous
  else if (2 <=? size (tokens ∩ distinct))%nat then Concurrent
  else match list.last subscribed with
       | Some latest => if bool_decide (size tokens = 1%nat ∧ latest ∈ tokens) then Replaces else Ambiguous
       | None => Ambiguous
       end.

Definition meter_evidence (events : list CaptureEvent) (requests : list NativeRequest) : MeterEvidence :=
  let frames := payloads (str "M<") events in
  mk_meter_evidence (map meter_shape frames)
    (cardinality_of (subscribed_ids requests) (list_to_set (omap frame_token frames))).

(** [requests]: what was decoded, of the streams that could be. *)
Definition requests (native meter : Result (list NativeRequest)) : list NativeRequest :=
  match native with Ok rs => rs | Err _ => [] end ++ match meter with Ok rs => rs | Err _ => [] end.

(** ** Deviations *)

Inductive Stream := ControlStream | NativeStream | MeterStream.
Inductive Side := Hardware | Emulator.

(** A line of the report. *)
Inductive Deviation :=
| BothFailed (stream : Stream) (e : DecodeError)
| SideFailed (side : Side) (stream : Stream) (e : DecodeError)
| MissingNode (id : Z) (present_on : Side)
| ValueDiffers (id : Z) (hardware emulator : list Value)
| MissingData (id : Z) (present_on : Side)
| MissingDefinition (id : Z) (present_on : Side)
| DefinitionDiffers (id : Z)
| RequestEndCount (hardware emulator : nat)
| FrameCount (hardware emulator : nat)
| FrameShape (frame : nat) (hardware emulator : MeterShape)
| CardinalityDiffers (hardware emulator : MeterCardinality).

Definition observed_ids (control : Control) : gset Z := dom (values control) ∪ dom (definitions control).

(** The iteration of a [BTreeSet]. *)
Definition ascending (ids : gset Z) : list Z := sort_by Z.leb (elements ids).

Definition compare_values (hardware emulator : Control) (id : Z) : list Deviation :=
  match values hardware !! id, values emulator !! id with
  | Some hw, Some emu => if decide (hw = emu) then [] else [ValueDiffers id hw emu]
  | Some _, None => [MissingData id Hardware]
  | None, Some _ => [MissingData id Emulator]
  | None, None => []
  end.

Definition compare_definitions (hardware emulator : Control) (id : Z) : list Deviation :=
  match definitions hardware !! id, definitions emulator !! id with
  | Some _, None => [MissingDefinition id Hardware]
  | None, Some _ => [MissingDefinition id Emulator]
  | Some hw, Some emu => if decide (hw = emu) then [] else [DefinitionDiffers id]
  | None, None => []
  end.

Definition compare_control (hardware emulator : Control) : list Deviation :=
  let hardware_ids := observed_ids hardware in
  let emulator_ids := observed_ids emulator in
  map (λ id, MissingNode id Hardware) (ascending (hardware_ids ∖ emulator_ids))
  ++ map (λ id, MissingNode id Emulator) (ascending (emulator_ids ∖ hardware_ids))
  ++ concat (map (compare_values hardware emulator) (ascending (hardware_ids ∩ emulator_ids)))
  ++ concat (map (compare_definitions hardware emulator) (ascending (hardware_ids ∩ emulator_ids)))
  ++ (if (request_ends hardware =? request_ends emulator)%nat then []
      else [RequestEndCount (request_ends hardware) (request_ends emulator)]).

(** [report_decode_failures], for the requests of a stream; the first arms of the match on
    the controls do the same. *)
Definition report_decode_failures {A} (stream : Stream) (hardware emulator : result DecodeError A) : list Deviation :=
  match hardware, emulator with
  | Err hw, Err emu => if decide (hw = emu) then [BothFailed stream hw] else [SideFailed Hardware stream hw]
  | Err e, Ok _ => [SideFailed Hardware stream e]
  | Ok _, Err e => [SideFailed Emulator stream e]
  | Ok _, Ok _ => []
  end.

Fixpoint compare_shapes (frame : nat) (hardware emulator : list MeterShape) : list Deviation :=
  match hardware, emulator with
  | hw :: hardware, emu :: emulator =>
    (if decide (hw = emu) then [] else [FrameShape frame hw emu]) ++ compare_shapes (S frame) hardware emulator
  | _, _ => []
  end.

Definition compare_meters (hardware emulator : list MeterShape) : list Deviation :=
  (if (length hardware =? length emulator)%nat then [] else [FrameCount (length hardware) (length emulator)])
  ++ compare_shapes 1 hardware emulator.

Record FidelityReport := mk_report {
  hardware_events : nat; emulator_events : nat; deviations : list Deviation;
  hardware_cardinality : MeterCardinality; emulator_cardinality : MeterCardinality }.

Definition failed {A} (r : Result A) : result DecodeError A :=
  match r with Ok a => Ok a | Err e => Err (Failed e) end.

Definition compare_fidelity (due : nat → bool) (deadlines : nat → Deadline)
    (hardware emulator : list CaptureEvent) : option FidelityReport :=
  hardware_control ← decode_control due deadlines hardware;
  emulator_control ← decode_control due deadlines emulator;
  let hardware_requests := decode_requests hardware (str "N>") in
  let emulator_requests := decode_requests emulator (str "N>") in
  let hardware_meter_requests := decode_requests hardware (str "M>") in
  let emulator_meter_requests := decode_requests emulator (str "M>") in
  let hardware_meter := meter_evidence hardware (requests hardware_requests hardware_meter_requests) in
  let emulator_meter := meter_evidence emulator (requests emulator_requests emulator_meter_requests) in
  Some (mk_report (length hardware) (length emulator)
    (match hardware_control, emulator_control with
     | Ok hw, Ok emu => compare_control hw emu
     | _, _ => report_decode_failures ControlStream hardware_control emulator_control
     end
     ++ report_decode_failures NativeStream (failed hardware_requests) (failed emulator_requests)
     ++ report_decode_failures MeterStream (failed hardware_meter_requests) (failed emulator_meter_requests)
     ++ compare_meters (shapes hardware_meter) (shapes emulator_meter)
     ++ (if decide (cardinality hardware_meter = cardinality emulator_meter) then []
         else [CardinalityDiffers (cardinality hardware_meter) (cardinality emulator_meter)]))
    (cardinality hardware_meter) (cardinality emulator_meter)).

(** ** Labels *)

Fixpoint common_prefix (a b : list (list byte)) : nat :=
  match a, b with
  | x :: a, y :: b => if bytes_eqb x y then S (common_prefix a b) else O
  | _, _ => O
  end.

Definition slash : byte := Byte.x2f.

(** [common_slot], of [first] and the other paths. *)
Definition common_slot (first : list byte) (others : list (list byte)) : list byte :=
  let first := split_on slash first in
  let shared := foldl (λ shared path, Nat.min shared (common_prefix first (split_on slash path))) (length first) others in
  join slash (take shared first).

Definition describe_id `{EmbeddedMap} (id : Z) : list byte :=
  match defs_by_id id with
  | Some [(path, _)] => str "path=" ++ path ++ str " id=" ++ dec id
  | Some ((_ :: _) as defs) =>
    match sort_by bytes_le (map fst defs) with
    | first :: others =>
      str "slot=" ++ common_slot first others ++ str "/* id=" ++ dec id ++ str " ("
      ++ dec (Z.of_nat (length (first :: others))) ++ str " model variants, e.g. " ++ first ++ str ")"
    | [] => []
    end
  | _ => str "id=" ++ dec id
  end.

(** ** Tests *)

Definition never (_ : nat) : bool := false.
Definition unbounded (_ : nat) : Deadline := None.
Definition answers (w : list byte) : list CaptureEvent := [(str "N<", w)].
Definition count_deviations (hardware emulator : list CaptureEvent) : option nat :=
  length ∘ deviations <$> compare_fidelity never unbounded hardware emulator.

Example truncated_value : decode_control never unbounded (answers (map b8 [0xdf; 0xd1; 0xd7; 0])) = Some (Err Truncated).
Proof. vm_compute. reflexivity. Qed.

(** An empty batch, or a channel switch at the end of a capture, is reported as a response
    that was cut off. *)
Example trailing_switch_truncated :
  encode_responses [] = Ok (map b8 [0xdf; 0xd1])
  ∧ decode_control never unbounded (answers (map b8 [0xdf; 0xd1])) = Some (Err Truncated)
  ∧ decode_control never unbounded (answers (map b8 [0xde; 0xdf; 0xd1])) = Some (Err Truncated).
Proof. vm_compute. done. Qed.

(** An unescaped escape byte is decoded together with the byte after it: a response that is
    cut off right there goes unnoticed; cut one byte later it is reported. *)
Example truncation_unnoticed :
  let first := map b8 [0xd7; 0; 0; 0; 7; 0xd3; 1; 0xdf] in
  (match decode_control never unbounded (answers (first ++ [b8 0x80])) with
   | Some (Ok control) => values control !! 7
   | _ => None
   end) = Some [Values.Integer 0x1df]
  ∧ decode_control never unbounded (answers (first ++ map b8 [0x81; 0x61])) = Some (Err Truncated).
Proof. vm_compute. done. Qed.

Example one_deviation :
  count_deviations (answers (map b8 [0xdf; 0xd1; 0xd7; 0; 0; 0; 7; 1])) (answers (map b8 [0xdf; 0xd1; 0xd7; 0; 0; 0; 7; 2])) = Some 1%nat
  ∧ count_deviations (answers (map b8 [0xdf; 0xd1; 0xd7; 0; 0; 0; 7; 1])) (answers (map b8 [0xdf; 0xd1; 0xd7; 0; 0; 0; 7; 1])) = Some 0%nat.
Proof. vm_compute. done. Qed.

Example slot : common_slot (str "/ch/30/eq/STD/f") [str "/ch/30/eq/E88/f"; str "/ch/30/eq/SOUL/lf"] = str "/ch/30/eq".
Proof. vm_compute. reflexivity. Qed.

(** ** Lemmas: the wire behind a session *)

Definition step (d : ChannelDecoder) (b : byte) : ChannelDecoder := (push_byte d b).2.

(** From [s] to [s'] bytes were taken from the front of the wire, and decoded. *)
Definition wire_left (s : Session) : list byte := rx_buf (main s) ++ incoming s.
Definition wire_moves (s s' : Session) : Prop :=
  ∃ taken, wire_left s = taken ++ wire_left s' ∧ rx_channels (main s') = foldl step (rx_channels (main s)) taken.

#[export] Instance wire_moves_preorder : PreOrder wire_moves.
Proof.
  split; [by intros s; exists []|]. intros s1 s2 s3 (a & Ha & Hd) (b & Hb & He).
  exists (a ++ b). by rewrite Ha, Hb, (assoc_L (++)), foldl_app, <- Hd.
Qed.

Lemma keeps_wire_moves s s' : keeps s s' → wire_moves s s'.
Proof. intros []. exists []. by unfold wire_left. Qed.

Lemma deliver_byte_wire x s r s' : deliver_byte x s = (r, s') → wire_moves s s'.
Proof. rewrite deliver_byte_eq. case_match; intros [= <- <-]; by exists []. Qed.

Lemma decode_buffered_wire b rest s r s' :
  rx_buf (main s) = b :: rest → decode_buffered b rest s = (r, s') → wire_moves s s'.
Proof.
  intros Hb. unfold decode_buffered, gets, bind, modify. cbv beta iota.
  destruct (push_byte (rx_channels (main s)) b) as [events d'] eqn:E.
  set (s1 := on_main (λ m, set_channels d' (set_rx_buf rest m)) s).
  assert (wire_moves s s1) as H1.
  { exists [b]. unfold wire_left. rewrite Hb. cbn [foldl]. unfold step. by rewrite E. }
  destruct events as [[first second]|e]; cbn [fallible throw]; [|by intros [= <- <-]].
  cbv beta iota. cbn [ret fst snd].
  set (s2 := on_main _ s1). assert (wire_moves s1 s2) as H2 by (exists []; by destruct second).
  rewrite H1. intros H. etransitivity; [exact H2|]. revert H. destruct first as [[|c v]|].
  - by intros [= <- <-].
  - destruct (c =? AUDIO_ENGINE_CHANNEL); [apply deliver_byte_wire|by intros [= <- <-]].
  - by intros [= <- <-].
Qed.

Lemma decode_turn_wire s r s' : decode_turn s = (Ok r, s') → wire_moves s s'.
Proof.
  unfold decode_turn, bind at 1. destruct (load_reconnecting_keeps s) as (b & s1 & -> & K1 & _).
  rewrite (keeps_wire_moves _ _ K1). destruct b; [done|]. unfold gets, bind at 1. cbv beta iota.
  destruct (replay (main s1)) as [|x replay].
  2: { unfold bind, modify. cbv beta iota. intros H%deliver_byte_wire.
       etransitivity; [|exact H]. by exists []. }
  destruct (pop_audio (rx_events (main s1))) as [audio events].
  unfold bind at 1, modify at 1. cbv beta iota. set (s2 := on_main (set_events events) s1).
  assert (wire_moves s1 s2) as H12 by by exists []. rewrite H12.
  destruct audio as [v|]; [apply deliver_byte_wire|].
  destruct (rx_buf (main s1)) as [|b rest] eqn:Eb; [|by apply decode_buffered_wire].
  unfold bind at 1. pose proof (refill_spec s2 Eb) as Hf. destruct (refill s2) as [[[]|e] s3]; [| |done].
  - destruct Hf as (K & (b & rest & Eb3) & _). unfold bind at 1. cbv beta iota. rewrite Eb3.
    rewrite (keeps_wire_moves _ _ K). by apply decode_buffered_wire.
  - intros [= <- <-]. by apply keeps_wire_moves, Hf.
Qed.

Lemma next_byte_wire : Preserves (λ _, False) wire_moves (next_byte (S := Session)).
Proof.
  intros s. cbn [next_byte session_source]. unfold decode_next, decode_next_inner, bind at 1 2.
  destruct (decode_loop (S (backlog s)) s) as [[x|e] s1] eqn:E; [|done].
  assert (wire_moves s s1) as H1.
  { revert E. generalize (S (backlog s)). intros n. revert s. induction n as [|n IH]; intros s; [done|].
    cbn [decode_loop]. unfold bind. destruct (decode_turn s) as [[[y|]|e] s2] eqn:Et; [| |done].
    - intros [= <- <-]. by eapply decode_turn_wire.
    - intros H. etransitivity; [by eapply decode_turn_wire|by apply IH]. }
  unfold gets, bind. cbv beta iota. destruct (capture (main s1)) as [cap|]; [|exact H1].
  unfold ensure_native_response_capacity. destruct (_ <=? _); cbn; [by intros []|exact H1].
Qed.

Lemma read_inner_wire s r s' : read_inner s = (Ok r, s') → wire_moves s s'.
Proof.
  intros E. pose proof (preserves_read_inner (λ _, False) wire_moves next_byte_wire) as H.
  specialize (H ltac:(by intros i t; exists []) s). by rewrite E in H.
Qed.

(** ** Lemmas: a bounded read at the end of a capture *)

Record reading (s : Session) : Prop := {
  rd_ok : session_ok s;
  rd_ends : ends s;
  rd_untainted : stream_tainted s = false;
  rd_pending : pending (main s) = [];
}.

(** One call of [read_timeout] whose deadline does not pass. *)
Lemma read_unbounded s :
  reading s →
  match read_timeout None s with
  | (Ok r, s') => reading s' ∧ wire_moves s s' ∧ read_inner (stream_of s) = (Ok r, stream_of s')
  | (Err (Fail InvalidData), _) => (read_inner (stream_of s)).1 = Err (Fail InvalidData)
  | (Err (Fail (Io OtherKind)), s') => (read_inner (stream_of s)).1 = Err Blocked ∧ incoming s' = []
  | _ => False
  end.
Proof.
  intros [Hok Hends Ht Hp]. unfold read_timeout, with_deadline, read_locked, gets, bind. cbv beta iota.
  set (s1 := on_main (set_deadline (Some None)) s). change (stream_tainted s1) with (stream_tainted s). rewrite Ht.
  unfold load_reconnecting. change (reconnecting s1) with (reconnecting s). destruct Hends as (Hr & Hd & Hsc).
  rewrite Hr. cbn [look]. set (s2 := set_reconnecting None s1). change (pending (main s2)) with (pending (main s)).
  rewrite Hp. set (s3 := on_main (set_read_capture []) s2).
  assert (ends s3) as He3 by done.
  assert (source_inv s3) as Hi3 by (by apply (session_ok_cleared s)).
  change (stream_of s) with (stream_of s3).
  pose proof (read_ending_stream s3 He3 Hi3) as Hs. pose proof (ends_read_inner s3 (conj He3 Hi3)) as He.
  destruct (read_inner_moves s3 Hi3 Hi3) as [Hi4 [l Hl]].
  pose proof (read_inner_wire s3) as Hw.
  pose proof (read_same_stream s3 (stream_of s3) (conj Hi3 eq_refl)) as Hsim.
  destruct (read_inner s3) as [[r|e] s4].
  - cbn [finish_read snd] in *. destruct Hsim as (l' & E & _ & <-). split_and!.
    + destruct He as [(? & ? & ?) _]. split; [|by split_and!| |].
      * apply (moves_session_ok l s s4); [apply Hi4| |done]. by destruct Hl.
      * exact (eq_trans (mov_tainted _ _ _ Hl) Ht).
      * exact (eq_trans (mov_pending _ _ _ Hl) Hp).
    + exact (Hw r s4 eq_refl).
    + exact E.
  - destruct He as [->|(-> & Hin & _ & Hrec)].
    + rewrite decide_True in Hs by done. exact Hs.
    + rewrite decide_False in Hs by done. cbn [finish_read severed].
      unfold load_reconnecting, bind. cbn. rewrite Hrec. cbn. done.
Qed.

(** ** The specification of the decoding *)

(** The responses of a stream, what is left after them, and why they end there. *)
Inductive parses : ByteStream → list WingResponse → ByteStream → Stop → Prop :=
| parses_end l e : (read_inner l).1 = Err e → parses l [] l e
| parses_next l r l1 rs l2 e : read_inner l = (Ok r, l1) → parses l1 rs l2 e → parses l (r :: rs) l2 e.

Lemma parses_unique l rs l' e rs2 l2 e2 : parses l rs l' e → parses l rs2 l2 e2 → rs = rs2 ∧ l' = l2 ∧ e = e2.
Proof.
  intros H. revert rs2 l2 e2. induction H as [l e H|l r l1 rs l' e H _ IH]; intros rs2 l2 e2 H2;
    inversion H2; subst;
    try match goal with E : read_inner _ = _, F : (read_inner _).1 = _ |- _ => by rewrite E in F end.
  - split_and!; congruence.
  - match goal with E : read_inner l = _ |- _ => rewrite H in E end. simplify_eq.
    edestruct IH as (-> & -> & ->); [eassumption|]. done.
Qed.

Lemma parses_encoded rs p node :
  Forall response_wf rs → encode_all rs = Ok p →
  ∃ node', parses (mk_stream p node) (map client_view rs) (mk_stream [] node') Blocked.
Proof.
  intros Hrs. revert p node. induction Hrs as [|r rs Hr _ IH]; intros p node.
  { intros [= <-]. exists node. by apply parses_end. }
  cbn [encode_all]. destruct (encode_response r) as [w|] eqn:Ew; [|done].
  destruct (encode_all rs) as [q|]; [|done]. intros [= <-].
  destruct (IH q (node_after node r) eq_refl) as [node' H]. exists node'.
  eapply parses_next; [by apply read_inner_response|exact H].
Qed.

Lemma encode_all_app rs1 rs2 p1 p2 :
  encode_all rs1 = Ok p1 → encode_all rs2 = Ok p2 → encode_all (rs1 ++ rs2) = Ok (p1 ++ p2).
Proof.
  revert p1. induction rs1 as [|r rs1 IH]; intros p1; cbn [encode_all app]; [by intros [= <-] ->|].
  destruct (encode_response r) as [w|]; [|done]. destruct (encode_all rs1) as [q|]; [|done].
  intros [= <-] H2. by rewrite (IH q eq_refl H2), (assoc_L (++)).
Qed.

(** The responses noted one after the other. *)
Fixpoint control_of (control : Control) (responses : list WingResponse) : Result Control :=
  match responses with
  | [] => Ok control
  | r :: responses => let? control := note_response control r in control_of control responses
  end.

(** What the loop returns, given the responses on its stream, what is left after them and
    why they end. *)
Definition loop_ok (s : Session) (control : Control) (rs : list WingResponse) (l : ByteStream) (e : Stop)
    (o : option (result DecodeError Control)) : Prop :=
  match o with
  | Some (Ok c) => e = Blocked ∧ control_of control rs = Ok c
  | Some (Err Truncated) =>
    e = Blocked ∧ is_ok (control_of control rs) = true
    ∧ ∃ s', wire_moves s s' ∧ reader_inv s' ∧ stream_of s' = l ∧ incoming s' ≠ []
  | Some (Err (Failed e')) => control_of control rs = Err e' ∨ e = Fail InvalidData ∧ e' = InvalidData
  | None => False
  end.

Lemma reading_source s : reading s → source_inv (on_main (set_read_capture []) s).
Proof. intros []. by apply session_ok_cleared. Qed.

Lemma wire_moves_incoming s s' total :
  wire_moves s s' → (length (wire_left s) ≤ total)%nat → (length (wire_left s') ≤ total)%nat.
Proof. intros (a & -> & _). rewrite length_app. lia. Qed.

Lemma control_loop_spec fuel i total control s :
  reading s → (length (unread s) < fuel)%nat → (length (wire_left s) ≤ total)%nat →
  ∃ rs l e, parses (stream_of s) rs l e
    ∧ loop_ok s control rs l e (control_loop unbounded fuel i total control s).
Proof.
  revert i control s. induction fuel as [|fuel IH]; intros i control s Hs Hf Hw; [lia|].
  cbn [control_loop]. change (unbounded i) with (@None nat). pose proof (read_unbounded s Hs) as Hr.
  destruct (read_timeout None s) as [[r|[e|]] s']; [| |done].
  - destruct Hr as (Hs' & Hm & E).
    assert (length (unread s') < length (unread s))%nat as Hlt.
    { apply read_inner_less in E as [_ E]; [|done]. cbn [remaining stream_source stream_of stream] in E.
      by rewrite !length_map in E. }
    destruct (IH (S i) (default control (match note_response control r with Ok c => Some c | Err _ => None end))
      s' Hs' ltac:(lia) (wire_moves_incoming _ _ _ Hm Hw)) as (rs & l & e & Hp & Ho).
    exists (r :: rs), l, e. split; [by eapply parses_next|].
    destruct (note_response control r) as [c|e'] eqn:En; cbn [default] in Ho.
    + revert Ho. unfold loop_ok. cbn [control_of]. rewrite En.
      destruct (control_loop _ _ _ _ _ _) as [[c'|[|e']]|]; try done.
      intros (? & ? & t & Ht & ?). split_and!; [done..|]. exists t. split; [by etransitivity|done].
    + cbn. left. by rewrite En.
  - destruct e as [[]| | | | | | | |]; try done.
    + destruct Hr as [E Hin]. exists [], (stream_of s), Blocked. split; [by apply parses_end|].
      unfold bytes_read. rewrite Hin. cbn [length]. unfold wire_left in Hw. rewrite length_app in Hw.
      destruct (Nat.eqb_spec (total - 0) (total - length (incoming s))) as [He|He]; [done|].
      split_and!; [done..|]. exists s. split_and!; [done|by destruct Hs as [[]]|done|].
      intros E0. rewrite E0 in He. cbn in He. lia.
    + exists [], (stream_of s), (Fail InvalidData). split; [by apply parses_end|]. by right.
Qed.

(** *** The session over a recording *)

Lemma memory_wire due w : concat (map pass_bytes (memory_passes due w)) = w.
Proof.
  unfold memory_passes. rewrite map_app, concat_app. cbn [map concat pass_bytes socket_read app]. rewrite app_nil_r.
  assert (∀ n, concat (map pass_bytes (imap (λ i b, mk_pass (keep_alive_at due (n + i)) None (Received [b])) w)) = w) as H.
  { induction w as [|b w IH]; intros n; [done|]. cbn [imap map concat pass_bytes socket_read app]. f_equal.
    erewrite (imap_ext _ (λ i b, mk_pass (keep_alive_at due (S n + i)) None (Received [b]))); [apply IH|].
    intros. cbn. do 2 f_equal. lia. }
  exact (H 0%nat).
Qed.

Lemma memory_ending due w : ending (memory_passes due w).
Proof.
  unfold memory_passes. eexists _, _. split; [done|]. split; [|unfold keep_alive_at; by destruct (due _)].
  apply Forall_lookup. intros i p. rewrite list_lookup_imap. intros (b & _ & ->)%fmap_Some.
  unfold pass_clean, keep_alive_at. cbn. by destruct (due i).
Qed.

Lemma decoded_length d w :
  is_Some (channel d) → (length (decoded d w) ≤ (if escaped d then 1 else 0) + length w)%nat.
Proof.
  revert d. induction w as [|b w IH]; intros d Hd; [unfold decoded; simpl; lia|].
  destruct (decoded_cons d b w Hd) as ([p1 p2] & d' & E & Hd' & ->). specialize (IH d' Hd').
  rewrite length_app. cbn [length]. unfold flatten_events. cbn [fst snd].
  assert (length (omap audio_of (option_list p1 ++ option_list p2)) + (if escaped d' then 1 else 0)
    ≤ (if escaped d then 1 else 0) + 1)%nat; [|simpl in *; lia].
  revert E. unfold push_byte. destruct (escaped d) eqn:Es; cbn [negb]; destruct (channel d); repeat case_match;
    intros [= <- <- <-]; cbn; repeat case_match; simplify_eq/=; first [congruence | lia].
Qed.

(** The audio-engine bytes of a recording. *)
Definition recorded_stream (w : list byte) : ByteStream :=
  mk_stream (map snd (decoded (on_channel AUDIO_ENGINE_CHANNEL) w)) 0.

Definition recorded_wire (events : list CaptureEvent) : list byte := concat (payloads (str "N<") events).

Lemma decode_control_spec due events :
  let w := recorded_wire events in
  Z.of_nat (length (stream (recorded_stream w))) ≤ MAX_NATIVE_RESPONSE_BYTES →
  ∃ rs l e, parses (recorded_stream w) rs l e
    ∧ loop_ok (new_session (memory_passes due w)) no_control rs l e (decode_control due unbounded events).
Proof.
  intros w Hlen. unfold decode_control. fold (recorded_wire events). fold w.
  set (s := new_session (memory_passes due w)).
  assert (incoming s = w) as Hin by apply memory_wire.
  assert (unread s = decoded (on_channel AUDIO_ENGINE_CHANNEL) w) as Hu by (unfold unread; rewrite Hin; done).
  assert (stream_of s = recorded_stream w) as <- by (unfold stream_of; by rewrite Hu).
  apply control_loop_spec.
  - split; [|split_and!; [done..|apply memory_ending]|done|done].
    split; [by eexists|]. split; [|done]. rewrite Hu. cbn [stream recorded_stream] in Hlen. by rewrite length_map in Hlen.
  - rewrite Hu. pose proof (decoded_length (on_channel AUDIO_ENGINE_CHANNEL) w ltac:(by eexists)) as H. simpl in H. lia.
  - unfold wire_left. by rewrite Hin.
Qed.

(** *** A recording of whole batches *)

(** Wherever the wire is cut, what follows the cut decodes to something. *)
Fixpoint busy (d : ChannelDecoder) (w : list byte) : Prop :=
  match w with [] => True | b :: rest => decoded d w ≠ [] ∧ busy (step d b) rest end.

Lemma busy_foldl d a w : busy d (a ++ w) → busy (foldl step d a) w.
Proof. revert d. induction a as [|b a IH]; intros d; [done|]. intros [_ H]. by apply IH. Qed.

Lemma decoded_cat d a w ea d' :
  push d a = (Ok ea, d') → is_Some (channel d') → decoded d (a ++ w) = omap audio_of ea ++ decoded d' w.
Proof.
  intros E Hd. unfold decoded. rewrite (push_app_ok d a w ea d') by done.
  destruct (push_selected_ok d' w Hd) as (eb & d2 & -> & _). by rewrite omap_app.
Qed.

Lemma decoded_frame p w :
  decoded (on_channel AUDIO_ENGINE_CHANNEL) (batch_frame p ++ w)
  = map (pair AUDIO_ENGINE_CHANNEL) p ++ decoded (on_channel AUDIO_ENGINE_CHANNEL) w.
Proof.
  assert (push (on_channel AUDIO_ENGINE_CHANNEL) (batch_frame p)
    = (Ok (Selected AUDIO_ENGINE_CHANNEL :: map (Data AUDIO_ENGINE_CHANNEL) p), on_channel AUDIO_ENGINE_CHANNEL)) as E.
  { unfold batch_frame. erewrite push_app_ok by (apply push_select; done). by rewrite push_escape. }
  rewrite (decoded_cat _ _ _ _ _ E) by by eexists. f_equal. cbn.
  clear E. induction p as [|b p IH]; [done|]. cbn [map omap list_omap audio_of].
  rewrite Z.eqb_refl. f_equal. exact IH.
Qed.

Lemma busy_payload p w :
  busy (on_channel AUDIO_ENGINE_CHANNEL) w → busy (on_channel AUDIO_ENGINE_CHANNEL) (escape p ++ w).
Proof.
  intros Hw. induction p as [|b p IH]; [done|]. rewrite escape_cons, <- (assoc_L (++)).
  set (v := escape p ++ w) in *. unfold escape_byte. destruct (u8 b =? ESCAPE) eqn:E; bool_hyps.
  - apply ESCAPE_byte in E as ->. cbn [app busy]. split_and!.
    + change (b8 ESCAPE :: b8 ESCAPED_ESCAPE :: v) with ([b8 ESCAPE; b8 ESCAPED_ESCAPE] ++ v).
      by erewrite decoded_cat; [|reflexivity|by eexists].
    + change (b8 ESCAPED_ESCAPE :: v) with ([b8 ESCAPED_ESCAPE] ++ v).
      by erewrite decoded_cat; [|reflexivity|by eexists].
    + exact IH.
  - pose proof (push_plain AUDIO_ENGINE_CHANNEL b E) as Hp. cbn [app busy]. split.
    + change (b :: v) with ([b] ++ v). by erewrite decoded_cat; [|exact Hp|by eexists].
    + unfold step. cbn [push] in Hp. destruct (push_byte (on_channel AUDIO_ENGINE_CHANNEL) b) as [[]?]; [|done].
      by injection Hp as _ ->.
Qed.

Lemma busy_frame p w :
  p ≠ [] → busy (on_channel AUDIO_ENGINE_CHANNEL) w → busy (on_channel AUDIO_ENGINE_CHANNEL) (batch_frame p ++ w).
Proof.
  intros Hp Hw. unfold batch_frame. rewrite <- (assoc_L (++)). pose proof (busy_payload p w Hw) as Hb.
  assert (decoded (on_channel AUDIO_ENGINE_CHANNEL) (escape p ++ w) ≠ []) as Hn.
  { destruct (escape p ++ w) eqn:E; [|by destruct Hb]. destruct p as [|b p]; [done|].
    rewrite escape_cons in E. unfold escape_byte in E. by destruct (_ =? _) in E. }
  set (v := escape p ++ w) in *. cbn [app busy]. split_and!.
  - change (b8 ESCAPE :: b8 (CHANNEL_BASE + 1) :: v) with ([b8 ESCAPE; b8 (CHANNEL_BASE + 1)] ++ v).
    by erewrite decoded_cat; [|reflexivity|by eexists].
  - change (b8 (CHANNEL_BASE + 1) :: v) with ([b8 (CHANNEL_BASE + 1)] ++ v).
    by erewrite decoded_cat; [|reflexivity|by eexists].
  - exact Hb.
Qed.

(** What the server encoded: batches of one response or more. *)
Record batches (responses : list (list NativeResponse)) (wires : list (list byte)) : Prop := {
  bt_wf : Forall (Forall response_wf) responses;
  bt_some : Forall (λ rs, rs ≠ []) responses;
  bt_encoded : Forall2 (λ rs w, ∃ max, max < USIZE_MAX ∧ encode_responses_bounded rs max = Ok w) responses wires;
}.

Lemma encode_responses_frame rs max w :
  max < USIZE_MAX → encode_responses_bounded rs max = Ok w → ∃ p, encode_all rs = Ok p ∧ w = batch_frame p.
Proof.
  intros Hm. rewrite encode_responses_bounded_exact by done. destruct (encode_all rs) as [p|]; [|done].
  destruct (decide _); [|done]. intros [= <-]. eauto.
Qed.

Lemma encode_all_some rs p : Forall response_wf rs → encode_all rs = Ok p → rs ≠ [] → p ≠ [].
Proof.
  intros Hrs Hp Hn ->. apply Hn. pose proof (parse_encoded rs [] 0 Hrs Hp) as H. by destruct rs.
Qed.

Lemma batches_wire responses wires :
  batches responses wires →
  ∃ p, encode_all (concat responses) = Ok p
    ∧ decoded (on_channel AUDIO_ENGINE_CHANNEL) (concat wires) = map (pair AUDIO_ENGINE_CHANNEL) p
    ∧ busy (on_channel AUDIO_ENGINE_CHANNEL) (concat wires).
Proof.
  intros [Hwf Hsome Henc]. induction Henc as [|rs w responses wires Hw _ IH]; [by exists []|].
  apply Forall_cons_iff in Hwf as [Hrs Hwf]. apply Forall_cons_iff in Hsome as [Hn Hsome].
  destruct (IH Hwf Hsome) as (q & Hq & Hdec & Hb). destruct Hw as (max & Hm & Hw).
  apply encode_responses_frame in Hw as (p & Hp & ->); [|done].
  exists (p ++ q). cbn [concat]. split_and!.
  - by apply encode_all_app.
  - by rewrite decoded_frame, Hdec, map_app.
  - apply busy_frame; [|done]. by eapply encode_all_some.
Qed.

(** ** Lemmas: what is compared *)

(** What the responses of a capture amount to, node by node. *)
Definition values_seen (id : Z) (responses : list WingResponse) : list Value :=
  omap (λ r, match r with
             | WingResponses.NodeData id' data => if id' =? id then Some (from_node data) else None
             | _ => None
             end) responses.

Definition definitions_seen (id : Z) (responses : list WingResponse) : gset (list byte) :=
  list_to_set (omap (λ r, match r with
                          | WingResponses.NodeDef def =>
                            if def_id def =? id then match to_wire_bytes def with Ok w => Some w | Err _ => None end else None
                          | _ => None
                          end) responses).

Definition ends_seen (responses : list WingResponse) : nat :=
  length (filter (λ r, r = WingResponses.RequestEnd) responses).

Lemma control_of_spec control responses control' :
  control_of control responses = Ok control' →
  (∀ id, default [] (values control' !! id) = default [] (values control !! id) ++ values_seen id responses)
  ∧ (∀ id, default ∅ (definitions control' !! id) = default ∅ (definitions control !! id) ∪ definitions_seen id responses)
  ∧ request_ends control' = (request_ends control + ends_seen responses)%nat.
Proof.
  revert control. induction responses as [|r rs IH]; intros control; cbn [control_of].
  { intros [= <-]. split_and!; intros; cbn; [by rewrite app_nil_r|set_solver|lia]. }
  destruct r as [|def|id data]; cbn [note_response].
  - intros (Hv & Hd & He)%IH. split_and!; [exact Hv|exact Hd|]. rewrite He. unfold ends_seen.
    rewrite filter_cons_True by done. simpl. lia.
  - destruct (to_wire_bytes def) as [w|] eqn:Ew; [|done]. intros (Hv & Hd & He)%IH.
    split_and!; [exact Hv| |exact He]. intros id. rewrite Hd. unfold definitions_seen. cbn.
    destruct (Z.eqb_spec (def_id def) id) as [->|Hne].
    + rewrite lookup_insert_eq, Ew. cbn. set_solver.
    + by rewrite lookup_insert_ne.
  - intros (Hv & Hd & He)%IH. split_and!; [|exact Hd|exact He]. intros id'. rewrite Hv. unfold values_seen. cbn.
    destruct (Z.eqb_spec id id') as [->|Hne].
    + rewrite lookup_insert_eq. cbn. by rewrite <- (assoc_L (++)).
    + by rewrite lookup_insert_ne.
Qed.

Lemma elem_of_ascending ids x : x ∈ ascending ids ↔ x ∈ ids.
Proof. unfold ascending. by rewrite elem_of_sort_by, elem_of_elements. Qed.

Lemma map_nil {A B} (f : A → B) l : map f l = [] ↔ l = [].
Proof. by destruct l. Qed.

Lemma ascending_nil ids : ascending ids = [] ↔ ids = ∅.
Proof.
  split; [|by intros ->]. intros E. apply set_eq. intros x. rewrite <- elem_of_ascending, E. set_solver.
Qed.

Lemma concat_map_nil {A B} (f : A → list B) l : concat (map f l) = [] ↔ ∀ x, x ∈ l → f x = [].
Proof.
  induction l as [|a l IH]; [set_solver|]. cbn [map concat]. rewrite app_nil, IH. set_solver.
Qed.

Lemma not_observed control id :
  id ∉ observed_ids control → values control !! id = None ∧ definitions control !! id = None.
Proof. unfold observed_ids. rewrite not_elem_of_union, !not_elem_of_dom. done. Qed.

Lemma compare_control_nil hardware emulator : compare_control hardware emulator = [] ↔ hardware = emulator.
Proof.
  unfold compare_control. rewrite !app_nil, !map_nil, !ascending_nil, !concat_map_nil.
  split; [intros (H1 & H2 & Hv & Hd & He)|intros ->].
  - assert (observed_ids hardware = observed_ids emulator) as Ho.
    { clear - H1 H2. apply set_eq. intros x. split; intros Hx; apply dec_stable; intros Hn; set_solver. }
    assert (∀ id, values hardware !! id = values emulator !! id ∧ definitions hardware !! id = definitions emulator !! id) as H.
    { intros id. destruct (decide (id ∈ observed_ids hardware)) as [Hin|Hout].
      - specialize (Hv id). specialize (Hd id). rewrite elem_of_ascending in Hv, Hd.
        assert (id ∈ observed_ids hardware ∩ observed_ids emulator) as Hi by set_solver.
        specialize (Hv Hi). specialize (Hd Hi). revert Hv Hd. unfold compare_values, compare_definitions.
        split; repeat case_match; congruence.
      - destruct (not_observed _ _ Hout) as [-> ->]. rewrite Ho in Hout. by destruct (not_observed _ _ Hout) as [-> ->]. }
    destruct hardware as [v1 d1 n1], emulator as [v2 d2 n2]. cbn in *.
    destruct (Nat.eqb_spec n1 n2); [|done]. f_equal; [apply map_eq; intros; apply H..|done].
  - split_and!; [set_solver..| | |by rewrite Nat.eqb_refl].
    + intros id _. unfold compare_values. destruct (_ !! id); [by rewrite decide_True|done].
    + intros id _. unfold compare_definitions. destruct (_ !! id); [by rewrite decide_True|done].
Qed.

Lemma compare_shapes_nil n hardware emulator :
  length hardware = length emulator → compare_shapes n hardware emulator = [] ↔ hardware = emulator.
Proof.
  revert n emulator. induction hardware as [|h hardware IH]; intros n [|e emulator]; try done.
  intros [= Hl]. cbn [compare_shapes]. rewrite app_nil, IH by done. destruct (decide (h = e)) as [->|]; naive_solver.
Qed.

Lemma compare_meters_nil hardware emulator : compare_meters hardware emulator = [] ↔ hardware = emulator.
Proof.
  unfold compare_meters. rewrite app_nil. destruct (Nat.eqb_spec (length hardware) (length emulator)) as [Hl|Hl].
  - rewrite compare_shapes_nil by done. naive_solver.
  - split; [by intros [? _]|]. by intros ->.
Qed.

Lemma report_decode_failures_nil {A} stream (hardware emulator : result DecodeError A) :
  report_decode_failures stream hardware emulator = [] ↔ is_ok hardware = true ∧ is_ok emulator = true.
Proof.
  destruct hardware, emulator; cbn; [done|split; [done|by intros []]..|]. case_decide; split; [done|by intros []|done|by intros []].
Qed.

Lemma is_ok_failed {A} (r : Result A) : is_ok (failed r) = is_ok r.
Proof. by destruct r. Qed.

(** Requests accepted as a whole are accepted however the stream was recorded. *)
Lemma push_chunks_whole chunks d rs d' :
  decoder_inv d → decoder_push (concat chunks) d = (Ok rs, d') → push_chunks chunks d = (Ok rs, d').
Proof.
  revert d rs. induction chunks as [|c chunks IH]; intros d rs Hd; cbn [concat push_chunks].
  { rewrite decoder_push_spec by done. cbn. case_decide; [|lia]. intros [= <- <-].
    unfold ret. f_equal. by destruct d. }
  intros E. pose proof (decoder_push_app d c (concat chunks) Hd) as H. rewrite E in H.
  destruct H as (r1 & r2 & d1 & E1 & E2 & ->). pose proof (decoder_push_keeps_inv d c Hd) as Hd1.
  rewrite E1 in Hd1. unfold bind. rewrite E1, (IH d1 r2) by (done || apply Hd1). done.
Qed.

(** ** Properties *)

(** What the comparison learns from a recording of the server's batches, in any pieces and
    with keep-alives in between, is what the server sent: the recording is accepted as
    complete, and the values, definitions and request ends it yields are those of the
    responses, noted in order. *)
Theorem decode_control_batches due events responses wires :
  batches responses wires → recorded_wire events = concat wires →
  Z.of_nat (length (concat wires)) ≤ MAX_NATIVE_RESPONSE_BYTES →
  decode_control due unbounded events
  = Some (match control_of no_control (map client_view (concat responses)) with
          | Ok control => Ok control
          | Err e => Err (Failed e)
          end).
Proof.
  intros Hb Hw Hlen. destruct (batches_wire _ _ Hb) as (p & Hp & Hdec & Hbusy).
  assert (Hch : is_Some (channel (on_channel AUDIO_ENGINE_CHANNEL))) by by eexists.
  assert (recorded_stream (recorded_wire events) = mk_stream p 0) as Hst.
  { unfold recorded_stream. rewrite Hw, Hdec, map_map. simpl. by rewrite map_id. }
  destruct (decode_control_spec due events) as (rs & l & e & Hparse & Ho).
  { rewrite Hst. cbn [stream]. pose proof (decoded_length _ (concat wires) Hch) as H.
    rewrite Hdec, length_map in H. simpl in H. lia. }
  assert (Forall response_wf (concat responses)) as Hwf by (apply Forall_concat, Hb).
  destruct (parses_encoded _ p 0 Hwf Hp) as [node Hp2]. rewrite Hst in Hparse.
  destruct (parses_unique _ _ _ _ _ _ _ Hparse Hp2) as (-> & -> & ->).
  destruct (decode_control due unbounded events) as [[c|[|e]]|]; [| | |done].
  - destruct Ho as [_ ->]. done.
  - destruct Ho as (_ & _ & s' & (taken & Hsplit & Hd') & Hi & Hs' & Hin). exfalso.
    assert (wire_left (new_session (memory_passes due (recorded_wire events))) = concat wires) as Hw0
      by (unfold wire_left, incoming; simpl; by rewrite memory_wire).
    rewrite Hw0 in Hsplit. rewrite Hsplit in Hbusy. apply busy_foldl in Hbusy.
    change (on_channel AUDIO_ENGINE_CHANNEL) with
      (rx_channels (main (new_session (memory_passes due (recorded_wire events))))) in Hbusy.
    rewrite <- Hd' in Hbusy. unfold wire_left in Hbusy.
    assert (decoded (rx_channels (main s')) (rx_buf (main s') ++ incoming s') = []) as Hnil.
    { unfold stream_of, unread in Hs'. injection Hs' as Hs' _. apply map_nil in Hs'. by apply app_nil in Hs' as [_ [_ Hs']%app_nil]. }
    destruct (rx_buf (main s') ++ incoming s') eqn:E; [by apply app_nil in E as [_ ?]|by destruct Hbusy].
  - destruct Ho as [->|[? _]]; done.
Qed.

(** C31: what a report without deviations means, and that there always is a report: both
    recordings decode completely and to the same values (per node, in order), the same set
    of definitions per node and as many request ends; both request streams of both decode;
    the meter frames agree in number and in shape, and the verdict on cardinality is one. *)
Theorem compare_fidelity_exact due hardware emulator :
  Z.of_nat (length (recorded_wire hardware)) ≤ MAX_NATIVE_RESPONSE_BYTES →
  Z.of_nat (length (recorded_wire emulator)) ≤ MAX_NATIVE_RESPONSE_BYTES →
  ∃ report, compare_fidelity due unbounded hardware emulator = Some report ∧
  let evidence events :=
    meter_evidence events (requests (decode_requests events (str "N>")) (decode_requests events (str "M>"))) in
  (deviations report = [] ↔
    (∃ control, decode_control due unbounded hardware = Some (Ok control)
              ∧ decode_control due unbounded emulator = Some (Ok control))
    ∧ (∀ events channel, events ∈ [hardware; emulator] → channel ∈ [str "N>"; str "M>"] →
         is_ok (decode_requests events channel) = true)
    ∧ evidence hardware = evidence emulator).
Proof.
  assert (∀ events, Z.of_nat (length (recorded_wire events)) ≤ MAX_NATIVE_RESPONSE_BYTES →
    ∃ r, decode_control due unbounded events = Some r) as Htotal.
  { intros events Hl. destruct (decode_control_spec due events) as (rs & l & e & _ & Ho).
    - unfold recorded_stream. cbn [stream]. rewrite length_map.
      pose proof (decoded_length (on_channel AUDIO_ENGINE_CHANNEL) (recorded_wire events) ltac:(by eexists)) as H.
      simpl in H. lia.
    - destruct (decode_control due unbounded events) as [r|]; [by eexists|done]. }
  intros Hh He. destruct (Htotal hardware Hh) as [hw Ehw]. destruct (Htotal emulator He) as [emu Eemu].
  unfold compare_fidelity. rewrite Ehw, Eemu. cbn [mbind option_bind]. eexists. split; [done|].
  cbn [deviations]. set (eh := meter_evidence hardware _). set (ee := meter_evidence emulator _).
  rewrite !app_nil, compare_meters_nil, !report_decode_failures_nil, !is_ok_failed.
  assert ((match hw, emu with Ok hw, Ok emu => compare_control hw emu
           | _, _ => report_decode_failures ControlStream hw emu end) = []
    ↔ ∃ control, Some hw = Some (Ok control) ∧ Some emu = Some (Ok control)) as ->.
  { destruct hw as [c1|], emu as [c2|]; rewrite ?compare_control_nil, ?report_decode_failures_nil; naive_solver. }
  split.
  - intros (Hc & [Hn1 Hn2] & [Hm1 Hm2] & Hs & Hcard). split_and!; [done| |].
    + intros ev ch Hev Hch. apply list_elem_of_In in Hev, Hch. cbn in Hev, Hch. naive_solver.
    + destruct eh, ee. cbn in *. case_decide; [by subst|done].
  - intros (Hc & Hr & ->). split_and!; [done|apply Hr; set_solver..|done|by rewrite decide_True].
Qed.

(** The requests of a recording do not depend on how the stream was cut into events. *)
Theorem decode_requests_whole events channel rs d :
  decoder_push (concat (payloads channel events)) (decoder_new default_limits) = (Ok rs, d) →
  decode_requests events channel
  = (let? flushed := (flush d).1 in
     let? _ := decoder_finish (flush d).2 in
     Ok (List.filter (λ r, negb (is_keep_alive r)) (rs ++ flushed))).
Proof.
  intros H. unfold decode_requests. rewrite (push_chunks_whole _ _ _ _ (decoder_new_inv _) H).
  by destruct (flush d) as [[|] ?].
Qed.

(** The control a recording yields, node by node. *)
Theorem control_of_exact responses control :
  control_of no_control responses = Ok control →
  (∀ id, default [] (values control !! id) = values_seen id responses)
  ∧ (∀ id, default ∅ (definitions control !! id) = definitions_seen id responses)
  ∧ request_ends control = ends_seen responses.
Proof.
  intros (Hv & Hd & He)%control_of_spec. cbn in *. split_and!; [exact Hv| |exact He].
  intros id. rewrite Hd. rewrite lookup_empty. cbn. set_solver.
Qed.

Lemma common_prefix_spec a b :
  let n := common_prefix a b in
  take n a = take n b ∧ (n ≤ length a)%nat ∧ (n ≤ length b)%nat ∧ (a !! n = b !! n → a = b).
Proof.
  revert b. induction a as [|x a IH]; intros [|y b]; cbn; [split_and!; first [done | lia]..|].
  destruct (bytes_eqb x y) eqn:E; cbn.
  - apply bytes_eqb_eq in E as ->. destruct (IH b) as (H1 & H2 & H3 & H4). split_and!; [congruence|lia..|]. intros H%H4. congruence.
  - split_and!; [done|lia..|]. intros [= ->]. by rewrite (proj2 (bytes_eqb_eq y y) eq_refl) in E.
Qed.

(** The slot that labels a shared id consists of the segments its paths have in common, all
    of them: one segment more is missing in the first path, or some path differs there. *)
Theorem common_slot_shared first others :
  ∃ n, common_slot first others = join slash (take n (split_on slash first))
    ∧ (∀ path, path ∈ others → take n (split_on slash path) = take n (split_on slash first))
    ∧ (n = length (split_on slash first)
       ∨ ∃ path, path ∈ others ∧ split_on slash path !! n ≠ split_on slash first !! n).
Proof.
  unfold common_slot. set (f := split_on slash first).
  assert (∀ k, (k ≤ length f)%nat →
    let n := foldl (λ shared path, Nat.min shared (common_prefix f (split_on slash path))) k others in
    (n ≤ k)%nat ∧ (∀ path, path ∈ others → take n (split_on slash path) = take n f)
    ∧ (n = k ∨ ∃ path, path ∈ others ∧ n = common_prefix f (split_on slash path) ∧ (n < k)%nat)) as H.
  { induction others as [|path others IH]; intros k Hk; cbn [foldl]; [split_and!; [lia|set_solver|by left]|].
    set (c := common_prefix f (split_on slash path)).
    destruct (IH (Nat.min k c) ltac:(lia)) as (H1 & H2 & H3). set (n := foldl _ _ _) in *.
    destruct (common_prefix_spec f (split_on slash path)) as (E & _). fold c in E.
    split_and!; [lia| |].
    - intros p [->|Hp]%elem_of_cons; [|by apply H2].
      rewrite <- (Nat.min_l n c) at 1 2 by lia. by rewrite <- !take_take, E.
    - destruct H3 as [H3|(p & Hp & H3 & H4)]; [|right; exists p; split_and!; [set_solver|done|lia]].
      destruct (decide (n = k)); [by left|]. right. exists path. split_and!; [set_solver| |lia].
      fold c. lia. }
  destruct (H (length f) ltac:(lia)) as (H1 & H2 & H3). eexists. split; [done|]. split; [exact H2|].
  destruct H3 as [H3|(path & Hp & H3 & H4)]; [by left|]. right. exists path. split; [done|].
  destruct (common_prefix_spec f (split_on slash path)) as (_ & _ & _ & Hd). rewrite <- H3 in Hd.
  intros Heq. specialize (Hd (eq_sym Heq)). rewrite <- Hd in Heq. rewrite <- Hd in H3.
  assert (common_prefix f f = length f) as Hff.
  { clear. induction f as [|x f IH]; [done|]. cbn. by rewrite (proj2 (bytes_eqb_eq x x) eq_refl), IH. }
  lia.
Qed.

(** *** Witnesses *)

Definition sent_batches : list (list NativeResponse) :=
  [[NativeResponses.NodeData 7 (NativeValues.Integer 1); NativeResponses.RequestEnd];
   [NativeResponses.NodeData 7 (NativeValues.String (str "on")); NativeResponses.NodeData 0xdf (NativeValues.Integer (-2))]].

Definition sent_wires : list (list byte) :=
  omap (λ rs, match encode_responses_bounded rs 1000 with Ok w => Some w | Err _ => None end) sent_batches.

Definition sent_events : list CaptureEvent :=
  [(str "D>", str "WING?"); (str "N<", take 5 (concat sent_wires)); (str "N>", map b8 [0xdf; 0xd1]);
   (str "N<", drop 5 (concat sent_wires))].

Lemma sent_encoded : batches sent_batches sent_wires.
Proof.
  split.
  - unfold sent_batches. each_elem; simpl; try done; split; try done; width.
  - unfold sent_batches. each_elem; done.
  - unfold sent_batches, sent_wires. cbn [omap list_omap]. repeat constructor; exists 1000; split; (done || vm_compute; reflexivity).
Qed.

Lemma decode_control_batches_witness :
  decode_control Nat.even unbounded sent_events
  = Some (match control_of no_control (map client_view (concat sent_batches)) with
          | Ok control => Ok control
          | Err e => Err (Failed e)
          end).
Proof.
  apply (decode_control_batches Nat.even sent_events sent_batches sent_wires); [apply sent_encoded|vm_compute; reflexivity|vm_compute; discriminate].
Defined.

Lemma compare_fidelity_exact_witness :
  ∃ report, compare_fidelity never unbounded sent_events sent_events = Some report ∧ deviations report = [].
Proof.
  destruct (compare_fidelity_exact never sent_events sent_events) as (report & E & H);
    [vm_compute; discriminate..|]. exists report. split; [exact E|]. apply H. split_and!.
  - eexists. split; vm_compute; reflexivity.
  - intros events channel He Hc. apply list_elem_of_In in He, Hc. cbn in He, Hc.
    destruct He as [<-|[<-|[]]], Hc as [<-|[<-|[]]]; vm_compute; reflexivity.
  - reflexivity.
Defined.
