(* ===== verification/DrivePlan.v ===== *)
(** The conformance driver's plans ([src/tools/wingdrive.rs]): which nodes its batteries
    request, probe, cycle and restore, which test values it writes, what it takes for a
    node's value, and the texts of its output files.  All of it is a function of the embedded
    map, so that two runs drive the same requests.

    A JSON text is written with its double quotes as single ones and its line ends as bars
    ([lit]).  An integer probe whose arithmetic overflows is the panic [None]. *)

From stdpp Require Import gmap sets sorting strings.
From S2P Require Import Prelude Sort Text Decimal Bytes Lib Utf8 F32 Display NodeDef NodeData EmbeddedMap.
Local Open Scope Z_scope.

(** ** Values *)

Module Snaps.
Inductive Snap := Str (s : list byte) | Float (f : f32) | Int (v : Z).
End Snaps.
Abbreviation Snap := Snaps.Snap.

Module SetVals.
Inductive SetVal := Float (f : f32) | Int (v : Z) | Str (s : list byte).
End SetVals.
Abbreviation SetVal := SetVals.SetVal.

Module WriteVals.
Inductive WriteVal := Int (v : Z) | Str (s : list byte).
End WriteVals.
Abbreviation WriteVal := WriteVals.WriteVal.

#[export] Instance Snap_eq_dec : EqDecision Snap.
Proof. solve_decision. Defined.
#[export] Instance SetVal_eq_dec : EqDecision SetVal.
Proof. solve_decision. Defined.

(** The derived [==]: NaN differs from itself, and the zeros are equal. *)
Definition snap_eqb (a b : Snap) : bool :=
  match a, b with
  | Snaps.Str s, Snaps.Str t => bytes_eqb s t
  | Snaps.Float x, Snaps.Float y => f32_eqb x y
  | Snaps.Int v, Snaps.Int w => v =? w
  | _, _ => false
  end.

Definition snap (data : WingNodeData) : Snap :=
  if has_string data then Snaps.Str (get_string data)
  else if has_float data then Snaps.Float (get_float data)
  else Snaps.Int (get_int data).

Definition snap_for_def (data : WingNodeData) (def : WingNodeDef) : Snap :=
  if bool_decide (def_node_type def = NodeTypes.StringEnum) then Snaps.Str (display_string data def) else snap data.

(** [None] for the refusal. *)
Definition restorable_snap_for_def (data : WingNodeData) (def : WingNodeDef) : option Snap :=
  if bool_decide (def_node_type def ≠ NodeTypes.StringEnum) then Some (snap data)
  else Snaps.Str <$> string_enum_item data def.

(** ** Output texts *)

Definition quote : byte := Byte.x22.
Definition backslash : byte := Byte.x5c.
Definition newline : byte := Byte.x0a.

Definition lit (s : String.string) : list byte :=
  map (λ b, if bool_decide (b = Byte.x27) then quote else if bool_decide (b = Byte.x7c) then newline else b) (str s).
Arguments lit s%_string.

Definition escape_char (b : byte) : list byte :=
  if bool_decide (b = quote) then [backslash; quote]
  else if bool_decide (b = backslash) then [backslash; backslash]
  else if bool_decide (b = newline) then [backslash; Byte.x6e]
  else if bool_decide (b = Byte.x0d) then [backslash; Byte.x72]
  else if bool_decide (b = Byte.x09) then [backslash; Byte.x74]
  else if u8 b <? 32 then [backslash; Byte.x75; Byte.x30; Byte.x30; hex_digit (u8 b / 16); hex_digit (u8 b mod 16)]
  else [b].

(** The characters escaped are all ASCII: bytes of a longer one are copied. *)
Definition json_escape (input : list byte) : list byte := concat (map escape_char input).

(** [l.join(sep)]. *)
Fixpoint join_with (sep : list byte) (l : list (list byte)) : list byte :=
  match l with [] => [] | [s] => s | s :: l => s ++ sep ++ join_with sep l end.

(** [None] for a value that is skipped. *)
Definition path_value_json (value : Snap) : option (list byte) :=
  match value with
  | Snaps.Int v => Some (lit "{'type':'int','value':" ++ dec v ++ lit "}")
  | Snaps.Float v => if is_finite v then Some (lit "{'type':'float','value':" ++ f32_display v ++ lit "}") else None
  | Snaps.Str s => Some (lit "{'type':'string','value':'" ++ json_escape s ++ lit "'}")
  end.

Definition path_value_line (entry : list byte * Snap) : list byte :=
  match path_value_json entry.2 with
  | Some encoded => lit "{'path':'" ++ json_escape entry.1 ++ lit "','value':" ++ encoded ++ lit "}|"
  | None => []
  end.

(** What [write_path_values] publishes. *)
Definition path_values_text (values : list (list byte * Snap)) : list byte := concat (map path_value_line values).

Definition set_value_json (set : SetVal) : option (list byte) :=
  path_value_json (match set with SetVals.Float v => Snaps.Float v | SetVals.Int v => Snaps.Int v | SetVals.Str s => Snaps.Str s end).

Definition echo_line (r : list byte * SetVal * Snap) : list byte :=
  match set_value_json r.1.2, path_value_json r.2 with
  | Some set_json, Some echo_json =>
    lit "{'path':'" ++ json_escape r.1.1 ++ lit "','set':" ++ set_json ++ lit ",'echo':" ++ echo_json ++ lit "}|"
  | _, _ => []
  end.

(** What [write_echo_records] writes. *)
Definition echo_text (records : list (list byte * SetVal * Snap)) : list byte := concat (map echo_line records).

(** What [write_defaults] writes. *)
Definition default_value (entry : Z * Snap) : option (list byte) :=
  let row kind encoded :=
    lit "    { 'id': " ++ dec entry.1 ++ lit ", 'type': '" ++ kind ++ lit "', 'value': " ++ encoded ++ lit " }" in
  match entry.2 with
  | Snaps.Int v => Some (row (str "int") (dec v))
  | Snaps.Float v => if is_finite v then Some (row (str "float") (f32_display v)) else None
  | Snaps.Str s => Some (row (str "string") ([quote] ++ json_escape s ++ [quote]))
  end.

Definition defaults_text (mdl : list (list byte * list byte)) (by_id : list (Z * Snap)) : list byte :=
  lit "{|  'mdl': {|"
  ++ join_with (lit ",|") (map (λ p, lit "    '" ++ json_escape p.1 ++ lit "': '" ++ json_escape p.2 ++ lit "'") mdl)
  ++ lit "|  },|  'by_id': [|" ++ join_with (lit ",|") (omap default_value by_id) ++ lit "|  ]|}|".

(** ** Plans over the embedded map *)

(** A family of slots (its section, and its path below the slot), and the parameters of a
    slot's model. *)
Abbreviation Family := (list byte * list byte)%type.

Abbreviation ModelParams := (gmap (list byte * list byte) (list (list byte))).

Section Plans.
Context `{EmbeddedMap}.

(** What [write_scenario] writes: read-only nodes are left out. *)
Definition scenario_entry (entry : list byte * Snap) : option (list byte) :=
  if default false (def_read_only <$> name_to_def entry.1) then None
  else
    encoded ← match entry.2 with
              | Snaps.Int v => Some (lit "{ 'type': 'int', 'value': " ++ dec v ++ lit " }")
              | Snaps.Float v =>
                if is_finite v then Some (lit "{ 'type': 'float', 'value': " ++ f32_display v ++ lit " }") else None
              | Snaps.Str s => Some (lit "{ 'type': 'string', 'value': '" ++ json_escape s ++ lit "' }")
              end;
    Some (lit "    '" ++ json_escape entry.1 ++ lit "': " ++ encoded).

Definition scenario_text (observed : list (list byte * Snap)) : list byte :=
  lit "{|  'name': 'hardware-mirror',|  'reset': 'profile-and-scenario',|  'values': {|"
  ++ join_with (lit ",|") (omap scenario_entry observed) ++ lit "|  }|}|".

Definition star : byte := Byte.x2a.
Definition dollar : byte := Byte.x24.

(** A value leaf that is not below a template. *)
Definition is_leaf (p : list byte * WingNodeDef) : bool :=
  negb (bool_decide (def_node_type p.2 = NodeTypes.Node)) && negb (contains_any [star] p.1).

(** [.step_by(stride)], with [skip] elements to pass over first. *)
Fixpoint step_by {A} (skip stride : nat) (l : list A) : list A :=
  match l with
  | [] => []
  | a :: l => match skip with
              | O => a :: step_by (stride - 1) stride l
              | S skip => step_by skip stride l
              end
  end.

Definition battery_leaves : list (list byte) :=
  sort_by bytes_le (map fst (filter (λ p, is_leaf p = true) propmap_iter)).

Definition battery_nodes (count : nat) : list (list byte) :=
  let leaves := battery_leaves in
  if bool_decide (leaves = []) || (count =? 0)%nat then []
  else take count (step_by 0 (Nat.max (length leaves / count) 1) leaves).

Definition DEF_CORE : list (list byte) :=
  [str "/ch/1/fdr"; str "/ch/1/mute"; str "/ch/1/pan"; str "/ch/1/col"; str "/ch/1/name"; str "/ch/1/icon";
   str "/main/1/fdr"; str "/main/1/mute"; str "/main/1/pan"].

Definition WRITE_TARGETS : list (list byte * WriteVal) :=
  [(str "/ch/1/col", WriteVals.Int 7); (str "/ch/1/icon", WriteVals.Int 42);
   (str "/ch/1/name", WriteVals.Str (str "WINGDIFF"))].

(** The nodes of the GET phase. *)
Definition get_phase_nodes (gets : nat) : list (list byte) :=
  foldl (λ nodes name, if bool_decide (name ∈ nodes) then nodes else nodes ++ [name]) DEF_CORE (battery_nodes gets).

Definition is_unique_id (path : list byte) : bool :=
  match (def ← name_to_def path; id_to_defs_iter (def_id def)) with
  | Some defs => (length defs =? 1)%nat
  | None => false
  end.

Definition selectors : list (list byte) :=
  map fst (filter (λ p, ends_with p.1 (str "/mdl") = true) propmap_iter).

(** The ids of [capture_defaults], a [BTreeSet]. *)
Definition default_ids : list Z :=
  sort_by Z.leb (elements (list_to_set (C := gset Z) (map (λ p, def_id p.2) (filter (λ p, is_leaf p = true) propmap_iter)))).

(** *** Probes *)

Definition type_key (node_type : NodeType) : option (list byte) :=
  match node_type with
  | NodeTypes.LinearFloat => Some (str "linear-float")
  | NodeTypes.LogarithmicFloat => Some (str "log-float")
  | NodeTypes.FaderLevel => Some (str "fader")
  | NodeTypes.Integer => Some (str "integer")
  | NodeTypes.FloatEnum => Some (str "float-enum")
  | NodeTypes.StringEnum => Some (str "string-enum")
  | _ => None
  end.

(** [-144.0], [10.0], [0.1], [0.371], [1.0] and [2.0]. *)
Definition f32_minus_144 : f32 := F32 0xc3100000.
Definition f32_10 : f32 := F32 0x41200000.
Definition f32_tenth : f32 := F32 0x3dcccccd.
Definition f32_0_371 : f32 := F32 0x3ebdf3b6.
Definition f32_1 : f32 := F32 0x3f800000.
Definition f32_2 : f32 := F32 0x40000000.

Definition I32_MIN : Z := - 2 ^ 31.
Definition I32_MAX : Z := 2 ^ 31 - 1.

(** An [i32] subtraction that checks for overflow. *)
Definition checked_i32 (z : Z) : option Z := if (I32_MIN <=? z) && (z <=? I32_MAX) then Some z else None.

Definition probe_inputs (def : WingNodeDef) : option (list SetVal) :=
  match def_node_type def with
  | NodeTypes.LinearFloat | NodeTypes.LogarithmicFloat | NodeTypes.FaderLevel =>
    let min := default f32_minus_144 (def_min_float def) in
    let max := default f32_10 (def_max_float def) in
    if negb (f32_ltb min max) then Some []
    else
      let span := f32_sub max min in
      Some [SetVals.Float (f32_sub min (f32_mul f32_tenth span));
            SetVals.Float (f32_add max (f32_mul f32_tenth span));
            SetVals.Float (f32_add min (f32_mul f32_0_371 span))]
  | NodeTypes.Integer =>
    let min := default 0 (def_min_int def) in
    let max := default 1 (def_max_int def) in
    span ← checked_i32 (max - min);
    middle ← checked_i32 (min + Z.quot span 2);
    Some [SetVals.Int (Z.max (min - 1) I32_MIN); SetVals.Int (Z.min (max + 1) I32_MAX); SetVals.Int middle]
  | NodeTypes.FloatEnum =>
    Some (match def_float_enum def with
          | Some (first :: second :: rest) =>
            let last := List.last rest second in
            [SetVals.Float (f32_div (f32_add (fi_item first) (fi_item second)) f32_2);
             SetVals.Float (f32_sub (fi_item first) f32_1);
             SetVals.Float (f32_add (fi_item last) f32_1)]
          | _ => []
          end)
  | NodeTypes.StringEnum =>
    Some (match def_string_enum def with
          | Some (_ :: second :: _) => [SetVals.Str (str "__wingdrive_invalid__"); SetVals.Str (si_item second)]
          | _ => []
          end)
  | _ => Some []
  end.

Definition PER_TYPE : nat := 8.

Definition probe_candidate (p : list byte * WingNodeDef) : bool :=
  bool_decide (is_Some (type_key (def_node_type p.2))) && negb (def_read_only p.2)
  && negb (contains_any [star] p.1) && negb (contains_any [dollar] p.1) && is_unique_id p.1.

Definition probe_leaves : list (list byte * WingNodeDef) :=
  sort_by (λ a b, bytes_le a.1 b.1) (filter (λ p, probe_candidate p = true) propmap_iter).

(** The loop over the leaves, with the counts per type; [None] for the [expect]. *)
Fixpoint pick_targets (leaves : list (list byte * WingNodeDef)) (per_type : gmap (list byte) nat)
    : option (list (list byte * WingNodeDef)) :=
  match leaves with
  | [] => Some []
  | leaf :: leaves =>
    key ← type_key (def_node_type leaf.2);
    let count := default O (per_type !! key) in
    if (count <? PER_TYPE)%nat then (λ ts, leaf :: ts) <$> pick_targets leaves (<[key := S count]> per_type)
    else pick_targets leaves (<[key := count]> per_type)
  end.

Definition probe_targets : option (list (list byte * WingNodeDef)) := pick_targets probe_leaves ∅.

(** *** Model slots *)

(** The slot of a selector with its family and index. *)
Definition model_slot (p : list byte * WingNodeDef) : option (Family * (Z * list byte)) :=
  slot ← strip_suffix p.1 (str "/mdl");
  _ ← def_string_enum p.2;
  match split_on slash slot with
  | _ :: section :: third :: rest => index ← parse_u32 third; Some ((section, join slash rest), (index, slot))
  | _ => None
  end.

Definition note_slot (reps : gmap Family (Z * list byte)) (s : Family * (Z * list byte)) : gmap Family (Z * list byte) :=
  let entry := default (2 ^ 32 - 1, []) (reps !! s.1) in
  <[s.1 := if s.2.1 <? entry.1 then s.2 else entry]> reps.

Definition representatives : gmap Family (Z * list byte) := foldl note_slot ∅ (omap model_slot propmap_iter).

Definition rep_slots : list (list byte) :=
  sort_by bytes_le (remove_dups (map (λ e, e.2.2) (map_to_list representatives))).

(** [.max_by_key(..)]: the last of the largest. *)
Definition longest_item (items : list StringEnumItem) : option StringEnumItem :=
  foldl (λ best it, match best with
                    | Some b => if (length (si_item b) <=? length (si_item it))%nat then Some it else best
                    | None => Some it
                    end) None items.

(** [tail] is a leaf below [item]. *)
Definition leaf_below (item tail : list byte) : bool :=
  match (t ← strip_prefix tail item; strip_prefix t [slash]) with Some (_ :: _) => true | _ => false end.

Definition slot_items (slot : list byte) : list StringEnumItem :=
  default [] (def ← name_to_def (slot ++ str "/mdl"); def_string_enum def).

Fixpoint param_of (slots : list (list byte)) (name : list byte) : option (list byte * list byte) :=
  match slots with
  | [] => None
  | slot :: slots =>
    match (t ← strip_prefix name slot; strip_prefix t [slash]) with
    | None => param_of slots name
    | Some tail => (λ it, (slot, si_item it)) <$> longest_item (filter (λ it, leaf_below (si_item it) tail = true) (slot_items slot))
    end
  end.

Definition note_param (slots : list (list byte)) (params : ModelParams) (p : list byte * WingNodeDef) : ModelParams :=
  match (if is_leaf p then param_of slots p.1 else None) with
  | Some key => <[key := default [] (params !! key) ++ [p.1]]> params
  | None => params
  end.

Definition model_params : ModelParams := foldl (note_param rep_slots) ∅ propmap_iter.

Definition model_leaf (slot model : list byte) (p : list byte * WingNodeDef) : bool :=
  match (t ← strip_prefix p.1 slot; strip_prefix t [slash]) with
  | None => false
  | Some tail =>
    negb (bytes_eqb tail (str "mdl") || def_read_only p.2 || bool_decide (def_node_type p.2 = NodeTypes.Node)
          || contains_any [star] p.1 || contains_any [dollar] p.1)
    && (negb (contains_any [slash] tail) || leaf_below model tail)
  end.

(** [by_id.entry(def.id).or_insert(..)]. *)
Definition or_insert (by_id : gmap Z (list byte * WingNodeDef)) (p : list byte * WingNodeDef) : gmap Z (list byte * WingNodeDef) :=
  match by_id !! def_id p.2 with Some _ => by_id | None => <[def_id p.2 := p]> by_id end.

Definition original_model_leaves (slot model : list byte) : list (list byte * WingNodeDef) :=
  sort_by (λ a b, def_id a.2 <=? def_id b.2)
    (map snd (map_to_list (foldl or_insert ∅ (filter (λ p, model_leaf slot model p = true) propmap_iter)))).
End Plans.

(** ** Reading the texts back *)

(** A JSON string after its opening quote, and what follows it.  (Escapes of characters
    beyond ASCII are not needed here and not read.) *)
Fixpoint unescape (s : list byte) : option (list byte * list byte) :=
  match s with
  | [] => None
  | b :: s =>
    if bool_decide (b = quote) then Some ([], s)
    else if bool_decide (b = backslash) then
      match s with
      | Byte.x75 :: h1 :: h2 :: h3 :: h4 :: s =>
        code ← from_str_radix_16 [h1; h2; h3; h4];
        if code <? 128 then prod_map (cons (b8 code)) id <$> unescape s else None
      | Byte.x6e :: s => prod_map (cons newline) id <$> unescape s
      | Byte.x72 :: s => prod_map (cons Byte.x0d) id <$> unescape s
      | Byte.x74 :: s => prod_map (cons Byte.x09) id <$> unescape s
      | c :: s => if bool_decide (c ∈ [quote; backslash]) then prod_map (cons c) id <$> unescape s else None
      | [] => None
      end
    else if u8 b <? 32 then None else prod_map (cons b) id <$> unescape s
  end.

(** A value: its type and the text of its value. *)
Definition read_value (s : list byte) : option (list byte * list byte * list byte) :=
  s ← strip_prefix s (lit "{'type':'");
  '(kind, s) ← unescape s;
  s ← strip_prefix s (lit ",'value':");
  match s with
  | b :: t =>
    if bool_decide (b = quote) then '(text, t) ← unescape t; t ← strip_prefix t (lit "}"); Some (kind, text, t)
    else '(text, t) ← split_once Byte.x7d s; Some (kind, text, t)
  | [] => None
  end.

(** A record of a line, which it fills. *)
Definition read_line (s : list byte) : option (list byte * (list byte * list byte)) :=
  s ← strip_prefix s (lit "{'path':'");
  '(path, s) ← unescape s;
  s ← strip_prefix s (lit ",'value':");
  '(value, s) ← read_value s;
  if bool_decide (s = lit "}") then Some (path, value) else None.

(** Every line of the text, which ends with a line end. *)
Definition read_path_values (text : list byte) : option (list (list byte * (list byte * list byte))) :=
  match rev (split_on newline text) with
  | [] :: lines => mapM read_line (rev lines)
  | _ => None
  end.

(** What a record says of a value. *)
Definition shown (entry : list byte * Snap) : option (list byte * (list byte * list byte)) :=
  match entry.2 with
  | Snaps.Int v => Some (entry.1, (str "int", dec v))
  | Snaps.Float v => if is_finite v then Some (entry.1, (str "float", f32_display v)) else None
  | Snaps.Str s => Some (entry.1, (str "string", s))
  end.

Lemma unescape_char b s : unescape (escape_char b ++ s) = prod_map (cons b) id <$> unescape s.
Proof. destruct b; cbn; reflexivity. Qed.

Lemma unescape_escaped s rest : unescape (json_escape s ++ quote :: rest) = Some (s, rest).
Proof.
  unfold json_escape. induction s as [|b s IH]; [done|]. cbn [map concat].
  by rewrite <- (assoc_L (++)), unescape_char, IH.
Qed.

Lemma escape_one_line s : newline ∉ json_escape s.
Proof.
  unfold json_escape. induction s as [|b s IH]; [apply not_elem_of_nil|]. cbn [map concat].
  apply not_elem_of_app. split; [|done]. apply (bool_decide_unpack _). by destruct b.
Qed.

Lemma number_text_plain s b : Forall number_byte s → ¬ number_byte b → b ∉ s.
Proof. intros H Hb Hin. apply Hb. rewrite list.Forall_forall in H. by apply H. Qed.

Lemma contains_any_one b s : contains_any [b] s = false ↔ b ∉ s.
Proof.
  unfold contains_any. rewrite <- not_true_iff_false, existsb_exists. split; intros H Hin; apply H.
  - exists b. rewrite bool_decide_eq_true, list_elem_of_singleton. split; [by apply list_elem_of_In|done].
  - destruct Hin as (x & Hx & Hd). apply bool_decide_eq_true, list_elem_of_singleton in Hd. subst. by apply list_elem_of_In.
Qed.

Lemma split_once_number s rest : Forall number_byte s → split_once Byte.x7d (s ++ Byte.x7d :: rest) = Some (s, rest).
Proof.
  intros H. apply split_once_app, contains_any_one. apply number_text_plain; [done|]. apply (bool_decide_unpack _). vm_compute. exact I.
Qed.

(** A number in a record. *)
Lemma read_number kind text rest :
  number_text text →
  read_value (lit "{'type':'" ++ json_escape kind ++ lit "','value':" ++ text ++ lit "}" ++ rest)
  = Some (kind, text, rest).
Proof.
  intros [Hn Hne]. unfold read_value. rewrite strip_prefix_app. cbn [mbind option_bind].
  change (lit "','value':" ++ ?x) with (quote :: lit ",'value':" ++ x). rewrite unescape_escaped. cbn [mbind option_bind].
  rewrite strip_prefix_app. cbn [mbind option_bind]. change (lit "}" ++ rest) with (Byte.x7d :: rest).
  rewrite split_once_number by done. destruct text as [|b text]; [done|]. cbn [app].
  apply list.Forall_cons in Hn as [Hb _]. rewrite bool_decide_eq_false_2; [done|].
  intros ->. revert Hb. apply (bool_decide_unpack _). done.
Qed.

Lemma read_string kind text rest :
  read_value (lit "{'type':'" ++ json_escape kind ++ lit "','value':'" ++ json_escape text ++ lit "'}" ++ rest)
  = Some (kind, text, rest).
Proof.
  unfold read_value. rewrite strip_prefix_app. cbn [mbind option_bind].
  change (lit "','value':'" ++ ?x) with (quote :: lit ",'value':" ++ quote :: x). rewrite unescape_escaped. cbn [mbind option_bind].
  rewrite strip_prefix_app. cbn [mbind option_bind]. rewrite bool_decide_eq_true_2 by done.
  change (lit "'}" ++ rest) with (quote :: lit "}" ++ rest). rewrite unescape_escaped. cbn [mbind option_bind].
  by rewrite strip_prefix_app.
Qed.

Lemma read_value_written path v encoded rest :
  path_value_json v = Some encoded →
  ∃ value, shown (path, v) = Some (path, value) ∧ read_value (encoded ++ rest) = Some (value, rest).
Proof.
  destruct v as [s|f|z]; cbn [path_value_json]; unfold shown; cbn [fst snd].
  - intros <-%(inj Some). eexists. split; [done|].
    change (lit "{'type':'string','value':'" ++ ?x) with (lit "{'type':'" ++ json_escape (str "string") ++ lit "','value':'" ++ x).
    rewrite <- !(assoc_L (++)). apply read_string.
  - destruct (is_finite f) eqn:Hf; [|done]. intros <-%(inj Some). eexists. split; [done|].
    change (lit "{'type':'float','value':" ++ ?x) with (lit "{'type':'" ++ json_escape (str "float") ++ lit "','value':" ++ x).
    rewrite <- !(assoc_L (++)). apply read_number, f32_display_number, Hf.
  - intros <-%(inj Some). eexists. split; [done|].
    change (lit "{'type':'int','value':" ++ ?x) with (lit "{'type':'" ++ json_escape (str "int") ++ lit "','value':" ++ x).
    rewrite <- !(assoc_L (++)). apply read_number, dec_number.
Qed.

(** A line of the text without its end. *)
Lemma path_value_line_read entry :
  match shown entry with
  | Some r => ∃ line, path_value_line entry = line ++ [newline] ∧ newline ∉ line ∧ read_line line = Some r
  | None => path_value_line entry = []
  end.
Proof.
  destruct entry as [path v]. unfold path_value_line. cbn [fst snd].
  destruct (path_value_json v) as [encoded|] eqn:E.
  - destruct (read_value_written path v encoded (lit "}") E) as (value & -> & Hr).
    exists (lit "{'path':'" ++ json_escape path ++ lit "','value':" ++ encoded ++ lit "}").
    split; [by rewrite <- !(assoc_L (++))|]. split.
    + assert (newline ∉ encoded) as He.
      { destruct v as [s|f|z]; cbn [path_value_json] in E; [apply (inj Some) in E as <-| |apply (inj Some) in E as <-];
          [|destruct (is_finite f) eqn:Hf; [apply (inj Some) in E as <-|done]|];
          rewrite !not_elem_of_app; (split; [by apply (bool_decide_unpack _)|]; split; [|by apply (bool_decide_unpack _)]).
        - apply escape_one_line.
        - apply number_text_plain; [by apply f32_display_number|by apply (bool_decide_unpack _)].
        - apply number_text_plain; [apply dec_number|by apply (bool_decide_unpack _)]. }
      rewrite !not_elem_of_app. split_and!; [by apply (bool_decide_unpack _)|apply escape_one_line|by apply (bool_decide_unpack _)|done|by apply (bool_decide_unpack _)].
    + unfold read_line. rewrite strip_prefix_app. cbn [mbind option_bind].
      change (lit "','value':" ++ ?x) with (quote :: lit ",'value':" ++ x). rewrite unescape_escaped. cbn [mbind option_bind].
      rewrite strip_prefix_app. cbn [mbind option_bind]. rewrite Hr. cbn [mbind option_bind].
      by rewrite bool_decide_eq_true_2.
  - destruct v as [s|f|z]; [done| |done]. cbn in E. unfold shown. cbn. by destruct (is_finite f).
Qed.

Lemma path_values_lines values :
  ∃ lines, split_on newline (path_values_text values) = lines ++ [[]] ∧ mapM read_line lines = Some (omap shown values).
Proof.
  unfold path_values_text. induction values as [|entry values (lines & Hs & Hr)]; [by exists []|]. cbn [map concat].
  pose proof (path_value_line_read entry) as H. cbn [omap list_omap]. destruct (shown entry) as [r|].
  - destruct H as (line & -> & Hl & Hr1). exists (line :: lines). split.
    + rewrite <- (assoc_L (++)). cbn [app]. by rewrite split_on_app, Hs by by apply contains_any_one.
    + cbn [mapM]. by rewrite Hr1, Hr.
  - rewrite H. by exists lines.
Qed.

(** ** Lemmas: the plans *)

Lemma step_by_lookup {A} (skip stride : nat) (l : list A) i :
  (0 < stride)%nat → step_by skip stride l !! i = l !! (skip + i * stride)%nat.
Proof.
  intros Hs. revert skip i. induction l as [|a l IH]; intros skip i; cbn [step_by]; [done|].
  destruct skip as [|skip]; [|by rewrite IH]. destruct i as [|i]; [done|]. cbn [lookup list_lookup].
  rewrite IH. replace (0 + S i * stride)%nat with (S (stride - 1 + i * stride)) by lia. done.
Qed.

(** A sample: every [stride]-th element, [count] of them when there are as many. *)
Lemma sample_spec {A} (l : list A) count :
  let stride := Nat.max (length l / count) 1 in
  let sample := take count (step_by 0 stride l) in
  (0 < count)%nat →
  length sample = Nat.min count (length l) ∧
  ∀ i, (i < length sample)%nat → sample !! i = l !! (i * stride)%nat.
Proof.
  intros stride sample Hc. assert (0 < stride)%nat as Hs by lia.
  assert (∀ i, (i < count)%nat → sample !! i = l !! (i * stride)%nat) as Hi.
  { intros i H. unfold sample. rewrite lookup_take_lt by done. by rewrite step_by_lookup. }
  assert (stride * (count - 1) < length l ∨ stride = 1)%nat as Hfit.
  { subst stride. destruct (Nat.max_spec (length l / count) 1) as [[_ ->]|[_ E]]; [by right|].
    destruct (decide (length l / count = 1)%nat) as [->|]; [by right|]. left. rewrite E.
    pose proof (Nat.Div0.mul_div_le (length l) count). nia. }
  assert (∀ i, (i < length sample)%nat ↔ (i < Nat.min count (length l))%nat) as Hlen.
  { intros i. destruct (decide (i < count)%nat) as [H|H].
    - rewrite <- lookup_lt_is_Some, Hi, lookup_lt_is_Some by done. destruct Hfit as [Hf| ->]; [|lia].
      destruct (decide (length l < count)%nat) as [Hl|]; [|nia].
      subst stride. rewrite Nat.div_small in * by done. simpl in *. lia.
    - unfold sample. rewrite length_take. lia. }
  assert (length sample = Nat.min count (length l)) as E.
  { pose proof (Hlen (length sample)). pose proof (Hlen (Nat.min count (length l))). lia. }
  split; [done|]. intros i H. apply Hi. lia.
Qed.

Section PlanLaws.
Context {m : EmbeddedMap} `{!EmbeddedMapLaws m}.

Lemma unique_id_alone p q :
  p ∈ map_entries → q ∈ map_entries → is_unique_id p.1 = true → def_id p.2 = def_id q.2 → p = q.
Proof.
  intros Hp Hq Hu Hid. unfold is_unique_id, name_to_def, id_to_defs_iter in Hu. destruct p as [a d], q as [b e]. cbn [fst snd] in *.
  rewrite (proj2 (def_by_name_law a d) Hp) in Hu. cbn [mbind option_bind] in Hu.
  destruct (defs_by_id_entry a d Hp) as (l & Hl & Hd). rewrite Hl in Hu. apply Nat.eqb_eq in Hu.
  destruct (defs_by_id_entry b e Hq) as (l' & Hl' & He). rewrite <- Hid, Hl in Hl'. injection Hl' as <-.
  destruct l as [|x [|? ?]]; [done| |done]. apply list_elem_of_singleton in Hd, He. congruence.
Qed.

Lemma pick_targets_spec leaves per_type :
  Forall (λ p, is_Some (type_key (def_node_type p.2))) leaves →
  ∃ ts, pick_targets leaves per_type = Some ts ∧ ts `sublist_of` leaves ∧
    ∀ key, let same p := type_key (def_node_type p.2) = Some key in
      filter same ts = take (PER_TYPE - default O (per_type !! key)) (filter same leaves).
Proof.
  intros H. revert per_type. induction H as [|leaf leaves [key Hk] _ IH]; intros per_type; cbn [pick_targets].
  { exists []. split; [done|]. split; [done|]. intros key. by destruct (_ - _)%nat. }
  rewrite Hk. cbn [mbind option_bind]. destruct (Nat.ltb_spec (default O (per_type !! key)) PER_TYPE) as [Hc|Hc].
  - destruct (IH (<[key := S (default O (per_type !! key))]> per_type)) as (ts & -> & Hsub & Hf).
    exists (leaf :: ts). split; [done|]. split; [by apply sublist_skip|]. 
    intros key'. rewrite !list.filter_cons.
    specialize (Hf key'). cbv zeta in Hf. rewrite Hf. destruct (decide (type_key _ = Some key')) as [E|E].
    + rewrite Hk in E. injection E as ->. rewrite lookup_insert_eq. cbn [default from_option id].
      replace (PER_TYPE - default O (per_type !! key'))%nat with (S (PER_TYPE - S (default O (per_type !! key')))) by lia. done.
    + rewrite lookup_insert_ne by congruence. done.
  - destruct (IH (<[key := default O (per_type !! key)]> per_type)) as (ts & -> & Hsub & Hf).
    exists ts. split; [done|]. split; [by apply sublist_cons|]. intros key'. rewrite list.filter_cons.
    specialize (Hf key'). cbv zeta in Hf. rewrite Hf. destruct (decide (type_key _ = Some key')) as [E|E].
    + rewrite Hk in E. injection E as ->. rewrite lookup_insert_eq. cbn [default from_option id].
      replace (PER_TYPE - _)%nat with O by lia. done.
    + by rewrite lookup_insert_ne by congruence.
Qed.

Lemma probe_leaves_in p : p ∈ probe_leaves ↔ p ∈ map_entries ∧ probe_candidate p = true.
Proof. unfold probe_leaves, propmap_iter. rewrite elem_of_sort_by, list_elem_of_filter. tauto. Qed.

Lemma probe_candidate_spec p :
  probe_candidate p = true →
  is_Some (type_key (def_node_type p.2)) ∧ def_read_only p.2 = false ∧ star ∉ p.1 ∧ dollar ∉ p.1 ∧ is_unique_id p.1 = true.
Proof.
  unfold probe_candidate. rewrite !andb_true_iff, bool_decide_eq_true, !negb_true_iff, !contains_any_one. tauto.
Qed.

Lemma NoDup_map_inj {A B} (f : A → B) (l : list A) :
  (∀ a b, a ∈ l → b ∈ l → f a = f b → a = b) → NoDup l → NoDup (map f l).
Proof.
  intros Hf Hn. induction Hn as [|a l Ha Hn IH]; [constructor|]. cbn [map]. apply list.NoDup_cons. split.
  - intros (b & Hb & Hin)%list_elem_of_fmap. apply Ha. rewrite (Hf a b); [done|set_solver..|done].
  - apply IH. set_solver.
Qed.

Lemma map_entries_distinct : NoDup map_entries.
Proof. eapply NoDup_fmap_1, entries_distinct. Qed.

Lemma probe_targets_spec :
  ∃ ts, probe_targets = Some ts ∧ ts `sublist_of` probe_leaves ∧
    ∀ key, let same p := type_key (def_node_type p.2) = Some key in
      filter same ts = take PER_TYPE (filter same probe_leaves).
Proof.
  destruct (pick_targets_spec probe_leaves ∅) as (ts & E & Hs & Hf).
  - apply list.Forall_forall. intros p [_ Hc]%probe_leaves_in. apply probe_candidate_spec, Hc.
  - exists ts. split; [done|]. split; [done|]. intros key. specialize (Hf key). by rewrite lookup_empty in Hf.
Qed.

(** No two targets share a node, nor does a target share its node with any other entry. *)
Lemma probe_targets_distinct ts :
  probe_targets = Some ts →
  NoDup (map (λ p, def_id p.2) ts) ∧ Forall (λ p, p ∈ map_entries ∧ probe_candidate p = true) ts.
Proof.
  intros E. destruct probe_targets_spec as (ts' & E' & Hs & _). assert (ts' = ts) as -> by congruence.
  assert (Forall (λ p, p ∈ map_entries ∧ probe_candidate p = true) ts) as Hall.
  { apply list.Forall_forall. intros p Hp. apply probe_leaves_in. by eapply elem_of_sublist. }
  split; [|done]. rewrite list.Forall_forall in Hall. apply NoDup_map_inj.
  - intros a b [Ha Hca]%Hall [Hb _]%Hall Hid. apply unique_id_alone; [done..| |done].
    by apply probe_candidate_spec in Hca as (_ & _ & _ & _ & ?).
  - eapply sublist_NoDup; [|exact Hs]. unfold probe_leaves. rewrite sort_by_perm. apply list.NoDup_filter, map_entries_distinct.
Qed.

(** The first index of a family. *)
Lemma representatives_spec slots reps family :
  let entry := foldl note_slot reps slots !! family in
  let of_family := filter (λ s, s.1 = family) slots in
  match entry with
  | Some (i, slot) =>
    Forall (λ s, i ≤ s.2.1) of_family ∧
    (reps !! family = Some (i, slot) ∨ (i, slot) = (2 ^ 32 - 1, []) ∨ (family, (i, slot)) ∈ slots)
  | None => of_family = [] ∧ reps !! family = None
  end.
Proof.
  cbv zeta. assert (∀ slots reps i slot i0 slot0, reps !! family = Some (i0, slot0) →
    foldl note_slot reps slots !! family = Some (i, slot) → i ≤ i0) as Hmono.
  { clear. intros slots. induction slots as [|s slots IH]; intros reps i slot i0 slot0 H0; cbn [foldl].
    { rewrite H0. intros [= -> ->]. lia. }
    unfold note_slot at 2. destruct (decide (s.1 = family)) as [E|E].
    - rewrite E, H0. cbn [default from_option id fst]. destruct s as [f [j sl]]. cbn [fst snd] in *.
      intros H. destruct (Z.ltb_spec j i0); eapply IH in H; try apply lookup_insert_eq; lia.
    - intros H. eapply IH; [|exact H]. by rewrite lookup_insert_ne. }
  revert reps. induction slots as [|s slots IH]; intros reps; cbn [foldl].
  { destruct (reps !! family) as [[i slot]|]; [|done]. split; [constructor|by left]. }
  specialize (IH (note_slot reps s)). specialize (Hmono slots (note_slot reps s)).
  rewrite list.filter_cons. destruct (foldl note_slot (note_slot reps s) slots !! family) as [[i slot]|]; revert IH Hmono.
  - intros [Hall Hor] Hmono. unfold note_slot in *. destruct s as [f [j sl]]. cbn [fst snd] in *.
    destruct (decide (f = family)) as [->|Hne].
    + rewrite lookup_insert_eq in *. split.
      * constructor; [|done]. cbn [fst snd]. destruct (Z.ltb_spec j (default (2 ^ 32 - 1, []) (reps !! family)).1) as [Hj|Hj].
        -- eapply Hmono; done.
        -- destruct (default _ _) as [j0 sl0] eqn:E. cbn in Hj. assert (i ≤ j0); [|lia]. eapply Hmono; done.
      * destruct (reps !! family) as [[j0 sl0]|] eqn:E; cbn [default from_option id fst] in Hor;
          (destruct (j <? _); [destruct Hor as [[= -> ->]|[?|?]]; set_solver|]);
          (destruct Hor as [[= <- <-]|[?|?]]; [auto|auto|set_solver]).
    + rewrite lookup_insert_ne in * by done. split; [done|]. set_solver.
  - intros [Hall Hr] _. unfold note_slot in Hr. destruct (decide (s.1 = family)) as [E|E]; [by rewrite E, lookup_insert_eq in Hr|].
    by rewrite lookup_insert_ne in Hr.
Qed.

(** Every family of slots is represented, by the slot of its least index. *)
Lemma rep_slots_cover family i slot :
  (family, (i, slot)) ∈ omap model_slot map_entries → i < 2 ^ 32 - 1 →
  ∃ j rep, (family, (j, rep)) ∈ omap model_slot map_entries ∧ rep ∈ rep_slots ∧
    ∀ k s, (family, (k, s)) ∈ omap model_slot map_entries → j ≤ k.
Proof.
  intros Hin Hi. pose proof (representatives_spec (omap model_slot map_entries) ∅ family) as H. cbv zeta in H.
  change (foldl note_slot ∅ (omap model_slot map_entries)) with representatives in H.
  assert (∀ k s, (family, (k, s)) ∈ omap model_slot map_entries →
    (family, (k, s)) ∈ filter (λ s, s.1 = family) (omap model_slot map_entries)) as Hf by (intros; by apply list_elem_of_filter).
  destruct (representatives !! family) as [[j rep]|] eqn:E.
  2: { destruct H as [H _]. apply Hf in Hin. rewrite H in Hin. by apply elem_of_nil in Hin. }
  destruct H as [Hall Hor]. rewrite list.Forall_forall in Hall.
  assert (∀ k s, (family, (k, s)) ∈ omap model_slot map_entries → j ≤ k) as Hle by (intros k s Hk; apply (Hall _ (Hf _ _ Hk))).
  exists j, rep. split_and!; [|unfold rep_slots|done].
  - destruct Hor as [Hor|[[= -> ->]|Hor]]; [by rewrite lookup_empty in Hor| |done]. specialize (Hle _ _ Hin). lia.
  - rewrite elem_of_sort_by, elem_of_remove_dups. apply list_elem_of_fmap. exists (family, (j, rep)).
    split; [done|]. by apply elem_of_map_to_list.
Qed.

Lemma or_insert_spec ps by_id id :
  let result := foldl or_insert by_id ps in
  (∀ p, result !! id = Some p → by_id !! id = Some p ∨ (p ∈ ps ∧ def_id p.2 = id)) ∧
  (is_Some (by_id !! id) ∨ id ∈ map (λ p, def_id p.2) ps → is_Some (result !! id)).
Proof.
  cbv zeta. revert by_id. induction ps as [|p ps IH]; intros by_id; cbn [foldl map].
  { split; [by left|]. intros [?|Hin]; [done|by apply elem_of_nil in Hin]. }
  destruct (IH (or_insert by_id p)) as [H1 H2]. unfold or_insert in H2 at 1. split.
  - intros q Hq. apply H1 in Hq as [Hq|[Hq ?]]; [|right; split; [by apply elem_of_cons; right|done]].
    unfold or_insert in Hq. destruct (by_id !! def_id p.2) eqn:E; [by left|].
    destruct (decide (def_id p.2 = id)) as [<-|]; [|rewrite lookup_insert_ne in Hq by done; by left].
    rewrite lookup_insert_eq in Hq. injection Hq as <-. right. split; [by apply elem_of_cons; left|done].
  - intros Hor. apply H2. destruct (by_id !! def_id p.2) eqn:E.
    + destruct Hor as [?|[->|?]%elem_of_cons]; [by left|by left; rewrite E|by right].
    + destruct (decide (def_id p.2 = id)) as [<-|]; [left; by rewrite lookup_insert_eq|].
      destruct Hor as [?|[?|?]%elem_of_cons]; [left; by rewrite lookup_insert_ne|congruence|by right].
Qed.

(** The leaves of the active model: each node once, by an entry that qualifies. *)
Lemma original_model_leaves_spec slot model :
  NoDup (map (λ p, def_id p.2) (original_model_leaves slot model)) ∧
  Forall (λ p, p ∈ map_entries ∧ model_leaf slot model p = true) (original_model_leaves slot model) ∧
  ∀ q, q ∈ map_entries → model_leaf slot model q = true → def_id q.2 ∈ map (λ p, def_id p.2) (original_model_leaves slot model).
Proof.
  unfold original_model_leaves, propmap_iter. set (eligible := filter _ map_entries).
  set (by_id := foldl or_insert ∅ eligible).
  assert (∀ id p, by_id !! id = Some p → p ∈ eligible ∧ def_id p.2 = id) as Hby.
  { intros id p H. destruct (or_insert_spec eligible ∅ id) as [H1 _]. apply H1 in H as [H|H]; [by rewrite lookup_empty in H|done]. }
  assert (map (λ p, def_id p.2) (map snd (map_to_list by_id)) = map fst (map_to_list by_id)) as Hids.
  { rewrite map_map. apply list_fmap_ext. intros i [id p] H. apply list_elem_of_lookup_2, elem_of_map_to_list, Hby in H as [_ H]. done. }
  assert (∀ p, p ∈ sort_by (λ a b, def_id a.2 <=? def_id b.2) (map snd (map_to_list by_id)) ↔ by_id !! def_id p.2 = Some p) as Hin.
  { intros p. rewrite elem_of_sort_by. split.
    - intros ([id q] & -> & H)%list_elem_of_fmap. apply elem_of_map_to_list in H. cbn [snd]. by destruct (Hby _ _ H) as [_ ->].
    - intros H. apply list_elem_of_fmap. exists (def_id p.2, p). split; [done|]. by apply elem_of_map_to_list. }
  split_and!.
  - assert (NoDup (map (λ p, def_id p.2) (map snd (map_to_list by_id)))) as H by (rewrite Hids; apply NoDup_fst_map_to_list).
    eapply NoDup_Permutation_proper; [|exact H]. apply fmap_Permutation, sort_by_perm.
  - apply list.Forall_forall. intros p H%Hin%Hby. destruct H as [[Hm He]%list_elem_of_filter _]. done.
  - intros q Hq Hm. destruct (or_insert_spec eligible ∅ (def_id q.2)) as [_ H2].
    destruct H2 as [p Hp]; [right; apply list_elem_of_fmap; exists q; split; [done|]; subst eligible; by apply list_elem_of_filter|].
    destruct (Hby _ _ Hp) as [_ Hid]. apply list_elem_of_fmap. exists p. split; [done|]. apply Hin. by rewrite Hid.
Qed.

Lemma battery_leaves_eq : battery_leaves = map fst (filter (λ p, is_leaf p = true) map_entries).
Proof.
  unfold battery_leaves, propmap_iter. apply (StronglySorted_unique_strong (λ a b, bytes_le a b = true)).
  - intros a b _ _ H1 H2. by apply bytes_le_antisymm.
  - apply (sort_by_sorted bytes_le).
  - apply sorted_map. pose proof entries_in_order as H. revert H. generalize map_entries as es. clear.
    intros es. induction es as [|p es IH]; [constructor|]. cbn [map]. intros [Hs Hp]%StronglySorted_inv.
    rewrite list.filter_cons. case_decide; [|by apply IH]. constructor; [by apply IH|].
    apply list.Forall_fmap in Hp. rewrite list.Forall_forall in *. intros q [_ Hq]%list_elem_of_filter. by apply Hp.
  - apply sort_by_perm.
Qed.

(** ** Properties *)

(** The battery is an even sample of the value leaves of the map: as many nodes as asked
    for, or all of them when there are fewer, in the map's order, every [stride]-th leaf;
    the same on every run. *)
Theorem battery_nodes_sample count :
  let leaves := map fst (filter (λ p, is_leaf p = true) map_entries) in
  let stride := Nat.max (length leaves / count) 1 in
  length (battery_nodes count) = Nat.min count (length leaves) ∧
  ∀ i, (i < length (battery_nodes count))%nat → battery_nodes count !! i = leaves !! (i * stride)%nat.
Proof.
  cbv zeta. unfold battery_nodes. rewrite battery_leaves_eq. set (leaves := map fst _).
  destruct (bool_decide (leaves = []) || (count =? 0)%nat) eqn:E.
  - split; [|simpl; lia]. apply orb_true_iff in E as [E%bool_decide_eq_true|E%Nat.eqb_eq]; rewrite E; simpl; lia.
  - apply orb_false_iff in E as [_ Hc%Nat.eqb_neq]. apply sample_spec. lia.
Qed.

(** The leaves the echo probe writes to: the first eight of each type, in the map's order,
    among the writable leaves that are no template, no system node and the only entry of
    their id; so probing one never writes another, and the choice does not fail. *)
Theorem probe_targets_safe :
  ∃ ts, probe_targets = Some ts ∧ ts `sublist_of` probe_leaves ∧ NoDup (map (λ p, def_id p.2) ts) ∧
    (∀ p, p ∈ ts → p ∈ map_entries ∧ def_read_only p.2 = false ∧ star ∉ p.1 ∧ dollar ∉ p.1 ∧
       ∀ q, q ∈ map_entries → def_id q.2 = def_id p.2 → q = p) ∧
    ∀ key, let same p := type_key (def_node_type p.2) = Some key in
      filter same ts = take PER_TYPE (filter same probe_leaves).
Proof.
  destruct probe_targets_spec as (ts & E & Hs & Hf). destruct (probe_targets_distinct ts E) as [Hn Hall].
  exists ts. split_and!; [done..| |done]. rewrite list.Forall_forall in Hall.
  intros p [Hp Hc]%Hall. pose proof (probe_candidate_spec p Hc) as (_ & ? & ? & ? & Hu). split_and!; [done..|].
  intros q Hq Hid. symmetry. by apply unique_id_alone.
Qed.
End PlanLaws.

(** A recovery file can be read back: whatever the names and the strings hold, the text
    is one record a line, and reading its lines as JSON gives every value that was written,
    with its node, in order (a number by its text; values that are not finite are left
    out). *)
Theorem path_values_read_back values : read_path_values (path_values_text values) = Some (omap shown values).
Proof.
  destruct (path_values_lines values) as (lines & Hs & Hr). unfold read_path_values.
  rewrite Hs, rev_app_distr. cbn [rev app]. by rewrite rev_involutive.
Qed.

(** *** Runs *)

Example escaped : json_escape (Byte.x01 :: str "a\b" ++ [Byte.x22; Byte.x0a]) = str "\u0001a\\b\" ++ [Byte.x22] ++ str "\n".
Proof. reflexivity. Qed.

Example one_record :
  path_values_text [(str "/ch/1/fdr", Snaps.Float (F32 0xc2b40000)); (str "/x", Snaps.Float (F32 0x7f800000)); (str "/ch/1/col", Snaps.Int 7)]
  = lit "{'path':'/ch/1/fdr','value':{'type':'float','value':-90}}|{'path':'/ch/1/col','value':{'type':'int','value':7}}|".
Proof. vm_compute. reflexivity. Qed.

(** The middle of the full range of an integer: the difference of its bounds overflows. *)
Example full_range_overflows :
  probe_inputs (mk_def 1 0 0 [] [] NodeTypes.Integer NodeUnits.None false None None None (Some I32_MIN) (Some I32_MAX) None None None []) = None.
Proof. reflexivity. Qed.

(** *** Witnesses *)

(** A map given by its list of entries. *)
Definition list_map (entries : list (list byte * WingNodeDef)) : EmbeddedMap := {|
  map_entries := entries;
  defs_by_id id := match filter (λ p, def_id p.2 = id) entries with [] => None | ps => Some ps end;
  def_by_name name := (list_to_map entries : gmap (list byte) WingNodeDef) !! name;
  id_by_name name := def_id <$> (list_to_map entries : gmap (list byte) WingNodeDef) !! name;
|}.

Lemma list_map_laws entries :
  NoDup (map fst entries) → StronglySorted (λ a b, bytes_le a b = true) (map fst entries) →
  EmbeddedMapLaws (list_map entries).
Proof. intros Hn Hs. split; try done. intros name d. symmetry. by apply elem_of_list_to_map. Qed.

Definition plain_leaf (id : Z) (type : NodeType) (items : option (list StringEnumItem)) : WingNodeDef :=
  mk_def id 0 0 [] [] type NodeUnits.None false None None None None None None items None [].

Definition fx_selector : WingNodeDef :=
  plain_leaf 5 NodeTypes.StringEnum (Some [mk_string_item (str "DEL") []; mk_string_item (str "HALL") []]).

(** One effects slot with two models, whose parameters share an id, and a channel. *)
Definition drive_map : EmbeddedMap := list_map
  [(str "/ch/1/col", plain_leaf 3 NodeTypes.Integer None);
   (str "/fx/1/DEL/time", plain_leaf 6 NodeTypes.Integer None);
   (str "/fx/1/HALL/pdel", plain_leaf 6 NodeTypes.Integer None);
   (str "/fx/1/mdl", fx_selector);
   (str "/fx/1/mix", plain_leaf 7 NodeTypes.Integer None)].

Lemma drive_map_laws : EmbeddedMapLaws drive_map.
Proof.
  apply list_map_laws; [apply (bool_decide_unpack _); vm_compute; exact I|].
  repeat constructor; vm_compute; reflexivity.
Qed.

Example drive_plans : let _ := drive_map in
  rep_slots = [str "/fx/1"]
  ∧ model_params !! (str "/fx/1", str "HALL") = Some [str "/fx/1/HALL/pdel"]
  ∧ map (λ p, p.1) (original_model_leaves (str "/fx/1") (str "HALL")) = [str "/fx/1/HALL/pdel"; str "/fx/1/mix"].
Proof. vm_compute. split_and!; reflexivity. Qed.

Lemma battery_nodes_sample_witness : let _ := drive_map in
  battery_nodes 2 = [str "/ch/1/col"; str "/fx/1/HALL/pdel"] ∧ length (battery_nodes 2) = 2%nat.
Proof.
  cbv zeta. split; [vm_compute; reflexivity|].
  destruct (@battery_nodes_sample drive_map drive_map_laws 2) as [H _]. exact H.
Defined.

Lemma probe_targets_safe_witness : let _ := drive_map in
  ∃ ts, probe_targets = Some ts ∧ map fst ts = [str "/ch/1/col"; str "/fx/1/mdl"; str "/fx/1/mix"]
    ∧ NoDup (map (λ p, def_id p.2) ts).
Proof.
  cbv zeta. destruct (@probe_targets_safe drive_map drive_map_laws) as (ts & E & _ & Hn & _).
  exists ts. split; [exact E|]. split; [|exact Hn].
  assert (map fst <$> @probe_targets drive_map = Some [str "/ch/1/col"; str "/fx/1/mdl"; str "/fx/1/mix"]) as H
    by (vm_compute; reflexivity).
  rewrite E in H. injection H as H. exact H.
Defined.
