(* ===== verification/Drive.v ===== *)
(** The conformance driver's work on a console ([src/tools/wingdrive.rs]): settled reads,
    verified restores, the capture of every model's defaults with its recovery file
    ([capture_model_slot], [capture_models]), the echo probe ([probe_echo]), the capture of
    the factory defaults and the restorable test write.

    A run has the console's session, the disk, and what it has gathered so far.  Time is an
    input: [timeouts] holds the deadline of each attended read in order, [windows] that of
    each read within a settle window, one list per window (it is over when the list is).
    The texts of errors are not modelled, their causes are.  [Waiting] is a run that still
    waits for the console. *)

From stdpp Require Import gmap relations.
From S2P Require Import Prelude Sort Text Bytes Lib Utf8 F32 Display NodeDef NodeData AtomicWrite EmbeddedMap DrivePlan Channel Meter NativeRequest NativeResponse ClientMessages ResponseReader ClientReader Attended SweepRows Crawl.
Local Open Scope Z_scope.
Local Open Scope rust_scope.

(** ** Data *)

(** Why a value was not restored: by [verify_restore], or by the final check. *)
Inductive RestoreFault :=
| RestoreWrite (path : list byte) (e : Error)
| RestoreReadback (path : list byte) (e : Error)
| RestoreDiffers (path : list byte) (before after : Snap)
| FinalReadback (path : list byte) (e : Error)
| FinalDiffers (path : list byte) (before after : Snap).

Inductive DriveError :=
| Waiting
| Panicked
| Wing (e : Error)
| Disk (e : IoError)
| NoOriginal (path : list byte) (e : Error)
| Unrestorable (path : list byte)
| UnknownModel (path value : list byte)
| PseudoModel (path value : list byte)
| NoSnapshot (path : list byte) (e : Error)
| NonFinite (path : list byte)
| Unsettled (model slot : list byte)
| NotRestored (fault : RestoreFault)
| Retained (failures : list RestoreFault)
| RecoveryExists
| UnknownTarget (path : list byte)
| NotAllowed
| BadScript (line : list byte).

(** An entry of [saved]. *)
Record Saved := mk_saved { saved_path : list byte; saved_def : WingNodeDef; saved_value : Snap }.

Record Drive := mk_drive {
  console : Session;
  disk : World;
  captured : list (list byte * Snap);
  records : list (list byte * SetVal * Snap);
  timeouts : list Deadline;
  windows : list (list Deadline);
}.

Abbreviation Driving A := (M Drive DriveError A).

Definition set_console (s : Session) (d : Drive) : Drive :=
  mk_drive s (disk d) (captured d) (records d) (timeouts d) (windows d).
Definition set_disk (w : World) (d : Drive) : Drive :=
  mk_drive (console d) w (captured d) (records d) (timeouts d) (windows d).

(** ** Calls *)

(** A call on the console, with its error as a value. *)
Definition wing {A} (m : Read A) : Driving (Result A) := λ d,
  match m (console d) with
  | (Ok a, s) => (Ok (Ok a), set_console s d)
  | (Err (Fail e), s) => (Ok (Err e), set_console s d)
  | (Err Blocked, s) => (Err Waiting, set_console s d)
  end.

(** [.map_err(..)?]. *)
Definition or_else {A} (error : Error → DriveError) (r : Result A) : Driving A :=
  match r with Ok a => ret a | Err e => throw (error e) end.

Definition on_disk {A} (m : Io A) : Driving A := λ d,
  match m (disk d) with
  | (Ok a, w) => (Ok a, set_disk w d)
  | (Err e, w) => (Err (Disk e), set_disk w d)
  end.

Definition next_timeout : Driving Deadline := λ d,
  (Ok (default None (head (timeouts d))),
   mk_drive (console d) (disk d) (captured d) (records d) (tail (timeouts d)) (windows d)).

Definition next_window : Driving (list Deadline) := λ d,
  (Ok (default [] (head (windows d))),
   mk_drive (console d) (disk d) (captured d) (records d) (timeouts d) (tail (windows d))).

Definition push_captured (entry : list byte * Snap) : Driving unit := modify (λ d,
  mk_drive (console d) (disk d) (captured d ++ [entry]) (records d) (timeouts d) (windows d)).

Definition push_record (r : list byte * SetVal * Snap) : Driving unit := modify (λ d,
  mk_drive (console d) (disk d) (captured d) (records d ++ [r]) (timeouts d) (windows d)).

(** [wing.get_node_data(id, timeout)], of which the callers take the data. *)
Definition get_data (id : Z) : Driving (Result WingNodeData) :=
  let! timeout := next_timeout in
  let! r := wing (get_node_data id timeout) in
  ret (map_ok fst r).

(** [wing.set_float] and [wing.set_int]. *)
Definition set_float (id : Z) (value : f32) : Read unit :=
  let! _ := ensure_stream_usable in
  let! buf := fallible (set_float_message id value) in
  write_all buf.

Definition set_int (id value : Z) : Read unit :=
  let! _ := ensure_stream_usable in
  let! buf := fallible (set_int_message id value) in
  write_all buf.

Definition set_snap (id : Z) (value : Snap) : Read unit :=
  match value with
  | Snaps.Str s => set_string id s
  | Snaps.Float f => set_float id f
  | Snaps.Int v => set_int id v
  end.

Definition set_input (id : Z) (input : SetVal) : Read unit :=
  match input with
  | SetVals.Float f => set_float id f
  | SetVals.Int v => set_int id v
  | SetVals.Str s => set_string id s
  end.

Definition set_target (id : Z) (val : WriteVal) : Read unit :=
  match val with WriteVals.Int v => set_int id v | WriteVals.Str s => set_string id s end.

(** ** Settled reads and verified restores *)

Fixpoint settle_loop (window : list Deadline) (id : Z) (snapshot : WingNodeData → Snap) (last : option Snap)
    : Driving (Result (option Snap)) :=
  match window with
  | [] => ret (Ok last)
  | remaining :: window =>
    let! r := wing (read_timeout remaining) in
    match r with
    | Ok (WingResponses.NodeData response_id data) =>
      settle_loop window id snapshot (if response_id =? id then Some (snapshot data) else last)
    | Ok _ => settle_loop window id snapshot last
    | Err Timeout => ret (Ok last)
    | Err e => ret (Err e)
    end
  end.

Definition read_settled_with (id : Z) (snapshot : WingNodeData → Snap) : Driving (Result Snap) :=
  let! requested := wing (send_request (request_node_data id)) in
  match requested with
  | Err e => ret (Err e)
  | Ok _ =>
    let! window := next_window in
    let! r := settle_loop window id snapshot None in
    ret (match r with Ok (Some v) => Ok v | Ok None => Err Timeout | Err e => Err e end)
  end.

Definition read_settled (id : Z) : Driving (Result Snap) := read_settled_with id snap.

Definition read_settled_for_def (def : WingNodeDef) : Driving (Result Snap) :=
  read_settled_with (def_id def) (λ data, snap_for_def data def).

Definition verify_restore (path : list byte) (original : Snap) (write_result : Result unit) (readback : Result Snap)
    : result RestoreFault unit :=
  match write_result, readback with
  | Err e, _ => Err (RestoreWrite path e)
  | Ok _, Err e => Err (RestoreReadback path e)
  | Ok _, Ok readback => if snap_eqb readback original then Ok tt else Err (RestoreDiffers path original readback)
  end.

(** A value written back and read, as the restores of a capture and of a probe do it. *)
Definition restore_value (path : list byte) (def : WingNodeDef) (value : Snap) : Driving (result RestoreFault unit) :=
  let! write := wing (set_snap (def_id def) value) in
  let! readback := match write with Ok _ => read_settled_for_def def | Err _ => ret (Err Timeout) end in
  ret (verify_restore path value write readback).

(** ** The capture of a slot's models *)

Definition write_path_values (path : Path) (values : list (list byte * Snap)) : Driving unit :=
  on_disk (publish_outputs [(path, path_values_text values)]).

Definition finite_snap (value : Snap) : bool := match value with Snaps.Float f => is_finite f | _ => true end.

Fixpoint snapshot_leaves (leaves : list (list byte * WingNodeDef)) : Driving (list Saved) :=
  match leaves with
  | [] => ret []
  | (path, def) :: leaves =>
    let! r := get_data (def_id def) in
    let! data := or_else (NoSnapshot path) r in
    match restorable_snap_for_def data def with
    | None => throw (Unrestorable path)
    | Some value =>
      if finite_snap value then
        let! rest := snapshot_leaves leaves in ret (mk_saved path def value :: rest)
      else throw (NonFinite path)
    end
  end.

(** What is saved before any selector write: the selector and the active model's leaves. *)
Definition snapshot_slot (slot : list byte) (mdl_def : WingNodeDef)
    (active_leaves : list byte → list (list byte * WingNodeDef)) : Driving (list Saved) :=
  let mdl_path := slot ++ str "/mdl" in
  let! r := get_data (def_id mdl_def) in
  let! original_data := or_else (NoOriginal mdl_path) r in
  match restorable_snap_for_def original_data mdl_def with
  | None | Some (Snaps.Float _) | Some (Snaps.Int _) => throw (Unrestorable mdl_path)
  | Some (Snaps.Str original_value) =>
    if negb (existsb (λ it, bytes_eqb (si_item it) original_value) (default [] (def_string_enum mdl_def)))
    then throw (UnknownModel mdl_path original_value)
    else if contains_any [star] original_value then throw (PseudoModel mdl_path original_value)
    else
      let! leaves := snapshot_leaves (active_leaves original_value) in
      ret (mk_saved mdl_path mdl_def (Snaps.Str original_value) :: leaves)
  end.

Section Capture.
Context `{EmbeddedMap}.

Definition get_data_by_name (fullname : list byte) : Driving (Result WingNodeData) :=
  match name_to_id fullname with Some id => get_data id | None => ret (Err InvalidInput) end.

Fixpoint capture_params (paths : list (list byte)) : Driving unit :=
  match paths with
  | [] => ret tt
  | path :: paths =>
    let! r := get_data_by_name path in
    let! data := or_else Wing r in
    push_captured (path, snap data) ;;! capture_params paths
  end.

Fixpoint cycle_models (slot : list byte) (mdl_def : WingNodeDef) (params : ModelParams) (models : list (list byte))
    : Driving unit :=
  match models with
  | [] => ret tt
  | model :: models =>
    if contains_any [star] model then cycle_models slot mdl_def params models
    else
      let! sent := wing (set_string (def_id mdl_def) model) in
      let! _ := or_else Wing sent in
      let! r := read_settled_for_def mdl_def in
      let! selected := or_else Wing r in
      if snap_eqb selected (Snaps.Str model) then
        capture_params (default [] (params !! (slot, model))) ;;! cycle_models slot mdl_def params models
      else throw (Unsettled model slot)
  end.

(** The closure whose result is kept for later. *)
Definition caught {A} (m : Driving A) : Driving (result DriveError A) := λ d,
  match m d with
  | (Err Waiting, d) => (Err Waiting, d)
  | (r, d) => (Ok r, d)
  end.

Fixpoint restore_leaves (leaves : list Saved) : Driving (list RestoreFault) :=
  match leaves with
  | [] => ret []
  | e :: leaves =>
    let! r := restore_value (saved_path e) (saved_def e) (saved_value e) in
    let! failures := restore_leaves leaves in
    ret (match r with Err f => f :: failures | Ok _ => failures end)
  end.

(** The failures, and whether the selector was restored. *)
Definition restore_saved (saved : list Saved) : Driving (list RestoreFault * bool) :=
  match saved with
  | [] => ret ([], false)
  | selector :: leaves =>
    let! r := restore_value (saved_path selector) (saved_def selector) (saved_value selector) in
    match r with
    | Err f => ret ([f], false)
    | Ok _ => let! failures := restore_leaves leaves in ret (failures, true)
    end
  end.

Fixpoint final_check (saved : list Saved) : Driving (list RestoreFault) :=
  match saved with
  | [] => ret []
  | e :: saved =>
    let! r := read_settled_for_def (saved_def e) in
    let! failures := final_check saved in
    ret (match r with
         | Ok readback =>
           if snap_eqb readback (saved_value e) then failures
           else FinalDiffers (saved_path e) (saved_value e) readback :: failures
         | Err error => FinalReadback (saved_path e) error :: failures
         end)
  end.

Definition recovery_values (saved : list Saved) : list (list byte * Snap) := map (λ e, (saved_path e, saved_value e)) saved.

(** From the first selector write on. *)
Definition cycle_and_restore (slot : list byte) (mdl_def : WingNodeDef) (models : list (list byte)) (params : ModelParams)
    (recovery_path : Path) (saved : list Saved) : Driving unit :=
  let! capture_result := caught (cycle_models slot mdl_def params models) in
  let! restored := restore_saved saved in
  let! unsettled := if restored.2 then final_check saved else ret [] in
  match restored.1 ++ unsettled with
  | [] => on_disk (remove_file recovery_path) ;;! lift capture_result
  | failures => throw (Retained failures)
  end.

Definition capture_model_slot (slot : list byte) (mdl_def : WingNodeDef) (models : list (list byte)) (params : ModelParams)
    (recovery_path : Path) (active_leaves : list byte → list (list byte * WingNodeDef)) : Driving unit :=
  let! saved := snapshot_slot slot mdl_def active_leaves in
  write_path_values recovery_path (recovery_values saved) ;;!
  cycle_and_restore slot mdl_def models params recovery_path saved.

(** ** The capture of all models *)

(** [Path::new(s)] of a text that ends in a name. *)
Definition path_of (s : list byte) : Path :=
  match rev (split_on slash s) with
  | name :: dirs => (concat (map (λ dir, dir ++ [slash]) (rev dirs)), Some name)
  | [] => ([], None)
  end.

Fixpoint capture_slots (params : ModelParams) (recovery_path : Path) (slots : list (list byte)) : Driving unit :=
  match slots with
  | [] => ret tt
  | slot :: slots =>
    match name_to_def (slot ++ str "/mdl") with
    | None => ret tt
    | Some mdl_def =>
      capture_model_slot slot mdl_def (map si_item (default [] (def_string_enum mdl_def))) params recovery_path
        (original_model_leaves slot)
    end ;;! capture_slots params recovery_path slots
  end.

Definition recovery_path_of (out_path : list byte) : Path := path_of (out_path ++ str ".recovery.jsonl").

Definition capture_models (out_path : list byte) : Driving unit :=
  let recovery_path := recovery_path_of out_path in
  let! present := on_disk (symlink_metadata recovery_path) in
  match present with
  | Some _ => throw RecoveryExists
  | None =>
    capture_slots model_params recovery_path rep_slots ;;!
    let! values := gets captured in
    write_path_values (path_of out_path) values
  end.

(** ** Probes, defaults and test writes *)

Fixpoint probe_values (path : list byte) (id : Z) (inputs : list SetVal) : Driving unit :=
  match inputs with
  | [] => ret tt
  | input :: inputs =>
    let! sent := wing (set_input id input) in
    match sent with
    | Err _ => ret tt
    | Ok _ =>
      let! echo := read_settled id in
      match echo with Ok echo => push_record (path, input, echo) | Err _ => ret tt end
    end ;;! probe_values path id inputs
  end.

Definition probe_target (target : list byte * WingNodeDef) : Driving unit :=
  let '(path, def) := target in
  let! r := get_data (def_id def) in
  let! original_data := or_else (NoOriginal path) r in
  match restorable_snap_for_def original_data def with
  | None => throw (Unrestorable path)
  | Some original =>
    let! inputs := match probe_inputs def with Some inputs => ret inputs | None => throw Panicked end in
    probe_values path (def_id def) inputs ;;!
    let! r := restore_value path def original in
    match r with Ok _ => ret tt | Err f => throw (NotRestored f) end
  end.

Fixpoint probe_all (targets : list (list byte * WingNodeDef)) : Driving unit :=
  match targets with [] => ret tt | target :: targets => probe_target target ;;! probe_all targets end.

(** Links are followed to the file itself. *)
Fixpoint final_path (fuel : nat) (m : gmap Path Entry) (p : Path) : option Path :=
  match m !! p with
  | Some (Symlink t) => match fuel with O => None | S fuel => final_path fuel m t end
  | _ => Some p
  end.

(** [std::fs::write]: the file is created or emptied, then written. *)
Definition fs_write (path : Path) (contents : list byte) : Io unit := λ w,
  match final_path 40 (files w) path with
  | None => throw (mk_io OtherKind (str "Too many levels of symbolic links (os error 40)")) w
  | Some q =>
    (os (λ m, match m !! q with Some Directory => Err is_directory | _ => Ok (<[q := Regular []]> m) end) ;;!
     AtomicWrite.write_all q contents) w
  end.

Definition probe_echo (out_path : list byte) : Driving unit :=
  let! targets := match probe_targets with Some targets => ret targets | None => throw Panicked end in
  probe_all targets ;;!
  let! records := gets records in
  on_disk (fs_write (path_of out_path) (echo_text records)).

(** The reads of a loop that skips what fails. *)
Fixpoint read_each {A} (read : A → Driving (Result WingNodeData)) (items : list A) : Driving (list (A * WingNodeData)) :=
  match items with
  | [] => ret []
  | item :: items =>
    let! r := read item in
    let! rest := read_each read items in
    ret (match r with Ok data => (item, data) :: rest | Err _ => rest end)
  end.

Definition capture_defaults (path : list byte) : Driving unit :=
  let! mdl := read_each get_data_by_name selectors in
  let! by_id := read_each get_data default_ids in
  on_disk (fs_write (path_of path) (defaults_text (map (prod_map id get_string) mdl) (map (prod_map id snap) by_id))).

Definition drive_restorable_write (path : list byte) (val : WriteVal) : Driving unit :=
  match name_to_def path with
  | None => throw (UnknownTarget path)
  | Some def =>
    let id := def_id def in
    let! r := get_data id in
    let! before_data := or_else Wing r in
    let before := snap before_data in
    let! sent := wing (set_target id val) in
    let! _ := or_else Wing sent in
    let! write_result := wing (set_snap id before) in
    let! readback := read_settled id in
    match verify_restore path before write_result readback with Ok _ => ret tt | Err f => throw (NotRestored f) end
  end.
End Capture.

(** ** What a run says *)

Lemma says_with_deadline P {A} timeout (m : Read A) : Says P m → Says P (with_deadline timeout m).
Proof.
  intros Hm s. unfold with_deadline. specialize (Hm (on_main (set_deadline (Some timeout)) s)).
  destruct (m _) as [[a|[e|]] s'].
  - exact Hm.
  - intros _. exact (Hm I).
  - exact Hm.
Qed.

Lemma read_locked_says : Says harmless read_locked.
Proof. apply says_read. Qed.

Lemma says_attended_loop {T} (matcher : WingResponse → option T) fuel buffered :
  Says harmless (attended_loop matcher fuel buffered).
Proof.
  revert buffered. induction fuel as [|fuel IH]; intros buffered s; cbn [attended_loop]; [by intros _|].
  pose proof (read_locked_says s) as H. destruct (read_locked s) as [[resp|[e|]] s1].
  - destruct (matcher resp); [done|]. destruct (MAX_ATTENDED_BUFFERED <=? _); [by intros _|].
    assert (Says harmless (let! expired := deadline_passed in
      if expired : bool then requeue (buffered ++ [resp]) ;;! throw (Fail Timeout) else attended_loop matcher fuel (buffered ++ [resp]))) as Hk.
    { apply says_bind; [apply says_deadline_passed|]. intros []; [|apply IH].
      apply says_bind; [by apply says_modify|]. intros _. apply says_throw. }
    specialize (Hk s1). destruct (bind deadline_passed _ s1) as [[a|e] s2]; [|intros _]; transitivity s1; try exact H; [exact Hk|exact (Hk I)].
  - specialize (H I). destruct e; intros _; exact H.
  - exact H.
Qed.

Lemma says_get_node_data id timeout : Says harmless (get_node_data id timeout).
Proof.
  apply says_bind; [apply (says_send_request _ (Asked id) I)|]. intros _. apply says_with_deadline.
  intros s. apply says_attended_loop.
Qed.

Lemma says_set_string P id v : P (Assigned id v) → Says P (set_string id v).
Proof.
  intros HP s. pose proof (set_string_sent id v s) as H. destruct (set_string id v s) as [[[]|e] s'].
  - exists [Assigned id v]. unfold wires. cbn [map concat]. rewrite app_nil_r. split; [done|]. by apply Forall_singleton.
  - intros _. by apply says_same.
Qed.

(** A call moves the session along [R], whatever comes of it, and leaves the disk alone. *)
Definition Frame (R : Session → Session → Prop) {A} (m : Driving A) : Prop := ∀ d,
  R (console d) (console (m d).2) ∧ disk (m d).2 = disk d.

(** All it does is say such things; or it may say anything. *)
Abbreviation Only P m := (Frame (says P) m).
Definition anything (s s' : Session) : Prop := True.

#[export] Instance anything_preorder : PreOrder anything.
Proof. by split. Qed.

Section Frame.
Context (R : Session → Session → Prop) `{!PreOrder R}.

Lemma frame_ret {A} (a : A) : Frame R (ret a).
Proof. by split. Qed.

Lemma frame_throw {A} e : Frame R (throw (A := A) e).
Proof. by split. Qed.

Lemma frame_bind {A B} (m : Driving A) (k : A → Driving B) :
  Frame R m → (∀ a, Frame R (k a)) → Frame R (bind m k).
Proof.
  intros Hm Hk d. destruct (Hm d) as [H1 H2]. unfold bind. destruct (m d) as [[a|e] d1]; [|done]. cbn [snd] in *.
  destruct (Hk a d1) as [H3 H4]. split; [by etransitivity|by rewrite H4].
Qed.

Lemma frame_caught {A} (m : Driving A) : Frame R m → Frame R (caught m).
Proof. intros Hm d. destruct (Hm d). unfold caught. by destruct (m d) as [[a|[]] d1]. Qed.

Lemma frame_or_else {A} f (r : Result A) : Frame R (or_else f r).
Proof. destruct r; [apply frame_ret|apply frame_throw]. Qed.

Lemma frame_next_timeout : Frame R next_timeout.
Proof. by split. Qed.

Lemma frame_next_window : Frame R next_window.
Proof. by split. Qed.

Lemma frame_push_captured e : Frame R (push_captured e).
Proof. by split. Qed.

Lemma frame_push_record r : Frame R (push_record r).
Proof. by split. Qed.
End Frame.

Lemma frame_weaken (R R' : Session → Session → Prop) {A} (m : Driving A) :
  (∀ s s', R s s' → R' s s') → Frame R m → Frame R' m.
Proof. intros H Hm d. destruct (Hm d). split; [by apply H|done]. Qed.

Lemma only_bind P {A B} (m : Driving A) (k : A → Driving B) : Only P m → (∀ a, Only P (k a)) → Only P (bind m k).
Proof. apply frame_bind, _. Qed.

Lemma any_bind {A B} (m : Driving A) (k : A → Driving B) :
  Frame anything m → (∀ a, Frame anything (k a)) → Frame anything (bind m k).
Proof. apply frame_bind, _. Qed.

Lemma only_wing P {A} (m : Read A) : Says P m → Only P (wing m).
Proof.
  intros Hm d. specialize (Hm (console d)). unfold wing. destruct (m (console d)) as [[a|[e|]] s]; (split; [|done]); by try apply Hm.
Qed.

Lemma frame_wing {A} (m : Read A) : Frame anything (wing m).
Proof. intros d. unfold wing. by destruct (m (console d)) as [[a|[e|]] s]. Qed.

Create HintDb frame discriminated.
#[export] Hint Resolve frame_ret frame_throw frame_or_else frame_next_timeout frame_next_window frame_push_captured
  frame_push_record frame_wing : frame.
#[export] Hint Resolve says_preorder anything_preorder : frame.

Ltac frame := repeat first
  [ solve [auto with frame] | (apply only_bind; [|intros ?]) | (apply any_bind; [|intros ?]) | progress cbv beta zeta | case_match ].

Lemma only_get_data id : Only harmless (get_data id).
Proof. unfold get_data. frame. apply only_wing, says_get_node_data. Qed.

Lemma only_settle_loop window id snapshot last : Only harmless (settle_loop window id snapshot last).
Proof.
  revert last. induction window as [|remaining window IH]; intros last; cbn [settle_loop]; [auto with frame|].
  apply only_bind; [apply only_wing, says_with_deadline, read_locked_says|]. intros r. frame.
Qed.

Lemma only_read_settled_with id snapshot : Only harmless (read_settled_with id snapshot).
Proof.
  apply only_bind; [apply only_wing, (says_send_request _ (Asked id) I)|]. intros [|]; [|auto with frame].
  apply only_bind; [auto with frame|]. intros window. apply only_bind; [apply only_settle_loop|]. frame.
Qed.

#[export] Hint Resolve only_get_data : frame.

Lemma only_read_settled_for_def def : Only harmless (read_settled_for_def def).
Proof. apply only_read_settled_with. Qed.

Lemma any_read_settled_for_def def : Frame anything (read_settled_for_def def).
Proof. eapply frame_weaken; [|apply only_read_settled_for_def]. done. Qed.

#[export] Hint Resolve only_read_settled_for_def any_read_settled_for_def : frame.

Lemma only_snapshot_leaves leaves : Only harmless (snapshot_leaves leaves).
Proof. induction leaves as [|[path def] leaves IH]; cbn [snapshot_leaves]; frame. Qed.

Lemma only_snapshot_slot slot mdl_def active_leaves : Only harmless (snapshot_slot slot mdl_def active_leaves).
Proof. unfold snapshot_slot. frame. apply only_snapshot_leaves. Qed.

(** ** Selectors and settled values *)

(** Harmless messages, and assignments of one of these values to a selector. *)
Definition selecting (id : Z) (values : list (list byte)) (a : Act) : Prop :=
  harmless a ∨ ∃ v, a = Assigned id v ∧ v ∈ values.

Definition plain_models (models : list (list byte)) : list (list byte) := filter (λ model, contains_any [star] model = false) models.

Lemma harmless_selecting id values a : harmless a → selecting id values a.
Proof. by left. Qed.

Lemma frame_selecting id values {A} (m : Driving A) : Only harmless m → Only (selecting id values) m.
Proof. apply frame_weaken. intros s s'. apply says_weaken. intros a. by left. Qed.

Lemma only_set_string id values v : v ∈ values → Only (selecting id values) (wing (set_string id v)).
Proof. intros Hv. apply only_wing, says_set_string. right. by eexists. Qed.

Lemma only_final_check saved : Only harmless (final_check saved).
Proof.
  induction saved as [|e saved IH]; cbn [final_check]; [auto with frame|].
  apply only_bind; [apply only_read_settled_for_def|]. intros r. apply only_bind; [done|]. intros fs. frame.
Qed.

Lemma any_restore_value path def value : Frame anything (restore_value path def value).
Proof.
  unfold restore_value. frame.
Qed.

Lemma any_restore_leaves leaves : Frame anything (restore_leaves leaves).
Proof.
  induction leaves as [|e leaves IH]; cbn [restore_leaves]; [auto with frame|].
  apply any_bind; [apply any_restore_value|]. intros r. apply any_bind; [done|]. intros fs. frame.
Qed.

Lemma any_restore_saved saved : Frame anything (restore_saved saved).
Proof.
  destruct saved as [|e leaves]; [apply frame_ret, _|]. cbn [restore_saved].
  apply any_bind; [apply any_restore_value|]. intros []; [|auto with frame].
  apply any_bind; [apply any_restore_leaves|]. frame.
Qed.

Lemma only_restore_selector path def v :
  Only (selecting (def_id def) [v]) (restore_value path def (Snaps.Str v)).
Proof.
  unfold restore_value. apply only_bind; [apply only_set_string; by apply list_elem_of_singleton|].
  intros write. apply only_bind; [|frame]. destruct write; [|auto with frame].
  apply frame_selecting, only_read_settled_for_def.
Qed.

(** Each of the saved values was read back as saved, one after the other. *)
Fixpoint all_settled (saved : list Saved) (d d' : Drive) : Prop :=
  match saved with
  | [] => d' = d
  | e :: saved => ∃ v d1, read_settled_for_def (saved_def e) d = (Ok (Ok v), d1) ∧ snap_eqb v (saved_value e) = true
                    ∧ all_settled saved d1 d'
  end.

Lemma final_check_settled saved d d' : final_check saved d = (Ok [], d') → all_settled saved d d'.
Proof.
  revert d. induction saved as [|e saved IH]; intros d; cbn [final_check all_settled]; [by intros [= <-]|].
  unfold bind, ret. destruct (read_settled_for_def (saved_def e) d) as [[r|f] d1]; [|done].
  destruct (final_check saved d1) as [[fs|f] d2] eqn:E; [|done].
  destruct r as [v|f]; [|done]. destruct (snap_eqb v (saved_value e)) eqn:Ev; [|done].
  intros [= -> <-]. exists v, d1. split_and!; [done..|by apply IH].
Qed.

(** A verified restore wrote the value and read it back. *)
Lemma restore_value_ok path def value d d' :
  restore_value path def value d = (Ok (Ok tt), d') →
  ∃ d1 v, wing (set_snap (def_id def) value) d = (Ok (Ok tt), d1) ∧
    read_settled_for_def def d1 = (Ok (Ok v), d') ∧ snap_eqb v value = true.
Proof.
  unfold restore_value, bind, ret. destruct (wing _ d) as [[[[]|e]|e] d1]; [|done..].
  destruct (read_settled_for_def def d1) as [[[v|e]|e] d2] eqn:E; [|done..].
  intros [= Hv <-]. exists d1, v. cbn in Hv. by destruct (snap_eqb v value).
Qed.

(** Each of the saved values was written, and read back as saved, one after the other. *)
Fixpoint all_restored (saved : list Saved) (d d' : Drive) : Prop :=
  match saved with
  | [] => d' = d
  | e :: saved => ∃ d1 d2 v, wing (set_snap (def_id (saved_def e)) (saved_value e)) d = (Ok (Ok tt), d1)
      ∧ read_settled_for_def (saved_def e) d1 = (Ok (Ok v), d2) ∧ snap_eqb v (saved_value e) = true
      ∧ all_restored saved d2 d'
  end.

Lemma restore_leaves_ok leaves d d' : restore_leaves leaves d = (Ok [], d') → all_restored leaves d d'.
Proof.
  revert d. induction leaves as [|e leaves IH]; intros d; cbn [restore_leaves all_restored]; [by intros [= <-]|].
  unfold bind, ret. destruct (restore_value _ _ _ d) as [[r|f] d2] eqn:E; [|done].
  destruct (restore_leaves leaves d2) as [[fs|f] d3] eqn:E3; [|done]. destruct r as [[]|f]; [|done].
  intros [= -> <-]. apply restore_value_ok in E as (d1 & v & ? & ? & ?). exists d1, d2, v. by split_and!; [..|apply IH].
Qed.

Lemma restore_saved_ok saved d d' : restore_saved saved d = (Ok ([], true), d') → all_restored saved d d'.
Proof.
  destruct saved as [|e leaves]; [done|]. cbn [restore_saved all_restored]. unfold bind, ret.
  destruct (restore_value _ _ _ d) as [[[[]|f]|f] d2] eqn:E; [|done..].
  destruct (restore_leaves leaves d2) as [[fs|f] d3] eqn:E3; [|done]. intros [= -> <-].
  apply restore_value_ok in E as (d1 & v & ? & ? & ?). exists d1, d2, v. by split_and!; [..|apply restore_leaves_ok].
Qed.

Section Slots.
Context `{EmbeddedMap}.

Lemma only_get_data_by_name fullname : Only harmless (get_data_by_name fullname).
Proof. unfold get_data_by_name. frame. Qed.

Lemma only_capture_params paths : Only harmless (capture_params paths).
Proof.
  induction paths as [|path paths IH]; cbn [capture_params]; [auto with frame|].
  apply only_bind; [apply only_get_data_by_name|]. intros r. frame.
Qed.

Lemma only_cycle_models slot mdl_def params models :
  Only (selecting (def_id mdl_def) (plain_models models)) (cycle_models slot mdl_def params models).
Proof.
  assert (∀ all, plain_models models ⊆ all →
    Only (selecting (def_id mdl_def) all) (cycle_models slot mdl_def params models)) as Hall; [|by apply Hall].
  intros all. induction models as [|model models IH]; intros Hsub; cbn [cycle_models]; [auto with frame|].
  unfold plain_models in *. rewrite list.filter_cons in Hsub.
  destruct (contains_any [star] model) eqn:Hstar; [apply IH; destruct (decide _); [done|set_solver]|].
  destruct (decide _) as [_|?] in Hsub; [|done].
  apply only_bind; [apply only_set_string; set_solver|]. intros sent.
  apply only_bind; [auto with frame|]. intros _.
  apply only_bind; [apply frame_selecting, only_read_settled_for_def|]. intros r.
  apply only_bind; [auto with frame|]. intros selected. destruct (snap_eqb _ _); [|auto with frame].
  apply only_bind; [apply frame_selecting, only_capture_params|]. intros _. apply IH. set_solver.
Qed.

(** ** Lemmas: the disk *)

Lemma touches_stage outputs staged : touches (λ _, True) (stage_outputs outputs staged).
Proof.
  revert staged. induction outputs as [|[p c] outputs IH]; intros staged; cbn [stage_outputs]; [apply touches_ret|].
  apply touches_staged_bind. intros t _. apply touches_try; [by apply touches_write|done|].
  intros e. apply touches_bind; [apply touches_remove_all; by apply list.Forall_forall|intros; apply touches_throw].
Qed.

Lemma publish_reliable outputs w : reliable w → reliable (publish_outputs outputs w).2.
Proof.
  assert (∀ A (P : A → Prop) l, (∀ a, P a) → Forall P l) as Hall by (intros; by apply list.Forall_forall).
  assert (touches (λ _, True) (publish_outputs outputs)) as Ht; [|apply Ht].
  unfold publish_outputs. apply touches_bind; [apply touches_check|]. intros _.
  apply touches_bind; [apply touches_stage|]. intros staged.
  apply touches_bind; [by apply touches_backup_outputs; auto|]. intros backups.
  apply touches_bind; [by apply touches_rename_outputs; auto|]. intros _. apply touches_drop. auto.
Qed.

Lemma write_path_values_spec path values d r d' :
  reliable (disk d) → ¬ dotted path → write_path_values path values d = (r, d') →
  console d' = console d ∧ captured d' = captured d ∧ reliable (disk d') ∧
  (∀ q, ¬ dotted q → q ≠ path → files (disk d') !! q = files (disk d) !! q) ∧
  match r with Ok _ => files (disk d') !! path = Some (Regular (path_values_text values)) | Err e => ∃ io, e = Disk io ∧ (contains (text io) rollback_marker = false →
      ∀ q, ¬ dotted q → files (disk d') !! q = files (disk d) !! q) end.
Proof.
  intros Hr Hp. unfold write_path_values, on_disk.
  pose proof (publish_reliable [(path, path_values_text values)] (disk d) Hr) as Hr'.
  destruct (publish_outputs _ (disk d)) as [o w] eqn:E. apply publish_outputs_spec in E as [Hq Ho];
    [|done|by apply NoDup_singleton|by repeat constructor].
  destruct o as [[]|e]; intros [= <- <-]; (split_and!; [done..| |]).
  - intros q Hd Hne. apply Hq; [done|]. intros Hin. by apply Hne, list_elem_of_singleton.
  - by apply list.Forall_cons in Ho as [Ho _].
  - intros q Hd Hne. apply Hq; [done|]. intros Hin. by apply Hne, list_elem_of_singleton.
  - by exists e.
Qed.

Lemma any_write_path_values path values d : console (write_path_values path values d).2 = console d.
Proof. unfold write_path_values, on_disk. by destruct (publish_outputs _ (disk d)) as [[a|e] w]. Qed.

Lemma remove_file_spec path d :
  let '(r, d') := on_disk (remove_file path) d in
  console d' = console d ∧ captured d' = captured d ∧ (reliable (disk d) → reliable (disk d')) ∧
  match r with Ok _ => files (disk d') !! path = None | Err _ => disk d' = set_faults (faults (disk d')) (disk d) end.
Proof.
  unfold on_disk. pose proof (touches_remove (λ _, True) path I (disk d)) as [_ Hr].
  destruct (remove_file path (disk d)) as [o w] eqn:E. pose proof (os_effect _ _ _ _ E) as Ho.
  destruct o as [[]|e]; (split_and!; [done..|]).
  - cbn. destruct (files (disk d) !! path) as [[]|]; try done; injection Ho as <-; apply lookup_delete_eq.
  - cbn. unfold remove_file, os in E. destruct (faults (disk d)) as [|[f|] fs].
    + destruct (files (disk d) !! path) as [[]|]; try discriminate E; by injection E as _ <-.
    + by injection E as _ <-.
    + destruct (files (disk d) !! path) as [[]|]; try discriminate E; by injection E as _ <-.
Qed.

Lemma remove_file_frame path d q : q ≠ path → files (disk (on_disk (remove_file path) d).2) !! q = files (disk d) !! q.
Proof.
  intros Hq. pose proof (touches_remove (λ q, q = path) path eq_refl (disk d)) as [Hf _].
  specialize (Hf q Hq). unfold on_disk. by destruct (remove_file path (disk d)) as [[a|e] w].
Qed.

Lemma symlink_metadata_spec path d :
  reliable (disk d) →
  ∃ w, on_disk (symlink_metadata path) d = (Ok (files (disk d) !! path), set_disk w d)
    ∧ files w = files (disk d) ∧ reliable w.
Proof.
  intros Hr. pose proof (touches_query (λ _, True) (λ m, m !! path) (disk d)) as [_ Hq].
  exists (symlink_metadata path (disk d)).2. split_and!; [|done|by apply Hq].
  unfold on_disk, symlink_metadata, query. cbn. unfold reliable in Hr.
  destruct (stat_faults (disk d)) as [|b l]; [done|]. by apply list.Forall_cons in Hr as [-> _].
Qed.

(** ** A slot *)

Definition on_file (recovery_path : Path) (saved : list Saved) (d : Drive) : Prop :=
  files (disk d) !! recovery_path = Some (Regular (path_values_text (recovery_values saved))).

(** The selector with one of its own models, which is no template, then the leaves that are
    active under it, with values that can be written down. *)
Definition slot_snapshot (slot : list byte) (mdl_def : WingNodeDef)
    (active_leaves : list byte → list (list byte * WingNodeDef)) (saved : list Saved) : Prop :=
  ∃ model leaves, saved = mk_saved (slot ++ str "/mdl") mdl_def (Snaps.Str model) :: leaves ∧
    model ∈ map si_item (default [] (def_string_enum mdl_def)) ∧ star ∉ model ∧
    map (λ e, (saved_path e, saved_def e)) leaves = active_leaves model ∧
    Forall (λ e, finite_snap (saved_value e) = true) leaves.

Lemma snapshot_leaves_spec leaves d saved d' :
  snapshot_leaves leaves d = (Ok saved, d') →
  map (λ e, (saved_path e, saved_def e)) saved = leaves ∧ Forall (λ e, finite_snap (saved_value e) = true) saved.
Proof.
  revert d saved d'. induction leaves as [|[path def] leaves IH]; intros d saved d'; cbn [snapshot_leaves].
  { intros [= <- <-]. by split; [|constructor]. }
  unfold bind. destruct (get_data (def_id def) d) as [[r|e] d1]; [|done]. destruct r as [data|e]; [|done]. cbn.
  destruct (restorable_snap_for_def data def) as [value|]; [|done]. destruct (finite_snap value) eqn:Ef; [|done].
  destruct (snapshot_leaves leaves d1) as [[rest|e] d2] eqn:E; [|done]. intros [= <- <-].
  apply IH in E as [H1 H2]. cbn [map]. rewrite H1. split; [done|]. by constructor.
Qed.

Lemma snapshot_slot_spec slot mdl_def active_leaves d saved d' :
  snapshot_slot slot mdl_def active_leaves d = (Ok saved, d') → slot_snapshot slot mdl_def active_leaves saved.
Proof.
  unfold snapshot_slot, bind. destruct (get_data (def_id mdl_def) d) as [[r|e] d1]; [|done].
  destruct r as [data|e]; [|done]. cbn. destruct (restorable_snap_for_def data mdl_def) as [[model| |]|]; [|done..].
  destruct (existsb _ _) eqn:Ex; [|done]. cbn. destruct (contains_any [star] model) eqn:Es; [done|].
  destruct (snapshot_leaves (active_leaves model) d1) as [[leaves|e] d2] eqn:E; [|done]. intros [= <- <-].
  apply snapshot_leaves_spec in E as [H1 H2]. exists model, leaves. split_and!; [done| | |done..].
  - apply existsb_exists in Ex as (it & Hit & <-%bytes_eqb_eq). apply list_elem_of_fmap. exists it.
    split; [done|]. by apply list_elem_of_In.
  - by apply contains_any_one.
Qed.

(** What [caught] does with the outcome of the cycle. *)
Lemma caught_outcome {A} (m : Driving A) d r d' :
  caught m d = (r, d') → d' = (m d).2 ∧ (r = Err Waiting ∨ ∃ o, r = Ok o).
Proof. unfold caught. destruct (m d) as [[a|[]] d1]; intros [= <- <-]; eauto. Qed.

Lemma restore_saved_false saved d fs d' : saved ≠ [] → restore_saved saved d = (Ok (fs, false), d') → fs ≠ [].
Proof.
  destruct saved as [|e leaves]; [done|]. intros _. cbn [restore_saved]. unfold bind, ret.
  destruct (restore_value _ _ _ d) as [[r|f] d1]; [|done]. destruct r as [[]|f].
  - by destruct (restore_leaves leaves d1) as [[fs'|f] d2].
  - by intros [= <- _].
Qed.

(** From the state [d] in which what was saved is on file: the selector was only set to the
    models, then all of it was written back and read, and all of it was read once more, with
    nothing but requests said since, before the file went. *)
Definition put_back (recovery_path : Path) (mdl_def : WingNodeDef) (models : list (list byte)) (saved : list Saved)
    (d d' : Drive) : Prop :=
  ∃ dc d2 d3, says (selecting (def_id mdl_def) (plain_models models)) (console d) (console dc) ∧
    on_file recovery_path saved dc ∧ all_restored saved dc d2 ∧ all_settled saved d2 d3 ∧
    says harmless (console d2) (console d3) ∧ console d' = console d3 ∧ files (disk d') !! recovery_path = None.

(** Once the recovery file is written, a slot ends with the file in place, or with every
    saved value put back. *)
Lemma cycle_and_restore_spec slot mdl_def models params recovery_path saved d r d' :
  saved ≠ [] → reliable (disk d) → on_file recovery_path saved d →
  cycle_and_restore slot mdl_def models params recovery_path saved d = (r, d') →
  reliable (disk d') ∧ (∀ q, q ≠ recovery_path → files (disk d') !! q = files (disk d) !! q) ∧
  (r ≠ Ok tt ∧ on_file recovery_path saved d' ∨ put_back recovery_path mdl_def models saved d d').
Proof.
  intros Hne Hrel Hf. unfold cycle_and_restore. unfold bind at 1.
  assert (Hkept : ∀ d1, disk d1 = disk d → reliable (disk d1) ∧
    (∀ q, q ≠ recovery_path → files (disk d1) !! q = files (disk d) !! q) ∧ on_file recovery_path saved d1)
    by (intros d1 Hd1; unfold on_file; by rewrite Hd1).
  destruct (caught _ d) as [r1 d1] eqn:E1. apply caught_outcome in E1 as [E1 Hr1].
  destruct (only_cycle_models slot mdl_def params models d) as [Hs1 Hd1]. rewrite <- E1 in Hd1, Hs1. clear E1.
  destruct (Hkept d1 Hd1) as (K1 & K2 & K3).
  destruct Hr1 as [->|[o ->]]; [intros [= <- <-]; by split_and!; [..|left]|].
  unfold bind at 1. destruct (any_restore_saved saved d1) as [_ Hd2]. rewrite Hd1 in Hd2.
  destruct (restore_saved saved d1) as [[[fs ok]|e] d2] eqn:E2; cbn [snd] in Hd2;
    destruct (Hkept d2 Hd2) as (L1 & L2 & L3); [|intros [= <- <-]; by split_and!; [..|left]].
  unfold bind at 1. cbn [snd]. destruct ok.
  - destruct (only_final_check saved d2) as [Hs3 Hd3]. rewrite Hd2 in Hd3.
    destruct (final_check saved d2) as [[more|e] d3] eqn:E3; cbn [snd fst] in *;
      destruct (Hkept d3 Hd3) as (M1 & M2 & M3); [|intros [= <- <-]; by split_and!; [..|left]].
    destruct (fs ++ more) as [|f fs'] eqn:Efs; [|intros [= <- <-]; by split_and!; [..|left]].
    apply app_nil in Efs as [-> ->]. apply final_check_settled in E3. apply restore_saved_ok in E2.
    pose proof (remove_file_spec recovery_path d3) as Hrm. pose proof (remove_file_frame recovery_path d3) as Hfr.
    unfold bind. destruct (on_disk (remove_file recovery_path) d3) as [[[]|e] d4]; cbn [snd] in Hfr;
      destruct Hrm as (Hc & _ & Hrel4 & Hrm).
    + unfold lift. intros [= <- <-]. split_and!; [by apply Hrel4|intros q Hq; by rewrite Hfr, M2|].
      right. by exists d1, d2, d3.
    + intros [= <- <-]. split_and!; [by apply Hrel4|intros q Hq; by rewrite Hfr, M2|]. left. split; [done|].
      unfold on_file. by rewrite Hrm.
  - pose proof (restore_saved_false saved d1 fs d2 Hne E2) as Hfs. cbn [ret fst]. rewrite app_nil_r.
    destruct fs; [done|]. intros [= <- <-]. by split_and!; [..|left].
Qed.

(** The leaves are not written before the selector was read back as saved. *)
Lemma selector_first slot mdl_def models params recovery_path saved model leaves d :
  saved = mk_saved (slot ++ str "/mdl") mdl_def (Snaps.Str model) :: leaves →
  let d' := (cycle_and_restore slot mdl_def models params recovery_path saved d).2 in
  ∃ dm, says (selecting (def_id mdl_def) (model :: plain_models models)) (console d) (console dm) ∧
    (console d' = console dm ∨
     ∃ dn v, read_settled_for_def mdl_def dn = (Ok (Ok v), dm) ∧ snap_eqb v (Snaps.Str model) = true).
Proof.
  intros ->. cbv zeta. unfold cycle_and_restore. unfold bind at 1.
  assert (∀ a values, values ⊆ model :: plain_models models → selecting (def_id mdl_def) values a →
    selecting (def_id mdl_def) (model :: plain_models models) a) as Hweak by (intros a values Hs [?|(v & -> & Hv)]; [by left|right; eauto]).
  destruct (caught _ d) as [r1 d1] eqn:E1. apply caught_outcome in E1 as [E1 Hr1].
  destruct (only_cycle_models slot mdl_def params models d) as [Hs1 _]. rewrite <- E1 in Hs1. clear E1.
  apply (says_weaken _ (selecting (def_id mdl_def) (model :: plain_models models))) in Hs1;
    [|intros a; apply Hweak; set_solver].
  destruct Hr1 as [->|[o ->]]; [exists d1; by split; [|left]|].
  unfold bind at 1. cbn [restore_saved saved_path saved_def saved_value]. unfold bind at 1.
  destruct (only_restore_selector (slot ++ str "/mdl") mdl_def model d1) as [Hs2 _].
  destruct (restore_value _ _ _ d1) as [[r|e] d2] eqn:E2; cbn [snd] in Hs2;
    apply (says_weaken _ (selecting (def_id mdl_def) (model :: plain_models models))) in Hs2;
    try (intros a; apply Hweak; set_solver); pose proof (transitivity Hs1 Hs2) as Hs; cycle 1.
  { exists d2. split; [done|by left]. }
  exists d2. split; [done|]. destruct r as [[]|f].
  - right. unfold restore_value, bind, ret in E2.
    destruct (wing (set_snap _ _) d1) as [[[[]|e]|e] d1'] eqn:E3; [|cbn in E2; by injection E2 as E2 _|done].
    destruct (read_settled_for_def mdl_def d1') as [[[v|e]|e] d2'] eqn:E4; [|by injection E2 as E2 _|done].
    injection E2 as E2 <-. cbn in E2. destruct (snap_eqb v (Snaps.Str model)) eqn:Ev; [|done]. by exists d1', v.
  - left. by cbn.
Qed.

(** *** Where the saved values come from *)

Definition answering (d : Drive) : Prop := session_ok (console d) ∧ capture (main (console d)) = None.

(** The next answers of the console are these. *)
Definition takes (d d' : Drive) (taken : list WingResponse) : Prop :=
  deliver (console d) = taken ++ deliver (console d').

Lemma get_data_takes id d data d' :
  answering d → get_data id d = (Ok (Ok data), d') →
  answering d' ∧ ∃ taken, takes d d' taken ∧ WingResponses.NodeData id data ∈ taken.
Proof.
  intros [Hs Hc]. unfold get_data, bind, next_timeout, wing. cbn [console].
  set (timeout := default None _). set (s0 := console d) in *.
  pose proof (get_attended_ok (matches_data id) (request_node_data id) timeout s0 Hs Hc) as Hok.
  pose proof (get_node_data_capture id timeout s0 Hs Hc) as Hcap. unfold get_node_data in *.
  destruct (bind (send_request _) _ s0) as [[[t buffered]|[e|]] s']; [|done..].
  intros [= -> <-]. destruct Hok as (Hs' & _ & resp & Hm & Hd). apply matches_data_inv in Hm as ->.
  split; [by split|]. exists (buffered ++ [WingResponses.NodeData id data]).
  split; [|set_solver]. unfold takes. fold s0. cbn. by rewrite Hd, <- (assoc_L (++)).
Qed.

Definition answered (d : Drive) (e : Saved) : Prop :=
  ∃ data, WingResponses.NodeData (def_id (saved_def e)) data ∈ deliver (console d)
    ∧ restorable_snap_for_def data (saved_def e) = Some (saved_value e).

Lemma takes_answered d d' taken e : takes d d' taken → answered d' e → answered d e.
Proof. intros Ht (data & Hin & Hv). exists data. split; [|done]. rewrite Ht. set_solver. Qed.

Lemma snapshot_leaves_answers leaves d saved d' :
  answering d → snapshot_leaves leaves d = (Ok saved, d') → Forall (answered d) saved.
Proof.
  revert d saved d'. induction leaves as [|[path def] leaves IH]; intros d saved d' Ha; cbn [snapshot_leaves].
  { intros [= <- <-]. constructor. }
  unfold bind. destruct (get_data (def_id def) d) as [[r|e] d1] eqn:E1; [|done]. destruct r as [data|e]; [|done]. cbn.
  apply get_data_takes in E1 as (Ha1 & taken & Ht & Hin); [|done].
  destruct (restorable_snap_for_def data def) as [value|] eqn:Ev; [|done]. destruct (finite_snap value); [|done].
  destruct (snapshot_leaves leaves d1) as [[rest|e] d2] eqn:E; [|done]. intros [= <- <-].
  apply IH in E; [|done]. constructor.
  - exists data. split; [|done]. rewrite Ht. set_solver.
  - eapply list.Forall_impl; [exact E|]. intros e. by eapply takes_answered.
Qed.

Lemma snapshot_slot_answers slot mdl_def active_leaves d saved d' :
  session_ok (console d) → capture (main (console d)) = None →
  snapshot_slot slot mdl_def active_leaves d = (Ok saved, d') → Forall (answered d) saved.
Proof.
  intros Hs Hc. unfold snapshot_slot, bind. destruct (get_data (def_id mdl_def) d) as [[r|e] d1] eqn:E1; [|done].
  destruct r as [data|e]; [|done]. cbn. apply get_data_takes in E1 as (Ha1 & taken & Ht & Hin); [|by split].
  destruct (restorable_snap_for_def data mdl_def) as [[model| |]|] eqn:Ev; [|done..].
  destruct (negb _); [done|]. destruct (contains_any [star] model); [done|].
  destruct (snapshot_leaves (active_leaves model) d1) as [[leaves|e] d2] eqn:E; [|done]. intros [= <- <-].
  apply snapshot_leaves_answers in E; [|done]. constructor.
  - exists data. split; [|done]. rewrite Ht. set_solver.
  - eapply list.Forall_impl; [exact E|]. intros e. by eapply takes_answered.
Qed.

(** A slot that was taken through its models and is as it was: everything saved of it before,
    with requests only, was put back, and its recovery file is gone. *)
Definition restored_slot (recovery_path : Path) (slot : list byte) (mdl_def : WingNodeDef) (models : list (list byte))
    (active_leaves : list byte → list (list byte * WingNodeDef)) (d d' : Drive) : Prop :=
  ∃ saved d1 dw, snapshot_slot slot mdl_def active_leaves d = (Ok saved, d1) ∧
    slot_snapshot slot mdl_def active_leaves saved ∧ says harmless (console d) (console d1) ∧
    console dw = console d1 ∧ on_file recovery_path saved dw ∧ put_back recovery_path mdl_def models saved dw d'.

(** A slot that was changed and may not be restored: what was saved of it is on file. *)
Definition retained_slot (recovery_path : Path) (slot : list byte) (mdl_def : WingNodeDef)
    (active_leaves : list byte → list (list byte * WingNodeDef)) (d d' : Drive) : Prop :=
  ∃ saved d1, snapshot_slot slot mdl_def active_leaves d = (Ok saved, d1) ∧ on_file recovery_path saved d'.

Lemma slot_snapshot_nonempty slot mdl_def active_leaves saved : slot_snapshot slot mdl_def active_leaves saved → saved ≠ [].
Proof. by intros (model & leaves & -> & _). Qed.

Lemma capture_model_slot_cases slot mdl_def models params recovery_path active_leaves d r d' :
  reliable (disk d) → ¬ dotted recovery_path →
  capture_model_slot slot mdl_def models params recovery_path active_leaves d = (r, d') →
  reliable (disk d') ∧ (∀ q, ¬ dotted q → q ≠ recovery_path → files (disk d') !! q = files (disk d) !! q) ∧
  (r ≠ Ok tt ∧ says harmless (console d) (console d') ∨
   r ≠ Ok tt ∧ retained_slot recovery_path slot mdl_def active_leaves d d' ∨
   restored_slot recovery_path slot mdl_def models active_leaves d d').
Proof.
  intros Hrel Hp. unfold capture_model_slot. unfold bind at 1.
  destruct (only_snapshot_slot slot mdl_def active_leaves d) as [Hs1 Hd1].
  destruct (snapshot_slot slot mdl_def active_leaves d) as [[saved|e] d1] eqn:E1; cbn [snd] in *.
  2: { intros [= <- <-]. rewrite Hd1. split_and!; [done..|]. by left. }
  unfold bind. destruct (write_path_values recovery_path (recovery_values saved) d1) as [r2 d2] eqn:E2.
  apply write_path_values_spec in E2 as (Hc & _ & Hrel2 & Hq2 & Hr2); [|by rewrite Hd1|done]. rewrite Hd1 in Hq2.
  destruct r2 as [[]|e].
  2: { intros [= <- <-]. split_and!; [done..|]. left. split; [done|]. by rewrite Hc. }
  pose proof (snapshot_slot_spec _ _ _ _ _ _ E1) as Hsn.
  intros E. apply cycle_and_restore_spec in E as (Hrel' & Hq & Ho); [|by eapply slot_snapshot_nonempty|done|done].
  split; [done|]. split; [intros q Hd Hne; by rewrite Hq, Hq2|]. right. destruct Ho as [[? ?]|Hback].
  - left. split; [done|]. by exists saved, d1.
  - right. by exists saved, d1, d2.
Qed.

(** A run over slots, all of them restored in turn. *)
Fixpoint slots_restored (recovery_path : Path) (slots : list (list byte)) (d d' : Drive) : Prop :=
  match slots with
  | [] => d' = d
  | slot :: slots =>
    ∃ d1, match name_to_def (slot ++ str "/mdl") with
          | None => d1 = d
          | Some mdl_def => restored_slot recovery_path slot mdl_def
              (map si_item (default [] (def_string_enum mdl_def))) (original_model_leaves slot) d d1
          end ∧ slots_restored recovery_path slots d1 d'
  end.

(** How a run over slots stops early: before it changed the slot it was at, or with that
    slot's values on file. *)
Definition stopped (recovery_path : Path) (slots : list (list byte)) (d d' : Drive) : Prop :=
  says harmless (console d) (console d') ∨
  ∃ slot rest mdl_def, slots = slot :: rest ∧ name_to_def (slot ++ str "/mdl") = Some mdl_def ∧
    retained_slot recovery_path slot mdl_def (original_model_leaves slot) d d'.

Lemma capture_slots_spec params recovery_path slots d r d' :
  reliable (disk d) → ¬ dotted recovery_path → capture_slots params recovery_path slots d = (r, d') →
  reliable (disk d') ∧ (∀ q, ¬ dotted q → q ≠ recovery_path → files (disk d') !! q = files (disk d) !! q) ∧
  ∃ past rest dm, slots = past ++ rest ∧ slots_restored recovery_path past d dm ∧
    (r = Ok tt ∧ rest = [] ∧ d' = dm ∨ r ≠ Ok tt ∧ stopped recovery_path rest dm d').
Proof.
  intros Hrel Hp. revert d Hrel. induction slots as [|slot slots IH]; intros d Hrel; cbn [capture_slots].
  { intros [= <- <-]. split; [done|]. split; [done|]. exists [], [], d. split_and!; [done..|]. by left. }
  unfold bind. destruct (name_to_def (slot ++ str "/mdl")) as [mdl_def|] eqn:Edef.
  - destruct (capture_model_slot _ _ _ _ _ _ d) as [r1 d1] eqn:E1.
    apply capture_model_slot_cases in E1 as (Hrel1 & Hq1 & H1); [|done..].
    destruct H1 as [[Hr Hs]|[[Hr Hret]|Hres]].
    + destruct r1 as [[]|e]; [done|]. intros [= <- <-]. split; [done|]. split; [done|]. exists [], (slot :: slots), d.
      split_and!; [done..|]. right. split; [done|]. by left.
    + destruct r1 as [[]|e]; [done|]. intros [= <- <-]. split; [done|]. split; [done|]. exists [], (slot :: slots), d.
      split_and!; [done..|]. right. split; [done|]. right. by exists slot, slots, mdl_def.
    + destruct r1 as [[]|e].
      * intros E. apply IH in E as (Hrel' & Hq & past & rest & dm & -> & Hdone & Ho); [|done].
        split; [done|]. split; [intros q Hd Hne; by rewrite Hq, Hq1|].
        exists (slot :: past), rest, dm. split; [done|]. split; [|done]. cbn [slots_restored]. rewrite Edef. by exists d1.
      * intros [= <- <-]. split; [done|]. split; [done|]. exists [slot], slots, d1. split; [done|]. split.
        { cbn [slots_restored]. rewrite Edef. by exists d1. }
        right. split; [done|]. by left.
  - cbn [ret]. intros E. apply IH in E as (Hrel' & Hq & past & rest & dm & -> & Hdone & Ho); [|done].
    split; [done|]. split; [done|].
    exists (slot :: past), rest, dm. split; [done|]. split; [|done]. cbn [slots_restored]. rewrite Edef. by exists d.
Qed.

(** *** Paths *)

Lemma split_on_suffix s suffix :
  contains_any [slash] suffix = false →
  ∃ dirs name, split_on slash s = dirs ++ [name] ∧ split_on slash (s ++ suffix) = dirs ++ [name ++ suffix].
Proof.
  intros Hs. induction s as [|b s (dirs & name & H1 & H2)].
  { exists [], []. split; [done|]. by apply split_on_none. }
  cbn [app split_on]. destruct (bool_decide (b = slash)).
  - exists ([] :: dirs), name. by rewrite H1, H2.
  - rewrite H1, H2. destruct dirs as [|dir dirs]; cbn [app].
    + by exists [], (b :: name).
    + by exists ((b :: dir) :: dirs), name.
Qed.

Lemma recovery_path_other out_path :
  ¬ dotted (recovery_path_of out_path) →
  path_of out_path ≠ recovery_path_of out_path ∧ ¬ dotted (path_of out_path).
Proof.
  unfold recovery_path_of, path_of, dotted.
  destruct (split_on_suffix out_path (str ".recovery.jsonl") eq_refl) as (dirs & name & -> & ->).
  rewrite !rev_app_distr. cbn [rev app fst snd]. intros Hd. split.
  - intros [= Hl]. apply (f_equal length) in Hl. rewrite length_app in Hl. simpl in Hl. lia.
  - intros [rest [= ->]]. apply Hd. by eexists.
Qed.

(** *** Probes *)

(** A target that was read, probed and written back, and was then read as before. *)
Definition probed (target : list byte * WingNodeDef) (d d' : Drive) : Prop :=
  ∃ data original d1 d2 d3 v, get_data (def_id target.2) d = (Ok (Ok data), d1) ∧
    restorable_snap_for_def data target.2 = Some original ∧
    wing (set_snap (def_id target.2) original) d2 = (Ok (Ok tt), d3) ∧
    read_settled_for_def target.2 d3 = (Ok (Ok v), d') ∧ snap_eqb v original = true.

Fixpoint all_probed (targets : list (list byte * WingNodeDef)) (d d' : Drive) : Prop :=
  match targets with
  | [] => d' = d
  | target :: targets => ∃ d1, probed target d d1 ∧ all_probed targets d1 d'
  end.

Lemma probe_target_ok target d d' : probe_target target d = (Ok tt, d') → probed target d d'.
Proof.
  destruct target as [path def]. unfold probe_target, probed. cbn [fst snd]. unfold bind at 1.
  destruct (get_data (def_id def) d) as [[r|e] d1]; [|done]. destruct r as [data|e]; [|done].
  unfold bind at 1, or_else, ret. destruct (restorable_snap_for_def data def) as [original|] eqn:Eo; [|done].
  unfold bind at 1. destruct (probe_inputs def) as [inputs|]; [|done]. unfold bind at 1.
  destruct (probe_values path (def_id def) inputs d1) as [[[]|e] d2]; [|done]. unfold bind.
  destruct (restore_value path def original d2) as [[[[]|f]|e] d3] eqn:E; [|done..]. intros [= <-].
  apply restore_value_ok in E as (d4 & v & ? & ? & ?). by exists data, original, d1, d2, d4, v.
Qed.

Lemma probe_all_spec targets d r d' :
  probe_all targets d = (r, d') →
  ∃ past rest dm, targets = past ++ rest ∧ all_probed past d dm ∧
    (r = Ok tt ∧ rest = [] ∧ d' = dm ∨ ∃ target rest' e, rest = target :: rest' ∧ r = Err e ∧ probe_target target dm = (Err e, d')).
Proof.
  revert d. induction targets as [|target targets IH]; intros d; cbn [probe_all].
  { intros [= <- <-]. exists [], [], d. split_and!; [done..|]. by left. }
  unfold bind. destruct (probe_target target d) as [[[]|e] d1] eqn:E1.
  - intros E. apply IH in E as (past & rest & dm & -> & Hp & Ho). exists (target :: past), rest, dm.
    split; [done|]. split; [|done]. exists d1. split; [by apply probe_target_ok|done].
  - intros [= <- <-]. exists [], (target :: targets), d. split_and!; [done..|]. right. by exists target, targets, e.
Qed.

Lemma slots_restored_none recovery_path slots d d' :
  slots_restored recovery_path slots d d' → files (disk d) !! recovery_path = None → files (disk d') !! recovery_path = None.
Proof.
  revert d. induction slots as [|slot slots IH]; intros d; cbn [slots_restored]; [by intros ->|].
  intros (d1 & H1 & H2) Hn. apply (IH d1); [done|]. destruct (name_to_def _); [|by subst].
  by destruct H1 as (? & ? & ? & _ & _ & _ & _ & _ & ? & ? & ? & _ & _ & _ & _ & _ & _ & ?).
Qed.
End Slots.

(** ** Properties *)

Section Properties.
Context `{EmbeddedMap}.

(** C32: capturing every model's defaults leaves the console as it was, or leaves what is
    needed to put it back, on a disk whose metadata queries do not fail and with a recovery
    file not named like a staged one.  With a recovery file in place it does nothing at all.
    Otherwise the slots are taken in order, and those passed were restored: their selector and
    the active model's leaves were saved and put on file, the selector was only set to its
    models, everything saved was written back and read as saved, and all of it was read as
    saved once more, with nothing written since, before the file went.  The run succeeds
    exactly when that is all of them, with no recovery file left and every captured value
    published; otherwise the output file is as it was, and the run stopped at a slot, before
    changing anything there or with the recovery file holding what was saved of that slot;
    or all slots were restored and the publication failed, which leaves the output as it was
    unless the failure says that its own rollback failed. *)
Theorem capture_models_restores out_path d r d' :
  reliable (disk d) → ¬ dotted (recovery_path_of out_path) → capture_models out_path d = (r, d') →
  let recovery_path := recovery_path_of out_path in
  let published := files (disk d') !! path_of out_path in
  match files (disk d) !! recovery_path with
  | Some _ => r = Err RecoveryExists ∧ console d' = console d ∧ files (disk d') = files (disk d)
  | None =>
    ∃ w past rest dm, files w = files (disk d) ∧ rep_slots = past ++ rest ∧
      slots_restored recovery_path past (set_disk w d) dm ∧
      (r = Ok tt ∧ rest = [] ∧ console d' = console dm ∧ files (disk d') !! recovery_path = None ∧
         published = Some (Regular (path_values_text (captured d')))
       ∨ r ≠ Ok tt ∧ stopped recovery_path rest dm d' ∧ published = files (disk d) !! path_of out_path
       ∨ (∃ io, r = Err (Disk io) ∧ (contains (text io) rollback_marker = false →
            published = files (disk d) !! path_of out_path)) ∧
         rest = [] ∧ console d' = console dm ∧ files (disk d') !! recovery_path = None)
  end.
Proof.
  intros Hrel Hp E. cbv zeta. destruct (recovery_path_other out_path Hp) as [Hne Hout].
  unfold capture_models in E. unfold bind at 1 in E. set (recovery_path := recovery_path_of out_path) in *.
  destruct (symlink_metadata_spec recovery_path d Hrel) as (w & E0 & Hf0 & Hrel0). rewrite E0 in E.
  destruct (files (disk d) !! recovery_path) as [entry|] eqn:Ef; [injection E as <- <-; by split_and!|].
  unfold bind at 1 in E. destruct (capture_slots model_params recovery_path rep_slots (set_disk w d)) as [r1 d1] eqn:E1.
  apply capture_slots_spec in E1 as (Hrel1 & Hq1 & past & rest & dm & Hslots & Hdone & Ho); [|done..].
  exists w, past, rest, dm. split_and!; [done..|].
  assert (Hpub : files (disk d1) !! path_of out_path = files (disk d) !! path_of out_path)
    by (rewrite Hq1 by done; cbn; by rewrite Hf0).
  destruct Ho as [(-> & -> & ->)|[Hr Hstop]].
  - unfold bind, gets in E. pose proof (write_path_values_spec (path_of out_path) (captured dm) dm r d' Hrel1 Hout E) as (Hc & Hcap & _ & Hq & Hr).
    assert (files (disk d') !! recovery_path = None) as Hrec.
    { rewrite Hq by done. eapply slots_restored_none; [exact Hdone|]. cbn. by rewrite Hf0. }
    destruct r as [[]|e]; [left; split_and!; [done..|by rewrite Hcap]|].
    right. right. destruct Hr as (io & -> & Hio). split_and!; [|done..].
    exists io. split; [done|]. intros Hm. by rewrite Hio.
  - right. left. destruct r1 as [[]|e]; [done|]. injection E as <- <-. done.
Qed.

(** What is saved of a slot before anything is changed: the selector, set to one of its own
    models and to no template, and exactly the leaves active under that model, each with a
    value the console answered for it now, in the form the restore writes; and getting it
    takes requests only. *)
Theorem snapshot_slot_exact slot mdl_def active_leaves d saved d' :
  session_ok (console d) → capture (main (console d)) = None →
  snapshot_slot slot mdl_def active_leaves d = (Ok saved, d') →
  slot_snapshot slot mdl_def active_leaves saved ∧
  Forall (λ e, ∃ data, WingResponses.NodeData (def_id (saved_def e)) data ∈ deliver (console d)
                 ∧ restorable_snap_for_def data (saved_def e) = Some (saved_value e)) saved ∧
  says harmless (console d) (console d').
Proof.
  intros Hs Hc E. split; [by eapply snapshot_slot_spec|]. split; [by eapply snapshot_slot_answers|].
  pose proof (only_snapshot_slot slot mdl_def active_leaves d) as [H1 _]. by rewrite E in H1.
Qed.

(** A slot's leaves are never written under an unconfirmed selector: whatever the console
    answers and wherever it ends, all a slot's capture assigns is the selector, to its own
    models or to the saved one, until the selector has been read back as saved. *)
Theorem capture_selector_first slot mdl_def models params recovery_path active_leaves d :
  let d' := (capture_model_slot slot mdl_def models params recovery_path active_leaves d).2 in
  ∃ model dm, says (selecting (def_id mdl_def) (model :: plain_models models)) (console d) (console dm) ∧
    (console d' = console dm ∨
     ∃ dn v, read_settled_for_def mdl_def dn = (Ok (Ok v), dm) ∧ snap_eqb v (Snaps.Str model) = true).
Proof.
  cbv zeta. unfold capture_model_slot. unfold bind at 1.
  pose proof (only_snapshot_slot slot mdl_def active_leaves d) as [Hs1 _].
  destruct (snapshot_slot slot mdl_def active_leaves d) as [[saved|e] d1] eqn:E1; cbn [snd] in *.
  2: { exists [], d1. split; [|by left]. revert Hs1. apply says_weaken. by left. }
  apply snapshot_slot_spec in E1 as (model & leaves & -> & _). exists model. unfold bind.
  pose proof (any_write_path_values recovery_path (recovery_values (mk_saved (slot ++ str "/mdl") mdl_def (Snaps.Str model) :: leaves)) d1) as Hc.
  destruct (write_path_values _ _ d1) as [[[]|e] d2]; cbn [snd] in *.
  - destruct (selector_first slot mdl_def models params recovery_path _ model leaves d2 eq_refl) as (dm & Hdm & Ho).
    exists dm. split; [|exact Ho]. etransitivity; [|exact Hdm]. rewrite Hc. revert Hs1. apply says_weaken. by left.
  - exists d1. split; [|left; exact Hc]. revert Hs1. apply says_weaken. by left.
Qed.

(** The echo probe leaves every target as it found it, or stops at the first it could not
    restore: the targets before that one were each written back and then read back as they
    were first read, the ones after it are not touched, and a run that succeeds has restored
    them all. *)
Theorem probe_echo_restores out_path d r d' targets :
  probe_targets = Some targets → probe_echo out_path d = (r, d') →
  ∃ past rest dm, targets = past ++ rest ∧ all_probed past d dm ∧
    match rest with
    | [] => console d' = console dm ∧ (∀ e, r = Err e → ∃ io, e = Disk io)
    | target :: _ => ∃ e, r = Err e ∧ probe_target target dm = (Err e, d')
    end.
Proof.
  intros Ht. unfold probe_echo. rewrite Ht. unfold bind, ret at 1.
  destruct (probe_all targets d) as [r1 d1] eqn:E1.
  apply probe_all_spec in E1 as (past & rest & dm & -> & Hp & Ho). intros E. exists past, rest, dm.
  split; [done|]. split; [done|]. destruct Ho as [(-> & -> & ->)|(target & rest' & e & -> & -> & Hf)].
  - unfold gets, on_disk in E. destruct (fs_write _ _ (disk dm)) as [[a|io] w]; injection E as <- <-; split; [done..|done|].
    intros e [= <-]. by eexists.
  - injection E as <- <-. by exists e.
Qed.

(** A test write that succeeds was undone: the value read before it was written back, and
    read back equal. *)
Theorem restorable_write_undone path val d d' :
  drive_restorable_write path val d = (Ok tt, d') →
  ∃ def data d1 d2 d3 v, name_to_def path = Some def ∧ get_data (def_id def) d = (Ok (Ok data), d1) ∧
    wing (set_snap (def_id def) (snap data)) d2 = (Ok (Ok tt), d3) ∧
    read_settled (def_id def) d3 = (Ok (Ok v), d') ∧ snap_eqb v (snap data) = true.
Proof.
  intros E. unfold drive_restorable_write in E. destruct (name_to_def path) as [def|]; [|done]. unfold bind in E.
  destruct (get_data (def_id def) d) as [[[data|e]|e] d1] eqn:E1; try done. cbn in E.
  destruct (wing (set_target _ _) d1) as [[[[]|e]|e] d2]; try done. cbn in E.
  destruct (wing (set_snap _ _) d2) as [[w|e] d3] eqn:Ew; [|done].
  destruct (read_settled (def_id def) d3) as [[r|e] d4] eqn:Er; [|done].
  destruct w as [[]|e]; [|done]. destruct r as [v|e]; [|done]. cbn in E.
  destruct (snap_eqb v (snap data)) eqn:Ev; [|done]. injection E as <-.
  by exists def, data, d1, d2, d3, v.
Qed.
End Properties.

(** *** Runs *)

Definition text_answer (id : Z) (s : list byte) : NativeResponse := NativeResponses.NodeData id (NativeValues.String s).
Definition number_answer (id v : Z) : NativeResponse := NativeResponses.NodeData id (NativeValues.Integer v).

(** The slot at HALL: the selector and its leaves; DEL and its leaf, HALL and its leaf; the
    restore of each; the final check, in which the last leaf reads [last]. *)
Definition slot_session (last : Z) : list NativeResponse :=
  [text_answer 5 (str "HALL"); number_answer 6 40; number_answer 7 3;
   text_answer 5 (str "DEL"); number_answer 6 11; text_answer 5 (str "HALL"); number_answer 6 40;
   text_answer 5 (str "HALL"); number_answer 6 40; number_answer 7 3;
   text_answer 5 (str "HALL"); number_answer 6 40; number_answer 7 last].

Definition drive_on (answers : list NativeResponse) (m : gmap Path Entry) : Drive :=
  mk_drive (new_session [mk_pass None None
      (Received (match encode_all answers with Ok p => batch_frame p | Err _ => [] end))])
    (mk_world m 7 42 [] [] []) [] [] [] (repeat [None] 20).

Definition models_file : list byte := str "out/models.jsonl".

Definition hall_saved : list (list byte * Snap) :=
  [(str "/fx/1/mdl", Snaps.Str (str "HALL")); (str "/fx/1/HALL/pdel", Snaps.Int 40); (str "/fx/1/mix", Snaps.Int 3)].

Ltac decided := apply (bool_decide_unpack _); vm_compute; exact I.

(** All went well: the captured values are published and the recovery file is gone. *)
Example models_captured : let _ := drive_map in
  files (disk (capture_models models_file (drive_on (slot_session 3) ∅)).2)
  = {[(str "out/", Some (str "models.jsonl")) :=
      Regular (path_values_text [(str "/fx/1/DEL/time", Snaps.Int 11); (str "/fx/1/HALL/pdel", Snaps.Int 40)])]}.
Proof. decided. Qed.

(** The final check finds a leaf changed: the recovery file stays. *)
Example leaf_not_restored : let _ := drive_map in
  let o := capture_models models_file (drive_on (slot_session 4) ∅) in
  o.1 = Err (Retained [FinalDiffers (str "/fx/1/mix") (Snaps.Int 3) (Snaps.Int 4)])
  ∧ files (disk o.2) = {[(str "out/", Some (str "models.jsonl.recovery.jsonl")) := Regular (path_values_text hall_saved)]}.
Proof. split; [vm_compute; reflexivity|decided]. Qed.

(** *** Witnesses *)

Lemma models_file_plain : ¬ dotted (recovery_path_of models_file).
Proof. decided. Qed.

Lemma capture_models_restores_witness : let _ := drive_map in
  let d := drive_on (slot_session 4) ∅ in
  let d' := (capture_models models_file d).2 in
  ∃ w past rest dm, files w = ∅ ∧ rep_slots = past ++ rest
    ∧ slots_restored (recovery_path_of models_file) past (set_disk w d) dm
    ∧ stopped (recovery_path_of models_file) rest dm d'.
Proof.
  cbv zeta. set (d := drive_on (slot_session 4) ∅).
  assert (is_ok (@capture_models drive_map models_file d).1 = false) as Hr by (vm_compute; reflexivity).
  destruct (@capture_models drive_map models_file d) as [r d'] eqn:E. cbn [fst snd] in *.
  destruct (@capture_models_restores drive_map models_file d r d' ltac:(constructor) models_file_plain E)
    as (w & past & rest & dm & Hw & Hs & Hp & [[-> _]|[(_ & Ho & _)|((io & -> & _) & _)]]);
    [discriminate Hr| |exfalso; apply (f_equal fst) in E; vm_compute in E; discriminate E].
  exists w, past, rest, dm. split; [exact Hw|]. split; [exact Hs|]. split; [exact Hp|exact Ho].
Defined.

Lemma slot_session_answering last_value :
  last_value = 3 → session_ok (console (drive_on (slot_session last_value) ∅)).
Proof. intros ->. split; [by eexists|]. split; [vm_compute; discriminate|done]. Qed.

Lemma snapshot_slot_exact_witness : let _ := drive_map in
  let d := drive_on (slot_session 3) ∅ in
  ∃ saved d', snapshot_slot (str "/fx/1") fx_selector (original_model_leaves (str "/fx/1")) d = (Ok saved, d')
    ∧ recovery_values saved = hall_saved
    ∧ slot_snapshot (str "/fx/1") fx_selector (original_model_leaves (str "/fx/1")) saved.
Proof.
  cbv zeta. set (d := drive_on (slot_session 3) ∅).
  set (o := snapshot_slot (str "/fx/1") fx_selector (@original_model_leaves drive_map (str "/fx/1")) d).
  assert (map_ok recovery_values o.1 = Ok hall_saved) as Hv by (vm_compute; reflexivity).
  destruct o as [[saved|e] d'] eqn:E; [|discriminate Hv]. exists saved, d'. split; [reflexivity|].
  split; [by injection Hv as Hv|].
  exact (proj1 (snapshot_slot_exact _ _ _ d saved d' (slot_session_answering 3 eq_refl) eq_refl E)).
Defined.

(** The targets of the sample map, probed: each is read, written its values, and restored. *)
Definition probe_session : list NativeResponse :=
  [number_answer 3 1; number_answer 3 1; number_answer 3 1; number_answer 3 0; number_answer 3 1;
   text_answer 5 (str "DEL"); text_answer 5 (str "DEL"); text_answer 5 (str "HALL"); text_answer 5 (str "DEL");
   number_answer 7 1; number_answer 7 1; number_answer 7 1; number_answer 7 0; number_answer 7 2].

Lemma probe_echo_restores_witness : let _ := drive_map in
  let o := probe_echo (str "echo.jsonl") (drive_on probe_session ∅) in
  o.1 = Err (NotRestored (RestoreDiffers (str "/fx/1/mix") (Snaps.Int 1) (Snaps.Int 2)))
  ∧ ∃ targets past rest dm, targets = past ++ rest ∧ all_probed past (drive_on probe_session ∅) dm ∧ rest ≠ [].
Proof.
  cbv zeta. split; [vm_compute; reflexivity|].
  destruct (@probe_targets drive_map) as [targets|] eqn:Et; [|exfalso; revert Et; vm_compute; discriminate].
  destruct (@probe_echo drive_map (str "echo.jsonl") (drive_on probe_session ∅)) as [r d'] eqn:E.
  destruct (@probe_echo_restores drive_map (str "echo.jsonl") _ r d' targets Et E) as (past & rest & dm & H1 & H2 & H3).
  exists targets, past, rest, dm. split; [exact H1|]. split; [exact H2|]. intros ->.
  assert (r = Err (NotRestored (RestoreDiffers (str "/fx/1/mix") (Snaps.Int 1) (Snaps.Int 2)))) as ->.
  { change r with ((r, d').1). rewrite <- E. vm_compute. reflexivity. }
  destruct (proj2 H3 _ eq_refl) as [io Hio]. discriminate Hio.
Defined.
