(* ===== verification/DriveRun.v ===== *)
(** The conformance driver's modes ([src/tools/wingdrive.rs], [main]): which of them an
    invocation runs, the scripted session ([--exec]), the scenario mirror, and the battery up
    to its meter phase; and what a run without [--allow-state-changing] can do to a console.

    An invocation is its parsed options; a script is what reading its file gave.  What is
    printed is not modelled, except the lines of a script's commands, as data. *)

From stdpp Require Import gmap.
From S2P Require Import Prelude Sort Text Words Decimal Bytes Lib Utf8 F32 Display F32Parse NodeDef NodeData AtomicWrite EmbeddedMap DrivePlan Channel Meter NativeRequest NativeResponse ClientMessages ResponseReader ClientReader Attended BinaryValues SweepRows Crawl Drive.
Local Open Scope Z_scope.
Local Open Scope rust_scope.

(** ** Data *)

Record Options := mk_options {
  allow_state_changing : bool;
  gets_count : nat;
  dump_scenario : option (list byte);
  dump_defaults : option (list byte);
  capture_models_out : option (list byte);
  probe_echo_out : option (list byte);
  exec_script : option (result IoError (list byte));
}.

(** A line of a script's output. *)
Inductive Line :=
| LineGet (path : list byte) (r : Result Snap)
| LineUnknown (path : list byte)
| LineBin (path : list byte) (r : Result (list byte))
| LineDecoded (path : list byte) (r : Result (list (list byte * NodeValue)))
| LinePush (name : list byte) (value : Snap)
| LineRequestEnd
| LineDef (name : list byte)
| LineWatchFailed (e : Error)
| LineSet (path kind value : list byte) (r : Result unit).

Section Run.
Context `{EmbeddedMap}.

(** ** Scripts *)

(** The least of the paths of an id. *)
Definition least_path (paths : list (list byte)) : option (list byte) := head (sort_by bytes_le paths).

Definition path_of_id (id : Z) (fallback : list byte) : list byte :=
  default fallback (defs ← id_to_defs_iter id; least_path (map fst defs)).

Definition get_binary (id : Z) : Driving (Result (list byte)) :=
  let! timeout := next_timeout in wing (get_binary_node id timeout).

Definition name_pairs (pairs : list (Z * NodeValue)) : list (list byte * NodeValue) :=
  map (λ p, (path_of_id p.1 (str "<unmapped id=" ++ dec p.1 ++ str ">"), p.2)) pairs.

(** [watch] and, with [all], [watchall]: one read per entry of the window. *)
Fixpoint watch_loop (all : bool) (window : list Deadline) : Driving (list Line) :=
  match window with
  | [] => ret []
  | deadline :: window =>
    let! r := wing (read_timeout deadline) in
    match r with
    | Ok (WingResponses.NodeData id data) =>
      let! rest := watch_loop all window in ret (LinePush (path_of_id id (str "id=" ++ dec id)) (snap data) :: rest)
    | Ok WingResponses.RequestEnd =>
      let! rest := watch_loop all window in ret (if all then LineRequestEnd :: rest else rest)
    | Ok (WingResponses.NodeDef def) =>
      let! rest := watch_loop all window in ret (if all then LineDef (def_name def) :: rest else rest)
    | Err Timeout => watch_loop all window
    | Err e => ret [LineWatchFailed e]
    end
  end.

Definition watch (all : bool) (line ms : list byte) : Driving (list Line) :=
  match parse_u64 ms with
  | None => throw (BadScript line)
  | Some _ => let! window := next_window in watch_loop all window
  end.

(** The value of a [set] line, the empty string written as two quotes. *)
Definition set_message_of (kind value : list byte) : option SetVal :=
  if bytes_eqb kind (str "int") then SetVals.Int <$> parse_i32 value
  else if bytes_eqb kind (str "float") then SetVals.Float <$> parse_f32 value
  else if bytes_eqb kind (str "string") then Some (SetVals.Str (if bytes_eqb value [quote; quote] then [] else value))
  else None.

Definition exec_set (allow : bool) (line path kind : list byte) (rest : list (list byte)) : Driving (list Line) :=
  if negb allow then throw NotAllowed
  else match name_to_def path with
       | None => ret [LineUnknown path]
       | Some def =>
         match set_message_of kind (join Byte.x20 rest) with
         | None => throw (BadScript line)
         | Some input =>
           let! r := wing (set_input (def_id def) input) in
           ret [LineSet path kind (match input with SetVals.Str s => s | _ => join Byte.x20 rest end) r]
         end
       end.

Definition exec_get (path : list byte) : Driving (list Line) :=
  let! r := get_data_by_name path in ret [LineGet path (map_ok snap r)].

Definition exec_bin (path : list byte) : Driving (list Line) :=
  match name_to_def path with
  | None => ret [LineUnknown path]
  | Some def => let! r := get_binary (def_id def) in ret [LineBin path r]
  end.

Definition exec_bindecode (path : list byte) : Driving (list Line) :=
  match (if bytes_eqb path [slash] then Some 0 else def_id <$> name_to_def path) with
  | None => ret [LineUnknown path]
  | Some id =>
    let! r := get_binary id in
    ret [LineDecoded path (let? bytes := r in map_ok name_pairs (parse_binary_values bytes))]
  end.

Definition exec_line (allow : bool) (line : list byte) : Driving (list Line) :=
  match split_whitespace line with
  | [command; argument] =>
    if bytes_eqb command (str "get") then exec_get argument
    else if bytes_eqb command (str "bin") then exec_bin argument
    else if bytes_eqb command (str "bindecode") then exec_bindecode argument
    else if bytes_eqb command (str "watch") then watch false line argument
    else if bytes_eqb command (str "watchall") then watch true line argument
    else throw (BadScript line)
  | command :: path :: kind :: ((_ :: _) as rest) =>
    if bytes_eqb command (str "set") then exec_set allow line path kind rest else throw (BadScript line)
  | _ => throw (BadScript line)
  end.

Fixpoint exec_lines (allow : bool) (ls : list (list byte)) : Driving (list Line) :=
  match ls with
  | [] => ret []
  | line :: ls =>
    let line := trim line in
    if bool_decide (line = []) || starts_with line (str "#") then exec_lines allow ls
    else
      let! printed := exec_line allow line in
      let! rest := exec_lines allow ls in
      ret (printed ++ rest)
  end.

(** ** The battery *)

(** The GET phase: what was observed; a node that does not answer is passed over. *)
Fixpoint get_phase (nodes : list (list byte)) : Driving (list (list byte * Snap)) :=
  match nodes with
  | [] => ret []
  | name :: nodes =>
    let! r := get_data_by_name name in
    match r with
    | Ok data => let! rest := get_phase nodes in ret ((name, snap data) :: rest)
    | Err Timeout => get_phase nodes
    | Err e => throw (Wing e)
    end
  end.

Definition get_definition_by_name (fullname : list byte) : Driving (Result WingNodeDef) :=
  match name_to_id fullname with
  | Some id =>
    let! timeout := next_timeout in
    let! r := wing (get_node_definition id timeout) in
    ret (map_ok fst r)
  | None => ret (Err InvalidInput)
  end.

Fixpoint def_phase (names : list (list byte)) : Driving nat :=
  match names with
  | [] => ret O
  | name :: names =>
    let! r := get_definition_by_name name in
    match r with
    | Ok _ => let! defs := def_phase names in ret (S defs)
    | Err Timeout => def_phase names
    | Err e => throw (Wing e)
    end
  end.

Fixpoint write_phase (targets : list (list byte * WriteVal)) : Driving unit :=
  match targets with
  | [] => ret tt
  | (path, val) :: targets => drive_restorable_write path val ;;! write_phase targets
  end.

Definition write_scenario (path : list byte) (observed : list (list byte * Snap)) : Driving unit :=
  on_disk (fs_write (path_of path) (scenario_text observed)).

(** The mirror: every selector, and the observed values of nodes with an id of their own. *)
Definition scenario_mode (path : list byte) (observed : list (list byte * Snap)) : Driving unit :=
  let! mdl := read_each get_data_by_name selectors in
  write_scenario path (map (prod_map id snap) mdl ++ filter (λ p, is_unique_id p.1 = true) observed).

(** The phases up to the meters. *)
Definition battery (o : Options) : Driving unit :=
  let! observed := get_phase (get_phase_nodes (gets_count o)) in
  match dump_scenario o with
  | Some path => scenario_mode path observed
  | None =>
    let! _ := def_phase DEF_CORE in
    if allow_state_changing o then write_phase WRITE_TARGETS else ret tt
  end.

(** [main] once it is connected; its result are the lines a script printed. *)
Definition run (o : Options) : Driving (list Line) :=
  match dump_defaults o, capture_models_out o, probe_echo_out o, exec_script o with
  | Some path, _, _, _ => capture_defaults path ;;! ret []
  | None, Some path, _, _ =>
    if negb (allow_state_changing o) then throw NotAllowed else capture_models path ;;! ret []
  | None, None, Some path, _ =>
    if negb (allow_state_changing o) then throw NotAllowed else probe_echo path ;;! ret []
  | None, None, None, Some script =>
    match script with
    | Err e => throw (Disk e)
    | Ok script => exec_lines (allow_state_changing o) (lines script)
    end
  | None, None, None, None => battery o ;;! ret []
  end.
End Run.

(** ** What a run says *)

Definition Speaks (P : Act → Prop) {A} (m : Driving A) : Prop := ∀ d, says P (console d) (console (m d).2).

Lemma speaks_only P {A} (m : Driving A) : Only P m → Speaks P m.
Proof. intros Hm d. apply Hm. Qed.

Lemma speaks_bind P {A B} (m : Driving A) (k : A → Driving B) :
  Speaks P m → (∀ a, Speaks P (k a)) → Speaks P (bind m k).
Proof.
  intros Hm Hk d. specialize (Hm d). unfold bind. destruct (m d) as [[a|e] d1]; [|done]. cbn [snd] in *.
  etransitivity; [exact Hm|apply Hk].
Qed.

Lemma speaks_on_disk P {A} (m : Io A) : Speaks P (on_disk m).
Proof. intros d. unfold on_disk. destruct (m (disk d)) as [[a|e] w]; by apply says_same. Qed.

Lemma speaks_ret P {A} (a : A) : Speaks P (ret a).
Proof. intros d. by apply says_same. Qed.

Lemma speaks_throw P {A} e : Speaks P (throw (A := A) e).
Proof. intros d. by apply says_same. Qed.

Lemma says_get_node_definition id timeout : Says harmless (get_node_definition id timeout).
Proof.
  apply says_bind; [apply (says_send_request _ (Described id) I)|]. intros _. apply says_with_deadline.
  intros s. apply says_attended_loop.
Qed.

Lemma says_capture_loop fuel : Says harmless (capture_loop fuel).
Proof.
  induction fuel as [|fuel IH]; intros s; cbn [capture_loop]; [by intros _|].
  pose proof (read_locked_says s) as H. destruct (read_locked s) as [[resp|[e|]] s1]; [|exact (H I)|exact H].
  assert (Says harmless (let! expired := deadline_passed in if expired : bool then ret (Err Timeout) else capture_loop fuel)) as Hk.
  { apply says_bind; [apply says_deadline_passed|]. intros []; [apply says_ret|apply IH]. }
  specialize (Hk s1). destruct resp; [exact H|..];
    (destruct (bind deadline_passed _ s1) as [[a|e'] s2]; [|intros _]; transitivity s1; try exact H; [exact Hk|exact (Hk I)]).
Qed.

Lemma says_get_binary_node id timeout : Says harmless (get_binary_node id timeout).
Proof.
  unfold get_binary_node. apply says_bind; [apply (says_send_request _ (Asked id) I)|]. intros _.
  do 2 (apply says_bind; [by apply says_modify|]; intros _).
  apply says_bind; [intros s; by apply says_same|]. intros earlier.
  apply says_bind; [intros s; apply says_capture_loop|]. intros outcome.
  apply says_bind; [by apply says_modify|]. intros _. apply says_bind; [by apply says_modify|]. intros _.
  apply says_bind; [apply says_gets|]. intros captured. apply says_bind; [by apply says_modify|]. intros _.
  apply says_bind; [|intros _; apply says_fallible]. destruct outcome as [|[]]; try apply says_ret. by apply says_modify.
Qed.

Create HintDb speaks discriminated.
#[export] Hint Resolve speaks_ret speaks_throw speaks_on_disk : speaks.
#[export] Hint Extern 5 (Speaks _ _) => apply speaks_only : speaks.

Ltac speak := repeat first
  [ solve [auto with speaks frame] | (apply speaks_bind; [|intros ?]) | progress cbv beta zeta | case_match ].

Section Speech.
Context `{EmbeddedMap}.

Lemma only_get_by_name fullname : Only harmless (get_data_by_name fullname).
Proof. apply only_get_data_by_name. Qed.

Lemma only_get_binary id : Only harmless (get_binary id).
Proof. unfold get_binary. apply only_bind; [auto with frame|]. intros t. apply only_wing, says_get_binary_node. Qed.

#[local] Hint Resolve only_get_by_name only_get_binary : frame.

Lemma speaks_read_each {A} (read : A → Driving (Result WingNodeData)) items :
  (∀ a, Only harmless (read a)) → Speaks harmless (read_each read items).
Proof.
  intros Hr. induction items as [|item items IH]; cbn [read_each]; [apply speaks_ret|].
  apply speaks_bind; [apply speaks_only, Hr|]. intros r. apply speaks_bind; [done|]. speak.
Qed.

Lemma speaks_capture_defaults path : Speaks harmless (capture_defaults path).
Proof.
  unfold capture_defaults. apply speaks_bind; [apply speaks_read_each; auto with frame|]. intros mdl.
  apply speaks_bind; [apply speaks_read_each; auto with frame|]. speak.
Qed.

Lemma speaks_watch all line ms : Speaks harmless (watch all line ms).
Proof.
  unfold watch. destruct (parse_u64 ms); [|apply speaks_throw]. apply speaks_bind; [apply speaks_only; auto with frame|].
  intros window. induction window as [|deadline window IH]; cbn [watch_loop]; [apply speaks_ret|].
  apply speaks_bind; [apply speaks_only, only_wing, says_with_deadline, read_locked_says|].
  intros [[]|[]]; try apply speaks_ret; try exact IH; apply speaks_bind; try exact IH; intros ?; apply speaks_ret.
Qed.

Lemma speaks_exec_line line : Speaks harmless (exec_line false line).
Proof.
  unfold exec_line, exec_set, exec_get, exec_bin, exec_bindecode. cbn [negb].
  repeat first [apply speaks_watch | apply speaks_throw | case_match]; speak.
Qed.

Lemma speaks_exec_lines ls : Speaks harmless (exec_lines false ls).
Proof.
  induction ls as [|line ls IH]; cbn [exec_lines]; [apply speaks_ret|]. case_match; [done|].
  apply speaks_bind; [apply speaks_exec_line|]. intros printed. apply speaks_bind; [done|]. speak.
Qed.

Lemma speaks_get_phase nodes : Speaks harmless (get_phase nodes).
Proof.
  induction nodes as [|name nodes IH]; cbn [get_phase]; [apply speaks_ret|].
  apply speaks_bind; [apply speaks_only; auto with frame|]. intros [data|[]]; try apply speaks_throw; try exact IH.
  apply speaks_bind; [exact IH|]. speak.
Qed.

Lemma speaks_def_phase names : Speaks harmless (def_phase names).
Proof.
  induction names as [|name names IH]; cbn [def_phase]; [apply speaks_ret|]. apply speaks_bind.
  - unfold get_definition_by_name. destruct (name_to_id name); [|apply speaks_ret].
    apply speaks_bind; [apply speaks_only; auto with frame|]. intros timeout.
    apply speaks_bind; [apply speaks_only, only_wing, says_get_node_definition|]. speak.
  - intros [def|[]]; try apply speaks_throw; try exact IH. apply speaks_bind; [exact IH|]. speak.
Qed.

Lemma speaks_scenario_mode path observed : Speaks harmless (scenario_mode path observed).
Proof. unfold scenario_mode. apply speaks_bind; [apply speaks_read_each; auto with frame|]. intros mdl. apply speaks_on_disk. Qed.

Lemma speaks_battery o : allow_state_changing o = false → Speaks harmless (battery o).
Proof.
  intros Ho. unfold battery. apply speaks_bind; [apply speaks_get_phase|]. intros observed.
  destruct (dump_scenario o); [apply speaks_scenario_mode|]. apply speaks_bind; [apply speaks_def_phase|]. intros _.
  rewrite Ho. apply speaks_ret.
Qed.

(** ** Properties *)

(** C33: without [--allow-state-changing] a run changes nothing on the console, in any mode and
    however it ends: all it sends are requests for values and definitions, and keep-alives.
    (The meter phase, after the battery, sends meter subscriptions only.) *)
Theorem run_read_only o d :
  allow_state_changing o = false → says harmless (console d) (console (run o d).2).
Proof.
  intros Ho. enough (Speaks harmless (run o)) as Hs by apply Hs.
  unfold run. rewrite Ho. cbn [negb].
  destruct (dump_defaults o); [apply speaks_bind; [apply speaks_capture_defaults|]; speak|].
  destruct (capture_models_out o); [apply speaks_throw|].
  destruct (probe_echo_out o); [apply speaks_throw|].
  destruct (exec_script o) as [[script|e]|]; [apply speaks_exec_lines|apply speaks_throw|].
  apply speaks_bind; [by apply speaks_battery|]. speak.
Qed.
End Speech.

(** *** Runs and witnesses *)

Definition script_options (allow : bool) (script : list byte) : Options :=
  mk_options allow 0 None None None None (Some (Ok script)).

Definition sample_script : list byte := str "# one channel" ++ [newline] ++ str "get /ch/1/col" ++ [newline] ++ str "  set /ch/1/col int 7".

Definition sent_by {A} (o : result DriveError A * Drive) : list byte := sent (console o.2).

(** With permission the value is set; without it the script stops at the line. *)
Example script_sets : let _ := drive_map in
  let d := drive_on [number_answer 3 5] ∅ in
  (run (script_options true sample_script) d).1
    = Ok [LineGet (str "/ch/1/col") (Ok (Snaps.Int 5)); LineSet (str "/ch/1/col") (str "int") (str "7") (Ok tt)]
  ∧ (run (script_options false sample_script) d).1 = Err NotAllowed
  ∧ sent_by (run (script_options false sample_script) d) = request_node_data 3.
Proof. vm_compute. repeat split. Qed.

Lemma run_read_only_witness : let _ := drive_map in
  let d := drive_on [number_answer 3 5] ∅ in
  says harmless (console d) (console (run (script_options false sample_script) d).2)
  ∧ sent_by (run (script_options false sample_script) d) ≠ [].
Proof.
  cbv zeta. split; [exact (@run_read_only drive_map (script_options false sample_script) _ eq_refl)|].
  vm_compute. discriminate.
Defined.
