(* ===== verification/Tools.v ===== *)
(** The small tools: [src/tools/wingprop.rs], which looks a property up, sets it or shows its
    definition; [src/tools/wingmon.rs], which prints every change; and the numbers behind
    [src/tools/wingmeters.rs].

    A run of a tool is what it does once it is connected.  What it prints is data: a line, a
    JSON value, or definitions (how those are described is not modelled).  A run that still
    waits for the console is [Blocked]. *)

From stdpp Require Import gmap.
From Stdlib Require Import Floats.SpecFloat.
From S2P Require Import Prelude Text Decimal Bytes Lib Utf8 F32 Display F32Parse NodeDef NodeData EmbeddedMap DrivePlan Channel Meter NativeRequest NativeResponse ClientMessages ResponseReader ClientReader Attended SweepRows Crawl Drive.
Local Open Scope Z_scope.
Local Open Scope rust_scope.

(** ** wingprop *)

Module SetValues.
Inductive SetValue := String (s : list byte) | Integer (v : Z) | Float (f : f32).
End SetValues.
Abbreviation SetValue := SetValues.SetValue.

Module Actions.
Inductive Action := Lookup | Set_ (value : SetValue) | Definition_.
End Actions.
Abbreviation Action := Actions.Action.

(** Why an argument is refused before anything is sent. *)
Inductive Usage :=
| AmbiguousId (id : Z) (names : list (list byte))
| InvalidId (id : Z)
| InvalidName (name : list byte)
| InvalidValue (propname error : list byte)
| TooManyEquals.

Definition parse_set_value (node_type : NodeType) (value : list byte) : result (list byte) SetValue :=
  match node_type with
  | NodeTypes.StringEnum | NodeTypes.String => Ok (SetValues.String value)
  | NodeTypes.Integer =>
    map_ok SetValues.Integer (ok_or (parse_i32 value) (str "expected an integer, got " ++ value))
  | NodeTypes.FloatEnum | NodeTypes.FaderLevel | NodeTypes.LogarithmicFloat | NodeTypes.LinearFloat =>
    map_ok SetValues.Float (ok_or (parse_f32 value) (str "expected a floating point number, got " ++ value))
  | NodeTypes.Node => Err (str "nodes cannot be set")
  | NodeTypes.Unknown _ => Err (str "node type is unknown to this libwing version")
  end.

Record Property := mk_property { propid : Z; propparentid : Z; propname : list byte; proptype : NodeType }.

Section Tools.
Context `{EmbeddedMap} {J : Jzon}.

Definition parse_id (name : list byte) : result Usage Property :=
  match parse_i32 name with
  | Some id =>
    match id_to_defs_iter id with
    | Some [(fullname, def)] => Ok (mk_property id (def_parent_id def) fullname (def_node_type def))
    | Some defs => Err (AmbiguousId id (map fst defs))
    | None => Err (InvalidId id)
    end
  | None =>
    match name_to_def name with
    | Some def => Ok (mk_property (def_id def) (def_parent_id def) name (def_node_type def))
    | None => Err (InvalidName name)
    end
  end.

(** [trim_end_matches('?')]. *)
Fixpoint drop_questions (s : list byte) : list byte :=
  match s with b :: s' => if bool_decide (b = Byte.x3f) then drop_questions s' else s | [] => [] end.
Definition trim_questions (s : list byte) : list byte := rev (drop_questions (rev s)).

Definition parse_argument (arg : list byte) : result Usage (Property * Action) :=
  if ends_with arg (str "?") then
    let? p := parse_id (trim_questions arg) in Ok (p, Actions.Definition_)
  else
    match split_on Byte.x3d arg with
    | [name; value] =>
      let? p := parse_id name in
      match parse_set_value (proptype p) value with
      | Ok v => Ok (p, Actions.Set_ v)
      | Err error => Err (InvalidValue (propname p) error)
      end
    | [name] => let? p := parse_id name in Ok (p, Actions.Lookup)
    | _ => Err TooManyEquals
    end.

(** What the tool prints. *)
Inductive Printed :=
| PrintLine (line : list byte)
| PrintJson (value : JsonValue)
| PrintDefinition (def : WingNodeDef)
| PrintChildren (defs : list WingNodeDef).

Definition format_lookup (name : list byte) (type : NodeType) (data : WingNodeData) (json : bool) : Printed :=
  let value := get_string data in
  if negb json then PrintLine (name ++ str " = " ++ value)
  else match type with
       | NodeTypes.StringEnum | NodeTypes.String => PrintJson (of_str value)
       | _ =>
         if has_float data then PrintJson (of_f32 (get_float data))
         else if has_int data then PrintJson (of_int (get_int data))
         else PrintJson (of_str value)
       end.

Definition is_node (type : NodeType) : bool := bool_decide (type = NodeTypes.Node).

Definition send_set (id : Z) (value : SetValue) : Read unit :=
  match value with
  | SetValues.String v => set_string id v
  | SetValues.Integer v => set_int id v
  | SetValues.Float v => set_float id v
  end.

Definition send_action (p : Property) (action : Action) : Read unit :=
  match action with
  | Actions.Lookup =>
    if is_node (proptype p) then send_request (request_node_definition (propid p))
    else send_request (request_node_data (propid p))
  | Actions.Set_ value => send_set (propid p) value
  | Actions.Definition_ =>
    send_request (request_node_definition (if is_node (proptype p) then propparentid p else propid p))
  end.

(** A value that arrives: what is printed, or [None] where the tool gives up. *)
Definition print_value (p : Property) (json : bool) (id : Z) (data : WingNodeData) : option (list Printed) :=
  if id =? propid p then
    match proptype p with
    | NodeTypes.Node => None
    | NodeTypes.Unknown _ => Some [PrintLine (propname p ++ str " = " ++ get_string data)]
    | type => Some [format_lookup (propname p) type data json]
    end
  else Some [].

Definition print_definition (p : Property) (action : Action) (d : WingNodeDef) : list Printed :=
  match action with
  | Actions.Definition_ => if def_id d =? propid p then [PrintDefinition d] else []
  | _ => []
  end.

Definition keep_child (p : Property) (action : Action) (d : WingNodeDef) : list WingNodeDef :=
  match action with
  | Actions.Lookup => if is_node (proptype p) && (def_parent_id d =? propid p) then [d] else []
  | _ => []
  end.

(** The loop of reads; its result is what was printed and the exit status. *)
Fixpoint prop_loop (fuel : nat) (p : Property) (action : Action) (json : bool) (children : list WingNodeDef)
    (printed : list Printed) : Read (list Printed * Z) :=
  match fuel with
  | O => throw Blocked
  | S fuel =>
    let! r := read in
    match r with
    | WingResponses.RequestEnd =>
      ret (match children with [] => printed | _ => printed ++ [PrintChildren children] end, 0)
    | WingResponses.NodeData id data =>
      match print_value p json id data with
      | None => ret (printed, 1)
      | Some ps => prop_loop fuel p action json children (printed ++ ps)
      end
    | WingResponses.NodeDef d =>
      prop_loop fuel p action json (children ++ keep_child p action d) (printed ++ print_definition p action d)
    end
  end.

(** The tool on an argument it accepted, once connected. *)
Definition wingprop (p : Property) (action : Action) (json : bool) : Read (list Printed * Z) :=
  let! _ := send_action p action in
  match action with
  | Actions.Set_ _ => ret ([], 0)
  | _ => λ s, prop_loop (S (work s)) p action json [] [] s
  end.

(** ** wingmon *)

(** The line for a value; [None] where nothing is printed. *)
Definition mon_line (r : WingResponse) : option (list byte) :=
  match r with
  | WingResponses.NodeData id data =>
    let value := get_string data in
    let unknown := str "<Unknown:" ++ dec id ++ str "> = " ++ value in
    match id_to_defs_iter id with
    | None | Some [] => Some unknown
    | Some [(name, _)] => Some (name ++ str " = " ++ value)
    | Some (((_, first) :: _) as defs) =>
      if (size (list_to_set (map (λ p, def_index p.2) defs) : gset Z) =? 1)%nat
      then Some (str "prop" ++ dec (def_index first) ++ str " = " ++ value
                 ++ str " (check out propmap.jsonl for more info on property with id " ++ dec id ++ str ")")
      else Some (str "<MultiProp:" ++ dec id ++ str "> = " ++ value
                 ++ str " (check out propmap.jsonl for more info on property id " ++ dec id ++ str ")")
    end
  | _ => None
  end.

(** The lines printed until the loop stops, and why it does. *)
Fixpoint mon_loop (fuel : nat) (printed : list (list byte)) (s : Session) : list (list byte) * Stop * Session :=
  match fuel with
  | O => (printed, Blocked, s)
  | S fuel =>
    match read s with
    | (Ok r, s) => mon_loop fuel (printed ++ option_list (mon_line r)) s
    | (Err e, s) => (printed, e, s)
    end
  end.

Definition wingmon (s : Session) : list (list byte) * Stop * Session := mon_loop (S (work s)) [] s.
End Tools.

(** ** wingmeters *)

Definition CHANNEL_COUNT : nat := 16.

Definition requested_meters : list Meter := map (λ n, Meters.Channel (Z.of_nat n)) (seq 0 CHANNEL_COUNT).

(** [f32::clamp]. *)
Definition clamp (x min max : f32) : f32 := if f32_ltb x min then min else if f32_ltb max x then max else x.

Definition f32_60 : f32 := F32 0x42700000.
Definition f32_256 : f32 := F32 0x43800000.
Definition f32_one : f32 := F32 0x3f800000.

(** [((word as f32 / 256.0 + 60.0) / 60.0).clamp(0.0, 1.0)]. *)
Definition meter_height (word : Z) : f32 :=
  clamp (f32_div (f32_add (f32_div (f32_of_int word) f32_256) f32_60) f32_60) f32_zero f32_one.

(** The heights after a frame: of each channel, its third and fourth word; a frame that is
    too short changes nothing. *)
Definition update_meters (values : list Z) (vals : list f32) : list f32 :=
  if (length values <? CHANNEL_COUNT * 8)%nat then vals
  else concat (map (λ i, [meter_height (values !!! (i * 8 + 2)%nat); meter_height (values !!! (i * 8 + 3)%nat)]) (seq 0 CHANNEL_COUNT)).

Module Colors.
Inductive Color32 := RED | YELLOW | GREEN.
End Colors.

(** [0.9] and [0.7]. *)
Definition meter_color (value : f32) : Colors.Color32 :=
  if f32_ltb (F32 0x3f666666) value then Colors.RED
  else if f32_ltb (F32 0x3f333333) value then Colors.YELLOW
  else Colors.GREEN.

(** ** Lemmas *)

Section ToolLemmas.
Context `{EmbeddedMap} {J : Jzon}.

(** What a response adds to the output, and to the children. *)
Definition printed_for (p : Property) (action : Action) (json : bool) (r : WingResponse) : list Printed :=
  match r with
  | WingResponses.NodeData id data => default [] (print_value p json id data)
  | WingResponses.NodeDef d => print_definition p action d
  | WingResponses.RequestEnd => []
  end.

Definition child_for (p : Property) (action : Action) (r : WingResponse) : list WingNodeDef :=
  match r with WingResponses.NodeDef d => keep_child p action d | _ => [] end.

(** The output for these responses. *)
Definition output_for (p : Property) (action : Action) (json : bool) (taken : list WingResponse) : list Printed :=
  concat (map (printed_for p action json) taken).

Definition children_for (p : Property) (action : Action) (taken : list WingResponse) : list Printed :=
  match concat (map (child_for p action) taken) with [] => [] | children => [PrintChildren children] end.

(** A run that answered: the responses it took, all of them printed, and how it ended. *)
Definition answered_with (p : Property) (action : Action) (json : bool) (s s' : Session) (out : list Printed) (code : Z) : Prop :=
  ∃ taken last, deliver s = taken ++ last :: deliver s' ∧ WingResponses.RequestEnd ∉ taken ∧
    (code = 0 ∧ last = WingResponses.RequestEnd ∧ out = output_for p action json taken ++ children_for p action taken ∨
     code = 1 ∧ proptype p = NodeTypes.Node ∧ (∃ data, last = WingResponses.NodeData (propid p) data) ∧ out = output_for p action json taken).

Lemma prop_loop_spec fuel p action json s0 before s :
  session_ok s → (work s < fuel)%nat → deliver s0 = before ++ deliver s → WingResponses.RequestEnd ∉ before →
  match prop_loop fuel p action json (concat (map (child_for p action) before)) (output_for p action json before) s with
  | (Ok (out, code), s') => session_ok s' ∧ answered_with p action json s0 s' out code
  | (Err Blocked, _) => WingResponses.RequestEnd ∉ deliver s0
  | (Err (Fail _), _) => True
  end.
Proof.
  revert before s. induction fuel as [|fuel IH]; intros before s Hs Hw Hd Hb; [lia|]. cbn [prop_loop]. unfold bind.
  pose proof (read_locked_ok s Hs) as Hr. unfold read. destruct (read_locked s) as [[r|[e|]] s1] eqn:E; [|done|].
  2: { destruct Hr as [Hr _]. by rewrite Hd, Hr, app_nil_r. }
  destruct Hr as [[Hs1 Hd1] _]. pose proof (read_locked_less _ _ _ Hs E) as Hw1. rewrite Hd1 in Hd.
  assert (∀ ps cs, ps = printed_for p action json r → cs = child_for p action r → r ≠ WingResponses.RequestEnd →
    match prop_loop fuel p action json (concat (map (child_for p action) before) ++ cs) (output_for p action json before ++ ps) s1 with
    | (Ok (out, code), s') => session_ok s' ∧ answered_with p action json s0 s' out code
    | (Err Blocked, _) => WingResponses.RequestEnd ∉ deliver s0
    | (Err (Fail _), _) => True
    end) as Hstep.
  { intros ps cs -> -> Hne. specialize (IH (before ++ [r]) s1 Hs1 ltac:(lia)). unfold output_for in *.
    rewrite !map_app, !concat_app in IH. cbn [map concat] in IH. rewrite !app_nil_r in IH.
    apply IH; [by rewrite <- (assoc_L (++))|]. rewrite not_elem_of_app, list_elem_of_singleton. done. }
  destruct r as [|d|id data].
  - split; [done|]. exists before, WingResponses.RequestEnd. split; [done|]. split; [done|]. left. split_and!; [done..|].
    unfold children_for. by destruct (concat _); rewrite ?app_nil_r.
  - by apply Hstep.
  - destruct (print_value p json id data) as [ps|] eqn:Ep.
    + specialize (Hstep ps []). rewrite app_nil_r in Hstep. apply Hstep; [|done..]. cbn. by rewrite Ep.
    + split; [done|]. exists before, (WingResponses.NodeData id data). split; [done|]. split; [done|]. right.
      unfold print_value in Ep. destruct (Z.eqb_spec id (propid p)) as [->|]; [|done].
      destruct (proptype p) eqn:Et; try done. split_and!; [done..|by eexists|done].
Qed.

Lemma mon_loop_spec fuel s0 before s :
  session_ok s → (work s < fuel)%nat → deliver s0 = before ++ deliver s →
  let '(lines, e, _) := mon_loop fuel (omap mon_line before) s in
  ∃ taken rest, deliver s0 = taken ++ rest ∧ lines = omap mon_line taken ∧ (e = Blocked → rest = []).
Proof.
  revert before s. induction fuel as [|fuel IH]; intros before s Hs Hw Hd; [lia|]. cbn [mon_loop].
  pose proof (read_locked_ok s Hs) as Hr. unfold read. destruct (read_locked s) as [[r|e] s1] eqn:E.
  - destruct Hr as [[Hs1 Hd1] _]. pose proof (read_locked_less _ _ _ Hs E) as Hw1.
    specialize (IH (before ++ [r]) s1 Hs1 ltac:(lia)). rewrite omap_app in IH. cbn [omap list_omap] in IH.
    replace (option_list (mon_line r)) with (match mon_line r with Some y => [y] | None => [] end) by by destruct (mon_line r).
    apply IH. by rewrite Hd, Hd1, <- (assoc_L (++)).
  - exists before, (deliver s). split; [done|]. split; [done|]. intros ->. apply Hr.
Qed.
End ToolLemmas.

(** ** Properties *)

(** What an assignment puts on the wire. *)
Definition set_value_bytes (id : Z) (value : SetValue) : Result (list byte) :=
  match value with
  | SetValues.String v => set_string_message id v
  | SetValues.Integer v => set_int_message id v
  | SetValues.Float v => set_float_message id v
  end.

Lemma send_set_sent id value s :
  match send_set id value s with
  | (Ok _, s') => ∃ buf, set_value_bytes id value = Ok buf ∧ sent s' = sent s ++ buf
  | (Err _, s') => sent s' = sent s
  end.
Proof.
  assert (∀ m : Result (list byte), match (let! _ := ensure_stream_usable in let! buf := fallible m in write_all buf) s with
    | (Ok _, s') => ∃ buf, m = Ok buf ∧ sent s' = sent s ++ buf
    | (Err _, s') => sent s' = sent s
    end) as Hm.
  { intros m. unfold ensure_stream_usable, bind, gets. cbv beta iota. destruct (stream_tainted s); [done|].
    destruct m as [buf|e]; [|done]. cbn [fallible ret]. pose proof (write_all_sent buf s) as H.
    cbn. destruct (write_all buf s) as [[[]|e] s']; [by exists buf|done]. }
  destruct value as [v|v|v]; [apply (Hm (set_string_message id v))|apply (Hm (set_int_message id v))|apply (Hm (set_float_message id v))].
Qed.

Lemma says_send_action `{EmbeddedMap} p action :
  (∀ v, action ≠ Actions.Set_ v) → Says harmless (send_action p action).
Proof.
  intros Ha. destruct action as [|v|]; [|by destruct (Ha v)|]; cbn [send_action].
  - destruct (is_node (proptype p)); [apply (says_send_request _ (Described (propid p)) I)|apply (says_send_request _ (Asked (propid p)) I)].
  - apply (says_send_request _ (Described (if is_node (proptype p) then propparentid p else propid p)) I).
Qed.

Lemma send_action_session `{EmbeddedMap} p action s :
  (∀ v, action ≠ Actions.Set_ v) →
  (session_ok s → match send_action p action s with (Ok _, s') => session_ok s' ∧ deliver s' = deliver s | _ => True end)
  ∧ (send_action p action s).1 ≠ Err Blocked.
Proof.
  intros Ha. assert (∃ buf, send_action p action = send_request buf) as [buf ->].
  { destruct action as [|v|]; [|by destruct (Ha v)|by eexists]. cbn [send_action]. destruct (is_node _); by eexists. }
  pose proof (send_request_session buf s) as Hr. destruct (send_request buf s) as [[[]|[e|]] s1]; [|done|done].
  destruct Hr as (H1 & H2 & _). destruct (same_main_session s s1 H1 H2) as (Hd & _ & Hok). split; [|done].
  intros Hs. split; [by apply Hok|done].
Qed.

Section ToolProperties.
Context `{EmbeddedMap} {J : Jzon}.

Lemma says_prop_loop fuel p action json children printed : Says harmless (prop_loop fuel p action json children printed).
Proof.
  revert children printed. induction fuel as [|fuel IH]; intros children printed; cbn [prop_loop]; [apply says_throw|].
  apply says_bind; [apply says_read|]. intros []; [apply says_ret|apply IH|].
  destruct (print_value _ _ _ _); [apply IH|apply says_ret].
Qed.

(** A run that reads: what it says, and what it prints. *)
Lemma wingprop_reads p action json s :
  session_ok s → (∀ v, action ≠ Actions.Set_ v) →
  let o := bind (send_action p action) (λ _ s, prop_loop (S (work s)) p action json [] [] s) s in
  says harmless s o.2 ∧
  match o with
  | (Ok (out, code), s') => answered_with p action json s s' out code
  | (Err Blocked, _) => WingResponses.RequestEnd ∉ deliver s
  | (Err (Fail _), _) => True
  end.
Proof.
  intros Hs Ha. cbv zeta. split.
  - assert (Says harmless (bind (send_action p action) (λ _ s, prop_loop (S (work s)) p action json [] [] s))) as Hsay.
    { apply says_bind; [by apply says_send_action|]. intros _ s1. apply says_prop_loop. }
    specialize (Hsay s). destruct (bind _ _ s) as [[o|e] s']; [exact Hsay|exact (Hsay I)].
  - unfold bind. destruct (send_action_session p action s Ha) as [Hok Hblocked].
    destruct (send_action p action s) as [[[]|[e|]] s1]; [|done|done]. destruct Hok as (Hs1 & Hd1); [done|].
    pose proof (prop_loop_spec (S (work s1)) p action json s [] s1 Hs1 ltac:(lia) ltac:(by rewrite Hd1) (not_elem_of_nil _)) as Hl.
    cbn [map concat] in Hl. unfold output_for at 1 in Hl. cbn [map concat] in Hl.
    destruct (prop_loop _ _ _ _ _ _ s1) as [[[out code]|[e|]] s2]; [apply Hl|done|exact Hl].
Qed.

(** What wingprop does is what its argument says.  Setting a property sends that one
    assignment, or nothing and an error; looking one up or showing its definition changes
    nothing on the console, and prints exactly what the responses up to the first end marker
    say of the property (its values in the order they came, its definition, or the children
    of a container), whatever else arrives in between; it gives up only on a value for a
    container, and waits only while no end marker has come. *)
Theorem wingprop_exact p action json s :
  session_ok s →
  match action with
  | Actions.Set_ v =>
    match wingprop p action json s with
    | (Ok o, s') => o = ([], 0) ∧ ∃ buf, set_value_bytes (propid p) v = Ok buf ∧ sent s' = sent s ++ buf
    | (Err _, s') => sent s' = sent s
    end
  | _ =>
    says harmless s (wingprop p action json s).2 ∧
    match wingprop p action json s with
    | (Ok (out, code), s') => answered_with p action json s s' out code
    | (Err Blocked, _) => WingResponses.RequestEnd ∉ deliver s
    | (Err (Fail _), _) => True
    end
  end.
Proof.
  intros Hs. destruct action as [|v|]; [by apply wingprop_reads| |by apply wingprop_reads].
  unfold wingprop, bind. cbn [send_action]. pose proof (send_set_sent (propid p) v s) as Hset.
  destruct (send_set (propid p) v s) as [[[]|e] s1]; [|done]. cbn. by split.
Qed.

(** The monitor prints, in order, a line for every value the console sends, until it stops;
    while it only waits, all that arrived is printed. *)
Theorem wingmon_exact s :
  session_ok s →
  let '(lines, e, _) := wingmon s in
  ∃ taken rest, deliver s = taken ++ rest ∧ lines = omap mon_line taken ∧ (e = Blocked → rest = []).
Proof. intros Hs. apply (mon_loop_spec (S (work s)) s [] s); [done|lia|done]. Qed.
End ToolProperties.

(** The meter tool asks for channels 0 to 15, and channels count from 1: its subscription is
    refused before anything is sent, whatever the socket does, so the tool always fails. *)
Theorem wingmeters_refused bind write st : request_meter requested_meters bind write st = (Err InvalidInput, st).
Proof. reflexivity. Qed.

Lemma sf_leb_total x y : x ≠ S754_nan → y ≠ S754_nan → SFltb y x = false → SFleb x y = true.
Proof.
  unfold SFltb, SFleb, SFcompare. destruct x as [sx|sx| |sx mx ex], y as [sy|sy| |sy my ey]; try done; intros _ _;
    try (destruct sx; done); try (destruct sy; done); try (destruct sx, sy; done).
  fold (Pos.compare mx my). fold (Pos.compare my mx). rewrite (Z.compare_antisym ex ey), (Pos.compare_antisym mx my).
  destruct sx, sy; try done; destruct (ex ?= ey); try done; cbn; by destruct (Pos.compare mx my).
Qed.

(** Every bar is between empty and full. *)
Lemma clamp_range x :
  f32_to_sf x ≠ S754_nan →
  f32_leb f32_zero (clamp x f32_zero f32_one) = true ∧ f32_leb (clamp x f32_zero f32_one) f32_one = true.
Proof.
  intros Hx. unfold clamp, f32_ltb, f32_leb.
  destruct (SFltb (f32_to_sf x) (f32_to_sf f32_zero)) eqn:E0; [by split|].
  destruct (SFltb (f32_to_sf f32_one) (f32_to_sf x)) eqn:E1; [by split|].
  split; by apply sf_leb_total.
Qed.

Lemma update_meters_length values vals : length vals = (2 * CHANNEL_COUNT)%nat → length (update_meters values vals) = (2 * CHANNEL_COUNT)%nat.
Proof. intros Hl. unfold update_meters. by destruct (_ <? _)%nat. Qed.

(** Full scale, half, silence and below. *)
Example meter_heights :
  map (λ w, f32_bits (meter_height w)) [0; -30 * 256; -60 * 256; -32768; 32767] = [0x3f800000; 0x3f000000; 0; 0; 0x3f800000].
Proof. vm_compute. reflexivity. Qed.

(** *** Witnesses *)

Definition sample_property : Property := mk_property 3 0 (str "/ch/1/col") NodeTypes.Integer.

Definition prop_session : Session := console (drive_on
  [number_answer 9 1; number_answer 3 5; NativeResponses.RequestEnd; number_answer 3 6] ∅).

Lemma prop_session_ok : session_ok prop_session.
Proof. split; [by eexists|]. split; [vm_compute; discriminate|done]. Qed.

Definition only_line {J : Jzon} (o : result Stop (list Printed * Z) * Session) : option (list byte * Z) :=
  match o.1 with Ok ([PrintLine line], code) => Some (line, code) | _ => None end.

(** The argument, and the run: the value is printed and what follows the end marker is left. *)
Lemma wingprop_exact_witness : let _ := drive_map in let _ := plain_json in
  parse_argument (str "/ch/1/col") = Ok (sample_property, Actions.Lookup)
  ∧ only_line (wingprop sample_property Actions.Lookup false prop_session) = Some (str "/ch/1/col = 5", 0)
  ∧ says harmless prop_session (wingprop sample_property Actions.Lookup false prop_session).2.
Proof.
  cbv zeta. split; [vm_compute; reflexivity|]. split; [vm_compute; reflexivity|].
  destruct (@wingprop_exact drive_map plain_json sample_property Actions.Lookup false prop_session prop_session_ok) as [Hsay _].
  exact Hsay.
Defined.
